(* ===== verification/_CoqProject ===== *)
-Q . S2P
Prelude.v
Effects.v
Ghost.v
Simulate.v
Fair.v
UdsTypes.v
DtcMem.v
DidTable.v
Security.v
AppEngine.v
Vecu.v
Uds.v
UdsSpec.v
Services.v
UdsRefine.v
UdsProps.v
UdsTrace.v
UdsSafe.v
Queue.v
IsotpKernel.v
Threads.v
Main.v
Process.v
Server.v
Locks.v
Lifetime.v
Order.v
Gates.v
Live.v
Timeout.v
CanIo.v
Isotp.v
