(* ===== verification/Prelude.v ===== *)
(** * vecu-uds: a virtual ECU that answers UDS requests

    ** The program

    vecu-uds is a process of five threads around one diagnostic server.
    [src/main.c] sets up the state, the socket and the request queue, starts
    four worker threads ([src/threads.c]) and waits for a signal.  The receive
    thread reads requests from the kernel's ISO-TP socket
    ([src/isotp_kernel.c]) and pushes them into a bounded queue
    ([src/queue.c]); the dispatcher pops them, has them answered by
    [uds_process_request] ([src/uds.c]) and sends the responses; the
    application thread ticks the simulated engine ([src/app_engine.c]); the S3
    thread reverts the session of a tester that has gone silent.  The services
    work on the ECU state ([src/vecu.c]): the session, a table of data
    identifiers ([src/did_table.c]), the trouble codes ([src/dtc_mem.c]), the
    SecurityAccess state ([src/security.c]) and the owner's name, each part
    under its own mutex.  [src/can_io.c] and [src/isotp.c] are a second ISO-TP
    transport, in user space over raw CAN frames, with no caller in the
    process.

    ** How it is modelled

    Integers are [Z] with the wrap-around of their width written out ([u8],
    [u16], [u32], [u64] below); memory objects are lists, and every load, store
    and copy checks its bounds: an access outside is [Undefined].  A section that
    has to wait is [Blocked].

    A function that touches shared data is a [prog] of [Effects.v]: local
    computation between critical sections, each labelled with its lock, each
    executed in one step on the shared object.  [run] executes a program
    alone; [pool_step] interleaves the sections of several threads, and a
    theorem about [rtc pool_step] holds for every scheduler.  That the sections
    may be taken as steps is what [Locks.v] justifies: under a mutex a section
    touches only the data of that mutex, without one only constants.  The two
    exceptions are in the code: the stop flag, a [volatile sig_atomic_t], and
    the socket record, whose descriptor the main thread writes while others may
    read it; their accesses are taken as indivisible.  The calls that
    initialise and destroy mutexes are sections of their own.  Statements about one function under
    interference are [safe]; statements about one function alone are about
    [run].

    ** Files, in order, and the source each models

    - [Prelude.v]: outcomes, memory, widths.  [Effects.v]: clock and entropy
      source, sections, programs, lenses, operations of a single section, loops,
      pools; safety, persistence and termination of pools.  [Ghost.v]: each
      thread of a pool under a contract, with a piece of specification state of
      its own.  [Simulate.v]: one program against another, section by section,
      and the bisimilarity of pools.  [Fair.v]: infinite executions under a fair
      scheduler.
    - [UdsTypes.v]: [include/uds_types.h].  [DtcMem.v], [DidTable.v],
      [Security.v], [AppEngine.v]: the components [dtc_mem], [did_table],
      [security], [app_engine].  [Vecu.v]: [vecu.c], the state record, its
      operations, start-up, and the invariant [ecu_wf].
    - [Uds.v]: [uds.c], the dispatcher and the eight handlers.  [UdsSpec.v]:
      the abstract server, on messages as byte lists.  [Services.v]: its
      services under interference, as sequences of atomic actions; run alone
      they do what [UdsSpec.v] says.  [UdsRefine.v]: the code implements both,
      with one proof for each handler.  [UdsProps.v]: properties of single
      exchanges.  [UdsTrace.v]: histories of exchanges.  [UdsSafe.v]: what holds
      of every answer under interference, and that no request is dropped.
    - [Queue.v]: [queue.c], as a ring buffer under a mutex, and its condition
      variables as a monitor with explicit sleepers.  The class [RequestQueue] and
      its laws are what the threads rely on; [uds_request_queue_laws] shows that
      the ring buffer keeps them.
    - [IsotpKernel.v]: [isotp_kernel.c].  [Threads.v]: [threads.c].
      [Main.v]: the parts of [main.c], and the pool of threads.  [Process.v]:
      [main] from the command line to the exit code.  [Server.v]: the abstract
      process, and that the code is bisimilar to it.  [Locks.v]: lock
      discipline.  [Lifetime.v]: start-up, the threads and the teardown run with
      the set of the mutexes and condition variables in use.
      [Order.v]: requests and responses of the whole process, in order.
      [Gates.v]: what a tester must have sent to get where it is, shown of the
      abstract process.  [Live.v]: every request is served.  [Timeout.v]: a
      silent tester loses its session.
    - [CanIo.v]: [can_io.c].  [Isotp.v]: [isotp.c].

    Definitions carry the names of the C functions.  A handler cut in pieces
    has pieces named after what they do, with the lines they stand for.

    ** What the theorems show

    - Functional correctness: [uds_process_request_refines], [serve_refines]
      (the server), [security_refines] (four phases and a lock-out),
      [queue_refines_fifo] (a bounded FIFO that can be closed),
      [dispatch_serves] (one turn of the dispatcher), [did_table_is_map],
      [read_dtc_decodes], [isotp_roundtrip],
      [isotp_send_segments].
    - Refinement of the whole process: [process_refines_server].  The abstract
      process has the same threads and the same sections, so the two have the
      same executions; it has no buffers, lengths, return codes or field
      encodings, and its queue is a list.
    - Security: [unlock_needs_key], [wrong_keys_at_most_three] (between resets),
      [lockout_over_bus], [owner_write_gated], [unlock_gated]; of the whole
      process, [process_gates].
    - The process under every scheduler: [process_safe] (no undefined access,
      and what each thread may wait for), [answered_in_order] (requests served in
      the order of arrival, one response each or none if its suppress bit is
      set, at most ten pending),
      [locks_protect] (shared data are touched only under their mutex, and what
      has none is written by the signal handler or by the main thread only),
      [process_shuts_down] (every execution after a signal is finite and ends
      with a return from [main], unless the signal was missed),
      [process_exit_code] (what the exit code says, and that the ECU is torn down
      only when no thread is left), [sync_lifetime] (mutexes and condition
      variables are used, and destroyed, only while they are initialised, and
      destroyed only when no thread can use them any more),
      [queue_no_lost_wakeup].
    - The process under every fair scheduler: [every_request_served],
      [s3_eventually_reverts].  A scheduler is a sequence of thread numbers in
      which each thread occurs again and again; a thread that cannot step when
      its turn comes stutters.  [round_robin_fair] shows that there is one.
    - Bounds: [engine_in_range], [isotp_recv_safe], [wrong_keys_at_most_three].
    - What the code does against what its comments or intentions say:
      [seed_response_overflows], [small_response_switches_session],
      [reset_skips_lockout], [default_session_keeps_unlock], [s3_race],
      [signal_can_be_missed], [read_error_ends_service], [fc_wait_unbounded],
      [shutdown_drains], [coolant_closed_form].

    ** What is assumed, and where

    Everything outside [src/] is a parameter, and its documented behaviour a
    named hypothesis, instantiated by concrete functions in the witnesses.
    [Env]: the answers of [clock_gettime] and [getrandom], in order;
    [ClockBounded] says that the clock stays far enough from the end of 64
    bits for a lock-out to be added (some 584 million years).  [Double]: the
    rounding of floating point and [sin]; [DoubleLaws] says that rounding is
    monotone and keeps the small integers, and that [sin] lies between -1 and
    1.  [Sock]: the answers of the ISO-TP socket; [SockLaws] says that messages
    consist of bytes.  [CanBus]: the results of writing frames; [writes_ok] and
    [clock_steady], used where a transfer is to succeed, say that writes succeed
    and that consecutive readings of the clock are at most a second apart.  A read that never
    returns is an answer like any other ([Quiet]), and the theorems that need
    reads to return say so.  [Net]: the results of the system calls that open
    the socket, for an interface and the two identifiers.

    ** Loops and fuel

    The scans of the trouble codes and of the DID table take [count - i] steps,
    the records of a DTC response one step each, the consecutive frames of a
    message of [n] bytes at most [n]; each is shown to suffice by the theorem
    that computes the loop.  The receive loops of [isotp.c] have one step more
    than the bus has frames: when it runs out, so has the bus, and the code is
    waiting.  The thread loops have no fuel: they are states of a step relation.

    ** Not modelled

    The contents of messages printed, [nanosleep] (a delay between two
    iterations changes no state; schedules are arbitrary anyway), a failure of [pthread_create] or of the
    initialisation of a mutex, the set-up of the signal handlers and of the read timeout
    (reads that return are a hypothesis), the weak memory behaviour of the plain
    accesses to
    the stop flag and the socket descriptor, and a reuse of a descriptor number
    after [close].  The tests, the Python client, the build files, scripts and
    container files of the repository are other programs or no code. *)

From Stdlib Require Export ZArith Lia.
From stdpp Require Export numbers prelude list list_monad.

#[export] Set Default Goal Selector "!".
Global Open Scope Z_scope.

(** * Outcomes

    A piece of C either finishes with a value, blocks (a [read] on a quiet
    bus, a [pthread_cond_wait] nobody ends), or has undefined behaviour (an
    access outside an object). *)

Inductive outcome (A : Type) : Type :=
| Done (a : A)
| Blocked
| Undefined.
Arguments Done {A} a.
Arguments Blocked {A}.
Arguments Undefined {A}.

#[export] Instance outcome_ret : MRet outcome := fun _ a => Done a.
#[export] Instance outcome_bind : MBind outcome := fun _ _ f m =>
  match m with
  | Done a => f a
  | Blocked => Blocked
  | Undefined => Undefined
  end.

#[export] Instance outcome_eq_dec `{EqDecision A} : EqDecision (outcome A).
Proof. solve_decision. Defined.

(** A NULL or non-NULL pointer; the pointee lives in the state. *)
Inductive ptr : Type := NULL | PTR.

#[export] Instance ptr_eq_dec : EqDecision ptr.
Proof. solve_decision. Defined.

Definition is_null (p : ptr) : bool := match p with NULL => true | PTR => false end.

(** Error numbers the code tests. *)
Definition EINTR : Z := 4.
Definition EAGAIN : Z := 11.

(** * Machine integers *)

Definition u8  (z : Z) : Z := z mod 2 ^ 8.
Definition u16 (z : Z) : Z := z mod 2 ^ 16.
Definition u32 (z : Z) : Z := z mod 2 ^ 32.
Definition u64 (z : Z) : Z := z mod 2 ^ 64.

#[global] Arguments u8 z : simpl never.
#[global] Arguments u16 z : simpl never.
#[global] Arguments u32 z : simpl never.
#[global] Arguments u64 z : simpl never.

Definition is_byte (b : Z) : Prop := 0 <= b < 256.
Abbreviation bytes := (list Z) (only parsing).

(** The C [bool] results and the comparisons keep their source spelling. *)
Notation "a '!=?' b" := (negb (Z.eqb a b)) (at level 70, no associativity) : Z_scope.

(** * Checked memory

    A C array is a list; [ld] and [st] are the indexed read and write, and
    they are [Undefined] outside the object.  [memcpy] copies [n] elements
    from [src + soff] to [dst + doff]. *)

Definition len {A} (l : list A) : Z := Z.of_nat (length l).

#[global] Arguments len {A} l : simpl never.

Fixpoint ld {A} (l : list A) (i : Z) : outcome A :=
  match l with
  | [] => Undefined
  | x :: l' => if i =? 0 then Done x else ld l' (i - 1)
  end.

Fixpoint st {A} (l : list A) (i : Z) (v : A) : outcome (list A) :=
  match l with
  | [] => Undefined
  | x :: l' =>
      if i =? 0 then Done (v :: l')
      else l'' ← st l' (i - 1) v; Done (x :: l'')
  end.

Definition memcpy {A} (dst : list A) (doff : Z) (src : list A) (soff n : Z)
  : outcome (list A) :=
  if (0 <=? doff) && (0 <=? soff) && (0 <=? n)
     && (doff + n <=? len dst) && (soff + n <=? len src)
  then Done (take (Z.to_nat doff) dst
             ++ take (Z.to_nat n) (drop (Z.to_nat soff) src)
             ++ drop (Z.to_nat (doff + n)) dst)
  else Undefined.

(** * Automation *)

Create HintDb vecu.
Create Rewrite HintDb vecu_rw.

(** Boolean tests on integers in hypotheses and goals become propositions. *)
Ltac zb :=
  repeat match goal with
  | H : context [Z.eqb ?a ?b] |- _ => destruct (Z.eqb_spec a b); simpl in H
  | H : context [Z.ltb ?a ?b] |- _ => destruct (Z.ltb_spec a b); simpl in H
  | H : context [Z.leb ?a ?b] |- _ => destruct (Z.leb_spec a b); simpl in H
  | |- context [Z.eqb ?a ?b] => destruct (Z.eqb_spec a b); simpl
  | |- context [Z.ltb ?a ?b] => destruct (Z.ltb_spec a b); simpl
  | |- context [Z.leb ?a ?b] => destruct (Z.leb_spec a b); simpl
  end.

(** Decide one test of the goal by [lia]. *)
Ltac dec_true :=
  match goal with
  | |- context [Z.eqb ?a ?b] => rewrite (proj2 (Z.eqb_eq a b)) by lia
  | |- context [Z.leb ?a ?b] => rewrite (proj2 (Z.leb_le a b)) by lia
  | |- context [Z.ltb ?a ?b] => rewrite (proj2 (Z.ltb_lt a b)) by lia
  end.
Ltac dec_false :=
  match goal with
  | |- context [Z.eqb ?a ?b] => rewrite (proj2 (Z.eqb_neq a b)) by lia
  | |- context [Z.leb ?a ?b] => rewrite (proj2 (Z.leb_gt a b)) by lia
  | |- context [Z.ltb ?a ?b] => rewrite (proj2 (Z.ltb_ge a b)) by lia
  end.

(** Decide every test of the goal that [lia] decides. *)
Ltac dec := repeat first [dec_true | dec_false].

(** * Machine integers: ranges and bit facts *)

Lemma u8_range z : 0 <= u8 z < 256.
Proof. unfold u8; apply Z.mod_pos_bound; lia. Qed.
Lemma u16_range z : 0 <= u16 z < 2 ^ 16.
Proof. unfold u16; apply Z.mod_pos_bound; lia. Qed.
Lemma u32_range z : 0 <= u32 z < 2 ^ 32.
Proof. unfold u32; apply Z.mod_pos_bound; lia. Qed.
Lemma u64_range z : 0 <= u64 z < 2 ^ 64.
Proof. unfold u64; apply Z.mod_pos_bound; lia. Qed.

Lemma u8_byte z : is_byte (u8 z).
Proof. apply u8_range. Qed.

Lemma u8_id z : is_byte z → u8 z = z.
Proof. intros H; apply Z.mod_small; exact H. Qed.
Lemma u16_id z : 0 <= z < 2 ^ 16 → u16 z = z.
Proof. apply Z.mod_small. Qed.
Lemma u32_id z : 0 <= z < 2 ^ 32 → u32 z = z.
Proof. apply Z.mod_small. Qed.
Lemma u64_id z : 0 <= z < 2 ^ 64 → u64 z = z.
Proof. apply Z.mod_small. Qed.

#[export] Hint Resolve u8_byte : vecu.

Lemma testbit_above b n i : 0 <= b < 2 ^ n → 0 <= n <= i → Z.testbit b i = false.
Proof.
  intros Hb Hi. rewrite <- (Z.mod_small b (2 ^ n)) by lia.
  apply Z.mod_pow2_bits_high. lia.
Qed.

(** Concatenating two bit fields is an addition. *)
Lemma lor_shiftl_add a b n :
  0 <= n → 0 <= b < 2 ^ n → Z.lor (Z.shiftl a n) b = a * 2 ^ n + b.
Proof.
  intros Hn Hb. rewrite <- Z.shiftl_mul_pow2 by lia.
  assert (Hl : Z.land (Z.shiftl a n) b = 0).
  { apply Z.bits_inj'; intros i Hi.
    rewrite Z.land_spec, Z.shiftl_spec, Z.bits_0 by lia.
    destruct (Z.lt_ge_cases i n).
    - by rewrite (Z.testbit_neg_r a) by lia.
    - rewrite (testbit_above b n i) by lia. apply andb_false_r. }
  rewrite Z.add_nocarry_lxor by done.
  symmetry. apply Z.lxor_lor. done.
Qed.

(** A property of one byte is checked on the 256 values. *)
Lemma byte_forall (P : Z → bool) :
  forallb P (seqZ 0 256) = true → ∀ b, is_byte b → P b = true.
Proof.
  intros HP b Hb. rewrite forallb_forall in HP. apply HP.
  apply list_elem_of_In, elem_of_seqZ. unfold is_byte in Hb. lia.
Qed.

(** * Lists and lengths *)

Lemma len_nonneg {A} (l : list A) : 0 <= len l.
Proof. unfold len; lia. Qed.
Lemma len_nil {A} : len (@nil A) = 0.
Proof. done. Qed.
Lemma len_cons {A} (x : A) l : len (x :: l) = 1 + len l.
Proof. unfold len; simpl; lia. Qed.
Lemma len_app {A} (l1 l2 : list A) : len (l1 ++ l2) = len l1 + len l2.
Proof. unfold len; rewrite length_app; lia. Qed.

Lemma len_prefix {A} (l k : list A) : l `prefix_of` k → len l <= len k.
Proof. intros [r ->]. rewrite len_app. unfold len. lia. Qed.
Lemma prefix_shorter {A} (l k r : list A) : l `prefix_of` k ++ r → len l <= len k → l `prefix_of` k.
Proof.
  intros Hl Hlen. destruct (prefix_weak_total l k (k ++ r) Hl) as [H|H]; [by apply prefix_app_r|done|].
  rewrite (prefix_length_eq k l H); [done|]. unfold len in Hlen. lia.
Qed.
Lemma len_replicate {A} n (x : A) : len (replicate n x) = Z.of_nat n.
Proof. unfold len. by rewrite length_replicate. Qed.
Lemma len_take {A} (l : list A) n : 0 <= n <= len l → len (take (Z.to_nat n) l) = n.
Proof. unfold len; intros; rewrite length_take; lia. Qed.
Lemma len_drop {A} (l : list A) n :
  0 <= n <= len l → len (drop (Z.to_nat n) l) = len l - n.
Proof. unfold len; intros; rewrite length_drop; lia. Qed.
Lemma to_nat_len {A} (l : list A) : Z.to_nat (len l) = length l.
Proof. unfold len; lia. Qed.

Lemma len_0_inv {A} (l : list A) : len l = 0 → l = [].
Proof. unfold len; destruct l; simpl; [done|lia]. Qed.

(** A list known to be long enough is a cons. *)
Lemma len_pos_inv {A} (l : list A) n :
  n <= len l → 0 < n → ∃ x l', l = x :: l' ∧ n - 1 <= len l'.
Proof.
  destruct l as [|x l']; [unfold len; simpl; lia|].
  rewrite len_cons. intros ??. exists x, l'. split; [done|lia].
Qed.

Create Rewrite HintDb vlen.
#[export] Hint Rewrite @len_nil @len_cons @len_app @len_replicate : vlen.

(** Destruct a list [l] of known minimal length into [n] leading cells. *)
Ltac uncons l :=
  let x := fresh "x" in let l' := fresh "tl" in let E := fresh "E" in let H := fresh "Hlen" in
  match goal with
  | Hl : ?n <= len l |- _ =>
      destruct (len_pos_inv l n Hl ltac:(lia)) as (x & l' & E & H);
      subst l; simpl Z.sub in H
  end.

Lemma omap_cons_app {A B} (f : A → option B) x l :
  omap f (x :: l) = option_list (f x) ++ omap f l.
Proof. simpl. by destruct (f x). Qed.

(** * Checked memory: laws *)

Lemma ld_app_mid {A} (l1 : list A) x l2 i :
  i = len l1 → ld (l1 ++ x :: l2) i = Done x.
Proof.
  intros ->. induction l1 as [|y l1 IH]; [done|].
  cbn [ld st app]. rewrite len_cons. pose proof (len_nonneg l1). dec_false.
  by replace (1 + len l1 - 1) with (len l1) by lia.
Qed.

Lemma st_app_mid {A} (l1 : list A) x l2 i v :
  i = len l1 → st (l1 ++ x :: l2) i v = Done (l1 ++ v :: l2).
Proof.
  intros ->. induction l1 as [|y l1 IH]; [done|].
  cbn [ld st app]. rewrite len_cons. pose proof (len_nonneg l1). dec_false.
  replace (1 + len l1 - 1) with (len l1) by lia. by rewrite IH.
Qed.

(** Storing past a prefix is storing in the rest. *)
Lemma st_app_r {A} (l1 l2 : list A) i k v :
  0 <= k → i = len l1 + k → st (l1 ++ l2) i v = (l2' ← st l2 k v; Done (l1 ++ l2')).
Proof.
  intros Hk ->. induction l1 as [|y l1 IH].
  - rewrite len_nil, Z.add_0_l. simpl. by destruct (st l2 k v).
  - cbn [st app]. rewrite len_cons. pose proof (len_nonneg l1). dec_false.
    replace (1 + len l1 + k - 1) with (len l1 + k) by lia. rewrite IH.
    by destruct (st l2 k v).
Qed.

Lemma split_at {A} (l : list A) i :
  0 <= i < len l → ∃ l1 x l2, l = l1 ++ x :: l2 ∧ i = len l1.
Proof.
  intros Hi. unfold len in Hi.
  destruct (lookup_lt_is_Some_2 l (Z.to_nat i)) as [x Hx]; [lia|].
  exists (take (Z.to_nat i) l), x, (drop (S (Z.to_nat i)) l).
  split; [by rewrite take_drop_middle|].
  unfold len. rewrite length_take. lia.
Qed.

Lemma ld_lookup {A} (l : list A) i x :
  0 <= i → ld l i = Done x ↔ l !! Z.to_nat i = Some x.
Proof.
  revert i. induction l as [|y l IH]; intros i Hi; simpl; [by split|].
  destruct (Z.eqb_spec i 0) as [->|Hne].
  - simpl. split; intros H; simplify_eq; done.
  - replace (Z.to_nat i) with (S (Z.to_nat (i - 1))) by lia. simpl. apply IH. lia.
Qed.

Lemma ld_in_range {A} (l : list A) i :
  0 <= i < len l → ∃ x, ld l i = Done x ∧ l !! Z.to_nat i = Some x.
Proof.
  intros Hi. destruct (split_at l i Hi) as (l1 & x & l2 & -> & ->).
  exists x. split; [by apply ld_app_mid|].
  rewrite to_nat_len, lookup_app_r by lia. by rewrite Nat.sub_diag.
Qed.

Lemma st_in_range {A} (l : list A) i v :
  0 <= i < len l → ∃ l', st l i v = Done l' ∧ len l' = len l ∧ l' = <[Z.to_nat i := v]> l.
Proof.
  intros Hi. destruct (split_at l i Hi) as (l1 & x & l2 & -> & ->).
  exists (l1 ++ v :: l2). split; [by apply st_app_mid|].
  split; [by rewrite !len_app, !len_cons|].
  rewrite to_nat_len, insert_app_r_alt by lia. by rewrite Nat.sub_diag.
Qed.

Lemma ld_neg {A} (l : list A) i : i < 0 → ld l i = Undefined.
Proof.
  revert i; induction l as [|x l IH]; intros i Hi; simpl; [done|].
  dec_false. apply IH. lia.
Qed.

Lemma st_out_of_range {A} (l : list A) i v : ¬ (0 <= i < len l) → st l i v = Undefined.
Proof.
  revert i; induction l as [|x l IH]; intros i Hi; simpl; [done|].
  rewrite len_cons in Hi. pose proof (len_nonneg l).
  dec_false. rewrite IH; [done|lia].
Qed.

Lemma st_Done {A} (l l' : list A) i v : st l i v = Done l' → len l' = len l.
Proof.
  intros Hst. destruct (decide (0 <= i < len l)) as [Hr|Hr].
  - destruct (st_in_range l i v Hr) as (l2 & Hl2 & Hlen & _). congruence.
  - by rewrite st_out_of_range in Hst.
Qed.

(** A copy of a whole source to the start of a destination. *)
Lemma memcpy_whole {A} (dst src : list A) n :
  n = len src → len src <= len dst →
  memcpy dst 0 src 0 n = Done (src ++ drop (length src) dst).
Proof.
  intros -> Hle. unfold memcpy. pose proof (len_nonneg src).
  dec. simpl. rewrite ?drop_0, ?Z.add_0_l, to_nat_len, firstn_all. done.
Qed.

Lemma memcpy_len {A} (dst src r : list A) d s n :
  memcpy dst d src s n = Done r → len r = len dst.
Proof.
  unfold memcpy. destruct (_ && _) eqn:E; [|done].
  intros [= <-]. rewrite !andb_true_iff, !Z.leb_le in E.
  autorewrite with vlen.
  rewrite !len_take, len_drop by (rewrite ?len_drop by lia; lia). lia.
Qed.

Lemma memcpy_defined {A} (dst src : list A) d s n :
  0 <= d → 0 <= s → 0 <= n → d + n <= len dst → s + n <= len src →
  memcpy dst d src s n =
    Done (take (Z.to_nat d) dst ++ take (Z.to_nat n) (drop (Z.to_nat s) src)
          ++ drop (Z.to_nat (d + n)) dst).
Proof. intros. unfold memcpy. by dec. Qed.

(** Copying the known prefix of a source to the start of a destination. *)
Lemma memcpy_prefix {A} (dst payload rest : list A) :
  len payload <= len dst →
  memcpy dst 0 (payload ++ rest) 0 (len payload) = Done (payload ++ drop (length payload) dst).
Proof.
  intros Hle. pose proof (len_nonneg payload). pose proof (len_nonneg rest).
  rewrite memcpy_defined by (rewrite ?len_app; lia).
  by rewrite Z.add_0_l, !drop_0, !to_nat_len, take_app_length.
Qed.

(** Copying to the middle of a destination split at the offset. *)
Lemma memcpy_mid {A} (pre mid post src : list A) d n :
  d = len pre → n = len mid → n <= len src →
  memcpy (pre ++ mid ++ post) d src 0 n
  = Done (pre ++ take (Z.to_nat n) src ++ post).
Proof.
  intros -> -> Hle. pose proof (len_nonneg pre). pose proof (len_nonneg mid).
  rewrite memcpy_defined; autorewrite with vlen; try lia.
  - rewrite drop_0, to_nat_len, take_app_length.
    do 3 f_equal. rewrite app_assoc. apply drop_app_length'.
    rewrite length_app. unfold len. lia.
  - pose proof (len_nonneg post). lia.
Qed.
