(* ===== verification/Effects.v ===== *)
(** Effects: the clock and the entropy source, critical sections over a
    shared state, thread code as a sequence of critical sections, its
    sequential execution, and its execution in a pool of threads.

    A C function of the vECU that touches shared data is a [prog]: local
    computation between critical sections, each of them one
    [pthread_mutex_lock] ... [pthread_mutex_unlock] region (or one access
    made without a lock, tagged so).  [run] executes a [prog] alone;
    [pool_step] interleaves the sections of several threads. *)

From S2P Require Import Prelude.

(** * The clock and the entropy source *)

Record timespec := Timespec { tv_sec : Z; tv_nsec : Z }.

(** What the operating system answers: the [n]-th [clock_gettime] and the
    [n]-th [getrandom] (bytes delivered, and the 32-bit word they form). *)
Class Env := {
  clock_gettime : nat → timespec;
  getrandom : nat → Z * Z
}.

(** [(uint64_t)ts.tv_sec * 1000u + (uint64_t)(ts.tv_nsec / 1000000)] *)
Definition ms_of_timespec (ts : timespec) : Z :=
  u64 (u64 (u64 (tv_sec ts) * 1000) + u64 (Z.quot (tv_nsec ts) 1000000)).

(** * Shared state and critical sections *)

Section sections.
Context {E : Env}.

(** The shared object, and how far the clock and the entropy source
    have been consumed. *)
Record world (S : Type) := World { obj : S; readings : nat; draws : nat }.
#[global] Arguments World {S} obj readings draws.
#[global] Arguments obj {S} w.
#[global] Arguments readings {S} w.
#[global] Arguments draws {S} w.

(** The body of a critical section. *)
Definition cs (S A : Type) : Type := world S → outcome (A * world S).

#[global] Instance cs_ret S : MRet (cs S) := λ _ a w, Done (a, w).
#[global] Instance cs_bind S : MBind (cs S) := λ _ _ f m w,
  match m w with
  | Done (a, w') => f a w'
  | Blocked => Blocked
  | Undefined => Undefined
  end.

Definition gets {S A} (f : S → A) : cs S A := λ w, Done (f (obj w), w).
Definition modify {S} (f : S → S) : cs S () := λ w,
  Done ((), World (f (obj w)) (readings w) (draws w)).
Definition of_outcome {S A} (o : outcome A) : cs S A := λ w,
  match o with
  | Done a => Done (a, w)
  | Blocked => Blocked
  | Undefined => Undefined
  end.
(** A store through the state whose result may be undefined. *)
Definition modify_out {S} (f : S → outcome S) : cs S () := λ w,
  match f (obj w) with
  | Done s => Done ((), World s (readings w) (draws w))
  | Blocked => Blocked
  | Undefined => Undefined
  end.

(** [while (cond) pthread_cond_wait(..)]: the section cannot proceed while
    [cond] holds. *)
Definition wait_while {S} (cond : S → bool) : cs S () := λ w,
  if cond (obj w) then Blocked else Done ((), w).

(** A computation on the shared object alone. *)
Definition on_obj {S A} (f : S → outcome (A * S)) : cs S A := λ w,
  match f (obj w) with
  | Done (a, s) => Done (a, World s (readings w) (draws w))
  | Blocked => Blocked
  | Undefined => Undefined
  end.

(** [vecu_now_ms]: one reading of CLOCK_MONOTONIC in milliseconds. *)
Definition vecu_now_ms {S} : cs S Z := λ w,
  Done (ms_of_timespec (clock_gettime (readings w)),
        World (obj w) (Datatypes.S (readings w)) (draws w)).

(** One [getrandom(&seed, sizeof(seed), 0)]. *)
Definition getrandom_u32 {S} : cs S (Z * Z) := λ w,
  let '(got, word) := getrandom (draws w) in
  Done ((got, u32 word), World (obj w) (readings w) (Datatypes.S (draws w))).
End sections.

(** Execute the monad of sections symbolically. *)
Ltac cs_simpl :=
  unfold mbind, cs_bind, outcome_bind, mret, cs_ret, outcome_ret, gets, modify, modify_out,
    of_outcome, vecu_now_ms, getrandom_u32 in *; simpl in *.

(** Time read by a section that makes its [k]-th reading at world [w]. *)
Definition now_at {E : Env} {S} (w : world S) : Z :=
  ms_of_timespec (clock_gettime (readings w)).

(** * Thread code *)

Section prog.
Context {L S : Type}.

Inductive prog (A : Type) : Type :=
| Ret (a : A)
| Ub
| Crit {B : Type} (l : L) (body : cs S B) (k : B → prog A).
#[global] Arguments Ret {A} a.
#[global] Arguments Ub {A}.
#[global] Arguments Crit {A B} l body k.

Fixpoint prog_bind {A B} (f : A → prog B) (p : prog A) : prog B :=
  match p with
  | Ret a => f a
  | Ub => Ub
  | Crit l body k => Crit l body (λ b, prog_bind f (k b))
  end.

#[global] Instance prog_mret : MRet prog := λ _ a, Ret a.
#[global] Instance prog_mbind : MBind prog := λ _ _ f p, prog_bind f p.

(** One critical section under lock [l]. *)
Definition crit {A} (l : L) (body : cs S A) : prog A := Crit l body Ret.

(** A local access that may be out of bounds. *)
Definition local {A} (o : outcome A) : prog A :=
  match o with Done a => Ret a | _ => Ub end.

(** Sequential execution. *)
Fixpoint run {A} (p : prog A) (w : world S) : outcome (A * world S) :=
  match p with
  | Ret a => Done (a, w)
  | Ub => Undefined
  | Crit l body k =>
      match body w with
      | Done (b, w') => run (k b) w'
      | Blocked => Blocked
      | Undefined => Undefined
      end
  end.

Lemma run_bind {A B} (p : prog A) (f : A → prog B) w :
  run (p ≫= f) w =
  match run p w with
  | Done (a, w') => run (f a) w'
  | Blocked => Blocked
  | Undefined => Undefined
  end.
Proof.
  revert w; induction p as [a| |B' l body k IH]; intros w; simpl; [done..|].
  destruct (body w) as [[b w']| |]; [apply IH|done..].
Qed.

Lemma run_crit {A} l (body : cs S A) w : run (crit l body) w = body w.
Proof. unfold crit; simpl. by destruct (body w) as [[]| |]. Qed.

Lemma run_local {A} (o : outcome A) w :
  run (local o) w = match o with Done a => Done (a, w) | _ => Undefined end.
Proof. by destruct o. Qed.

(** Pass one step of a sequence. *)
Lemma run_bind_Done {A B} (p : prog A) (f : A → prog B) w a w' :
  run p w = Done (a, w') → run (p ≫= f) w = run (f a) w'.
Proof. intros H. by rewrite run_bind, H. Qed.

Lemma run_local_Done {A B} (o : outcome A) (f : A → prog B) w a :
  o = Done a → run (local o ≫= f) w = run (f a) w.
Proof. by intros ->. Qed.

Lemma run_bind_Undefined {A B} (p : prog A) (f : A → prog B) w :
  run p w = Undefined → run (p ≫= f) w = Undefined.
Proof. intros H. by rewrite run_bind, H. Qed.

(** [safe mb I p Q]: whatever the other threads do between the sections of
    [p], as long as they keep [I], every section of [p] is defined and keeps
    [I], and [p] ends in [Q].  A section may block only in a state of [mb]. *)
Fixpoint safe (mb I : S → Prop) {A} (p : prog A) (Q : A → Prop) : Prop :=
  match p with
  | Ret a => Q a
  | Ub => False
  | Crit l body k =>
      ∀ w, I (obj w) →
      match body w with
      | Done (b, w') => I (obj w') ∧ safe mb I (k b) Q
      | Blocked => mb (obj w)
      | Undefined => False
      end
  end.

(** No blocking at all. *)
Definition never : S → Prop := λ _, False.

Lemma safe_bind mb I {A B} (p : prog A) (f : A → prog B) Q R :
  safe mb I p Q → (∀ a, Q a → safe mb I (f a) R) → safe mb I (p ≫= f) R.
Proof.
  intros Hp Hf; induction p as [a| |B' l body k IH]; simpl in *; [auto|done|].
  intros w Hw. specialize (Hp w Hw).
  destruct (body w) as [[b w']| |]; [|done..].
  destruct Hp as [HI Hk]. split; [done|]. by apply IH.
Qed.

Lemma safe_mono mb I {A} (p : prog A) (Q R : A → Prop) :
  safe mb I p Q → (∀ a, Q a → R a) → safe mb I p R.
Proof.
  intros Hp HQ; induction p as [a| |B' l body k IH]; simpl in *; [auto|done|].
  intros w Hw. specialize (Hp w Hw).
  destruct (body w) as [[b w']| |]; [|done..].
  destruct Hp. split; [done|]. by apply IH.
Qed.

Lemma safe_waits (mb mb' I : S → Prop) {A} (p : prog A) Q :
  (∀ s, mb s → mb' s) → safe mb I p Q → safe mb' I p Q.
Proof.
  intros Hmb Hp; induction p as [a| |B' l body k IH]; simpl in *; [done..|].
  intros w Hw. specialize (Hp w Hw).
  destruct (body w) as [[b w']| |]; [|by apply Hmb|done].
  destruct Hp. split; [done|]. by apply IH.
Qed.

Lemma safe_run mb I {A} (p : prog A) Q w :
  safe mb I p Q → I (obj w) →
  match run p w with
  | Done (a, w') => Q a ∧ I (obj w')
  | Blocked => ∃ s, mb s
  | Undefined => False
  end.
Proof.
  revert w; induction p as [a| |B' l body k IH]; intros w Hp Hw; simpl in *; [done..|].
  specialize (Hp w Hw).
  destruct (body w) as [[b w']| |]; [|eauto|done].
  destruct Hp as [HI Hk]. by apply IH.
Qed.

(** A non-blocking safe program run alone always finishes. *)
Lemma safe_run_total I {A} (p : prog A) Q w :
  safe never I p Q → I (obj w) → ∃ a w', run p w = Done (a, w') ∧ Q a ∧ I (obj w').
Proof.
  intros Hp Hw. pose proof (safe_run never I p Q w Hp Hw) as H.
  destruct (run p w) as [[a w']| |]; [by exists a, w'|by destruct H|done].
Qed.

(** Every section of [p] satisfies [G]. *)
Fixpoint guarded (G : ∀ B, L → cs S B → Prop) {A} (p : prog A) : Prop :=
  match p with
  | Ret _ | Ub => True
  | Crit l body k => G _ l body ∧ ∀ b, guarded G (k b)
  end.

Lemma guarded_bind G {A B} (p : prog A) (f : A → prog B) :
  guarded G p → (∀ a, guarded G (f a)) → guarded G (p ≫= f).
Proof.
  intros Hp Hf; induction p as [a| |B' l body k IH]; simpl in *; [auto|done|].
  destruct Hp as [HG Hk]. split; [done|]. intros b. by apply IH.
Qed.

Lemma guarded_local G {A} (o : outcome A) : guarded G (local o).
Proof. by destruct o. Qed.

Lemma safe_local mb I {A} (o : outcome A) a Q :
  o = Done a → Q a → safe mb I (local o) Q.
Proof. by intros ->. Qed.

(** [ends P p Q]: whenever [p] ends, having met only states of [P], it ends
    in [Q]. *)
Fixpoint ends (P : S → Prop) {A} (p : prog A) (Q : A → Prop) : Prop :=
  match p with
  | Ret a => Q a
  | Ub => True
  | Crit l body k => ∀ w b w', P (obj w) → body w = Done (b, w') → ends P (k b) Q
  end.

Lemma ends_bind P {A B} (p : prog A) (f : A → prog B) Q R :
  ends P p Q → (∀ a, Q a → ends P (f a) R) → ends P (p ≫= f) R.
Proof.
  intros Hp Hf; induction p as [a| |B' l body k IH]; simpl in *; [auto|done|]. intros w b w' Hw Hb.
  apply IH. by eapply Hp.
Qed.

Lemma ends_any P {A} (p : prog A) : ends P p (λ _, True).
Proof. induction p as [a| |B l body k IH]; simpl; [done|done|]. intros w b w' _ _. apply IH. Qed.

Lemma safe_ends mb (I P : S → Prop) {A} (p : prog A) Q R :
  safe mb I p Q → (∀ s, I s → P s) → ends P p R → safe mb I p (λ a, Q a ∧ R a).
Proof.
  intros Hp HI He; induction p as [a| |B l body k IH]; simpl in *; [done..|]. intros w Hw.
  specialize (Hp w Hw). destruct (body w) as [[b w']| |] eqn:Hb; [|done..]. destruct Hp as [HI' Hk].
  split; [done|]. apply IH; [done|]. eapply He; [by apply HI|done].
Qed.

(** What the sections keep can be assumed of every state they meet. *)
Lemma safe_keeping mb (I P : S → Prop) {A} (p : prog A) Q :
  safe mb I p Q → guarded (λ B _ body, ∀ w b w', body w = Done (b, w') → P (obj w) → P (obj w')) p →
  safe mb (λ s, I s ∧ P s) p Q.
Proof.
  intros Hp Hg; induction p as [a| |B l body k IH]; simpl in *; [done..|]. intros w [Hw HP].
  destruct Hg as [HG Hg]. specialize (Hp w Hw). destruct (body w) as [[b w']| |] eqn:Hb; [|done..].
  destruct Hp as [HI' Hk]. split; [|by apply IH]. split; [done|]. by eapply HG.
Qed.

Lemma guarded_mono (G G' : ∀ B, L → cs S B → Prop) {A} (p : prog A) :
  (∀ B l (body : cs S B), G B l body → G' B l body) → guarded G p → guarded G' p.
Proof. intros HG; induction p as [a| |B l body k IH]; simpl; [done..|]. intros [Hb Hk]. split; auto. Qed.
End prog.

Arguments prog : clear implicits.

(** * Components: a sub-object with its own mutex *)

(** An access of a component takes the component's mutex, or none. *)
Inductive access := Locked | Plain.

Record lens (T S : Type) := Lens { view : T → S; update : S → T → T }.
Arguments Lens {T S} view update.
Arguments view {T S} l.
Arguments update {T S} l.

Class LensLaws {T S} (ln : lens T S) := {
  view_update : ∀ s t, view ln (update ln s t) = s;
  update_update : ∀ s s' t, update ln s' (update ln s t) = update ln s' t;
  update_view : ∀ t, update ln (view ln t) t = t
}.

Definition zoom_world {T S} (ln : lens T S) (w : world T) : world S :=
  World (view ln (obj w)) (readings w) (draws w).
Definition unzoom_world {T S} (ln : lens T S) (w : world T) (w' : world S) : world T :=
  World (update ln (obj w') (obj w)) (readings w') (draws w').

Definition zoom {T S A} (ln : lens T S) (body : cs S A) : cs T A := λ w,
  match body (zoom_world ln w) with
  | Done (a, w') => Done (a, unzoom_world ln w w')
  | Blocked => Blocked
  | Undefined => Undefined
  end.

Fixpoint lift {K L T S A} (lk : K → L) (ln : lens T S) (p : prog K S A)
  : prog L T A :=
  match p with
  | Ret a => Ret a
  | Ub => Ub
  | Crit l body k => Crit (lk l) (zoom ln body) (λ b, lift lk ln (k b))
  end.

Lemma run_lift {K L T S A} (lk : K → L) (ln : lens T S) `{!LensLaws ln}
    (p : prog K S A) (w : world T) :
  run (lift lk ln p) w =
  match run p (zoom_world ln w) with
  | Done (a, w') => Done (a, unzoom_world ln w w')
  | Blocked => Blocked
  | Undefined => Undefined
  end.
Proof.
  revert w; induction p as [a| |B l body k IH]; intros w; simpl; [|done|].
  - unfold unzoom_world, zoom_world; simpl. rewrite update_view. by destruct w.
  - unfold zoom. destruct (body (zoom_world ln w)) as [[b w']| |]; [|done..].
    rewrite IH. replace (zoom_world ln (unzoom_world ln w w')) with w'.
    + destruct (run (k b) w') as [[a w'']| |]; [|done..].
      unfold unzoom_world; simpl. by rewrite update_update.
    + unfold zoom_world, unzoom_world; simpl. rewrite view_update. by destruct w'.
Qed.

(** A component's invariant carries to the object that contains it. *)
Lemma safe_lift {K L T S A} (lk : K → L) (ln : lens T S) (mb : S → Prop) (mb' : T → Prop)
    (I : S → Prop) (J : T → Prop) (p : prog K S A) Q :
  (∀ t, J t → I (view ln t)) →
  (∀ s t, J t → I s → J (update ln s t)) →
  (∀ t, mb (view ln t) → mb' t) →
  safe mb I p Q → safe mb' J (lift lk ln p) Q.
Proof.
  intros HJI HIJ Hmb; induction p as [a| |B l body k IH]; simpl; [done..|].
  intros Hp w Hw. specialize (Hp (zoom_world ln w) (HJI _ Hw)).
  unfold zoom. destruct (body (zoom_world ln w)) as [[b w']| |]; [|by apply Hmb|done].
  destruct Hp as [HI Hk]. split; [|by apply IH].
  simpl. by apply HIJ.
Qed.

Lemma guarded_lift {K L T S A} (lk : K → L) (ln : lens T S)
    (G : ∀ B, K → cs S B → Prop) (G' : ∀ B, L → cs T B → Prop) (p : prog K S A) :
  (∀ B l (body : cs S B), G B l body → G' B (lk l) (zoom ln body)) →
  guarded G p → guarded G' (lift lk ln p).
Proof.
  intros HG; induction p as [a| |B l body k IH]; simpl; [done..|].
  intros [Hb Hk]. split; [by apply HG|]. intros b. by apply IH.
Qed.

Lemma guarded_true {L S A} (p : prog L S A) : guarded (λ _ _ _, True) p.
Proof. induction p as [a| |B l body k IH]; simpl; auto. Qed.

Lemma guarded_forall {L S A X} (G : X → ∀ B, L → cs S B → Prop) (p : prog L S A) :
  (∀ x, guarded (G x) p) → guarded (λ B l body, ∀ x, G x B l body) p.
Proof.
  induction p as [a| |B l body k IH]; simpl; [done..|]. intros H. split; [intros x; apply H|].
  intros b. apply IH. intros x. apply H.
Qed.

Lemma guarded_and {L S A} (G1 G2 : ∀ B, L → cs S B → Prop) (p : prog L S A) :
  guarded G1 p → guarded G2 p → guarded (λ B l body, G1 B l body ∧ G2 B l body) p.
Proof.
  induction p as [a| |B l body k IH]; simpl; [done..|]. intros [] []. split; [done|]. intros b. by apply IH.
Qed.

(** ** Operations of a single section

    [atomic p Φ]: whatever the other threads do, [p] is one section, which
    takes the world to the outcome as [Φ] says. *)

Section atomic.
Context {L S : Type}.

Definition atomic {A} (p : prog L S A) (Φ : world S → outcome (A * world S) → Prop) : Prop :=
  ∃ l body, p = crit l body ∧ ∀ w, Φ w (run p w).

Lemma atomic_crit {A} l (body : cs S A) (Φ : world S → outcome (A * world S) → Prop) :
  (∀ w, Φ w (run (crit l body) w)) → atomic (crit l body) Φ.
Proof. intros H. by exists l, body. Qed.

Lemma atomic_run {A} l (body : cs S A) (p : prog L S A) : p = crit l body → atomic p (λ w o, o = run p w).
Proof. intros ->. by apply atomic_crit. Qed.

(** What a contract says of a state and the outcome there. *)
Definition outcome_post (mb : Prop) (I : S → Prop) {A} (Q : A → Prop) (o : outcome (A * world S)) : Prop :=
  match o with
  | Done (a, w') => I (obj w') ∧ Q a
  | Blocked => mb
  | Undefined => False
  end.

Lemma safe_atomic mb I {A} (p : prog L S A) Φ (Q : A → Prop) :
  atomic p Φ → (∀ w o, I (obj w) → Φ w o → outcome_post (mb (obj w)) I Q o) → safe mb I p Q.
Proof.
  intros (l & body & -> & Hp) H w Hw. specialize (H w _ Hw (Hp w)). rewrite run_crit in H.
  by destruct (body w) as [[]| |].
Qed.

Lemma ends_atomic (P : S → Prop) {A} (p : prog L S A) Φ (Q : A → Prop) :
  atomic p Φ → (∀ w a w', P (obj w) → Φ w (Done (a, w')) → Q a) → ends P p Q.
Proof.
  intros (l & body & -> & Hp) H w b w' Hw Hb. apply (H w b w' Hw). specialize (Hp w).
  by rewrite run_crit, Hb in Hp.
Qed.
End atomic.

Lemma atomic_lift {K L T S A} (lk : K → L) (ln : lens T S) `{!LensLaws ln} (p : prog K S A) Φ :
  atomic p Φ →
  atomic (lift lk ln p) (λ w o, ∃ o', Φ (zoom_world ln w) o' ∧
    o = match o' with
        | Done (a, w') => Done (a, unzoom_world ln w w')
        | Blocked => Blocked
        | Undefined => Undefined
        end).
Proof.
  intros (l & body & -> & Hp). exists (lk l), (zoom ln body). split; [done|]. intros w.
  exists (run (crit l body) (zoom_world ln w)). split; [done|]. by apply run_lift.
Qed.

(** * Pools of looping threads *)

Section pool.
Context {L S : Type}.

Inductive ctl := Continue | Break.

(** [while (...) { body }] followed by the code after the loop; [Loc] is
    the thread's own stack data. *)
Record loop (Loc : Type) := Loop {
  loop_body : Loc → prog L S (ctl * Loc);
  loop_exit : Loc → prog L S ()
}.
#[global] Arguments Loop {Loc} loop_body loop_exit.
#[global] Arguments loop_body {Loc} l.
#[global] Arguments loop_exit {Loc} l.

Inductive tstate (Loc : Type) :=
| InBody (p : prog L S (ctl * Loc))
| InExit (p : prog L S ())
| Exited.
#[global] Arguments InBody {Loc} p.
#[global] Arguments InExit {Loc} p.
#[global] Arguments Exited {Loc}.

Inductive thread := | Thread {Loc : Type} (l : loop Loc) (t : tstate Loc).

Definition start {Loc} (l : loop Loc) (loc : Loc) : thread :=
  Thread l (InBody (loop_body l loc)).

(** One step of one thread: a section, or the loop's own control. *)
Inductive thread_step : world S → thread → world S → thread → Prop :=
| step_body Loc (l : loop Loc) B lk (body : cs S B) k w b w' :
    body w = Done (b, w') →
    thread_step w (Thread l (InBody (Crit lk body k))) w' (Thread l (InBody (k b)))
| step_continue Loc (l : loop Loc) loc w :
    thread_step w (Thread l (InBody (Ret (Continue, loc))))
                w (Thread l (InBody (loop_body l loc)))
| step_break Loc (l : loop Loc) loc w :
    thread_step w (Thread l (InBody (Ret (Break, loc))))
                w (Thread l (InExit (loop_exit l loc)))
| step_exit Loc (l : loop Loc) B lk (body : cs S B) k w b w' :
    body w = Done (b, w') →
    thread_step w (Thread l (InExit (Crit lk body k))) w' (Thread l (InExit (k b)))
| step_exited Loc (l : loop Loc) w :
    thread_step w (Thread l (InExit (Ret ()))) w (Thread l Exited).

Definition pool : Type := world S * list thread.

Inductive pool_step : pool → pool → Prop :=
| pool_thread w ts1 t ts2 w' t' :
    thread_step w t w' t' →
    pool_step (w, ts1 ++ t :: ts2) (w', ts1 ++ t' :: ts2).

(** A thread about to execute an undefined access. *)
Definition thread_undefined (w : world S) (t : thread) : Prop :=
  match t with
  | Thread l (InBody Ub) | Thread l (InExit Ub) => True
  | Thread l (InBody (Crit lk body k)) => body w = Undefined
  | Thread l (InExit (Crit lk body k)) => body w = Undefined
  | _ => False
  end.

(** A thread whose next section must wait. *)
Definition thread_blocked (w : world S) (t : thread) : Prop :=
  match t with
  | Thread l (InBody (Crit lk body k)) => body w = Blocked
  | Thread l (InExit (Crit lk body k)) => body w = Blocked
  | _ => False
  end.

Definition thread_exited (t : thread) : Prop :=
  match t with Thread l Exited => True | _ => False end.

(** ** Safety *)

Definition loop_safe (mb I : S → Prop) {Loc} (J : Loc → Prop) (l : loop Loc) : Prop :=
  (∀ loc, J loc → safe mb I (loop_body l loc) (λ r, J r.2)) ∧
  (∀ loc, J loc → safe mb I (loop_exit l loc) (λ _, True)).

Definition thread_safe (mb I : S → Prop) (t : thread) : Prop :=
  match t with
  | @Thread Loc l ts =>
      ∃ J : Loc → Prop, loop_safe mb I J l ∧
      match ts with
      | InBody p => safe mb I p (λ r, J r.2)
      | InExit p => safe mb I p (λ _, True)
      | Exited => True
      end
  end.

(** Each thread with the states in which it may wait. *)
Definition pool_safe (mbs : list (S → Prop)) (I : S → Prop) (c : pool) : Prop :=
  I (obj c.1) ∧ Forall2 (λ mb t, thread_safe mb I t) mbs c.2.

Lemma start_safe mb I {Loc} (J : Loc → Prop) (l : loop Loc) loc :
  loop_safe mb I J l → J loc → thread_safe mb I (start l loc).
Proof. intros Hl Hloc. exists J. split; [done|]. by apply Hl. Qed.

Lemma thread_step_safe mb I w t w' t' :
  thread_step w t w' t' → I (obj w) → thread_safe mb I t →
  I (obj w') ∧ thread_safe mb I t'.
Proof.
  intros Hstep HI Ht; destruct Hstep as
    [Loc l B lk body k w b w' Hb|Loc l loc w|Loc l loc w|Loc l B lk body k w b w' Hb|Loc l w];
    destruct Ht as (J & Hl & Hs).
  - specialize (Hs w HI). rewrite Hb in Hs. destruct Hs. split; [done|]. by exists J.
  - split; [done|]. exists J. split; [done|]. by apply Hl.
  - split; [done|]. exists J. split; [done|]. by apply Hl.
  - specialize (Hs w HI). rewrite Hb in Hs. destruct Hs. split; [done|]. by exists J.
  - split; [done|]. by exists J.
Qed.

Lemma pool_step_safe mbs I c c' : pool_step c c' → pool_safe mbs I c → pool_safe mbs I c'.
Proof.
  intros Hstep [HI Hts]; destruct Hstep as [w ts1 t ts2 w' t' Hstep]; simpl in *.
  apply Forall2_app_inv_r in Hts as (m1 & m2 & H1 & H2 & ->).
  apply Forall2_cons_inv_r in H2 as (mb & m3 & Ht & H2 & ->).
  destruct (thread_step_safe mb I w t w' t' Hstep HI Ht) as [HI' Ht'].
  split; [done|]. apply Forall2_app; [done|]. by constructor.
Qed.

Lemma pool_steps_safe mbs I c c' : rtc pool_step c c' → pool_safe mbs I c → pool_safe mbs I c'.
Proof. induction 1 as [|c c1 c2 Hs _ IH]; [auto|]; intros Hc; apply IH; eapply pool_step_safe; eauto. Qed.

(** A safe thread is never at an undefined access, and waits only where
    waiting is allowed. *)
Lemma thread_safe_defined mb I w t :
  I (obj w) → thread_safe mb I t → ¬ thread_undefined w t ∧ (thread_blocked w t → mb (obj w)).
Proof.
  intros HI Ht. destruct t as [Loc l [[r| |B lk body k]|[r| |B lk body k]|]];
    destruct Ht as (J & _ & Hs); simpl in *; try tauto.
  all: specialize (Hs _ HI); split; [intros Hu; by rewrite Hu in Hs|intros Hu; by rewrite Hu in Hs].
Qed.

Lemma pool_safe_defined mbs I c :
  pool_safe mbs I c →
  Forall2 (λ mb t, ¬ thread_undefined c.1 t ∧ (thread_blocked c.1 t → mb (obj c.1))) mbs c.2.
Proof. intros [HI Hts]. eapply Forall2_impl; [exact Hts|]. intros mb t Ht. by eapply thread_safe_defined. Qed.

(** ** Termination once a stable condition holds *)

(** The sections keep [P]. *)
Definition keeps (P : S → Prop) : ∀ B, L → cs S B → Prop :=
  λ B _ body, ∀ w b w', body w = Done (b, w') → P (obj w) → P (obj w').

(** The sections change the state along [R]. *)
Definition moves (R : S → S → Prop) : ∀ B, L → cs S B → Prop :=
  λ B _ body, ∀ w b w', body w = Done (b, w') → R (obj w) (obj w').

(** What is left of the thread keeps [P]. *)
Definition thread_keeps (P : S → Prop) (t : thread) : Prop :=
  match t with
  | @Thread Loc l ts =>
      match ts with
      | InBody p =>
          guarded (keeps P) p ∧ (∀ loc, guarded (keeps P) (loop_body l loc)) ∧
          (∀ loc, guarded (keeps P) (loop_exit l loc))
      | InExit p => guarded (keeps P) p
      | Exited => True
      end
  end.

(** Under [P] an iteration ends in a break, whatever the other threads do
    meanwhile as long as they keep [P]. *)
Definition thread_breaks (P : S → Prop) (t : thread) : Prop :=
  match t with
  | @Thread Loc l _ => ∀ loc, safe never P (loop_body l loc) (λ r, r.1 = Break)
  end.

Lemma start_keeps P {Loc} (l : loop Loc) loc :
  (∀ loc, guarded (keeps P) (loop_body l loc)) → (∀ loc, guarded (keeps P) (loop_exit l loc)) →
  thread_keeps P (start l loc).
Proof. intros Hb He. split; [apply Hb|]. by split. Qed.

Lemma thread_step_kept P w t w' t' :
  thread_step w t w' t' → thread_keeps P t → thread_keeps P t' ∧ (P (obj w) → P (obj w')).
Proof.
  intros Hstep Ht; destruct Hstep as
    [Loc l B lk body k w b w' Hb|Loc l loc w|Loc l loc w|Loc l B lk body k w b w' Hb|Loc l w].
  - destruct Ht as ([Hg Hk] & Hl & He). split; [by split; [apply Hk|]|by apply (Hg w b w')].
  - destruct Ht as (_ & Hl & He). split; [|done]. split; [apply Hl|done].
  - destruct Ht as (_ & Hl & He). split; [apply He|done].
  - destruct Ht as [Hg Hk]. split; [apply Hk|by apply (Hg w b w')].
  - done.
Qed.

Lemma thread_step_breaks P w t w' t' : thread_step w t w' t' → thread_breaks P t → thread_breaks P t'.
Proof. by destruct 1. Qed.

(** What one thread's step keeps, a pool's steps keep. *)
Lemma pool_steps_forall (F : thread → Prop) c c' :
  (∀ w t w' t', thread_step w t w' t' → F t → F t') →
  rtc pool_step c c' → Forall F c.2 → Forall F c'.2.
Proof.
  intros HF. induction 1 as [|c c1 c2 [w ts1 t ts2 w' t' Hs] _ IH]; [done|]; intros Hc. apply IH. simpl in *.
  apply Forall_app in Hc as [H1 H2]. apply Forall_cons_1 in H2 as [Ht H2].
  apply Forall_app. split; [done|]. constructor; [by eapply HF|done].
Qed.

Lemma pool_steps_kept P c c' :
  rtc pool_step c c' → Forall (thread_keeps P) c.2 → P (obj c.1) → P (obj c'.1).
Proof.
  induction 1 as [|c c1 c2 Hs _ IH]; [done|]. intros Hc Hp. apply IH.
  - eapply (pool_steps_forall _ c c1); [|by apply rtc_once|done]. intros w t w' t' Hst Ht.
    by eapply thread_step_kept.
  - destruct Hs as [w ts1 t ts2 w' t' Hs]. simpl in *.
    apply Forall_app in Hc as [_ H2]. apply Forall_cons_1 in H2 as [Ht _].
    by apply (thread_step_kept P w t w' t' Hs Ht).
Qed.

(** *** No infinite schedule *)

(** The steps a thread may take in a world where [P] holds. *)
Definition stop_step (P : S → Prop) (t t' : thread) : Prop :=
  ∃ w w', P (obj w) ∧ thread_step w t w' t'.

Lemma thread_step_inv w t w' t' :
  thread_step w t w' t' →
  match t with
  | @Thread Loc l (InBody (Crit lk body k)) => ∃ b, body w = Done (b, w') ∧ t' = Thread l (InBody (k b))
  | @Thread Loc l (InBody (Ret (Continue, loc))) => w' = w ∧ t' = Thread l (InBody (loop_body l loc))
  | @Thread Loc l (InBody (Ret (Break, loc))) => w' = w ∧ t' = Thread l (InExit (loop_exit l loc))
  | @Thread Loc l (InExit (Crit lk body k)) => ∃ b, body w = Done (b, w') ∧ t' = Thread l (InExit (k b))
  | @Thread Loc l (InExit (Ret ())) => w' = w ∧ t' = Thread l Exited
  | _ => False
  end.
Proof. destruct 1; eauto. Qed.

Lemma exited_sn P {Loc} (l : loop Loc) : sn (stop_step P) (Thread l Exited).
Proof. constructor. intros t (w & w' & _ & Hs%thread_step_inv). done. Qed.

Lemma in_exit_sn P {Loc} (l : loop Loc) p : sn (stop_step P) (Thread l (InExit p)).
Proof.
  induction p as [[]| |B lk body k IH]; constructor; intros t (w & w' & _ & Hs%thread_step_inv).
  - destruct Hs as [_ ->]. apply exited_sn.
  - done.
  - destruct Hs as (b & _ & ->). apply IH.
Qed.

(** An iteration that ends in a break. *)
Lemma breaking_sn P {Loc} (l : loop Loc) p :
  safe never P p (λ r, r.1 = Break) → sn (stop_step P) (Thread l (InBody p)).
Proof.
  induction p as [[c loc]| |B lk body k IH]; intros Hp; constructor; intros t (w & w' & Hw & Hs%thread_step_inv).
  - simpl in Hp. subst c. destruct Hs as [_ ->]. apply in_exit_sn.
  - done.
  - destruct Hs as (b & Hb & ->). apply IH. specialize (Hp w Hw). rewrite Hb in Hp. by apply Hp.
Qed.

Lemma in_body_sn P {Loc} (l : loop Loc) p :
  (∀ loc, safe never P (loop_body l loc) (λ r, r.1 = Break)) → sn (stop_step P) (Thread l (InBody p)).
Proof.
  intros Hl. induction p as [[[] loc]| |B lk body k IH]; constructor; intros t (w & w' & Hw & Hs%thread_step_inv).
  - destruct Hs as [_ ->]. by apply breaking_sn.
  - destruct Hs as [_ ->]. apply in_exit_sn.
  - done.
  - destruct Hs as (b & _ & ->). apply IH.
Qed.

Lemma thread_sn P t : thread_breaks P t → sn (stop_step P) t.
Proof.
  destruct t as [Loc l [p|p|]]; intros Hl;
    [by apply in_body_sn|apply in_exit_sn|apply exited_sn].
Qed.

(** One thread of a list moves. *)
Definition list_step (P : S → Prop) (ts ts' : list thread) : Prop :=
  ∃ ts1 t t' ts2, ts = ts1 ++ t :: ts2 ∧ ts' = ts1 ++ t' :: ts2 ∧ stop_step P t t'.

Lemma list_step_sn P ts : Forall (sn (stop_step P)) ts → sn (list_step P) ts.
Proof.
  induction 1 as [|t ts Ht _ IHts].
  - constructor. intros ? (ts1 & t & t' & ts2 & H & _). by destruct ts1.
  - revert ts IHts. induction Ht as [t _ IHt]. intros ts Hts.
    induction Hts as [ts Hts IHs]. constructor. intros ts' (ts1 & u & u' & ts2 & H1 & -> & Hu).
    destruct ts1 as [|v ts1]; injection H1 as -> ->.
    + apply IHt; [done|]. by constructor.
    + apply IHs. by exists ts1, u, u', ts2.
Qed.

(** So every schedule of such threads is finite. *)
Lemma pool_sn P w ts :
  Forall (thread_keeps P) ts → Forall (thread_breaks P) ts → P (obj w) → sn pool_step (w, ts).
Proof.
  intros Hk Hb Hp. assert (Hsn : sn (list_step P) ts).
  { apply list_step_sn. eapply Forall_impl; [exact Hb|]. apply thread_sn. }
  clear Hb. revert w Hk Hp. induction Hsn as [ts _ IH]. intros w Hk Hp. constructor. intros [w' ts'] Hs.
  change (pool_step (w, ts) (w', ts')) in Hs. apply IH.
  - inversion Hs as [w0 ts1 t ts2 w1 t' Hst E1 E2]; subst. exists ts1, t, t', ts2. split; [done|].
    split; [done|]. by exists w, w'.
  - eapply (pool_steps_forall _ (w, ts) (w', ts')); [|by apply rtc_once|done].
    intros. by eapply thread_step_kept.
  - by apply (pool_steps_kept P _ _ (rtc_once _ _ Hs)).
Qed.

(** A thread that is not exited moves, waits or is undefined. *)
Lemma thread_progress w t :
  thread_exited t ∨ thread_blocked w t ∨ thread_undefined w t ∨ ∃ w' t', thread_step w t w' t'.
Proof.
  destruct t as [Loc l [[[[] loc]| |B lk body k]|[[]| |B lk body k]|]]; simpl; auto;
    try (right; right; right; eexists _, _; econstructor; fail).
  all: destruct (body w) as [[b w']| |] eqn:Hb; auto; right; right; right; eexists _, _;
    econstructor; exact Hb.
Qed.

(** In a pool that cannot move each thread is exited, waiting or undefined. *)
Lemma pool_stuck w ts :
  (∀ c, ¬ pool_step (w, ts) c) →
  Forall (λ t, thread_exited t ∨ thread_blocked w t ∨ thread_undefined w t) ts.
Proof.
  intros Hst. apply Forall_forall. intros t Hin. apply list_elem_of_split in Hin as (ts1 & ts2 & ->).
  destruct (thread_progress w t) as [?|[?|[?|(w' & t' & Hs)]]]; [auto..|].
  by destruct (Hst (w', ts1 ++ t' :: ts2)).
Qed.

(** A pool in which one thread moves. *)
Definition tstep (c c' : world S * thread) : Prop := thread_step c.1 c.2 c'.1 c'.2.

Lemma tsteps_pool ts1 ts2 c c' :
  rtc tstep c c' → rtc pool_step (c.1, ts1 ++ c.2 :: ts2) (c'.1, ts1 ++ c'.2 :: ts2).
Proof.
  induction 1 as [|[w t] [w1 t1] c2 Hs _ IH]; [apply rtc_refl|].
  eapply rtc_l; [by apply pool_thread|exact IH].
Qed.

(** A completed run is a sequence of thread steps. *)
Lemma run_body_steps {Loc} (l : loop Loc) p w a w' :
  run p w = Done (a, w') → rtc tstep (w, Thread l (InBody p)) (w', Thread l (InBody (Ret a))).
Proof.
  revert w. induction p as [x| |B lk body k IH]; intros w Hr; simpl in Hr; [|done|].
  - injection Hr as -> ->. apply rtc_refl.
  - destruct (body w) as [[b w1]| |] eqn:Hb; [|done..].
    apply (rtc_l _ _ (w1, Thread l (InBody (k b)))); [by apply (step_body Loc l B lk body k w b w1)|]. by apply IH.
Qed.

Lemma run_exit_steps {Loc} (l : loop Loc) p w w' :
  run p w = Done ((), w') → rtc tstep (w, Thread l (InExit p)) (w', Thread l (InExit (Ret ()))).
Proof.
  revert w. induction p as [[]| |B lk body k IH]; intros w Hr; simpl in Hr; [|done|].
  - injection Hr as ->. apply rtc_refl.
  - destruct (body w) as [[b w1]| |] eqn:Hb; [|done..].
    apply (rtc_l _ _ (w1, Thread l (InExit (k b)))); [by apply (step_exit Loc l B lk body k w b w1)|]. by apply IH.
Qed.

(** An iteration that breaks, and the end of the thread. *)
Lemma thread_runs_out {Loc} (l : loop Loc) loc loc' w w1 w' :
  run (loop_body l loc) w = Done ((Break, loc'), w1) → run (loop_exit l loc') w1 = Done ((), w') →
  rtc tstep (w, start l loc) (w', Thread l Exited).
Proof.
  intros Hb He. etrans; [exact (run_body_steps l _ _ _ _ Hb)|].
  apply (rtc_l _ _ (w1, Thread l (InExit (loop_exit l loc')))); [apply step_break|].
  etrans; [exact (run_exit_steps l _ _ _ He)|]. apply rtc_once, step_exited.
Qed.

(** One section, then the rest. *)
Lemma tstep_body {Loc} (l : loop Loc) {B} lk (body : cs S B) k w b w' c :
  body w = Done (b, w') → rtc tstep (w', Thread l (InBody (k b))) c →
  rtc tstep (w, Thread l (InBody (Crit lk body k))) c.
Proof. intros Hb Hc. apply (rtc_l _ _ (w', Thread l (InBody (k b)))); [by apply step_body|done]. Qed.
End pool.
Arguments thread : clear implicits.
Arguments pool : clear implicits.
Arguments loop : clear implicits.
Arguments tstate : clear implicits.

(** * A concrete environment

    Evaluations on concrete inputs use a clock that advances one second per
    reading (up to a bound) and a fixed entropy word. *)
Definition demo_env : Env := {|
  clock_gettime n := Timespec (Z.min (Z.of_nat n) 1000000) 0;
  getrandom n := (4, 0x12345678)
|}.

Lemma demo_ms n : ms_of_timespec (@clock_gettime demo_env n) = Z.min (Z.of_nat n) 1000000 * 1000.
Proof.
  unfold ms_of_timespec; simpl. change (u64 (Z.quot 0 1000000)) with 0.
  rewrite (u64_id (Z.min _ _)), Z.add_0_r, !(u64_id (_ * _)); lia.
Qed.
