(* ===== verification/Ghost.v ===== *)
(** Owned ghost state: each thread of a pool owns a piece of specification
    state.  Every section of a thread keeps an invariant that ties the shared
    object to all the pieces, changes only its own piece, and moves the whole
    along a relation that the other threads may rely on. *)

From S2P Require Import Prelude Effects.

Section ghost.
Context {L S O : Type}.
Implicit Types (I : S → list O → Prop) (R : S → list O → S → list O → Prop) (mb : S → O → Prop).

(** Thread [i] runs [p] owning [o], and ends in [Q].  It may wait only in a
    state and with a piece of [mb]. *)
Fixpoint gsafe I R mb (i : nat) {A} (p : prog L S A) (o : O) (Q : A → O → Prop) : Prop :=
  match p with
  | Ret a => Q a o
  | Ub => False
  | Crit l body k =>
      ∀ w gs, I (obj w) gs → gs !! i = Some o →
      match body w with
      | Done (b, w') =>
          ∃ o', I (obj w') (<[i := o']> gs) ∧ R (obj w) gs (obj w') (<[i := o']> gs) ∧ gsafe I R mb i (k b) o' Q
      | Blocked => mb (obj w) o
      | Undefined => False
      end
  end.

Lemma gsafe_bind I R mb i {A B} (p : prog L S A) (f : A → prog L S B) o Q Q' :
  gsafe I R mb i p o Q → (∀ a o', Q a o' → gsafe I R mb i (f a) o' Q') → gsafe I R mb i (p ≫= f) o Q'.
Proof.
  intros Hp Hf. revert o Hp. induction p as [a| |B' l body k IH]; intros o Hp; simpl in *; [auto|done|].
  intros w gs HI Hi. specialize (Hp w gs HI Hi). destruct (body w) as [[b w']| |]; [|done..].
  destruct Hp as (o' & HI' & HR & Hk). exists o'. split; [done|]. split; [done|]. by apply IH.
Qed.

Lemma gsafe_mono I R mb i {A} (p : prog L S A) o (Q Q' : A → O → Prop) :
  gsafe I R mb i p o Q → (∀ a o', Q a o' → Q' a o') → gsafe I R mb i p o Q'.
Proof.
  intros Hp HQ. revert o Hp. induction p as [a| |B' l body k IH]; intros o Hp; simpl in *; [auto|done|].
  intros w gs HI Hi. specialize (Hp w gs HI Hi). destruct (body w) as [[b w']| |]; [|done..].
  destruct Hp as (o' & HI' & HR & Hk). exists o'. split; [done|]. split; [done|]. by apply IH.
Qed.

(** Sections that move the object along [F], under which the invariant does
    not depend on the object, leave every piece alone. *)
Lemma gsafe_frame I R mb i (mb0 J : S → Prop) (F : S → S → Prop) {A} (p : prog L S A) o (Q : A → Prop) :
  (∀ s gs, I s gs → J s) →
  (∀ s s' gs, I s gs → J s' → F s s' → I s' gs ∧ R s gs s' gs) →
  (∀ s, mb0 s → mb s o) →
  safe mb0 J p Q → guarded (moves F) p → gsafe I R mb i p o (λ a o', Q a ∧ o' = o).
Proof.
  intros HJ HF Hmb. induction p as [a| |B l body k IH]; simpl; [done..|].
  intros Hs [Hm Hg] w gs HI Hi. specialize (Hs w (HJ _ _ HI)). destruct (body w) as [[b w']| |] eqn:Hb; [|auto|done].
  destruct Hs as [HJ' Hk]. exists o. rewrite list_insert_id by done.
  destruct (HF (obj w) (obj w') gs HI HJ' (Hm _ _ _ Hb)) as [HI' HR]. split; [done|]. split; [done|]. by apply IH.
Qed.

(** A single section, by its contract. *)
Lemma gsafe_atomic I R mb i {A} (p : prog L S A) Φ o (Q : A → O → Prop) :
  atomic p Φ →
  (∀ w gs r, I (obj w) gs → gs !! i = Some o → Φ w r →
     match r with
     | Done (a, w') =>
         ∃ o', (I (obj w') (<[i := o']> gs) ∧ R (obj w) gs (obj w') (<[i := o']> gs)) ∧ Q a o'
     | Blocked => mb (obj w) o
     | Undefined => False
     end) →
  gsafe I R mb i p o Q.
Proof.
  intros (l & body & -> & Hp) H w gs HI Hi. specialize (H w gs _ HI Hi (Hp w)). rewrite run_crit in H.
  destruct (body w) as [[]| |]; [|done..]. destruct H as (o' & [HI' HR'] & HQ). by exists o'.
Qed.

(** What all sections keep can be assumed, with what then follows of the
    result. *)
Lemma gsafe_keeping I R mb i (P : S → Prop) {A} (p : prog L S A) o (Q : A → O → Prop) (T : A → Prop) :
  gsafe I R mb i p o Q → guarded (keeps P) p → ends P p T →
  gsafe (λ s gs, I s gs ∧ P s) R mb i p o (λ a o', Q a o' ∧ T a).
Proof.
  intros Hp Hg He. revert o Hp. induction p as [a| |B' l body k IH]; intros o Hp; simpl in *; [done..|].
  intros w gs [HI HP] Hi. specialize (Hp w gs HI Hi). destruct Hg as [HG Hg].
  destruct (body w) as [[b w']| |] eqn:Hb; [|done..]. destruct Hp as (o' & HI' & HR & Hk). exists o'.
  split; [split; [done|exact (HG _ _ _ Hb HP)]|]. split; [done|]. apply IH; [done| |done]. by eapply He.
Qed.

(** ** Loops and threads *)

(** The contract of a looping thread: [ct_head] holds at the head of its
    loop, [ct_left] after a break; it may wait only where [ct_waits] says. *)
Record contract := Contract {
  ct_loc : Type;
  ct_loop : loop L S ct_loc;
  ct_waits : S → O → Prop;
  ct_head : ct_loc → O → Prop;
  ct_left : ct_loc → O → Prop
}.

Definition body_gsafe I R i (ct : contract) (p : prog L S (ctl * ct_loc ct)) (o : O) : Prop :=
  gsafe I R (ct_waits ct) i p o
    (λ r o', match r.1 with Continue => ct_head ct r.2 o' | Break => ct_left ct r.2 o' end).

Record loop_gsafe I R i (ct : contract) : Prop := {
  lg_body : ∀ loc o, ct_head ct loc o → body_gsafe I R i ct (loop_body (ct_loop ct) loc) o;
  lg_exit : ∀ loc o, ct_left ct loc o → gsafe I R (ct_waits ct) i (loop_exit (ct_loop ct) loc) o (λ _ _, True)
}.

Definition has_left (ct : contract) : Prop := ∃ loc o, ct_left ct loc o.

Definition state_gsafe I R i (ct : contract) (ts : tstate L S (ct_loc ct)) (o : O) : Prop :=
  match ts with
  | InBody p => body_gsafe I R i ct p o
  | InExit p => has_left ct ∧ gsafe I R (ct_waits ct) i p o (λ _ _, True)
  | Exited => has_left ct
  end.

Definition thread_gsafe I R i (ct : contract) (t : thread L S) (o : O) : Prop :=
  ∃ ts, t = Thread (ct_loop ct) ts ∧ state_gsafe I R i ct ts o.

Lemma start_gsafe I R i ct loc o :
  loop_gsafe I R i ct → ct_head ct loc o → thread_gsafe I R i ct (start (ct_loop ct) loc) o.
Proof. intros Hl Hj. eexists. split; [done|]. by apply lg_body. Qed.

(** A loop whose sections never concern the pieces. *)
Definition frame_contract (mb0 : S → Prop) {Loc} (P : Loc → Prop) (l : loop L S Loc) : contract :=
  Contract Loc l (λ s _, mb0 s) (λ loc _, P loc) (λ loc _, P loc).

Lemma frame_loop_gsafe I R i (mb0 J : S → Prop) (F : S → S → Prop) {Loc} (P : Loc → Prop) (l : loop L S Loc) :
  (∀ s gs, I s gs → J s) →
  (∀ s s' gs, I s gs → J s' → F s s' → I s' gs ∧ R s gs s' gs) →
  loop_safe mb0 J P l → (∀ loc, guarded (moves F) (loop_body l loc)) → (∀ loc, guarded (moves F) (loop_exit l loc)) →
  loop_gsafe I R i (frame_contract mb0 P l).
Proof.
  intros HJ HF [Hb He] Gb Ge. split; intros loc o Hloc.
  - eapply gsafe_mono; [exact (gsafe_frame I R _ i mb0 J F _ o _ HJ HF (λ s H, H) (Hb loc Hloc) (Gb loc))|].
    by intros [[] loc'] o' [Hloc' _].
  - eapply gsafe_mono; [exact (gsafe_frame I R _ i mb0 J F _ o _ HJ HF (λ s H, H) (He loc Hloc) (Ge loc))|done].
Qed.

(** A loop that keeps [P] and is never left as long as [P] holds. *)
Record loop_stays (P : S → Prop) {Loc} (l : loop L S Loc) : Prop := {
  ls_keeps : ∀ loc, guarded (keeps P) (loop_body l loc);
  ls_ends : ∀ loc, ends P (loop_body l loc) (λ r, r.1 = Continue)
}.

Definition staying (ct : contract) : contract :=
  Contract (ct_loc ct) (ct_loop ct) (ct_waits ct) (ct_head ct) (λ _ _, False).

Lemma loop_gsafe_stays I R i P ct :
  loop_gsafe I R i ct → loop_stays P (ct_loop ct) → loop_gsafe (λ s gs, I s gs ∧ P s) R i (staying ct).
Proof.
  intros [Hb _] [Hk He]. split; [|done]. intros loc o Hloc.
  eapply gsafe_mono; [apply gsafe_keeping; [by apply Hb|apply Hk|apply He]|].
  intros [[] loc'] o' [Hloc' Hc]; [done|discriminate Hc].
Qed.

(** One step of thread [i]. *)
Lemma thread_step_gsafe I R i ct w t w' t' gs o :
  (∀ s gs, I s gs → R s gs s gs) → loop_gsafe I R i ct →
  thread_step w t w' t' → I (obj w) gs → gs !! i = Some o → thread_gsafe I R i ct t o →
  ∃ o', I (obj w') (<[i := o']> gs) ∧ R (obj w) gs (obj w') (<[i := o']> gs) ∧ thread_gsafe I R i ct t' o'.
Proof.
  intros HR Hl Hstep HI Hi (ts & -> & Ht).
  assert (Hlocal : w' = w → thread_gsafe I R i ct t' o →
    ∃ o', I (obj w') (<[i := o']> gs) ∧ R (obj w) gs (obj w') (<[i := o']> gs) ∧ thread_gsafe I R i ct t' o').
  { intros -> Ht'. exists o. rewrite list_insert_id by done. by split; [|split; [apply HR|]]. }
  apply thread_step_inv in Hstep. destruct ts as [[[[] loc]| |B lk body k]|[[]| |B lk body k]|].
  - destruct Hstep as [-> ->]. apply Hlocal; [done|]. by apply start_gsafe.
  - destruct Hstep as [-> ->]. apply Hlocal; [done|]. eexists. split; [done|]. split; [by exists loc, o|].
    by apply (lg_exit _ _ _ _ Hl).
  - done.
  - destruct Hstep as (b & Hb & ->). specialize (Ht w gs HI Hi). rewrite Hb in Ht.
    destruct Ht as (o' & HI' & HR' & Hk). exists o'. split; [done|]. split; [done|]. by eexists.
  - destruct Hstep as [-> ->]. apply Hlocal; [done|]. eexists. split; [done|]. apply Ht.
  - done.
  - destruct Hstep as (b & Hb & ->). destruct Ht as [Hleft Ht]. specialize (Ht w gs HI Hi). rewrite Hb in Ht.
    destruct Ht as (o' & HI' & HR' & Hk). exists o'. split; [done|]. split; [done|]. by eexists.
  - done.
Qed.

(** ** Pools *)

Definition threads_gsafe I R (cts : list contract) (ts : list (thread L S)) (gs : list O) : Prop :=
  length cts = length ts ∧ length gs = length ts ∧
  ∀ i ct t o, cts !! i = Some ct → ts !! i = Some t → gs !! i = Some o → thread_gsafe I R i ct t o.

Definition pool_gsafe I R (cts : list contract) (c : pool L S) (gs : list O) : Prop :=
  I (obj c.1) gs ∧ threads_gsafe I R cts c.2 gs.

(** The loops keep their contracts, and the relation is one of many steps. *)
Record contracts_ok I R (cts : list contract) : Prop := {
  co_loops : ∀ i ct, cts !! i = Some ct → loop_gsafe I R i ct;
  co_refl : ∀ s gs, I s gs → R s gs s gs;
  co_trans : ∀ s gs s1 gs1 s2 gs2, R s gs s1 gs1 → R s1 gs1 s2 gs2 → R s gs s2 gs2
}.

(** Threads at the heads of their loops. *)
Definition starting (cts : list contract) (ts : list (thread L S)) (gs : list O) : Prop :=
  length cts = length ts ∧ length gs = length ts ∧
  ∀ i ct t o, cts !! i = Some ct → ts !! i = Some t → gs !! i = Some o →
    ∃ loc, t = start (ct_loop ct) loc ∧ ct_head ct loc o.

Lemma starting_gsafe I R cts ts gs : contracts_ok I R cts → starting cts ts gs → threads_gsafe I R cts ts gs.
Proof.
  intros Hok (Hlc & Hlg & Hts). split; [done|]. split; [done|]. intros i ct t o Hct Ht Ho.
  destruct (Hts i ct t o Hct Ht Ho) as (loc & -> & Hloc). apply start_gsafe; [by eapply co_loops|done].
Qed.

Lemma starting_staying cts ts gs : starting cts ts gs → starting (staying <$> cts) ts gs.
Proof.
  intros (Hlc & Hlg & Hts). split; [by rewrite length_fmap|]. split; [done|]. intros i ct t o Hct Ht Ho.
  rewrite list_lookup_fmap in Hct. destruct (cts !! i) as [ct0|] eqn:H0; [|done]. injection Hct as <-.
  exact (Hts i ct0 t o H0 Ht Ho).
Qed.

Lemma pool_gsafe_at I R cts c gs i t :
  pool_gsafe I R cts c gs → c.2 !! i = Some t →
  ∃ o ct, gs !! i = Some o ∧ cts !! i = Some ct ∧ thread_gsafe I R i ct t o.
Proof.
  intros (_ & Hlc & Hlg & Hts) Ht. pose proof (lookup_lt_Some _ _ _ Ht) as Hlt.
  destruct (lookup_lt_is_Some_2 gs i) as [o Ho]; [lia|].
  destruct (lookup_lt_is_Some_2 cts i) as [ct Hct]; [lia|].
  exists o, ct. split; [done|]. split; [done|]. by eapply Hts.
Qed.

Lemma pool_gsafe_insert I R cts w ts gs i ct w' t' o' :
  pool_gsafe I R cts (w, ts) gs → cts !! i = Some ct →
  I (obj w') (<[i := o']> gs) → thread_gsafe I R i ct t' o' →
  pool_gsafe I R cts (w', <[i := t']> ts) (<[i := o']> gs).
Proof.
  intros (_ & Hlc & Hlg & Hts) Hct HI Ht'. split; [done|]. cbn [snd] in *. split; [by rewrite length_insert|].
  split; [by rewrite !length_insert|]. intros j ctj u o1 Hctj Hu Ho1. destruct (decide (i = j)) as [<-|Hne].
  - rewrite list_lookup_insert_eq in Hu by (apply lookup_lt_Some in Hct; lia).
    rewrite list_lookup_insert_eq in Ho1 by (apply lookup_lt_Some in Hct; lia). naive_solver.
  - rewrite list_lookup_insert_ne in Hu by done. rewrite list_lookup_insert_ne in Ho1 by done. by eapply Hts.
Qed.

(** Thread [i] steps. *)
Definition steps_at (i : nat) (c c' : pool L S) : Prop :=
  ∃ t t', c.2 !! i = Some t ∧ thread_step c.1 t c'.1 t' ∧ c'.2 = <[i := t']> c.2.

Lemma pool_step_at c c' : pool_step c c' → ∃ i, steps_at i c c'.
Proof.
  intros [w ts1 t ts2 w' t' Hs]. exists (length ts1), t, t'. cbn [fst snd].
  rewrite lookup_app_r, Nat.sub_diag, insert_app_r_alt, Nat.sub_diag by done. done.
Qed.

Lemma steps_at_pool i c c' : steps_at i c c' → pool_step c c'.
Proof.
  destruct c as [w ts], c' as [w' ts']. intros (t & t' & Ht & Hs & Heq). cbn [fst snd] in *. subst ts'.
  destruct (list_elem_of_split_length _ _ _ Ht) as (ts1 & ts2 & -> & ->).
  rewrite insert_app_r_alt, Nat.sub_diag by done. by apply pool_thread.
Qed.

(** What the steps of each thread keep of it, by its place in the pool. *)
Lemma pool_steps_indexed (F : nat → thread L S → Prop) c c' :
  (∀ i w t w' t', thread_step w t w' t' → F i t → F i t') →
  rtc pool_step c c' → (∀ i t, c.2 !! i = Some t → F i t) → ∀ i t, c'.2 !! i = Some t → F i t.
Proof.
  intros HF. induction 1 as [|c c1 c2 Hs _ IH]; [done|]. intros Hc. apply IH. intros i t.
  apply pool_step_at in Hs as (j & u & u' & Hu & Hs & ->). destruct (decide (j = i)) as [->|Hne].
  - rewrite list_lookup_insert_eq by by eapply lookup_lt_Some. intros [= <-]. eapply HF; [exact Hs|by apply Hc].
  - rewrite list_lookup_insert_ne by done. apply Hc.
Qed.

Lemma steps_at_gsafe I R cts i c c' gs :
  contracts_ok I R cts → steps_at i c c' → pool_gsafe I R cts c gs →
  ∃ o', pool_gsafe I R cts c' (<[i := o']> gs) ∧ R (obj c.1) gs (obj c'.1) (<[i := o']> gs).
Proof.
  destruct c as [w ts], c' as [w' ts']. intros Hok (t & t' & Ht & Hs & Heq) Hp. cbn [fst snd] in *. subst ts'.
  destruct (pool_gsafe_at _ _ _ _ _ _ _ Hp Ht) as (o & ct & Ho & Hct & Htg).
  destruct (thread_step_gsafe _ _ _ _ _ _ _ _ _ _ (co_refl _ _ _ Hok) (co_loops _ _ _ Hok _ _ Hct) Hs (proj1 Hp) Ho Htg)
    as (o' & HI' & HR' & Htg').
  exists o'. split; [|done]. by eapply pool_gsafe_insert.
Qed.

Lemma pool_steps_gsafe I R cts c c' gs :
  contracts_ok I R cts → rtc pool_step c c' → pool_gsafe I R cts c gs → ∃ gs', pool_gsafe I R cts c' gs'.
Proof.
  intros Hok Hr. revert gs. induction Hr as [c|c c1 c2 Hs _ IH]; intros gs Hc; [by exists gs|].
  apply pool_step_at in Hs as (i & Hs). destruct (steps_at_gsafe _ _ _ _ _ _ _ Hok Hs Hc) as (o' & Hc' & _).
  by eapply IH.
Qed.
End ghost.
#[global] Arguments contract : clear implicits.

(** A program of a component, with the invariant of the component. *)
Lemma gsafe_lift {K L T S O A} (lk : K → L) (ln : lens T S) (I : T → list O → Prop) R mb
    (I0 : S → list O → Prop) R0 mb0 i (p : prog K S A) (o : O) (Q : A → O → Prop) :
  (∀ t gs, I t gs → I0 (view ln t) gs) →
  (∀ t gs s gs', I t gs → I0 s gs' → R0 (view ln t) gs s gs' → I (update ln s t) gs' ∧ R t gs (update ln s t) gs') →
  (∀ t o, mb0 (view ln t) o → mb t o) →
  gsafe I0 R0 mb0 i p o Q → gsafe I R mb i (lift lk ln p) o Q.
Proof.
  intros Hv Hu Hmb. revert o. induction p as [a| |B l body k IH]; intros o Hp; [done..|].
  intros w gs HI Hi. specialize (Hp (zoom_world ln w) gs (Hv _ _ HI) Hi). unfold zoom.
  destruct (body (zoom_world ln w)) as [[b w']| |]; [|by apply Hmb|done]. destruct Hp as (o' & HI' & HR & Hk).
  exists o'. destruct (Hu _ _ _ _ HI HI' HR) as [HI1 HR1]. split; [done|]. split; [done|]. by apply IH.
Qed.
