(* ===== verification/Simulate.v ===== *)
(** Simulation of one multi-threaded program by another, section by section.

    [sim R p q]: on every well-formed state, each section of [p] and the
    corresponding section of [q] finish together, in states related by an
    abstraction function and with the same use of the clock and the entropy
    source, or wait together; no section of [p] is undefined; and the two
    programs end in results related by [R].  Pools of programs that simulate
    each other have the same executions, under every scheduler. *)

From S2P Require Import Prelude Effects.

Section sim.
Context {L S L' S' : Type} (wf : S → Prop) (ab : S → S').

Definition abs_world (w : world S) : world S' := World (ab (obj w)) (readings w) (draws w).

(** One section by one section. *)
Definition section_sim {B B'} (R : B → B' → Prop) (body : cs S B) (body' : cs S' B') : Prop :=
  ∀ w, wf (obj w) →
  match body w with
  | Done (b, w') => wf (obj w') ∧ ∃ b', body' (abs_world w) = Done (b', abs_world w') ∧ R b b'
  | Blocked => body' (abs_world w) = Blocked
  | Undefined => False
  end.

Fixpoint sim {A B} (R : A → B → Prop) (p : prog L S A) (q : prog L' S' B) : Prop :=
  match p, q with
  | Ret a, Ret b => R a b
  | Crit _ body k, Crit _ body' k' => section_sim (λ b b', sim R (k b) (k' b')) body body'
  | _, _ => False
  end.

Lemma section_sim_mono {B B'} (R R' : B → B' → Prop) body body' :
  section_sim R body body' → (∀ b b', R b b' → R' b b') → section_sim R' body body'.
Proof.
  intros Hs HR w Hw. specialize (Hs w Hw). destruct (body w) as [[b w']| |]; [|done..].
  destruct Hs as (Hw' & b' & Hb' & Hr). split; [done|]. exists b'. auto.
Qed.

Lemma sim_crit {B B'} (R : B → B' → Prop) l body l' body' :
  section_sim R body body' → sim R (crit l body) (crit l' body').
Proof. intros Hs. by eapply section_sim_mono. Qed.

Lemma sim_mono {A B} (R R' : A → B → Prop) (p : prog L S A) (q : prog L' S' B) :
  sim R p q → (∀ a b, R a b → R' a b) → sim R' p q.
Proof.
  intros Hs HR. revert q Hs. induction p as [a| |B0 l body k IH]; intros [b| |B1 l' body' k'] Hs; try done.
  - by apply HR.
  - eapply section_sim_mono; [exact Hs|]. intros b b'. apply IH.
Qed.

Lemma sim_bind {A A' B B'} (R : A → A' → Prop) (R' : B → B' → Prop) (p : prog L S A) (q : prog L' S' A') f g :
  sim R p q → (∀ a a', R a a' → sim R' (f a) (g a')) → sim R' (p ≫= f) (q ≫= g).
Proof.
  intros Hs HR. revert q Hs. induction p as [a| |B0 l body k IH]; intros [b| |B1 l' body' k'] Hs; try done.
  - by apply HR.
  - eapply section_sim_mono; [exact Hs|]. intros b b'. apply IH.
Qed.

(** What follows the last section is local. *)
Lemma sim_post {A A' B} (R : A → B → Prop) (R' : A' → B → Prop) (p : prog L S A) (q : prog L' S' B) k :
  sim R p q → (∀ a b, R a b → ∃ a', k a = Ret a' ∧ R' a' b) → sim R' (p ≫= k) q.
Proof.
  intros Hs HR. revert q Hs. induction p as [a| |B0 l body k0 IH]; intros [b| |B1 l' body' k'] Hs; try done.
  - simpl. by destruct (HR _ _ Hs) as (a' & -> & Ha).
  - eapply section_sim_mono; [exact Hs|]. intros b b'. apply IH.
Qed.

Lemma sim_local {A B X} (R : A → B → Prop) (o : outcome X) x (k : X → prog L S A) (q : prog L' S' B) :
  o = Done x → sim R (k x) q → sim R (local o ≫= k) q.
Proof. by intros ->. Qed.

(** Alone, the two programs do the same. *)
Lemma sim_run {A B} (R : A → B → Prop) (p : prog L S A) (q : prog L' S' B) w :
  sim R p q → wf (obj w) →
  match run p w with
  | Done (a, w') => wf (obj w') ∧ ∃ b, run q (abs_world w) = Done (b, abs_world w') ∧ R a b
  | Blocked => run q (abs_world w) = Blocked
  | Undefined => False
  end.
Proof.
  revert q w. induction p as [a| |B0 l body k IH]; intros [b| |B1 l' body' k'] w Hs Hw; try done.
  - split; [done|]. by exists b.
  - simpl. specialize (Hs w Hw). destruct (body w) as [[b w']| |]; [|by rewrite Hs|done].
    destruct Hs as (Hw' & b' & -> & Hr). by apply IH.
Qed.

(** What [q] does under interference, [p] does. *)
Lemma sim_safe (mb I : S → Prop) (mb' I' : S' → Prop) {A B} (R : A → B → Prop) (Q : B → Prop)
    (p : prog L S A) (q : prog L' S' B) :
  (∀ s, I s → wf s ∧ I' (ab s)) → (∀ s, wf s → I' (ab s) → I s) → (∀ s, mb' (ab s) → mb s) →
  sim R p q → safe mb' I' q Q → safe mb I p (λ a, ∃ b, R a b ∧ Q b).
Proof.
  intros HI HI' Hmb. revert q. induction p as [a| |B0 l body k IH]; intros [b| |B1 l' body' k'] Hs Hq; try done.
  - by exists b.
  - intros w Hw%HI. destruct Hw as [Hw Hw']. specialize (Hs w Hw). specialize (Hq (abs_world w) Hw').
    destruct (body w) as [[b w']| |]; [|rewrite Hs in Hq; by apply Hmb|done].
    destruct Hs as (Hw1 & b' & Hb' & Hr). rewrite Hb' in Hq. destruct Hq as [Hi Hq].
    split; [by apply HI'|]. by eapply IH.
Qed.

(** What holds of every result of [q] under interference. *)
Lemma sim_post_safe (mb' I' : S' → Prop) {A B} (R : A → B → Prop) (Q : B → Prop) (p : prog L S A) (q : prog L' S' B) :
  (∀ s, wf s → I' (ab s)) → sim R p q → safe mb' I' q Q → sim (λ a b, R a b ∧ Q b) p q.
Proof.
  intros HI. revert q. induction p as [a| |B0 l body k IH]; intros [b| |B1 l' body' k'] Hs Hq; try done.
  intros w Hw. specialize (Hs w Hw). specialize (Hq (abs_world w) (HI _ Hw)).
  destruct (body w) as [[b w']| |]; [|done..]. destruct Hs as (Hw1 & b' & Hb' & Hr). rewrite Hb' in Hq.
  split; [done|]. exists b'. split; [done|]. apply IH; [done|apply Hq].
Qed.
End sim.

(** A component of the one object and of the other. *)
Lemma sim_lift {K K' L L' T T' S S' A B} (lk : K → L) (lk' : K' → L') (ln : lens T S) (ln' : lens T' S')
    (wf : S → Prop) (wfT : T → Prop) (ab : S → S') (abT : T → T') (R : A → B → Prop)
    (p : prog K S A) (q : prog K' S' B) :
  (∀ t, wfT t → wf (view ln t)) → (∀ s t, wfT t → wf s → wfT (update ln s t)) →
  (∀ t, view ln' (abT t) = ab (view ln t)) → (∀ s t, abT (update ln s t) = update ln' (ab s) (abT t)) →
  sim wf ab R p q → sim wfT abT R (lift lk ln p) (lift lk' ln' q).
Proof.
  intros Hv Hu Hav Hau. revert q. induction p as [a| |B0 l body k IH]; intros [b| |B1 l' body' k'] Hs; try done.
  intros w Hw. specialize (Hs (zoom_world ln w) (Hv _ Hw)). unfold zoom.
  assert (Hz : zoom_world ln' (abs_world abT w) = abs_world ab (zoom_world ln w))
    by (unfold zoom_world, abs_world; simpl; by rewrite Hav).
  rewrite Hz. destruct (body (zoom_world ln w)) as [[b w']| |]; [|by rewrite Hs|done].
  destruct Hs as (Hw' & b' & Hb' & Hr). split; [by apply Hu|]. exists b'. rewrite Hb'. split; [|by apply IH].
  unfold unzoom_world, abs_world. simpl. by rewrite Hau.
Qed.

(** * Loops, threads and pools *)

Section pool.
Context {L S L' S' : Type} (wf : S → Prop) (ab : S → S').
Implicit Types (w : world S) (t : thread L S) (u : thread L' S').

Definition next_sim {Loc Loc'} (R : Loc → Loc' → Prop) (r : ctl * Loc) (r' : ctl * Loc') : Prop :=
  r.1 = r'.1 ∧ R r.2 r'.2.

Record loop_sim {Loc Loc'} (R : Loc → Loc' → Prop) (l : loop L S Loc) (l' : loop L' S' Loc') : Prop := {
  lsim_body : ∀ a a', R a a' → sim wf ab (next_sim R) (loop_body l a) (loop_body l' a');
  lsim_exit : ∀ a a', R a a' → sim wf ab (λ _ _, True) (loop_exit l a) (loop_exit l' a')
}.

Definition state_sim {Loc Loc'} (R : Loc → Loc' → Prop) (s : tstate L S Loc) (s' : tstate L' S' Loc') : Prop :=
  match s, s' with
  | InBody p, InBody q => sim wf ab (next_sim R) p q
  | InExit p, InExit q => sim wf ab (λ _ _, True) p q
  | Exited, Exited => True
  | _, _ => False
  end.

Inductive thread_sim : thread L S → thread L' S' → Prop :=
| thread_sims Loc Loc' (R : Loc → Loc' → Prop) l l' s s' :
    loop_sim R l l' → state_sim R s s' → thread_sim (Thread l s) (Thread l' s').

Lemma start_sim {Loc Loc'} (R : Loc → Loc' → Prop) l l' a a' :
  loop_sim R l l' → R a a' → thread_sim (start l a) (start l' a').
Proof. intros Hl Ha. apply (thread_sims _ _ R); [done|]. by apply (lsim_body _ _ _ Hl). Qed.

(** The two directions of a section. *)
Lemma section_forth {B B'} (R : B → B' → Prop) body (body' : cs S' B') w b w' :
  section_sim wf ab R body body' → wf (obj w) → body w = Done (b, w') →
  wf (obj w') ∧ ∃ b', body' (abs_world ab w) = Done (b', abs_world ab w') ∧ R b b'.
Proof. intros Hs Hw Hb. specialize (Hs w Hw). by rewrite Hb in Hs. Qed.

Lemma section_back {B B'} (R : B → B' → Prop) (body : cs S B) body' w b' v :
  section_sim wf ab R body body' → wf (obj w) → body' (abs_world ab w) = Done (b', v) →
  ∃ b w', v = abs_world ab w' ∧ wf (obj w') ∧ body w = Done (b, w') ∧ R b b'.
Proof.
  intros Hs Hw Hb. specialize (Hs w Hw). destruct (body w) as [[b w']| |]; [|congruence|done].
  destruct Hs as (Hw' & b1 & Hb1 & Hr). exists b, w'. rewrite Hb in Hb1. by injection Hb1 as -> ->.
Qed.

(** The cases of a thread's state, and of the other's. *)
Ltac cases_of s s' :=
  destruct s as [[[c a]| |B lk body k]|[[]| |B lk body k]|],
    s' as [[[c' a']| |B' lk' body' k']|[[]| |B' lk' body' k']|]; try done.

Lemma thread_forth w t w1 t1 u :
  thread_sim t u → wf (obj w) → thread_step w t w1 t1 →
  wf (obj w1) ∧ ∃ u1, thread_step (abs_world ab w) u (abs_world ab w1) u1 ∧ thread_sim t1 u1.
Proof.
  intros [Loc Loc' R l l' s s' Hl Hs] Hw Hst%thread_step_inv. cases_of s s'.
  2,4: destruct Hst as (b & Hb & ->); destruct (section_forth _ _ _ _ _ _ Hs Hw Hb) as (Hw1 & b' & Hb' & Hk);
    split; [done|]; eexists; (split; [by constructor|]); by apply (thread_sims _ _ R).
  - destruct Hs as [Hc Ha]. simpl in Hc, Ha. subst c'. destruct c; destruct Hst as [-> ->];
      (split; [done|]); eexists; (split; [by constructor|]); apply (thread_sims _ _ R); try done.
    + by apply (lsim_body _ _ _ Hl).
    + by apply (lsim_exit _ _ _ Hl).
  - destruct Hst as [-> ->]. split; [done|]. eexists. split; [by constructor|]. by apply (thread_sims _ _ R).
Qed.

Lemma thread_back w t u v u1 :
  thread_sim t u → wf (obj w) → thread_step (abs_world ab w) u v u1 →
  ∃ w1 t1, v = abs_world ab w1 ∧ wf (obj w1) ∧ thread_step w t w1 t1 ∧ thread_sim t1 u1.
Proof.
  intros [Loc Loc' R l l' s s' Hl Hs] Hw Hst%thread_step_inv. cases_of s s'.
  2,4: destruct Hst as (b' & Hb' & ->); destruct (section_back _ _ _ _ _ _ Hs Hw Hb') as (b & w1 & -> & Hw1 & Hb & Hk);
    exists w1; eexists; (split; [done|]); (split; [done|]); (split; [by constructor|]); by apply (thread_sims _ _ R).
  - destruct Hs as [Hc Ha]. simpl in Hc, Ha. subst c'. destruct c; destruct Hst as [-> ->];
      exists w; eexists; (split; [done|]); (split; [done|]); (split; [by constructor|]); apply (thread_sims _ _ R); try done.
    + by apply (lsim_body _ _ _ Hl).
    + by apply (lsim_exit _ _ _ Hl).
  - destruct Hst as [-> ->]. exists w. eexists. split; [done|]. split; [done|]. split; [by constructor|].
    by apply (thread_sims _ _ R).
Qed.

(** Two pools in step. *)
Record pool_sim (c : pool L S) (c' : pool L' S') : Prop := {
  psim_wf : wf (obj c.1);
  psim_world : c'.1 = abs_world ab c.1;
  psim_threads : Forall2 thread_sim c.2 c'.2
}.

Lemma pool_forth c c' c1 :
  pool_sim c c' → pool_step c c1 → ∃ c1', pool_step c' c1' ∧ pool_sim c1 c1'.
Proof.
  intros [Hw Hwd Ht] Hs. destruct Hs as [w ts1 t ts2 w1 t1 Hs]. destruct c' as [v ts']. simpl in *. subst v.
  apply Forall2_app_inv_l in Ht as (ts1' & tl & H1 & (u & ts2' & Ht & H2 & ->)%Forall2_cons_inv_l & ->).
  destruct (thread_forth _ _ _ _ _ Ht Hw Hs) as (Hw1 & u1 & Hs' & Ht1).
  eexists. split; [by constructor|]. split; [done|done|]. simpl. by apply Forall2_app, Forall2_cons_2.
Qed.

Lemma pool_back c c' c1' :
  pool_sim c c' → pool_step c' c1' → ∃ c1, pool_step c c1 ∧ pool_sim c1 c1'.
Proof.
  intros [Hw Hwd Ht] Hs. destruct Hs as [v ts1' u ts2' v1 u1 Hs]. destruct c as [w ts]. simpl in *. subst v.
  apply Forall2_app_inv_r in Ht as (ts1 & tl & H1 & (t & ts2 & Ht & H2 & ->)%Forall2_cons_inv_r & ->).
  destruct (thread_back _ _ _ _ _ Ht Hw Hs) as (w1 & t1 & -> & Hw1 & Hs' & Ht1).
  eexists. split; [by constructor|]. split; [done|done|]. simpl. by apply Forall2_app, Forall2_cons_2.
Qed.

(** Related threads are in the same phase of life. *)
Lemma thread_sim_exited t u : thread_sim t u → thread_exited t ↔ thread_exited u.
Proof. by intros [Loc Loc' R l l' [p|p|] [q|q|] _ Hs]. Qed.

Lemma thread_sim_blocked w t u :
  thread_sim t u → wf (obj w) → thread_blocked w t ↔ thread_blocked (abs_world ab w) u.
Proof.
  intros [Loc Loc' R l l' s s' _ Hs] Hw. cases_of s s';
    simpl in *; specialize (Hs w Hw);
    (destruct (body w) as [[b w1]| |]; [|by rewrite Hs|done]); destruct Hs as (_ & b' & -> & _); done.
Qed.

(** ** Bisimilarity *)

(** What is seen of two pools: the one object is the abstraction of the other,
    and the same threads have ended and are waiting. *)
Record same_view (c : pool L S) (c' : pool L' S') : Prop := {
  sv_world : c'.1 = abs_world ab c.1;
  sv_threads : Forall2 (λ t u, (thread_exited t ↔ thread_exited u) ∧ (thread_blocked c.1 t ↔ thread_blocked c'.1 u)) c.2 c'.2
}.

Record bisimulation (P : pool L S → pool L' S' → Prop) : Prop := {
  bs_view : ∀ c c', P c c' → same_view c c';
  bs_forth : ∀ c c' c1, P c c' → pool_step c c1 → ∃ c1', pool_step c' c1' ∧ P c1 c1';
  bs_back : ∀ c c' c1', P c c' → pool_step c' c1' → ∃ c1, pool_step c c1 ∧ P c1 c1'
}.

Definition bisimilar (c : pool L S) (c' : pool L' S') : Prop := ∃ P, bisimulation P ∧ P c c'.

Lemma pool_sim_bisimulation : bisimulation pool_sim.
Proof.
  split; [|apply pool_forth|apply pool_back]. intros c c' [Hw Hwd Ht]. split; [done|].
  eapply Forall2_impl; [exact Ht|]. intros t u Htu. split; [by apply thread_sim_exited|].
  rewrite Hwd. by apply thread_sim_blocked.
Qed.

Lemma pool_sim_bisimilar c c' : pool_sim c c' → bisimilar c c'.
Proof. intros Hs. exists pool_sim. split; [apply pool_sim_bisimulation|done]. Qed.

(** What the one does, the other does. *)
Lemma bisimilar_forth c c' c1 :
  bisimilar c c' → rtc pool_step c c1 → ∃ c1', rtc pool_step c' c1' ∧ bisimilar c1 c1'.
Proof.
  intros (P & HP & Hs) Hr. revert c' Hs. induction Hr as [c|c c1 c2 Hst _ IH]; intros c' Hs; [exists c'; by split; [|exists P]|].
  destruct (bs_forth _ HP _ _ _ Hs Hst) as (c1' & Hst' & Hs1). destruct (IH _ Hs1) as (c2' & Hr & Hs2).
  exists c2'. split; [by eapply rtc_l|done].
Qed.

Lemma bisimilar_view c c' : bisimilar c c' → same_view c c'.
Proof. intros (P & HP & Hs). by apply (bs_view _ HP). Qed.
End pool.
