(* ===== verification/Fair.v ===== *)
(** Infinite executions of a pool under a fair scheduler, and what its
    threads eventually do: complete an iteration of their loop, or wait where
    their contract lets them. *)

From S2P Require Import Prelude Effects Ghost.

Section run.
Context {L S : Type}.

(** The scheduler picks thread [i]: it makes its step if it can. *)
Definition sched_step (i : nat) (c c' : pool L S) : Prop :=
  steps_at i c c' ∨ (c' = c ∧ ∀ c1, ¬ steps_at i c c1).

(** Every thread is picked again and again. *)
Record fair_run (pick : nat → nat) (e : nat → pool L S) : Prop := {
  fr_step : ∀ n, sched_step (pick n) (e n) (e (Datatypes.S n));
  fr_fair : ∀ i n, (i < length (e O).2)%nat → ∃ m, (n <= m)%nat ∧ pick m = i
}.

Lemma fair_run_length pick e n : fair_run pick e → length (e n).2 = length (e O).2.
Proof.
  intros Hr. induction n as [|n IH]; [done|]. rewrite <- IH.
  destruct (fr_step _ _ Hr n) as [(t & t' & _ & _ & ->)|[-> _]]; [by rewrite length_insert|done].
Qed.

Lemma fair_run_steps pick e n m : fair_run pick e → (n <= m)%nat → rtc pool_step (e n) (e m).
Proof.
  intros Hr Hle. induction Hle as [|m Hle IH]; [apply rtc_refl|].
  destruct (fr_step _ _ Hr m) as [Hs|[-> _]]; [|done]. eapply rtc_r; [exact IH|]. by eapply steps_at_pool.
Qed.

(** ** A fair scheduler *)

(** The step of a thread, if it has one. *)
Definition thread_next (w : world S) (t : thread L S) : option (world S * thread L S) :=
  match t with
  | Thread l (InBody (Ret (Continue, loc))) => Some (w, start l loc)
  | Thread l (InBody (Ret (Break, loc))) => Some (w, Thread l (InExit (loop_exit l loc)))
  | Thread l (InBody (Crit lk body k)) =>
      match body w with Done (b, w') => Some (w', Thread l (InBody (k b))) | _ => None end
  | Thread l (InExit (Ret tt)) => Some (w, Thread l Exited)
  | Thread l (InExit (Crit lk body k)) =>
      match body w with Done (b, w') => Some (w', Thread l (InExit (k b))) | _ => None end
  | _ => None
  end.

Lemma thread_next_spec w t w' t' : thread_step w t w' t' ↔ thread_next w t = Some (w', t').
Proof.
  split; [by destruct 1; simpl; simplify_option_eq; try (match goal with H : _ = Done _ |- _ => rewrite H end)|].
  destruct t as [Loc l [[[[] loc]| |B lk body k]|[[]| |B lk body k]|]]; simpl; intros H; try done.
  1, 2, 4: injection H as <- <-; constructor.
  all: destruct (body w) as [[b w1]| |] eqn:Hb; [|done..]; injection H as <- <-; by constructor.
Qed.

Definition sched_next (i : nat) (c : pool L S) : pool L S :=
  match c.2 !! i with
  | Some t => match thread_next c.1 t with Some (w', t') => (w', <[i := t']> c.2) | None => c end
  | None => c
  end.

Lemma sched_next_spec i c : sched_step i c (sched_next i c).
Proof.
  unfold sched_next, sched_step. destruct (c.2 !! i) as [t|] eqn:Ht.
  - destruct (thread_next c.1 t) as [[w' t']|] eqn:Hn.
    + left. exists t, t'. split; [done|]. split; [by apply thread_next_spec|done].
    + right. split; [done|]. intros c1 (t1 & t' & Ht1 & Hs & _). apply thread_next_spec in Hs. congruence.
  - right. split; [done|]. intros c1 (t1 & t' & Ht1 & _). congruence.
Qed.

(** Every thread in turn. *)
Fixpoint round_robin (threads : nat) (c : pool L S) (n : nat) : pool L S :=
  match n with
  | O => c
  | Datatypes.S n => sched_next (n mod threads) (round_robin threads c n)
  end.

Lemma round_robin_fair c : fair_run (λ n, (n mod length c.2)%nat) (round_robin (length c.2) c).
Proof.
  split; [intros n; apply sched_next_spec|]. intros i n Hi. cbn [round_robin] in Hi.
  exists (i + n * length c.2)%nat. split; [nia|]. rewrite Nat.Div0.mod_add. by apply Nat.mod_small.
Qed.
End run.

(** ** Threads in their loops *)

Section in_loop.
Context {L S : Type} (P : S → Prop).

(** The thread is in its loop, and not at a break. *)
Definition in_loop (t : thread L S) : Prop :=
  match t with
  | Thread l (InBody (Ret (Break, _))) => False
  | Thread l (InBody _) => True
  | _ => False
  end.

Definition goes_on {Loc} (p : prog L S (ctl * Loc)) : Prop := ends P p (λ r, r.1 = Continue).

(** It stays there as long as [P] holds. *)
Definition thread_stays (t : thread L S) : Prop :=
  match t with
  | Thread l ts =>
      (∀ loc, goes_on (loop_body l loc)) ∧ match ts with InBody p => goes_on p | _ => False end
  end.

Lemma thread_stays_in t : thread_stays t → in_loop t.
Proof. by destruct t as [Loc l [[[[] loc]| |]|p|]]; intros [_ H]. Qed.

Lemma thread_step_stays w t w' t' : thread_step w t w' t' → P (obj w) → thread_stays t → thread_stays t'.
Proof.
  intros Hs Hp. destruct t as [Loc l [[[[] loc]| |B lk body k]|p|]]; intros [Hl Ht]; apply thread_step_inv in Hs; try done.
  - destruct Hs as [_ ->]. by split.
  - destruct Hs as (b & Hb & ->). split; [done|]. by eapply Ht.
Qed.

Lemma sched_step_stays j i c c' t :
  sched_step j c c' → P (obj c.1) → c.2 !! i = Some t → thread_stays t →
  ∃ t', c'.2 !! i = Some t' ∧ thread_stays t'.
Proof.
  intros [(u & u' & Hu & Hs & ->)|[-> _]] Hp Ht Hst; [|by exists t]. destruct (decide (j = i)) as [->|Hne].
  - rewrite Ht in Hu. injection Hu as <-. exists u'.
    split; [by rewrite list_lookup_insert_eq by by eapply lookup_lt_Some|by eapply thread_step_stays].
  - exists t. by rewrite list_lookup_insert_ne.
Qed.
End in_loop.

Section fair.
Context {L S O : Type} (I : S → list O → Prop) (R : S → list O → S → list O → Prop) (cts : list (contract L S O)).
Context (Hok : contracts_ok I R cts) (pick : nat → nat) (e : nat → pool L S) (Hrun : fair_run pick e).

(** From instant [n] with pieces [gs] the execution gets to [m] with [gs']. *)
Record along (n : nat) (gs : list O) (m : nat) (gs' : list O) : Prop := {
  al_later : (n <= m)%nat;
  al_safe : pool_gsafe I R cts (e m) gs';
  al_rel : R (obj (e n).1) gs (obj (e m).1) gs'
}.

Lemma along_refl n gs : pool_gsafe I R cts (e n) gs → along n gs n gs.
Proof. intros Hp. split; [done..|]. apply (co_refl _ _ _ Hok), Hp. Qed.

Lemma along_trans n gs m gs' k gs'' : along n gs m gs' → along m gs' k gs'' → along n gs k gs''.
Proof. intros [H1 H2 H3] [H4 H5 H6]. split; [lia|done|]. by eapply (co_trans _ _ _ Hok). Qed.

(** One instant; the thread that is not picked stays as it is. *)
Lemma along_step n gs :
  pool_gsafe I R cts (e n) gs →
  ∃ gs', along n gs (Datatypes.S n) gs' ∧
    ∀ i, i ≠ pick n → (e (Datatypes.S n)).2 !! i = (e n).2 !! i ∧ gs' !! i = gs !! i.
Proof.
  intros Hp. destruct (fr_step _ _ Hrun n) as [Hs|[Heq _]].
  - destruct (steps_at_gsafe _ _ _ _ _ _ _ Hok Hs Hp) as (o' & Hp' & HR). exists (<[pick n := o']> gs).
    split; [split; [lia|done|done]|]. intros i Hne. destruct Hs as (t & t' & _ & _ & ->).
    by rewrite !list_lookup_insert_ne.
  - exists gs. rewrite Heq. split; [|done]. split; [lia|by rewrite Heq|]. rewrite Heq. apply (co_refl _ _ _ Hok), Hp.
Qed.

Lemma next_turn i n gs :
  pool_gsafe I R cts (e n) gs → (i < length (e n).2)%nat →
  ∃ m gs', along n gs m gs' ∧ pick m = i ∧ (e m).2 !! i = (e n).2 !! i ∧ gs' !! i = gs !! i.
Proof.
  intros Hp Hi. destruct (fr_fair _ _ Hrun i n) as (k & Hk & Hpick); [by rewrite <- (fair_run_length _ _ n Hrun)|].
  clear Hi. replace k with (n + (k - n))%nat in Hpick by lia. revert Hpick. generalize (k - n)%nat as d. clear Hk.
  intros d. revert n gs Hp. induction d as [|d IH]; intros n gs Hp Hpick.
  - rewrite Nat.add_0_r in Hpick. exists n, gs. split; [by apply along_refl|done].
  - destruct (decide (pick n = i)) as [|Hne]; [exists n, gs; split; [by apply along_refl|done]|].
    destruct (along_step n gs Hp) as (gs1 & Hal & Hsame). destruct (Hsame i) as [He Hg]; [done|].
    destruct (IH (Datatypes.S n) gs1 (al_safe _ _ _ _ Hal)) as (m & gs' & Hal' & Hm & He' & Hg').
    { by rewrite Nat.add_succ_l, <- Nat.add_succ_r. }
    exists m, gs'. split; [by eapply along_trans|]. split; [done|]. by rewrite He', Hg'.
Qed.

Context (i : nat) (ct : contract L S O) (Hct : cts !! i = Some ct).

(** The thread with contract [ct] is in state [ts] and owns [o]. *)
Definition thread_at (n : nat) (gs : list O) (ts : tstate L S (ct_loc ct)) (o : O) : Prop :=
  (e n).2 !! i = Some (Thread (ct_loop ct) ts) ∧ gs !! i = Some o.

(** It waits where it may. *)
Definition waits_at (n : nat) (gs : list O) : Prop :=
  ∃ o, gs !! i = Some o ∧ ct_waits ct (obj (e n).1) o.

(** At its next turn. *)
Lemma turn n gs ts o :
  pool_gsafe I R cts (e n) gs → thread_at n gs ts o →
  ∃ m gs', along n gs m gs' ∧ thread_at m gs' ts o ∧ sched_step i (e m) (e (Datatypes.S m)).
Proof.
  intros Hp [Ht Ho]. destruct (next_turn i n gs Hp) as (m & gs' & Hal & Hm & He & Hg); [by eapply lookup_lt_Some|].
  exists m, gs'. split; [done|]. split; [split; [by rewrite He|by rewrite Hg]|]. rewrite <- Hm. apply (fr_step _ _ Hrun).
Qed.

Lemma along_insert n gs t' o' :
  pool_gsafe I R cts (e n) gs → (e (Datatypes.S n)).2 = <[i := t']> (e n).2 →
  I (obj (e (Datatypes.S n)).1) (<[i := o']> gs) → R (obj (e n).1) gs (obj (e (Datatypes.S n)).1) (<[i := o']> gs) →
  thread_gsafe I R i ct t' o' →
  along n gs (Datatypes.S n) (<[i := o']> gs) ∧
  (e (Datatypes.S n)).2 !! i = Some t' ∧ <[i := o']> gs !! i = Some o'.
Proof.
  intros Hp Heq HI HR Ht. destruct Hp as (HIn & Hlc & Hlg & Hts).
  pose proof (lookup_lt_Some _ _ _ Hct) as Hlt.
  split; [split; [lia| |done]|].
  - rewrite (surjective_pairing (e (Datatypes.S n))), Heq.
    eapply pool_gsafe_insert; [|exact Hct|exact HI|exact Ht]. rewrite <- surjective_pairing. by split.
  - rewrite Heq. by rewrite !list_lookup_insert_eq by lia.
Qed.

(** It completes the iteration it is in, or comes to wait. *)
Lemma body_turns p n gs o (Q : ctl * ct_loc ct → O → Prop) :
  pool_gsafe I R cts (e n) gs → thread_at n gs (InBody p) o →
  gsafe I R (ct_waits ct) i p o Q →
  (∀ r o', Q r o' → match r.1 with Continue => ct_head ct r.2 o' | Break => ct_left ct r.2 o' end) →
  ∃ m gs', along n gs m gs' ∧
    (waits_at m gs' ∨ ∃ r o', thread_at m gs' (InBody (Ret r)) o' ∧ Q r o').
Proof.
  intros Hp Hat Hs HQ. revert n gs o Hp Hat Hs. induction p as [r| |B lk body k IH]; intros n gs o Hp Hat Hs.
  - exists n, gs. split; [by apply along_refl|]. right. by exists r, o.
  - destruct Hs.
  - destruct (turn n gs _ o Hp Hat) as (m & gs' & Hal & [Ht Ho] & Hstep).
    pose proof (al_safe _ _ _ _ Hal) as Hpm. specialize (Hs (e m).1 gs' (proj1 Hpm) Ho).
    destruct Hstep as [(t & t' & Ht1 & Hst & Heq)|[_ Hno]].
    + rewrite Ht in Ht1. injection Ht1 as <-. apply thread_step_inv in Hst as (b & Hb & ->). rewrite Hb in Hs.
      destruct Hs as (o' & HI & HR & Hk).
      destruct (along_insert m gs' _ o' Hpm Heq HI HR) as (Hal1 & Ht1 & Ho1).
      { eexists. split; [done|]. eapply gsafe_mono; [exact Hk|exact HQ]. }
      destruct (IH b (Datatypes.S m) _ o' (al_safe _ _ _ _ Hal1) (conj Ht1 Ho1) Hk) as (m2 & gs2 & Hal2 & Hend).
      exists m2, gs2. split; [|done]. eapply along_trans; [exact Hal|]. by eapply along_trans.
    + exists m, gs'. split; [done|]. left. exists o. split; [done|].
      destruct (body (e m).1) as [[b w']| |] eqn:Hb; [|done..]. exfalso.
      apply (Hno (w', <[i := Thread (ct_loop ct) (InBody (k b))]> (e m).2)).
      exists (Thread (ct_loop ct) (InBody (Crit lk body k))), (Thread (ct_loop ct) (InBody (k b))).
      split; [done|]. split; [by apply step_body|done].
Qed.

(** And then goes back to the head of the loop. *)
Lemma continue_turn n gs loc o :
  pool_gsafe I R cts (e n) gs → thread_at n gs (InBody (Ret (Continue, loc))) o → ct_head ct loc o →
  ∃ m gs', along n gs m gs' ∧ thread_at m gs' (InBody (loop_body (ct_loop ct) loc)) o.
Proof.
  intros Hp Hat Hloc. destruct (turn n gs _ o Hp Hat) as (m & gs' & Hal & [Ht Ho] & Hstep).
  pose proof (al_safe _ _ _ _ Hal) as Hpm. destruct Hstep as [(t & t' & Ht1 & Hst & Heq)|[_ Hno]].
  - rewrite Ht in Ht1. injection Ht1 as <-. apply thread_step_inv in Hst as [Hw ->].
    destruct (along_insert m gs' _ o Hpm Heq) as (Hal1 & Ht1 & Ho1).
    + rewrite Hw, list_insert_id by done. apply Hpm.
    + rewrite Hw, list_insert_id by done. apply (co_refl _ _ _ Hok), Hpm.
    + apply start_gsafe; [by eapply co_loops|done].
    + exists (Datatypes.S m), (<[i := o]> gs'). split; [by eapply along_trans|done].
  - exfalso. apply (Hno ((e m).1, <[i := start (ct_loop ct) loc]> (e m).2)).
    exists (Thread (ct_loop ct) (InBody (Ret (Continue, loc)))), (start (ct_loop ct) loc).
    split; [done|]. split; [apply step_continue|done].
Qed.

(** A thread that never leaves its loop comes to its head, or to wait. *)
Lemma comes_to_head n gs :
  (∀ loc o, ¬ ct_left ct loc o) → pool_gsafe I R cts (e n) gs →
  ∃ m gs', along n gs m gs' ∧
    (waits_at m gs' ∨ ∃ loc o, thread_at m gs' (InBody (loop_body (ct_loop ct) loc)) o ∧ ct_head ct loc o).
Proof.
  intros Hstay Hp. pose proof Hp as (_ & Hlc & _). pose proof (lookup_lt_Some _ _ _ Hct) as Hlt.
  destruct (lookup_lt_is_Some_2 (e n).2 i) as [t Ht]; [lia|].
  destruct (pool_gsafe_at _ _ _ _ _ _ _ Hp Ht) as (o & ct' & Ho & Hct' & ts & -> & Hs).
  rewrite Hct in Hct'. injection Hct' as <-. destruct ts as [p|p|]; simpl in Hs.
  - destruct (body_turns p n gs o _ Hp (conj Ht Ho) Hs) as (m & gs' & Hal & [Hw|([c loc] & o' & Hat & Hend)]);
      [done|by exists m, gs'; split; [|left]|]. destruct c; [|by destruct (Hstay _ _ Hend)].
    destruct (continue_turn m gs' loc o' (al_safe _ _ _ _ Hal) Hat Hend) as (m2 & gs2 & Hal2 & Hat2).
    exists m2, gs2. split; [by eapply along_trans|]. right. by exists loc, o'.
  - destruct Hs as [(loc & o1 & Hl) _]. by destruct (Hstay _ _ Hl).
  - destruct Hs as (loc & o1 & Hl). by destruct (Hstay _ _ Hl).
Qed.

(** And so does one that is in its loop as long as the object is not in [X]. *)
Lemma comes_to_head_unless (X : S → Prop) n gs :
  (∀ m, (n <= m)%nat → X (obj (e m).1) ∨ ∃ t, (e m).2 !! i = Some t ∧ in_loop t) →
  pool_gsafe I R cts (e n) gs →
  (∃ m, (n <= m)%nat ∧ X (obj (e m).1)) ∨
  ∃ m gs', along n gs m gs' ∧
    (waits_at m gs' ∨ ∃ loc o, thread_at m gs' (InBody (loop_body (ct_loop ct) loc)) o ∧ ct_head ct loc o).
Proof.
  intros Hin Hp. destruct (Hin n ltac:(lia)) as [Hx|(t & Ht & Hl)]; [left; by exists n|].
  destruct (pool_gsafe_at _ _ _ _ _ _ _ Hp Ht) as (o & ct' & Ho & Hct' & ts & -> & Hs).
  rewrite Hct in Hct'. injection Hct' as <-. destruct ts as [p|p|]; [|done..]. simpl in Hs.
  destruct (body_turns p n gs o _ Hp (conj Ht Ho) Hs) as (m & gs' & Hal & [Hw|([c loc] & o' & Hat & Hend)]);
    [done|right; by exists m, gs'; split; [|left]|].
  destruct (Hin m (al_later _ _ _ _ Hal)) as [Hx|(t & Ht2 & Hl2)];
    [left; exists m; split; [apply Hal|done]|].
  rewrite (proj1 Hat) in Ht2. injection Ht2 as <-. destruct c; [|done]. right.
  destruct (continue_turn m gs' loc o' (al_safe _ _ _ _ Hal) Hat Hend) as (m2 & gs2 & Hal2 & Hat2).
  exists m2, gs2. split; [by eapply along_trans|]. right. by exists loc, o'.
Qed.

(** ** Driven threads

    [J] holds of the world at every instant until the object reaches [X];
    under [J] alone the program's sections lead there. *)

Fixpoint drives (J : world S → Prop) (X : S → Prop) {A} (p : prog L S A) : Prop :=
  match p with
  | Ret _ | Ub => False
  | Crit l body k =>
      ∀ w, J w →
      match body w with
      | Done (b, w') => X (obj w') ∨ drives J X (k b)
      | _ => False
      end
  end.

Lemma drives_turns J X p n gs o :
  (∀ m, (n <= m)%nat → X (obj (e m).1) ∨ J (e m).1) →
  pool_gsafe I R cts (e n) gs → thread_at n gs (InBody p) o → drives J X p →
  ∃ m, (n <= m)%nat ∧ X (obj (e m).1).
Proof.
  intros HJ Hp Hat Hd. revert n gs o HJ Hp Hat. induction p as [r| |B lk body k IH]; intros n gs o HJ Hp Hat; [done..|].
  destruct (turn n gs _ o Hp Hat) as (m & gs' & Hal & [Ht Ho] & Hstep).
  pose proof (al_later _ _ _ _ Hal) as Hle. pose proof (al_safe _ _ _ _ Hal) as Hpm.
  destruct (HJ m Hle) as [Hx|Hj]; [by exists m|]. specialize (Hd (e m).1 Hj).
  destruct (body (e m).1) as [[b w']| |] eqn:Hb; [|done..]. destruct Hstep as [(t & t' & Ht1 & Hst & Heq)|[_ Hno]].
  - rewrite Ht in Ht1. injection Ht1 as <-. apply thread_step_inv in Hst as (b1 & Hb1 & ->).
    rewrite Hb in Hb1. injection Hb1 as <- ->. destruct Hd as [Hx|Hd]; [exists (Datatypes.S m); split; [lia|done]|].
    destruct (along_step m gs' Hpm) as (gs2 & Hal2 & _). pose proof (al_safe _ _ _ _ Hal2) as (_ & Hlc & Hlg & _).
    destruct (lookup_lt_is_Some_2 gs2 i) as [o2 Ho2]; [pose proof (lookup_lt_Some _ _ _ Hct); lia|].
    destruct (IH b Hd (Datatypes.S m) gs2 o2) as (m2 & Hm2 & Hx).
    + intros j Hj2. apply HJ. lia.
    + apply Hal2.
    + split; [|done]. rewrite Heq, list_lookup_insert_eq; [done|]. by eapply lookup_lt_Some.
    + exists m2. split; [lia|done].
  - exfalso. apply (Hno (w', <[i := Thread (ct_loop ct) (InBody (k b))]> (e m).2)).
    exists (Thread (ct_loop ct) (InBody (Crit lk body k))), (Thread (ct_loop ct) (InBody (k b))).
    split; [done|]. split; [by apply step_body|done].
Qed.
End fair.
