(* ===== verification/UdsTypes.v ===== *)
(** The constants of [include/uds_types.h]: service identifiers, sessions,
    negative response codes, the positive-response offset and the
    suppress bit. *)

From S2P Require Import Prelude.

Definition UDS_MAX_MSG_LEN : Z := 4095.

(** [(uint8_t)((sid) + 0x40)] *)
Definition UDS_POS_RESP (sid : Z) : Z := u8 (sid + 0x40).

(** ** Service identifiers *)
Definition UDS_SID_DIAGNOSTIC_SESSION_CONTROL : Z := 0x10.
Definition UDS_SID_ECU_RESET                  : Z := 0x11.
Definition UDS_SID_CLEAR_DTC                  : Z := 0x14.
Definition UDS_SID_READ_DTC                   : Z := 0x19.
Definition UDS_SID_READ_DATA_BY_IDENTIFIER    : Z := 0x22.
Definition UDS_SID_SECURITY_ACCESS            : Z := 0x27.
Definition UDS_SID_WRITE_DATA_BY_IDENTIFIER   : Z := 0x2E.
Definition UDS_SID_TESTER_PRESENT             : Z := 0x3E.
Definition UDS_NEGATIVE_RESPONSE              : Z := 0x7F.

(** ** Sessions *)
Definition UDS_SESSION_DEFAULT       : Z := 0x01.
Definition UDS_SESSION_PROGRAMMING   : Z := 0x02.
Definition UDS_SESSION_EXTENDED      : Z := 0x03.
Definition UDS_SESSION_SAFETY_SYSTEM : Z := 0x04.

(** ** Negative response codes *)
Inductive uds_nrc_t : Type :=
| UDS_NRC_GENERAL_REJECT
| UDS_NRC_SERVICE_NOT_SUPPORTED
| UDS_NRC_SUB_FUNCTION_NOT_SUPPORTED
| UDS_NRC_INCORRECT_MESSAGE_LENGTH
| UDS_NRC_RESPONSE_TOO_LONG
| UDS_NRC_BUSY_REPEAT_REQUEST
| UDS_NRC_CONDITIONS_NOT_CORRECT
| UDS_NRC_REQUEST_SEQUENCE_ERROR
| UDS_NRC_REQUEST_OUT_OF_RANGE
| UDS_NRC_SECURITY_ACCESS_DENIED
| UDS_NRC_INVALID_KEY
| UDS_NRC_EXCEEDED_NUMBER_OF_ATTEMPTS
| UDS_NRC_REQUIRED_TIME_DELAY_NOT_EXPIRED
| UDS_NRC_UPLOAD_DOWNLOAD_NOT_ACCEPTED
| UDS_NRC_GENERAL_PROGRAMMING_FAILURE
| UDS_NRC_SUB_FUNCTION_NOT_SUPPORTED_IN_SESSION
| UDS_NRC_SERVICE_NOT_SUPPORTED_IN_SESSION.

#[export] Instance uds_nrc_eq_dec : EqDecision uds_nrc_t.
Proof. solve_decision. Defined.

(** The value of the enumerator. *)
Definition nrc_code (n : uds_nrc_t) : Z :=
  match n with
  | UDS_NRC_GENERAL_REJECT                        => 0x10
  | UDS_NRC_SERVICE_NOT_SUPPORTED                 => 0x11
  | UDS_NRC_SUB_FUNCTION_NOT_SUPPORTED            => 0x12
  | UDS_NRC_INCORRECT_MESSAGE_LENGTH              => 0x13
  | UDS_NRC_RESPONSE_TOO_LONG                     => 0x14
  | UDS_NRC_BUSY_REPEAT_REQUEST                   => 0x21
  | UDS_NRC_CONDITIONS_NOT_CORRECT                => 0x22
  | UDS_NRC_REQUEST_SEQUENCE_ERROR                => 0x24
  | UDS_NRC_REQUEST_OUT_OF_RANGE                  => 0x31
  | UDS_NRC_SECURITY_ACCESS_DENIED                => 0x33
  | UDS_NRC_INVALID_KEY                           => 0x35
  | UDS_NRC_EXCEEDED_NUMBER_OF_ATTEMPTS           => 0x36
  | UDS_NRC_REQUIRED_TIME_DELAY_NOT_EXPIRED       => 0x37
  | UDS_NRC_UPLOAD_DOWNLOAD_NOT_ACCEPTED          => 0x70
  | UDS_NRC_GENERAL_PROGRAMMING_FAILURE           => 0x72
  | UDS_NRC_SUB_FUNCTION_NOT_SUPPORTED_IN_SESSION => 0x7E
  | UDS_NRC_SERVICE_NOT_SUPPORTED_IN_SESSION      => 0x7F
  end.

Definition UDS_SUPPRESS_POS_RESP_BIT : Z := 0x80.

(** [sub_raw & (uint8_t)~UDS_SUPPRESS_POS_RESP_BIT] *)
Definition sub_function (sub_raw : Z) : Z :=
  Z.land sub_raw (u8 (Z.lnot UDS_SUPPRESS_POS_RESP_BIT)).

(** [sub_raw & UDS_SUPPRESS_POS_RESP_BIT] as a condition. *)
Definition suppressed (sub_raw : Z) : bool :=
  Z.land sub_raw UDS_SUPPRESS_POS_RESP_BIT !=? 0.

Lemma nrc_code_byte n : is_byte (nrc_code n).
Proof. by destruct n. Qed.

Lemma nrc_code_u8 n : u8 (nrc_code n) = nrc_code n.
Proof. apply u8_id, nrc_code_byte. Qed.

#[export] Instance nrc_code_inj : Inj (=) (=) nrc_code.
Proof. by intros [] []. Qed.

#[export] Hint Resolve nrc_code_byte : vecu.
#[export] Hint Rewrite nrc_code_u8 : vecu_rw.

(** The two fields of a sub-function byte. *)
Lemma sub_function_mod b : is_byte b → sub_function b = b mod 128.
Proof.
  intros _. unfold sub_function. replace (u8 _) with (Z.ones 7) by done.
  by rewrite Z.land_ones by lia.
Qed.

Lemma suppressed_iff b : is_byte b → suppressed b = (128 <=? b).
Proof.
  intros Hb. apply (byte_forall (λ b, eqb (suppressed b) (128 <=? b))) in Hb; [|done].
  by apply eqb_prop.
Qed.

Lemma sub_function_range b : is_byte b → 0 <= sub_function b < 128.
Proof. intros Hb. rewrite sub_function_mod by done. apply Z.mod_pos_bound. lia. Qed.

(** No positive response identifier of a served request looks negative. *)
Lemma UDS_POS_RESP_small sid : 0 <= sid < 0x3F → UDS_POS_RESP sid = sid + 0x40.
Proof. intros H. apply u8_id. unfold is_byte. lia. Qed.
