(* ===== verification/DtcMem.v ===== *)
(** [src/dtc_mem.c] and [include/dtc_mem.h]: the diagnostic trouble code
    memory, a fixed array of 16 entries guarded by one mutex. *)

From S2P Require Import Prelude Effects.

Definition DTC_MAX : Z := 16.

Definition DTC_STATUS_TEST_FAILED                    : Z := 0x01.
Definition DTC_STATUS_TEST_FAILED_THIS_CYCLE         : Z := 0x02.
Definition DTC_STATUS_PENDING                        : Z := 0x04.
Definition DTC_STATUS_CONFIRMED                      : Z := 0x08.
Definition DTC_STATUS_TEST_NOT_COMPLETED_SINCE_CLEAR : Z := 0x10.
Definition DTC_STATUS_TEST_FAILED_SINCE_LAST_CLEAR   : Z := 0x20.
Definition DTC_STATUS_TEST_NOT_COMPLETED_THIS_CYCLE  : Z := 0x40.
Definition DTC_STATUS_WARNING_INDICATOR_REQUESTED    : Z := 0x80.

Record dtc_entry_t := DtcEntry { dtc : Z; status : Z }.

#[export] Instance dtc_entry_eq_dec : EqDecision dtc_entry_t.
Proof. solve_decision. Defined.

Record dtc_mem_t := DtcMem {
  dtc_entries : list dtc_entry_t;
  dtc_count : Z;
  availability_mask : Z
}.

Definition dtc_entry_zero : dtc_entry_t := DtcEntry 0 0.
Definition dtc_entries_zero : list dtc_entry_t := replicate (Z.to_nat DTC_MAX) dtc_entry_zero.

(** [memset] followed by the availability mask. *)
Definition dtc_mem_init : dtc_mem_t :=
  DtcMem dtc_entries_zero 0
    (Z.lor (Z.lor DTC_STATUS_TEST_FAILED DTC_STATUS_CONFIRMED)
           DTC_STATUS_TEST_FAILED_SINCE_LAST_CLEAR).

Section operations.
Context {E : Env}.

(** The locked region of [dtc_mem_add]. *)
Definition dtc_mem_add_locked (dtc status : Z) : cs dtc_mem_t Z :=
  m ← gets id;
  if dtc_count m <? DTC_MAX then
    modify_out (λ m,
      es ← st (dtc_entries m) (dtc_count m) (DtcEntry (Z.land dtc 0x00FFFFFF) status);
      Done (DtcMem es (u64 (dtc_count m + 1)) (availability_mask m)));;
    mret 0
  else mret (-1).

Definition dtc_mem_add (m : ptr) (dtc status : Z) : prog access dtc_mem_t Z :=
  if is_null m then mret (-1) else crit Locked (dtc_mem_add_locked dtc status).

Definition dtc_mem_clear_all (m : ptr) : prog access dtc_mem_t Z :=
  if is_null m then mret 0 else
  crit Locked (
    n ← gets dtc_count;
    modify (λ m, DtcMem (dtc_entries m) 0 (availability_mask m));;
    modify (λ m, DtcMem dtc_entries_zero (dtc_count m) (availability_mask m));;
    mret n).

(** [for (i; i < m->count && written < max; ++i)]: [fuel] bounds the
    iterations; [count - i] of them are enough. *)
Fixpoint snapshot_loop (fuel : nat) (m : dtc_mem_t) (status_mask max i written : Z)
    (out : list dtc_entry_t) : outcome (Z * list dtc_entry_t) :=
  match fuel with
  | O => Done (written, out)
  | Datatypes.S fuel =>
      if (i <? dtc_count m) && (written <? max) then
        e ← ld (dtc_entries m) i;
        if Z.land (status e) status_mask !=? 0 then
          out ← st out written e;
          snapshot_loop fuel m status_mask max (i + 1) (written + 1) out
        else snapshot_loop fuel m status_mask max (i + 1) written out
      else Done (written, out)
  end.

(** Returns the number written and the caller's array. *)
Definition dtc_mem_snapshot_by_mask (m : ptr) (status_mask : Z)
    (out : option (list dtc_entry_t)) (max : Z)
  : prog access dtc_mem_t (Z * option (list dtc_entry_t)) :=
  match m, out with
  | PTR, Some out_arr =>
      if max =? 0 then mret (0, out) else
      '(written, out_arr) ← crit Locked (
        m ← gets id;
        of_outcome (snapshot_loop (Z.to_nat (dtc_count m)) m status_mask max 0 0 out_arr));
      mret (written, Some out_arr)
  | _, _ => mret (0, out)
  end.

(** Read without the lock. *)
Definition dtc_mem_availability_mask (m : ptr) : prog access dtc_mem_t Z :=
  if is_null m then mret 0 else crit Plain (gets availability_mask).
End operations.

(** * Well-formedness *)

Definition dtc_entry_wf (e : dtc_entry_t) : Prop :=
  0 <= dtc e < 2 ^ 24 ∧ is_byte (status e).

(** The array has its declared size, [count] of it is live, every stored
    code fits 24 bits and every status one byte. *)
Record dtc_mem_wf (m : dtc_mem_t) : Prop := {
  dwf_len : len (dtc_entries m) = DTC_MAX;
  dwf_count : 0 <= dtc_count m <= DTC_MAX;
  dwf_entries : Forall dtc_entry_wf (dtc_entries m);
  dwf_mask : is_byte (availability_mask m)
}.

(** The stored codes, in order: the abstract content of the memory. *)
Definition stored (m : dtc_mem_t) : list dtc_entry_t := take (Z.to_nat (dtc_count m)) (dtc_entries m).

(** Does the entry match the mask? *)
Definition matches (status_mask : Z) (e : dtc_entry_t) : bool :=
  Z.land (status e) status_mask !=? 0.

Lemma dtc_entries_zero_len : len dtc_entries_zero = DTC_MAX.
Proof. done. Qed.

Lemma dtc_entries_zero_wf : Forall dtc_entry_wf dtc_entries_zero.
Proof. apply Forall_replicate. split; by compute. Qed.

Lemma land_24_range z : 0 <= Z.land z 0x00FFFFFF < 2 ^ 24.
Proof.
  replace 0x00FFFFFF with (Z.ones 24) by done.
  rewrite Z.land_ones by lia. apply Z.mod_pos_bound. lia.
Qed.

Lemma stored_len m : dtc_mem_wf m → len (stored m) = dtc_count m.
Proof.
  intros []. unfold stored. rewrite len_take; [done|]. lia.
Qed.

Lemma stored_wf m : dtc_mem_wf m → Forall dtc_entry_wf (stored m).
Proof. intros []. by apply Forall_take. Qed.

Lemma dtc_mem_init_wf : dtc_mem_wf dtc_mem_init.
Proof. split; [done|by compute|apply dtc_entries_zero_wf|by compute]. Qed.

(** * The snapshot loop is a filter *)

Section facts.
Context {E : Env}.

(** What the loop writes from index [i] on: the next matching entries,
    as many as fit. *)
Lemma snapshot_loop_spec m mask max fuel i written pre post :
  dtc_mem_wf m →
  0 <= i <= dtc_count m → Z.of_nat fuel = dtc_count m - i →
  written = len pre → written <= max → max <= len pre + len post →
  ∃ rest,
    snapshot_loop fuel m mask max i written (pre ++ post) =
      Done (len pre + len (take (Z.to_nat (max - written))
                                (filter (λ e, matches mask e = true)
                                        (drop (Z.to_nat i) (stored m)))),
            (pre ++ take (Z.to_nat (max - written))
                         (filter (λ e, matches mask e = true)
                                 (drop (Z.to_nat i) (stored m)))) ++ rest).
Proof.
  intros Hwf. revert i written pre post.
  induction fuel as [|fuel IH]; intros i written pre post Hi Hf -> Hmax Hcap.
  - exists post. simpl.
    rewrite (drop_ge (stored m)).
    + rewrite filter_nil, take_nil, len_nil, app_nil_r, Z.add_0_r. done.
    + pose proof (stored_len m Hwf). unfold len in *. lia.
  - simpl. dec. simpl.
    destruct (Z.ltb_spec (len pre) max) as [Hlt|Hge]; simpl.
    + (* an entry is examined *)
      destruct (ld_in_range (stored m) i) as (e & _ & He);
        [rewrite stored_len by done; lia|].
      assert (Hld : ld (dtc_entries m) i = Done e).
      { apply ld_lookup; [lia|]. unfold stored in He.
        by apply lookup_take_Some in He as [He _]. }
      rewrite Hld. simpl.
      assert (Hdrop : drop (Z.to_nat i) (stored m) = e :: drop (Z.to_nat (i + 1)) (stored m)).
      { replace (Z.to_nat (i + 1)) with (S (Z.to_nat i)) by lia. by apply drop_S. }
      rewrite Hdrop, filter_cons.
      change (Z.land (status e) mask !=? 0) with (matches mask e).
      destruct (matches mask e) eqn:Hm.
      * rewrite decide_True by done.
        destruct post as [|y post]; [rewrite len_nil in Hcap; lia|].
        rewrite st_app_mid by done. simpl.
        destruct (IH (i + 1) (len pre + 1) (pre ++ [e]) post) as [rest Hrest];
          autorewrite with vlen in *; try lia.
        exists rest.
        replace (pre ++ e :: post) with ((pre ++ [e]) ++ post) by (by rewrite <- app_assoc).
        rewrite Hrest.
        replace (Z.to_nat (max - len pre)) with (S (Z.to_nat (max - (len pre + 1)))) by lia.
        simpl. rewrite len_cons, <- !app_assoc. simpl. do 2 f_equal. lia.
      * rewrite decide_False by congruence.
        apply (IH (i + 1) (len pre) pre post); lia.
    + exists post. replace (Z.to_nat (max - len pre)) with O by lia.
      by rewrite take_0, len_nil, Z.add_0_r, app_nil_r.
Qed.

(** ** What each operation does *)

Definition snapshot (mask max : Z) (m : dtc_mem_t) : list dtc_entry_t :=
  take (Z.to_nat max) (filter (λ e, matches mask e = true) (stored m)).

Lemma snapshot_locked_spec m mask max out_arr :
  dtc_mem_wf m → 0 <= max <= len out_arr →
  ∃ rest,
    snapshot_loop (Z.to_nat (dtc_count m)) m mask max 0 0 out_arr =
      Done (len (snapshot mask max m), snapshot mask max m ++ rest).
Proof.
  intros Hwf Hmax. pose proof (dwf_count _ Hwf).
  destruct (snapshot_loop_spec m mask max (Z.to_nat (dtc_count m)) 0 0 [] out_arr)
    as [rest Hrest]; [done|lia|lia|done|lia|rewrite len_nil; lia|].
  exists rest. rewrite app_nil_l in Hrest. rewrite Hrest.
  by rewrite len_nil, Z.add_0_l, app_nil_l, Z.sub_0_r.
Qed.

Lemma snapshot_loop_len m mask max : ∀ fuel i written out n out',
  snapshot_loop fuel m mask max i written out = Done (n, out') → len out' = len out.
Proof.
  induction fuel as [|fuel IH]; intros i written out n out'; simpl.
  - by intros [= <- <-].
  - destruct (_ && _); [|by intros [= <- <-]].
    destruct (ld _ _) as [e| |]; simpl; [|done..].
    destruct (negb _); [|apply IH].
    destruct (st out written e) as [out1| |] eqn:Hst; simpl; [|done..].
    intros H. apply IH in H. rewrite H. by eapply st_Done.
Qed.

Lemma snapshot_len mask max m : 0 <= max → len (snapshot mask max m) <= max.
Proof. unfold snapshot, len. rewrite length_take. lia. Qed.

Lemma snapshot_wf mask max m : dtc_mem_wf m → Forall dtc_entry_wf (snapshot mask max m).
Proof.
  intros Hwf. apply Forall_take, Forall_forall. intros e He.
  apply list_elem_of_filter in He as [_ He].
  by apply (proj1 (Forall_forall _ _) (stored_wf m Hwf)).
Qed.

(** Enough room for the whole memory loses nothing. *)
Lemma snapshot_all mask m :
  dtc_mem_wf m → snapshot mask DTC_MAX m = filter (λ e, matches mask e = true) (stored m).
Proof.
  intros Hwf. apply take_ge. etrans; [apply length_filter|].
  pose proof (stored_len m Hwf) as Hl. destruct (dwf_count _ Hwf).
  unfold len, DTC_MAX in *. lia.
Qed.

Lemma dtc_mem_add_spec m dtc0 status0 rd dr :
  dtc_mem_wf m → is_byte status0 →
  ∃ rc m',
    run (dtc_mem_add PTR dtc0 status0) (World m rd dr) = Done (rc, World m' rd dr) ∧
    dtc_mem_wf m' ∧
    (if dtc_count m <? DTC_MAX
     then rc = 0 ∧ stored m' = stored m ++ [DtcEntry (Z.land dtc0 0x00FFFFFF) status0]
     else rc = -1 ∧ m' = m).
Proof.
  intros [Hl [Hc0 Hc1] Hes Hmask] Hst0.
  unfold dtc_mem_add. simpl. unfold dtc_mem_add_locked, gets, modify_out.
  unfold mbind, cs_bind. simpl.
  destruct (Z.ltb_spec (dtc_count m) DTC_MAX) as [Hlt|Hge]; simpl.
  - destruct (split_at (dtc_entries m) (dtc_count m)) as (l1 & x & l2 & Hsplit & Hi); [lia|].
    rewrite Hsplit, st_app_mid by done. simpl.
    eexists _, _. split; [done|].
    assert (Hu : u64 (dtc_count m + 1) = dtc_count m + 1).
    { apply u64_id. unfold DTC_MAX in *. lia. }
    split.
    + split; simpl.
      * rewrite <- Hl, Hsplit. by autorewrite with vlen.
      * lia.
      * rewrite Hsplit in Hes. apply Forall_app in Hes as [H1 H2].
        apply Forall_app; split; [done|]. apply Forall_cons_1 in H2 as [_ H2].
        constructor; [|done]. split; [apply land_24_range|done].
      * done.
    + split; [done|]. unfold stored; simpl. rewrite Hu, Hsplit, Hi.
      replace (Z.to_nat (len l1 + 1)) with (S (length l1)) by (unfold len; lia).
      rewrite to_nat_len, take_app_length, firstn_app.
      replace (S (length l1) - length l1)%nat with 1%nat by lia.
      rewrite take_ge by lia. done.
  - eexists _, _. split; [done|]. split; [by split|done].
Qed.

Lemma dtc_mem_clear_all_spec m rd dr :
  dtc_mem_wf m →
  ∃ m',
    run (dtc_mem_clear_all PTR) (World m rd dr) = Done (dtc_count m, World m' rd dr) ∧
    dtc_mem_wf m' ∧ stored m' = [] ∧ availability_mask m' = availability_mask m.
Proof.
  intros []. eexists. split; [done|].
  split; [|done]. split; [done|by compute|apply dtc_entries_zero_wf|done].
Qed.

(** ** Safety under interference *)

Lemma dtc_mem_clear_all_safe :
  safe never dtc_mem_wf (dtc_mem_clear_all PTR) (λ _, True).
Proof.
  intros [m rd dr] Hwf. simpl in *.
  destruct (dtc_mem_clear_all_spec m rd dr Hwf) as (m' & Hrun & Hwf' & _).
  simpl in Hrun. unfold mbind, cs_bind in *. simpl in *. simplify_eq. done.
Qed.

Lemma dtc_mem_snapshot_safe mask out_arr max :
  0 < max <= len out_arr →
  safe never dtc_mem_wf (dtc_mem_snapshot_by_mask PTR mask (Some out_arr) max)
    (λ r, ∃ l rest, r = (len l, Some (l ++ rest)) ∧ len l <= max ∧
                    Forall dtc_entry_wf l ∧ len (l ++ rest) = len out_arr).
Proof.
  intros Hmax. unfold dtc_mem_snapshot_by_mask. dec.
  intros [m rd dr] Hwf. simpl in *. unfold mbind, cs_bind, gets, of_outcome. simpl.
  destruct (snapshot_locked_spec m mask max out_arr Hwf ltac:(lia)) as [rest Hr].
  rewrite Hr. split; [done|]. eexists _, rest. split; [done|].
  split; [apply snapshot_len; lia|]. split; [by apply snapshot_wf|].
  by eapply snapshot_loop_len.
Qed.

Lemma dtc_mem_availability_mask_safe :
  safe never dtc_mem_wf (dtc_mem_availability_mask PTR) is_byte.
Proof. intros [m rd dr] Hwf. split; [done|]. apply Hwf. Qed.
End facts.
