(* ===== verification/DidTable.v ===== *)
(** [src/did_table.c] and [include/did_table.h]: the registry of data
    identifiers.  The table is filled once by [vecu_init] and then only
    read, without a lock.  The two callback pointers of an entry range over
    the types [R] and [W] of the program's read and write functions. *)

From stdpp Require Import gmap.
From S2P Require Import Prelude Effects.

Definition DID_TABLE_MAX : Z := 16.

Section table.
Context {R W : Type}.

(** [static_data], [read] and [write] are pointers: [None] is NULL.
    [static_data] carries the object it points to. *)
Record did_entry_t := DidEntry {
  did : Z;
  static_data : option bytes;
  static_len : Z;
  read : option R;
  write : option W;
  requires_security : bool;
  requires_extended_session : bool
}.

Record did_table_t := DidTable {
  did_entries : list did_entry_t;
  did_count : Z
}.

Definition did_entry_zero : did_entry_t := DidEntry 0 None 0 None None false false.

Definition did_table_init : did_table_t :=
  DidTable (replicate (Z.to_nat DID_TABLE_MAX) did_entry_zero) 0.

(** [t] and [entry] may be NULL; the result is the return code and the table. *)
Definition did_table_add (t : ptr) (entry : option did_entry_t) (tab : did_table_t)
  : outcome (Z * did_table_t) :=
  match t, entry with
  | PTR, Some e =>
      if did_count tab >=? DID_TABLE_MAX then Done (-1, tab) else
      es ← st (did_entries tab) (did_count tab) e;
      Done (0, DidTable es (u64 (did_count tab + 1)))
  | _, _ => Done (-1, tab)
  end.

(** [for (i; i < t->count; ++i)] *)
Fixpoint lookup_loop (fuel : nat) (tab : did_table_t) (d i : Z)
  : outcome (option did_entry_t) :=
  match fuel with
  | O => Done None
  | S fuel =>
      if i <? did_count tab then
        e ← ld (did_entries tab) i;
        if did e =? d then Done (Some e)
        else lookup_loop fuel tab d (i + 1)
      else Done None
  end.

(** The entry pointed to by the result, or [None] for NULL. *)
Definition did_table_lookup (t : ptr) (d : Z) (tab : did_table_t)
  : outcome (option did_entry_t) :=
  if is_null t then Done None
  else lookup_loop (Z.to_nat (did_count tab)) tab d 0.

(** * Well-formedness *)

(** A static entry does not claim more bytes than its object has. *)
Definition did_entry_wf (e : did_entry_t) : Prop :=
  0 <= did e < 2 ^ 16 ∧
  match static_data e with
  | Some data => 0 <= static_len e <= len data ∧ Forall is_byte data
  | None => True
  end.

Record did_table_wf (tab : did_table_t) : Prop := {
  tabwf_len : len (did_entries tab) = DID_TABLE_MAX;
  tabwf_count : 0 <= did_count tab <= DID_TABLE_MAX;
  tabwf_entries : Forall did_entry_wf (did_entries tab)
}.

(** The registered entries in registration order. *)
Definition registered (tab : did_table_t) : list did_entry_t :=
  take (Z.to_nat (did_count tab)) (did_entries tab).

(** First match, as a specification. *)
Definition find_did (d : Z) (l : list did_entry_t) : option did_entry_t :=
  head (filter (λ e, did e = d) l).

Lemma did_table_init_wf : did_table_wf did_table_init.
Proof.
  split; [done|by compute|]. apply Forall_replicate. split; [by compute|done].
Qed.

Lemma did_table_init_empty : registered did_table_init = [].
Proof. done. Qed.

Lemma registered_len tab : did_table_wf tab → len (registered tab) = did_count tab.
Proof. intros []. unfold registered. rewrite len_take; [done|]. lia. Qed.

Lemma lookup_loop_spec tab d : did_table_wf tab → ∀ fuel i,
  0 <= i <= did_count tab → Z.of_nat fuel = did_count tab - i →
  lookup_loop fuel tab d i = Done (find_did d (drop (Z.to_nat i) (registered tab))).
Proof.
  intros Hwf. induction fuel as [|fuel IH]; intros i Hi Hf.
  - simpl. rewrite (drop_ge (registered tab)); [done|].
    pose proof (registered_len tab Hwf) as Hl. unfold len in Hl. lia.
  - cbn [lookup_loop]. dec.
    destruct (ld_in_range (registered tab) i) as (e & _ & He);
      [rewrite registered_len by done; lia|].
    assert (Hld : ld (did_entries tab) i = Done e).
    { apply ld_lookup; [lia|]. unfold registered in He.
      by apply lookup_take_Some in He as [He _]. }
    rewrite Hld. simpl. unfold find_did. rewrite (drop_S _ e (Z.to_nat i)) by done.
    rewrite filter_cons.
    destruct (Z.eqb_spec (did e) d) as [Heq|Hne].
    + by rewrite decide_True.
    + rewrite decide_False by done. rewrite IH by lia.
      by replace (Z.to_nat (i + 1)) with (S (Z.to_nat i)) by lia.
Qed.

(** The loop finds the first registered entry with the identifier. *)
Lemma did_table_lookup_spec tab d :
  did_table_wf tab → did_table_lookup PTR d tab = Done (find_did d (registered tab)).
Proof.
  intros Hwf. unfold did_table_lookup. simpl. pose proof (tabwf_count _ Hwf).
  by rewrite lookup_loop_spec by (done || lia).
Qed.

Lemma find_did_Some d l e : find_did d l = Some e → e ∈ l ∧ did e = d.
Proof.
  unfold find_did. intros H.
  assert (He : e ∈ filter (λ e, did e = d) l).
  { destruct (filter _ l); [done|]. simpl in H. simplify_eq. by left. }
  by apply list_elem_of_filter in He as [??].
Qed.

Lemma find_did_wf tab d e :
  did_table_wf tab → find_did d (registered tab) = Some e → did_entry_wf e ∧ did e = d.
Proof.
  intros [_ _ Hes] He. apply find_did_Some in He as [He Hd].
  split; [|done]. apply (Forall_take _ (Z.to_nat (did_count tab))) in Hes.
  by apply (proj1 (Forall_forall _ _) Hes).
Qed.

Lemma did_table_add_spec tab e :
  did_table_wf tab → did_entry_wf e →
  ∃ rc tab',
    did_table_add PTR (Some e) tab = Done (rc, tab') ∧ did_table_wf tab' ∧
    (if did_count tab <? DID_TABLE_MAX
     then rc = 0 ∧ registered tab' = registered tab ++ [e]
     else rc = -1 ∧ tab' = tab).
Proof.
  intros [Hl [Hc0 Hc1] Hes] He. unfold did_table_add. rewrite Z.geb_leb.
  destruct (Z.ltb_spec (did_count tab) DID_TABLE_MAX) as [Hlt|Hge]; dec.
  - destruct (split_at (did_entries tab) (did_count tab)) as (l1 & x & l2 & Hs & Hi); [lia|].
    rewrite Hs, st_app_mid by done. simpl. eexists _, _. split; [done|].
    assert (Hu : u64 (did_count tab + 1) = did_count tab + 1).
    { apply u64_id. unfold DID_TABLE_MAX in *. lia. }
    split.
    + split; simpl.
      * rewrite <- Hl, Hs. by autorewrite with vlen.
      * lia.
      * rewrite Hs in Hes. apply Forall_app in Hes as [H1 H2].
        apply Forall_app; split; [done|]. apply Forall_cons_1 in H2 as [_ H2].
        by constructor.
    + split; [done|]. unfold registered; simpl. rewrite Hu, Hs, Hi.
      replace (Z.to_nat (len l1 + 1)) with (S (length l1)) by (unfold len; lia).
      rewrite to_nat_len, take_app_length, firstn_app.
      replace (S (length l1) - length l1)%nat with 1%nat by lia.
      rewrite take_ge by lia. done.
  - eexists _, _. split; [done|]. by split.
Qed.

(** ** The table as a finite map *)

Fixpoint add_all (es : list did_entry_t) (tab : did_table_t) : outcome did_table_t :=
  match es with
  | [] => Done tab
  | e :: es => '(_, tab) ← did_table_add PTR (Some e) tab; add_all es tab
  end.

(** The first entry of an identifier counts. *)
Definition did_map (es : list did_entry_t) : gmap Z did_entry_t := list_to_map (map (λ e, (did e, e)) es).

Lemma find_did_map d es : find_did d es = did_map es !! d.
Proof.
  unfold find_did, did_map. induction es as [|e es IH]; simpl; [by rewrite lookup_empty|].
  rewrite filter_cons. destruct (decide (did e = d)) as [->|Hne].
  - by rewrite lookup_insert_eq.
  - by rewrite lookup_insert_ne by done.
Qed.

Lemma add_all_spec es : ∀ tab,
  did_table_wf tab → Forall did_entry_wf es →
  ∃ tab', add_all es tab = Done tab' ∧ did_table_wf tab' ∧
    registered tab' = take (Z.to_nat DID_TABLE_MAX) (registered tab ++ es).
Proof.
  induction es as [|e es IH]; intros tab Hwf Hes; pose proof (registered_len tab Hwf) as Hl;
    pose proof (tabwf_count _ Hwf) as Hc.
  - exists tab. split; [done|]. split; [done|]. rewrite app_nil_r, take_ge; [done|].
    unfold len, DID_TABLE_MAX in *. lia.
  - apply Forall_cons in Hes as [He Hes]. cbn [add_all].
    destruct (did_table_add_spec tab e Hwf He) as (rc & tab1 & -> & Hwf1 & Hcase). cbn [mbind outcome_bind].
    destruct (IH tab1 Hwf1 Hes) as (tab' & Hr & Hwf' & Hreg). exists tab'. split; [exact Hr|]. split; [done|].
    rewrite Hreg. destruct (Z.ltb_spec (did_count tab) DID_TABLE_MAX) as [_|Hfull]; destruct Hcase as [_ Hcase].
    + by rewrite Hcase, <- app_assoc.
    + subst tab1. rewrite !take_app_le by (unfold len, DID_TABLE_MAX in *; lia). done.
Qed.

(** C30: the table is a finite map of 16 entries: built by registering any
    list of well-formed entries, it finds for every identifier what the map
    of the first sixteen finds, where the first registration of an identifier
    counts; entries beyond the sixteenth are refused. *)
Theorem did_table_is_map es d :
  Forall did_entry_wf es →
  ∃ tab, add_all es did_table_init = Done tab ∧
    did_table_lookup PTR d tab = Done (did_map (take (Z.to_nat DID_TABLE_MAX) es) !! d).
Proof.
  intros Hes. destruct (add_all_spec es did_table_init did_table_init_wf Hes) as (tab & Hr & Hwf & Hreg).
  exists tab. split; [done|]. rewrite did_table_lookup_spec, find_did_map, Hreg by done. done.
Qed.
End table.

(** Two entries of one identifier: the first is found. *)
Lemma did_table_is_map_witness :
  let e n : did_entry_t (R:=()) (W:=()) := DidEntry 0xF190 (Some [n]) 1 None None false false in
  ∃ tab, add_all [e 1; e 2] did_table_init = Done tab ∧ did_table_lookup PTR 0xF190 tab = Done (Some (e 1)).
Proof.
  intros e. destruct (did_table_is_map [e 1; e 2] 0xF190) as (tab & Ha & Hl).
  - by repeat constructor.
  - exists tab. split; [exact Ha|]. rewrite Hl. by vm_compute.
Defined.

Arguments did_entry_t : clear implicits.
Arguments did_table_t : clear implicits.
