(* ===== verification/Security.v ===== *)
(** [src/security.c] and [include/security.h]: the SecurityAccess state
    machine (seed, key, lock-out), one mutex around each operation. *)

From S2P Require Import Prelude Effects Simulate UdsTypes.

Definition SECURITY_KEY_CONSTANT : Z := 0xDEADBEEF.
Definition SECURITY_MAX_FAILS : Z := 3.
Definition SECURITY_LOCK_DURATION_MS : Z := 10000.

Record security_state_t := SecurityState {
  unlocked_level : Z;   (* uint8_t, 0 = locked *)
  pending_seed : Z;     (* uint32_t *)
  seed_issued : bool;
  fail_count : Z;       (* uint8_t *)
  lock_until_ms : Z     (* uint64_t, 0 = not locked out *)
}.

#[export] Instance security_state_eq_dec : EqDecision security_state_t.
Proof. solve_decision. Defined.

Definition set_unlocked_level v s :=
  SecurityState v (pending_seed s) (seed_issued s) (fail_count s) (lock_until_ms s).
Definition set_pending_seed v s :=
  SecurityState (unlocked_level s) v (seed_issued s) (fail_count s) (lock_until_ms s).
Definition set_seed_issued v s :=
  SecurityState (unlocked_level s) (pending_seed s) v (fail_count s) (lock_until_ms s).
Definition set_fail_count v s :=
  SecurityState (unlocked_level s) (pending_seed s) (seed_issued s) v (lock_until_ms s).
Definition set_lock_until_ms v s :=
  SecurityState (unlocked_level s) (pending_seed s) (seed_issued s) (fail_count s) v.

(** [memset(s, 0, sizeof( *s))] *)
Definition security_init : security_state_t := SecurityState 0 0 false 0 0.

Definition level_supported (level : Z) : bool := level =? 0x01.

(** The return code of an operation, and what it wrote through its out
    parameters ([None]: not written). *)
Record sec_result := SecResult {
  sr_rc : Z;
  sr_seed : option Z;
  sr_nrc : option uds_nrc_t
}.

#[export] Instance sec_result_eq_dec : EqDecision sec_result.
Proof. solve_decision. Defined.

Section operations.
Context {E : Env}.

(** "Pull 4 bytes of entropy", with the fallback of lines 58-65. *)
Definition draw_seed {S} : cs S Z :=
  '(got, word) ← getrandom_u32;
  let seed := if got !=? 4 then 0xA5A5A5A5 else word in
  mret (if seed =? 0 then 0xA5A5A5A5 else seed).

(** Lines 58-72: draw a seed and issue it. *)
Definition issue_seed : cs security_state_t sec_result :=
  seed ← draw_seed;
  modify (set_pending_seed seed);;
  modify (set_seed_issued true);;
  mret (SecResult 0 (Some seed) None).

(** The locked region of [security_request_seed]. *)
Definition request_seed_locked (level : Z) : cs security_state_t sec_result :=
  s ← gets id;
  if unlocked_level s >=? level then
    modify (set_seed_issued false);;
    mret (SecResult 1 (Some 0) None)
  else if lock_until_ms s !=? 0 then
    now ← vecu_now_ms;
    if now <? lock_until_ms s then
      mret (SecResult (-1) None (Some UDS_NRC_REQUIRED_TIME_DELAY_NOT_EXPIRED))
    else
      modify (set_lock_until_ms 0);;
      modify (set_fail_count 0);;
      issue_seed
  else issue_seed.

Definition security_request_seed (s : ptr) (level : Z) (out_seed nrc : ptr)
  : prog access security_state_t sec_result :=
  if is_null s || is_null out_seed || is_null nrc then mret (SecResult (-1) None None)
  else if negb (level_supported level) then
    mret (SecResult (-1) None (Some UDS_NRC_SUB_FUNCTION_NOT_SUPPORTED))
  else crit Locked (request_seed_locked level).

(** Lines 94-98: a lock-out is set and not over. *)
Definition locked_out : cs security_state_t bool :=
  s ← gets id;
  if lock_until_ms s !=? 0 then
    now ← vecu_now_ms;
    mret (now <? lock_until_ms s)
  else mret false.

(** Lines 100-118: compare the key, one shot. *)
Definition check_key (level key : Z) : cs security_state_t sec_result :=
  s ← gets id;
  let expected := Z.lxor (pending_seed s) SECURITY_KEY_CONSTANT in
  modify (set_seed_issued false);;
  if key =? expected then
    modify (set_unlocked_level level);;
    modify (set_fail_count 0);;
    mret (SecResult 0 None None)
  else
    modify (λ s, set_fail_count (u8 (fail_count s + 1)) s);;
    s ← gets id;
    if fail_count s >=? SECURITY_MAX_FAILS then
      now ← vecu_now_ms;
      modify (set_lock_until_ms (u64 (now + SECURITY_LOCK_DURATION_MS)));;
      mret (SecResult (-1) None (Some UDS_NRC_EXCEEDED_NUMBER_OF_ATTEMPTS))
    else mret (SecResult (-1) None (Some UDS_NRC_INVALID_KEY)).

(** The locked region of [security_send_key]. *)
Definition send_key_locked (level key : Z) : cs security_state_t sec_result :=
  s ← gets id;
  if negb (seed_issued s) then
    mret (SecResult (-1) None (Some UDS_NRC_REQUEST_SEQUENCE_ERROR))
  else
    out ← locked_out;
    if out : bool then
      mret (SecResult (-1) None (Some UDS_NRC_REQUIRED_TIME_DELAY_NOT_EXPIRED))
    else check_key level key.

Definition security_send_key (s : ptr) (level key : Z) (nrc : ptr)
  : prog access security_state_t sec_result :=
  if is_null s || is_null nrc then mret (SecResult (-1) None None)
  else if negb (level_supported level) then
    mret (SecResult (-1) None (Some UDS_NRC_SUB_FUNCTION_NOT_SUPPORTED))
  else crit Locked (send_key_locked level key).

Definition security_is_unlocked (s : ptr) (level : Z) : prog access security_state_t bool :=
  if is_null s then mret false
  else crit Locked (gets (λ s, unlocked_level s >=? level)).
End operations.

(** * Abstract specification: four phases

    What the state machine promises a client, without the fields: locked
    with [n] wrong keys so far, a seed outstanding, locked out until a time,
    or unlocked. *)

Inductive phase : Type :=
| Idle (fails : Z)
| Challenge (seed fails : Z)
| Lockout (until : Z)
| Open.

#[export] Instance phase_eq_dec : EqDecision phase.
Proof. solve_decision. Defined.

Definition phase_of (s : security_state_t) : phase :=
  if unlocked_level s >=? 1 then Open
  else if lock_until_ms s !=? 0 then Lockout (lock_until_ms s)
  else if seed_issued s then Challenge (pending_seed s) (fail_count s)
  else Idle (fail_count s).

(** The replies a client can see. *)
Inductive sec_reply : Type :=
| SeedIs (seed : Z)
| AlreadyUnlocked
| KeyAccepted
| Refused (nrc : uds_nrc_t).

#[export] Instance sec_reply_eq_dec : EqDecision sec_reply.
Proof. solve_decision. Defined.

Definition reply_result (r : sec_reply) : sec_result :=
  match r with
  | SeedIs seed => SecResult 0 (Some seed) None
  | AlreadyUnlocked => SecResult 1 (Some 0) None
  | KeyAccepted => SecResult 0 None None
  | Refused n => SecResult (-1) None (Some n)
  end.

(** requestSeed at time [now], with a fresh [seed]. *)
Definition phase_request (now seed : Z) (p : phase) : sec_reply * phase :=
  match p with
  | Open => (AlreadyUnlocked, Open)
  | Lockout until =>
      if now <? until then (Refused UDS_NRC_REQUIRED_TIME_DELAY_NOT_EXPIRED, p)
      else (SeedIs seed, Challenge seed 0)
  | Idle n | Challenge _ n => (SeedIs seed, Challenge seed n)
  end.

(** sendKey at time [now]. *)
Definition phase_key (now key : Z) (p : phase) : sec_reply * phase :=
  match p with
  | Challenge seed n =>
      if key =? Z.lxor seed SECURITY_KEY_CONSTANT then (KeyAccepted, Open)
      else if n + 1 >=? SECURITY_MAX_FAILS then
        (Refused UDS_NRC_EXCEEDED_NUMBER_OF_ATTEMPTS, Lockout (now + SECURITY_LOCK_DURATION_MS))
      else (Refused UDS_NRC_INVALID_KEY, Idle (n + 1))
  | _ => (Refused UDS_NRC_REQUEST_SEQUENCE_ERROR, p)
  end.

(** Locking back without clearing the failure history (the S3 timeout). *)
Definition phase_relock (p : phase) : phase :=
  match p with
  | Open => Idle 0
  | Challenge _ n => Idle n
  | _ => p
  end.

(** * Invariant *)

(** The clock is far from the 64-bit wrap, so a lock-out end never wraps. *)
Class ClockBounded (E : Env) : Prop :=
  clock_bounded : ∀ n, ms_of_timespec (clock_gettime n) < 2 ^ 64 - SECURITY_LOCK_DURATION_MS.

Record security_wf (s : security_state_t) : Prop := {
  swf_level : unlocked_level s = 0 ∨ unlocked_level s = 1;
  swf_seed : 0 <= pending_seed s < 2 ^ 32;
  swf_fails : 0 <= fail_count s <= SECURITY_MAX_FAILS;
  swf_until : 0 <= lock_until_ms s < 2 ^ 64;
  (* a pending challenge has no lock-out and at most two failures *)
  swf_pending : seed_issued s = true →
    lock_until_ms s = 0 ∧ unlocked_level s = 0 ∧ pending_seed s ≠ 0;
  (* three failures are always a lock-out *)
  swf_lockout : fail_count s = SECURITY_MAX_FAILS → lock_until_ms s ≠ 0;
  (* unlocking clears the history *)
  swf_open : unlocked_level s = 1 → fail_count s = 0 ∧ lock_until_ms s = 0 ∧ seed_issued s = false
}.

(** The seed the [n]-th draw yields: never 0. *)
Definition drawn_seed {E : Env} (n : nat) : Z :=
  let '(got, word) := getrandom n in
  let seed := if got !=? 4 then 0xA5A5A5A5 else u32 word in
  if seed =? 0 then 0xA5A5A5A5 else seed.

Lemma drawn_seed_range {E : Env} n : 0 < drawn_seed n < 2 ^ 32.
Proof.
  unfold drawn_seed. destruct (getrandom n) as [got word].
  pose proof (u32_range word). destruct (got !=? 4); zb; lia.
Qed.

Lemma draw_seed_run {E : Env} {S} (w : world S) :
  draw_seed w = Done (drawn_seed (draws w), World (obj w) (readings w) (Datatypes.S (draws w))).
Proof.
  unfold draw_seed, drawn_seed. cs_simpl. by destruct (getrandom (draws w)) as [got word].
Qed.

(** A challenge is an outstanding seed with at most two failures. *)
Lemma phase_challenge_inv s sd n :
  security_wf s → phase_of s = Challenge sd n →
  seed_issued s = true ∧ sd = pending_seed s ∧ n <= 2.
Proof.
  intros [Hl Hp Hf Hu Hpend Hlock Hopen]. unfold phase_of.
  destruct (unlocked_level s >=? 1); [done|].
  destruct (Z.eqb_spec (lock_until_ms s) 0) as [H0|]; simpl; [|done].
  destruct (seed_issued s); [|done]. intros [= <- <-]. split; [done|]. split; [done|].
  assert (fail_count s ≠ SECURITY_MAX_FAILS) by (intros Heq; by apply Hlock).
  unfold SECURITY_MAX_FAILS in *. lia.
Qed.

Lemma security_init_wf : security_wf security_init.
Proof. split; simpl; try (by left); unfold SECURITY_MAX_FAILS; try lia; done. Qed.

(** Destruct a security world and its invariant. *)
Ltac sec_destruct w :=
  let l := fresh "lvl" in let p := fresh "seed" in let i := fresh "issued" in
  let f := fresh "fails" in let u := fresh "until" in
  let rd := fresh "rd" in let dr := fresh "dr" in
  destruct w as [[l p i f u] rd dr]; simpl in *.

(** Re-establish the invariant after an update of some fields. *)
Ltac security_wf_solve :=
  split; simpl; unfold SECURITY_MAX_FAILS, SECURITY_LOCK_DURATION_MS in *;
  solve [ by left | by right | done | lia | intuition (try lia; congruence) ].

(** Clock readings and entropy draws an operation makes. *)
Definition request_reads (p : phase) : nat := match p with Lockout _ => 1 | _ => 0 end.
Definition request_draws (r : sec_reply) : nat := match r with SeedIs _ => 1 | _ => 0 end.
Definition key_reads (r : sec_reply) : nat :=
  match r with Refused UDS_NRC_EXCEEDED_NUMBER_OF_ATTEMPTS => 1 | _ => 0 end.

Section refinement.
Context {E : Env} `{!ClockBounded E}.

Lemma now_bounded {S} (w : world S) :
  0 <= now_at w < 2 ^ 64 - SECURITY_LOCK_DURATION_MS.
Proof. split; [apply u64_range|apply clock_bounded]. Qed.

(** requestSeed implements [phase_request]. *)
Lemma request_seed_refines w :
  security_wf (obj w) →
  ∃ w' r,
    request_seed_locked 1 w = Done (reply_result r, w') ∧
    phase_request (now_at w) (drawn_seed (draws w)) (phase_of (obj w)) = (r, phase_of (obj w')) ∧
    security_wf (obj w') ∧
    readings w' = (request_reads (phase_of (obj w)) + readings w)%nat ∧
    draws w' = (request_draws r + draws w)%nat.
Proof.
  intros Hwf. pose proof (now_bounded w) as Hnow. pose proof (drawn_seed_range (draws w)) as Hseed.
  unfold request_seed_locked, issue_seed.
  sec_destruct w. destruct Hwf as [Hl Hp Hf Hu Hpend Hlock Hopen]; simpl in *.
  unfold now_at in *; simpl in *. cs_simpl.
  destruct Hl as [->| ->]; simpl.
  - destruct (Z.eqb_spec until 0) as [->|Hne]; simpl.
    + rewrite draw_seed_run. simpl. eexists _, (SeedIs _). split; [done|].
      unfold phase_of; simpl. split; [by destruct issued|].
      split; [security_wf_solve|]. by destruct issued.
    + destruct issued; [by destruct (Hpend eq_refl)|].
      destruct (Z.ltb_spec (ms_of_timespec (clock_gettime rd)) until) as [Hlt|Hge]; simpl.
      * eexists _, (Refused _). split; [done|]. unfold phase_of; simpl. dec. simpl.
        split; [by dec|]. split; [security_wf_solve|]; by dec.
      * rewrite draw_seed_run. simpl. eexists _, (SeedIs _). split; [done|].
        unfold phase_of; simpl. dec. simpl. split; [by dec|].
        split; [security_wf_solve|]; by dec.
  - eexists _, AlreadyUnlocked. split; [done|]. split; [done|].
    split; [security_wf_solve|]; by dec.
Qed.

(** sendKey implements [phase_key]. *)
Lemma send_key_refines w key :
  security_wf (obj w) →
  ∃ w' r,
    send_key_locked 1 key w = Done (reply_result r, w') ∧
    phase_key (now_at w) key (phase_of (obj w)) = (r, phase_of (obj w')) ∧
    security_wf (obj w') ∧
    readings w' = (key_reads r + readings w)%nat ∧ draws w' = draws w.
Proof.
  intros Hwf. pose proof (now_bounded w) as Hnow.
  unfold send_key_locked, locked_out, check_key.
  sec_destruct w. pose proof Hwf as [Hl Hp Hf Hu Hpend Hlock Hopen]; simpl in *.
  unfold now_at in *; simpl in *. cs_simpl.
  destruct issued; simpl.
  - destruct (Hpend eq_refl) as (-> & -> & Hp0). simpl.
    unfold phase_of; simpl.
    destruct (Z.eqb_spec key (Z.lxor seed SECURITY_KEY_CONSTANT)); simpl.
    + eexists _, KeyAccepted. split; [done|]. split; [done|].
      split; [security_wf_solve|]; by dec.
    + rewrite u8_id by (unfold is_byte, SECURITY_MAX_FAILS in *; lia). rewrite !Z.geb_leb.
      destruct (Z.leb_spec SECURITY_MAX_FAILS (fails + 1)) as [Hle|Hgt]; simpl.
      * eexists _, (Refused _). split; [done|].
        rewrite u64_id by (unfold SECURITY_LOCK_DURATION_MS in *; lia). simpl.
        assert (Hne : fails ≠ SECURITY_MAX_FAILS) by (intros ->; by apply Hlock).
        unfold SECURITY_LOCK_DURATION_MS in *. dec. simpl. split; [done|].
        split; [security_wf_solve|]; by dec.
      * eexists _, (Refused _). split; [done|]. split; [done|].
        split; [security_wf_solve|]; by dec.
  - eexists _, (Refused _). split; [done|]. split; [|done].
    unfold phase_of; simpl. destruct Hl as [-> | ->]; simpl; [|done].
    by destruct (Z.eqb_spec until 0).
Qed.
End refinement.

(** * Histories of operations

    [OpRelock] is the S3 thread locking security back
    ([src/threads.c], lines 99-102). *)

Definition security_relock {E : Env} : cs security_state_t () :=
  modify (set_unlocked_level 0);;
  modify (set_seed_issued false).

Inductive sec_op : Type :=
| OpRequest (level : Z)
| OpKey (level key : Z)
| OpRelock.

Section histories.
Context {E : Env} `{!ClockBounded E}.

Definition exec_op (op : sec_op) : prog access security_state_t (option sec_result) :=
  match op with
  | OpRequest level => r ← security_request_seed PTR level PTR PTR; mret (Some r)
  | OpKey level key => r ← security_send_key PTR level key PTR; mret (Some r)
  | OpRelock => crit Locked security_relock;; mret None
  end.

Fixpoint exec_ops (ops : list sec_op) : prog access security_state_t (list (option sec_result)) :=
  match ops with
  | [] => mret []
  | op :: ops => r ← exec_op op; rs ← exec_ops ops; mret (r :: rs)
  end.

(** One operation, abstractly. *)
Definition phase_op (now seed : Z) (op : sec_op) (p : phase) : option sec_reply * phase :=
  match op with
  | OpRequest level =>
      if level =? 1 then let '(r, p') := phase_request now seed p in (Some r, p')
      else (Some (Refused UDS_NRC_SUB_FUNCTION_NOT_SUPPORTED), p)
  | OpKey level key =>
      if level =? 1 then let '(r, p') := phase_key now key p in (Some r, p')
      else (Some (Refused UDS_NRC_SUB_FUNCTION_NOT_SUPPORTED), p)
  | OpRelock => (None, phase_relock p)
  end.

Definition op_reads (op : sec_op) (p : phase) (r : option sec_reply) : nat :=
  match op, r with
  | OpRequest level, _ => if level =? 1 then request_reads p else 0
  | OpKey _ _, Some r => key_reads r
  | _, _ => 0
  end.

Lemma op_reads_le op p r : (op_reads op p r <= 1)%nat.
Proof.
  destruct op as [level|level key|]; simpl; [| |lia].
  - destruct (level =? 1), p; simpl; lia.
  - destruct r as [[| | |[]]|]; simpl; lia.
Qed.

Definition op_draws (r : option sec_reply) : nat :=
  match r with Some r => request_draws r | None => 0 end.

(** Several, on a clock and an entropy source. *)
Fixpoint phase_ops (ops : list sec_op) (v : world phase) : list (option sec_reply) * world phase :=
  match ops with
  | [] => ([], v)
  | op :: ops =>
      let '(r, p) := phase_op (now_at v) (drawn_seed (draws v)) op (obj v) in
      let '(rs, v') := phase_ops ops (World p (op_reads op (obj v) r + readings v) (op_draws r + draws v)) in
      (r :: rs, v')
  end.

Lemma security_relock_refines w :
  security_wf (obj w) →
  ∃ w', security_relock w = Done ((), w') ∧
    phase_of (obj w') = phase_relock (phase_of (obj w)) ∧ security_wf (obj w') ∧
    readings w' = readings w ∧ draws w' = draws w.
Proof.
  intros Hwf. sec_destruct w. destruct Hwf as [Hl Hp Hf Hu Hpend Hlock Hopen]; simpl in *.
  eexists. split; [done|]. simpl. unfold phase_of; simpl.
  destruct Hl as [-> | ->]; simpl.
  - split.
    + destruct (Z.eqb_spec until 0); simpl; [by destruct issued|done].
    + split; [security_wf_solve|done].
  - destruct (Hopen eq_refl) as (-> & -> & ->). simpl.
    split; [done|]. split; [security_wf_solve|done].
Qed.

Lemma phase_key_draws now key p : request_draws (phase_key now key p).1 = 0%nat.
Proof. unfold phase_key. repeat (case_match; simpl); done. Qed.

(** Every operation implements its abstract step. *)
Lemma exec_op_refines op w :
  security_wf (obj w) →
  ∃ w' r,
    run (exec_op op) w = Done (reply_result <$> r, w') ∧
    phase_op (now_at w) (drawn_seed (draws w)) op (phase_of (obj w)) = (r, phase_of (obj w')) ∧
    security_wf (obj w') ∧
    readings w' = (op_reads op (phase_of (obj w)) r + readings w)%nat ∧
    draws w' = (op_draws r + draws w)%nat.
Proof.
  intros Hwf. destruct op as [level|level key|]; unfold exec_op.
  - rewrite run_bind. unfold security_request_seed, level_supported; cbn [is_null orb phase_op op_reads].
    destruct (Z.eqb_spec level 1) as [->|Hne]; cbn [negb].
    + rewrite run_crit.
      destruct (request_seed_refines w Hwf) as (w' & r & -> & Hp & Hwf' & Hr & Hd).
      exists w', (Some r). by rewrite Hp.
    + by exists w, (Some (Refused UDS_NRC_SUB_FUNCTION_NOT_SUPPORTED)).
  - rewrite run_bind. unfold security_send_key, level_supported; cbn [is_null orb phase_op op_reads].
    destruct (Z.eqb_spec level 1) as [->|Hne]; cbn [negb].
    + rewrite run_crit.
      destruct (send_key_refines w key Hwf) as (w' & r & -> & Hp & Hwf' & Hr & Hd).
      exists w', (Some r). rewrite Hp. split; [done|]. split; [done|].
      split; [done|]. split; [done|].
      pose proof (phase_key_draws (now_at w) key (phase_of (obj w))) as Hk.
      rewrite Hp in Hk. simpl in *. by rewrite Hk.
    + by exists w, (Some (Refused UDS_NRC_SUB_FUNCTION_NOT_SUPPORTED)).
  - rewrite run_bind, run_crit.
    destruct (security_relock_refines w Hwf) as (w' & -> & Hp & Hwf' & Hr & Hd).
    exists w', None. simpl. by rewrite Hp.
Qed.

Lemma exec_ops_cons op ops w w1 r :
  run (exec_op op) w = Done (r, w1) →
  run (exec_ops (op :: ops)) w =
    match run (exec_ops ops) w1 with
    | Done (rs, w2) => Done (r :: rs, w2)
    | Blocked => Blocked
    | Undefined => Undefined
    end.
Proof.
  intros Hop. simpl. rewrite run_bind, Hop. rewrite run_bind.
  by destruct (run (exec_ops ops) w1) as [[rs w2]| |].
Qed.

(** Readings never go back. *)
Lemma exec_ops_readings ops w rs w' :
  security_wf (obj w) → run (exec_ops ops) w = Done (rs, w') →
  (readings w <= readings w')%nat ∧ (draws w <= draws w')%nat ∧ security_wf (obj w').
Proof.
  revert w rs. induction ops as [|op ops IH]; intros w rs Hwf Hrun.
  - simpl in Hrun. simplify_eq. eauto.
  - destruct (exec_op_refines op w Hwf) as (w1 & r & Hop & _ & Hwf1 & Hr & Hd).
    rewrite (exec_ops_cons _ _ _ _ _ Hop) in Hrun.
    destruct (run (exec_ops ops) w1) as [[rs1 w2]| |] eqn:E1; simplify_eq.
    destruct (IH w1 rs1 Hwf1 E1) as (?&?&?). split; [lia|]. split; [lia|done].
Qed.

(** A reply that gives the client something: a seed or access. *)
Definition refused (r : option sec_result) : Prop :=
  match r with
  | Some res => sr_rc res = -1 ∧ sr_seed res = None
  | None => True
  end.

Lemma phase_op_lockout now seed op until r p' :
  now < until → phase_op now seed op (Lockout until) = (r, p') →
  p' = Lockout until ∧ refused (reply_result <$> r).
Proof.
  intros Hlt. destruct op as [level|level key|]; simpl.
  - dec. by destruct (level =? 1); intros [= <- <-].
  - by destruct (level =? 1); intros [= <- <-].
  - by intros [= <- <-].
Qed.

(** Wrong keys among the replies. *)
Definition wrong_key (r : option sec_result) : bool :=
  match r with
  | Some (SecResult _ _ (Some n)) =>
      bool_decide (n = UDS_NRC_INVALID_KEY) || bool_decide (n = UDS_NRC_EXCEEDED_NUMBER_OF_ATTEMPTS)
  | _ => false
  end.

Definition wrong_keys (rs : list (option sec_result)) : Z :=
  len (filter (λ r, wrong_key r = true) rs).

(** How many wrong keys a phase still allows in a window that ends before
    [stop]. *)
Definition budget (stop : Z) (p : phase) : Z :=
  match p with
  | Open => SECURITY_MAX_FAILS
  | Idle n | Challenge _ n => SECURITY_MAX_FAILS - n
  | Lockout until => if until <? stop then SECURITY_MAX_FAILS else 0
  end.

Lemma budget_range stop s : security_wf s → 0 <= budget stop (phase_of s) <= SECURITY_MAX_FAILS.
Proof.
  intros [Hl Hp Hf Hu Hpend Hlock Hopen]. unfold phase_of.
  destruct (_ >=? 1); simpl; [unfold SECURITY_MAX_FAILS; lia|].
  destruct (_ !=? 0); simpl.
  - destruct (_ <? stop); unfold SECURITY_MAX_FAILS; lia.
  - destruct (seed_issued s); simpl; lia.
Qed.

(** In a window shorter than the lock-out, a step without success spends
    one unit of budget per wrong key. *)
Lemma phase_op_budget now seed op p r p' stop :
  phase_op now seed op p = (r, p') →
  (op_reads op p r = 1%nat → now < stop <= now + SECURITY_LOCK_DURATION_MS) →
  (∀ sd n, p = Challenge sd n → n <= 2) →
  r ≠ Some KeyAccepted →
  budget stop p' + (if wrong_key (reply_result <$> r) then 1 else 0) <= budget stop p.
Proof.
  intros Hstep Hnow Hn Hacc.
  destruct op as [level|level key|]; simpl in *.
  - destruct (level =? 1); [|by simplify_eq; simpl; lia].
    destruct p as [n|sd n|until|]; simpl in *; simplify_eq; simpl; try lia.
    specialize (Hnow eq_refl). destruct (Z.ltb_spec now until) as [Hlt|Hge]; simplify_eq; simpl.
    + destruct (until <? stop); lia.
    + dec. lia.
  - destruct (level =? 1); [|by simplify_eq; simpl; lia].
    destruct p as [n|sd n|until|]; simpl in *; simplify_eq; simpl; try lia.
    specialize (Hn sd n eq_refl).
    destruct (key =? _); [by simplify_eq|].
    rewrite Z.geb_leb in Hstep.
    destruct (Z.leb_spec SECURITY_MAX_FAILS (n + 1)) as [Hle|Hgt]; simplify_eq; simpl.
    + simpl in Hnow. specialize (Hnow eq_refl). dec. unfold SECURITY_MAX_FAILS in *. lia.
    + lia.
  - simplify_eq. destruct p; simpl; try lia.
Qed.
End histories.

#[export] Instance demo_clock_bounded : ClockBounded demo_env.
Proof. intros n. rewrite demo_ms. unfold SECURITY_LOCK_DURATION_MS. lia. Qed.

(** * Properties *)

Section properties.
Context {E : Env} `{!ClockBounded E}.

(** C7: every history of requestSeed, sendKey and relock operations runs
    to completion, and its replies and final state, the clock readings and the
    draws are those of the four-phase specification on the same clock and
    entropy source. *)
Theorem security_refines ops w :
  security_wf (obj w) →
  ∃ rs w',
    run (exec_ops ops) w = Done (map (fmap (M:=option) reply_result) rs, w') ∧
    phase_ops ops (abs_world phase_of w) = (rs, abs_world phase_of w') ∧
    security_wf (obj w').
Proof.
  revert w. induction ops as [|op ops IH]; intros w Hwf; [by exists [], w|].
  destruct (exec_op_refines op w Hwf) as (w1 & r & Hop & Hp & Hwf1 & Hrd & Hdr).
  destruct (IH w1 Hwf1) as (rs & w2 & Hrun & Htr & Hwf2).
  exists (r :: rs), w2. rewrite (exec_ops_cons _ _ _ _ _ Hop), Hrun.
  split; [done|]. split; [|done]. cbn [phase_ops abs_world obj readings draws].
  change (now_at (abs_world phase_of w)) with (now_at w). rewrite Hp.
  unfold abs_world in Htr. by rewrite <- Hrd, <- Hdr, Htr.
Qed.

(** While a lock-out lasts, no sequence of operations yields a seed or
    unlocks: every requestSeed and sendKey is refused and the lock-out
    stays. *)
Lemma lockout_refuses ops w until :
  security_wf (obj w) → phase_of (obj w) = Lockout until →
  (∀ n, (readings w <= n < readings w + length ops)%nat →
        ms_of_timespec (clock_gettime n) < until) →
  ∃ rs w', run (exec_ops ops) w = Done (rs, w') ∧
    Forall refused rs ∧ phase_of (obj w') = Lockout until.
Proof.
  revert w. induction ops as [|op ops IH]; intros w Hwf Hph Htime.
  - exists [], w. split; [done|]. by split.
  - destruct (exec_op_refines op w Hwf) as (w1 & r & Hop & Hp & Hwf1 & Hr & _).
    rewrite Hph in Hp, Hr.
    destruct (phase_op_lockout _ _ _ _ _ _ (Htime (readings w) ltac:(simpl; lia)) Hp)
      as [Hph1 Href].
    pose proof (op_reads_le op (Lockout until) r) as Hle.
    destruct (IH w1 Hwf1 Hph1) as (rs & w2 & Hrun & Hrs & Hph2).
    { intros n Hn. apply Htime. simpl. lia. }
    exists ((reply_result <$> r) :: rs), w2.
    rewrite (exec_ops_cons _ _ _ _ _ Hop), Hrun. split; [done|]. split; [by constructor|done].
Qed.

Lemma wrong_keys_cons r rs :
  wrong_keys (r :: rs) = (if wrong_key r then 1 else 0) + wrong_keys rs.
Proof.
  unfold wrong_keys. rewrite filter_cons.
  destruct (wrong_key r); [rewrite decide_True by done|rewrite decide_False by done].
  - by rewrite len_cons.
  - lia.
Qed.

Lemma wrong_keys_budget ops w rs w' t :
  security_wf (obj w) → run (exec_ops ops) w = Done (rs, w') →
  (∀ n, (readings w <= n < readings w')%nat →
        t <= ms_of_timespec (clock_gettime n) < t + SECURITY_LOCK_DURATION_MS) →
  Forall (λ r, r ≠ Some (reply_result KeyAccepted)) rs →
  wrong_keys rs <= budget (t + SECURITY_LOCK_DURATION_MS) (phase_of (obj w)).
Proof.
  revert w rs. induction ops as [|op ops IH]; intros w rs Hwf Hrun Htime Hacc.
  - simpl in Hrun. simplify_eq. apply budget_range. done.
  - destruct (exec_op_refines op w Hwf) as (w1 & r & Hop & Hp & Hwf1 & Hr & _).
    rewrite (exec_ops_cons _ _ _ _ _ Hop) in Hrun.
    destruct (run (exec_ops ops) w1) as [[rs1 w2]| |] eqn:E1; simplify_eq.
    destruct (exec_ops_readings _ _ _ _ Hwf1 E1) as [Hle _].
    apply Forall_cons in Hacc as [Hacc Haccs].
    specialize (IH w1 rs1 Hwf1 E1 ltac:(intros n Hn; apply Htime; lia) Haccs).
    assert (Hb := phase_op_budget _ _ _ _ _ _ (t + SECURITY_LOCK_DURATION_MS) Hp).
    rewrite wrong_keys_cons.
    assert (wrong_key (reply_result <$> r) = true ∨ wrong_key (reply_result <$> r) = false) as Hwk
      by (destruct (wrong_key _); auto).
    enough (budget (t + SECURITY_LOCK_DURATION_MS) (phase_of (obj w1)) +
            (if wrong_key (reply_result <$> r) then 1 else 0)
            <= budget (t + SECURITY_LOCK_DURATION_MS) (phase_of (obj w))) by lia.
    apply Hb.
    + intros H1. specialize (Htime (readings w) ltac:(lia)). fold (now_at w) in Htime. lia.
    + intros sd n Hph. by destruct (phase_challenge_inv _ _ _ Hwf Hph) as (_ & _ & ?).
    + intros ->. by apply Hacc.
Qed.

(** C23: without an ECUReset, which clears the count, a client that never
    sends a right key gets at most three keys evaluated within any window as
    long as the lock-out, whatever seeds it requests and keys it sends and
    however often the S3 timer locks security back. *)
Theorem wrong_keys_at_most_three ops w rs w' t :
  security_wf (obj w) → run (exec_ops ops) w = Done (rs, w') →
  (∀ n, (readings w <= n < readings w')%nat →
        t <= ms_of_timespec (clock_gettime n) < t + SECURITY_LOCK_DURATION_MS) →
  Forall (λ r, r ≠ Some (reply_result KeyAccepted)) rs →
  wrong_keys rs <= SECURITY_MAX_FAILS.
Proof.
  intros Hwf Hrun Htime Hacc. etrans; [by eapply wrong_keys_budget|].
  by apply budget_range.
Qed.

Lemma phase_op_open now seed op p r :
  phase_op now seed op p = (r, Open) → p ≠ Open →
  ∃ sd n, p = Challenge sd n ∧ op = OpKey 1 (Z.lxor sd SECURITY_KEY_CONSTANT).
Proof.
  intros Hs Hp. destruct op as [level|level key|]; simpl in *.
  - unfold phase_request in Hs. by repeat (case_match; simplify_eq).
  - destruct (Z.eqb_spec level 1) as [->|]; [|by simplify_eq].
    destruct p as [|sd n| |]; simpl in *; simplify_eq.
    destruct (Z.eqb_spec key (Z.lxor sd SECURITY_KEY_CONSTANT)) as [->|].
    + eauto.
    + by repeat (case_match; simplify_eq).
  - by destruct p; simplify_eq.
Qed.

Lemma phase_op_challenge now seed op p r sd n :
  phase_op now seed op p = (r, Challenge sd n) →
  (∃ m, p = Challenge sd m) ∨ (sd = seed ∧ r = Some (SeedIs seed)).
Proof.
  intros Hs. destruct op as [level|level key|]; simpl in *.
  - unfold phase_request in Hs. repeat (case_match; simplify_eq); eauto.
  - unfold phase_key in Hs. repeat (case_match; simplify_eq); eauto.
  - destruct p; simplify_eq; eauto.
Qed.

(** C22: security opens only by a sendKey whose key answers a seed that
    the entropy source produced and a requestSeed of the same history
    returned. *)
Theorem unlock_needs_key ops w rs w' :
  security_wf (obj w) → run (exec_ops ops) w = Done (rs, w') →
  phase_of (obj w') = Open → phase_of (obj w) ≠ Open →
  (∀ sd n, phase_of (obj w) ≠ Challenge sd n) →
  ∃ n, (draws w <= n < draws w')%nat ∧
    Some (reply_result (SeedIs (drawn_seed n))) ∈ rs ∧
    OpKey 1 (Z.lxor (drawn_seed n) SECURITY_KEY_CONSTANT) ∈ ops.
Proof.
  intros Hwf Hrun Hopen Hno Hnc.
  enough ((∃ sd n, phase_of (obj w) = Challenge sd n ∧
                   OpKey 1 (Z.lxor sd SECURITY_KEY_CONSTANT) ∈ ops) ∨
          (∃ n, (draws w <= n < draws w')%nat ∧
            Some (reply_result (SeedIs (drawn_seed n))) ∈ rs ∧
            OpKey 1 (Z.lxor (drawn_seed n) SECURITY_KEY_CONSTANT) ∈ ops)) as [(?&?&?&?)|?];
    [naive_solver|done|].
  clear Hnc. revert w rs Hwf Hrun Hno. induction ops as [|op ops IH]; intros w rs Hwf Hrun Hno.
  - simpl in Hrun. by simplify_eq.
  - destruct (exec_op_refines op w Hwf) as (w1 & r & Hop & Hp & Hwf1 & _ & Hd).
    rewrite (exec_ops_cons _ _ _ _ _ Hop) in Hrun.
    destruct (run (exec_ops ops) w1) as [[rs1 w2]| |] eqn:E1; simplify_eq.
    destruct (exec_ops_readings _ _ _ _ Hwf1 E1) as (_ & Hdle & _).
    destruct (decide (phase_of (obj w1) = Open)) as [Ho|Ho].
    + rewrite Ho in Hp. destruct (phase_op_open _ _ _ _ _ Hp Hno) as (sd & n & -> & ->).
      left. exists sd, n. split; [done|]. left.
    + destruct (IH w1 rs1 Hwf1 E1 Ho) as [(sd & n & Hc & Hin)|(n & Hn & Hrs & Hin)].
      * rewrite Hc in Hp. destruct (phase_op_challenge _ _ _ _ _ _ _ Hp) as [[m Hm]|[-> ->]].
        -- left. exists sd, m. split; [done|]. by right.
        -- right. exists (draws w). simpl in Hd. split; [lia|].
           split; [left|by right].
      * right. exists n. split; [lia|]. split; by right.
Qed.

(** The time-delay refusal inside sendKey (lines 93-98 of security.c)
    is unreachable: an outstanding seed excludes a lock-out. *)
Lemma send_key_never_delayed level key w r w' :
  security_wf (obj w) →
  run (security_send_key PTR level key PTR) w = Done (r, w') →
  sr_nrc r ≠ Some UDS_NRC_REQUIRED_TIME_DELAY_NOT_EXPIRED.
Proof.
  intros Hwf Hrun. unfold security_send_key, level_supported in Hrun.
  cbn [is_null orb] in Hrun. destruct (Z.eqb_spec level 1) as [->|].
  - cbn [negb] in Hrun. rewrite run_crit in Hrun.
    destruct (send_key_refines w key Hwf) as (w1 & rep & Hs & Hp & _).
    rewrite Hs in Hrun. simplify_eq.
    destruct (phase_of (obj w)); simpl in Hp; simplify_eq; try done.
    repeat (case_match; simplify_eq); done.
  - simpl in Hrun. by simplify_eq.
Qed.

(** The seed/key handshake: from any state that is not locked out, a
    requestSeed followed by the key of its seed unlocks level 1. *)
Lemma security_handshake w :
  security_wf (obj w) → (∀ u, phase_of (obj w) ≠ Lockout u) →
  ∃ seed w1 w2,
    run (security_request_seed PTR 1 PTR PTR) w
      = Done (SecResult (if decide (phase_of (obj w) = Open) then 1 else 0) (Some seed) None, w1) ∧
    (phase_of (obj w) ≠ Open →
      seed ≠ 0 ∧
      run (security_send_key PTR 1 (Z.lxor seed SECURITY_KEY_CONSTANT) PTR) w1
        = Done (SecResult 0 None None, w2)) ∧
    (phase_of (obj w) = Open → seed = 0 ∧ w2 = w1) ∧
    run (security_is_unlocked PTR 1) w2 = Done (true, w2).
Proof.
  intros Hwf Hnl.
  destruct (request_seed_refines w Hwf) as (w1 & r & Hs & Hp & Hwf1 & _).
  assert (Hopen : ∀ w : world security_state_t, phase_of (obj w) = Open →
            run (security_is_unlocked PTR 1) w = Done (true, w)).
  { intros w0. unfold phase_of. simpl. unfold gets. by repeat case_match. }
  destruct (decide (phase_of (obj w) = Open)) as [Ho|Hno].
  - rewrite Ho in Hp. simpl in Hp. simplify_eq.
    exists 0, w1, w1. unfold security_request_seed; simpl. rewrite Hs. simpl.
    split; [done|]. split; [done|]. split; [done|]. apply Hopen. congruence.
  - assert (∃ n, r = SeedIs (drawn_seed (draws w)) ∧
                 phase_of (obj w1) = Challenge (drawn_seed (draws w)) n) as (n & -> & Hc).
    { destruct (phase_of (obj w)); simpl in Hp; simplify_eq; eauto. by destruct (Hnl until). }
    destruct (send_key_refines w1 (Z.lxor (drawn_seed (draws w)) SECURITY_KEY_CONSTANT) Hwf1)
      as (w2 & r & Hk & Hp2 & _).
    rewrite Hc in Hp2. simpl in Hp2. rewrite Z.eqb_refl in Hp2. simplify_eq.
    exists (drawn_seed (draws w)), w1, w2.
    unfold security_request_seed, security_send_key; simpl. rewrite Hs, Hk. simpl.
    split; [done|]. split; [intros _; split; [pose proof (drawn_seed_range (draws w)); lia|done]|].
    split; [done|]. by apply Hopen.
Qed.
End properties.

(** * The properties at concrete inputs

    A clock of one second per reading and the seed 0x12345678. *)

Definition demo_security : world security_state_t := World security_init 0 0.

(** Three wrong keys, at 0 s. *)
Definition demo_attack : list sec_op :=
  [OpRequest 1; OpKey 1 0; OpRequest 1; OpKey 1 0; OpRelock; OpRequest 1; OpKey 1 0; OpRequest 1].

Lemma security_refines_witness :
  ∃ rs w', run (exec_ops (E:=demo_env) demo_attack) demo_security
             = Done (map (fmap (M:=option) reply_result) rs, w') ∧
    phase_ops (E:=demo_env) demo_attack (World (Idle 0) 0 0) = (rs, World (Lockout 10000) 2 3) ∧
    phase_of (obj w') = Lockout 10000.
Proof.
  destruct (security_refines (E:=demo_env) demo_attack demo_security security_init_wf) as (rs & w' & Hr & Hp & _).
  exists rs, w'. split; [exact Hr|].
  assert (Hl : abs_world phase_of w' = World (Lockout 10000) 2 3).
  { rewrite <- (f_equal snd Hp : _ = abs_world phase_of w'). by vm_compute. }
  rewrite Hl in Hp. split; [exact Hp|exact (f_equal obj Hl)].
Defined.

Lemma wrong_keys_at_most_three_witness :
  match run (exec_ops (E:=demo_env) demo_attack) demo_security with
  | Done (rs, _) => wrong_keys rs = 3 ∧ wrong_keys rs <= SECURITY_MAX_FAILS
  | _ => False
  end.
Proof.
  destruct (run (exec_ops (E:=demo_env) demo_attack) demo_security) as [[rs w']| |] eqn:Hrun;
    [|by vm_compute in Hrun..].
  assert (Hw : w' = World (SecurityState 0 0x12345678 false 3 10000) 2 3)
    by (vm_compute in Hrun; by simplify_eq).
  split; [vm_compute in Hrun; by simplify_eq|].
  eapply (wrong_keys_at_most_three (E:=demo_env) demo_attack demo_security rs w' 0 security_init_wf Hrun).
  - intros n Hn. subst w'. simpl in Hn. rewrite demo_ms. unfold SECURITY_LOCK_DURATION_MS. lia.
  - vm_compute in Hrun. simplify_eq. by repeat constructor.
Defined.

Lemma unlock_needs_key_witness :
  ∃ n, (0 <= n < 1)%nat ∧
    OpKey 1 (Z.lxor (@drawn_seed demo_env n) SECURITY_KEY_CONSTANT)
      ∈ [OpRequest 1; OpKey 1 (Z.lxor 0x12345678 SECURITY_KEY_CONSTANT)].
Proof.
  destruct (run (exec_ops (E:=demo_env) [OpRequest 1; OpKey 1 (Z.lxor 0x12345678 SECURITY_KEY_CONSTANT)])
              demo_security) as [[rs w']| |] eqn:Hrun; [|by vm_compute in Hrun..].
  assert (Hd : draws w' = 1%nat ∧ phase_of (obj w') = Open)
    by (vm_compute in Hrun; by simplify_eq).
  destruct (unlock_needs_key (E:=demo_env) _ demo_security rs w' security_init_wf Hrun) as (n & Hn & _ & Hin);
    [apply Hd|done..|].
  exists n. destruct Hd as [Hd _]. rewrite Hd in Hn. by split.
Defined.
