(* ===== verification/AppEngine.v ===== *)
(** [src/app_engine.c] and [include/app_engine.h]: the simulated engine
    whose rpm, speed and coolant values the DIDs 010C, 010D and 0105 read.

    [double] values are rationals.  The rounding of each floating-point
    operation and the [sin] of the C library are the operations of the class
    [Double]; the proofs use only the laws of [DoubleLaws]: rounding is
    monotone and leaves small integers alone, and [sin] stays within -1..1. *)

From S2P Require Import Prelude Effects.
From Stdlib Require Import QArith Qround Qabs.
Open Scope Z_scope.

Class Double := {
  rnd : Q → Q;     (* the [double] nearest to a real *)
  c_sin : Q → Q    (* [sin] of <math.h> *)
}.

Class DoubleLaws (D : Double) : Prop := {
  rnd_mono : ∀ x y, (x <= y)%Q → (rnd x <= rnd y)%Q;
  rnd_int : ∀ z, Z.abs z <= 2 ^ 53 → (rnd (inject_Z z) == inject_Z z)%Q;
  sin_bound : ∀ x, (-1 <= c_sin x)%Q ∧ (c_sin x <= 1)%Q
}.

(** Conversion of a [double] to an integer type discards the fraction. *)
Definition Qtrunc (q : Q) : Z := Z.quot (Qnum q) (Zpos (Qden q)).

(** [(uintN_t)x]: undefined when the integral part does not fit. *)
Definition to_uint (max : Z) (q : Q) : outcome Z :=
  let z := Qtrunc q in
  if (0 <=? z) && (z <=? max) then Done z else Undefined.

Record app_engine_t := AppEngine {
  rpm : Z;         (* uint16_t *)
  speed_kmh : Z;   (* uint8_t *)
  coolant_c : Z;   (* uint8_t *)
  tick : Z         (* uint32_t *)
}.

#[export] Instance app_engine_eq_dec : EqDecision app_engine_t.
Proof. solve_decision. Defined.

(** [memset], then idle rpm in quarter units, standstill, 60 degrees. *)
Definition app_engine_init : app_engine_t := AppEngine (800 * 4) 0 60 0.

(** What a read callback hands back: return code, the caller's buffer, and
    the length written through [out_len]. *)
Record read_result := ReadResult {
  rr_rc : Z;
  rr_out : option bytes;
  rr_len : option Z
}.

Section operations.
Context {E : Env} {D : Double}.

(** Lines 41-47: rpm and speed as functions of the tick counter. *)
Definition tick_seconds (tick : Z) : Q := rnd (inject_Z tick * rnd (1 # 10)).

Definition tick_rpm (tick : Z) : Q :=
  let t := tick_seconds tick in
  rnd (inject_Z 1500 + rnd (inject_Z 700 * c_sin (rnd (t * rnd (3 # 10))))).

Definition tick_speed (tick : Z) : Q :=
  let t := tick_seconds tick in
  rnd (inject_Z 60 + rnd (inject_Z 50 * c_sin (rnd (t * rnd (15 # 100))))).

(** [speed < 0 ? 0 : (speed > 255 ? 255 : speed)] *)
Definition clamp_speed (speed : Q) : Q :=
  if negb (Qle_bool 0 speed) then 0%Q
  else if negb (Qle_bool speed (inject_Z 255)) then inject_Z 255
  else speed.

(** The locked region of [app_engine_tick]. *)
Definition tick_step (a : app_engine_t) : outcome app_engine_t :=
  let tick' := u32 (tick a + 1) in
  rpm' ← to_uint 65535 (rnd (tick_rpm tick' * inject_Z 4));
  speed' ← to_uint 255 (clamp_speed (tick_speed tick'));
  let coolant' :=
    if coolant_c a <? 92 then
      if tick' mod 30 =? 0 then u8 (coolant_c a + 1) else coolant_c a
    else coolant_c a in
  Done (AppEngine rpm' speed' coolant' tick').

Definition app_engine_tick (a : ptr) : prog access app_engine_t () :=
  if is_null a then mret () else crit Locked (modify_out tick_step).

(** The read callbacks; [g_app] is the module's back-reference. *)
Definition app_read_rpm (g_app : ptr) (out : option bytes) (cap : Z) (out_len : ptr)
  : prog access app_engine_t read_result :=
  match g_app, out, out_len with
  | PTR, Some buf, PTR =>
      if cap <? 2 then mret (ReadResult (-1) out None) else
      rpm ← crit Locked (gets rpm);
      buf ← local (st buf 0 (u8 (Z.shiftr rpm 8)));
      buf ← local (st buf 1 (u8 (Z.land rpm 0xFF)));
      mret (ReadResult 0 (Some buf) (Some 2))
  | _, _, _ => mret (ReadResult (-1) out None)
  end.

Definition app_read_speed (g_app : ptr) (out : option bytes) (cap : Z) (out_len : ptr)
  : prog access app_engine_t read_result :=
  match g_app, out, out_len with
  | PTR, Some buf, PTR =>
      if cap <? 1 then mret (ReadResult (-1) out None) else
      speed ← crit Locked (gets speed_kmh);
      buf ← local (st buf 0 speed);
      mret (ReadResult 0 (Some buf) (Some 1))
  | _, _, _ => mret (ReadResult (-1) out None)
  end.

(** Lines 80-83: the clamped OBD encoding. *)
Definition encode_coolant (coolant : Z) : Z :=
  let enc := coolant + 40 in
  let enc := if enc <? 0 then 0 else enc in
  let enc := if enc >? 255 then 255 else enc in
  u8 enc.

Definition app_read_coolant (g_app : ptr) (out : option bytes) (cap : Z) (out_len : ptr)
  : prog access app_engine_t read_result :=
  match g_app, out, out_len with
  | PTR, Some buf, PTR =>
      if cap <? 1 then mret (ReadResult (-1) out None) else
      enc ← crit Locked (gets (λ a, encode_coolant (coolant_c a)));
      buf ← local (st buf 0 enc);
      mret (ReadResult 0 (Some buf) (Some 1))
  | _, _, _ => mret (ReadResult (-1) out None)
  end.
End operations.

(** * Invariant *)

(** The value ranges the README promises: 800..2200 rpm in quarter units,
    10..110 km/h, once the engine has ticked (at start-up it stands still),
    coolant 60..92. *)
Record app_engine_wf (a : app_engine_t) : Prop := {
  awf_rpm : 800 * 4 <= rpm a <= 2200 * 4;
  awf_speed : speed_kmh a = 0 ∨ 10 <= speed_kmh a <= 110;
  awf_coolant : 60 <= coolant_c a <= 92;
  awf_tick : 0 <= tick a < 2 ^ 32
}.

Lemma app_engine_init_wf : app_engine_wf app_engine_init.
Proof. split; simpl; lia. Qed.

(** * Rounded arithmetic stays within integer bounds *)

Lemma Qtrunc_bounds q lo hi :
  0 <= lo → (inject_Z lo <= q)%Q → (q <= inject_Z hi)%Q → lo <= Qtrunc q <= hi.
Proof.
  intros Hlo H1 H2. unfold Qtrunc, Qle, inject_Z in *. simpl in *.
  rewrite Z.mul_1_r in *.
  rewrite Z.quot_div_nonneg by nia.
  split.
  - apply Z.div_le_lower_bound; lia.
  - apply Z.div_le_upper_bound; lia.
Qed.

Lemma to_uint_bounds max q lo hi :
  0 <= lo → hi <= max → (inject_Z lo <= q)%Q → (q <= inject_Z hi)%Q →
  to_uint max q = Done (Qtrunc q) ∧ lo <= Qtrunc q <= hi.
Proof.
  intros Hlo Hhi H1 H2. pose proof (Qtrunc_bounds q lo hi Hlo H1 H2).
  unfold to_uint. dec. done.
Qed.

Section bounds.
Context {E : Env} {D : Double} `{!DoubleLaws D}.

Lemma rnd_between x lo hi :
  Z.abs lo <= 2 ^ 53 → Z.abs hi <= 2 ^ 53 →
  (inject_Z lo <= x)%Q → (x <= inject_Z hi)%Q →
  (inject_Z lo <= rnd x)%Q ∧ (rnd x <= inject_Z hi)%Q.
Proof.
  intros Hlo Hhi H1 H2. split.
  - rewrite <- (rnd_int lo) by done. by apply rnd_mono.
  - rewrite <- (rnd_int hi) by done. by apply rnd_mono.
Qed.

(** [c + k * sin(..)] lies in [c - k .. c + k], rounding included. *)
Lemma sinusoid_bounds c k x :
  0 <= k → Z.abs c + k <= 2 ^ 53 →
  let y := rnd (inject_Z c + rnd (inject_Z k * c_sin x)) in
  (inject_Z (c - k) <= y)%Q ∧ (y <= inject_Z (c + k))%Q.
Proof.
  intros Hk Hc y. destruct (sin_bound x) as [Hs1 Hs2].
  assert (Hq : (0 <= inject_Z k)%Q) by (unfold Qle; simpl; lia).
  destruct (rnd_between (inject_Z k * c_sin x) (- k) k) as [Hm1 Hm2]; [lia|lia| | |].
  - rewrite inject_Z_opp. assert (He : (- inject_Z k == (-1) * inject_Z k)%Q) by ring.
    rewrite He, (Qmult_comm (inject_Z k)). by apply Qmult_le_compat_r.
  - assert (He : (inject_Z k == 1 * inject_Z k)%Q) by ring.
    rewrite He at 2. rewrite (Qmult_comm (inject_Z k)). by apply Qmult_le_compat_r.
  - apply rnd_between; [lia|lia| |].
    + replace (c - k) with (c + - k) by lia. rewrite inject_Z_plus.
      by apply Qplus_le_compat; [apply Qle_refl|].
    + rewrite inject_Z_plus. by apply Qplus_le_compat; [apply Qle_refl|].
Qed.

Lemma tick_rpm_bounds n :
  ∃ r, to_uint 65535 (rnd (tick_rpm n * inject_Z 4)) = Done r ∧ 3200 <= r <= 8800.
Proof.
  destruct (sinusoid_bounds 1500 700 (rnd (tick_seconds n * rnd (3 # 10)))) as [H1 H2];
    [lia|lia|].
  fold (tick_rpm n) in H1, H2.
  destruct (rnd_between (tick_rpm n * inject_Z 4) 3200 8800) as [H3 H4]; [lia|lia| | |].
  - change 3200 with (800 * 4). rewrite inject_Z_mult. by apply Qmult_le_compat_r.
  - change 8800 with (2200 * 4). rewrite inject_Z_mult. by apply Qmult_le_compat_r.
  - eexists. eapply to_uint_bounds; done.
Qed.

Lemma tick_speed_bounds n :
  ∃ s, to_uint 255 (clamp_speed (tick_speed n)) = Done s ∧ 10 <= s <= 110.
Proof.
  destruct (sinusoid_bounds 60 50 (rnd (tick_seconds n * rnd (15 # 100)))) as [H1 H2];
    [lia|lia|].
  fold (tick_speed n) in H1, H2. unfold clamp_speed.
  rewrite (proj2 (Qle_bool_iff 0 _)) by (eapply Qle_trans; [|exact H1]; done). simpl.
  rewrite (proj2 (Qle_bool_iff _ (inject_Z 255))) by (eapply Qle_trans; [exact H2|]; done). simpl.
  eexists. eapply to_uint_bounds; done.
Qed.

(** One tick is defined, keeps the ranges, and moves the coolant as coded. *)
Lemma tick_step_spec a :
  app_engine_wf a →
  ∃ a', tick_step a = Done a' ∧ app_engine_wf a' ∧
    tick a' = u32 (tick a + 1) ∧ 10 <= speed_kmh a' ∧
    coolant_c a' = (if (coolant_c a <? 92) && (u32 (tick a + 1) mod 30 =? 0)
                    then coolant_c a + 1 else coolant_c a).
Proof.
  intros [Hr Hs Hc Ht]. unfold tick_step.
  destruct (tick_rpm_bounds (u32 (tick a + 1))) as (r & -> & Hr').
  destruct (tick_speed_bounds (u32 (tick a + 1))) as (s & Hs1 & Hs').
  unfold mbind, outcome_bind. rewrite Hs1.
  eexists. split; [done|]. pose proof (u32_range (tick a + 1)) as Hu.
  destruct (Z.ltb_spec (coolant_c a) 92) as [Hlt|Hge].
  - rewrite (u8_id (coolant_c a + 1)) by (unfold is_byte; lia).
    destruct (u32 (tick a + 1) mod 30 =? 0); (split; [split; simpl; lia|]);
      simpl; (split; [done|]); (split; [lia|done]).
  - split; [split; simpl; lia|]. simpl. split; [done|]. split; [lia|done].
Qed.

Fixpoint ticks (n : nat) (a : app_engine_t) : outcome app_engine_t :=
  match n with
  | O => Done a
  | S n => a ← ticks n a; tick_step a
  end.

Lemma ticks_coolant_at n :
  ∃ a, ticks n app_engine_init = Done a ∧ app_engine_wf a ∧
    tick a = Z.of_nat n mod 2 ^ 32 ∧
    coolant_c a = Z.min 92 (60 + Z.of_nat n / 30).
Proof.
  induction n as [|n IH].
  - eexists. split; [done|]. split; [apply app_engine_init_wf|done].
  - destruct IH as (a & Ha & Hwf & Ht & Hc). cbn [ticks]. rewrite Ha.
    destruct (tick_step_spec a Hwf) as (a' & Hs & Hwf' & Ht' & _ & Hc').
    exists a'. split; [exact Hs|]. split; [done|]. rewrite Ht', Hc'. unfold u32. rewrite Ht.
    rewrite Z.add_mod_idemp_l by lia.
    replace (Z.of_nat n + 1) with (Z.of_nat (S n)) by lia. split; [done|].
    rewrite Hc. destruct (Z.ltb_spec (Z.min 92 (60 + Z.of_nat n / 30)) 92) as [Hlt|Hge]; simpl.
    + assert (Hn : Z.of_nat n / 30 < 32) by lia.
      assert (Z.of_nat n < 960) by (apply Z.lt_nge; intros ?; apply (Z.lt_irrefl 32);
        eapply Z.le_lt_trans; [|exact Hn]; apply Z.div_le_lower_bound; lia).
      rewrite (Z.mod_small (Z.of_nat (S n))) by lia.
      pose proof (Z.div_mod (Z.of_nat n) 30). pose proof (Z.div_mod (Z.of_nat (S n)) 30).
      pose proof (Z.mod_pos_bound (Z.of_nat n) 30).
      pose proof (Z.mod_pos_bound (Z.of_nat (S n)) 30).
      destruct (Z.eqb_spec (Z.of_nat (S n) mod 30) 0); lia.
    + assert (32 <= Z.of_nat (S n) / 30).
      { etrans; [|apply (Z.div_le_mono (Z.of_nat n))]; lia. }
      lia.
Qed.

Lemma app_engine_tick_safe : safe never app_engine_wf (app_engine_tick PTR) (λ _, True).
Proof.
  intros [a rd dr] Hwf. simpl in *. unfold modify_out. simpl.
  by destruct (tick_step_spec a Hwf) as (a' & -> & Hwf' & _).
Qed.
End bounds.

(** * What the callbacks deliver *)

(** The bytes of a read, and success: [payload] is at the start of the
    buffer and its length is reported. *)
Definition delivers (buf payload : bytes) (r : read_result) : Prop :=
  rr_rc r = 0 ∧ rr_len r = Some (len payload) ∧
  ∃ rest, rr_out r = Some (payload ++ rest) ∧ len (payload ++ rest) = len buf.

Definition rpm_payload (a : app_engine_t) : bytes := [u8 (Z.shiftr (rpm a) 8); u8 (Z.land (rpm a) 0xFF)].
Definition speed_payload (a : app_engine_t) : bytes := [speed_kmh a].
Definition coolant_payload (a : app_engine_t) : bytes := [coolant_c a + 40].

Lemma encode_coolant_wf a : app_engine_wf a → encode_coolant (coolant_c a) = coolant_c a + 40.
Proof.
  intros [_ _ Hc _]. unfold encode_coolant. rewrite Z.gtb_ltb. dec.
  apply u8_id. unfold is_byte. lia.
Qed.

Section callbacks.
Context {E : Env}.

Lemma app_read_rpm_run w buf cap :
  2 <= cap → cap <= len buf →
  ∃ r, run (app_read_rpm PTR (Some buf) cap PTR) w = Done (r, w) ∧
       delivers buf (rpm_payload (obj w)) r.
Proof.
  intros Hc Hb. assert (H2 : 2 <= len buf) by lia. uncons buf. uncons tl.
  unfold app_read_rpm. dec. simpl. eexists. split; [done|].
  split; [done|]. split; [done|]. by exists tl0.
Qed.

Lemma app_read_speed_run w buf cap :
  1 <= cap → cap <= len buf →
  ∃ r, run (app_read_speed PTR (Some buf) cap PTR) w = Done (r, w) ∧
       delivers buf (speed_payload (obj w)) r.
Proof.
  intros Hc Hb. assert (H1 : 1 <= len buf) by lia. uncons buf.
  unfold app_read_speed. dec. simpl. eexists. split; [done|].
  split; [done|]. split; [done|]. by exists tl.
Qed.

Lemma app_read_coolant_run w buf cap :
  app_engine_wf (obj w) → 1 <= cap → cap <= len buf →
  ∃ r, run (app_read_coolant PTR (Some buf) cap PTR) w = Done (r, w) ∧
       delivers buf (coolant_payload (obj w)) r.
Proof.
  intros Hwf Hc Hb. assert (H1 : 1 <= len buf) by lia. uncons buf.
  unfold app_read_coolant. dec. simpl. rewrite encode_coolant_wf by done.
  eexists. split; [done|]. split; [done|]. split; [done|]. by exists tl.
Qed.

(** Safety under interference, with any successful or failed outcome. *)
Definition read_ok (buf : bytes) (r : read_result) : Prop :=
  (rr_rc r = 0 ∧ ∃ payload, delivers buf payload r ∧ Forall is_byte payload).

Lemma app_read_rpm_safe buf cap :
  2 <= cap → cap <= len buf →
  safe never app_engine_wf (app_read_rpm PTR (Some buf) cap PTR) (read_ok buf).
Proof.
  intros Hc Hb. assert (H2 : 2 <= len buf) by lia. uncons buf. uncons tl.
  unfold app_read_rpm. dec. intros [a rd dr] Hwf. simpl in *. split; [done|].
  split; [done|]. exists (rpm_payload a). split; [|repeat constructor; apply u8_range].
  split; [done|]. split; [done|]. by exists tl0.
Qed.

Lemma app_read_speed_safe buf cap :
  1 <= cap → cap <= len buf →
  safe never app_engine_wf (app_read_speed PTR (Some buf) cap PTR) (read_ok buf).
Proof.
  intros Hc Hb. assert (H1 : 1 <= len buf) by lia. uncons buf.
  unfold app_read_speed. dec. intros [a rd dr] Hwf. simpl in *. split; [done|].
  split; [done|]. exists (speed_payload a).
  split; [|repeat constructor; destruct Hwf; simpl in *; lia].
  split; [done|]. split; [done|]. by exists tl.
Qed.

Lemma app_read_coolant_safe buf cap :
  1 <= cap → cap <= len buf →
  safe never app_engine_wf (app_read_coolant PTR (Some buf) cap PTR) (read_ok buf).
Proof.
  intros Hc Hb. assert (H1 : 1 <= len buf) by lia. uncons buf.
  unfold app_read_coolant. dec. intros [a rd dr] Hwf. simpl in *. split; [done|].
  rewrite (encode_coolant_wf a) by done. split; [done|]. exists (coolant_payload a).
  split; [|repeat constructor; destruct Hwf; simpl in *; lia].
  split; [done|]. split; [done|]. by exists tl.
Qed.
End callbacks.

(** * A concrete floating-point environment

    Rounding down to multiples of 2^-40 and a clamped identity in place of
    [sin]: enough structure to evaluate the engine, and all the laws hold. *)
Definition demo_double : Double := {|
  rnd q := (inject_Z (Qfloor (q * inject_Z (2 ^ 40))) * (1 # 1099511627776))%Q;
  c_sin x := if Qle_bool x (-1) then (-1)%Q else if Qle_bool 1 x then 1%Q else x
|}.

#[export] Instance demo_double_laws : DoubleLaws demo_double.
Proof.
  split.
  - intros x y Hxy. cbn [rnd demo_double]. apply Qmult_le_compat_r; [|done].
    rewrite <- Zle_Qle. apply Qfloor_resp_le. by apply Qmult_le_compat_r.
  - intros z _. cbn [rnd demo_double]. rewrite <- inject_Z_mult, Qfloor_Z, inject_Z_mult.
    rewrite <- Qmult_assoc.
    assert (H : (inject_Z (2 ^ 40) * (1 # 1099511627776) == 1)%Q) by done.
    rewrite H. ring.
  - intros x. cbn [c_sin demo_double]. destruct (Qle_bool x (-1)) eqn:H1; [by split|].
    destruct (Qle_bool 1 x) eqn:H2; [by split|].
    split; apply Qlt_le_weak, Qnot_le_lt; rewrite <- Qle_bool_iff; congruence.
Qed.

(** * Properties *)

Section properties.
Context {E : Env} {D : Double} `{!DoubleLaws D}.

(** C31: any number of engine ticks is free of undefined float-to-integer
    conversions, and rpm (quarter units), speed and coolant stay in the
    ranges the README gives: 800..2200 rpm, 60..92 degrees, and 10..110 km/h
    from the first tick on; until then the speed is 0. *)
Theorem engine_in_range n :
  ∃ a, ticks n app_engine_init = Done a ∧
    800 * 4 <= rpm a <= 2200 * 4 ∧ 60 <= coolant_c a <= 92 ∧
    match n with O => speed_kmh a = 0 | S _ => 10 <= speed_kmh a <= 110 end.
Proof.
  destruct n as [|n]; [by exists app_engine_init|].
  destruct (ticks_coolant_at n) as (a & Ha & Hwf & _). destruct (tick_step_spec a Hwf) as (a' & Hs & [] & _ & H10 & _).
  exists a'. cbn [ticks]. rewrite Ha. split; [exact Hs|]. split; [done|]. split; [done|]. lia.
Qed.

(** C32: after [n] ticks the coolant is 60 plus one degree per 30 ticks,
    capped at 92: it is reached at tick 960 (96 s at 10 Hz) and never
    left, across the wrap of the tick counter too. *)
Theorem coolant_closed_form n :
  ∃ a, ticks n app_engine_init = Done a ∧
    coolant_c a = Z.min 92 (60 + Z.of_nat n / 30) ∧
    (coolant_c a = 92 ↔ 960 <= Z.of_nat n).
Proof.
  destruct (ticks_coolant_at n) as (a & Ha & _ & _ & Hc). exists a.
  split; [done|]. split; [done|]. rewrite Hc. split; intros H.
  - assert (32 <= Z.of_nat n / 30) by lia.
    pose proof (Z.mul_div_le (Z.of_nat n) 30). lia.
  - assert (32 <= Z.of_nat n / 30) by (apply Z.div_le_lower_bound; lia). lia.
Qed.
End properties.

Lemma engine_in_range_witness :
  match @ticks demo_double 50 app_engine_init with
  | Done a => 800 * 4 <= rpm a <= 2200 * 4 ∧ 10 <= speed_kmh a <= 110
  | _ => False
  end.
Proof.
  destruct (engine_in_range (D:=demo_double) 50) as (a & Ha & Hr & _ & Hs). rewrite Ha. by split.
Defined.

Lemma coolant_closed_form_witness :
  ∃ a, @ticks demo_double 100 app_engine_init = Done a ∧ coolant_c a = 63.
Proof.
  destruct (coolant_closed_form (D:=demo_double) 100) as (a & Ha & Hc & _). exists a.
  split; [exact Ha|]. rewrite Hc. vm_compute. reflexivity.
Defined.
