(* ===== verification/Vecu.v ===== *)
(** [src/vecu.c] and [include/vecu.h]: the central state, its session and
    owner-name operations, start-up, and the invariant of the whole ECU. *)

From stdpp Require Import strings.
From S2P Require Import Prelude Effects UdsTypes DtcMem DidTable AppEngine Security.
Open Scope Z_scope.

Definition OWNER_NAME_CAP : Z := 32.

(** The functions a DID entry can point to. *)
Inductive did_read_fn : Type := app_read_rpm_fn | app_read_speed_fn | app_read_coolant_fn | owner_read_fn.
Inductive did_write_fn : Type := owner_write_fn.

Abbreviation did_entry := (did_entry_t did_read_fn did_write_fn).
Abbreviation did_table := (did_table_t did_read_fn did_write_fn).

Record vecu_state_t := VecuState {
  session : Z;                   (* uint8_t *)
  last_tester_present_ms : Z;    (* uint64_t *)
  dids : did_table;
  app : app_engine_t;
  dtcs : dtc_mem_t;
  security : security_state_t;
  owner_name : bytes;            (* uint8_t[OWNER_NAME_CAP] *)
  owner_len : Z
}.

(** The state and the two module-static back-references: NULL, or the
    address of the one state. *)
Record ecu_t := Ecu {
  state : vecu_state_t;
  g_state_for_owner : ptr;   (* vecu.c *)
  g_app : ptr                (* app_engine.c *)
}.

(** The mutexes of the state, and the mutex and condition variables of the
    queue. *)
Inductive sync_object :=
| SessionMutex | OwnerMutex | AppMutex | DtcMutex | SecurityMutex | QueueMutex | QueueNotEmpty | QueueNotFull.

#[export] Instance sync_object_eq_dec : EqDecision sync_object.
Proof. solve_decision. Defined.

(** [pthread_mutex_init] or [pthread_cond_init], and the destruction. *)
Inductive sync_op := SyncInit (x : sync_object) | SyncDestroy (x : sync_object).

#[export] Instance sync_op_eq_dec : EqDecision sync_op.
Proof. solve_decision. Defined.

(** What a section holds: a mutex; none; or it initialises or destroys one. *)
Inductive lock := SessionLock | OwnerLock | AppLock | DtcLock | SecLock | NoLock | Lifecycle (op : sync_op).

#[export] Instance lock_eq_dec : EqDecision lock.
Proof. solve_decision. Defined.

Abbreviation vprog := (prog lock ecu_t).

(** ** Field updates *)

Definition on_state (f : vecu_state_t → vecu_state_t) (e : ecu_t) : ecu_t :=
  Ecu (f (state e)) (g_state_for_owner e) (g_app e).
Definition set_session v s := VecuState v (last_tester_present_ms s) (dids s) (app s) (dtcs s)
  (security s) (owner_name s) (owner_len s).
Definition set_last_tp v s := VecuState (session s) v (dids s) (app s) (dtcs s)
  (security s) (owner_name s) (owner_len s).
Definition set_dids v s := VecuState (session s) (last_tester_present_ms s) v (app s) (dtcs s)
  (security s) (owner_name s) (owner_len s).
Definition set_app v s := VecuState (session s) (last_tester_present_ms s) (dids s) v (dtcs s)
  (security s) (owner_name s) (owner_len s).
Definition set_dtcs v s := VecuState (session s) (last_tester_present_ms s) (dids s) (app s) v
  (security s) (owner_name s) (owner_len s).
Definition set_security v s := VecuState (session s) (last_tester_present_ms s) (dids s) (app s)
  (dtcs s) v (owner_name s) (owner_len s).
Definition set_owner name n s := VecuState (session s) (last_tester_present_ms s) (dids s) (app s)
  (dtcs s) (security s) name n.

Definition app_lens : lens ecu_t app_engine_t := Lens (λ e, app (state e)) (λ v, on_state (set_app v)).
Definition dtcs_lens : lens ecu_t dtc_mem_t := Lens (λ e, dtcs (state e)) (λ v, on_state (set_dtcs v)).
Definition sec_lens : lens ecu_t security_state_t :=
  Lens (λ e, security (state e)) (λ v, on_state (set_security v)).

#[export] Instance app_lens_laws : LensLaws app_lens.
Proof. split; [done..|]. by intros [[]]. Qed.
#[export] Instance dtcs_lens_laws : LensLaws dtcs_lens.
Proof. split; [done..|]. by intros [[]]. Qed.
#[export] Instance sec_lens_laws : LensLaws sec_lens.
Proof. split; [done..|]. by intros [[]]. Qed.

(** A component's own mutex, or no lock. *)
Definition own (l : lock) (a : access) : lock := match a with Locked => l | Plain => NoLock end.

Definition on_app {A} (p : prog access app_engine_t A) : vprog A := lift (own AppLock) app_lens p.
Definition on_dtcs {A} (p : prog access dtc_mem_t A) : vprog A := lift (own DtcLock) dtcs_lens p.
Definition on_security {A} (p : prog access security_state_t A) : vprog A :=
  lift (own SecLock) sec_lens p.

(** ** Static identifiers: C string literals, with their terminator *)

Definition c_string (s : string) : bytes :=
  map (λ c, Z.of_N (Ascii.N_of_ascii c)) (String.list_ascii_of_string s) ++ [0].

Definition VIN_DATA    : bytes := c_string "VF1234567890ABCDE".
Definition SERIAL_DATA : bytes := c_string "ECU-DEMO-001".
Definition SPARE_DATA  : bytes := c_string "SPN-0001".

(** [strlen]: the bytes before the terminator. *)
Fixpoint strlen (s : bytes) : Z :=
  match s with
  | [] => 0
  | c :: s => if c =? 0 then 0 else 1 + strlen s
  end.

Section operations.
Context {E : Env}.

(** ** Session *)

Definition vecu_get_session : vprog Z :=
  crit SessionLock (gets (λ e, session (state e))).

Definition vecu_set_session (session : Z) : vprog () :=
  crit SessionLock (
    modify (on_state (set_session session));;
    now ← vecu_now_ms;
    modify (on_state (set_last_tp now))).

Definition vecu_mark_tester_present : vprog () :=
  crit SessionLock (
    now ← vecu_now_ms;
    modify (on_state (set_last_tp now))).

Definition vecu_last_tester_present_ms : vprog Z :=
  crit SessionLock (gets (λ e, last_tester_present_ms (state e))).

(** ** Owner name: the callbacks of DID F200 *)

Definition owner_read (out : option bytes) (cap : Z) (out_len : ptr) : vprog read_result :=
  g ← crit NoLock (gets g_state_for_owner);
  match g, out, out_len with
  | PTR, Some buf, PTR =>
      '(buf, n) ← crit OwnerLock (
        s ← gets state;
        let n := owner_len s in
        let n := if n >? cap then cap else n in
        buf ← of_outcome (memcpy buf 0 (owner_name s) 0 n);
        mret (buf, n));
      mret (ReadResult 0 (Some buf) (Some n))
  | _, _, _ => mret (ReadResult (-1) out None)
  end.

(** [inp] is the memory from the pointer [in] on. *)
Definition owner_write (inp : option bytes) (n : Z) : vprog Z :=
  g ← crit NoLock (gets g_state_for_owner);
  match g, inp with
  | PTR, Some src =>
      if (n =? 0) || (n >? OWNER_NAME_CAP) then mret (-1) else
      crit OwnerLock (
        modify_out (λ e,
          name ← memcpy (owner_name (state e)) 0 src 0 n;
          Done (on_state (set_owner name (owner_len (state e))) e));;
        modify (λ e, on_state (set_owner (owner_name (state e)) n) e));;
      mret 0
  | _, _ => mret (-1)
  end.

(** ** Calls through the pointers of a DID entry *)

Definition call_read (f : did_read_fn) (out : option bytes) (cap : Z) (out_len : ptr)
  : vprog read_result :=
  match f with
  | owner_read_fn => owner_read out cap out_len
  | app_read_rpm_fn =>
      g ← crit NoLock (gets g_app); on_app (app_read_rpm g out cap out_len)
  | app_read_speed_fn =>
      g ← crit NoLock (gets g_app); on_app (app_read_speed g out cap out_len)
  | app_read_coolant_fn =>
      g ← crit NoLock (gets g_app); on_app (app_read_coolant g out cap out_len)
  end.

Definition call_write (f : did_write_fn) (inp : option bytes) (n : Z) : vprog Z :=
  match f with owner_write_fn => owner_write inp n end.

(** The DID table is read without a lock: nothing writes it after start-up. *)
Definition lookup_did (d : Z) : vprog (option did_entry) :=
  crit NoLock (e ← gets (λ e, dids (state e)); of_outcome (did_table_lookup PTR d e)).

(** ** Start-up and shut-down *)

Definition memset_state : vecu_state_t :=
  VecuState 0 0 did_table_init (AppEngine 0 0 0 0)
    (DtcMem dtc_entries_zero 0 0) (SecurityState 0 0 false 0 0)
    (replicate (Z.to_nat OWNER_NAME_CAP) 0) 0.

(** The initialiser [{ .did = .., .static_data = .., .static_len = .. }]. *)
Definition static_did (d : Z) (data : bytes) (n : Z) : did_entry :=
  DidEntry d (Some data) n None None false false.
Definition dynamic_did (d : Z) (f : did_read_fn) : did_entry :=
  DidEntry d None 0 (Some f) None false false.
Definition owner_did : did_entry :=
  DidEntry 0xF200 None 0 (Some owner_read_fn) (Some owner_write_fn) true true.

Definition vecu_dids : list did_entry :=
  [ static_did 0xF190 VIN_DATA 17;
    static_did 0xF18C SERIAL_DATA 12;
    static_did 0xF187 SPARE_DATA 8;
    dynamic_did 0x010C app_read_rpm_fn;
    dynamic_did 0x010D app_read_speed_fn;
    dynamic_did 0x0105 app_read_coolant_fn;
    owner_did ].

Definition register_did (e : did_entry) : vprog () :=
  crit NoLock (modify_out (λ ecu,
    '(_, tab) ← did_table_add PTR (Some e) (dids (state ecu));
    Done (on_state (set_dids tab) ecu))).

Fixpoint register_dids (es : list did_entry) : vprog () :=
  match es with
  | [] => mret ()
  | e :: es => register_did e;; register_dids es
  end.

Definition seeded_status : Z :=
  Z.lor (Z.lor DTC_STATUS_TEST_FAILED DTC_STATUS_CONFIRMED)
        DTC_STATUS_TEST_FAILED_SINCE_LAST_CLEAR.

(** A call that initialises or destroys an object: it does nothing else. *)
Definition sync (op : sync_op) : vprog () := crit (Lifecycle op) (mret ()).

(** The calls of [vecu_init]: the fields and the mutex of each component. *)
Definition init_app_engine (a : ptr) : vprog () :=
  if is_null a then mret () else
  sync (SyncInit AppMutex);;
  crit NoLock (modify (on_state (set_app app_engine_init))).
Definition init_dtc_mem (m : ptr) : vprog () :=
  if is_null m then mret () else
  sync (SyncInit DtcMutex);;
  crit NoLock (modify (on_state (set_dtcs dtc_mem_init))).
Definition init_security (s : ptr) : vprog () :=
  if is_null s then mret () else
  sync (SyncInit SecurityMutex);;
  crit NoLock (modify (on_state (set_security security_init))).

Definition app_engine_destroy (a : ptr) : vprog () :=
  if is_null a then mret () else sync (SyncDestroy AppMutex).
Definition dtc_mem_destroy (m : ptr) : vprog () :=
  if is_null m then mret () else sync (SyncDestroy DtcMutex).
Definition security_destroy (s : ptr) : vprog () :=
  if is_null s then mret () else sync (SyncDestroy SecurityMutex).

(** [g_app = a], for the read callbacks. *)
Definition app_engine_install_did_callbacks (a : ptr) : cs ecu_t () :=
  modify (λ e, Ecu (state e) (g_state_for_owner e) a).

Definition vecu_init (st : ptr) : vprog () :=
  if is_null st then mret () else
  crit NoLock (modify (on_state (λ _, memset_state)));;
  sync (SyncInit SessionMutex);;
  sync (SyncInit OwnerMutex);;
  crit NoLock (
    modify (on_state (set_session UDS_SESSION_DEFAULT));;
    now ← vecu_now_ms;
    modify (on_state (set_last_tp now));;
    let def := c_string "ANONYMOUS" in
    modify (on_state (λ s, set_owner (owner_name s) (strlen def) s));;
    modify_out (λ e,
      name ← memcpy (owner_name (state e)) 0 def 0 (owner_len (state e));
      Done (on_state (set_owner name (owner_len (state e))) e));;
    modify (λ e, Ecu (state e) PTR (g_app e));;
    modify (on_state (set_dids did_table_init)));;
  init_app_engine PTR;;
  init_dtc_mem PTR;;
  init_security PTR;;
  crit NoLock (app_engine_install_did_callbacks PTR);;
  register_dids vecu_dids;;
  on_dtcs (dtc_mem_add PTR 0x030100 seeded_status);;
  on_dtcs (dtc_mem_add PTR 0x042000 seeded_status);;
  mret ().

(** The mutexes go; the owner back-reference becomes NULL ([g_app] stays). *)
Definition vecu_destroy (st : ptr) : vprog () :=
  if is_null st then mret () else
  app_engine_destroy PTR;;
  dtc_mem_destroy PTR;;
  security_destroy PTR;;
  sync (SyncDestroy SessionMutex);;
  sync (SyncDestroy OwnerMutex);;
  crit NoLock (modify (λ e, Ecu (state e) NULL (g_app e))).
End operations.

(** * Invariant *)

Definition session_ok (s : Z) : Prop :=
  s = UDS_SESSION_DEFAULT ∨ s = UDS_SESSION_PROGRAMMING ∨ s = UDS_SESSION_EXTENDED.

Record ecu_wf (e : ecu_t) : Prop := {
  ewf_session : session_ok (session (state e));
  ewf_last_tp : 0 <= last_tester_present_ms (state e) < 2 ^ 64;
  ewf_dids : did_table_wf (dids (state e));
  ewf_app : app_engine_wf (app (state e));
  ewf_dtcs : dtc_mem_wf (dtcs (state e));
  ewf_security : security_wf (security (state e));
  ewf_owner_buf : len (owner_name (state e)) = OWNER_NAME_CAP;
  ewf_owner_bytes : Forall is_byte (owner_name (state e));
  ewf_owner_len : 0 <= owner_len (state e) <= OWNER_NAME_CAP
}.

(** The name a reader of DID F200 sees. *)
Definition owner (e : ecu_t) : bytes := take (Z.to_nat (owner_len (state e))) (owner_name (state e)).

(** A component update keeps the invariant of the rest. *)
Lemma ecu_wf_app e v : ecu_wf e → app_engine_wf v → ecu_wf (update app_lens v e).
Proof. by intros [] ?. Qed.
Lemma ecu_wf_dtcs e v : ecu_wf e → dtc_mem_wf v → ecu_wf (update dtcs_lens v e).
Proof. by intros [] ?. Qed.
Lemma ecu_wf_sec e v : ecu_wf e → security_wf v → ecu_wf (update sec_lens v e).
Proof. by intros [] ?. Qed.

Lemma on_app_safe {A} (p : prog access app_engine_t A) Q :
  safe never app_engine_wf p Q → safe never ecu_wf (on_app p) Q.
Proof.
  apply safe_lift; [apply ewf_app| |done]. intros s t Ht Hs. by apply ecu_wf_app.
Qed.
Lemma on_dtcs_safe {A} (p : prog access dtc_mem_t A) Q :
  safe never dtc_mem_wf p Q → safe never ecu_wf (on_dtcs p) Q.
Proof.
  apply safe_lift; [apply ewf_dtcs| |done]. intros s t Ht Hs. by apply ecu_wf_dtcs.
Qed.
Lemma on_security_safe {A} (p : prog access security_state_t A) Q :
  safe never security_wf p Q → safe never ecu_wf (on_security p) Q.
Proof.
  apply safe_lift; [apply ewf_security| |done]. intros s t Ht Hs. by apply ecu_wf_sec.
Qed.

(** * What the operations do *)

Section facts.
Context {E : Env}.
Implicit Types w : world ecu_t.

Lemma run_on_app {A} (p : prog access app_engine_t A) w :
  run (on_app p) w =
  match run p (zoom_world app_lens w) with
  | Done (a, w') => Done (a, unzoom_world app_lens w w')
  | Blocked => Blocked
  | Undefined => Undefined
  end.
Proof. apply run_lift, _. Qed.

Lemma run_on_dtcs {A} (p : prog access dtc_mem_t A) w :
  run (on_dtcs p) w =
  match run p (zoom_world dtcs_lens w) with
  | Done (a, w') => Done (a, unzoom_world dtcs_lens w w')
  | Blocked => Blocked
  | Undefined => Undefined
  end.
Proof. apply run_lift, _. Qed.

Lemma run_on_security {A} (p : prog access security_state_t A) w :
  run (on_security p) w =
  match run p (zoom_world sec_lens w) with
  | Done (a, w') => Done (a, unzoom_world sec_lens w w')
  | Blocked => Blocked
  | Undefined => Undefined
  end.
Proof. apply run_lift, _. Qed.

(** Zooming in and out without a change. *)
Lemma unzoom_zoom {S} (ln : lens ecu_t S) `{!LensLaws ln} w :
  unzoom_world ln w (zoom_world ln w) = w.
Proof. unfold unzoom_world, zoom_world; simpl. rewrite update_view. by destruct w. Qed.

Lemma lookup_did_run d w :
  ecu_wf (obj w) →
  run (lookup_did d) w = Done (find_did d (registered (dids (state (obj w)))), w).
Proof.
  intros Hwf. unfold lookup_did. simpl. cs_simpl.
  by rewrite did_table_lookup_spec by apply Hwf.
Qed.

(** The bytes behind a read callback, or [None] when its back-reference
    is NULL. *)
Definition did_value (f : did_read_fn) (e : ecu_t) : option bytes :=
  match f with
  | owner_read_fn => if is_null (g_state_for_owner e) then None else Some (owner e)
  | app_read_rpm_fn => if is_null (g_app e) then None else Some (rpm_payload (app (state e)))
  | app_read_speed_fn => if is_null (g_app e) then None else Some (speed_payload (app (state e)))
  | app_read_coolant_fn => if is_null (g_app e) then None else Some (coolant_payload (app (state e)))
  end.

Definition read_outcome (buf : bytes) (v : option bytes) (r : read_result) : Prop :=
  match v with
  | Some payload => delivers buf payload r
  | None => rr_rc r = -1
  end.

Lemma owner_len_eq e : ecu_wf e → len (owner e) = owner_len (state e).
Proof. intros []. unfold owner. rewrite len_take; [done|lia]. Qed.

(** The locked copy of [owner_read]. *)
Lemma owner_copy e buf :
  ecu_wf e → OWNER_NAME_CAP <= len buf →
  ∃ rest, memcpy buf 0 (owner_name (state e)) 0 (owner_len (state e)) = Done (owner e ++ rest)
          ∧ len (owner e ++ rest) = len buf.
Proof.
  intros Hwf Hb. pose proof (ewf_owner_len _ Hwf). pose proof (ewf_owner_buf _ Hwf).
  eexists. rewrite memcpy_defined by lia. simpl. rewrite drop_0. split; [done|].
  change (take (Z.to_nat (owner_len (state e))) (owner_name (state e))) with (owner e).
  rewrite len_app, owner_len_eq by done. rewrite len_drop by lia. lia.
Qed.

Lemma call_read_run f buf cap w :
  ecu_wf (obj w) → OWNER_NAME_CAP <= cap <= len buf →
  ∃ r, run (call_read f (Some buf) cap PTR) w = Done (r, w) ∧
       read_outcome buf (did_value f (obj w)) r.
Proof.
  unfold OWNER_NAME_CAP. intros Hwf Hcap.
  destruct f; unfold call_read, did_value.
  1-3: rewrite run_bind, run_crit; unfold gets at 1; cbn iota beta;
       rewrite run_on_app; destruct (g_app (obj w)); cbn [is_null];
       [eexists; split; [simpl; by rewrite unzoom_zoom by apply _|done]|].
  - destruct (app_read_rpm_run (zoom_world app_lens w) buf cap) as (r & Hr & Hd); [lia|lia|].
    exists r. rewrite Hr, unzoom_zoom by apply _. done.
  - destruct (app_read_speed_run (zoom_world app_lens w) buf cap) as (r & Hr & Hd); [lia|lia|].
    exists r. rewrite Hr, unzoom_zoom by apply _. done.
  - destruct (app_read_coolant_run (zoom_world app_lens w) buf cap) as (r & Hr & Hd);
      [apply Hwf|lia|lia|].
    exists r. rewrite Hr, unzoom_zoom by apply _. done.
  - unfold owner_read. simpl. unfold gets. simpl.
    destruct (g_state_for_owner (obj w)); simpl; [by eexists|].
    cs_simpl. pose proof (ewf_owner_len _ Hwf) as Hol. unfold OWNER_NAME_CAP in Hol.
    rewrite Z.gtb_ltb. dec.
    destruct (owner_copy (obj w) buf Hwf) as (rest & -> & Hlen); [unfold OWNER_NAME_CAP; lia|].
    eexists. split; [done|]. split; [done|]. split; [|by exists rest].
    simpl. by rewrite owner_len_eq.
Qed.

(** Writing the owner name: the return code and the new state. *)
Definition owner_written (payload : bytes) (e : ecu_t) : ecu_t :=
  on_state (set_owner (payload ++ drop (length payload) (owner_name (state e))) (len payload)) e.

Definition write_accepts (payload : bytes) : bool :=
  (1 <=? len payload) && (len payload <=? OWNER_NAME_CAP).

Lemma owner_write_run payload rest w :
  ecu_wf (obj w) → g_state_for_owner (obj w) = PTR →
  run (owner_write (Some (payload ++ rest)) (len payload)) w =
    if write_accepts payload
    then Done (0, World (owner_written payload (obj w)) (readings w) (draws w))
    else Done (-1, w).
Proof.
  intros Hwf Hg. unfold owner_write, write_accepts. simpl. unfold gets. rewrite Hg. simpl.
  pose proof (len_nonneg payload) as Hl. rewrite Z.gtb_ltb.
  destruct (Z.eqb_spec (len payload) 0) as [->|Hne]; [done|].
  destruct (Z.ltb_spec OWNER_NAME_CAP (len payload)) as [Hlt|Hge]; dec; simpl; [done|].
  cs_simpl. pose proof (ewf_owner_buf _ Hwf) as Hb.
  by rewrite memcpy_prefix by lia.
Qed.

Lemma owner_written_wf payload e :
  ecu_wf e → write_accepts payload = true → Forall is_byte payload → ecu_wf (owner_written payload e).
Proof.
  intros Hwf Ha Hp. unfold write_accepts in Ha. rewrite andb_true_iff, !Z.leb_le in Ha.
  destruct Hwf; split; simpl; auto.
  - rewrite len_app. unfold OWNER_NAME_CAP, len in *. rewrite length_drop. lia.
  - apply Forall_app. split; [done|]. by apply Forall_drop.
  - lia.
Qed.

Lemma owner_owner_written payload e : owner (owner_written payload e) = payload.
Proof. unfold owner; simpl. by rewrite to_nat_len, take_app_length. Qed.

(** ** Safety under interference *)

Lemma vecu_get_session_safe : safe never ecu_wf vecu_get_session session_ok.
Proof. intros w Hwf. split; [done|]. apply Hwf. Qed.

Lemma vecu_set_session_safe s : session_ok s → safe never ecu_wf (vecu_set_session s) (λ _, True).
Proof.
  intros Hs w Hwf. cs_simpl. split; [|done].
  destruct Hwf; split; simpl; auto. apply u64_range.
Qed.

Lemma vecu_mark_tester_present_safe : safe never ecu_wf vecu_mark_tester_present (λ _, True).
Proof.
  intros w Hwf. cs_simpl. split; [|done].
  destruct Hwf; split; simpl; auto. apply u64_range.
Qed.

Lemma vecu_last_tp_safe : safe never ecu_wf vecu_last_tester_present_ms (λ t, 0 <= t < 2 ^ 64).
Proof. intros w Hwf. split; [done|]. apply Hwf. Qed.

(** A registered entry, as found under interference. *)
Lemma lookup_did_safe d :
  safe never ecu_wf (lookup_did d)
    (λ r, match r with Some e => did_entry_wf e ∧ did e = d | None => True end).
Proof.
  intros w Hwf. cs_simpl. rewrite did_table_lookup_spec by apply Hwf.
  split; [done|]. simpl. destruct (find_did _ _) eqn:Hf; [|done].
  eapply find_did_wf; [|done]. apply Hwf.
Qed.

Definition read_any (buf : bytes) (r : read_result) : Prop :=
  rr_rc r ≠ 0 ∨ ∃ payload, delivers buf payload r ∧ Forall is_byte payload.

Lemma call_read_safe f buf cap :
  OWNER_NAME_CAP <= cap <= len buf →
  safe never ecu_wf (call_read f (Some buf) cap PTR) (read_any buf).
Proof.
  intros Hcap. unfold OWNER_NAME_CAP in Hcap.
  assert (Happ : ∀ g (p : prog access app_engine_t read_result) q,
    (∀ g, q g = if is_null g then mret (ReadResult (-1) (Some buf) None) else p) →
    safe never app_engine_wf p (read_ok buf) → safe never ecu_wf (on_app (q g)) (read_any buf)).
  { intros g p q Hq Hp. apply on_app_safe. rewrite Hq. destruct g; simpl; [by left|].
    eapply safe_mono; [exact Hp|]. intros r [_ H]. by right. }
  destruct f; unfold call_read.
  1-3: eapply (safe_bind _ _ _ _ (λ _, True)); [by intros w Hwf|]; intros g _.
  - eapply (Happ g _ (λ g, app_read_rpm g (Some buf) cap PTR)); [by intros []|].
    apply app_read_rpm_safe; lia.
  - eapply (Happ g _ (λ g, app_read_speed g (Some buf) cap PTR)); [by intros []|].
    apply app_read_speed_safe; lia.
  - eapply (Happ g _ (λ g, app_read_coolant g (Some buf) cap PTR)); [by intros []|].
    apply app_read_coolant_safe; lia.
  - unfold owner_read. eapply (safe_bind _ _ _ _ (λ _, True)); [by intros w Hwf|]. intros g _.
    destruct g; [by left|]. intros w Hwf. cs_simpl.
    pose proof (ewf_owner_len _ Hwf) as Hol. unfold OWNER_NAME_CAP in Hol.
    rewrite Z.gtb_ltb. dec.
    destruct (owner_copy (obj w) buf Hwf) as (rest & -> & Hlen); [unfold OWNER_NAME_CAP; lia|].
    split; [done|]. right. exists (owner (obj w)). split.
    + split; [done|]. split; [simpl; by rewrite owner_len_eq|]. by exists rest.
    + apply Forall_take, Hwf.
Qed.

Lemma call_write_safe f payload rest :
  Forall is_byte payload →
  safe never ecu_wf (call_write f (Some (payload ++ rest)) (len payload)) (λ _, True).
Proof.
  intros Hp. destruct f. unfold call_write, owner_write.
  eapply (safe_bind _ _ _ _ (λ _, True)); [by intros w Hwf|]. intros g _.
  destruct g; [done|]. pose proof (len_nonneg payload) as Hl. rewrite Z.gtb_ltb.
  destruct (Z.eqb_spec (len payload) 0) as [|Hne]; [done|].
  destruct (Z.ltb_spec OWNER_NAME_CAP (len payload)) as [Hlt|Hge]; [done|].
  intros w Hwf. cs_simpl. pose proof (ewf_owner_buf _ Hwf) as Hb.
  rewrite memcpy_prefix by lia. simpl. split; [|done].
  change (ecu_wf (owner_written payload (obj w))). apply owner_written_wf; [done| |done].
  unfold write_accepts. by dec.
Qed.
End facts.

(** * Start-up *)

(** The registered DIDs, in registration order. *)
Lemma vecu_dids_wf : Forall did_entry_wf vecu_dids.
Proof. repeat constructor; by compute. Qed.

Definition powered_up (now : Z) (e : ecu_t) : Prop :=
  session (state e) = UDS_SESSION_DEFAULT ∧
  last_tester_present_ms (state e) = now ∧
  registered (dids (state e)) = vecu_dids ∧
  stored (dtcs (state e)) = [DtcEntry 0x030100 0x29; DtcEntry 0x042000 0x29] ∧
  security (state e) = security_init ∧
  app (state e) = app_engine_init ∧
  owner e = take 9 (c_string "ANONYMOUS") ∧
  g_state_for_owner e = PTR ∧ g_app e = PTR ∧
  availability_mask (dtcs (state e)) = 0x29.

Section startup.
Context {E : Env}.

Lemma vecu_init_run w :
  ∃ w', run (vecu_init PTR) w = Done ((), w') ∧
    ecu_wf (obj w') ∧ powered_up (now_at w) (obj w').
Proof.
  destruct w as [e rd dr]. eexists.
  split; [lazy -[ms_of_timespec]; reflexivity|].
  split; [|by repeat split].
  split; simpl.
  - by left.
  - apply u64_range.
  - split; [done|by compute|]. apply (Forall_app _ vecu_dids). split; [apply vecu_dids_wf|].
    apply (Forall_replicate did_entry_wf 9 did_entry_zero). by compute.
  - apply app_engine_init_wf.
  - split; [done|by compute| |by compute]. repeat constructor; by compute.
  - apply security_init_wf.
  - done.
  - repeat constructor; by compute.
  - by compute.
Qed.

(** C29: [vecu_init] always completes and, whatever was in memory, leaves a
    well-formed ECU: default session, security locked, the seven DIDs, the
    two seeded trouble codes, the default owner name, both
    back-references set. *)
Theorem vecu_init_powers_up w :
  ∃ w', run (vecu_init PTR) w = Done ((), w') ∧
    ecu_wf (obj w') ∧ powered_up (now_at w) (obj w').
Proof. apply vecu_init_run. Qed.

(** A NULL argument makes both start-up and shut-down no-ops, and
    shut-down unhooks the owner callbacks only. *)
Lemma vecu_destroy_unhooks w :
  run (vecu_init NULL) w = Done ((), w) ∧
  run (vecu_destroy NULL) w = Done ((), w) ∧
  ∃ w', run (vecu_destroy PTR) w = Done ((), w') ∧
    state (obj w') = state (obj w) ∧ g_state_for_owner (obj w') = NULL ∧
    g_app (obj w') = g_app (obj w) ∧
    did_value owner_read_fn (obj w') = None.
Proof. split; [done|]. split; [done|]. eexists. by split. Qed.

(** A name of 1 to 32 bytes written to DID F200 is what the next read
    returns, whatever was stored; any other length is refused and changes
    nothing. *)
Lemma owner_write_read name rest buf w :
  ecu_wf (obj w) → Forall is_byte name → g_state_for_owner (obj w) = PTR →
  OWNER_NAME_CAP <= len buf →
  if (1 <=? len name) && (len name <=? OWNER_NAME_CAP) then
    ∃ w' r, run (owner_write (Some (name ++ rest)) (len name)) w = Done (0, w') ∧
      ecu_wf (obj w') ∧
      run (owner_read (Some buf) OWNER_NAME_CAP PTR) w' = Done (r, w') ∧ delivers buf name r
  else run (owner_write (Some (name ++ rest)) (len name)) w = Done (-1, w).
Proof.
  intros Hwf Hb Hg Hbuf. pose proof (owner_write_run name rest w Hwf Hg) as Hw.
  fold (write_accepts name). destruct (write_accepts name) eqn:Ha; [|done].
  pose proof (owner_written_wf name (obj w) Hwf Ha Hb) as Hwf'.
  eexists. destruct (call_read_run owner_read_fn buf OWNER_NAME_CAP
    (World (owner_written name (obj w)) (readings w) (draws w)) Hwf') as (r & Hr & Hd); [lia|].
  exists r. split; [exact Hw|]. split; [done|]. split; [exact Hr|].
  simpl in Hd. rewrite Hg, owner_owner_written in Hd. exact Hd.
Qed.
End startup.

(** * A concrete ECU, for evaluations: powered up at time 0 *)

Definition demo_ecu : ecu_t := Eval vm_compute in
  match run (@vecu_init demo_env PTR) (World (Ecu memset_state NULL NULL) 0 0) with
  | Done (_, w) => obj w
  | _ => Ecu memset_state NULL NULL
  end.

Definition demo_world : world ecu_t := World demo_ecu 1 0.

Lemma demo_ecu_powered_up :
  run (@vecu_init demo_env PTR) (World (Ecu memset_state NULL NULL) 0 0) = Done ((), demo_world).
Proof. vm_compute. reflexivity. Qed.

Lemma demo_ecu_wf : ecu_wf demo_ecu.
Proof.
  destruct (@vecu_init_run demo_env (World (Ecu memset_state NULL NULL) 0 0)) as (w' & Hr & Hwf & _).
  rewrite demo_ecu_powered_up in Hr. injection Hr as <-. exact Hwf.
Qed.

Lemma demo_ecu_powered : powered_up 0 demo_ecu.
Proof. by vm_compute. Qed.
