(* ===== verification/Uds.v ===== *)
(** [src/uds.c] and [include/uds.h]: the UDS dispatcher and its eight
    service handlers, as thread code over the shared ECU.

    A request is a C object [req] of which [req_len] bytes are the message; a
    response is written into the object [resp] of which the caller declares
    [resp_cap] bytes.  Every index is checked against the object: an access
    outside it is [Ub]. *)

From S2P Require Import Prelude Effects UdsTypes DtcMem DidTable AppEngine Security Vecu.

(** What a handler hands back: its return code, the response object and
    [*resp_len]. *)
Record hret := Hret { hr_rc : Z; hr_resp : bytes; hr_len : Z }.

#[export] Instance hret_eq_dec : EqDecision hret.
Proof. solve_decision. Defined.

(** Requests as memory objects, responses as memory objects with a capacity. *)
Definition uds_handler_fn : Type :=
  bytes → Z → bytes → Z → Z → vprog hret.

Section handlers.
Context {E : Env}.

(** ** Helpers *)

Definition build_nrc (sid nrc : Z) (resp : bytes) : vprog (Z * bytes) :=
  resp ← local (st resp 0 UDS_NEGATIVE_RESPONSE);
  resp ← local (st resp 1 sid);
  resp ← local (st resp 2 (u8 nrc));
  mret (3, resp).

(** [*resp_len = build_nrc(req[0], nrc, resp); return 0;] *)
Definition reject (req : bytes) (nrc : Z) (resp : bytes) : vprog hret :=
  sid ← local (ld req 0);
  '(n, resp) ← build_nrc sid nrc resp;
  mret (Hret 0 resp n).

(** Big-endian reads at an offset. *)
Definition rd16_be (p : bytes) (off : Z) : vprog Z :=
  p0 ← local (ld p off);
  p1 ← local (ld p (off + 1));
  mret (u16 (Z.lor (Z.shiftl p0 8) p1)).

Definition rd32_be (p : bytes) (off : Z) : vprog Z :=
  p0 ← local (ld p off);
  p1 ← local (ld p (off + 1));
  p2 ← local (ld p (off + 2));
  p3 ← local (ld p (off + 3));
  mret (Z.lor (Z.lor (Z.lor (u32 (Z.shiftl p0 24)) (u32 (Z.shiftl p1 16)))
                     (u32 (Z.shiftl p2 8))) p3).

Definition wr32_be (p : bytes) (off v : Z) : vprog bytes :=
  p ← local (st p off (u8 (Z.shiftr v 24)));
  p ← local (st p (off + 1) (u8 (Z.shiftr v 16)));
  p ← local (st p (off + 2) (u8 (Z.shiftr v 8)));
  local (st p (off + 3) (u8 v)).

Definition is_extended_session : vprog bool :=
  cur ← vecu_get_session;
  mret ((cur =? UDS_SESSION_EXTENDED) || (cur =? UDS_SESSION_PROGRAMMING)).

(** [resp[0] = UDS_POS_RESP(req[0]);] *)
Definition store_pos_resp (req resp : bytes) : vprog bytes :=
  sid ← local (ld req 0);
  local (st resp 0 (UDS_POS_RESP sid)).

(** [if (sub_raw & UDS_SUPPRESS_POS_RESP_BIT) return 1; return 0;] *)
Definition pos_rc (sub_raw : Z) : Z := if suppressed sub_raw then 1 else 0.

(** ** 0x10 DiagnosticSessionControl *)
Definition h_session_control : uds_handler_fn := λ req req_len resp resp_cap resp_len,
  if req_len !=? 2 then reject req (nrc_code UDS_NRC_INCORRECT_MESSAGE_LENGTH) resp else
  sub_raw ← local (ld req 1);
  let sub := sub_function sub_raw in
  if (sub =? UDS_SESSION_DEFAULT) || (sub =? UDS_SESSION_PROGRAMMING)
     || (sub =? UDS_SESSION_EXTENDED) then
    vecu_set_session sub;;
    if resp_cap <? 6 then mret (Hret (-1) resp resp_len) else
    resp ← store_pos_resp req resp;
    resp ← local (st resp 1 sub);
    resp ← local (st resp 2 0x00);
    resp ← local (st resp 3 0x32);
    resp ← local (st resp 4 0x01);
    resp ← local (st resp 5 0xF4);
    mret (Hret (pos_rc sub_raw) resp 6)
  else reject req (nrc_code UDS_NRC_SUB_FUNCTION_NOT_SUPPORTED) resp.

(** ** 0x11 ECUReset *)

(** Lines 120-123: the security fields an ECUReset clears. *)
Definition reset_security : cs security_state_t () :=
  modify (set_unlocked_level 0);;
  modify (set_seed_issued false);;
  modify (set_fail_count 0);;
  modify (set_lock_until_ms 0).

Definition h_ecu_reset : uds_handler_fn := λ req req_len resp resp_cap resp_len,
  if req_len !=? 2 then reject req (nrc_code UDS_NRC_INCORRECT_MESSAGE_LENGTH) resp else
  sub_raw ← local (ld req 1);
  let sub := sub_function sub_raw in
  if (sub !=? 0x01) && (sub !=? 0x02) && (sub !=? 0x03) then
    reject req (nrc_code UDS_NRC_SUB_FUNCTION_NOT_SUPPORTED) resp
  else
    vecu_set_session UDS_SESSION_DEFAULT;;
    on_security (crit Locked reset_security);;
    resp ← store_pos_resp req resp;
    resp ← local (st resp 1 sub);
    mret (Hret (pos_rc sub_raw) resp 2).

(** ** 0x14 ClearDiagnosticInformation *)
Definition h_clear_dtc : uds_handler_fn := λ req req_len resp resp_cap resp_len,
  if req_len !=? 4 then reject req (nrc_code UDS_NRC_INCORRECT_MESSAGE_LENGTH) resp else
  g1 ← local (ld req 1);
  g2 ← local (ld req 2);
  g3 ← local (ld req 3);
  if negb ((g1 =? 0xFF) && (g2 =? 0xFF) && (g3 =? 0xFF)) then
    reject req (nrc_code UDS_NRC_REQUEST_OUT_OF_RANGE) resp
  else
    on_dtcs (dtc_mem_clear_all PTR);;
    resp ← store_pos_resp req resp;
    mret (Hret 0 resp 1).

(** ** 0x19 ReadDTCInformation *)

(** Lines 189-194: [for (i; i < n; ++i)]; [fuel] is the [n - i] iterations to go. *)
Fixpoint write_dtcs (fuel : nat) (snap : list dtc_entry_t) (i : Z) (resp : bytes) : vprog bytes :=
  match fuel with
  | O => mret resp
  | S fuel =>
      e ← local (ld snap i);
      resp ← local (st resp (3 + i * 4 + 0) (u8 (Z.land (Z.shiftr (dtc e) 16) 0xFF)));
      resp ← local (st resp (3 + i * 4 + 1) (u8 (Z.land (Z.shiftr (dtc e) 8) 0xFF)));
      resp ← local (st resp (3 + i * 4 + 2) (u8 (Z.land (dtc e) 0xFF)));
      resp ← local (st resp (3 + i * 4 + 3) (status e));
      write_dtcs fuel snap (i + 1) resp
  end.

Definition h_read_dtc : uds_handler_fn := λ req req_len resp resp_cap resp_len,
  if req_len <? 2 then reject req (nrc_code UDS_NRC_INCORRECT_MESSAGE_LENGTH) resp else
  sub_raw ← local (ld req 1);
  let sub := sub_function sub_raw in
  if sub !=? 0x02 then reject req (nrc_code UDS_NRC_SUB_FUNCTION_NOT_SUPPORTED) resp else
  if req_len !=? 3 then reject req (nrc_code UDS_NRC_INCORRECT_MESSAGE_LENGTH) resp else
  mask ← local (ld req 2);
  '(n, snap) ← on_dtcs (dtc_mem_snapshot_by_mask PTR mask (Some dtc_entries_zero) DTC_MAX);
  let need := u64 (3 + u64 (n * 4)) in
  if resp_cap <? need then reject req (nrc_code UDS_NRC_RESPONSE_TOO_LONG) resp else
  resp ← store_pos_resp req resp;
  resp ← local (st resp 1 sub);
  mask ← on_dtcs (dtc_mem_availability_mask PTR);
  resp ← local (st resp 2 mask);
  resp ← write_dtcs (Z.to_nat n) (default [] snap) 0 resp;
  mret (Hret (pos_rc sub_raw) resp need).

(** ** 0x22 ReadDataByIdentifier *)

Definition payload_size : Z := 256.

(** Lines 219-233: the payload and its length, or what to answer instead. *)
Inductive payload_result :=
| PayloadReady (payload : bytes) (plen : Z)
| PayloadDrop
| PayloadReject (nrc : uds_nrc_t).

Definition build_payload (e : did_entry) : vprog payload_result :=
  let payload := replicate (Z.to_nat payload_size) 0 in
  match static_data e, read e with
  | Some data, _ =>
      if static_len e >? payload_size then mret PayloadDrop else
      payload ← local (memcpy payload 0 data 0 (static_len e));
      mret (PayloadReady payload (static_len e))
  | None, Some f =>
      r ← call_read f (Some payload) payload_size PTR;
      if rr_rc r !=? 0 then mret (PayloadReject UDS_NRC_CONDITIONS_NOT_CORRECT)
      else mret (PayloadReady (default payload (rr_out r)) (default 0 (rr_len r)))
  | None, None => mret (PayloadReject UDS_NRC_CONDITIONS_NOT_CORRECT)
  end.

(** Lines 235-245: the positive response, if it fits. *)
Definition answer_did (req : bytes) (did : Z) (payload : bytes) (plen : Z) (resp : bytes)
    (resp_cap : Z) : vprog hret :=
  let need := u64 (3 + plen) in
  if resp_cap <? need then reject req (nrc_code UDS_NRC_RESPONSE_TOO_LONG) resp else
  resp ← store_pos_resp req resp;
  resp ← local (st resp 1 (u8 (Z.shiftr did 8)));
  resp ← local (st resp 2 (u8 (Z.land did 0xFF)));
  resp ← local (memcpy resp 3 payload 0 plen);
  mret (Hret 0 resp need).

Definition h_read_did : uds_handler_fn := λ req req_len resp resp_cap resp_len,
  if req_len !=? 3 then reject req (nrc_code UDS_NRC_INCORRECT_MESSAGE_LENGTH) resp else
  did ← rd16_be req 1;
  e ← lookup_did did;
  match e with
  | None => reject req (nrc_code UDS_NRC_REQUEST_OUT_OF_RANGE) resp
  | Some e =>
      p ← build_payload e;
      match p with
      | PayloadDrop => mret (Hret (-1) resp resp_len)
      | PayloadReject nrc => reject req (nrc_code nrc) resp
      | PayloadReady payload plen => answer_did req did payload plen resp resp_cap
      end
  end.

(** ** 0x27 SecurityAccess *)
Definition h_security_access : uds_handler_fn := λ req req_len resp resp_cap resp_len,
  if req_len <? 2 then reject req (nrc_code UDS_NRC_INCORRECT_MESSAGE_LENGTH) resp else
  sub_raw ← local (ld req 1);
  let sub := sub_function sub_raw in
  ext ← is_extended_session;
  if negb ext then reject req (nrc_code UDS_NRC_SERVICE_NOT_SUPPORTED_IN_SESSION) resp else
  if Z.land sub 0x01 =? 0x01 then
    (* requestSeed *)
    if req_len !=? 2 then reject req (nrc_code UDS_NRC_INCORRECT_MESSAGE_LENGTH) resp else
    r ← on_security (security_request_seed PTR sub PTR PTR);
    let seed := default 0 (sr_seed r) in
    let nrc := default 0 (nrc_code <$> sr_nrc r) in
    if sr_rc r =? -1 then reject req nrc resp else
    resp ← store_pos_resp req resp;
    resp ← local (st resp 1 sub);
    resp ← wr32_be resp 2 seed;
    mret (Hret (pos_rc sub_raw) resp 6)
  else
    (* sendKey *)
    if req_len !=? 6 then reject req (nrc_code UDS_NRC_INCORRECT_MESSAGE_LENGTH) resp else
    key ← rd32_be req 2;
    r ← on_security (security_send_key PTR (u8 (sub - 1)) key PTR);
    let nrc := default 0 (nrc_code <$> sr_nrc r) in
    if sr_rc r !=? 0 then reject req nrc resp else
    resp ← store_pos_resp req resp;
    resp ← local (st resp 1 sub);
    mret (Hret (pos_rc sub_raw) resp 2).

(** ** 0x2E WriteDataByIdentifier *)
Definition h_write_did : uds_handler_fn := λ req req_len resp resp_cap resp_len,
  if req_len <? 4 then reject req (nrc_code UDS_NRC_INCORRECT_MESSAGE_LENGTH) resp else
  did ← rd16_be req 1;
  e ← lookup_did did;
  match e ≫= λ e, (e,.) <$> write e with
  | None => reject req (nrc_code UDS_NRC_REQUEST_OUT_OF_RANGE) resp
  | Some (e, write_fn) =>
      (* && evaluates the session only when the entry requires it *)
      ext ← (if requires_extended_session e then is_extended_session else mret true);
      if negb ext then reject req (nrc_code UDS_NRC_SERVICE_NOT_SUPPORTED_IN_SESSION) resp else
      unlocked ← (if requires_security e
                  then on_security (security_is_unlocked PTR 0x01) else mret true);
      if negb unlocked then reject req (nrc_code UDS_NRC_SECURITY_ACCESS_DENIED) resp else
      r ← call_write write_fn (Some (drop 3 req)) (req_len - 3);
      if r !=? 0 then reject req (nrc_code UDS_NRC_CONDITIONS_NOT_CORRECT) resp else
      resp ← store_pos_resp req resp;
      resp ← local (st resp 1 (u8 (Z.shiftr did 8)));
      resp ← local (st resp 2 (u8 (Z.land did 0xFF)));
      mret (Hret 0 resp 3)
  end.

(** ** 0x3E TesterPresent *)
Definition h_tester_present : uds_handler_fn := λ req req_len resp resp_cap resp_len,
  if req_len !=? 2 then reject req (nrc_code UDS_NRC_INCORRECT_MESSAGE_LENGTH) resp else
  sub_raw ← local (ld req 1);
  let sub := sub_function sub_raw in
  if sub !=? 0x00 then reject req (nrc_code UDS_NRC_SUB_FUNCTION_NOT_SUPPORTED) resp else
  vecu_mark_tester_present;;
  resp ← store_pos_resp req resp;
  resp ← local (st resp 1 sub);
  mret (Hret (pos_rc sub_raw) resp 2).

(** ** Dispatch *)

Definition DISPATCH : list (Z * uds_handler_fn) :=
  [ (UDS_SID_DIAGNOSTIC_SESSION_CONTROL, h_session_control);
    (UDS_SID_ECU_RESET,                  h_ecu_reset);
    (UDS_SID_CLEAR_DTC,                  h_clear_dtc);
    (UDS_SID_READ_DTC,                   h_read_dtc);
    (UDS_SID_READ_DATA_BY_IDENTIFIER,    h_read_did);
    (UDS_SID_SECURITY_ACCESS,            h_security_access);
    (UDS_SID_WRITE_DATA_BY_IDENTIFIER,   h_write_did);
    (UDS_SID_TESTER_PRESENT,             h_tester_present) ].

(** The linear scan: the first entry with the identifier. *)
Fixpoint find_handler (table : list (Z * uds_handler_fn)) (sid : Z) : option uds_handler_fn :=
  match table with
  | [] => None
  | (s, h) :: table => if s =? sid then Some h else find_handler table sid
  end.

Definition dispatch (req : bytes) (req_len : Z) (resp : bytes) (resp_cap resp_len : Z)
  : vprog hret :=
  if (req_len =? 0) || (resp_cap <? 3) then mret (Hret (-1) resp resp_len) else
  sid ← local (ld req 0);
  match find_handler DISPATCH sid with
  | Some handler => handler req req_len resp resp_cap resp_len
  | None =>
      '(n, resp) ← build_nrc sid (nrc_code UDS_NRC_SERVICE_NOT_SUPPORTED) resp;
      mret (Hret 0 resp n)
  end.

(** Each pointer may be NULL; the second component is the response object
    and length when they are not. *)
Definition uds_process_request (state : ptr) (req : option bytes) (req_len : Z)
    (resp : option bytes) (resp_cap : Z) (resp_len : option Z)
  : vprog (Z * option (bytes * Z)) :=
  match state, req, resp, resp_len with
  | PTR, Some req, Some resp, Some n =>
      r ← dispatch req req_len resp resp_cap n;
      mret (hr_rc r, Some (hr_resp r, hr_len r))
  | _, _, _, _ => mret (-1, None)
  end.
End handlers.
