(* ===== verification/UdsSpec.v ===== *)
(** An abstract UDS server: what each service promises, stated on messages
    as byte lists and on the ECU's data without arrays, buffers, capacities
    of arrays or field encodings.  [Uds.v] is proved to implement it in
    [UdsRefine.v]. *)

From S2P Require Import Prelude Effects UdsTypes DtcMem DidTable AppEngine Security Vecu.

(** * Abstract ECU *)

Record aecu := AEcu {
  a_session : Z;
  a_last_tp : Z;
  a_dids : list did_entry;
  a_engine : app_engine_t;
  a_dtcs : list dtc_entry_t;
  a_mask : Z;
  a_phase : phase;
  a_owner : bytes;
  a_owner_ref : ptr;
  a_app_ref : ptr
}.

Definition abs (e : ecu_t) : aecu :=
  let s := state e in
  AEcu (session s) (last_tester_present_ms s) (registered (dids s)) (app s)
    (stored (dtcs s)) (availability_mask (dtcs s)) (phase_of (security s)) (owner e)
    (g_state_for_owner e) (g_app e).

Definition with_session v t a := AEcu v t (a_dids a) (a_engine a) (a_dtcs a) (a_mask a)
  (a_phase a) (a_owner a) (a_owner_ref a) (a_app_ref a).
Definition with_engine v a := AEcu (a_session a) (a_last_tp a) (a_dids a) v (a_dtcs a) (a_mask a)
  (a_phase a) (a_owner a) (a_owner_ref a) (a_app_ref a).
Definition with_dtcs v a := AEcu (a_session a) (a_last_tp a) (a_dids a) (a_engine a) v (a_mask a)
  (a_phase a) (a_owner a) (a_owner_ref a) (a_app_ref a).
Definition with_phase v a := AEcu (a_session a) (a_last_tp a) (a_dids a) (a_engine a) (a_dtcs a)
  (a_mask a) v (a_owner a) (a_owner_ref a) (a_app_ref a).
Definition with_owner v a := AEcu (a_session a) (a_last_tp a) (a_dids a) (a_engine a) (a_dtcs a)
  (a_mask a) (a_phase a) v (a_owner_ref a) (a_app_ref a).

(** * Replies *)

(** [Positive sup args]: the response [SID+0x40, args], not to be sent when
    [sup]; [Dropped]: the request is discarded. *)
Inductive reply : Type :=
| Positive (sup : bool) (args : bytes)
| Negative (nrc : uds_nrc_t)
| Dropped.

#[export] Instance reply_eq_dec : EqDecision reply.
Proof. solve_decision. Defined.

Definition reply_bytes (sid : Z) (r : reply) : bytes :=
  match r with
  | Positive _ args => UDS_POS_RESP sid :: args
  | Negative nrc => [UDS_NEGATIVE_RESPONSE; sid; nrc_code nrc]
  | Dropped => []
  end.

Definition reply_rc (r : reply) : Z :=
  match r with
  | Positive sup _ => if sup then 1 else 0
  | Negative _ => 0
  | Dropped => -1
  end.

(** * Encodings *)

Definition be16 (v : Z) : bytes := [v / 2 ^ 8 mod 2 ^ 8; v mod 2 ^ 8].
Definition be24 (v : Z) : bytes := [v / 2 ^ 16 mod 2 ^ 8; v / 2 ^ 8 mod 2 ^ 8; v mod 2 ^ 8].
Definition be32 (v : Z) : bytes :=
  [v / 2 ^ 24 mod 2 ^ 8; v / 2 ^ 16 mod 2 ^ 8; v / 2 ^ 8 mod 2 ^ 8; v mod 2 ^ 8].
Definition of_be (l : bytes) : Z := foldl (λ acc b, acc * 2 ^ 8 + b) 0 l.

Definition encode_dtc (e : dtc_entry_t) : bytes := be24 (dtc e) ++ [status e].
Definition encode_dtcs (es : list dtc_entry_t) : bytes := concat (map encode_dtc es).

(** * Services *)

Definition extended (a : aecu) : bool :=
  bool_decide (a_session a = UDS_SESSION_EXTENDED ∨ a_session a = UDS_SESSION_PROGRAMMING).

(** The value behind a DID. *)
Definition a_value (f : did_read_fn) (a : aecu) : option bytes :=
  match f with
  | owner_read_fn => if is_null (a_owner_ref a) then None else Some (a_owner a)
  | app_read_rpm_fn => if is_null (a_app_ref a) then None else Some (rpm_payload (a_engine a))
  | app_read_speed_fn => if is_null (a_app_ref a) then None else Some (speed_payload (a_engine a))
  | app_read_coolant_fn => if is_null (a_app_ref a) then None else Some (coolant_payload (a_engine a))
  end.

Section services.
(** The capacity the caller offers, the time, and the seed that would be
    drawn. *)
Variables (cap now seed : Z).

Definition spec_session (args : bytes) (a : aecu) : reply * aecu :=
  match args with
  | [raw] =>
      let sub := raw mod 128 in
      if bool_decide (session_ok sub) then
        (if cap <? 6 then Dropped else Positive (128 <=? raw) [sub; 0x00; 0x32; 0x01; 0xF4],
         with_session sub now a)
      else (Negative UDS_NRC_SUB_FUNCTION_NOT_SUPPORTED, a)
  | _ => (Negative UDS_NRC_INCORRECT_MESSAGE_LENGTH, a)
  end.

Definition spec_reset (args : bytes) (a : aecu) : reply * aecu :=
  match args with
  | [raw] =>
      let sub := raw mod 128 in
      if (1 <=? sub) && (sub <=? 3) then
        (Positive (128 <=? raw) [sub], with_phase (Idle 0) (with_session UDS_SESSION_DEFAULT now a))
      else (Negative UDS_NRC_SUB_FUNCTION_NOT_SUPPORTED, a)
  | _ => (Negative UDS_NRC_INCORRECT_MESSAGE_LENGTH, a)
  end.

Definition spec_clear_dtc (args : bytes) (a : aecu) : reply * aecu :=
  match args with
  | [g1; g2; g3] =>
      if bool_decide (args = [0xFF; 0xFF; 0xFF]) then (Positive false [], with_dtcs [] a)
      else (Negative UDS_NRC_REQUEST_OUT_OF_RANGE, a)
  | _ => (Negative UDS_NRC_INCORRECT_MESSAGE_LENGTH, a)
  end.

Definition spec_read_dtc (args : bytes) (a : aecu) : reply :=
  match args with
  | [] => Negative UDS_NRC_INCORRECT_MESSAGE_LENGTH
  | raw :: rest =>
      if negb (raw mod 128 =? 2) then Negative UDS_NRC_SUB_FUNCTION_NOT_SUPPORTED else
      match rest with
      | [mask] =>
          let es := filter (λ e, matches mask e = true) (a_dtcs a) in
          if cap <? 3 + 4 * len es then Negative UDS_NRC_RESPONSE_TOO_LONG
          else Positive (128 <=? raw) ([2; a_mask a] ++ encode_dtcs es)
      | _ => Negative UDS_NRC_INCORRECT_MESSAGE_LENGTH
      end
  end.

Definition spec_read_did (args : bytes) (a : aecu) : reply :=
  match args with
  | [hi; lo] =>
      match find_did (of_be [hi; lo]) (a_dids a) with
      | None => Negative UDS_NRC_REQUEST_OUT_OF_RANGE
      | Some e =>
          let answer payload :=
            if cap <? 3 + len payload then Negative UDS_NRC_RESPONSE_TOO_LONG
            else Positive false (args ++ payload) in
          match static_data e, read e ≫= λ f, a_value f a with
          | Some data, _ =>
              if 256 <? static_len e then Dropped
              else answer (take (Z.to_nat (static_len e)) data)
          | None, Some payload => answer payload
          | None, None => Negative UDS_NRC_CONDITIONS_NOT_CORRECT
          end
      end
  | _ => Negative UDS_NRC_INCORRECT_MESSAGE_LENGTH
  end.

(** A security operation of level 1 answered over the bus. *)
Definition sec_answer (sup : bool) (sub : Z) (r : sec_reply) : reply :=
  match r with
  | SeedIs s => Positive sup (sub :: be32 s)
  | AlreadyUnlocked => Positive sup (sub :: be32 0)
  | KeyAccepted => Positive sup [sub]
  | Refused nrc => Negative nrc
  end.

Definition spec_security (args : bytes) (a : aecu) : reply * aecu :=
  match args with
  | [] => (Negative UDS_NRC_INCORRECT_MESSAGE_LENGTH, a)
  | raw :: rest =>
      let sub := raw mod 128 in
      let answer (rp : sec_reply * phase) :=
        (sec_answer (128 <=? raw) sub rp.1, with_phase rp.2 a) in
      if negb (extended a) then (Negative UDS_NRC_SERVICE_NOT_SUPPORTED_IN_SESSION, a)
      else if sub mod 2 =? 1 then
        match rest with
        | [] =>
            if sub =? 1 then answer (phase_request now seed (a_phase a))
            else (Negative UDS_NRC_SUB_FUNCTION_NOT_SUPPORTED, a)
        | _ => (Negative UDS_NRC_INCORRECT_MESSAGE_LENGTH, a)
        end
      else
        match rest with
        | [k0; k1; k2; k3] =>
            if sub =? 2 then answer (phase_key now (of_be rest) (a_phase a))
            else (Negative UDS_NRC_SUB_FUNCTION_NOT_SUPPORTED, a)
        | _ => (Negative UDS_NRC_INCORRECT_MESSAGE_LENGTH, a)
        end
  end.

Definition spec_write_did (args : bytes) (a : aecu) : reply * aecu :=
  match args with
  | hi :: lo :: (_ :: _) as data =>
      match find_did (of_be [hi; lo]) (a_dids a) with
      | Some e =>
          match write e with
          | None => (Negative UDS_NRC_REQUEST_OUT_OF_RANGE, a)
          | Some owner_write_fn =>
              if requires_extended_session e && negb (extended a) then
                (Negative UDS_NRC_SERVICE_NOT_SUPPORTED_IN_SESSION, a)
              else if requires_security e && negb (bool_decide (a_phase a = Open)) then
                (Negative UDS_NRC_SECURITY_ACCESS_DENIED, a)
              else if is_null (a_owner_ref a) || negb (write_accepts data) then
                (Negative UDS_NRC_CONDITIONS_NOT_CORRECT, a)
              else (Positive false [hi; lo], with_owner data a)
          end
      | None => (Negative UDS_NRC_REQUEST_OUT_OF_RANGE, a)
      end
  | _ => (Negative UDS_NRC_INCORRECT_MESSAGE_LENGTH, a)
  end.

Definition spec_tester_present (args : bytes) (a : aecu) : reply * aecu :=
  match args with
  | [raw] =>
      if raw mod 128 =? 0 then
        (Positive (128 <=? raw) [0], with_session (a_session a) now a)
      else (Negative UDS_NRC_SUB_FUNCTION_NOT_SUPPORTED, a)
  | _ => (Negative UDS_NRC_INCORRECT_MESSAGE_LENGTH, a)
  end.

(** The server: one request message. *)
Definition spec_request (msg : bytes) (a : aecu) : reply * aecu :=
  match msg with
  | [] => (Dropped, a)
  | sid :: args =>
      if sid =? 0x10 then spec_session args a
      else if sid =? 0x11 then spec_reset args a
      else if sid =? 0x14 then spec_clear_dtc args a
      else if sid =? 0x19 then (spec_read_dtc args a, a)
      else if sid =? 0x22 then (spec_read_did args a, a)
      else if sid =? 0x27 then spec_security args a
      else if sid =? 0x2E then spec_write_did args a
      else if sid =? 0x3E then spec_tester_present args a
      else (Negative UDS_NRC_SERVICE_NOT_SUPPORTED, a)
  end.
End services.

(** * Encodings round-trip *)

Lemma be16_range v : Forall is_byte (be16 v).
Proof. repeat constructor; apply Z.mod_pos_bound; lia. Qed.
Lemma be24_range v : Forall is_byte (be24 v).
Proof. repeat constructor; apply Z.mod_pos_bound; lia. Qed.
Lemma be32_range v : Forall is_byte (be32 v).
Proof. repeat constructor; apply Z.mod_pos_bound; lia. Qed.

Lemma of_be16 v : 0 <= v < 2 ^ 16 → of_be (be16 v) = v.
Proof. intros. unfold of_be, be16. cbn [foldl]. Z.div_mod_to_equations. lia. Qed.
Lemma of_be24 v : 0 <= v < 2 ^ 24 → of_be (be24 v) = v.
Proof. intros. unfold of_be, be24. cbn [foldl]. Z.div_mod_to_equations. lia. Qed.
Lemma of_be32 v : 0 <= v < 2 ^ 32 → of_be (be32 v) = v.
Proof. intros. unfold of_be, be32. cbn [foldl]. Z.div_mod_to_equations. lia. Qed.

Lemma be16_of_be hi lo : is_byte hi → is_byte lo → be16 (of_be [hi; lo]) = [hi; lo].
Proof.
  unfold is_byte. intros. unfold of_be, be16. cbn [foldl].
  f_equal; [|f_equal]; Z.div_mod_to_equations; lia.
Qed.

Lemma be32_of_be a b c d :
  is_byte a → is_byte b → is_byte c → is_byte d → be32 (of_be [a; b; c; d]) = [a; b; c; d].
Proof.
  unfold is_byte. intros. unfold of_be, be32. cbn [foldl].
  repeat f_equal; Z.div_mod_to_equations; lia.
Qed.

Lemma encode_dtcs_len es : len (encode_dtcs es) = 4 * len es.
Proof.
  unfold encode_dtcs. induction es as [|e es IH]; [done|].
  cbn [map concat]. rewrite len_app, IH, len_cons. unfold encode_dtc, be24, len. simpl. lia.
Qed.
