(* ===== verification/Services.v ===== *)
(** The abstract server of [UdsSpec.v] under interference: each service as
    a sequence of atomic actions on the abstract ECU, between which other
    threads may act.  There is one action for each critical section of the
    service, so that the code can be compared with it section by section
    ([UdsRefine.v]); alone, a service does what [spec_request] says. *)

From S2P Require Import Prelude Effects UdsTypes DtcMem DidTable AppEngine Security Vecu UdsSpec.

Abbreviation aprog := (prog () aecu).

Section services.
Context {E : Env}.

(** ** Actions *)

Definition atomically {S A} (f : cs S A) : prog () S A := crit () f.
Definition observe {A} (f : aecu → A) : aprog A := atomically (gets f).

Definition act_session (v : Z) : aprog () :=
  atomically (now ← vecu_now_ms; modify (with_session v now)).
Definition act_tester_present : aprog () :=
  atomically (now ← vecu_now_ms; modify (λ a, with_session (a_session a) now a)).
Definition act_reset : aprog () := atomically (modify (with_phase (Idle 0))).
Definition act_relock : aprog () := atomically (modify (λ a, with_phase (phase_relock (a_phase a)) a)).
Definition act_clear : aprog () := atomically (modify (with_dtcs [])).
Definition act_owner (name : bytes) : aprog () := atomically (modify (with_owner name)).

(** requestSeed and sendKey: the clock is read in a lock-out, and when the
    third wrong key starts one; a seed is drawn when one is given. *)
Definition act_request : aprog sec_reply :=
  atomically (λ w,
    let '(r, p) := phase_request (now_at w) (drawn_seed (draws w)) (a_phase (obj w)) in
    Done (r, World (with_phase p (obj w)) (request_reads (a_phase (obj w)) + readings w) (request_draws r + draws w))).
Definition act_key (key : Z) : aprog sec_reply :=
  atomically (λ w,
    let '(r, p) := phase_key (now_at w) key (a_phase (obj w)) in
    Done (r, World (with_phase p (obj w)) (key_reads r + readings w) (draws w))).

(** The value behind a DID: the back-reference, then the data. *)
Definition act_read (f : did_read_fn) : aprog (option bytes) :=
  match f with
  | owner_read_fn =>
      g ← observe a_owner_ref;
      if is_null g then mret None else v ← observe a_owner; mret (Some v)
  | app_read_rpm_fn =>
      g ← observe a_app_ref;
      if is_null g then mret None else v ← observe (λ a, rpm_payload (a_engine a)); mret (Some v)
  | app_read_speed_fn =>
      g ← observe a_app_ref;
      if is_null g then mret None else v ← observe (λ a, speed_payload (a_engine a)); mret (Some v)
  | app_read_coolant_fn =>
      g ← observe a_app_ref;
      if is_null g then mret None else v ← observe (λ a, coolant_payload (a_engine a)); mret (Some v)
  end.

(** Writing DID F200: whether the name was taken. *)
Definition act_write (name : bytes) : aprog bool :=
  g ← observe a_owner_ref;
  if is_null g || negb (write_accepts name) then mret false else act_owner name;; mret true.

(** ** Services *)

Variable cap : Z.

Definition svc_session (args : bytes) : aprog reply :=
  match args with
  | [raw] =>
      let sub := raw mod 128 in
      if bool_decide (session_ok sub) then
        act_session sub;;
        mret (if cap <? 6 then Dropped else Positive (128 <=? raw) [sub; 0x00; 0x32; 0x01; 0xF4])
      else mret (Negative UDS_NRC_SUB_FUNCTION_NOT_SUPPORTED)
  | _ => mret (Negative UDS_NRC_INCORRECT_MESSAGE_LENGTH)
  end.

Definition svc_reset (args : bytes) : aprog reply :=
  match args with
  | [raw] =>
      let sub := raw mod 128 in
      if (1 <=? sub) && (sub <=? 3) then
        act_session UDS_SESSION_DEFAULT;;
        act_reset;;
        mret (Positive (128 <=? raw) [sub])
      else mret (Negative UDS_NRC_SUB_FUNCTION_NOT_SUPPORTED)
  | _ => mret (Negative UDS_NRC_INCORRECT_MESSAGE_LENGTH)
  end.

Definition svc_clear_dtc (args : bytes) : aprog reply :=
  match args with
  | [g1; g2; g3] =>
      if bool_decide (args = [0xFF; 0xFF; 0xFF]) then act_clear;; mret (Positive false [])
      else mret (Negative UDS_NRC_REQUEST_OUT_OF_RANGE)
  | _ => mret (Negative UDS_NRC_INCORRECT_MESSAGE_LENGTH)
  end.

Definition svc_read_dtc (args : bytes) : aprog reply :=
  match args with
  | [] => mret (Negative UDS_NRC_INCORRECT_MESSAGE_LENGTH)
  | raw :: rest =>
      if negb (raw mod 128 =? 2) then mret (Negative UDS_NRC_SUB_FUNCTION_NOT_SUPPORTED) else
      match rest with
      | [mask] =>
          es ← observe (λ a, filter (λ e, matches mask e = true) (a_dtcs a));
          if cap <? 3 + 4 * len es then mret (Negative UDS_NRC_RESPONSE_TOO_LONG) else
          m ← observe a_mask;
          mret (Positive (128 <=? raw) ([2; m] ++ encode_dtcs es))
      | _ => mret (Negative UDS_NRC_INCORRECT_MESSAGE_LENGTH)
      end
  end.

Definition did_answer (args payload : bytes) : reply :=
  if cap <? 3 + len payload then Negative UDS_NRC_RESPONSE_TOO_LONG else Positive false (args ++ payload).

Definition svc_read_did (args : bytes) : aprog reply :=
  match args with
  | [hi; lo] =>
      e ← observe (λ a, find_did (of_be [hi; lo]) (a_dids a));
      match e with
      | None => mret (Negative UDS_NRC_REQUEST_OUT_OF_RANGE)
      | Some e =>
          match static_data e, read e with
          | Some data, _ =>
              mret (if 256 <? static_len e then Dropped
                    else did_answer args (take (Z.to_nat (static_len e)) data))
          | None, Some f =>
              v ← act_read f;
              mret (match v with Some v => did_answer args v | None => Negative UDS_NRC_CONDITIONS_NOT_CORRECT end)
          | None, None => mret (Negative UDS_NRC_CONDITIONS_NOT_CORRECT)
          end
      end
  | _ => mret (Negative UDS_NRC_INCORRECT_MESSAGE_LENGTH)
  end.

Definition svc_security (args : bytes) : aprog reply :=
  match args with
  | [] => mret (Negative UDS_NRC_INCORRECT_MESSAGE_LENGTH)
  | raw :: rest =>
      let sub := raw mod 128 in
      ext ← observe extended;
      if negb ext then mret (Negative UDS_NRC_SERVICE_NOT_SUPPORTED_IN_SESSION)
      else if sub mod 2 =? 1 then
        match rest with
        | [] =>
            if sub =? 1 then r ← act_request; mret (sec_answer (128 <=? raw) sub r)
            else mret (Negative UDS_NRC_SUB_FUNCTION_NOT_SUPPORTED)
        | _ => mret (Negative UDS_NRC_INCORRECT_MESSAGE_LENGTH)
        end
      else
        match rest with
        | [k0; k1; k2; k3] =>
            if sub =? 2 then r ← act_key (of_be rest); mret (sec_answer (128 <=? raw) sub r)
            else mret (Negative UDS_NRC_SUB_FUNCTION_NOT_SUPPORTED)
        | _ => mret (Negative UDS_NRC_INCORRECT_MESSAGE_LENGTH)
        end
  end.

(** What an entry does not require is not looked at. *)
Definition required (b : bool) (p : aprog bool) : aprog bool := if b then p else mret true.

Definition svc_write_did (args : bytes) : aprog reply :=
  match args with
  | hi :: lo :: (_ :: _) as data =>
      e ← observe (λ a, find_did (of_be [hi; lo]) (a_dids a));
      match e ≫= λ e, (e,.) <$> write e with
      | None => mret (Negative UDS_NRC_REQUEST_OUT_OF_RANGE)
      | Some (e, owner_write_fn) =>
          ext ← required (requires_extended_session e) (observe extended);
          if negb ext then mret (Negative UDS_NRC_SERVICE_NOT_SUPPORTED_IN_SESSION) else
          op ← required (requires_security e) (observe (λ a, bool_decide (a_phase a = Open)));
          if negb op then mret (Negative UDS_NRC_SECURITY_ACCESS_DENIED) else
          ok ← act_write data;
          mret (if ok : bool then Positive false [hi; lo] else Negative UDS_NRC_CONDITIONS_NOT_CORRECT)
      end
  | _ => mret (Negative UDS_NRC_INCORRECT_MESSAGE_LENGTH)
  end.

Definition svc_tester_present (args : bytes) : aprog reply :=
  match args with
  | [raw] =>
      if raw mod 128 =? 0 then act_tester_present;; mret (Positive (128 <=? raw) [0])
      else mret (Negative UDS_NRC_SUB_FUNCTION_NOT_SUPPORTED)
  | _ => mret (Negative UDS_NRC_INCORRECT_MESSAGE_LENGTH)
  end.

Definition service (msg : bytes) : aprog reply :=
  match msg with
  | [] => mret Dropped
  | sid :: args =>
      if sid =? 0x10 then svc_session args
      else if sid =? 0x11 then svc_reset args
      else if sid =? 0x14 then svc_clear_dtc args
      else if sid =? 0x19 then svc_read_dtc args
      else if sid =? 0x22 then svc_read_did args
      else if sid =? 0x27 then svc_security args
      else if sid =? 0x2E then svc_write_did args
      else if sid =? 0x3E then svc_tester_present args
      else mret (Negative UDS_NRC_SERVICE_NOT_SUPPORTED)
  end.
End services.

(** * Alone *)

Section alone.
Context {E : Env}.
Implicit Types v : world aecu.

(** A program that run alone gives [out] in at most one reading of the clock. *)
Definition gives (p : aprog reply) v (out : reply * aecu) : Prop :=
  ∃ v', run p v = Done (out.1, v') ∧ obj v' = out.2 ∧ (readings v <= readings v' <= S (readings v))%nat.

Lemma gives_ret v r a : obj v = a → gives (mret r) v (r, a).
Proof. intros <-. exists v. split; [done|]. split; [done|lia]. Qed.

Lemma gives_observe {A} (f : aecu → A) k v out : gives (k (f (obj v))) v out → gives (observe f ≫= k) v out.
Proof. intros (v' & Hr & Hv). by exists v'. Qed.

(** One step through a service run alone. *)
Ltac alone :=
  repeat first
    [ progress cbv zeta
    | match goal with |- gives (mret _) _ (_, _) => by apply gives_ret end
    | match goal with |- gives (observe _ ≫= _) _ _ => apply gives_observe end
    | match goal with |- gives (if ?b then _ else _) _ _ => destruct b eqn:? end ].

Lemma read_alone f (k : option bytes → aprog reply) v out : gives (k (a_value f (obj v))) v out → gives (act_read f ≫= k) v out.
Proof.
  intros Hk. destruct f; unfold act_read; apply gives_observe; simpl in Hk;
    (destruct (is_null _); [exact Hk|]); by apply gives_observe.
Qed.

Lemma security_alone args v :
  gives (svc_security args) v (spec_security (now_at v) (drawn_seed (draws v)) args (obj v)).
Proof.
  unfold svc_security, spec_security. destruct args as [|raw rest]; [alone|]. apply gives_observe.
  destruct (negb (extended (obj v))); [alone|]. destruct (raw mod 128 mod 2 =? 1).
  - destruct rest; [|alone]. destruct (_ =? 1); [|alone].
    destruct (phase_request _ _ _) as [r p] eqn:Hp.
    eexists. split; [unfold act_request, atomically; simpl; by rewrite Hp|]. split; [done|].
    simpl. unfold request_reads. destruct (a_phase _); lia.
  - destruct rest as [|k0 [|k1 [|k2 [|k3 [|x rest]]]]]; [alone|alone|alone|alone| |alone].
    destruct (_ =? 2); [|alone].
    destruct (phase_key _ _ _) as [r p] eqn:Hp.
    eexists. split; [unfold act_key, atomically; cbn -[of_be phase_key]; by rewrite Hp|]. split; [done|].
    simpl. destruct r as [| | |[]]; simpl; lia.
Qed.

Lemma required_alone (b : bool) (f : aecu → bool) (k : bool → aprog reply) v out :
  gives (k (if b then f (obj v) else true)) v out → gives (required b (observe f) ≫= k) v out.
Proof. destruct b; [apply gives_observe|done]. Qed.

Lemma write_alone data (r1 r2 : reply) v :
  gives (act_write data ≫= λ ok : bool, mret (if ok then r1 else r2)) v
    (if is_null (a_owner_ref (obj v)) || negb (write_accepts data) then (r2, obj v)
     else (r1, with_owner data (obj v))).
Proof.
  destruct (is_null (a_owner_ref (obj v)) || negb (write_accepts data)) eqn:Ht;
    (eexists; split; [unfold act_write; simpl; unfold gets; rewrite Ht; reflexivity|]; split; [done|simpl; lia]).
Qed.

Lemma write_did_alone args v : gives (svc_write_did args) v (spec_write_did args (obj v)).
Proof.
  unfold svc_write_did, spec_write_did. destruct args as [|hi [|lo [|d data]]]; [alone|alone|alone|].
  apply gives_observe. destruct (find_did _ _) as [e|]; cbn [mbind option_bind]; [|alone].
  destruct (write e) as [[]|]; cbn [fmap option_fmap option_map]; [|alone].
  apply required_alone. destruct (requires_extended_session e), (extended (obj v)); cbn [andb negb]; try alone;
    apply required_alone; destruct (requires_security e), (bool_decide (a_phase (obj v) = Open)); cbn [andb negb];
    first [apply write_alone | alone].
Qed.

(** Run alone, a service answers and moves the ECU as the abstract server. *)
Lemma service_alone cap msg v :
  gives (service cap msg) v (spec_request cap (now_at v) (drawn_seed (draws v)) msg (obj v)).
Proof.
  unfold service, spec_request. destruct msg as [|sid args]; [alone|].
  destruct (sid =? 0x10); [|destruct (sid =? 0x11); [|destruct (sid =? 0x14); [|destruct (sid =? 0x19);
    [|destruct (sid =? 0x22); [|destruct (sid =? 0x27); [apply security_alone|destruct (sid =? 0x2E);
    [apply write_did_alone|destruct (sid =? 0x3E); [|alone]]]]]]]].
  - unfold svc_session, spec_session. destruct args as [|raw [|]]; try alone.
    eexists. split; [reflexivity|]. split; [done|simpl; lia].
  - unfold svc_reset, spec_reset. destruct args as [|raw [|]]; try alone.
    eexists. split; [reflexivity|]. split; [done|simpl; lia].
  - unfold svc_clear_dtc, spec_clear_dtc. destruct args as [|g1 [|g2 [|g3 [|]]]]; try alone.
    eexists. split; [reflexivity|]. split; [done|simpl; lia].
  - unfold svc_read_dtc, spec_read_dtc. destruct args as [|raw [|mask [|x args]]]; [alone|..]; destruct (negb _); alone.
  - unfold svc_read_did, spec_read_did. destruct args as [|hi [|lo [|x args]]]; [alone|alone| |alone].
    apply gives_observe.
    destruct (find_did _ _) as [e|]; [|alone]. unfold did_answer. destruct (static_data e) as [data|]; [alone|].
    destruct (read e) as [f|]; [|alone]. apply read_alone. simpl. destruct (a_value f (obj v)); alone.
  - unfold svc_tester_present, spec_tester_present. destruct args as [|raw [|]]; try alone.
    eexists. split; [reflexivity|]. split; [done|simpl; lia].
Qed.
End alone.
