(* ===== verification/UdsRefine.v ===== *)
(** The dispatcher of [Uds.v] implements the abstract server: for every
    request and every response buffer the bytes written, the return code, the
    reported length and the new ECU state are those of the specification.

    This is shown section by section: whatever other threads do in between,
    a handler does what the service of [Services.v] does.  Alone, it does what
    [spec_request] says. *)

From S2P Require Import Prelude Effects Simulate UdsTypes DtcMem DidTable AppEngine Security Vecu Uds UdsSpec Services.

(** * Bit operations are arithmetic *)

Lemma hi_byte v : u8 (Z.shiftr v 8) = v / 2 ^ 8 mod 2 ^ 8.
Proof. unfold u8. by rewrite Z.shiftr_div_pow2 by lia. Qed.

Lemma shift_byte v n : 0 <= n → u8 (Z.shiftr v n) = v / 2 ^ n mod 2 ^ 8.
Proof. intros. unfold u8. by rewrite Z.shiftr_div_pow2 by lia. Qed.

Lemma mask_byte v : u8 (Z.land v 0xFF) = v mod 2 ^ 8.
Proof.
  unfold u8. change 0xFF with (Z.ones 8). rewrite Z.land_ones by lia.
  apply Z.mod_mod. lia.
Qed.

Lemma odd_bit v : (Z.land v 0x01 =? 0x01) = (v mod 2 =? 1).
Proof. change 0x01 with (Z.ones 1) at 1. by rewrite Z.land_ones by lia. Qed.

Lemma rd16_value a b :
  is_byte a → is_byte b → u16 (Z.lor (Z.shiftl a 8) b) = of_be [a; b].
Proof.
  unfold is_byte. intros Ha Hb. rewrite lor_shiftl_add by lia.
  unfold of_be. cbn [foldl]. rewrite u16_id; lia.
Qed.

Lemma rd32_value a b c d :
  is_byte a → is_byte b → is_byte c → is_byte d →
  Z.lor (Z.lor (Z.lor (u32 (Z.shiftl a 24)) (u32 (Z.shiftl b 16))) (u32 (Z.shiftl c 8))) d
  = of_be [a; b; c; d].
Proof.
  unfold is_byte. intros Ha Hb Hc Hd.
  rewrite !u32_id by (rewrite Z.shiftl_mul_pow2; lia).
  assert (E1 : Z.lor (Z.shiftl a 24) (Z.shiftl b 16) = Z.shiftl (a * 2 ^ 8 + b) 16).
  { rewrite <- (lor_shiftl_add a b 8) by lia. by rewrite Z.shiftl_lor, Z.shiftl_shiftl by lia. }
  rewrite E1.
  assert (E2 : Z.lor (Z.shiftl (a * 2 ^ 8 + b) 16) (Z.shiftl c 8)
               = Z.shiftl ((a * 2 ^ 8 + b) * 2 ^ 8 + c) 8).
  { rewrite <- (lor_shiftl_add (a * 2 ^ 8 + b) c 8) by lia.
    by rewrite Z.shiftl_lor, Z.shiftl_shiftl by lia. }
  rewrite E2, lor_shiftl_add by lia. reflexivity.
Qed.

Lemma session_ok_test sub :
  (sub =? UDS_SESSION_DEFAULT) || (sub =? UDS_SESSION_PROGRAMMING) || (sub =? UDS_SESSION_EXTENDED)
  = bool_decide (session_ok sub).
Proof.
  unfold session_ok. symmetry.
  destruct (Z.eqb_spec sub UDS_SESSION_DEFAULT), (Z.eqb_spec sub UDS_SESSION_PROGRAMMING),
    (Z.eqb_spec sub UDS_SESSION_EXTENDED); simpl;
    (apply bool_decide_eq_true || apply bool_decide_eq_false); tauto.
Qed.

(** * Sections and actions *)

(** The code's program and the specification's. *)
Abbreviation ecu_sim := (sim (L:=lock) (L':=()) ecu_wf abs).

Section sections.
Context {E : Env} `{!ClockBounded E}.
Implicit Types w : world ecu_t.

(** A program of one section. *)
Definition single {A} (p : vprog A) : Prop :=
  match p with Crit _ _ k => ∀ b, ∃ a, k b = Ret a | _ => False end.

(** One that reads. *)
Lemma reads_with {A B C} (R : A → C → Prop) (p : vprog A) (g : aecu → B) (h : B → C) :
  single p → (∀ w, ecu_wf (obj w) → ∃ a, run p w = Done (a, w) ∧ R a (h (g (abs (obj w))))) →
  ecu_sim R p (v ← observe g; mret (h v)).
Proof.
  intros Hp Hr. destruct p as [a| |X l body k]; [done..|]. intros w Hw. destruct (Hr w Hw) as (a & Hrun & HR).
  simpl in Hrun. destruct (body w) as [[x w']| |]; [|done..]. destruct (Hp x) as [a' Hk]. rewrite Hk in *.
  injection Hrun as -> ->. split; [done|]. eexists. by split; [reflexivity|].
Qed.

Lemma reads_sim {A B} (R : A → B → Prop) (p : vprog A) g :
  single p → (∀ w, ecu_wf (obj w) → ∃ a, run p w = Done (a, w) ∧ R a (g (abs (obj w)))) →
  ecu_sim R p (observe g).
Proof. apply (reads_with R p g id). Qed.

Ltac single := simpl; intros; repeat case_match; eauto.

Lemma observe_sim {A} l (f : ecu_t → A) g :
  (∀ e, ecu_wf e → f e = g (abs e)) → ecu_sim eq (crit l (gets f)) (observe g).
Proof. intros Hf. apply reads_sim; [single|]. intros w Hw. exists (f (obj w)). auto. Qed.

Lemma get_session_run w : run vecu_get_session w = Done (session (state (obj w)), w).
Proof. done. Qed.

Lemma extended_test e :
  (session (state e) =? UDS_SESSION_EXTENDED) || (session (state e) =? UDS_SESSION_PROGRAMMING) = extended (abs e).
Proof.
  unfold extended. symmetry.
  destruct (Z.eqb_spec (session (state e)) UDS_SESSION_EXTENDED),
    (Z.eqb_spec (session (state e)) UDS_SESSION_PROGRAMMING); simpl;
    (apply bool_decide_eq_true || apply bool_decide_eq_false); tauto.
Qed.

Lemma is_extended_run w : run is_extended_session w = Done (extended (abs (obj w)), w).
Proof. unfold is_extended_session. rewrite run_bind, get_session_run, <- extended_test. done. Qed.

Lemma is_extended_sim : ecu_sim eq is_extended_session (observe extended).
Proof. intros w Hw. split; [done|]. eexists. split; [reflexivity|]. apply extended_test. Qed.

Lemma set_session_sim v : session_ok v → ecu_sim (λ _ _, True) (vecu_set_session v) (act_session v).
Proof.
  intros Hv w Hw. split; [destruct Hw; split; simpl; auto; apply u64_range|].
  eexists. by split; [reflexivity|].
Qed.

Lemma tester_present_sim : ecu_sim (λ _ _, True) vecu_mark_tester_present act_tester_present.
Proof.
  intros w Hw. split; [destruct Hw; split; simpl; auto; apply u64_range|].
  eexists. by split; [reflexivity|].
Qed.

Lemma reset_sim : ecu_sim (λ _ _, True) (on_security (crit Locked reset_security)) act_reset.
Proof.
  intros w Hw. split.
  - destruct (ewf_security _ Hw). destruct Hw; split; simpl; auto. security_wf_solve.
  - eexists. by split; [reflexivity|].
Qed.

Lemma clear_sim : ecu_sim (λ _ _, True) (on_dtcs (dtc_mem_clear_all PTR)) act_clear.
Proof.
  intros w Hw. split.
  - destruct (ewf_dtcs _ Hw). destruct Hw; split; simpl; auto.
    split; [done|by compute|apply dtc_entries_zero_wf|done].
  - eexists. by split; [reflexivity|].
Qed.

Lemma mask_sim : ecu_sim eq (on_dtcs (dtc_mem_availability_mask PTR)) (observe a_mask).
Proof.
  apply reads_sim; [single|]. intros w Hw. eexists. split; [|reflexivity].
  change (run (on_dtcs (dtc_mem_availability_mask PTR)) w = Done (a_mask (abs (obj w)), w)).
  rewrite run_on_dtcs. simpl. by rewrite (unzoom_zoom dtcs_lens).
Qed.

Lemma filter_len_le (P : dtc_entry_t → Prop) `{!∀ e, Decision (P e)} es :
  len (filter P es) <= len es.
Proof. unfold len. pose proof (length_filter P es). lia. Qed.

(** The entries found, at the start of the handler's array. *)
Definition snapshot_of (r : Z * option (list dtc_entry_t)) (es : list dtc_entry_t) : Prop :=
  Forall dtc_entry_wf es ∧ len es <= DTC_MAX ∧ ∃ rest, r = (len es, Some (es ++ rest)).

Lemma snapshot_sim mask :
  ecu_sim snapshot_of (on_dtcs (dtc_mem_snapshot_by_mask PTR mask (Some dtc_entries_zero) DTC_MAX))
    (observe (λ a, filter (λ e, matches mask e = true) (a_dtcs a))).
Proof.
  apply reads_sim; [single|]. intros w Hw. pose proof (ewf_dtcs _ Hw) as Hd.
  destruct (snapshot_locked_spec (dtcs (state (obj w))) mask DTC_MAX dtc_entries_zero Hd) as [rest Hrest]; [by compute|].
  rewrite snapshot_all in Hrest by done. eexists. split.
  { rewrite run_on_dtcs. unfold dtc_mem_snapshot_by_mask. simpl. cs_simpl. rewrite Hrest. simpl.
    by rewrite (unzoom_zoom dtcs_lens). }
  split; [|split; [|by exists rest]].
  - apply Forall_forall. intros e [_ He]%list_elem_of_filter.
    by apply (proj1 (Forall_forall _ _) (stored_wf _ Hd)).
  - pose proof (dwf_count _ Hd). etrans; [apply filter_len_le|]. cbn [abs a_dtcs]. rewrite stored_len by done. lia.
Qed.

Definition found (r r' : option did_entry) : Prop := r = r' ∧ ∀ e, r = Some e → did_entry_wf e.

Lemma lookup_sim d : ecu_sim found (lookup_did d) (observe (λ a, find_did d (a_dids a))).
Proof.
  apply reads_sim; [single|]. intros w Hw. eexists. split; [by apply lookup_did_run|]. split; [done|].
  intros e He. by apply (find_did_wf _ _ _ (ewf_dids _ Hw) He).
Qed.

(** The buffer of a read callback has two cells. *)
Ltac two_cells :=
  match goal with
  | H : _ <= _ <= len ?l |- _ => dec; destruct l as [|? [|? ?]]; rewrite ?len_cons, ?len_nil in H; (lia || single)
  end.

Lemma read_sim f buf cap :
  OWNER_NAME_CAP <= cap <= len buf → ecu_sim (λ r v, read_outcome buf v r) (call_read f (Some buf) cap PTR) (act_read f).
Proof.
  unfold OWNER_NAME_CAP. intros Hc. destruct f; unfold call_read, act_read.
  1-3: eapply sim_bind; [by apply observe_sim|]; intros g ? <-; destruct g; [done|]; cbn [is_null].
  - apply reads_with; [unfold on_app, app_read_rpm; by two_cells|]. intros w Hw.
    destruct (app_read_rpm_run (zoom_world app_lens w) buf cap) as (r & Hr & Hd); [lia|lia|].
    exists r. by rewrite run_on_app, Hr, unzoom_zoom by apply _.
  - apply reads_with; [unfold on_app, app_read_speed; by two_cells|]. intros w Hw.
    destruct (app_read_speed_run (zoom_world app_lens w) buf cap) as (r & Hr & Hd); [lia|lia|].
    exists r. by rewrite run_on_app, Hr, unzoom_zoom by apply _.
  - apply reads_with; [unfold on_app, app_read_coolant; by two_cells|]. intros w Hw.
    destruct (app_read_coolant_run (zoom_world app_lens w) buf cap) as (r & Hr & Hd); [apply Hw|lia|lia|].
    exists r. by rewrite run_on_app, Hr, unzoom_zoom by apply _.
  - unfold owner_read. eapply sim_bind; [by apply observe_sim|]. intros g ? <-. destruct g; [done|]. cbn [is_null].
    apply reads_with; [single|]. intros w Hw. pose proof (ewf_owner_len _ Hw) as Hol. unfold OWNER_NAME_CAP in Hol.
    simpl. cs_simpl. rewrite Z.gtb_ltb. dec.
    destruct (owner_copy (obj w) buf Hw) as (rest & -> & Hlen); [unfold OWNER_NAME_CAP; lia|].
    eexists. split; [done|]. split; [done|]. simpl. split; [by rewrite owner_len_eq|by exists rest].
Qed.

Lemma write_sim data junk :
  Forall is_byte data →
  ecu_sim (λ rc ok, rc = if ok : bool then 0 else -1) (owner_write (Some (data ++ junk)) (len data)) (act_write data).
Proof.
  intros Hb. unfold owner_write, act_write. eapply sim_bind; [by apply observe_sim|].
  intros g ? <-. destruct g; [done|]. cbn [is_null orb]. pose proof (len_nonneg data).
  unfold write_accepts. rewrite Z.gtb_ltb. destruct (Z.eqb_spec (len data) 0) as [->|Hne]; [done|].
  destruct (Z.ltb_spec OWNER_NAME_CAP (len data)) as [Hlt|Hge]; dec; cbn [negb orb andb]; [done|].
  intros w Hw. pose proof (ewf_owner_buf _ Hw) as Ho. cs_simpl. rewrite memcpy_prefix by lia. split.
  - apply (owner_written_wf data (obj w)); [done| |done]. unfold write_accepts. by dec.
  - eexists. split; [|done]. rewrite <- (owner_owner_written data (obj w)) at 1. reflexivity.
Qed.

Lemma unlocked_sim :
  ecu_sim eq (on_security (security_is_unlocked PTR 1)) (observe (λ a, bool_decide (a_phase a = Open))).
Proof.
  apply reads_sim; [single|]. intros w Hw. eexists. split.
  - rewrite run_on_security. simpl. by rewrite (unzoom_zoom sec_lens).
  - simpl. unfold phase_of. rewrite Z.geb_leb.
    destruct (1 <=? unlocked_level (security (state (obj w)))); [done|]. by repeat case_match.
Qed.

Lemma phase_request_reply now seed p : (phase_request now seed p).1 ≠ KeyAccepted.
Proof. unfold phase_request. by repeat case_match. Qed.

Lemma phase_key_reply now key p :
  (phase_key now key p).1 = KeyAccepted ∨ ∃ n, (phase_key now key p).1 = Refused n.
Proof. unfold phase_key. repeat case_match; eauto. Qed.

(** Security operations over the whole ECU. *)
Lemma abs_security w (w' : world security_state_t) :
  abs (obj (unzoom_world sec_lens w w')) = with_phase (phase_of (obj w')) (abs (obj w)).
Proof. done. Qed.

Lemma request_sim :
  ecu_sim (λ r s, r = reply_result s ∧ s ≠ KeyAccepted)
    (on_security (security_request_seed PTR 1 PTR PTR)) act_request.
Proof.
  intros w Hw. unfold zoom.
  destruct (request_seed_refines (zoom_world sec_lens w) (ewf_security _ Hw)) as (w1 & r & -> & Hph & Hwf1 & Hrd & Hdr).
  split; [by apply ecu_wf_sec|]. exists r. cbn [obj abs_world abs a_phase readings draws].
  change (now_at (abs_world abs w)) with (now_at (zoom_world sec_lens w)).
  pose proof (phase_request_reply (now_at (zoom_world sec_lens w)) (drawn_seed (draws w)) (phase_of (security (state (obj w))))) as Hr.
  change (obj (zoom_world sec_lens w)) with (security (state (obj w))) in *.
  change (draws (zoom_world sec_lens w)) with (draws w) in *. rewrite Hph in *.
  split; [|by split]. unfold abs_world. rewrite abs_security. simpl in *. by rewrite Hrd, Hdr.
Qed.

Lemma key_sim key :
  ecu_sim (λ r s, r = reply_result s ∧ (s = KeyAccepted ∨ ∃ n, s = Refused n))
    (on_security (security_send_key PTR 1 key PTR)) (act_key key).
Proof.
  intros w Hw. unfold zoom.
  destruct (send_key_refines (zoom_world sec_lens w) key (ewf_security _ Hw)) as (w1 & r & -> & Hph & Hwf1 & Hrd & Hdr).
  split; [by apply ecu_wf_sec|]. exists r. cbn [obj abs_world abs a_phase readings draws].
  change (now_at (abs_world abs w)) with (now_at (zoom_world sec_lens w)).
  pose proof (phase_key_reply (now_at (zoom_world sec_lens w)) key (phase_of (security (state (obj w))))) as Hr.
  change (obj (zoom_world sec_lens w)) with (security (state (obj w))) in *. rewrite Hph in *.
  split; [|by split]. unfold abs_world. rewrite abs_security. simpl in *. by rewrite Hrd, Hdr.
Qed.
End sections.

(** * Handlers and services *)

(** The buffer starts with the reply's bytes, the length and return code
    are the reply's, and the buffer keeps its size. *)
Definition conforms (sid : Z) (buf : bytes) (h : hret) (r : reply) : Prop :=
  hr_rc h = reply_rc r ∧ len (hr_resp h) = len buf ∧
  (r ≠ Dropped → hr_len h = len (reply_bytes sid r) ∧
                 ∃ rest, hr_resp h = reply_bytes sid r ++ rest).

Lemma sub_function_eq raw : is_byte raw → sub_function raw = raw mod 128.
Proof. apply sub_function_mod. Qed.

Lemma pos_rc_eq raw : is_byte raw → pos_rc raw = if 128 <=? raw then 1 else 0.
Proof. intros. unfold pos_rc. by rewrite suppressed_iff. Qed.

(** Decide the length tests of a handler on a request of known shape. *)
Ltac len_tests :=
  repeat match goal with
  | |- context [len (?l ++ _)] => rewrite len_app
  end;
  rewrite ?len_cons, ?len_nil;
  repeat match goal with
  | |- context [len ?l] => lazymatch goal with H : 0 <= len l |- _ => fail | _ => pose proof (len_nonneg l) end
  end;
  dec; cbn [negb andb orb].

(** The first cells of a response buffer. *)
Lemma buffer_cells (buf : bytes) :
  6 <= len buf → ∃ x0 x1 x2 x3 x4 x5 tl, buf = x0 :: x1 :: x2 :: x3 :: x4 :: x5 :: tl.
Proof.
  intros H. destruct buf as [|x0 [|x1 [|x2 [|x3 [|x4 [|x5 tl]]]]]];
    rewrite ?len_cons, ?len_nil in H; try lia.
  by exists x0, x1, x2, x3, x4, x5, tl.
Qed.

Section handlers.
Context {E : Env} `{!ClockBounded E}.

Definition answers_as (sid : Z) (buf : bytes) (p : vprog hret) (q : aprog reply) : Prop :=
  ecu_sim (conforms sid buf) p q.

Lemma reject_sim sid req nrc buf :
  6 <= len buf → answers_as sid buf (reject (sid :: req) (nrc_code nrc) buf) (mret (Negative nrc)).
Proof.
  intros (x0 & x1 & x2 & x3 & x4 & x5 & tl & ->)%buffer_cells. unfold answers_as. simpl. rewrite nrc_code_u8.
  split; [done|]. split; [done|]. intros _. split; [done|]. by eexists.
Qed.

(** Sequencing a section and its action with the rest. *)
Lemma answers_bind {A B} (R : A → B → Prop) sid buf (p : vprog A) (q : aprog B) k k' :
  ecu_sim R p q → (∀ a b, R a b → answers_as sid buf (k a) (k' b)) → answers_as sid buf (p ≫= k) (q ≫= k').
Proof. apply sim_bind. Qed.

Lemma answers_local {A} sid buf (o : outcome A) k q a :
  o = Done a → answers_as sid buf (k a) q → answers_as sid buf (local o ≫= k) q.
Proof. apply sim_local. Qed.

(** Local computation, and its end. *)
Lemma answers_step {A} sid buf (p : vprog A) k q a :
  p = mret a → answers_as sid buf (k a) q → answers_as sid buf (p ≫= k) q.
Proof. by intros ->. Qed.

Lemma answers_ret sid buf p h r : p = mret h → conforms sid buf h r → answers_as sid buf p (mret r).
Proof. by intros ->. Qed.

Ltac built := eapply answers_ret; [simpl; reflexivity|]; rewrite ?pos_rc_eq by done;
  split; [done|]; split; [done|]; intros _; split; [done|]; by eexists.

Section request.
Variables (cap n0 : Z).

(** 0x10 *)
Lemma h_session_control_sim sid args junk buf :
  Forall is_byte args → 3 <= cap <= len buf → 6 <= len buf →
  answers_as sid buf (h_session_control (sid :: args ++ junk) (len (sid :: args)) buf cap n0) (svc_session cap args).
Proof.
  intros Hargs Hcap Hbuf. unfold h_session_control, svc_session. destruct args as [|raw [|x l]].
  1,3: len_tests; by apply reject_sim.
  apply Forall_cons in Hargs as [Hraw _]. len_tests. eapply answers_local; [done|].
  rewrite sub_function_eq, session_ok_test by done.
  destruct (bool_decide (session_ok (raw mod 128))) eqn:Hok; [apply bool_decide_eq_true in Hok|by apply reject_sim].
  eapply answers_bind; [by apply set_session_sim|]. intros ? ? _.
  destruct (cap <? 6); [by eapply answers_ret|].
  destruct (buffer_cells buf Hbuf) as (x0 & x1 & x2 & x3 & x4 & x5 & tl & ->). built.
Qed.

(** 0x11 *)
Lemma h_ecu_reset_sim sid args junk buf :
  Forall is_byte args → 3 <= cap <= len buf → 6 <= len buf →
  answers_as sid buf (h_ecu_reset (sid :: args ++ junk) (len (sid :: args)) buf cap n0) (svc_reset args).
Proof.
  intros Hargs Hcap Hbuf. unfold h_ecu_reset, svc_reset. destruct args as [|raw [|x l]].
  1,3: len_tests; by apply reject_sim.
  apply Forall_cons in Hargs as [Hraw _]. len_tests. eapply answers_local; [done|].
  rewrite sub_function_eq by done.
  assert (Ht : (raw mod 128 !=? 0x01) && (raw mod 128 !=? 0x02) && (raw mod 128 !=? 0x03)
               = negb ((1 <=? raw mod 128) && (raw mod 128 <=? 3))) by (zb; lia || done).
  rewrite Ht. destruct ((1 <=? raw mod 128) && (raw mod 128 <=? 3)); cbn [negb]; [|by apply reject_sim].
  eapply answers_bind; [apply set_session_sim; by left|]. intros ? ? _.
  eapply answers_bind; [apply reset_sim|]. intros ? ? _.
  destruct (buffer_cells buf Hbuf) as (x0 & x1 & x2 & x3 & x4 & x5 & tl & ->). built.
Qed.

(** 0x14 *)
Lemma h_clear_dtc_sim sid args junk buf :
  Forall is_byte args → 3 <= cap <= len buf → 6 <= len buf →
  answers_as sid buf (h_clear_dtc (sid :: args ++ junk) (len (sid :: args)) buf cap n0) (svc_clear_dtc args).
Proof.
  intros Hargs Hcap Hbuf. unfold h_clear_dtc, svc_clear_dtc. destruct args as [|g1 [|g2 [|g3 [|x l]]]].
  1,2,3,5: len_tests; by apply reject_sim.
  len_tests. do 3 (eapply answers_local; [done|]).
  assert (Ht : (g1 =? 0xFF) && (g2 =? 0xFF) && (g3 =? 0xFF)
               = bool_decide ([g1; g2; g3] = [0xFF; 0xFF; 0xFF])).
  { symmetry. zb; (apply bool_decide_eq_true || apply bool_decide_eq_false); congruence. }
  rewrite Ht. destruct (bool_decide ([g1; g2; g3] = [0xFF; 0xFF; 0xFF])); cbn [negb]; [|by apply reject_sim].
  eapply answers_bind; [apply clear_sim|]. intros ? ? _.
  destruct (buffer_cells buf Hbuf) as (x0 & x1 & x2 & x3 & x4 & x5 & tl & ->). built.
Qed.

(** 0x3E *)
Lemma h_tester_present_sim sid args junk buf :
  Forall is_byte args → 3 <= cap <= len buf → 6 <= len buf →
  answers_as sid buf (h_tester_present (sid :: args ++ junk) (len (sid :: args)) buf cap n0) (svc_tester_present args).
Proof.
  intros Hargs Hcap Hbuf. unfold h_tester_present, svc_tester_present. destruct args as [|raw [|x l]].
  1,3: len_tests; by apply reject_sim.
  apply Forall_cons in Hargs as [Hraw _]. len_tests. eapply answers_local; [done|].
  rewrite sub_function_eq by done. destruct (Z.eqb_spec (raw mod 128) 0) as [H0|H0]; cbn [negb]; [|by apply reject_sim].
  eapply answers_bind; [apply tester_present_sim|]. intros ? ? _. rewrite H0.
  destruct (buffer_cells buf Hbuf) as (x0 & x1 & x2 & x3 & x4 & x5 & tl & ->). built.
Qed.

(** 0x19: the response loop appends the encoded entries. *)
Lemma write_dtcs_builds es : ∀ before rest hdr post,
  len hdr = 3 + 4 * len before → 4 * len es <= len post → Forall dtc_entry_wf es →
  ∃ post',
    write_dtcs (length es) (before ++ es ++ rest) (len before) (hdr ++ post)
      = mret ((hdr ++ encode_dtcs es) ++ post') ∧
    len ((hdr ++ encode_dtcs es) ++ post') = len (hdr ++ post).
Proof.
  induction es as [|e es IH]; intros before rest hdr post Hh Hp Hes.
  - exists post. simpl. by rewrite app_nil_r.
  - apply Forall_cons in Hes as [[Hd Hst] Hes]. rewrite len_cons in Hp.
    pose proof (len_nonneg es).
    destruct post as [|y0 [|y1 [|y2 [|y3 post]]]]; rewrite ?len_cons, ?len_nil in Hp; try lia.
    change ((e :: es) ++ rest) with (e :: es ++ rest).
    cbn [write_dtcs length]. rewrite (ld_app_mid before e) by done. simpl.
    rewrite (st_app_r hdr _ _ 0) by lia. simpl.
    rewrite (st_app_r hdr _ _ 1) by lia. simpl.
    rewrite (st_app_r hdr _ _ 2) by lia. simpl.
    rewrite (st_app_r hdr _ _ 3) by lia. simpl.
    destruct (IH (before ++ [e]) rest (hdr ++ encode_dtc e) post) as (post' & Hrun & Hlen).
    + rewrite !len_app, len_cons, len_nil. unfold encode_dtc, be24. simpl.
      rewrite !len_cons, len_nil. lia.
    + lia.
    + done.
    + exists post'. rewrite len_app, len_cons, len_nil, Z.add_0_r, <- !app_assoc in Hrun.
      simpl in Hrun. rewrite !mask_byte, !Z.shiftr_div_pow2 by lia. rewrite Hrun.
      assert (Henc : encode_dtcs (e :: es) = encode_dtc e ++ encode_dtcs es) by done.
      rewrite Henc, <- !app_assoc. split; [done|].
      rewrite !len_app in *. unfold encode_dtc, be24 in *. rewrite !len_app, !len_cons, ?len_nil in *.
      lia.
Qed.

Lemma h_read_dtc_sim sid args junk buf :
  Forall is_byte args → 3 <= cap <= len buf → 6 <= len buf →
  answers_as sid buf (h_read_dtc (sid :: args ++ junk) (len (sid :: args)) buf cap n0) (svc_read_dtc cap args).
Proof.
  intros Hargs Hcap Hbuf. unfold h_read_dtc, svc_read_dtc.
  destruct args as [|raw rest0]; [len_tests; by apply reject_sim|].
  apply Forall_cons in Hargs as [Hraw Hargs]. len_tests. eapply answers_local; [done|].
  rewrite sub_function_eq by done.
  destruct (Z.eqb_spec (raw mod 128) 2) as [Hsub|Hsub]; cbn [negb]; [|by apply reject_sim].
  destruct rest0 as [|mask [|x l]].
  1,3: len_tests; by apply reject_sim.
  len_tests. eapply answers_local; [done|].
  eapply answers_bind; [apply snapshot_sim|]. intros ? es (Hes & Hn & rest & ->). cbv beta iota zeta.
  pose proof (len_nonneg es). unfold DTC_MAX in Hn.
  assert (Hneed : u64 (3 + u64 (len es * 4)) = 3 + 4 * len es) by (rewrite (u64_id (_ * _)), u64_id; lia).
  rewrite Hneed. destruct (Z.ltb_spec cap (3 + 4 * len es)) as [Hlt|Hge]; [by apply reject_sim|].
  destruct (buffer_cells buf Hbuf) as (x0 & x1 & x2 & x3 & x4 & x5 & tl & ->).
  do 2 (eapply (answers_local _ _ (Done _)); [done|]).
  eapply answers_bind; [apply mask_sim|]. intros m ? <-. eapply answers_local; [done|].
  destruct (write_dtcs_builds es [] rest [UDS_POS_RESP sid; 2; m] (x3 :: x4 :: x5 :: tl)) as (post & Hrun & Hlen);
    [done| |done|].
  { rewrite !len_cons in *. lia. }
  rewrite to_nat_len, Hsub. eapply answers_step; [exact Hrun|].
  eapply answers_ret; [reflexivity|]. rewrite pos_rc_eq by done. split; [done|]. split; [exact Hlen|]. intros _.
  split; [|by exists post].
  cbn [hr_len]. unfold reply_bytes. rewrite len_cons, len_app, encode_dtcs_len, !len_cons, len_nil. lia.
Qed.

(** 0x22: the payload of an entry, in a buffer of 256 bytes. *)
Definition ready (v : bytes) (p : payload_result) : Prop :=
  ∃ rest, p = PayloadReady (v ++ rest) (len v) ∧ len (v ++ rest) = payload_size.

Lemma static_payload e data :
  static_data e = Some data → did_entry_wf e → 
  ∃ p, build_payload e = mret p ∧
    if 256 <? static_len e then p = PayloadDrop else ready (take (Z.to_nat (static_len e)) data) p.
Proof.
  intros Hd [_ He]. unfold build_payload. rewrite Hd in *. destruct He as [He _].
  rewrite Z.gtb_ltb. change payload_size with 256.
  destruct (Z.ltb_spec 256 (static_len e)) as [Hlt|Hge]; [by eexists|].
  assert (Hl : len (take (Z.to_nat (static_len e)) data) = static_len e) by (apply len_take; lia).
  pose proof (memcpy_prefix (replicate (Z.to_nat 256) 0) (take (Z.to_nat (static_len e)) data)
    (drop (Z.to_nat (static_len e)) data)) as Hm.
  rewrite take_drop, Hl, len_replicate in Hm. rewrite Hm by lia.
  eexists. split; [done|]. eexists. split; [by rewrite Hl|].
  rewrite len_app, Hl. unfold len. rewrite length_drop, length_replicate, length_take.
  unfold len in *. unfold payload_size. lia.
Qed.

Definition payload_is (p : payload_result) (v : option bytes) : Prop :=
  match v with Some v => ready v p | None => p = PayloadReject UDS_NRC_CONDITIONS_NOT_CORRECT end.

Lemma read_payload_sim e f :
  static_data e = None → read e = Some f → ecu_sim payload_is (build_payload e) (act_read f).
Proof.
  intros Hd Hf. unfold build_payload. rewrite Hd, Hf.
  eapply sim_post; [apply read_sim; by compute|]. intros r [v|] Hr; simpl in Hr.
  - destruct Hr as (-> & -> & rest & -> & Hlen). eexists. split; [done|]. by exists rest.
  - rewrite Hr. by eexists.
Qed.

Lemma answer_did_sim sid hi lo junk v rest buf :
  is_byte hi → is_byte lo → 3 <= cap <= len buf → 6 <= len buf → len (v ++ rest) = payload_size →
  answers_as sid buf (answer_did (sid :: [hi; lo] ++ junk) (of_be [hi; lo]) (v ++ rest) (len v) buf cap)
    (mret (did_answer cap [hi; lo] v)).
Proof.
  intros Hhi Hlo Hcap Hbuf Hlen. unfold answer_did, did_answer.
  pose proof (len_nonneg v). pose proof (len_nonneg rest).
  rewrite len_app in Hlen. unfold payload_size in Hlen. rewrite u64_id by lia.
  destruct (Z.ltb_spec cap (3 + len v)); [by apply reject_sim|].
  destruct (buffer_cells buf Hbuf) as (x0 & x1 & x2 & x3 & x4 & x5 & tl & ->).
  do 3 (eapply (answers_local _ _ (Done _)); [done|]).
  rewrite shift_byte, mask_byte by lia.
  pose proof (be16_of_be hi lo Hhi Hlo) as Hbe. unfold be16 in Hbe. injection Hbe as Hb1 Hb2.
  rewrite Hb1, Hb2. rewrite !len_cons in Hcap.
  eapply answers_local.
  { rewrite memcpy_defined by (rewrite ?len_cons, ?len_app; lia).
    rewrite drop_0, to_nat_len, take_app_length.
    by replace (Z.to_nat (3 + len v)) with (3 + length v)%nat by (unfold len; lia). }
  eapply answers_ret; [reflexivity|]. split; [done|]. split.
  - simpl. rewrite !len_cons, len_app. unfold len at 2. rewrite length_drop.
    simpl. unfold len in *. lia.
  - intros _. split; [simpl; rewrite !len_cons; lia|]. by eexists.
Qed.

Lemma h_read_did_sim sid args junk buf :
  Forall is_byte args → 3 <= cap <= len buf → 6 <= len buf →
  answers_as sid buf (h_read_did (sid :: args ++ junk) (len (sid :: args)) buf cap n0) (svc_read_did cap args).
Proof.
  intros Hargs Hcap Hbuf. unfold h_read_did, svc_read_did. destruct args as [|hi [|lo [|x l]]].
  1,2,4: len_tests; by apply reject_sim.
  apply Forall_cons in Hargs as [Hhi Hargs]. apply Forall_cons in Hargs as [Hlo _]. len_tests.
  eapply (answers_step _ _ _ _ _ (of_be [hi; lo])); [unfold rd16_be; simpl; by rewrite rd16_value|].
  eapply answers_bind; [apply lookup_sim|]. intros ? e [-> He]. destruct e as [e|]; [|by apply reject_sim].
  specialize (He e eq_refl). destruct (static_data e) as [data|] eqn:Hs.
  - destruct (static_payload e data Hs He) as (p & Hp & Hr). eapply answers_step; [exact Hp|].
    destruct (256 <? static_len e); [subst p; by eapply answers_ret|].
    destruct Hr as (rest & -> & Hlen). by apply answer_did_sim.
  - destruct (read e) as [f|] eqn:Hf.
    + eapply answers_bind; [by apply read_payload_sim|]. intros p [v|] Hp; simpl in Hp.
      * destruct Hp as (rest & -> & Hlen). by apply answer_did_sim.
      * subst p. by apply reject_sim.
    + unfold build_payload. rewrite Hs, Hf. by apply reject_sim.
Qed.

(** 0x27 *)
Lemma request_branch_sim sid raw junk buf :
  is_byte raw → 6 <= len buf →
  answers_as sid buf (
    r ← on_security (security_request_seed PTR (raw mod 128) PTR PTR);
    let seed := default 0 (sr_seed r) in
    let nrc := default 0 (nrc_code <$> sr_nrc r) in
    if sr_rc r =? -1 then reject (sid :: raw :: junk) nrc buf else
    resp ← store_pos_resp (sid :: raw :: junk) buf;
    resp ← local (st resp 1 (raw mod 128));
    resp ← wr32_be resp 2 seed;
    mret (Hret (pos_rc raw) resp 6))
    (if raw mod 128 =? 1 then r ← act_request; mret (sec_answer (128 <=? raw) (raw mod 128) r)
     else mret (Negative UDS_NRC_SUB_FUNCTION_NOT_SUPPORTED)).
Proof.
  intros Hraw Hbuf. destruct (Z.eqb_spec (raw mod 128) 1) as [Hsub|Hsub].
  - rewrite Hsub. eapply answers_bind; [apply request_sim|]. intros ? r [-> Hr]. cbv zeta.
    destruct r as [s| | |n]; [| |done|by apply (reject_sim sid (raw :: junk) n)];
      destruct (buffer_cells buf Hbuf) as (x0 & x1 & x2 & x3 & x4 & x5 & tl & ->);
      (eapply answers_ret; [simpl; reflexivity|]); rewrite pos_rc_eq by done; (split; [done|]); (split; [done|]); intros _.
    + rewrite !shift_byte by lia. split; [done|]. by eexists.
    + split; [done|]. by eexists.
  - unfold security_request_seed, level_supported. cbn [is_null orb]. dec. cbn [negb]. by apply reject_sim.
Qed.

Lemma key_branch_sim sid raw k0 k1 k2 k3 junk buf :
  is_byte raw → Forall is_byte [k0; k1; k2; k3] → 6 <= len buf →
  answers_as sid buf (
    key ← rd32_be (sid :: raw :: [k0; k1; k2; k3] ++ junk) 2;
    r ← on_security (security_send_key PTR (u8 (raw mod 128 - 1)) key PTR);
    let nrc := default 0 (nrc_code <$> sr_nrc r) in
    if sr_rc r !=? 0 then reject (sid :: raw :: [k0; k1; k2; k3] ++ junk) nrc buf else
    resp ← store_pos_resp (sid :: raw :: [k0; k1; k2; k3] ++ junk) buf;
    resp ← local (st resp 1 (raw mod 128));
    mret (Hret (pos_rc raw) resp 2))
    (if raw mod 128 =? 2 then
       r ← act_key (of_be [k0; k1; k2; k3]); mret (sec_answer (128 <=? raw) (raw mod 128) r)
     else mret (Negative UDS_NRC_SUB_FUNCTION_NOT_SUPPORTED)).
Proof.
  intros Hraw Hk Hbuf. rewrite !Forall_cons in Hk. destruct Hk as (Hk0 & Hk1 & Hk2 & Hk3 & _).
  eapply (answers_step _ _ _ _ _ (of_be [k0; k1; k2; k3])); [unfold rd32_be; simpl; by rewrite rd32_value|].
  destruct (Z.eqb_spec (raw mod 128) 2) as [Hsub|Hsub].
  - rewrite Hsub. change (u8 (2 - 1)) with 1. eapply answers_bind; [apply key_sim|]. intros ? r [-> Hr]. cbv zeta.
    destruct Hr as [->|[n ->]]; [|by apply (reject_sim sid (raw :: [k0; k1; k2; k3] ++ junk) n)].
    destruct (buffer_cells buf Hbuf) as (x0 & x1 & x2 & x3 & x4 & x5 & tl & ->). built.
  - unfold security_send_key, level_supported. cbn [is_null orb].
    assert (u8 (raw mod 128 - 1) ≠ 1).
    { pose proof (Z.mod_pos_bound raw 128). unfold u8.
      destruct (Z.eq_dec (raw mod 128) 0) as [->|]; [done|]. rewrite Z.mod_small; lia. }
    dec. cbn [negb]. by apply reject_sim.
Qed.

Lemma h_security_access_sim sid args junk buf :
  Forall is_byte args → 3 <= cap <= len buf → 6 <= len buf →
  answers_as sid buf (h_security_access (sid :: args ++ junk) (len (sid :: args)) buf cap n0) (svc_security args).
Proof.
  intros Hargs Hcap Hbuf. unfold h_security_access, svc_security.
  destruct args as [|raw rest]; [len_tests; by apply reject_sim|].
  apply Forall_cons in Hargs as [Hraw Hargs]. len_tests. eapply answers_local; [done|].
  rewrite sub_function_eq by done. eapply answers_bind; [apply is_extended_sim|]. intros ext ? <-.
  destruct ext; cbn [negb]; [|by apply reject_sim].
  rewrite odd_bit. destruct (Z.eqb_spec (raw mod 128 mod 2) 1) as [Hodd|Heven].
  - destruct rest as [|x rest]; len_tests; [by apply request_branch_sim|by apply reject_sim].
  - destruct rest as [|k0 [|k1 [|k2 [|k3 [|x rest]]]]].
    1-4,6: len_tests; by apply reject_sim.
    len_tests. by apply key_branch_sim.
Qed.

(** 0x2E *)
Lemma required_sim b p q : ecu_sim eq p q → ecu_sim eq (if b : bool then p else mret true) (required b q).
Proof. by destruct b. Qed.

Lemma h_write_did_sim sid args junk buf :
  Forall is_byte args → 3 <= cap <= len buf → 6 <= len buf →
  answers_as sid buf (h_write_did (sid :: args ++ junk) (len (sid :: args)) buf cap n0) (svc_write_did args).
Proof.
  intros Hargs Hcap Hbuf. unfold h_write_did, svc_write_did. destruct args as [|hi [|lo [|d data]]].
  1-3: len_tests; by apply reject_sim.
  apply Forall_cons in Hargs as [Hhi Hargs]. apply Forall_cons in Hargs as [Hlo Hdata]. len_tests.
  eapply (answers_step _ _ _ _ _ (of_be [hi; lo])); [unfold rd16_be; simpl; by rewrite rd16_value|].
  eapply answers_bind; [apply lookup_sim|]. intros ? e [-> _].
  destruct e as [e|]; cbn [mbind option_bind]; [|by apply reject_sim].
  destruct (write e) as [[]|]; cbn [fmap option_fmap option_map]; [|by apply reject_sim].
  eapply answers_bind; [apply required_sim, is_extended_sim|]. intros ext ? <-.
  destruct ext; cbn [negb]; [|by apply reject_sim].
  eapply answers_bind; [apply required_sim, unlocked_sim|]. intros op ? <-.
  destruct op; cbn [negb]; [|by apply reject_sim].
  change (drop 3 (sid :: (hi :: lo :: d :: data) ++ junk)) with ((d :: data) ++ junk).
  replace (1 + (1 + (1 + (1 + len data))) - 3) with (len (d :: data)) by (rewrite len_cons; lia).
  eapply answers_bind; [by apply write_sim|]. intros ? ok ->.
  destruct ok; cbn [negb Z.eqb]; [|by apply reject_sim].
  destruct (buffer_cells buf Hbuf) as (x0 & x1 & x2 & x3 & x4 & x5 & tl & ->).
  eapply answers_ret; [simpl; reflexivity|]. rewrite shift_byte, mask_byte by lia.
  pose proof (be16_of_be hi lo Hhi Hlo) as Hbe. unfold be16 in Hbe. injection Hbe as Hb1 Hb2.
  rewrite Hb1, Hb2. split; [done|]. split; [done|]. intros _. split; [done|]. by eexists.
Qed.

(** The whole dispatcher. *)
Lemma dispatch_sim sid args junk buf :
  Forall is_byte (sid :: args) → 3 <= cap <= len buf → 6 <= len buf →
  answers_as sid buf (dispatch ((sid :: args) ++ junk) (len (sid :: args)) buf cap n0) (service cap (sid :: args)).
Proof.
  intros Hmsg Hcap Hbuf. apply Forall_cons in Hmsg as [Hsid Hargs].
  unfold dispatch. cbn [app]. rewrite len_cons. pose proof (len_nonneg args). dec. cbn [orb].
  eapply answers_local; [done|]. rewrite <- (len_cons sid args).
  unfold service, find_handler, DISPATCH.
  rewrite !(Z.eqb_sym _ sid).
  unfold UDS_SID_DIAGNOSTIC_SESSION_CONTROL, UDS_SID_ECU_RESET, UDS_SID_CLEAR_DTC,
    UDS_SID_READ_DTC, UDS_SID_READ_DATA_BY_IDENTIFIER, UDS_SID_SECURITY_ACCESS,
    UDS_SID_WRITE_DATA_BY_IDENTIFIER, UDS_SID_TESTER_PRESENT.
  destruct (sid =? 0x10); [by apply h_session_control_sim|].
  destruct (sid =? 0x11); [by apply h_ecu_reset_sim|].
  destruct (sid =? 0x14); [by apply h_clear_dtc_sim|].
  destruct (sid =? 0x19); [by apply h_read_dtc_sim|].
  destruct (sid =? 0x22); [by apply h_read_did_sim|].
  destruct (sid =? 0x27); [by apply h_security_access_sim|].
  destruct (sid =? 0x2E); [by apply h_write_did_sim|].
  destruct (sid =? 0x3E); [by apply h_tester_present_sim|].
  by apply (reject_sim sid (args ++ junk)).
Qed.
End request.
End handlers.

(** * Alone *)

Section alone.
Context {E : Env} `{!ClockBounded E}.
Implicit Types w : world ecu_t.

Lemma on_security_request w :
  ecu_wf (obj w) →
  ∃ w' r, run (on_security (security_request_seed PTR 1 PTR PTR)) w = Done (reply_result r, w') ∧
    (r, abs (obj w')) = (let '(r, p) := phase_request (now_at w) (drawn_seed (draws w))
                                          (a_phase (abs (obj w))) in (r, with_phase p (abs (obj w)))) ∧
    ecu_wf (obj w').
Proof.
  intros Hw. pose proof (sim_run _ _ _ _ _ w request_sim Hw) as Hs. unfold act_request, atomically in Hs.
  rewrite run_crit in Hs. change (now_at (abs_world abs w)) with (now_at w) in Hs.
  cbn [abs_world obj readings draws] in Hs. destruct (phase_request _ _ _) as [r p].
  destruct (run _ w) as [[a w']| |]; [|done..]. destruct Hs as (Hw' & r' & Hr & -> & _).
  exists w', r'. split; [done|]. split; [|done]. symmetry.
  exact (f_equal (λ o, match o with Done (x, v) => (x, obj v) | _ => (r, abs (obj w)) end) Hr).
Qed.

Lemma dispatch_serves_as sid args junk buf cap n0 w :
  ecu_wf (obj w) → Forall is_byte (sid :: args) → 3 <= cap <= len buf → 6 <= len buf →
  ∃ h w' r, run (dispatch ((sid :: args) ++ junk) (len (sid :: args)) buf cap n0) w = Done (h, w') ∧
    run (service cap (sid :: args)) (abs_world abs w) = Done (r, abs_world abs w') ∧
    conforms sid buf h r ∧ ecu_wf (obj w').
Proof.
  intros Hw Hmsg Hcap Hbuf. pose proof (sim_run _ _ _ _ _ w (dispatch_sim cap n0 sid args junk buf Hmsg Hcap Hbuf) Hw) as Hs.
  destruct (service_alone cap (sid :: args) (abs_world abs w)) as (v & Hv & _). rewrite Hv in Hs.
  destruct (run _ w) as [[h w']| |]; [|done..]. destruct Hs as (Hw' & r & Hr & Hc).
  exists h, w', r. split; [done|]. by rewrite Hv.
Qed.

(** What a service run alone did is what was specified. *)
Lemma service_specified cap msg w r (w' : world ecu_t) :
  run (service cap msg) (abs_world abs w) = Done (r, abs_world abs w') →
  spec_request cap (now_at w) (drawn_seed (draws w)) msg (abs (obj w)) = (r, abs (obj w')).
Proof.
  intros Hr. destruct (service_alone cap msg (abs_world abs w)) as (v & Hv & Ha & _).
  change (spec_request cap (now_at (abs_world abs w)) (drawn_seed (draws (abs_world abs w))) msg (obj (abs_world abs w)))
    with (spec_request cap (now_at w) (drawn_seed (draws w)) msg (abs (obj w))) in Hv, Ha.
  rewrite Hr in Hv. injection Hv as Hr1 <-. destruct (spec_request _ _ _ _ _) as [r1 a1].
  cbn [fst snd] in *. by rewrite Hr1, <- Ha.
Qed.

Lemma dispatch_implements sid args junk buf cap n0 w :
  ecu_wf (obj w) → Forall is_byte (sid :: args) → 3 <= cap <= len buf → 6 <= len buf →
  let out := spec_request cap (now_at w) (drawn_seed (draws w)) (sid :: args) (abs (obj w)) in
  ∃ h w', run (dispatch ((sid :: args) ++ junk) (len (sid :: args)) buf cap n0) w = Done (h, w') ∧
    conforms sid buf h out.1 ∧ abs (obj w') = out.2 ∧ ecu_wf (obj w').
Proof.
  intros Hw Hmsg Hcap Hbuf out.
  destruct (dispatch_serves_as sid args junk buf cap n0 w Hw Hmsg Hcap Hbuf) as (h & w' & r & Hrun & Hs & Hc & Hw').
  apply service_specified in Hs. unfold out. rewrite Hs. exists h, w'.
  split; [done|]. by split.
Qed.

Lemma process_serves msg junk buf cap n0 w :
  ecu_wf (obj w) → Forall is_byte msg → msg ≠ [] →
  3 <= cap <= len buf → 6 <= len buf →
  ∃ buf' n' w' r,
    run (uds_process_request PTR (Some (msg ++ junk)) (len msg) (Some buf) cap (Some n0)) w
      = Done ((reply_rc r, Some (buf', n')), w') ∧
    run (service cap msg) (abs_world abs w) = Done (r, abs_world abs w') ∧
    ecu_wf (obj w') ∧ len buf' = len buf ∧
    (r ≠ Dropped → n' = len (reply_bytes (hd 0 msg) r) ∧
                   take (Z.to_nat n') buf' = reply_bytes (hd 0 msg) r).
Proof.
  intros Hwf Hmsg Hne Hcap Hbuf. destruct msg as [|sid args]; [done|].
  destruct (dispatch_serves_as sid args junk buf cap n0 w Hwf Hmsg Hcap Hbuf)
    as (h & w' & r & Hrun & Hs & (Hrc & Hlen & Hr) & Hwf').
  exists (hr_resp h), (hr_len h), w', r.
  unfold uds_process_request. rewrite run_bind, Hrun. rewrite <- Hrc.
  split; [done|]. split; [done|]. split; [done|]. split; [done|].
  intros Hnd. destruct (Hr Hnd) as (-> & rest & ->). split; [done|].
  by rewrite to_nat_len, take_app_length.
Qed.

Lemma process_refines msg junk buf cap n0 w :
  ecu_wf (obj w) → Forall is_byte msg → msg ≠ [] →
  3 <= cap <= len buf → 6 <= len buf →
  ∃ buf' n' w' r,
    run (uds_process_request PTR (Some (msg ++ junk)) (len msg) (Some buf) cap (Some n0)) w
      = Done ((reply_rc r, Some (buf', n')), w') ∧
    spec_request cap (now_at w) (drawn_seed (draws w)) msg (abs (obj w)) = (r, abs (obj w')) ∧
    ecu_wf (obj w') ∧ len buf' = len buf ∧
    (r ≠ Dropped → n' = len (reply_bytes (hd 0 msg) r) ∧
                   take (Z.to_nat n') buf' = reply_bytes (hd 0 msg) r).
Proof.
  intros Hwf Hmsg Hne Hcap Hbuf.
  destruct (process_serves msg junk buf cap n0 w Hwf Hmsg Hne Hcap Hbuf) as (buf' & n' & w' & r & Hrun & Hs & Hrest).
  exists buf', n', w', r. split; [done|]. split; [by apply service_specified|done].
Qed.

(** C1: [uds_process_request] implements the abstract server.  For every
    well-formed ECU, every message of bytes (in an object that may be
    longer), and every response object of at least 6 bytes with a declared
    capacity of at least 3, the call completes; its return code, reported
    length and leading response bytes are the specified reply, the new
    state is the specified state, and the invariant holds again. *)
Theorem uds_process_request_refines msg junk buf cap n0 w :
  ecu_wf (obj w) → Forall is_byte msg → msg ≠ [] →
  3 <= cap <= len buf → 6 <= len buf →
  ∃ buf' n' w' r,
    run (uds_process_request PTR (Some (msg ++ junk)) (len msg) (Some buf) cap (Some n0)) w
      = Done ((reply_rc r, Some (buf', n')), w') ∧
    spec_request cap (now_at w) (drawn_seed (draws w)) msg (abs (obj w)) = (r, abs (obj w')) ∧
    ecu_wf (obj w') ∧ len buf' = len buf ∧
    (r ≠ Dropped → n' = len (reply_bytes (hd 0 msg) r) ∧
                   take (Z.to_nat n') buf' = reply_bytes (hd 0 msg) r).
Proof. apply process_refines. Qed.
End alone.

(** * The refinement at a concrete input *)

Lemma uds_process_request_refines_witness :
  ∃ buf' n' w' r,
    run (uds_process_request (E:=demo_env) PTR (Some ([0x3E; 0x80] ++ [0x99])) 2
           (Some (replicate 64 0)) 64 (Some 0)) demo_world
      = Done ((reply_rc r, Some (buf', n')), w') ∧
    spec_request 64 (@now_at demo_env _ demo_world) (@drawn_seed demo_env (draws demo_world))
      [0x3E; 0x80] (abs (obj demo_world)) = (r, abs (obj w')) ∧ ecu_wf (obj w').
Proof.
  destruct (uds_process_request_refines (E:=demo_env) [0x3E; 0x80] [0x99] (replicate 64 0) 64 0 demo_world
    demo_ecu_wf) as (buf' & n' & w' & r & H1 & H2 & H3 & _);
    [repeat constructor; by compute|done|by compute|by compute|].
  exists buf', n', w', r. split; [exact H1|]. split; [exact H2|exact H3].
Defined.
