(* ===== verification/UdsProps.v ===== *)
(** Properties of the dispatcher: who may change what, what the response
    bytes say, and the histories a tester can drive the ECU through.  Each
    is read off the abstract server and carried to [uds_process_request] by
    the refinement of [UdsRefine.v]. *)

From S2P Require Import Prelude Effects Simulate UdsTypes DtcMem DidTable AppEngine Security Vecu Uds.
From S2P Require Import UdsSpec Services UdsRefine.

(** * The abstract server, by cases *)

Ltac spec_cases H :=
  unfold spec_request, spec_session, spec_reset, spec_clear_dtc, spec_read_dtc, spec_read_did,
    spec_security, spec_write_did, spec_tester_present in H;
  repeat (case_match; simplify_eq; try done); simplify_eq.

Section spec_facts.
Variables (cap now seed : Z).

Lemma spec_negative_unchanged msg a nrc a' :
  spec_request cap now seed msg a = (Negative nrc, a') → hd 0 msg ≠ 0x27 → a' = a.
Proof. intros H Hsid. destruct msg as [|sid args]; [done|]. simpl in Hsid. spec_cases H; lia. Qed.

(** Nothing but WriteDataByIdentifier of a writable DID changes the owner. *)
Lemma spec_owner_change msg a r a' :
  spec_request cap now seed msg a = (r, a') → a_owner a' ≠ a_owner a →
  ∃ hi lo e, msg = 0x2E :: hi :: lo :: a_owner a' ∧
    find_did (of_be [hi; lo]) (a_dids a) = Some e ∧ write e = Some owner_write_fn ∧
    r = Positive false [hi; lo] ∧
    (requires_extended_session e = true → extended a = true) ∧
    (requires_security e = true → a_phase a = Open) ∧
    1 <= len (a_owner a') <= OWNER_NAME_CAP.
Proof.
  intros H Hch. destruct msg as [|sid args]; [simpl in H; by simplify_eq|]. unfold spec_request in H.
  destruct (Z.eqb_spec sid 0x2E) as [->|Hne].
  - simpl in H. unfold spec_write_did in H.
    destruct args as [|hi [|lo [|d data]]]; [by simplify_eq..|].
    destruct (find_did (of_be [hi; lo]) (a_dids a)) as [e|] eqn:Hf; [|by simplify_eq].
    destruct (write e) as [[]|] eqn:Hw; [|by simplify_eq].
    destruct (requires_extended_session e && negb (extended a)) eqn:Hext; [by simplify_eq|].
    destruct (requires_security e && negb (bool_decide (a_phase a = Open))) eqn:Hsec; [by simplify_eq|].
    destruct (is_null (a_owner_ref a) || negb (write_accepts (d :: data))) eqn:Hacc; [by simplify_eq|].
    simplify_eq. exists hi, lo, e. cbn [a_owner with_owner].
    split; [done|]. split; [done|]. split; [done|]. split; [done|].
    split; [intros He; rewrite He in Hext; by destruct (extended a)|].
    split; [intros He; rewrite He in Hsec; simpl in Hsec;
      apply negb_false_iff, bool_decide_eq_true in Hsec; done|].
    apply orb_false_iff in Hacc as [_ Hacc]. apply negb_false_iff in Hacc.
    unfold write_accepts in Hacc. rewrite andb_true_iff, !Z.leb_le in Hacc. done.
  - exfalso. apply Hch. clear Hch. spec_cases H.
Qed.

(** Nothing but a right key opens security. *)
Lemma spec_unlock msg a r a' :
  spec_request cap now seed msg a = (r, a') → a_phase a' = Open → a_phase a ≠ Open →
  ∃ raw key sd n, msg = 0x27 :: raw :: key ∧ raw mod 128 = 2 ∧ len key = 4 ∧
    a_phase a = Challenge sd n ∧ of_be key = Z.lxor sd SECURITY_KEY_CONSTANT ∧
    extended a = true.
Proof.
  intros H Ho Hno. destruct msg as [|sid args]; [simpl in H; by simplify_eq|]. unfold spec_request in H.
  destruct (Z.eqb_spec sid 0x27) as [->|Hne].
  - simpl in H. unfold spec_security in H. destruct args as [|raw rest]; [by simplify_eq|].
    destruct (extended a) eqn:Hext; simpl in H; [|by simplify_eq].
    destruct (raw mod 128 mod 2 =? 1).
    + destruct rest; [|by simplify_eq]. destruct (raw mod 128 =? 1); simplify_eq.
      exfalso. simpl in Ho. destruct (a_phase a); simpl in Ho; try done.
      by destruct (now <? until).
    + destruct rest as [|k0 [|k1 [|k2 [|k3 [|]]]]]; simplify_eq.
      destruct (Z.eqb_spec (raw mod 128) 2) as [H2|]; simplify_eq.
      simpl in Ho. destruct (a_phase a) as [n|sd n|u|] eqn:Hph; simpl in Ho; try done.
      destruct (Z.eqb_spec (of_be [k0; k1; k2; k3]) (Z.lxor sd SECURITY_KEY_CONSTANT)) as [Hk|].
      * by exists raw, [k0; k1; k2; k3], sd, n.
      * by destruct (n + 1 >=? SECURITY_MAX_FAILS).
  - exfalso. apply Hno. clear Hno. spec_cases H.
Qed.

(** Only DiagnosticSessionControl and ECUReset change the session. *)
Lemma spec_session_change msg a r a' :
  spec_request cap now seed msg a = (r, a') → a_session a' ≠ a_session a →
  (hd 0 msg = 0x10 ∨ hd 0 msg = 0x11) ∧ a_last_tp a' = now.
Proof.
  intros H Hch. destruct msg as [|sid args]; [simpl in H; by simplify_eq|]. simpl.
  unfold spec_request in H.
  destruct (Z.eqb_spec sid 0x10); [|destruct (Z.eqb_spec sid 0x11)].
  - split; [by left|]. spec_cases H.
  - split; [by right|]. spec_cases H.
  - exfalso. apply Hch. clear Hch. spec_cases H.
Qed.

(** Only DiagnosticSessionControl, ECUReset and TesterPresent refresh the
    S3 timer. *)
Lemma spec_last_tp msg a r a' :
  spec_request cap now seed msg a = (r, a') → a_last_tp a' ≠ a_last_tp a →
  (hd 0 msg = 0x10 ∨ hd 0 msg = 0x11 ∨ hd 0 msg = 0x3E) ∧ a_last_tp a' = now.
Proof.
  intros H Hch. destruct msg as [|sid args]; [simpl in H; by simplify_eq|]. simpl.
  unfold spec_request in H.
  destruct (Z.eqb_spec sid 0x10); [|destruct (Z.eqb_spec sid 0x11); [|destruct (Z.eqb_spec sid 0x3E)]].
  - split; [by left|]. spec_cases H.
  - split; [by right; left|]. spec_cases H.
  - split; [by right; right|]. spec_cases H.
  - exfalso. apply Hch. clear Hch. spec_cases H.
Qed.

(** What never changes. *)
Lemma spec_registry msg a r a' :
  spec_request cap now seed msg a = (r, a') →
  a_dids a' = a_dids a ∧ a_mask a' = a_mask a ∧ a_engine a' = a_engine a ∧
  a_owner_ref a' = a_owner_ref a ∧ a_app_ref a' = a_app_ref a.
Proof. intros H. destruct msg as [|sid args]; [simpl in H; by simplify_eq|]. spec_cases H. Qed.

(** The trouble codes stay or go all at once. *)
Lemma spec_dtcs msg a r a' :
  spec_request cap now seed msg a = (r, a') →
  a_dtcs a' = a_dtcs a ∨ (msg = [0x14; 0xFF; 0xFF; 0xFF] ∧ a_dtcs a' = []).
Proof.
  intros H. destruct msg as [|sid args]; [left; simpl in H; by simplify_eq|]. unfold spec_request in H.
  destruct (Z.eqb_spec sid 0x14) as [->|].
  - simpl in H. unfold spec_clear_dtc in H. repeat (case_match; simplify_eq; try by left).
    right. split; [|done]. f_equal. by eapply bool_decide_eq_true_1.
  - left. spec_cases H.
Qed.
End spec_facts.

(** * One exchange with a tester

    The request message goes in, and what the tester can observe comes out:
    the return code and the response bytes ([rc = 1]: built but not sent;
    [rc = -1]: none). *)
Definition exchange {E : Env} (buf msg : bytes) : vprog (Z * bytes) :=
  '(rc, out) ← uds_process_request PTR (Some msg) (len msg) (Some buf) (len buf) (Some 0);
  mret (rc, match out with
            | Some (b, n) => if rc <? 0 then [] else take (Z.to_nat n) b
            | None => []
            end).

(** A request the transport can deliver, and a usable response buffer. *)
Record deliverable (buf msg : bytes) : Prop := {
  dl_bytes : Forall is_byte msg;
  dl_nonempty : msg ≠ [];
  dl_buf : 6 <= len buf
}.

Section exchanges.
Context {E : Env} `{!ClockBounded E}.
Implicit Types w : world ecu_t.

Lemma exchange_serves buf msg w :
  ecu_wf (obj w) → deliverable buf msg →
  ∃ r w', run (exchange buf msg) w = Done ((reply_rc r, reply_bytes (hd 0 msg) r), w') ∧
    run (service (len buf) msg) (abs_world abs w) = Done (r, abs_world abs w') ∧ ecu_wf (obj w').
Proof.
  intros Hwf [Hb Hne Hbuf].
  destruct (process_serves msg [] buf (len buf) 0 w Hwf Hb Hne ltac:(lia) Hbuf)
    as (buf' & n' & w' & r & Hrun & Hspec & Hwf' & _ & Hr).
  rewrite app_nil_r in Hrun. exists r, w'. split; [|done].
  unfold exchange. rewrite run_bind, Hrun. destruct r as [sup args|nrc|]; simpl reply_rc.
  - destruct (Hr ltac:(done)) as [_ Ht]. simpl. rewrite Ht. by destruct sup.
  - destruct (Hr ltac:(done)) as [_ Ht]. simpl. by rewrite Ht.
  - done.
Qed.

Lemma exchange_run buf msg w :
  ecu_wf (obj w) → deliverable buf msg →
  ∃ r w', run (exchange buf msg) w = Done ((reply_rc r, reply_bytes (hd 0 msg) r), w') ∧
    spec_request (len buf) (now_at w) (drawn_seed (draws w)) msg (abs (obj w)) = (r, abs (obj w')) ∧
    ecu_wf (obj w').
Proof.
  intros Hwf Hd. destruct (exchange_serves buf msg w Hwf Hd) as (r & w' & Hrun & Hs & Hwf').
  exists r, w'. split; [done|]. split; [by apply service_specified|done].
Qed.

(** Use the specification of an exchange known to have happened. *)
Lemma exchange_inv buf msg w rc out w' :
  ecu_wf (obj w) → deliverable buf msg → run (exchange buf msg) w = Done ((rc, out), w') →
  ∃ r, rc = reply_rc r ∧ out = reply_bytes (hd 0 msg) r ∧ ecu_wf (obj w') ∧
    spec_request (len buf) (now_at w) (drawn_seed (draws w)) msg (abs (obj w)) = (r, abs (obj w')).
Proof.
  intros Hwf Hd Hrun. destruct (exchange_run buf msg w Hwf Hd) as (r & w1 & Hrun1 & Hs & Hwf1).
  rewrite Hrun in Hrun1. injection Hrun1 as -> -> ->. by exists r.
Qed.

Lemma spec_positive_sid cap now seed msg a sup args a' :
  spec_request cap now seed msg a = (Positive sup args, a') →
  hd 0 msg ∈ [0x10; 0x11; 0x14; 0x19; 0x22; 0x27; 0x2E; 0x3E].
Proof.
  intros H. destruct msg as [|sid rest]; [done|]. unfold spec_request in H. cbn [hd].
  rewrite !elem_of_cons. repeat case_match; zb; simplify_eq; tauto.
Qed.

Lemma spec_positive_first cap now seed msg a sup args a' :
  spec_request cap now seed msg a = (Positive sup args, a') →
  UDS_POS_RESP (hd 0 msg) = hd 0 msg + 0x40 ∧ hd 0 msg + 0x40 ≠ UDS_NEGATIVE_RESPONSE.
Proof.
  intros H%spec_positive_sid. rewrite !elem_of_cons in H.
  assert (0 <= hd 0 msg < 0x3F) by (destruct H as [|[|[|[|[|[|[|[|H]]]]]]]]; [lia..|by apply not_elem_of_nil in H]).
  split; [apply UDS_POS_RESP_small; lia|]. unfold UDS_NEGATIVE_RESPONSE. lia.
Qed.

(** Every exchange has one of four outcomes: a positive response
    [SID+0x40 ..] to be sent; a positive response held back, only when the
    suppress bit of the sub-function byte is set; a negative response
    [7F SID NRC], which is never held back; or a dropped request. *)
Lemma response_shape buf msg w :
  ecu_wf (obj w) → deliverable buf msg →
  ∃ rc out w', run (exchange buf msg) w = Done ((rc, out), w') ∧
    ((rc = 0 ∧ ∃ args, out = (hd 0 msg + 0x40) :: args) ∨
     (rc = 1 ∧ 128 <= nth 1 msg 0 ∧ ∃ args, out = (hd 0 msg + 0x40) :: args) ∨
     (rc = 0 ∧ ∃ nrc, out = [0x7F; hd 0 msg; nrc_code nrc]) ∨
     (rc = -1 ∧ out = [])).
Proof.
  intros Hwf Hd. destruct (exchange_run buf msg w Hwf Hd) as (r & w' & Hrun & Hs & _).
  exists (reply_rc r), (reply_bytes (hd 0 msg) r), w'. split; [done|].
  destruct r as [sup args|nrc|].
  - destruct (spec_positive_first _ _ _ _ _ _ _ _ Hs) as [Hf _]. simpl. rewrite Hf.
    destruct sup; [right; left|left; eauto].
    split; [done|]. split; [|eauto].
    destruct msg as [|sid rest]; [simpl in Hs; by simplify_eq|].
    spec_cases Hs; try (by apply Z.leb_le);
      match goal with H : sec_answer _ _ ?rp = _ |- _ => destruct rp; simpl in H; simplify_eq end;
      by apply Z.leb_le.
  - right; right; left. eauto.
  - right; right; right. done.
Qed.

(** C27: a negative response leaves the ECU as it was, for every service but
    SecurityAccess (whose refusals count wrong keys). *)
Theorem negative_response_keeps_state buf msg w rc nrc rest w' :
  ecu_wf (obj w) → deliverable buf msg → hd 0 msg ≠ 0x27 →
  run (exchange buf msg) w = Done ((rc, 0x7F :: nrc :: rest), w') →
  abs (obj w') = abs (obj w).
Proof.
  intros Hwf Hd Hsid Hrun.
  destruct (exchange_inv _ _ _ _ _ _ Hwf Hd Hrun) as (r & -> & Hout & _ & Hs).
  destruct r as [sup args|n|]; simpl in Hout; [|by eapply spec_negative_unchanged|done].
  destruct (spec_positive_first _ _ _ _ _ _ _ _ Hs) as [Hf Hn].
  injection Hout as Hhd _. by rewrite Hf in Hhd.
Qed.

(** C24: with the power-up DID registry, the owner name changes only by
    [2E F2 00 name] in an extended or programming session with security
    unlocked, and becomes exactly the 1 to 32 bytes sent. *)
Theorem owner_write_gated buf msg w rc out w' :
  ecu_wf (obj w) → deliverable buf msg → registered (dids (state (obj w))) = vecu_dids →
  run (exchange buf msg) w = Done ((rc, out), w') → owner (obj w') ≠ owner (obj w) →
  msg = 0x2E :: 0xF2 :: 0x00 :: owner (obj w') ∧
  1 <= len (owner (obj w')) <= OWNER_NAME_CAP ∧
  (session (state (obj w)) = UDS_SESSION_EXTENDED ∨ session (state (obj w)) = UDS_SESSION_PROGRAMMING) ∧
  phase_of (security (state (obj w))) = Open ∧ out = [0x6E; 0xF2; 0x00].
Proof.
  intros Hwf Hd Hreg Hrun Hch.
  destruct (exchange_inv _ _ _ _ _ _ Hwf Hd Hrun) as (r & -> & -> & _ & Hs).
  destruct (spec_owner_change _ _ _ _ _ _ _ Hs Hch)
    as (hi & lo & e & Hmsg & Hfind & Hw & -> & Hext & Hsec & Hlen).
  cbn [abs a_dids a_owner a_phase] in *. rewrite Hreg in Hfind.
  assert (e = owner_did ∧ of_be [hi; lo] = 0xF200) as [-> Hid].
  { apply find_did_Some in Hfind as [Hin Hdid].
    unfold vecu_dids in Hin. rewrite !elem_of_cons in Hin.
    destruct Hin as [->|[->|[->|[->|[->|[->|[->|Hin]]]]]]]; try done.
    by apply not_elem_of_nil in Hin. }
  pose proof (dl_bytes _ _ Hd) as Hb. rewrite Hmsg, !Forall_cons in Hb.
  destruct Hb as (_ & Hhi & Hlo & _).
  pose proof (be16_of_be hi lo Hhi Hlo) as Hbe. rewrite Hid in Hbe. injection Hbe as <- <-.
  rewrite Hmsg. split; [done|]. split; [done|]. split; [|split; [by apply Hsec|done]].
  specialize (Hext eq_refl). unfold extended in Hext. by apply bool_decide_eq_true in Hext.
Qed.

(** C25: security opens only by [27 02 key] (possibly with the suppress
    bit), in an extended or programming session, against an outstanding
    seed, with the key of that seed. *)
Theorem unlock_gated buf msg w rc out w' :
  ecu_wf (obj w) → deliverable buf msg → run (exchange buf msg) w = Done ((rc, out), w') →
  unlocked_level (security (state (obj w))) = 0 →
  unlocked_level (security (state (obj w'))) ≠ 0 →
  ∃ raw key, msg = 0x27 :: raw :: key ∧ raw mod 128 = 2 ∧
    seed_issued (security (state (obj w))) = true ∧
    key = be32 (Z.lxor (pending_seed (security (state (obj w)))) SECURITY_KEY_CONSTANT) ∧
    (session (state (obj w)) = UDS_SESSION_EXTENDED ∨ session (state (obj w)) = UDS_SESSION_PROGRAMMING).
Proof.
  intros Hwf Hd Hrun H0 H1.
  destruct (exchange_inv _ _ _ _ _ _ Hwf Hd Hrun) as (r & -> & -> & Hwf' & Hs).
  assert (Ho : a_phase (abs (obj w')) = Open).
  { destruct (swf_level _ (ewf_security _ Hwf')) as [|Hl]; [done|].
    simpl. unfold phase_of. by rewrite Hl. }
  assert (Hno : a_phase (abs (obj w)) ≠ Open).
  { simpl. unfold phase_of. rewrite H0. simpl. by repeat case_match. }
  destruct (spec_unlock _ _ _ _ _ _ _ Hs Ho Hno)
    as (raw & key & sd & n & Hmsg & Hraw & Hlen & Hph & Hkey & Hext).
  destruct (phase_challenge_inv _ _ _ (ewf_security _ Hwf) Hph) as (Hi & -> & _).
  exists raw, key. split; [done|]. split; [done|]. split; [done|].
  pose proof (dl_bytes _ _ Hd) as Hb. rewrite Hmsg, !Forall_cons in Hb. destruct Hb as (_ & _ & Hkb).
  destruct key as [|k0 [|k1 [|k2 [|k3 [|k4 key]]]]]; rewrite ?len_cons, ?len_nil in Hlen; try lia;
    [|pose proof (len_nonneg key); lia].
  rewrite !Forall_cons in Hkb. destruct Hkb as (?&?&?&?&_).
  rewrite <- Hkey, be32_of_be by done. split; [done|].
  unfold extended in Hext. by apply bool_decide_eq_true in Hext.
Qed.

(** The S3 timer is refreshed by DiagnosticSessionControl, ECUReset and
    TesterPresent only, and then to the time of the request; every other
    request, answered or not, leaves it alone. *)
Lemma s3_refreshed_by buf msg w rc out w' :
  ecu_wf (obj w) → deliverable buf msg → run (exchange buf msg) w = Done ((rc, out), w') →
  if bool_decide (hd 0 msg ∈ [0x10; 0x11; 0x3E])
  then last_tester_present_ms (state (obj w')) = last_tester_present_ms (state (obj w)) ∨
       last_tester_present_ms (state (obj w')) = now_at w
  else last_tester_present_ms (state (obj w')) = last_tester_present_ms (state (obj w)).
Proof.
  intros Hwf Hd Hrun.
  destruct (exchange_inv _ _ _ _ _ _ Hwf Hd Hrun) as (r & _ & _ & _ & Hs).
  destruct (decide (a_last_tp (abs (obj w')) = a_last_tp (abs (obj w)))) as [Heq|Hne].
  - case_bool_decide; [by left|done].
  - destruct (spec_last_tp _ _ _ _ _ _ _ Hs Hne) as [Hsid Hnow].
    rewrite bool_decide_true by (rewrite !elem_of_cons; tauto). by right.
Qed.

(** C39: a response capacity of 3 to 5 makes DiagnosticSessionControl
    return -1 after the session has been switched. *)
Theorem small_response_switches_session buf cap sub junk n0 w :
  ecu_wf (obj w) → session_ok sub → 3 <= cap < 6 → 6 <= len buf →
  ∃ out w',
    run (uds_process_request PTR (Some ([0x10; sub] ++ junk)) 2 (Some buf) cap (Some n0)) w
      = Done ((-1, out), w') ∧ session (state (obj w')) = sub.
Proof.
  intros Hwf Hsub Hcap Hbuf.
  destruct (dispatch_implements 0x10 [sub] junk buf cap n0 w Hwf) as (h & w' & Hrun & (Hrc & _) & Habs & _);
    [destruct Hsub as [->|[->| ->]]; repeat constructor; by compute|lia|done|].
  assert (Hs : ∀ now seed, spec_request cap now seed [0x10; sub] (abs (obj w))
                          = (Dropped, with_session sub now (abs (obj w)))).
  { intros now seed. destruct Hsub as [->|[->| ->]]; simpl; by dec. }
  rewrite Hs in Hrc, Habs.
  eexists _, w'. unfold uds_process_request. rewrite run_bind.
  change (len [0x10; sub]) with 2 in Hrun. rewrite Hrun. rewrite Hrc.
  split; [done|]. exact (f_equal a_session Habs).
Qed.

(** Writing four bytes at offset 2 of an object of less than 6 cells. *)
Lemma wr32_overflows buf v w : len buf < 6 → run (wr32_be buf 2 v) w = Undefined.
Proof.
  intros Hlen. unfold wr32_be.
  rewrite run_bind, run_local. destruct (st buf 2 _) as [b1| |] eqn:E1; [|done..].
  rewrite run_bind, run_local. destruct (st b1 _ _) as [b2| |] eqn:E2; [|done..].
  rewrite run_bind, run_local. destruct (st b2 _ _) as [b3| |] eqn:E3; [|done..].
  rewrite run_local, st_out_of_range; [done|].
  apply st_Done in E1, E2, E3. rewrite E3, E2, E1. lia.
Qed.

(** C40: with a response object of 3 to 5 bytes, which the dispatcher
    accepts, a granted requestSeed writes past its end: the handler ignores
    [resp_cap] (uds.h promises -1 for a buffer that is too small). *)
Theorem seed_response_overflows buf n0 n w :
  ecu_wf (obj w) → 3 <= len buf < 6 → extended (abs (obj w)) = true →
  phase_of (security (state (obj w))) = Idle n →
  run (uds_process_request PTR (Some [0x27; 0x01]) 2 (Some buf) (len buf) (Some n0)) w = Undefined.
Proof.
  intros Hwf Hbuf Hext Hph. unfold uds_process_request, dispatch.
  assert (H3 : 3 <= len buf) by lia. dec. cbn [orb Z.eqb Pos.eqb].
  apply run_bind_Undefined. rewrite (run_local_Done _ _ _ 0x27) by done.
  change (find_handler DISPATCH 0x27) with (Some h_security_access). cbn iota.
  unfold h_security_access. change (2 <? 2) with false. cbn iota.
  rewrite (run_local_Done _ _ _ 0x01) by done. rewrite (run_bind_Done _ _ _ true w)
    by (rewrite is_extended_run, Hext by done; done). cbn [negb].
  change (Z.land (sub_function 1) 1 =? 1) with true. change (2 !=? 2) with false. cbn iota.
  destruct (on_security_request w Hwf) as (w1 & r & Hr & Hrep & _).
  change (sub_function 1) with 1. rewrite (run_bind_Done _ _ _ _ _ Hr).
  change (a_phase (abs (obj w))) with (phase_of (security (state (obj w)))) in Hrep.
  rewrite Hph in Hrep. injection Hrep as -> _. cbn [reply_result sr_rc]. change (0 =? -1) with false. cbn iota.
  destruct buf as [|b0 [|b1 [|b2 rest]]]; try (rewrite ?len_cons, len_nil in H3; lia).
  rewrite (run_bind_Done _ _ _ (0x67 :: b1 :: b2 :: rest) w1) by done.
  rewrite (run_local_Done _ _ _ (0x67 :: 0x01 :: b2 :: rest)) by done.
  apply run_bind_Undefined, wr32_overflows. rewrite !len_cons in *. lia.
Qed.
End exchanges.

(** * The properties at concrete inputs *)

Definition demo_buf : bytes := replicate 128 0.

(** Power-up, extended session, security unlocked. *)
Definition demo_unlocked : world ecu_t :=
  World (on_state (λ s, set_session 3 (set_security (SecurityState 1 0x12345678 false 0 0) s)) demo_ecu) 1 1.
(** Power-up, extended session, seed outstanding. *)
Definition demo_challenge : world ecu_t :=
  World (on_state (λ s, set_session 3 (set_security (SecurityState 0 0x12345678 true 0 0) s)) demo_ecu) 1 1.

Lemma demo_sec_wf sec e :
  ecu_wf e → security_wf sec → ecu_wf (on_state (λ s, set_session 3 (set_security sec s)) e).
Proof. intros [] Hs. split; simpl; auto. by right; right. Qed.

Lemma demo_unlocked_wf : ecu_wf (obj demo_unlocked).
Proof. apply (demo_sec_wf _ demo_ecu demo_ecu_wf). by split; [right|..]. Qed.
Lemma demo_challenge_wf : ecu_wf (obj demo_challenge).
Proof. apply (demo_sec_wf _ demo_ecu demo_ecu_wf). by split; [left|..]. Qed.

Ltac deliver_lit := split; [repeat constructor; by compute|done|by compute].

(** Evaluate an exchange of the power-up ECU under the demonstration clock. *)
Ltac demo_run H :=
  match goal with
  | |- context [run ?p ?w] =>
      destruct (run p w) as [[[rc out] w']| |] eqn:H; [|by vm_compute in H..]
  end.

Lemma negative_response_keeps_state_witness :
  match run (exchange (E:=demo_env) demo_buf [0x22; 0x12; 0x34]) demo_world with
  | Done (_, w') => abs (obj w') = abs (obj demo_world)
  | _ => False
  end.
Proof.
  demo_run Hrun.
  apply (negative_response_keeps_state (E:=demo_env) demo_buf [0x22; 0x12; 0x34] demo_world rc 0x22 [0x31]);
    [exact demo_ecu_wf|deliver_lit|done|].
  rewrite Hrun. vm_compute in Hrun. by injection Hrun as <- <- <-.
Defined.

Lemma owner_write_gated_witness :
  match run (exchange (E:=demo_env) demo_buf [0x2E; 0xF2; 0x00; 0x42; 0x4F]) demo_unlocked with
  | Done ((_, out), w') => owner (obj w') = [0x42; 0x4F] ∧ out = [0x6E; 0xF2; 0x00]
  | _ => False
  end.
Proof.
  demo_run Hrun.
  assert (Ho : owner (obj w') = [0x42; 0x4F]) by (vm_compute in Hrun; by injection Hrun as <- <- <-).
  split; [exact Ho|].
  destruct (owner_write_gated (E:=demo_env) demo_buf [0x2E; 0xF2; 0x00; 0x42; 0x4F] demo_unlocked rc out w')
    as (_ & _ & _ & _ & H); [exact demo_unlocked_wf|deliver_lit|reflexivity|exact Hrun|by rewrite Ho|exact H].
Defined.

Lemma unlock_gated_witness :
  match run (exchange (E:=demo_env) demo_buf (0x27 :: 0x02 :: be32 (Z.lxor 0x12345678 SECURITY_KEY_CONSTANT)))
          demo_challenge with
  | Done ((_, out), w') => out = [0x67; 0x02] ∧ unlocked_level (security (state (obj w'))) = 1 ∧
      seed_issued (security (state (obj demo_challenge))) = true
  | _ => False
  end.
Proof.
  demo_run Hrun.
  assert (Ho : out = [0x67; 0x02] ∧ unlocked_level (security (state (obj w'))) = 1)
    by (vm_compute in Hrun; by injection Hrun as <- <- <-).
  destruct Ho as [Ho Hl]. split; [exact Ho|]. split; [exact Hl|].
  destruct (unlock_gated (E:=demo_env) demo_buf
    (0x27 :: 0x02 :: be32 (Z.lxor 0x12345678 SECURITY_KEY_CONSTANT)) demo_challenge rc out w')
    as (raw & key & _ & _ & H & _);
    [exact demo_challenge_wf|deliver_lit|exact Hrun|reflexivity|by rewrite Hl|exact H].
Defined.

Lemma small_response_switches_session_witness :
  ∃ out w', run (uds_process_request (E:=demo_env) PTR (Some ([0x10; 0x03] ++ [])) 2 (Some demo_buf) 5 (Some 0))
              demo_world = Done ((-1, out), w') ∧ session (state (obj w')) = 0x03.
Proof.
  apply (small_response_switches_session (E:=demo_env) demo_buf 5 0x03 [] 0 demo_world demo_ecu_wf);
    [by right; right|by compute|by compute].
Defined.

(** Power-up, then the extended session. *)
Definition demo_extended : world ecu_t :=
  World (on_state (λ s, set_session 3 (set_security security_init s)) demo_ecu) 1 1.

Lemma demo_extended_wf : ecu_wf (obj demo_extended).
Proof. apply (demo_sec_wf _ demo_ecu demo_ecu_wf), security_init_wf. Qed.

Lemma seed_response_overflows_witness :
  run (uds_process_request (E:=demo_env) PTR (Some [0x27; 0x01]) 2 (Some [0; 0; 0]) 3 (Some 0)) demo_extended
    = Undefined.
Proof.
  apply (seed_response_overflows (E:=demo_env) [0; 0; 0] 0 0 demo_extended demo_extended_wf); by compute.
Defined.
