(* ===== verification/UdsTrace.v ===== *)
(** Histories of exchanges: a server loop over a list of requests refines a
    trace of the abstract server, and the scenarios the documentation of the
    vECU describes (unlock and write, read and clear trouble codes, brute
    force and reset) hold for every clock, every entropy source and every
    payload. *)

From S2P Require Import Prelude Effects Simulate UdsTypes DtcMem DidTable AppEngine Security Vecu Uds.
From S2P Require Import UdsSpec Services UdsRefine UdsProps.

(** * Serving a list of requests *)

Fixpoint serve {E : Env} (buf : bytes) (msgs : list bytes) : vprog (list (Z * bytes)) :=
  match msgs with
  | [] => mret []
  | msg :: msgs => out ← exchange buf msg; outs ← serve buf msgs; mret (out :: outs)
  end.

(** What the tester sees of an abstract reply. *)
Definition observed (msg : bytes) (r : reply) : Z * bytes := (reply_rc r, reply_bytes (hd 0 msg) r).

(** Histories of the abstract server on its own clock and entropy source:
    each request is answered as specified at the next reading of the clock and
    with the next seed to be drawn, and leaves both as the service does. *)
Inductive spec_trace {E : Env} (cap : Z) : world aecu → list bytes → list reply → world aecu → Prop :=
| st_nil v : spec_trace cap v [] [] v
| st_cons v msg r v1 msgs rs v2 :
    run (service cap msg) v = Done (r, v1) →
    spec_request cap (now_at v) (drawn_seed (draws v)) msg (obj v) = (r, obj v1) →
    spec_trace cap v1 msgs rs v2 →
    spec_trace cap v (msg :: msgs) (r :: rs) v2.

(** There is one history. *)
Lemma spec_trace_unique {E : Env} cap v msgs rs v1 rs' v1' :
  spec_trace cap v msgs rs v1 → spec_trace cap v msgs rs' v1' → rs = rs' ∧ v1 = v1'.
Proof.
  intros Ht. revert rs' v1'. induction Ht as [v|v msg r v1 msgs rs v2 Hr _ _ IH]; intros rs' v1' Ht'; inversion Ht' as [|? ? r1 v0 ? rs1 ? Hr1 _ Ht1]; subst; [done|].
  rewrite Hr in Hr1. injection Hr1 as <- <-. by destruct (IH _ _ Ht1) as [-> ->].
Qed.

Section lemmas.
Context {E : Env} `{!ClockBounded E}.
Implicit Types w : world ecu_t.

(** An exchange whose specification is known. *)
Lemma exchange_as buf msg w r a :
  ecu_wf (obj w) → deliverable buf msg →
  spec_request (len buf) (now_at w) (drawn_seed (draws w)) msg (abs (obj w)) = (r, a) →
  ∃ w', run (exchange buf msg) w = Done (observed msg r, w') ∧ abs (obj w') = a ∧ ecu_wf (obj w').
Proof.
  intros Hwf Hd Hs. destruct (exchange_run buf msg w Hwf Hd) as (r' & w' & Hrun & Hs' & Hwf').
  rewrite Hs in Hs'. injection Hs' as <- ->. by exists w'.
Qed.

Lemma serve_run buf msgs w :
  ecu_wf (obj w) → Forall (deliverable buf) msgs →
  ∃ rs w', run (serve buf msgs) w = Done (zip_with observed msgs rs, w') ∧
    spec_trace (len buf) (abs_world abs w) msgs rs (abs_world abs w') ∧ ecu_wf (obj w').
Proof.
  revert w. induction msgs as [|msg msgs IH]; intros w Hwf Hd.
  - exists [], w. split; [done|]. split; [constructor|done].
  - apply Forall_cons in Hd as [Hd Hds].
    destruct (exchange_serves buf msg w Hwf Hd) as (r & w1 & Hrun & Hs & Hwf1).
    destruct (IH w1 Hwf1 Hds) as (rs & w2 & Hrun2 & Ht & Hwf2).
    exists (r :: rs), w2. split.
    + cbn [serve]. rewrite run_bind, Hrun, run_bind, Hrun2. done.
    + split; [|done]. econstructor; [exact Hs|by apply service_specified|done].
Qed.

Lemma spec_trace_length cap a msgs rs a' :
  spec_trace cap a msgs rs a' → length msgs = length rs.
Proof. induction 1; simpl; lia. Qed.

Lemma key_range seed : 0 < seed < 2 ^ 32 → 0 <= Z.lxor seed SECURITY_KEY_CONSTANT < 2 ^ 32.
Proof.
  intros Hs. split; [apply Z.lxor_nonneg; unfold SECURITY_KEY_CONSTANT; lia|].
  destruct (Z.eq_dec (Z.lxor seed SECURITY_KEY_CONSTANT) 0) as [->|Hne]; [lia|].
  assert (0 <= Z.lxor seed SECURITY_KEY_CONSTANT)
    by (apply Z.lxor_nonneg; unfold SECURITY_KEY_CONSTANT; lia).
  apply Z.log2_lt_pow2; [lia|]. eapply Z.le_lt_trans; [apply Z.log2_lxor|].
  - lia.
  - unfold SECURITY_KEY_CONSTANT; lia.
  - apply Z.max_lub_lt; [apply Z.log2_lt_pow2; lia|by compute].
Qed.
End lemmas.

(** A message of literal bytes, or of bytes known to be so, is deliverable. *)
Ltac deliver :=
  split; [|done|lia];
  repeat first
    [ assumption
    | apply be32_range
    | apply Forall_nil_2
    | apply Forall_cons_2; [first [assumption | by compute]|] ].

(** * Single exchanges on the abstract state *)

Section steps.
Context {E : Env} `{!ClockBounded E}.
Implicit Types w : world ecu_t.

(** The world after a successful exchange, with its abstract state. *)
Definition after (buf msg : bytes) (w : world ecu_t) (out : bytes) (a : aecu) (w' : world ecu_t) : Prop :=
  run (exchange buf msg) w = Done ((0, out), w') ∧ abs (obj w') = a ∧ ecu_wf (obj w').

Lemma session_step buf sub w :
  ecu_wf (obj w) → 6 <= len buf → session_ok sub →
  ∃ w', after buf [0x10; sub] w [0x50; sub; 0x00; 0x32; 0x01; 0xF4]
          (with_session sub (now_at w) (abs (obj w))) w'.
Proof.
  intros Hwf Hbuf Hs. destruct (exchange_as buf [0x10; sub] w
    (Positive false [sub; 0x00; 0x32; 0x01; 0xF4]) (with_session sub (now_at w) (abs (obj w))) Hwf)
    as (w' & H); [| |by exists w'].
  - destruct Hs as [->|[->| ->]]; deliver.
  - destruct Hs as [->|[->| ->]]; simpl; by dec.
Qed.

Lemma reset_step buf w :
  ecu_wf (obj w) → 6 <= len buf →
  ∃ w', after buf [0x11; 0x01] w [0x51; 0x01]
          (with_phase (Idle 0) (with_session UDS_SESSION_DEFAULT (now_at w) (abs (obj w)))) w'.
Proof.
  intros Hwf Hbuf. eapply (exchange_as buf [0x11; 0x01] w (Positive false [0x01])); [done|deliver|done].
Qed.

Lemma seed_step buf n w :
  ecu_wf (obj w) → 6 <= len buf → extended (abs (obj w)) = true →
  a_phase (abs (obj w)) = Idle n →
  ∃ w', after buf [0x27; 0x01] w (0x67 :: 0x01 :: be32 (drawn_seed (draws w)))
          (with_phase (Challenge (drawn_seed (draws w)) n) (abs (obj w))) w'.
Proof.
  intros Hwf Hbuf Hext Hph.
  eapply (exchange_as buf [0x27; 0x01] w (Positive false (0x01 :: be32 (drawn_seed (draws w)))));
    [done|deliver|].
  generalize dependent (abs (obj w)). intros a Hext Hph. simpl. by rewrite Hext, Hph.
Qed.

Lemma key_step buf w seed n :
  ecu_wf (obj w) → 6 <= len buf → extended (abs (obj w)) = true →
  0 < seed < 2 ^ 32 → a_phase (abs (obj w)) = Challenge seed n →
  ∃ w', after buf (0x27 :: 0x02 :: be32 (Z.lxor seed SECURITY_KEY_CONSTANT)) w [0x67; 0x02]
          (with_phase Open (abs (obj w))) w'.
Proof.
  intros Hwf Hbuf Hext Hseed Hph. pose proof (key_range seed Hseed) as Hk.
  eapply (exchange_as buf (0x27 :: 0x02 :: be32 _) w (Positive false [0x02])); [done| |].
  - deliver.
  - change (spec_security (now_at w) (drawn_seed (draws w)) (0x02 :: be32 (Z.lxor seed SECURITY_KEY_CONSTANT))
      (abs (obj w)) = (Positive false [0x02], with_phase Open (abs (obj w)))).
    unfold spec_security, be32 at 1. rewrite Hext. cbn [negb].
    change (2 mod 128 mod 2 =? 1) with false. cbn iota.
    fold (be32 (Z.lxor seed SECURITY_KEY_CONSTANT)). change (2 mod 128 =? 2) with true. cbn iota.
    rewrite of_be32, Hph by done. simpl. by rewrite Z.eqb_refl.
Qed.

Lemma owner_write_step buf name w :
  ecu_wf (obj w) → 6 <= len buf → a_dids (abs (obj w)) = vecu_dids → a_owner_ref (abs (obj w)) = PTR →
  extended (abs (obj w)) = true → a_phase (abs (obj w)) = Open →
  Forall is_byte name → 1 <= len name <= OWNER_NAME_CAP →
  ∃ w', after buf (0x2E :: 0xF2 :: 0x00 :: name) w [0x6E; 0xF2; 0x00] (with_owner name (abs (obj w))) w'.
Proof.
  intros Hwf Hbuf Hreg Href Hext Hph Hb Hn.
  eapply (exchange_as buf (0x2E :: 0xF2 :: 0x00 :: name) w (Positive false [0xF2; 0x00])); [done| |].
  - deliver.
  - change (spec_write_did (0xF2 :: 0x00 :: name) (abs (obj w))
      = (Positive false [0xF2; 0x00], with_owner name (abs (obj w)))).
    unfold spec_write_did. rewrite Hreg, Hext, Hph, Href.
    destruct name as [|c name]; [rewrite len_nil in Hn; lia|].
    change (find_did (of_be [0xF2; 0x00]) vecu_dids) with (Some owner_did). simpl.
    assert (Ha : write_accepts (c :: name) = true) by (unfold write_accepts; by dec).
    by rewrite Ha.
Qed.

(** Reading a DID never changes the ECU. *)
Lemma read_did_step buf hi lo e v w :
  ecu_wf (obj w) → 6 <= len buf → is_byte hi → is_byte lo →
  find_did (of_be [hi; lo]) (a_dids (abs (obj w))) = Some e →
  match static_data e with
  | Some data => static_len e <= 256 ∧ v = take (Z.to_nat (static_len e)) data
  | None => read e ≫= (λ f, a_value f (abs (obj w))) = Some v
  end →
  3 + len v <= len buf →
  ∃ w', after buf [0x22; hi; lo] w (0x62 :: hi :: lo :: v) (abs (obj w)) w'.
Proof.
  intros Hwf Hbuf Hhi Hlo Hf Hv Hlen.
  eapply (exchange_as buf [0x22; hi; lo] w (Positive false (hi :: lo :: v))); [done| |].
  - deliver.
  - change ((spec_read_did (len buf) [hi; lo] (abs (obj w)), abs (obj w))
      = (Positive false (hi :: lo :: v), abs (obj w))).
    unfold spec_read_did. rewrite Hf. destruct (static_data e).
    + destruct Hv as [Hle ->]. by dec.
    + rewrite Hv. by dec.
Qed.

Lemma clear_step buf w :
  ecu_wf (obj w) → 6 <= len buf →
  ∃ w', after buf [0x14; 0xFF; 0xFF; 0xFF] w [0x54] (with_dtcs [] (abs (obj w))) w'.
Proof.
  intros Hwf Hbuf. eapply (exchange_as buf [0x14; 0xFF; 0xFF; 0xFF] w (Positive false [])); [done|deliver|done].
Qed.

Lemma read_dtc_step buf mask w :
  ecu_wf (obj w) → 6 <= len buf → is_byte mask →
  let es := filter (λ e, matches mask e = true) (a_dtcs (abs (obj w))) in
  3 + 4 * len es <= len buf →
  ∃ w', after buf [0x19; 0x02; mask] w
          (0x59 :: 0x02 :: a_mask (abs (obj w)) :: encode_dtcs es) (abs (obj w)) w'.
Proof.
  intros Hwf Hbuf Hm es Hes.
  eapply (exchange_as buf [0x19; 0x02; mask] w
    (Positive false (0x02 :: a_mask (abs (obj w)) :: encode_dtcs es))); [done| |].
  - deliver.
  - change ((spec_read_dtc (len buf) [0x02; mask] (abs (obj w)), abs (obj w))
      = (Positive false (0x02 :: a_mask (abs (obj w)) :: encode_dtcs es), abs (obj w))).
    unfold spec_read_dtc. cbn [negb]. change (2 mod 128 =? 2) with true. cbn [negb]. fold es.
    by dec.
Qed.
End steps.

(** * Reading trouble codes back *)

(** The tester's view of the records of a 59 02 response: three bytes of
    code, one of status. *)
Fixpoint decode_dtcs (bs : bytes) : option (list dtc_entry_t) :=
  match bs with
  | [] => Some []
  | a :: b :: c :: s :: bs => cons (DtcEntry (of_be [a; b; c]) s) <$> decode_dtcs bs
  | _ => None
  end.

Lemma decode_encode_dtcs es : Forall dtc_entry_wf es → decode_dtcs (encode_dtcs es) = Some es.
Proof.
  induction es as [|[d s] es IH]; intros Hwf; [done|].
  apply Forall_cons in Hwf as [[Hd _] Hes]. simpl in Hd.
  change (decode_dtcs (encode_dtcs (DtcEntry d s :: es)))
    with (cons (DtcEntry (of_be (be24 d)) s) <$> decode_dtcs (encode_dtcs es)).
  by rewrite (IH Hes), of_be24.
Qed.

(** A lock-out on the bus: everything but ECUReset leaves it in place. *)
Lemma spec_lockout cap now seed msg a r a' until :
  spec_request cap now seed msg a = (r, a') → hd 0 msg ≠ 0x11 →
  a_phase a = Lockout until → now < until →
  a_phase a' = Lockout until ∧ (hd 0 msg = 0x27 → ∃ nrc, r = Negative nrc).
Proof.
  intros H Hne Hph Hnow. destruct msg as [|sid args]; [simpl in H; by simplify_eq|].
  simpl in Hne |- *. unfold spec_request in H.
  destruct (Z.eqb_spec sid 0x27) as [->|Hsid].
  - simpl in H. unfold spec_security in H. rewrite Hph in H. cbn [phase_request phase_key] in H.
    rewrite (proj2 (Z.ltb_lt _ _) Hnow) in H.
    repeat (case_match; simplify_eq; try (split; [done|by eexists])).
  - split; [|done]. spec_cases H; zb; simplify_eq; done.
Qed.

(** * Properties *)

Section properties.
Context {E : Env} `{!ClockBounded E}.
Implicit Types w : world ecu_t.

(** C6: a server fed any list of requests completes each of them, and the
    answers and the final ECU are those of the one history that the abstract
    server has on the same clock and entropy source, with as many readings and
    draws. *)
Theorem serve_refines buf msgs w :
  ecu_wf (obj w) → Forall (deliverable buf) msgs →
  ∃ rs w', run (serve buf msgs) w = Done (zip_with observed msgs rs, w') ∧
    length rs = length msgs ∧
    spec_trace (len buf) (abs_world abs w) msgs rs (abs_world abs w') ∧ ecu_wf (obj w').
Proof.
  intros Hwf Hd. destruct (serve_run buf msgs w Hwf Hd) as (rs & w' & Hrun & Ht & Hwf').
  exists rs, w'. split; [done|]. split; [|done]. symmetry. by eapply spec_trace_length.
Qed.

(** C18: from power-up, for every clock, entropy source and name: enter the
    extended session, request a seed, answer it with seed XOR 0xDEADBEEF,
    write the owner name, read it back; every answer is positive and the
    name read is the name written. *)
Theorem unlock_and_write buf name t w :
  ecu_wf (obj w) → powered_up t (obj w) → 3 + OWNER_NAME_CAP <= len buf →
  Forall is_byte name → 1 <= len name <= OWNER_NAME_CAP →
  ∃ seed w1 w2 w3 w4 w5, 0 < seed < 2 ^ 32 ∧
    run (exchange buf [0x10; 0x03]) w = Done ((0, [0x50; 0x03; 0x00; 0x32; 0x01; 0xF4]), w1) ∧
    run (exchange buf [0x27; 0x01]) w1 = Done ((0, 0x67 :: 0x01 :: be32 seed), w2) ∧
    run (exchange buf (0x27 :: 0x02 :: be32 (Z.lxor seed SECURITY_KEY_CONSTANT))) w2
      = Done ((0, [0x67; 0x02]), w3) ∧
    run (exchange buf (0x2E :: 0xF2 :: 0x00 :: name)) w3 = Done ((0, [0x6E; 0xF2; 0x00]), w4) ∧
    run (exchange buf [0x22; 0xF2; 0x00]) w4 = Done ((0, 0x62 :: 0xF2 :: 0x00 :: name), w5).
Proof.
  unfold OWNER_NAME_CAP. intros Hwf (_ & _ & Hreg & _ & Hsec & _ & _ & Hgo & _) Hbuf Hb Hn.
  assert (H6 : 6 <= len buf) by lia.
  destruct (session_step buf 0x03 w Hwf H6) as (w1 & R1 & A1 & W1); [by right; right|].
  destruct (seed_step buf 0 w1 W1 H6) as (w2 & R2 & A2 & W2);
    [by rewrite A1|rewrite A1; simpl; by rewrite Hsec|].
  pose proof (drawn_seed_range (draws w1)) as Hseed.
  destruct (key_step buf w2 (drawn_seed (draws w1)) 0 W2 H6) as (w3 & R3 & A3 & W3);
    [by rewrite A2, A1|exact Hseed|by rewrite A2|].
  destruct (owner_write_step buf name w3 W3 H6) as (w4 & R4 & A4 & W4);
    [by rewrite A3, A2, A1|by rewrite A3, A2, A1|by rewrite A3, A2, A1|by rewrite A3|done|done|].
  destruct (read_did_step buf 0xF2 0x00 owner_did name w4 W4 H6) as (w5 & R5 & _);
    [by compute|by compute|rewrite A4, A3, A2, A1; simpl; by rewrite Hreg| |lia|].
  - rewrite A4, A3, A2, A1. simpl. by rewrite Hgo.
  - by exists (drawn_seed (draws w1)), w1, w2, w3, w4, w5.
Qed.

(** C28: [19 02 mask] answers with the availability mask and records that
    decode to exactly the stored trouble codes whose status meets the mask,
    in storage order, and changes nothing. *)
Theorem read_dtc_decodes buf mask w :
  ecu_wf (obj w) → is_byte mask → 3 + 4 * DTC_MAX <= len buf →
  ∃ records w',
    run (exchange buf [0x19; 0x02; mask]) w
      = Done ((0, 0x59 :: 0x02 :: availability_mask (dtcs (state (obj w))) :: records), w') ∧
    decode_dtcs records = Some (filter (λ e, matches mask e = true) (stored (dtcs (state (obj w))))) ∧
    abs (obj w') = abs (obj w).
Proof.
  unfold DTC_MAX. intros Hwf Hm Hbuf.
  pose proof (stored_len _ (ewf_dtcs _ Hwf)) as Hl. destruct (dwf_count _ (ewf_dtcs _ Hwf)) as [_ Hc].
  pose proof (filter_len_le (λ e, matches mask e = true) (stored (dtcs (state (obj w))))) as Hf.
  destruct (read_dtc_step buf mask w Hwf) as (w' & R & A & _); [lia|done|simpl; unfold DTC_MAX in *; lia|].
  eexists _, w'. split; [exact R|]. split; [|done]. apply decode_encode_dtcs.
  apply Forall_forall. intros e He. apply list_elem_of_filter in He as [_ He].
  by apply (proj1 (Forall_forall _ _) (stored_wf _ (ewf_dtcs _ Hwf))).
Qed.

(** After ClearDiagnosticInformation, ReadDTCInformation reports no
    trouble code under any mask; nothing but the trouble codes changed. *)
Lemma clear_then_read buf mask w :
  ecu_wf (obj w) → is_byte mask → 6 <= len buf →
  ∃ w1 w2,
    run (exchange buf [0x14; 0xFF; 0xFF; 0xFF]) w = Done ((0, [0x54]), w1) ∧
    run (exchange buf [0x19; 0x02; mask]) w1
      = Done ((0, [0x59; 0x02; availability_mask (dtcs (state (obj w)))]), w2) ∧
    abs (obj w2) = with_dtcs [] (abs (obj w)).
Proof.
  intros Hwf Hm Hbuf. destruct (clear_step buf w Hwf Hbuf) as (w1 & R1 & A1 & W1).
  destruct (read_dtc_step buf mask w1 W1 Hbuf Hm) as (w2 & R2 & A2 & _).
  { rewrite A1. change (3 + 0 <= len buf). lia. }
  exists w1, w2. split; [done|]. rewrite A1 in R2, A2. cbn [with_dtcs a_dtcs a_mask] in R2.
  by rewrite filter_nil in R2.
Qed.

(** C21: while a lock-out lasts, no list of requests without an ECUReset
    ends it: every SecurityAccess request is refused with a negative
    response, so no seed and no unlock is to be had. *)
Theorem lockout_over_bus buf msgs w until :
  ecu_wf (obj w) → Forall (deliverable buf) msgs → Forall (λ msg, hd 0 msg ≠ 0x11) msgs →
  phase_of (security (state (obj w))) = Lockout until →
  (∀ n, ms_of_timespec (clock_gettime n) < until) →
  ∃ outs w', run (serve buf msgs) w = Done (outs, w') ∧
    phase_of (security (state (obj w'))) = Lockout until ∧
    Forall2 (λ msg out, hd 0 msg = 0x27 → ∃ nrc, out = (0, [0x7F; 0x27; nrc_code nrc])) msgs outs.
Proof.
  intros Hwf Hd Hne Hph Htime. revert w Hwf Hph.
  induction msgs as [|msg msgs IH]; intros w Hwf Hph; [by exists [], w|].
  apply Forall_cons in Hd as [Hd Hds]. apply Forall_cons in Hne as [Hn Hns].
  destruct (exchange_run buf msg w Hwf Hd) as (r & w1 & Hrun & Hs & Hwf1).
  destruct (spec_lockout _ _ _ _ _ _ _ _ Hs Hn Hph (Htime _)) as [Hph1 Hr].
  destruct (IH Hds Hns w1 Hwf1 Hph1) as (outs & w2 & Hrun2 & Hph2 & Hall).
  exists (observed msg r :: outs), w2. split.
  - cbn [serve]. by rewrite run_bind, Hrun, run_bind, Hrun2.
  - split; [done|]. constructor; [|done]. intros Hsid. destruct (Hr Hsid) as [nrc ->].
    exists nrc. unfold observed. simpl. by rewrite Hsid.
Qed.

(** C38: ECUReset ends a lock-out at once: from any state, locked out or
    not, [11 01], [10 03], [27 01] yields a fresh seed whatever the time,
    so the delay of security.h can be skipped by a tester who resets after
    each failed attempt. *)
Theorem reset_skips_lockout buf w :
  ecu_wf (obj w) → 6 <= len buf →
  ∃ seed w1 w2 w3, 0 < seed < 2 ^ 32 ∧
    run (exchange buf [0x11; 0x01]) w = Done ((0, [0x51; 0x01]), w1) ∧
    run (exchange buf [0x10; 0x03]) w1 = Done ((0, [0x50; 0x03; 0x00; 0x32; 0x01; 0xF4]), w2) ∧
    run (exchange buf [0x27; 0x01]) w2 = Done ((0, 0x67 :: 0x01 :: be32 seed), w3) ∧
    phase_of (security (state (obj w3))) = Challenge seed 0.
Proof.
  intros Hwf Hbuf. destruct (reset_step buf w Hwf Hbuf) as (w1 & R1 & A1 & W1).
  destruct (session_step buf 0x03 w1 W1 Hbuf) as (w2 & R2 & A2 & W2); [by right; right|].
  destruct (seed_step buf 0 w2 W2 Hbuf) as (w3 & R3 & A3 & W3);
    [by rewrite A2|by rewrite A2, A1|].
  pose proof (drawn_seed_range (draws w2)) as Hseed.
  exists (drawn_seed (draws w2)), w1, w2, w3. split; [done|]. split; [done|]. split; [done|].
  split; [done|]. exact (f_equal a_phase A3).
Qed.

(** Leaving for the default session does not lock security: once
    unlocked, [10 01] then [10 03] is followed by an accepted owner write
    with no new key. *)
Lemma default_session_keeps_unlock buf name w :
  ecu_wf (obj w) → registered (dids (state (obj w))) = vecu_dids →
  phase_of (security (state (obj w))) = Open → g_state_for_owner (obj w) = PTR →
  6 <= len buf → Forall is_byte name → 1 <= len name <= OWNER_NAME_CAP →
  ∃ w1 w2 w3,
    run (exchange buf [0x10; 0x01]) w = Done ((0, [0x50; 0x01; 0x00; 0x32; 0x01; 0xF4]), w1) ∧
    phase_of (security (state (obj w1))) = Open ∧
    run (exchange buf [0x10; 0x03]) w1 = Done ((0, [0x50; 0x03; 0x00; 0x32; 0x01; 0xF4]), w2) ∧
    run (exchange buf (0x2E :: 0xF2 :: 0x00 :: name)) w2 = Done ((0, [0x6E; 0xF2; 0x00]), w3) ∧
    owner (obj w3) = name.
Proof.
  intros Hwf Hreg Hph Hgo Hbuf Hb Hn.
  destruct (session_step buf 0x01 w Hwf Hbuf) as (w1 & R1 & A1 & W1); [by left|].
  destruct (session_step buf 0x03 w1 W1 Hbuf) as (w2 & R2 & A2 & W2); [by right; right|].
  destruct (owner_write_step buf name w2 W2 Hbuf) as (w3 & R3 & A3 & _);
    [by rewrite A2, A1|by rewrite A2, A1|by rewrite A2|by rewrite A2, A1|done|done|].
  exists w1, w2, w3. split; [done|].
  split; [by rewrite <- Hph; apply (f_equal a_phase A1)|]. split; [done|]. split; [done|].
  apply (f_equal a_owner A3).
Qed.
End properties.

(** * The properties at concrete inputs *)

Lemma serve_refines_witness :
  ∃ rs w', run (serve (E:=demo_env) demo_buf [[0x10; 0x03]; [0x27; 0x01]]) demo_world
             = Done (zip_with observed [[0x10; 0x03]; [0x27; 0x01]] rs, w') ∧ length rs = 2%nat.
Proof.
  destruct (serve_refines (E:=demo_env) demo_buf [[0x10; 0x03]; [0x27; 0x01]] demo_world demo_ecu_wf)
    as (rs & w' & H1 & H2 & _); [repeat (constructor; [deliver_lit|]); constructor|].
  exists rs, w'. by split.
Defined.

Lemma unlock_and_write_witness :
  ∃ w1 w4 w5, run (exchange (E:=demo_env) demo_buf [0x10; 0x03]) demo_world
                = Done ((0, [0x50; 0x03; 0x00; 0x32; 0x01; 0xF4]), w1) ∧
    run (exchange (E:=demo_env) demo_buf [0x22; 0xF2; 0x00]) w4 = Done ((0, [0x62; 0xF2; 0x00; 0x42; 0x4F]), w5).
Proof.
  destruct (unlock_and_write (E:=demo_env) demo_buf [0x42; 0x4F] 0 demo_world demo_ecu_wf demo_ecu_powered)
    as (sd & w1 & w2 & w3 & w4 & w5 & _ & H1 & _ & _ & _ & H5); [by compute|repeat constructor; by compute|by compute|].
  exists w1, w4, w5. split; [exact H1|exact H5].
Defined.

Lemma read_dtc_decodes_witness :
  ∃ records w', run (exchange (E:=demo_env) demo_buf [0x19; 0x02; 0x08]) demo_world
                  = Done ((0, 0x59 :: 0x02 :: 0x29 :: records), w') ∧
    decode_dtcs records = Some [DtcEntry 0x030100 0x29; DtcEntry 0x042000 0x29].
Proof.
  destruct (read_dtc_decodes (E:=demo_env) demo_buf 0x08 demo_world demo_ecu_wf) as (rs & w' & H1 & H2 & _);
    [by compute|by compute|].
  exists rs, w'. split; [exact H1|]. rewrite H2. reflexivity.
Defined.

(** An ECU locked out past the end of the demonstration clock. *)
Definition demo_locked_out : world ecu_t :=
  World (on_state (λ s, set_session 3 (set_security (SecurityState 0 0 false 3 2000000000) s)) demo_ecu) 1 1.

Lemma demo_locked_out_wf : ecu_wf (obj demo_locked_out).
Proof. apply (demo_sec_wf _ demo_ecu demo_ecu_wf). by split; [left|..]. Qed.

Lemma lockout_over_bus_witness :
  ∃ out w', run (serve (E:=demo_env) demo_buf [[0x27; 0x01]]) demo_locked_out = Done ([out], w') ∧
    ∃ nrc, out = (0, [0x7F; 0x27; nrc_code nrc]).
Proof.
  destruct (lockout_over_bus (E:=demo_env) demo_buf [[0x27; 0x01]] demo_locked_out 2000000000 demo_locked_out_wf)
    as (outs & w' & H1 & _ & H2); [repeat (constructor; [deliver_lit|]); constructor|by repeat constructor|reflexivity| |].
  - intros n. rewrite demo_ms. lia.
  - destruct outs as [|out [|]]; [by inversion H2| |by inversion H2 as [|? ? ? ? ? H3]; inversion H3].
    exists out, w'. split; [exact H1|]. inversion H2 as [|? ? ? ? Hf]. by apply Hf.
Defined.

Lemma reset_skips_lockout_witness :
  ∃ w1, run (exchange (E:=demo_env) demo_buf [0x11; 0x01]) demo_locked_out = Done ((0, [0x51; 0x01]), w1).
Proof.
  destruct (reset_skips_lockout (E:=demo_env) demo_buf demo_locked_out demo_locked_out_wf)
    as (sd & w1 & _ & _ & _ & H & _); [by compute|]. by exists w1.
Defined.

