(* ===== verification/UdsSafe.v ===== *)
(** Every service handler is memory-safe and keeps the invariant of the ECU
    whatever the other threads do between its critical sections, and what it
    builds is a response to its own request: from the simulation of
    [UdsRefine.v] and what the services of [Services.v] can answer. *)

From S2P Require Import Prelude Effects Simulate UdsTypes DtcMem DidTable AppEngine Security Vecu Uds.
From S2P Require Import UdsSpec Services UdsRefine.

(** The suppress bit of the sub-function byte. *)
Definition suppress_bit (msg : bytes) : Prop := 128 <= nth 1 msg 0.

(** * What a service can answer *)

Section replies.
(** What is known of the registered identifiers. *)
Variables (F : list did_entry → Prop) (cap : Z).
Hypothesis (Hcap : 6 <= cap).

(** Only a ReadDataByIdentifier may be dropped, for static data that are too
    long; a response is held back only when the suppress bit is set. *)
Record reply_ok (msg : bytes) (r : reply) : Prop := {
  rk_dropped : r = Dropped →
    hd 0 msg = UDS_SID_READ_DATA_BY_IDENTIFIER ∧ ∃ ds e, F ds ∧ e ∈ ds ∧ payload_size < static_len e;
  rk_suppressed : ∀ args, r = Positive true args → suppress_bit msg;
  rk_len : len (reply_bytes (hd 0 msg) r) <= cap
}.

Context {E : Env}.

Definition keeps_dids {A} (p : aprog A) (Q : A → Prop) : Prop := safe never (λ a, F (a_dids a)) p Q.

Lemma dids_bind {A B} (p : aprog A) (k : A → aprog B) Q :
  keeps_dids p (λ _, True) → (∀ a, keeps_dids (k a) Q) → keeps_dids (p ≫= k) Q.
Proof. intros Hp Hk. eapply safe_bind; [exact Hp|]. intros a _. apply Hk. Qed.

Lemma request_keeps : keeps_dids act_request (λ _, True).
Proof. intros w Hw. destruct (phase_request _ _ _). by split. Qed.
Lemma key_keeps key : keeps_dids (act_key key) (λ _, True).
Proof. intros w Hw. destruct (phase_key _ _ _). by split. Qed.
Lemma observe_keeps {A} (f : aecu → A) : keeps_dids (observe f) (λ _, True).
Proof. intros w Hw. by split. Qed.
Lemma read_keeps f : keeps_dids (act_read f) (λ _, True).
Proof.
  destruct f; (apply dids_bind; [apply observe_keeps|]); intros g; (destruct (is_null g); [done|]);
    (apply dids_bind; [apply observe_keeps|done]).
Qed.
Lemma write_keeps name : keeps_dids (act_write name) (λ _, True).
Proof.
  apply dids_bind; [apply observe_keeps|]. intros g. destruct (_ || _); [done|]. intros w Hw. by split.
Qed.
Lemma required_keeps b f : keeps_dids (required b (observe f)) (λ _, True).
Proof. destruct b; [|done]. intros w Hw. by split. Qed.

Lemma negative_ok msg nrc : reply_ok msg (Negative nrc).
Proof using Hcap. split; [done..|]. simpl. rewrite !len_cons, len_nil. lia. Qed.
Lemma positive_ok msg sup args :
  (sup = true → suppress_bit msg) → len args < cap → reply_ok msg (Positive sup args).
Proof using Hcap. intros Hs Hl. split; [done|by intros ? [= -> _]; apply Hs|]. simpl. rewrite len_cons. lia. Qed.

Lemma did_answer_ok msg args v : len args = 2 → reply_ok msg (did_answer cap args v).
Proof using Hcap.
  intros Ha. unfold did_answer. destruct (Z.ltb_spec cap (3 + len v)); [apply negative_ok|].
  pose proof (len_nonneg v). apply positive_ok; [done|]. rewrite len_app. lia.
Qed.

Lemma answer_keeps {A} (r : A) (Q : A → Prop) : Q r → keeps_dids (mret r) Q.
Proof. done. Qed.

Lemma suppressed_by sid raw args : (128 <=? raw) = true → suppress_bit (sid :: raw :: args).
Proof. intros H%Z.leb_le. exact H. Qed.

Lemma sec_answer_ok sid raw args sub r : reply_ok (sid :: raw :: args) (sec_answer (128 <=? raw) sub r).
Proof using Hcap.
  destruct r; [..|apply negative_ok]; apply positive_ok; try apply suppressed_by; unfold be32; rewrite ?len_cons, ?len_nil; lia.
Qed.

(** One step through a service. *)
Ltac service_step :=
  first
    [ apply answer_keeps; first
        [ apply negative_ok | by apply did_answer_ok | apply sec_answer_ok
        | dec; apply positive_ok; [first [done | apply suppressed_by]|rewrite ?len_app, ?encode_dtcs_len, ?len_cons, ?len_nil; lia] ]
    | apply dids_bind;
      [ first [ apply observe_keeps | apply request_keeps | apply key_keeps | apply read_keeps | apply write_keeps
              | apply required_keeps | by intros w Hw ]
      | intros ? ]
    | progress cbv zeta
    | match goal with
      | |- keeps_dids (mret (if ?b then _ else _)) _ => destruct b eqn:?
      | |- keeps_dids (if ?b then _ else _) _ => destruct b eqn:?
      | |- keeps_dids (match ?x with _ => _ end) _ => destruct x eqn:?
      end ].

Lemma read_did_keeps args : keeps_dids (svc_read_did cap args) (reply_ok (0x22 :: args)).
Proof using Hcap.
  destruct args as [|hi [|lo [|x l]]]; unfold svc_read_did; try (repeat service_step; fail).
  eapply (safe_bind _ _ _ _ (λ r, ∀ e, r = Some e → ∃ ds, F ds ∧ e ∈ ds)).
  { intros w Hw. split; [done|]. intros e He. exists (a_dids (obj w)). split; [done|]. by apply find_did_Some in He as [? _]. }
  intros [e|] He; [|by apply negative_ok]. destruct (static_data e) as [data|].
  - apply answer_keeps. destruct (Z.ltb_spec 256 (static_len e)); [|by apply did_answer_ok].
    destruct (He e eq_refl) as (ds & Hds & Hin). split; [|done|by change (0 <= cap); lia]. intros _. split; [done|]. by exists ds, e.
  - destruct (read e) as [f|]; [|apply answer_keeps, negative_ok]. apply dids_bind; [apply read_keeps|].
    intros [v|]; apply answer_keeps; [by apply did_answer_ok|apply negative_ok].
Qed.

Lemma service_safe msg : msg ≠ [] → keeps_dids (service cap msg) (reply_ok msg).
Proof using Hcap.
  intros Hne. destruct msg as [|sid args]; [done|]. unfold service.
  destruct (sid =? 0x10); [unfold svc_session; repeat service_step|].
  destruct (sid =? 0x11); [unfold svc_reset; repeat service_step|].
  destruct (sid =? 0x14); [unfold svc_clear_dtc; repeat service_step|].
  destruct (sid =? 0x19); [unfold svc_read_dtc; repeat service_step|].
  destruct (Z.eqb_spec sid 0x22) as [->|_]; [apply read_did_keeps|].
  destruct (sid =? 0x27); [unfold svc_security; repeat service_step|].
  destruct (sid =? 0x2E); [unfold svc_write_did; repeat service_step|].
  destruct (sid =? 0x3E); [unfold svc_tester_present; repeat service_step|]. apply answer_keeps, negative_ok.
Qed.
End replies.

(** * The handlers *)

(** The response object starts like a response to service [sid]. *)
Definition answers (sid : Z) (resp : bytes) (n : Z) : Prop :=
  ld resp 0 = Done (UDS_POS_RESP sid) ∨
  ld resp 0 = Done UDS_NEGATIVE_RESPONSE ∧ ld resp 1 = Done sid ∧ n = 3.

(** A handler's result for the request [msg]: the response object keeps its
    size; only a ReadDataByIdentifier may be dropped; a response lies within
    the declared capacity and answers the request, and is held back only when
    the suppress bit is set. *)
Definition handled (msg buf : bytes) (cap : Z) (h : hret) : Prop :=
  len (hr_resp h) = len buf ∧
  (hr_rc h = -1 ∧ hd 0 msg = UDS_SID_READ_DATA_BY_IDENTIFIER ∨
   (hr_rc h = 0 ∨ hr_rc h = 1 ∧ suppress_bit msg) ∧ 1 <= hr_len h <= cap ∧
   answers (hd 0 msg) (hr_resp h) (hr_len h)).

Lemma conforms_handled F cap msg buf h r :
  conforms (hd 0 msg) buf h r → reply_ok F cap msg r → handled msg buf cap h.
Proof.
  intros (Hrc & Hlen & Hr) [Hd Hs Hl]. split; [exact Hlen|].
  destruct r as [sup args|nrc|]; [| |left; split; [exact Hrc|by apply Hd]]; right;
    destruct (Hr ltac:(done)) as (Hn & rest & Hresp); rewrite Hn; (split; [|split]).
  - rewrite Hrc. destruct sup; [right; split; [done|by eapply Hs]|by left].
  - simpl. rewrite len_cons. pose proof (len_nonneg args). simpl in Hl. rewrite len_cons in Hl. lia.
  - left. by rewrite Hresp.
  - by left.
  - simpl in *. rewrite !len_cons, len_nil in *. lia.
  - right. rewrite Hresp. by repeat split.
Qed.

Definition not_dropped (h : hret) : Prop := hr_rc h ≠ -1.

Section safety.
Context {E : Env} `{!ClockBounded E}.

Lemma security_relock_safe : safe never security_wf (crit Locked security_relock) (λ _, True).
Proof. intros w Hwf. destruct (security_relock_refines w Hwf) as (w' & -> & _ & Hwf' & _). done. Qed.

(** What holds of every answer a service can give holds of the response, as
    long as [F] is known of the identifiers. *)
Lemma process_request_safe I F msg junk buf cap n0 :
  (∀ e, I e ↔ ecu_wf e ∧ F (registered (dids (state e)))) →
  Forall is_byte msg → msg ≠ [] → 6 <= cap <= len buf →
  safe never I (uds_process_request PTR (Some (msg ++ junk)) (len msg) (Some buf) cap (Some n0))
    (λ r, ∃ h, r = (hr_rc h, Some (hr_resp h, hr_len h)) ∧
               ∃ rp, conforms (hd 0 msg) buf h rp ∧ reply_ok F cap msg rp).
Proof.
  intros HI Hb Hne Hcap. unfold uds_process_request.
  eapply (safe_bind _ _ _ _ (λ h, ∃ rp, conforms (hd 0 msg) buf h rp ∧ reply_ok F cap msg rp)).
  - destruct msg as [|sid args]; [done|].
    eapply (sim_safe ecu_wf abs never I never (λ a, F (a_dids a))); [apply HI|intros s ? ?; by apply HI|done| |].
    + apply dispatch_sim; [done|lia|lia].
    + by apply service_safe; [lia|].
  - intros h Hh. by exists h.
Qed.

Lemma uds_process_request_safe msg junk buf cap n0 :
  Forall is_byte msg → msg ≠ [] → 6 <= cap <= len buf →
  safe never ecu_wf (uds_process_request PTR (Some (msg ++ junk)) (len msg) (Some buf) cap (Some n0))
    (λ r, ∃ h, r = (hr_rc h, Some (hr_resp h, hr_len h)) ∧ handled msg buf cap h).
Proof.
  intros Hb Hne Hcap. eapply safe_mono; [apply (process_request_safe _ (λ _, True)); [by intros e; split; [|intros []]|done..]|].
  intros r (h & -> & rp & Hc & Hr). exists h. split; [done|]. by eapply conforms_handled.
Qed.

(** Nothing is dropped as long as the static data fit the payload buffer, as
    those do that [vecu_init] registers. *)
Definition statics_fit (e : ecu_t) : Prop := Forall (λ en, static_len en <= payload_size) (registered (dids (state e))).

Lemma vecu_dids_fit e : registered (dids (state e)) = vecu_dids → statics_fit e.
Proof. unfold statics_fit. intros ->. repeat constructor; by compute. Qed.

Definition ecu_fit (e : ecu_t) : Prop := ecu_wf e ∧ statics_fit e.

Lemma uds_process_request_answers msg junk buf cap n0 :
  Forall is_byte msg → msg ≠ [] → 6 <= cap <= len buf →
  safe never ecu_fit
    (uds_process_request PTR (Some (msg ++ junk)) (len msg) (Some buf) cap (Some n0))
    (λ r, ∃ h, r = (hr_rc h, Some (hr_resp h, hr_len h)) ∧ handled msg buf cap h ∧ not_dropped h).
Proof.
  intros Hb Hne Hcap.
  eapply safe_mono; [by apply (process_request_safe _ (Forall (λ en, static_len en <= payload_size)))|].
  intros r (h & -> & rp & Hc & Hr). exists h. split; [done|]. split; [by eapply conforms_handled|].
  unfold not_dropped. destruct Hc as (-> & _). destruct rp as [[]|nrc|]; [done..|].
  destruct (rk_dropped _ _ _ _ Hr eq_refl) as (_ & ds & e & Hds & Hin & Hlt).
  pose proof (proj1 (Forall_forall _ _) Hds e Hin). simpl in *. lia.
Qed.
End safety.
