(* ===== verification/Queue.v ===== *)
(** [src/queue.c] and [include/queue.h]: the bounded blocking FIFO between
    the receive thread and the dispatcher.

    The locked regions are definitions on the ring buffer; a
    [pthread_cond_wait] loop is [wait_while]: the section is [Blocked] as
    long as its condition holds.  That this is what the condition variables
    do (nobody sleeps through a wake-up it needed) is proved on the monitor of
    the last part, where signals, broadcasts and spurious wake-ups are
    explicit. *)

From S2P Require Import Prelude Effects UdsTypes.

Definition UDS_QUEUE_CAP : Z := 8.

Record uds_msg_t := UdsMsg { msg_data : bytes; msg_len : Z }.

Record uds_queue_t := UdsQueue {
  slots : list uds_msg_t;
  q_head : Z;      (* head: pop index *)
  q_tail : Z;      (* tail: push index *)
  q_count : Z;
  closed : bool
}.

(** [memset(q, 0, sizeof( *q))] *)
Definition uds_msg_zero : uds_msg_t := UdsMsg (replicate (Z.to_nat UDS_MAX_MSG_LEN) 0) 0.
Definition uds_queue_init : uds_queue_t :=
  UdsQueue (replicate (Z.to_nat UDS_QUEUE_CAP) uds_msg_zero) 0 0 0 false.

(** * Operations *)

(** Lines 39-43: copy the message into the slot at the tail. *)
Definition push_slot (data : bytes) (n : Z) (q : uds_queue_t) : outcome uds_queue_t :=
  slot ← ld (slots q) (q_tail q);
  d ← memcpy (msg_data slot) 0 data 0 n;
  s ← st (slots q) (q_tail q) (UdsMsg d n);
  Done (UdsQueue s (q_head q) (u64 (q_tail q + 1) mod UDS_QUEUE_CAP) (u64 (q_count q + 1)) (closed q)).

(** Lines 60-62: take the message at the head. *)
Definition pop_slot (q : uds_queue_t) : outcome (uds_msg_t * uds_queue_t) :=
  m ← ld (slots q) (q_head q);
  Done (m, UdsQueue (slots q) (u64 (q_head q + 1) mod UDS_QUEUE_CAP) (q_tail q)
             (u64 (q_count q - 1)) (closed q)).

(** The conditions of the two wait loops. *)
Definition push_waits (q : uds_queue_t) : bool := negb (closed q) && (q_count q =? UDS_QUEUE_CAP).
Definition pop_waits (q : uds_queue_t) : bool := negb (closed q) && (q_count q =? 0).

(** What happens under the lock once the wait loop is left: the return code,
    the message handed out, and the queue. *)
Definition push_locked (data : bytes) (n : Z) (q : uds_queue_t) : outcome (Z * uds_queue_t) :=
  if closed q then Done (-1, q) else q' ← push_slot data n q; Done (0, q').

Definition pop_locked (q : uds_queue_t) : outcome (Z * option uds_msg_t * uds_queue_t) :=
  if q_count q =? 0 then Done (-1, None, q)
  else '(m, q') ← pop_slot q; Done (0, Some m, q').

(** The guards of line 30. *)
Definition push_accepts (n : Z) : bool := negb (n =? 0) && (n <=? UDS_MAX_MSG_LEN).

Definition uds_queue_push {E : Env} (q : ptr) (data : option bytes) (n : Z) : prog access uds_queue_t Z :=
  match q, data with
  | PTR, Some data =>
      if negb (push_accepts n) then mret (-1) else
      crit Locked (wait_while push_waits;; on_obj (push_locked data n))
  | _, _ => mret (-1)
  end.

(** [out] is where the message goes. *)
Definition uds_queue_pop_blocking {E : Env} (q out : ptr) : prog access uds_queue_t (Z * option uds_msg_t) :=
  if is_null q || is_null out then mret (-1, None) else
  crit Locked (wait_while pop_waits;; on_obj pop_locked).

Definition set_closed (q : uds_queue_t) : uds_queue_t :=
  UdsQueue (slots q) (q_head q) (q_tail q) (q_count q) true.

Definition uds_queue_shutdown {E : Env} (q : ptr) : prog access uds_queue_t () :=
  if is_null q then mret () else crit Locked (modify set_closed).

(** * Abstraction: the queue is a list of messages *)

Definition payload (m : uds_msg_t) : bytes := take (Z.to_nat (msg_len m)) (msg_data m).

Definition slot_at (q : uds_queue_t) (i : nat) : uds_msg_t :=
  default uds_msg_zero (slots q !! Z.to_nat ((q_head q + Z.of_nat i) mod UDS_QUEUE_CAP)).

Definition contents (q : uds_queue_t) : list bytes :=
  map (λ i, payload (slot_at q i)) (seq 0 (Z.to_nat (q_count q))).

Record msg_wf (m : uds_msg_t) : Prop := {
  mwf_size : len (msg_data m) = UDS_MAX_MSG_LEN;
  mwf_len : 0 <= msg_len m <= UDS_MAX_MSG_LEN;
  mwf_bytes : Forall is_byte (msg_data m)
}.

Record queue_wf (q : uds_queue_t) : Prop := {
  qwf_slots : len (slots q) = UDS_QUEUE_CAP;
  qwf_msgs : Forall msg_wf (slots q);
  qwf_head : 0 <= q_head q < UDS_QUEUE_CAP;
  qwf_count : 0 <= q_count q <= UDS_QUEUE_CAP;
  qwf_tail : q_tail q = (q_head q + q_count q) mod UDS_QUEUE_CAP;
  (* the queued messages have 1 to 4095 bytes *)
  qwf_queued : Forall (λ m, 1 <= len m <= UDS_MAX_MSG_LEN) (contents q)
}.

Lemma uds_msg_zero_wf : msg_wf uds_msg_zero.
Proof. split; [by vm_compute|by vm_compute|]. by apply Forall_replicate. Qed.

Lemma uds_queue_init_wf : queue_wf uds_queue_init.
Proof.
  split; [done| |by compute|by compute|done|by constructor].
  apply Forall_replicate, uds_msg_zero_wf.
Qed.

Lemma contents_init : contents uds_queue_init = [].
Proof. done. Qed.

Lemma len_contents q : queue_wf q → len (contents q) = q_count q.
Proof. intros []. unfold contents, len. rewrite length_map, length_seq. lia. Qed.

Lemma payload_len m : msg_wf m → len (payload m) = msg_len m.
Proof. intros []. unfold payload. rewrite len_take; [done|lia]. Qed.

Lemma payload_bytes m : msg_wf m → Forall is_byte (payload m).
Proof. intros []. by apply Forall_take. Qed.

(** The slot of an index modulo the capacity. *)
Lemma slot_in_range q i :
  queue_wf q → ∃ m, slots q !! Z.to_nat (i mod UDS_QUEUE_CAP) = Some m ∧ msg_wf m ∧
                    ld (slots q) (i mod UDS_QUEUE_CAP) = Done m.
Proof.
  intros Hwf. pose proof (Z.mod_pos_bound i UDS_QUEUE_CAP ltac:(done)) as Hi.
  destruct (ld_in_range (slots q) (i mod UDS_QUEUE_CAP)) as (m & Hld & Hm);
    [rewrite (qwf_slots _ Hwf); lia|].
  exists m. split; [done|]. split; [|done].
  eapply Forall_lookup_1; [apply (qwf_msgs _ Hwf)|done].
Qed.

(** Positions of the window are distinct. *)
Lemma window_distinct h i n :
  (i < n)%nat → Z.of_nat n < UDS_QUEUE_CAP →
  (h + Z.of_nat i) mod UDS_QUEUE_CAP ≠ (h + Z.of_nat n) mod UDS_QUEUE_CAP.
Proof. unfold UDS_QUEUE_CAP. intros. Z.div_mod_to_equations. lia. Qed.

(** Pushing appends. *)
Lemma push_slot_spec data rest q :
  queue_wf q → q_count q < UDS_QUEUE_CAP → 1 <= len data <= UDS_MAX_MSG_LEN → Forall is_byte data →
  ∃ q', push_slot (data ++ rest) (len data) q = Done q' ∧ queue_wf q' ∧
    contents q' = contents q ++ [data] ∧ closed q' = closed q.
Proof.
  intros Hwf Hc Hlen Hb. pose proof Hwf as [Hs Hms Hh [Hc0 _] Ht Hq].
  unfold push_slot. rewrite Ht.
  destruct (slot_in_range q (q_head q + q_count q) Hwf) as (m & Hm & [Hsz _ Hmb] & Hld).
  rewrite Hld. cbn [mbind outcome_bind]. rewrite memcpy_prefix by lia. cbn [mbind outcome_bind].
  set (d := data ++ drop (length data) (msg_data m)).
  set (k := (q_head q + q_count q) mod UDS_QUEUE_CAP) in *.
  pose proof (Z.mod_pos_bound (q_head q + q_count q) UDS_QUEUE_CAP ltac:(done)) as Hk. fold k in Hk.
  destruct (st_in_range (slots q) k (UdsMsg d (len data))) as (s' & -> & Hs' & Hins); [lia|].
  cbn [mbind outcome_bind].
  assert (Hmw : msg_wf (UdsMsg d (len data))).
  { split; simpl; [|lia|].
    - unfold d. rewrite len_app. unfold len in *. rewrite length_drop. lia.
    - apply Forall_app. split; [done|]. by apply Forall_drop. }
  assert (Hu : u64 (q_count q + 1) = q_count q + 1) by (apply u64_id; unfold UDS_QUEUE_CAP in *; lia).
  assert (Hu' : u64 (k + 1) = k + 1) by (apply u64_id; unfold UDS_QUEUE_CAP in *; lia).
  eexists. split; [done|].
  assert (Hcont : contents (UdsQueue s' (q_head q) (u64 (k + 1) mod UDS_QUEUE_CAP)
                              (u64 (q_count q + 1)) (closed q)) = contents q ++ [data]).
  { unfold contents; simpl. rewrite Hu.
    replace (Z.to_nat (q_count q + 1)) with (S (Z.to_nat (q_count q))) by lia.
    rewrite seq_S, map_app. f_equal.
    - apply map_ext_in. intros i Hi%in_seq. unfold slot_at; simpl. subst s'.
      rewrite list_lookup_insert_ne; [done|].
      pose proof (window_distinct (q_head q) i (Z.to_nat (q_count q)) ltac:(lia) ltac:(lia)) as Hd.
      rewrite Z2Nat.id in Hd by lia. fold k in Hd.
      pose proof (Z.mod_pos_bound (q_head q + Z.of_nat i) UDS_QUEUE_CAP ltac:(done)). lia.
    - simpl. f_equal. unfold slot_at; simpl. rewrite Z2Nat.id by lia. fold k. subst s'.
      rewrite list_lookup_insert_eq by (unfold len in *; lia). simpl.
      unfold payload, d; simpl. by rewrite to_nat_len, take_app_length. }
  split; [|by split].
  split; simpl; [lia| |done|lia| |].
  - subst s'. by apply Forall_insert.
  - rewrite Hu', Hu. unfold k. rewrite Z.add_mod_idemp_l by done. f_equal. lia.
  - rewrite Hcont. apply Forall_app. split; [done|]. constructor; [done|constructor].
Qed.

(** Popping takes the first message. *)
Lemma pop_slot_spec q :
  queue_wf q → q_count q ≠ 0 →
  ∃ m q', pop_slot q = Done (m, q') ∧ queue_wf q' ∧ msg_wf m ∧
    contents q = payload m :: contents q' ∧ closed q' = closed q.
Proof.
  intros Hwf Hne. pose proof Hwf as [Hs Hms Hh [Hc0 Hc1] Ht Hq]. unfold pop_slot.
  destruct (slot_in_range q (q_head q) Hwf) as (m & Hm & Hmwf & Hld).
  rewrite (Z.mod_small (q_head q)) in Hm, Hld by done. rewrite Hld. cbn [mbind outcome_bind].
  assert (Hu : u64 (q_count q - 1) = q_count q - 1) by (apply u64_id; unfold UDS_QUEUE_CAP in *; lia).
  assert (Hu' : u64 (q_head q + 1) = q_head q + 1) by (apply u64_id; unfold UDS_QUEUE_CAP in *; lia).
  eexists _, _. split; [done|].
  assert (Hcont : contents q = payload m ::
    contents (UdsQueue (slots q) (u64 (q_head q + 1) mod UDS_QUEUE_CAP) (q_tail q)
                (u64 (q_count q - 1)) (closed q))).
  { unfold contents; simpl. rewrite Hu.
    replace (Z.to_nat (q_count q)) with (S (Z.to_nat (q_count q - 1))) by lia. simpl. f_equal.
    - unfold slot_at. rewrite Z.add_0_r, (Z.mod_small (q_head q)), Hm by done. done.
    - rewrite <- seq_shift, map_map. apply map_ext. intros i. unfold slot_at; simpl.
      rewrite Hu', Z.add_mod_idemp_l by done. by replace (q_head q + 1 + Z.of_nat i) with (q_head q + Z.of_nat (S i)) by lia. }
  split; [|split; [exact Hmwf|]; split; [exact Hcont|done]].
  split; simpl; [done|done|apply Z.mod_pos_bound; done|lia| |].
  - rewrite Hu', Hu, Z.add_mod_idemp_l, Ht by done. f_equal. lia.
  - rewrite Hcont in Hq. by apply Forall_cons in Hq as [_ Hq].
Qed.

(** * Abstract specification: a bounded FIFO that can be closed *)

Inductive queue_op : Type :=
| Push (data rest : bytes)   (* the message, and what follows it in memory *)
| Pop
| Shutdown.

(** The return code and the message handed out. *)
Abbreviation queue_res := (Z * option bytes)%type.

Definition exec_queue_op {E : Env} (op : queue_op) : prog access uds_queue_t queue_res :=
  match op with
  | Push data rest => rc ← uds_queue_push PTR (Some (data ++ rest)) (len data); mret (rc, None)
  | Pop => '(rc, m) ← uds_queue_pop_blocking PTR PTR; mret (rc, option_map payload m)
  | Shutdown => uds_queue_shutdown PTR;; mret (0, None)
  end.

Record fifo := Fifo { f_msgs : list bytes; f_closed : bool }.

Definition fifo_of (q : uds_queue_t) : fifo := Fifo (contents q) (closed q).

(** [None]: the caller waits. *)
Definition fifo_step (op : queue_op) (f : fifo) : option (queue_res * fifo) :=
  match op with
  | Push data _ =>
      if negb (push_accepts (len data)) then Some ((-1, None), f)
      else if f_closed f then Some ((-1, None), f)
      else if len (f_msgs f) =? UDS_QUEUE_CAP then None
      else Some ((0, None), Fifo (f_msgs f ++ [data]) false)
  | Pop =>
      match f_msgs f with
      | m :: ms => Some ((0, Some m), Fifo ms (f_closed f))
      | [] => if f_closed f then Some ((-1, None), f) else None
      end
  | Shutdown => Some ((0, None), Fifo (f_msgs f) true)
  end.

Definition op_bytes (op : queue_op) : Prop :=
  match op with Push data _ => Forall is_byte data | _ => True end.

Section refinement.
Context {E : Env}.
Implicit Types w : world uds_queue_t.

Lemma set_closed_wf q : queue_wf q → queue_wf (set_closed q).
Proof. by intros []. Qed.

Lemma push_accepts_range (data : bytes) : push_accepts (len data) = true → 1 <= len data <= UDS_MAX_MSG_LEN.
Proof.
  unfold push_accepts. rewrite andb_true_iff, Z.leb_le. intros [Hn Hle].
  pose proof (len_nonneg data). zb; lia.
Qed.

(** A waiting section, run. *)
Lemma run_waiting {A} cond (f : uds_queue_t → outcome (A * uds_queue_t)) q rd dr :
  run (crit Locked (wait_while cond;; on_obj f)) (World q rd dr) =
  if cond q then Blocked else
  match f q with
  | Done (a, q') => Done (a, World q' rd dr)
  | Blocked => Blocked
  | Undefined => Undefined
  end.
Proof. rewrite run_crit. cs_simpl. unfold wait_while, on_obj. simpl. by destruct (cond q). Qed.

Lemma push_refines data rest q rd dr :
  queue_wf q → Forall is_byte data →
  match fifo_step (Push data rest) (fifo_of q) with
  | Some (r, f) => ∃ w', run (exec_queue_op (Push data rest)) (World q rd dr) = Done (r, w') ∧
                         fifo_of (obj w') = f ∧ queue_wf (obj w')
  | None => run (exec_queue_op (Push data rest)) (World q rd dr) = Blocked
  end.
Proof.
  intros Hwf Hb. pose proof (qwf_count _ Hwf) as Hc. unfold exec_queue_op, uds_queue_push, fifo_step, fifo_of.
  cbn [f_msgs f_closed]. rewrite len_contents by done.
  destruct (push_accepts (len data)) eqn:Ha; cbn [negb]; [|by exists (World q rd dr)].
  apply push_accepts_range in Ha.
  rewrite run_bind, run_waiting. unfold push_waits, push_locked.
  destruct (closed q) eqn:Hcl; cbn [negb andb].
  - exists (World q rd dr). cbn [obj]. by rewrite Hcl.
  - destruct (Z.eqb_spec (q_count q) UDS_QUEUE_CAP) as [|Hne]; [done|].
    destruct (push_slot_spec data rest q Hwf) as (q' & -> & Hwf' & Hcont & Hcl'); [lia|done|done|].
    exists (World q' rd dr). cbn [obj]. by rewrite Hcont, Hcl', Hcl.
Qed.

Lemma pop_refines q rd dr :
  queue_wf q →
  match fifo_step Pop (fifo_of q) with
  | Some (r, f) => ∃ w', run (exec_queue_op Pop) (World q rd dr) = Done (r, w') ∧
                         fifo_of (obj w') = f ∧ queue_wf (obj w')
  | None => run (exec_queue_op Pop) (World q rd dr) = Blocked
  end.
Proof.
  intros Hwf. pose proof (len_contents q Hwf) as Hl.
  unfold exec_queue_op, uds_queue_pop_blocking, fifo_step, fifo_of. cbn [f_msgs f_closed is_null orb].
  rewrite run_bind, run_waiting. unfold pop_waits, pop_locked.
  destruct (Z.eqb_spec (q_count q) 0) as [H0|Hne].
  - rewrite H0 in Hl. apply len_0_inv in Hl. rewrite Hl.
    destruct (closed q) eqn:Hcl; cbn [negb andb]; [|done].
    exists (World q rd dr). cbn [obj]. by rewrite Hl, Hcl.
  - rewrite andb_false_r. destruct (pop_slot_spec q Hwf Hne) as (m & q' & -> & Hwf' & _ & Hcont & Hcl).
    rewrite Hcont. exists (World q' rd dr). cbn [obj]. by rewrite Hcl.
Qed.

(** One operation is one step of the FIFO, or waits when the FIFO does. *)
Lemma queue_op_refines op w :
  queue_wf (obj w) → op_bytes op →
  match fifo_step op (fifo_of (obj w)) with
  | Some (r, f) => ∃ w', run (exec_queue_op op) w = Done (r, w') ∧ fifo_of (obj w') = f ∧ queue_wf (obj w')
  | None => run (exec_queue_op op) w = Blocked
  end.
Proof.
  intros Hwf Hb. destruct w as [q rd dr]. destruct op as [data rest| |].
  - by apply push_refines.
  - by apply pop_refines.
  - eexists. split; [done|]. split; [done|]. by apply set_closed_wf.
Qed.

(** ** Histories *)

Fixpoint exec_queue_ops (ops : list queue_op) : prog access uds_queue_t (list queue_res) :=
  match ops with
  | [] => mret []
  | op :: ops => r ← exec_queue_op op; rs ← exec_queue_ops ops; mret (r :: rs)
  end.

(** The messages accepted, and the messages handed out, in order. *)
Definition accepted (opr : queue_op * queue_res) : option bytes :=
  match opr with (Push data _, (rc, _)) => if rc =? 0 then Some data else None | _ => None end.
Definition delivered (r : queue_res) : option bytes := r.2.

Lemma fifo_step_conserves op f r f' :
  fifo_step op f = Some (r, f') →
  option_list (delivered r) ++ f_msgs f' = f_msgs f ++ option_list (accepted (op, r)).
Proof.
  destruct op as [data rest| |]; simpl; intros H.
  - repeat (case_match; simplify_eq); simpl; by rewrite ?app_nil_r.
  - repeat (case_match; simplify_eq); simpl; by rewrite ?app_nil_r.
  - simplify_eq. simpl. by rewrite app_nil_r.
Qed.

Lemma exec_queue_ops_conserves ops w rs w' :
  queue_wf (obj w) → Forall op_bytes ops → run (exec_queue_ops ops) w = Done (rs, w') →
  queue_wf (obj w') ∧
  omap delivered rs ++ contents (obj w') = contents (obj w) ++ omap accepted (zip ops rs).
Proof.
  revert w rs. induction ops as [|op ops IH]; intros w rs Hwf Hb Hrun.
  - simpl in Hrun. simplify_eq. simpl. by rewrite app_nil_r.
  - apply Forall_cons in Hb as [Hb Hbs]. cbn [exec_queue_ops] in Hrun. rewrite run_bind in Hrun.
    pose proof (queue_op_refines op w Hwf Hb) as Hop.
    destruct (fifo_step op (fifo_of (obj w))) as [[r f]|] eqn:Hs; [|by rewrite Hop in Hrun].
    destruct Hop as (w1 & Hop & Hf & Hwf1). rewrite Hop, run_bind in Hrun.
    destruct (run (exec_queue_ops ops) w1) as [[rs1 w2]| |] eqn:E1; simpl in Hrun; simplify_eq.
    destruct (IH w1 rs1 Hwf1 Hbs E1) as [Hwf2 Hc]. split; [done|].
    apply fifo_step_conserves in Hs. cbn [fifo_of f_msgs] in Hs.
    change (zip (op :: ops) (r :: rs1)) with ((op, r) :: zip ops rs1).
    rewrite !omap_cons_app, <- app_assoc, Hc, !app_assoc. by rewrite Hs.
Qed.
(** What the operations on a closed queue of these messages return, and what
    they leave. *)
Fixpoint drained (ops : list queue_op) (ms : list bytes) : list queue_res * list bytes :=
  match ops with
  | [] => ([], ms)
  | Push _ _ :: ops => let '(rs, ms) := drained ops ms in ((-1, None) :: rs, ms)
  | Shutdown :: ops => let '(rs, ms) := drained ops ms in ((0, None) :: rs, ms)
  | Pop :: ops =>
      match ms with
      | m :: ms => let '(rs, ms) := drained ops ms in ((0, Some m) :: rs, ms)
      | [] => let '(rs, ms) := drained ops [] in ((-1, None) :: rs, ms)
      end
  end.

Lemma closed_queue_drains ops w :
  queue_wf (obj w) → closed (obj w) = true → Forall op_bytes ops →
  ∃ w', run (exec_queue_ops ops) w = Done ((drained ops (contents (obj w))).1, w') ∧
    contents (obj w') = (drained ops (contents (obj w))).2 ∧ closed (obj w') = true ∧ queue_wf (obj w').
Proof.
  revert w. induction ops as [|op ops IH]; intros w Hwf Hcl Hb; [by exists w|].
  apply Forall_cons in Hb as [Hb Hbs]. pose proof (queue_op_refines op w Hwf Hb) as Hop.
  assert (Hs : ∃ r ms, fifo_step op (fifo_of (obj w)) = Some (r, Fifo ms true) ∧
    drained (op :: ops) (contents (obj w)) = (r :: (drained ops ms).1, (drained ops ms).2)).
  { unfold fifo_of. rewrite Hcl. destruct op as [data rest| |]; simpl.
    - exists (-1, None), (contents (obj w)). split; [by destruct (negb _)|]. by destruct (drained ops _).
    - destruct (contents (obj w)) as [|m ms]; [exists (-1, None), []|exists (0, Some m), ms];
        (split; [done|]); by destruct (drained ops _).
    - exists (0, None), (contents (obj w)). split; [done|]. by destruct (drained ops _). }
  destruct Hs as (r & ms & Hs & ->). rewrite Hs in Hop. destruct Hop as (w1 & Hop & Hf & Hwf1). injection Hf as Hc1 Hcl1.
  destruct (IH w1 Hwf1 Hcl1 Hbs) as (w2 & Hr & Hw2). rewrite Hc1 in Hr, Hw2. exists w2. split; [|exact Hw2].
  cbn [exec_queue_ops]. by rewrite run_bind, Hop, run_bind, Hr.
Qed.
End refinement.

(** * The condition variables

    Any number of callers of push and pop, with the two wait sets explicit:
    [pthread_cond_wait] puts the caller to sleep, [pthread_cond_signal] wakes
    one sleeper of its condition if there is one, [pthread_cond_broadcast]
    wakes all, and a sleeper may wake spuriously at any time.  A woken caller
    takes the mutex again and re-tests its loop condition. *)

Inductive caller : Type :=
| Outside                             (* not in a queue operation *)
| Pushing (data rest : bytes)         (* about to take the mutex in push *)
| PushAsleep (data rest : bytes)      (* in pthread_cond_wait(not_full) *)
| Popping                             (* about to take the mutex in pop *)
| PopAsleep.                          (* in pthread_cond_wait(not_empty) *)

Definition is_pushing (c : caller) : bool := match c with Pushing _ _ => true | _ => false end.
Definition is_push_asleep (c : caller) : bool := match c with PushAsleep _ _ => true | _ => false end.
Definition is_popping (c : caller) : bool := match c with Popping => true | _ => false end.
Definition is_pop_asleep (c : caller) : bool := match c with PopAsleep => true | _ => false end.

(** Leaving pthread_cond_wait. *)
Definition wake (c : caller) : caller :=
  match c with
  | PushAsleep data rest => Pushing data rest
  | PopAsleep => Popping
  | _ => c
  end.

(** [pthread_cond_signal] on the condition of the callers [asleep]. *)
Inductive signal (asleep : caller → bool) : list caller → list caller → Prop :=
| signal_none cs : Forall (λ c, asleep c = false) cs → signal asleep cs cs
| signal_one cs i c : cs !! i = Some c → asleep c = true → signal asleep cs (<[i := wake c]> cs).

Definition monitor : Type := uds_queue_t * list caller.

Inductive mon_step : monitor → monitor → Prop :=
| mon_call_push q cs i data rest :
    cs !! i = Some Outside → push_accepts (len data) = true → Forall is_byte data →
    mon_step (q, cs) (q, <[i := Pushing data rest]> cs)
| mon_call_pop q cs i :
    cs !! i = Some Outside → mon_step (q, cs) (q, <[i := Popping]> cs)
| mon_push_wait q cs i data rest :
    cs !! i = Some (Pushing data rest) → push_waits q = true →
    mon_step (q, cs) (q, <[i := PushAsleep data rest]> cs)
| mon_push_fail q q' cs i data rest :
    cs !! i = Some (Pushing data rest) → push_waits q = false →
    push_locked (data ++ rest) (len data) q = Done (-1, q') →
    mon_step (q, cs) (q', <[i := Outside]> cs)
| mon_push_done q q' cs cs' i data rest :
    cs !! i = Some (Pushing data rest) → push_waits q = false →
    push_locked (data ++ rest) (len data) q = Done (0, q') →
    signal is_pop_asleep (<[i := Outside]> cs) cs' →
    mon_step (q, cs) (q', cs')
| mon_pop_wait q cs i :
    cs !! i = Some Popping → pop_waits q = true → mon_step (q, cs) (q, <[i := PopAsleep]> cs)
| mon_pop_fail q q' cs i :
    cs !! i = Some Popping → pop_waits q = false → pop_locked q = Done (-1, None, q') →
    mon_step (q, cs) (q', <[i := Outside]> cs)
| mon_pop_done q q' m cs cs' i :
    cs !! i = Some Popping → pop_waits q = false → pop_locked q = Done (0, Some m, q') →
    signal is_push_asleep (<[i := Outside]> cs) cs' →
    mon_step (q, cs) (q', cs')
| mon_spurious q cs i c : cs !! i = Some c → mon_step (q, cs) (q, <[i := wake c]> cs)
| mon_shutdown q cs : mon_step (q, cs) (set_closed q, map wake cs).

(** How many callers satisfy [f]. *)
Definition number (f : caller → bool) (cs : list caller) : Z := len (filter (λ c, f c = true) cs).

Lemma number_cons f c cs : number f (c :: cs) = Z.b2z (f c) + number f cs.
Proof.
  unfold number. rewrite filter_cons. destruct (f c) eqn:Hf.
  - rewrite decide_True by done. by rewrite len_cons.
  - rewrite decide_False by congruence. done.
Qed.

Lemma number_nonneg f cs : 0 <= number f cs.
Proof. apply len_nonneg. Qed.

Lemma number_insert f cs i c c' :
  cs !! i = Some c → number f (<[i := c']> cs) = number f cs - Z.b2z (f c) + Z.b2z (f c').
Proof.
  revert i. induction cs as [|x cs IH]; intros i Hi; [done|].
  destruct i as [|i]; simpl in Hi.
  - injection Hi as ->. change (<[0%nat := c']> (c :: cs)) with (c' :: cs). rewrite !number_cons. lia.
  - change (<[S i := c']> (x :: cs)) with (x :: <[i := c']> cs). rewrite !number_cons, (IH i Hi). lia.
Qed.

Lemma number_pos f cs i c : cs !! i = Some c → f c = true → 0 < number f cs.
Proof.
  revert i. induction cs as [|x cs IH]; intros i Hi Hf; [done|]. rewrite number_cons.
  pose proof (number_nonneg f cs). destruct i as [|i]; simpl in Hi.
  - injection Hi as ->. rewrite Hf. simpl. lia.
  - specialize (IH i Hi Hf). destruct (f x); simpl; lia.
Qed.

Lemma number_pos_inv f cs : 0 < number f cs → ∃ i c, cs !! i = Some c ∧ f c = true.
Proof.
  induction cs as [|x cs IH]; [by unfold number|]. rewrite number_cons. intros H.
  destruct (f x) eqn:Hf; [by exists 0%nat, x|].
  destruct IH as (i & c & Hi & Hc); [simpl in H; lia|]. by exists (S i), c.
Qed.

Lemma number_none f cs : Forall (λ c, f c = false) cs → number f cs = 0.
Proof. induction 1 as [|c cs Hc _ IH]; [done|]. rewrite number_cons, Hc, IH. done. Qed.

(** ** The counting invariant *)

Definition caller_ok (c : caller) : Prop :=
  match c with
  | Pushing data _ | PushAsleep data _ => 1 <= len data <= UDS_MAX_MSG_LEN ∧ Forall is_byte data
  | _ => True
  end.

Record mon_inv (m : monitor) : Prop := {
  mi_queue : queue_wf m.1;
  mi_callers : Forall caller_ok m.2;
  (* sleeping consumers: every queued message has an awake consumer coming *)
  mi_pop : 0 < number is_pop_asleep m.2 →
    closed m.1 = false ∧ q_count m.1 <= number is_popping m.2;
  (* sleeping producers: every free slot has an awake producer coming *)
  mi_push : 0 < number is_push_asleep m.2 →
    closed m.1 = false ∧ UDS_QUEUE_CAP <= q_count m.1 + number is_pushing m.2
}.

Lemma wake_ok c : caller_ok c → caller_ok (wake c).
Proof. by destruct c. Qed.

Lemma signal_pop_counts cs cs' :
  signal is_pop_asleep cs cs' → Forall caller_ok cs →
  Forall caller_ok cs' ∧ number is_pushing cs' = number is_pushing cs ∧
  number is_push_asleep cs' = number is_push_asleep cs ∧
  (number is_pop_asleep cs' = 0 ∨
   number is_popping cs' = number is_popping cs + 1 ∧ 0 < number is_pop_asleep cs).
Proof.
  intros [cs0 Hn|cs0 i c Hi Hc] Hok.
  - split; [done|]. split; [done|]. split; [done|]. left. by apply number_none.
  - pose proof (number_pos _ _ _ _ Hi Hc) as Hpos. destruct c; simpl in Hc; try done.
    rewrite !(number_insert _ _ _ _ _ Hi). simpl.
    split; [by apply Forall_insert|]. split; [lia|]. split; [lia|]. right. lia.
Qed.

Lemma signal_push_counts cs cs' :
  signal is_push_asleep cs cs' → Forall caller_ok cs →
  Forall caller_ok cs' ∧ number is_popping cs' = number is_popping cs ∧
  number is_pop_asleep cs' = number is_pop_asleep cs ∧
  (number is_push_asleep cs' = 0 ∨
   number is_pushing cs' = number is_pushing cs + 1 ∧ 0 < number is_push_asleep cs).
Proof.
  intros [cs0 Hn|cs0 i c Hi Hc] Hok.
  - split; [done|]. split; [done|]. split; [done|]. left. by apply number_none.
  - pose proof (number_pos _ _ _ _ Hi Hc) as Hpos. destruct c; simpl in Hc; try done.
    rewrite !(number_insert _ _ _ _ _ Hi). simpl.
    split; [apply Forall_insert; [done|]; exact (Forall_lookup_1 _ _ _ _ Hok Hi)|].
    split; [lia|]. split; [lia|]. right. lia.
Qed.

Lemma number_wake_asleep cs :
  number is_pop_asleep (map wake cs) = 0 ∧ number is_push_asleep (map wake cs) = 0.
Proof. split; apply number_none, Forall_map, Forall_true; by intros []. Qed.

(** The effect of the locked regions on the numbers. *)
Lemma push_locked_inv data rest q q' rc :
  queue_wf q → 1 <= len data <= UDS_MAX_MSG_LEN → Forall is_byte data → push_waits q = false →
  push_locked (data ++ rest) (len data) q = Done (rc, q') →
  queue_wf q' ∧ closed q' = closed q ∧
  (rc = 0 ∧ closed q = false ∧ q_count q' = q_count q + 1 ∨ rc = -1 ∧ closed q = true ∧ q' = q).
Proof.
  unfold push_waits, push_locked. intros Hwf Hlen Hb Hnw Hrun.
  destruct (closed q) eqn:Hcl; cbn [negb andb] in Hnw.
  - injection Hrun as <- <-. split; [done|]. split; [done|]. by right.
  - apply Z.eqb_neq in Hnw. pose proof (qwf_count _ Hwf).
    destruct (push_slot_spec data rest q Hwf) as (q1 & Hq1 & Hwf1 & Hc1 & Hcl1); [lia|done|done|].
    rewrite Hq1 in Hrun. injection Hrun as <- <-. split; [done|]. split; [congruence|]. left.
    rewrite <- (len_contents q1), Hc1, len_app, len_contents by done.
    split; [done|]. split; [done|]. rewrite len_cons, len_nil. lia.
Qed.

Lemma pop_locked_inv q q' rc m :
  queue_wf q → pop_waits q = false → pop_locked q = Done (rc, m, q') →
  queue_wf q' ∧ closed q' = closed q ∧
  (rc = 0 ∧ q_count q' = q_count q - 1 ∨ rc = -1 ∧ closed q = true ∧ q' = q).
Proof.
  unfold pop_waits, pop_locked. intros Hwf Hnw Hrun.
  destruct (Z.eqb_spec (q_count q) 0) as [H0|Hne].
  - rewrite andb_true_r in Hnw. apply negb_false_iff in Hnw. injection Hrun as <- <- <-.
    split; [done|]. split; [done|]. by right.
  - destruct (pop_slot_spec q Hwf Hne) as (m1 & q1 & Hq1 & Hwf1 & _ & Hc1 & Hcl1).
    rewrite Hq1 in Hrun. injection Hrun as <- <- <-. split; [done|]. split; [done|]. left.
    split; [done|]. rewrite <- (len_contents q1), <- (len_contents q), Hc1, len_cons by done. lia.
Qed.

(** A counting clause from the same clause before the step. *)
Ltac mon_count :=
  intros ?;
  first
    [ exfalso; lia
    | match goal with
      | H : 0 < _ → closed _ = false ∧ _ |- _ =>
          destruct H as [? ?]; [lia|]; split; [congruence|lia]
      end
    | split; [done|lia]
    | match goal with
      | H : 0 < _ → closed _ = false ∧ _ |- _ => destruct H as [? ?]; [lia|]; congruence
      end ].

Lemma mon_step_inv m m' : mon_step m m' → mon_inv m → mon_inv m'.
Proof.
  intros Hstep [Hq Hok Hpop Hpush]; destruct Hstep as
    [q cs i data rest Hi Ha Hb|q cs i Hi|q cs i data rest Hi Hw|q q' cs i data rest Hi Hw Hl
    |q q' cs cs' i data rest Hi Hw Hl Hs|q cs i Hi Hw|q q' cs i Hi Hw Hl|q q' m cs cs' i Hi Hw Hl Hs
    |q cs i c Hi|q cs]; simpl in *;
    try pose proof (Forall_lookup_1 _ _ _ _ Hok Hi) as Hc; simpl in *.
  - split; simpl; rewrite ?(number_insert _ _ _ _ _ Hi); simpl; [done| |mon_count|mon_count].
    apply Forall_insert; [done|]. split; [by apply push_accepts_range|done].
  - split; simpl; rewrite ?(number_insert _ _ _ _ _ Hi); simpl; [done| |mon_count|mon_count].
    by apply Forall_insert.
  - unfold push_waits in Hw. apply andb_true_iff in Hw as [Hcl%negb_true_iff Hf%Z.eqb_eq].
    pose proof (number_pos is_pushing _ _ _ Hi eq_refl).
    split; simpl; rewrite ?(number_insert _ _ _ _ _ Hi); simpl; [done|by apply Forall_insert|mon_count|mon_count].
  - destruct (push_locked_inv _ _ _ _ _ Hq (proj1 Hc) (proj2 Hc) Hw Hl) as (Hq' & _ & [[? _]|(_ & Hcl & ->)]);
      [done|].
    split; simpl; rewrite ?(number_insert _ _ _ _ _ Hi); simpl; [done|by apply Forall_insert|mon_count|mon_count].
  - destruct (push_locked_inv _ _ _ _ _ Hq (proj1 Hc) (proj2 Hc) Hw Hl) as (Hq' & Hcl' & [(_ & Hcl & Hn)|[? _]]);
      [|done].
    apply signal_pop_counts in Hs as (Hok' & H1 & H2 & H3); [|by apply Forall_insert].
    rewrite !(number_insert _ _ _ _ _ Hi) in *. simpl in *.
    split; simpl; [done|done| |]; rewrite Hn; mon_count.
  - unfold pop_waits in Hw. apply andb_true_iff in Hw as [Hcl%negb_true_iff Hf%Z.eqb_eq].
    pose proof (number_pos is_popping _ _ _ Hi eq_refl).
    split; simpl; rewrite ?(number_insert _ _ _ _ _ Hi); simpl; [done|by apply Forall_insert|mon_count|mon_count].
  - destruct (pop_locked_inv _ _ _ _ Hq Hw Hl) as (Hq' & _ & [[? _]|(_ & Hcl & ->)]); [done|].
    split; simpl; rewrite ?(number_insert _ _ _ _ _ Hi); simpl; [done|by apply Forall_insert|mon_count|mon_count].
  - destruct (pop_locked_inv _ _ _ _ Hq Hw Hl) as (Hq' & Hcl' & [(_ & Hn)|[? _]]); [|done].
    apply signal_push_counts in Hs as (Hok' & H1 & H2 & H3); [|by apply Forall_insert].
    rewrite !(number_insert _ _ _ _ _ Hi) in *. simpl in *.
    split; simpl; [done|done| |]; rewrite Hn; mon_count.
  - split; simpl; [done|by apply Forall_insert; [|apply wake_ok]| |];
      rewrite !(number_insert _ _ _ _ _ Hi); destruct c; simpl; mon_count.
  - destruct (number_wake_asleep cs) as [H1 H2].
    split; simpl; [by apply set_closed_wf| |mon_count|mon_count].
    apply Forall_map. eapply Forall_impl; [exact Hok|]. apply wake_ok.
Qed.

Lemma mon_reachable_inv n m : rtc mon_step (uds_queue_init, replicate n Outside) m → mon_inv m.
Proof.
  intros Hr. assert (H0 : mon_inv (uds_queue_init, replicate n Outside)).
  { assert (Hn : ∀ f, f Outside = false → number f (replicate n Outside) = 0)
      by (intros f Hf; by apply number_none, Forall_replicate).
    split; simpl; [apply uds_queue_init_wf|by apply Forall_replicate| |]; rewrite Hn by done; lia. }
  induction Hr as [m|m m1 m2 Hs _ IH]; [done|]. apply IH. by eapply mon_step_inv.
Qed.

(** * What the queue promises its users

    Each operation is one section under the mutex: it waits when the FIFO
    does, and else takes the FIFO to the next state. *)

(** [None]: the caller waits. *)
Definition fifo_push (m : bytes) (f : fifo) : option (Z * fifo) :=
  if f_closed f then Some (-1, f)
  else if len (f_msgs f) =? UDS_QUEUE_CAP then None
  else Some (0, Fifo (f_msgs f ++ [m]) false).

Definition fifo_pop (f : fifo) : option (Z * option bytes * fifo) :=
  match f_msgs f with
  | m :: ms => Some (0, Some m, Fifo ms (f_closed f))
  | [] => if f_closed f then Some (-1, None, f) else None
  end.

(** The operations of a queue of requests, and the FIFO it stands for. *)
Class RequestQueue (Q : Type) := {
  rq_inv : Q → Prop;
  rq_fifo : Q → fifo;
  rq_push : bytes → Z → prog access Q Z;
  rq_pop : prog access Q (Z * option uds_msg_t);
  rq_shutdown : prog access Q ()
}.

Section contracts.
Context {Q : Type} `{RequestQueue Q}.

Definition push_contract (m : bytes) (w : world Q) (o : outcome (Z * world Q)) : Prop :=
  rq_inv (obj w) →
  match o with
  | Done (rc, w') => rq_inv (obj w') ∧ fifo_push m (rq_fifo (obj w)) = Some (rc, rq_fifo (obj w'))
  | Blocked => fifo_push m (rq_fifo (obj w)) = None
  | Undefined => False
  end.

(** The object handed out holds the message, and one of at least a byte. *)
Definition pop_contract (w : world Q) (o : outcome (Z * option uds_msg_t * world Q)) : Prop :=
  rq_inv (obj w) →
  match o with
  | Done (rc, out, w') =>
      rq_inv (obj w') ∧ (∀ m, out = Some m → msg_wf m ∧ 1 <= msg_len m) ∧
      fifo_pop (rq_fifo (obj w)) = Some (rc, option_map payload out, rq_fifo (obj w'))
  | Blocked => fifo_pop (rq_fifo (obj w)) = None
  | Undefined => False
  end.

Definition shutdown_contract (w : world Q) (o : outcome (() * world Q)) : Prop :=
  ∃ w', o = Done ((), w') ∧ (rq_inv (obj w) → rq_inv (obj w')) ∧
        rq_fifo (obj w') = Fifo (f_msgs (rq_fifo (obj w))) true.
End contracts.

Class RequestQueueLaws (Q : Type) `{RequestQueue Q} : Prop := {
  rq_push_law buf n :
    len buf = UDS_MAX_MSG_LEN → Forall is_byte buf → 1 <= n <= UDS_MAX_MSG_LEN →
    atomic (rq_push buf n) (push_contract (take (Z.to_nat n) buf));
  rq_pop_law : atomic rq_pop pop_contract;
  rq_shutdown_law : atomic rq_shutdown shutdown_contract
}.

Section implementation.
Context {E : Env}.

#[export] Instance uds_request_queue : RequestQueue uds_queue_t := {|
  rq_inv := queue_wf;
  rq_fifo := fifo_of;
  rq_push buf n := uds_queue_push PTR (Some buf) n;
  rq_pop := uds_queue_pop_blocking PTR PTR;
  rq_shutdown := uds_queue_shutdown PTR
|}.

Lemma push_accepts_true n : 1 <= n <= UDS_MAX_MSG_LEN → push_accepts n = true.
Proof. intros Hn. unfold push_accepts. rewrite andb_true_iff, Z.leb_le, negb_true_iff, Z.eqb_neq. lia. Qed.

Lemma uds_push_law buf n :
  len buf = UDS_MAX_MSG_LEN → Forall is_byte buf → 1 <= n <= UDS_MAX_MSG_LEN →
  atomic (uds_queue_push PTR (Some buf) n) (push_contract (take (Z.to_nat n) buf)).
Proof.
  intros Hl Hb Hn. assert (Ht : len (take (Z.to_nat n) buf) = n) by (apply len_take; lia).
  unfold uds_queue_push. rewrite push_accepts_true by done. apply atomic_crit. intros [q rd dr] Hwf.
  change (queue_wf q) in Hwf. rewrite run_waiting. unfold push_waits, push_locked, fifo_push.
  cbn [obj rq_fifo uds_request_queue fifo_of f_msgs f_closed]. rewrite len_contents by done.
  destruct (closed q) eqn:Hcl; cbn [negb andb]; [split; [done|]; cbn; unfold fifo_of; by rewrite Hcl|].
  destruct (Z.eqb_spec (q_count q) UDS_QUEUE_CAP) as [|Hne]; [done|]. pose proof (qwf_count _ Hwf).
  destruct (push_slot_spec (take (Z.to_nat n) buf) (drop (Z.to_nat n) buf) q Hwf)
    as (q' & Hq' & Hwf' & Hc & Hcl'); [lia|lia|by apply Forall_take|].
  rewrite take_drop, Ht in Hq'. rewrite Hq'. split; [exact Hwf'|]. unfold fifo_of. simpl. by rewrite Hc, Hcl', Hcl.
Qed.

Lemma uds_pop_law : atomic (uds_queue_pop_blocking PTR PTR) pop_contract.
Proof.
  unfold uds_queue_pop_blocking. cbn [is_null orb]. apply atomic_crit. intros [q rd dr] Hwf.
  change (queue_wf q) in Hwf. pose proof (len_contents q Hwf) as Hl.
  rewrite run_waiting. unfold pop_waits, pop_locked, fifo_pop. cbn [obj rq_fifo uds_request_queue fifo_of f_msgs f_closed].
  destruct (Z.eqb_spec (q_count q) 0) as [H0|Hne].
  - rewrite H0 in Hl. apply len_0_inv in Hl. rewrite Hl.
    destruct (closed q) eqn:Hcl; cbn [negb andb]; [|done]. split; [done|]. split; [done|].
    unfold fifo_of. simpl. by rewrite Hl, Hcl.
  - rewrite andb_false_r. destruct (pop_slot_spec q Hwf Hne) as (m & q' & -> & Hwf' & Hm & Hc & Hcl).
    split; [exact Hwf'|]. split; [|unfold fifo_of; simpl; by rewrite Hc, Hcl].
    intros m' [= <-]. split; [done|]. pose proof (qwf_queued _ Hwf) as Hq. rewrite Hc in Hq.
    apply Forall_cons in Hq as [Hq _]. rewrite payload_len in Hq by done. lia.
Qed.

#[export] Instance uds_request_queue_laws : RequestQueueLaws uds_queue_t.
Proof.
  split; [apply uds_push_law|apply uds_pop_law|]. apply atomic_crit. intros [q rd dr]. eexists. split; [done|].
  split; [apply set_closed_wf|done].
Qed.
End implementation.

(** ** For any queue that keeps the promise *)

Section users.
Context {Q : Type} `{RequestQueueLaws Q}.

(** A push waits on an open and full queue, a pop on an open and empty one. *)
Definition push_waiting (q : Q) : Prop :=
  f_closed (rq_fifo q) = false ∧ len (f_msgs (rq_fifo q)) = UDS_QUEUE_CAP.
Definition pop_waiting (q : Q) : Prop := f_closed (rq_fifo q) = false ∧ f_msgs (rq_fifo q) = [].

Lemma fifo_push_waits m (q : Q) : fifo_push m (rq_fifo q) = None → push_waiting q.
Proof.
  unfold fifo_push, push_waiting. destruct (f_closed _); [done|]. by destruct (Z.eqb_spec (len (f_msgs (rq_fifo q))) UDS_QUEUE_CAP).
Qed.
Lemma fifo_pop_waits (q : Q) : fifo_pop (rq_fifo q) = None → pop_waiting q.
Proof. unfold fifo_pop, pop_waiting. destruct (f_msgs _); [|done]. by destruct (f_closed _). Qed.

Lemma rq_push_safe buf n :
  len buf = UDS_MAX_MSG_LEN → Forall is_byte buf → 1 <= n <= UDS_MAX_MSG_LEN →
  safe push_waiting rq_inv (rq_push buf n) (λ _, True).
Proof.
  intros Hl Hb Hn. eapply safe_atomic; [by apply rq_push_law|]. intros w o Hw Ho. specialize (Ho Hw).
  destruct o as [[rc w']| |]; [by destruct Ho|by eapply fifo_push_waits|done].
Qed.

Lemma rq_pop_safe :
  safe pop_waiting rq_inv rq_pop (λ r, r.1 = 0 → ∃ m, r.2 = Some m ∧ msg_wf m ∧ 1 <= msg_len m).
Proof.
  eapply safe_atomic; [apply rq_pop_law|]. intros w o Hw Ho. specialize (Ho Hw).
  destruct o as [[[rc out] w']| |]; [|by eapply fifo_pop_waits|done]. destruct Ho as (Hw' & Hm & Hf).
  split; [done|]. intros Hrc. simpl in Hrc. subst rc. unfold fifo_pop in Hf.
  destruct (f_msgs _); [by destruct (f_closed _)|]. destruct out as [m|]; [|done]. exists m. split; [done|]. by apply Hm.
Qed.

Lemma rq_shutdown_safe mb : safe mb rq_inv rq_shutdown (λ _, True).
Proof.
  eapply safe_atomic; [apply rq_shutdown_law|]. intros w o Hw (w' & -> & Hinv & _). split; [by apply Hinv|done].
Qed.

End users.

(** * Properties *)

Section properties.
Context {E : Env}.
Implicit Types w : world uds_queue_t.

(** C9: every queue operation is one step of a bounded FIFO that can be
    closed: it returns, hands out and leaves what the FIFO says, it waits
    exactly when the FIFO is full (push) or empty (pop) and open, and it is
    never undefined. *)
Theorem queue_refines_fifo op w :
  queue_wf (obj w) → op_bytes op →
  match fifo_step op (fifo_of (obj w)) with
  | Some (r, f) => ∃ w', run (exec_queue_op op) w = Done (r, w') ∧ fifo_of (obj w') = f ∧ queue_wf (obj w')
  | None => run (exec_queue_op op) w = Blocked
  end.
Proof. apply queue_op_refines. Qed.

(** First in, first out, nothing lost or made up: in any history of
    operations from the initial queue, the messages handed out followed by
    those still queued are the messages accepted, in order. *)
Lemma queue_is_fifo ops rs w w' :
  obj w = uds_queue_init → Forall op_bytes ops → run (exec_queue_ops ops) w = Done (rs, w') →
  omap delivered rs ++ contents (obj w') = omap accepted (zip ops rs) ∧
  len (contents (obj w')) <= UDS_QUEUE_CAP.
Proof.
  intros H0 Hb Hrun.
  destruct (exec_queue_ops_conserves ops w rs w') as [Hwf Hc]; [rewrite H0; apply uds_queue_init_wf|done|done|].
  split; [by rewrite Hc, H0, contents_init|].
  rewrite len_contents by done. apply (qwf_count _ Hwf).
Qed.

(** C33: after a shutdown the queue stays closed and nobody waits: whatever
    operations follow, no push is accepted, and the pops hand out the messages
    that were queued, in order, and then return -1 for ever. *)
Theorem shutdown_drains ops w :
  queue_wf (obj w) → Forall op_bytes ops →
  ∃ w1 w2, run (uds_queue_shutdown PTR) w = Done ((), w1) ∧
    run (exec_queue_ops ops) w1 = Done ((drained ops (contents (obj w))).1, w2) ∧
    contents (obj w2) = (drained ops (contents (obj w))).2 ∧ closed (obj w2) = true ∧ queue_wf (obj w2).
Proof.
  intros Hwf Hb. exists (World (set_closed (obj w)) (readings w) (draws w)).
  destruct (closed_queue_drains ops (World (set_closed (obj w)) (readings w) (draws w)) (set_closed_wf _ Hwf) eq_refl Hb)
    as (w2 & Hr & Hw2). by exists w2.
Qed.

(** C17: no lost wake-up: whatever the callers, the signals and the spurious
    wake-ups, a consumer sleeps beside a queued message only while an awake
    consumer is on its way, a producer sleeps beside a free slot only while
    an awake producer is, nobody sleeps once the queue is closed, and every
    region entered is defined. *)
Theorem queue_no_lost_wakeup n q callers :
  rtc mon_step (uds_queue_init, replicate n Outside) (q, callers) →
  (0 < q_count q → (∃ i : nat, callers !! i = Some PopAsleep) → ∃ i : nat, callers !! i = Some Popping) ∧
  (q_count q < UDS_QUEUE_CAP → (∃ (i : nat) d r, callers !! i = Some (PushAsleep d r)) →
     ∃ (i : nat) d r, callers !! i = Some (Pushing d r)) ∧
  (closed q = true → Forall (λ c, wake c = c) callers) ∧
  (∀ (i : nat) d r, callers !! i = Some (Pushing d r) → push_waits q = false →
     ∃ res, push_locked (d ++ r) (len d) q = Done res) ∧
  (pop_waits q = false → ∃ res, pop_locked q = Done res).
Proof.
  intros Hr. apply mon_reachable_inv in Hr as [Hq Hok Hpop Hpush]. simpl in *. split_and!.
  - intros Hc (i & Hi). pose proof (number_pos is_pop_asleep _ _ _ Hi eq_refl) as Hn.
    destruct (Hpop Hn) as [_ Hle]. destruct (number_pos_inv is_popping callers) as (j & c & Hj & Hcj); [lia|].
    exists j. by destruct c.
  - intros Hc (i & d & r & Hi). pose proof (number_pos is_push_asleep _ _ _ Hi eq_refl) as Hn.
    destruct (Hpush Hn) as [_ Hle]. destruct (number_pos_inv is_pushing callers) as (j & c & Hj & Hcj); [lia|].
    destruct c; try done. by eexists j, _, _.
  - intros Hc. apply Forall_lookup. intros i c Hi. destruct c; try done.
    + pose proof (number_pos is_push_asleep _ _ _ Hi eq_refl) as Hn. destruct (Hpush Hn). congruence.
    + pose proof (number_pos is_pop_asleep _ _ _ Hi eq_refl) as Hn. destruct (Hpop Hn). congruence.
  - intros i d r Hi Hw. destruct (Forall_lookup_1 _ _ _ _ Hok Hi) as [Hlen Hb].
    unfold push_waits, push_locked in *. destruct (closed q); [eauto|]. apply Z.eqb_neq in Hw.
    pose proof (qwf_count _ Hq).
    destruct (push_slot_spec d r q Hq) as (q' & -> & _); [lia|done|done|]. eauto.
  - intros _. unfold pop_locked. destruct (Z.eqb_spec (q_count q) 0) as [|Hne]; [eauto|].
    destruct (pop_slot_spec q Hq Hne) as (m & q' & -> & _). eauto.
Qed.
End properties.

(** * The properties at concrete inputs *)

Lemma queue_refines_fifo_witness :
  ∃ w', run (exec_queue_op (E:=demo_env) (Push [0x3E; 0x00] [0x7F])) (World uds_queue_init 0 0)
          = Done ((0, None), w') ∧ fifo_of (obj w') = Fifo [[0x3E; 0x00]] false ∧ queue_wf (obj w').
Proof.
  apply (queue_refines_fifo (E:=demo_env) (Push [0x3E; 0x00] [0x7F]) (World uds_queue_init 0 0) uds_queue_init_wf).
  repeat constructor; by compute.
Defined.

Definition demo_queue (msg : bytes) : uds_queue_t :=
  match push_slot msg (len msg) uds_queue_init with Done q => q | _ => uds_queue_init end.

Lemma demo_queue_spec msg :
  1 <= len msg <= UDS_MAX_MSG_LEN → Forall is_byte msg →
  queue_wf (demo_queue msg) ∧ contents (demo_queue msg) = [msg] ∧ closed (demo_queue msg) = false.
Proof.
  intros Hl Hb. unfold demo_queue.
  destruct (push_slot_spec msg [] uds_queue_init uds_queue_init_wf) as (q & Hq & Hwf & Hc & Hcl); [done|done|done|].
  rewrite app_nil_r in Hq. rewrite Hq. done.
Qed.

Lemma shutdown_drains_witness :
  ∃ w1 w2, run (uds_queue_shutdown (E:=demo_env) PTR) (World (demo_queue [0x3E; 0x00]) 0 0) = Done ((), w1) ∧
    run (exec_queue_ops (E:=demo_env) [Push [0x11; 0x01] []; Pop; Pop; Pop]) w1
      = Done ([(-1, None); (0, Some [0x3E; 0x00]); (-1, None); (-1, None)], w2) ∧ closed (obj w2) = true.
Proof.
  destruct (demo_queue_spec [0x3E; 0x00]) as (Hq & Hc & _); [by compute|repeat constructor; by compute|].
  destruct (shutdown_drains (E:=demo_env) [Push [0x11; 0x01] []; Pop; Pop; Pop] (World (demo_queue [0x3E; 0x00]) 0 0) Hq)
    as (w1 & w2 & H1 & H2 & _ & H4 & _); [repeat constructor; by compute|].
  cbn [obj] in H2. rewrite Hc in H2. exists w1, w2. split; [exact H1|]. split; [exact H2|exact H4].
Defined.

(** A consumer asleep on the empty queue. *)
Lemma queue_no_lost_wakeup_witness :
  rtc mon_step (uds_queue_init, replicate 1 Outside) (uds_queue_init, [PopAsleep]) ∧
  (0 < q_count uds_queue_init → ∃ i : nat, [PopAsleep] !! i = Some Popping).
Proof.
  assert (Hr : rtc mon_step (uds_queue_init, replicate 1 Outside) (uds_queue_init, [PopAsleep])).
  { eapply rtc_l; [by apply (mon_call_pop _ _ 0)|].
    eapply rtc_l; [by apply (mon_pop_wait _ _ 0)|]. apply rtc_refl. }
  split; [exact Hr|]. intros H.
  destruct (queue_no_lost_wakeup 1 uds_queue_init [PopAsleep] Hr) as [Hp _]. apply Hp; [exact H|by exists 0%nat].
Defined.
