(* ===== verification/IsotpKernel.v ===== *)
(** [src/isotp_kernel.c] and [include/isotp_kernel.h]: the wrapper over the
    kernel's CAN_ISOTP socket that the running program uses.

    The kernel is a parameter: [Sock] gives the answer of each [read] and
    [write] of the socket in order.  Its documented behaviour is used only
    through [SockLaws]: a delivered message consists of bytes. *)

From S2P Require Import Prelude Effects.

(** One [read]: a whole message, an error with its [errno], or none ever. *)
Inductive io_read : Type :=
| Message (data : bytes)
| Error (errno : Z)
| Quiet.

Class Sock := {
  sock_read : nat → io_read;
  (* the result of the [n]-th [write] of a message *)
  sock_write : nat → bytes → Z
}.

Class SockLaws (K : Sock) : Prop := {
  read_bytes : ∀ n data, sock_read n = Message data → Forall is_byte data
}.

(** The wrapper's state, how far the socket has been used, and the messages
    handed to it. *)
Record isotp_kio_t := Kio {
  sock : Z;
  n_reads : nat;
  n_writes : nat;
  sent : list bytes
}.

(** The return code, the caller's buffer, [*out_len] if written, and the
    thread's [errno]. *)
Record recv_result := RecvResult {
  rv_rc : Z;
  rv_out : bytes;
  rv_len : option Z;
  rv_errno : Z
}.

Section operations.
Context {E : Env} {K : Sock}.

Definition isotp_kio_recv_step (out : bytes) (cap errno : Z) (k : isotp_kio_t)
  : outcome (recv_result * isotp_kio_t) :=
  if sock k <? 0 then Done (RecvResult (-1) out None errno, k) else
  let k' := Kio (sock k) (S (n_reads k)) (n_writes k) (sent k) in
  match sock_read (n_reads k) with
  | Quiet => Blocked
  | Error e =>
      if e =? EINTR then Done (RecvResult 1 out None e, k')
      else Done (RecvResult (-1) out None e, k')
  | Message data =>
      let n := Z.min (len data) cap in
      out ← memcpy out 0 data 0 n;
      Done (RecvResult 0 out (Some n) errno, k')
  end.

Definition isotp_kio_recv (k : ptr) (out : option bytes) (cap : Z) (out_len : ptr) (errno : Z)
  : prog access isotp_kio_t recv_result :=
  match k, out, out_len with
  | PTR, Some out, PTR => crit Plain (on_obj (isotp_kio_recv_step out cap errno))
  | _, _, _ => mret (RecvResult (-1) (default [] out) None errno)
  end.

(** The message is [n] bytes from [data] on. *)
Definition isotp_kio_send_step (data : bytes) (n : Z) (k : isotp_kio_t) : outcome (Z * isotp_kio_t) :=
  if sock k <? 0 then Done (-1, k) else
  msg ← memcpy (replicate (Z.to_nat n) 0) 0 data 0 n;
  let k' := Kio (sock k) (n_reads k) (S (n_writes k)) (sent k ++ [msg]) in
  if sock_write (n_writes k) msg !=? n then Done (-1, k') else Done (0, k').

Definition isotp_kio_send (k : ptr) (data : option bytes) (n : Z) : prog access isotp_kio_t Z :=
  match k, data with
  | PTR, Some data => crit Plain (on_obj (isotp_kio_send_step data n))
  | _, _ => mret (-1)
  end.

Definition isotp_kio_close (k : ptr) : prog access isotp_kio_t () :=
  if is_null k then mret () else
  crit Plain (modify (λ k, Kio (-1) (n_reads k) (n_writes k) (sent k))).
End operations.

(** ** Opening

    The system calls of [isotp_kio_open] by their results; the model returns
    the code, the descriptor left in [k->sock], and the descriptors closed. *)
Record open_calls := OpenCalls {
  oc_socket : Z;
  oc_setsockopt : Z;
  oc_ifindex : Z;
  oc_bind : Z
}.

Definition isotp_kio_open (k : ptr) (ifname : ptr) (c : open_calls) (sock0 : Z) : Z * Z * list Z :=
  if is_null k || is_null ifname then (-1, sock0, []) else
  let s := oc_socket c in
  if s <? 0 then (-1, -1, [])
  else if oc_setsockopt c <? 0 then (-1, -1, [s])
  else if oc_ifindex c =? 0 then (-1, -1, [s])
  else if oc_bind c <? 0 then (-1, -1, [s])
  else (0, s, []).

(** The system calls all succeed. *)
Definition calls_ok (c : open_calls) : bool :=
  (0 <=? oc_socket c) && (0 <=? oc_setsockopt c) && negb (oc_ifindex c =? 0) && (0 <=? oc_bind c).

(** Opening succeeds with an open descriptor, or fails with none left open. *)
Lemma isotp_kio_open_cases c sock0 :
  let '(rc, s, cl) := isotp_kio_open PTR PTR c sock0 in
  if calls_ok c then (rc, s, cl) = (0, oc_socket c, [])
  else rc = -1 ∧ s = -1 ∧ cl = (if 0 <=? oc_socket c then [oc_socket c] else []).
Proof.
  unfold isotp_kio_open, calls_ok. cbn [is_null orb]. rewrite !Z.ltb_antisym.
  by destruct (0 <=? oc_socket c), (0 <=? oc_setsockopt c), (oc_ifindex c =? 0), (0 <=? oc_bind c).
Qed.

(** * What the operations do *)

Section facts.
Context {E : Env} {K : Sock}.

(** A message that fits is delivered whole at the start of the buffer. *)
Lemma recv_message out cap errno k data :
  0 <= sock k → sock_read (n_reads k) = Message data → len data <= cap <= len out →
  isotp_kio_recv_step out cap errno k =
    Done (RecvResult 0 (data ++ drop (length data) out) (Some (len data)) errno,
          Kio (sock k) (S (n_reads k)) (n_writes k) (sent k)).
Proof.
  intros Hs Hr Hlen. unfold isotp_kio_recv_step. dec. rewrite Hr, Z.min_l by lia.
  by rewrite memcpy_whole by lia.
Qed.

(** Whatever the socket answers, the buffer keeps its size and bytes, and a
    reported length lies within the capacity. *)
Lemma recv_step_safe out cap errno k `{!SockLaws K} :
  0 <= cap <= len out → Forall is_byte out →
  match isotp_kio_recv_step out cap errno k with
  | Done (r, _) => len (rv_out r) = len out ∧ Forall is_byte (rv_out r) ∧
                   (rv_rc r = 0 → ∃ n, rv_len r = Some n ∧ 0 <= n <= cap)
  | Blocked => sock_read (n_reads k) = Quiet
  | Undefined => False
  end.
Proof.
  intros Hcap Hb. unfold isotp_kio_recv_step.
  destruct (sock k <? 0); [done|]. destruct (sock_read (n_reads k)) as [data|e|] eqn:Hr; [|by destruct (e =? EINTR)|done].
  pose proof (len_nonneg data).
  rewrite memcpy_defined by lia. cbn [mbind outcome_bind rv_out rv_rc rv_len]. rewrite Z.add_0_l, drop_0.
  change (take (Z.to_nat 0) out) with (@nil Z). rewrite app_nil_l.
  split; [rewrite len_app, len_take, len_drop by lia; lia|].
  split; [apply Forall_app; split; [by apply Forall_take, (read_bytes (n_reads k))|by apply Forall_drop]|].
  intros _. eexists. split; [done|]. lia.
Qed.

(** Reads are counted. *)
Lemma recv_step_counts out cap errno k r k' :
  isotp_kio_recv_step out cap errno k = Done (r, k') → n_reads k' = S (n_reads k) ∨ sock k < 0.
Proof.
  unfold isotp_kio_recv_step. destruct (Z.ltb_spec (sock k) 0); [by right|].
  destruct (sock_read _) as [data|e|]; [|destruct (e =? EINTR); intros [= <- <-]; by left|done].
  destruct (memcpy _ _ _ _ _); simpl; [|done..]. intros [= <- <-]. by left.
Qed.

Lemma recv_step_reads out cap errno k r k' :
  isotp_kio_recv_step out cap errno k = Done (r, k') → (n_reads k <= n_reads k')%nat.
Proof.
  unfold isotp_kio_recv_step. destruct (sock k <? 0); [by intros [= <- <-]|].
  destruct (sock_read _) as [data|e|]; [|destruct (e =? EINTR); intros [= <- <-]; simpl; lia|done].
  destruct (memcpy _ _ _ _ _); simpl; [|done..]. intros [= <- <-]. simpl. lia.
Qed.

(** Nothing is sent by receiving. *)
Lemma recv_step_sent out cap errno k r k' :
  isotp_kio_recv_step out cap errno k = Done (r, k') → sent k' = sent k.
Proof.
  unfold isotp_kio_recv_step. destruct (sock k <? 0); [by intros [= <- <-]|].
  destruct (sock_read (n_reads k)) as [data|e|]; [|destruct (e =? EINTR); by intros [= <- <-]|done].
  destruct (memcpy _ _ _ _ _); [by intros [= <- <-]|done..].
Qed.

(** The descriptor stays. *)
Lemma recv_step_sock out cap errno k r k' :
  isotp_kio_recv_step out cap errno k = Done (r, k') → sock k' = sock k.
Proof.
  unfold isotp_kio_recv_step. destruct (sock k <? 0); [by intros [= <- <-]|].
  destruct (sock_read (n_reads k)) as [data|e|]; [|destruct (e =? EINTR); by intros [= <- <-]|done].
  destruct (memcpy _ _ _ _ _); [by intros [= <- <-]|done..].
Qed.

(** Sending hands the socket exactly the first [n] bytes. *)
Lemma send_message data rest k :
  0 <= sock k →
  ∃ rc, isotp_kio_send_step (data ++ rest) (len data) k =
    Done (rc, Kio (sock k) (n_reads k) (S (n_writes k)) (sent k ++ [data])) ∧
    (rc = 0 ↔ sock_write (n_writes k) data = len data).
Proof.
  intros Hs. unfold isotp_kio_send_step. dec.
  rewrite memcpy_prefix by (rewrite len_replicate; pose proof (len_nonneg data); lia).
  cbn [mbind outcome_bind].
  rewrite drop_ge, app_nil_r by (rewrite length_replicate; unfold len; lia).
  destruct (Z.eqb_spec (sock_write (n_writes k) data) (len data)); simpl; eexists; (split; [done|]); by split.
Qed.
End facts.
