(* ===== verification/Threads.v ===== *)
(** [src/threads.c] and [include/threads.h]: the four worker threads as
    loops over the shared state of the process, and the pool they form.

    A [nanosleep] separates two iterations of a loop and has no effect on
    the state: it is not modelled, so the scheduler may run the next
    iteration at any time. *)

From S2P Require Import Prelude Effects UdsTypes DtcMem DidTable AppEngine Security Vecu Uds.
From S2P Require Import UdsSpec UdsRefine UdsProps UdsSafe Queue IsotpKernel.

Definition S3_TIMEOUT_MS : Z := 5000.

(** What [thread_ctx_t] points to. *)
Record sys := Sys {
  s_state : ecu_t;
  s_io : isotp_kio_t;
  s_req_q : uds_queue_t;
  s_stop : bool;           (* volatile sig_atomic_t *)
  s_signals : nat          (* signals handled so far *)
}.

Inductive sys_lock :=
| StateLock (l : lock)   (* a mutex inside the ECU state, or none *)
| QueueLock              (* the mutex of the queue *)
| IoAccess               (* a system call on the socket *)
| StopFlag               (* an access of the volatile flag *)
| SignalWait.            (* pause() *)

Abbreviation sprog := (prog sys_lock sys).

Definition set_state v s := Sys v (s_io s) (s_req_q s) (s_stop s) (s_signals s).
Definition set_io v s := Sys (s_state s) v (s_req_q s) (s_stop s) (s_signals s).
Definition set_req_q v s := Sys (s_state s) (s_io s) v (s_stop s) (s_signals s).
(** The handler of SIGINT and SIGTERM has run. *)
Definition signalled s := Sys (s_state s) (s_io s) (s_req_q s) true (S (s_signals s)).

Definition state_lens : lens sys ecu_t := Lens s_state set_state.
Definition io_lens : lens sys isotp_kio_t := Lens s_io set_io.
Definition queue_lens : lens sys uds_queue_t := Lens s_req_q set_req_q.

#[export] Instance state_lens_laws : LensLaws state_lens.
Proof. split; [done..|]. by intros []. Qed.
#[export] Instance io_lens_laws : LensLaws io_lens.
Proof. split; [done..|]. by intros []. Qed.
#[export] Instance queue_lens_laws : LensLaws queue_lens.
Proof. split; [done..|]. by intros []. Qed.

Definition on_ecu {A} (p : vprog A) : sprog A := lift StateLock state_lens p.
(** The queue under its own mutex, or none. *)
Definition own_queue (a : access) : sys_lock :=
  match a with Locked => QueueLock | Plain => StateLock NoLock end.
Definition on_queue {A} (p : prog access uds_queue_t A) : sprog A := lift own_queue queue_lens p.
(** The socket record has no mutex. *)
Definition on_io {A} (p : prog access isotp_kio_t A) : sprog A := lift (λ _, IoAccess) io_lens p.

Section threads.
Context {E : Env} {D : Double} {K : Sock}.

Definition read_stop : sprog bool := crit StopFlag (gets s_stop).

(** ** rx_thread *)

(** The thread's stack: its buffer, [len] and [errno]. *)
Record rx_locals := RxLocals { rx_buf : bytes; rx_len : Z; rx_errno : Z }.

Definition rx_body (l : rx_locals) : sprog (ctl * rx_locals) :=
  stop ← read_stop;
  if stop : bool then mret (Break, l) else
  r ← on_io (isotp_kio_recv PTR (Some (rx_buf l)) UDS_MAX_MSG_LEN PTR (rx_errno l));
  let l := RxLocals (rv_out r) (default (rx_len l) (rv_len r)) (rv_errno r) in
  if rv_rc r =? 1 then mret (Continue, l)
  else if (rv_rc r !=? 0) && (rx_errno l =? EAGAIN) then mret (Continue, l)
  else if rv_rc r !=? 0 then mret (Break, l)
  else if rx_len l =? 0 then mret (Continue, l)
  else
    rc ← on_queue (uds_queue_push PTR (Some (rx_buf l)) (rx_len l));
    if rc !=? 0 then mret (Break, l) else mret (Continue, l).

Definition rx_thread_main : loop sys_lock sys rx_locals :=
  Loop rx_body (λ _, on_queue (uds_queue_shutdown PTR)).

(** ** dispatch_thread *)

Record dispatch_locals := DispatchLocals { d_msg : uds_msg_t; d_resp : bytes; d_resp_len : Z }.

(** Lines 49-56: one request, and its response if there is one. *)
Definition handle_request (l : dispatch_locals) : sprog (ctl * dispatch_locals) :=
  '(rc, out) ← on_ecu (uds_process_request PTR (Some (msg_data (d_msg l))) (msg_len (d_msg l))
                         (Some (d_resp l)) UDS_MAX_MSG_LEN (Some (d_resp_len l)));
  let l := match out with Some (resp, n) => DispatchLocals (d_msg l) resp n | None => l end in
  if rc <? 0 then mret (Continue, l)
  else if rc =? 1 then mret (Continue, l)
  else if d_resp_len l =? 0 then mret (Continue, l)
  else
    on_io (isotp_kio_send PTR (Some (d_resp l)) (d_resp_len l));;
    mret (Continue, l).

Definition dispatch_body (l : dispatch_locals) : sprog (ctl * dispatch_locals) :=
  stop ← read_stop;
  if stop : bool then mret (Break, l) else
  '(rc, m) ← on_queue (uds_queue_pop_blocking PTR PTR);
  if rc !=? 0 then mret (Break, l) else
  handle_request (DispatchLocals (default (d_msg l) m) (d_resp l) (d_resp_len l)).

Definition dispatch_thread_main : loop sys_lock sys dispatch_locals :=
  Loop dispatch_body (λ _, mret ()).

(** ** app_thread *)

Definition app_body (l : ()) : sprog (ctl * ()) :=
  stop ← read_stop;
  if stop : bool then mret (Break, l) else
  on_ecu (on_app (app_engine_tick PTR));;
  mret (Continue, l).

Definition app_thread_main : loop sys_lock sys () := Loop app_body (λ _, mret ()).

(** ** s3_thread *)

(** Lines 94-103: the rest of the check, once [now] has been read. *)
Definition s3_decide (now : Z) : vprog () :=
  last_tp ← vecu_last_tester_present_ms;
  if u64 (now - last_tp) >? S3_TIMEOUT_MS then
    vecu_set_session UDS_SESSION_DEFAULT;;
    on_security (crit Locked security_relock)
  else mret ().

(** Lines 91-104. *)
Definition s3_check : vprog () :=
  sess ← vecu_get_session;
  if sess !=? UDS_SESSION_DEFAULT then
    now ← crit NoLock vecu_now_ms;
    s3_decide now
  else mret ().

Definition s3_body (l : ()) : sprog (ctl * ()) :=
  stop ← read_stop;
  if stop : bool then mret (Break, l) else
  on_ecu s3_check;;
  mret (Continue, l).

Definition s3_thread_main : loop sys_lock sys () := Loop s3_body (λ _, mret ()).
End threads.

(** * Invariant *)

(** Every message handed to the socket is a response of at least one byte. *)
Record sys_wf (s : sys) : Prop := {
  sw_state : ecu_wf (s_state s);
  sw_queue : queue_wf (s_req_q s);
  sw_sent : Forall (λ m, 1 <= len m <= UDS_MAX_MSG_LEN) (sent (s_io s))
}.

Definition rx_ok (l : rx_locals) : Prop :=
  len (rx_buf l) = UDS_MAX_MSG_LEN ∧ Forall is_byte (rx_buf l).

Definition dispatch_ok (l : dispatch_locals) : Prop := len (d_resp l) = UDS_MAX_MSG_LEN.

Definition io_ok (k : isotp_kio_t) : Prop := Forall (λ m, 1 <= len m <= UDS_MAX_MSG_LEN) (sent k).

Section safety.
Context {E : Env} {D : Double} {K : Sock} `{!ClockBounded E, !DoubleLaws D, !SockLaws K}.

(** What a thread may wait for: room in the queue, a message in the queue, a
    socket that stays quiet. *)
Definition queue_full (s : sys) : Prop := push_waiting (s_req_q s).
Definition queue_empty (s : sys) : Prop := pop_waiting (s_req_q s).
(** The next read never returns. *)
Definition quiet_socket (k : isotp_kio_t) : Prop := sock_read (n_reads k) = Quiet.
Definition bus_quiet (s : sys) : Prop := quiet_socket (s_io s).
Definition rx_waits (s : sys) : Prop := queue_full s ∨ bus_quiet s.

Lemma on_ecu_safe mb {A} (p : vprog A) Q : safe never ecu_wf p Q → safe mb sys_wf (on_ecu p) Q.
Proof. apply safe_lift; [apply sw_state| |done]. by intros s t [] ?. Qed.
Lemma on_queue_safe mb0 (mb : sys → Prop) {A} (p : prog access uds_queue_t A) Q :
  (∀ s, mb0 (s_req_q s) → mb s) → safe mb0 queue_wf p Q → safe mb sys_wf (on_queue p) Q.
Proof. intros Hmb. apply safe_lift; [apply sw_queue| |exact Hmb]. by intros s t [] ?. Qed.

Lemma on_io_safe mb0 mb {A} (p : prog access isotp_kio_t A) Q :
  (∀ s, mb0 (s_io s) → mb s) → safe mb0 io_ok p Q → safe mb sys_wf (on_io p) Q.
Proof. intros Hmb. apply safe_lift; [apply sw_sent| |exact Hmb]. by intros s t [] ?. Qed.

Lemma read_stop_safe mb : safe mb sys_wf read_stop (λ _, True).
Proof. by intros w Hw. Qed.

Lemma recv_safe buf errno :
  len buf = UDS_MAX_MSG_LEN → Forall is_byte buf →
  safe quiet_socket io_ok (isotp_kio_recv PTR (Some buf) UDS_MAX_MSG_LEN PTR errno)
    (λ r, len (rv_out r) = UDS_MAX_MSG_LEN ∧ Forall is_byte (rv_out r) ∧
          (rv_rc r = 0 → ∃ n, rv_len r = Some n ∧ 0 <= n <= UDS_MAX_MSG_LEN)).
Proof.
  intros Hl Hb [k rd dr] Hk. unfold isotp_kio_recv, on_obj. cbn [obj readings draws].
  pose proof (recv_step_safe buf UDS_MAX_MSG_LEN errno k) as Hs.
  specialize (Hs ltac:(rewrite Hl; by compute) Hb). rewrite Hl in Hs.
  destruct (isotp_kio_recv_step buf UDS_MAX_MSG_LEN errno k) as [[r k']| |] eqn:Hr;
    [|exact Hs|done].
  split; [|exact Hs]. unfold io_ok. simpl. by rewrite (recv_step_sent _ _ _ _ _ _ Hr).
Qed.

Lemma send_safe resp n :
  1 <= n <= UDS_MAX_MSG_LEN → n <= len resp →
  safe never io_ok (isotp_kio_send PTR (Some resp) n) (λ _, True).
Proof.
  intros Hn Hl [k rd dr] Hk. unfold isotp_kio_send, on_obj. cbn [obj readings draws].
  assert (Ht : len (take (Z.to_nat n) resp) = n) by (apply len_take; lia).
  destruct (decide (0 <= sock k)) as [Hs|Hs].
  - destruct (send_message (take (Z.to_nat n) resp) (drop (Z.to_nat n) resp) k Hs) as (rc & Hr & _).
    rewrite Ht, take_drop in Hr. rewrite Hr. split; [|done]. simpl. apply Forall_app. split; [done|].
    constructor; [lia|constructor].
  - unfold isotp_kio_send_step. dec. done.
Qed.

(** ** The four loops *)

Lemma rx_thread_safe : loop_safe rx_waits sys_wf rx_ok rx_thread_main.
Proof.
  split; intros loc [Hl Hb].
  - cbn [loop_body rx_thread_main]. unfold rx_body.
    eapply safe_bind; [apply read_stop_safe|]. intros stop _. destruct stop; [by split|].
    eapply safe_bind; [apply (on_io_safe quiet_socket); [by right|by apply recv_safe]|]. intros r (Hlr & Hbr & Hn).
    assert (Hok : ∀ n e, rx_ok (RxLocals (rv_out r) n e)) by (by split).
    destruct (rv_rc r =? 1); [apply Hok|].
    destruct (negb _ && _); [apply Hok|]. destruct (Z.eqb_spec (rv_rc r) 0) as [H0|]; cbn [negb]; [|apply Hok].
    destruct (Hn H0) as (n & -> & Hrange). cbn [rx_len rx_buf default id].
    destruct (Z.eqb_spec n 0) as [|Hne]; [apply Hok|].
    eapply safe_bind; [apply (on_queue_safe push_waiting); [by left|exact (rq_push_safe (rv_out r) n Hlr Hbr ltac:(lia))]|]. intros rc _.
    destruct (negb _); apply Hok.
  - apply (on_queue_safe never); [done|exact (rq_shutdown_safe (Q:=uds_queue_t) _)].
Qed.

(** The request of a queued message, under interference. *)
Lemma payload_request m :
  msg_wf m → 1 <= msg_len m →
  Forall is_byte (payload m) ∧ payload m ≠ [] ∧ len (payload m) = msg_len m ∧ ∃ rest, msg_data m = payload m ++ rest.
Proof.
  intros Hm Hlen. pose proof (payload_len _ Hm) as Hp. split; [by apply payload_bytes|]. split; [|split; [done|]].
  - intros He. rewrite He, len_nil in Hp. lia.
  - exists (drop (Z.to_nat (msg_len m)) (msg_data m)). symmetry. apply take_drop.
Qed.

Lemma process_payload_safe m resp n :
  msg_wf m → 1 <= msg_len m → len resp = UDS_MAX_MSG_LEN →
  safe never ecu_wf
    (uds_process_request PTR (Some (msg_data m)) (msg_len m) (Some resp) UDS_MAX_MSG_LEN (Some n))
    (λ r, ∃ h, r = (hr_rc h, Some (hr_resp h, hr_len h)) ∧ handled (payload m) resp UDS_MAX_MSG_LEN h).
Proof.
  intros Hm Hlen Hr. destruct (payload_request m Hm Hlen) as (Hb & Hne & <- & rest & ->).
  apply uds_process_request_safe; [done|done|]. rewrite Hr. by compute.
Qed.

Lemma process_payload_answers m resp n :
  msg_wf m → 1 <= msg_len m → len resp = UDS_MAX_MSG_LEN →
  safe never ecu_fit
    (uds_process_request PTR (Some (msg_data m)) (msg_len m) (Some resp) UDS_MAX_MSG_LEN (Some n))
    (λ r, ∃ h, r = (hr_rc h, Some (hr_resp h, hr_len h)) ∧ handled (payload m) resp UDS_MAX_MSG_LEN h ∧ not_dropped h).
Proof.
  intros Hm Hlen Hr. destruct (payload_request m Hm Hlen) as (Hb & Hne & <- & rest & ->).
  apply uds_process_request_answers; [done|done|]. rewrite Hr. by compute.
Qed.

Lemma handle_request_safe l :
  dispatch_ok l → msg_wf (d_msg l) → 1 <= msg_len (d_msg l) →
  safe never sys_wf (handle_request l) (λ r, dispatch_ok r.2).
Proof.
  intros Hd Hm Hlen. unfold handle_request.
  eapply safe_bind; [by apply on_ecu_safe, process_payload_safe|].
  intros res (h & -> & Hl & Hh). unfold dispatch_ok in Hd.
  assert (Hok : dispatch_ok (DispatchLocals (d_msg l) (hr_resp h) (hr_len h)))
    by (unfold dispatch_ok; simpl; congruence).
  destruct (Z.ltb_spec (hr_rc h) 0); [done|]. destruct (hr_rc h =? 1); [done|].
  cbn [d_resp_len d_resp]. destruct (hr_len h =? 0); [done|].
  destruct Hh as [[Hh _]|(_ & Hh & _)]; [lia|].
  eapply safe_bind; [apply (on_io_safe never); [done|apply send_safe; [done|]]|done].
  rewrite Hl, Hd. lia.
Qed.

Lemma dispatch_thread_safe : loop_safe queue_empty sys_wf dispatch_ok dispatch_thread_main.
Proof.
  split; intros loc Hl; [|done]. cbn [loop_body dispatch_thread_main]. unfold dispatch_body.
  eapply safe_bind; [apply read_stop_safe|]. intros stop _. destruct stop; [done|].
  eapply safe_bind; [apply (on_queue_safe pop_waiting); [done|exact (rq_pop_safe (Q:=uds_queue_t))]|]. intros [rc m] Hpop. simpl in Hpop.
  destruct (Z.eqb_spec rc 0) as [H0|]; cbn [negb]; [|done].
  destruct (Hpop H0) as (m' & -> & Hm & Hlen). apply (safe_waits never); [done|by apply handle_request_safe].
Qed.

Lemma app_thread_safe : loop_safe never sys_wf (λ _, True) app_thread_main.
Proof.
  split; intros [] _; [|done]. cbn [loop_body app_thread_main]. unfold app_body.
  eapply safe_bind; [apply read_stop_safe|]. intros stop _. destruct stop; [done|].
  eapply safe_bind; [apply on_ecu_safe, on_app_safe, app_engine_tick_safe|]. done.
Qed.

Lemma s3_check_safe : safe never ecu_wf s3_check (λ _, True).
Proof.
  unfold s3_check, s3_decide. eapply safe_bind; [apply vecu_get_session_safe|]. intros sess _.
  destruct (negb _); [|done].
  apply safe_bind with (Q := λ _, True); [by intros w Hw|]. intros now _.
  eapply safe_bind; [apply vecu_last_tp_safe|]. intros tp _. destruct (_ >? _); [|done].
  eapply safe_bind; [apply vecu_set_session_safe; by left|]. intros _ _.
  apply on_security_safe, security_relock_safe.
Qed.

Lemma s3_thread_safe : loop_safe never sys_wf (λ _, True) s3_thread_main.
Proof.
  split; intros [] _; [|done]. cbn [loop_body s3_thread_main]. unfold s3_body.
  eapply safe_bind; [apply read_stop_safe|]. intros stop _. destruct stop; [done|].
  eapply safe_bind; [apply on_ecu_safe, s3_check_safe|]. done.
Qed.
End safety.

(** * What the loops do, run alone *)

Section facts.
Context {E : Env} {D : Double} {K : Sock} `{!ClockBounded E}.
Implicit Types w : world sys.

Lemma run_on_ecu {A} (p : vprog A) w :
  run (on_ecu p) w =
  match run p (zoom_world state_lens w) with
  | Done (a, w') => Done (a, unzoom_world state_lens w w')
  | Blocked => Blocked
  | Undefined => Undefined
  end.
Proof. apply run_lift, _. Qed.

Lemma run_on_queue {A} (p : prog access uds_queue_t A) w :
  run (on_queue p) w =
  match run p (zoom_world queue_lens w) with
  | Done (a, w') => Done (a, unzoom_world queue_lens w w')
  | Blocked => Blocked
  | Undefined => Undefined
  end.
Proof. apply run_lift, _. Qed.

Lemma run_on_io {A} (p : prog access isotp_kio_t A) w :
  run (on_io p) w =
  match run p (zoom_world io_lens w) with
  | Done (a, w') => Done (a, unzoom_world io_lens w w')
  | Blocked => Blocked
  | Undefined => Undefined
  end.
Proof. apply run_lift, _. Qed.

Lemma run_read_stop w : run read_stop w = Done (s_stop (obj w), w).
Proof. done. Qed.

(** ** The S3 timer *)

(** The timer has run out, as the code computes it. *)
Definition s3_expired (now last_tp : Z) : bool := u64 (now - last_tp) >? S3_TIMEOUT_MS.

(** The ECU after the timer has fired at [now]. *)
Definition s3_revert (now : Z) (e : aecu) : aecu :=
  with_phase (phase_relock (a_phase e)) (with_session UDS_SESSION_DEFAULT now e).

Lemma s3_decide_run now (w : world ecu_t) :
  ecu_wf (obj w) →
  ∃ w' : world ecu_t, run (s3_decide now) w = Done ((), w') ∧ ecu_wf (obj w') ∧
    if s3_expired now (last_tester_present_ms (state (obj w)))
    then abs (obj w') = s3_revert (now_at w) (abs (obj w))
    else w' = w.
Proof.
  intros Hwf. unfold s3_decide.
  rewrite (run_bind_Done _ _ _ (last_tester_present_ms (state (obj w))) w) by done.
  fold (s3_expired now (last_tester_present_ms (state (obj w)))).
  destruct (s3_expired _ _); [|by exists w].
  destruct (safe_run_total ecu_wf (vecu_set_session UDS_SESSION_DEFAULT) _ w
    (vecu_set_session_safe _ ltac:(by left)) Hwf) as ([] & w2 & Hr2 & _ & Hwf2).
  rewrite (run_bind_Done _ _ _ _ _ Hr2).
  assert (Ha2 : abs (obj w2) = with_session UDS_SESSION_DEFAULT (now_at w) (abs (obj w))).
  { unfold vecu_set_session in Hr2. rewrite run_crit in Hr2. by injection Hr2 as <-. }
  destruct (security_relock_refines (zoom_world sec_lens w2) (ewf_security _ Hwf2))
    as (w3 & Hr3 & Hph & Hwf3 & _).
  rewrite run_on_security, run_crit, Hr3. eexists. split; [done|].
  split; [by apply ecu_wf_sec|]. rewrite abs_security, Hph.
  change (phase_of (obj (zoom_world sec_lens w2))) with (a_phase (abs (obj w2))). by rewrite Ha2.
Qed.

Lemma s3_check_run (w : world ecu_t) :
  ecu_wf (obj w) →
  ∃ w' : world ecu_t, run s3_check w = Done ((), w') ∧ ecu_wf (obj w') ∧
    if negb (session (state (obj w)) =? UDS_SESSION_DEFAULT)
       && s3_expired (now_at w) (last_tester_present_ms (state (obj w)))
    then abs (obj w') = s3_revert (ms_of_timespec (clock_gettime (S (readings w)))) (abs (obj w))
    else obj w' = obj w.
Proof.
  intros Hwf. unfold s3_check. rewrite (run_bind_Done _ _ _ _ _ (get_session_run w)).
  destruct (Z.eqb_spec (session (state (obj w))) UDS_SESSION_DEFAULT) as [Hd|Hd]; cbn [negb andb];
    [by exists w|].
  rewrite (run_bind_Done _ _ _ (now_at w) (World (obj w) (S (readings w)) (draws w))) by done.
  destruct (s3_decide_run (now_at w) (World (obj w) (S (readings w)) (draws w)) Hwf) as (w' & Hr & Hwf' & Ha).
  exists w'. split; [done|]. split; [done|]. cbn [obj] in Ha.
  destruct (s3_expired _ _); [exact Ha|by subst w'].
Qed.

(** ** Serving requests *)

(** The receive thread moves one message from the socket to the queue. *)
Lemma rx_body_run l w msg :
  sys_wf (obj w) → rx_ok l → s_stop (obj w) = false → 0 <= sock (s_io (obj w)) →
  sock_read (n_reads (s_io (obj w))) = Message msg → Forall is_byte msg → 1 <= len msg <= UDS_MAX_MSG_LEN →
  closed (s_req_q (obj w)) = false → q_count (s_req_q (obj w)) < UDS_QUEUE_CAP →
  ∃ l' w', run (rx_body l) w = Done ((Continue, l'), w') ∧
    contents (s_req_q (obj w')) = contents (s_req_q (obj w)) ++ [msg] ∧
    s_state (obj w') = s_state (obj w) ∧ sent (s_io (obj w')) = sent (s_io (obj w)).
Proof.
  intros Hwf [Hl Hb] Hst Hs Hm Hmb Hlen Hcl Hc. unfold rx_body.
  rewrite (run_bind_Done _ _ _ _ _ (run_read_stop w)), Hst.
  rewrite run_bind, run_on_io. unfold isotp_kio_recv. rewrite run_crit. unfold on_obj. cbn [zoom_world view obj io_lens].
  rewrite (recv_message _ _ _ _ msg) by (rewrite ?Hl; lia || done).
  cbn [rv_rc rv_len rv_out rv_errno rx_len rx_buf default id]. change (0 =? 1) with false.
  change (0 !=? 0) with false. cbn [andb]. dec.
  set (w1 := unzoom_world io_lens w _).
  rewrite run_bind, run_on_queue.
  pose proof (push_refines msg (drop (length msg) (rx_buf l)) (s_req_q (obj w)) (readings w) (draws w)
                (sw_queue _ Hwf) Hmb) as Hp.
  unfold fifo_step, fifo_of, exec_queue_op in Hp. cbn [f_msgs f_closed] in Hp.
  assert (Ha : push_accepts (len msg) = true) by (unfold push_accepts; by dec).
  rewrite Ha, Hcl, len_contents in Hp by apply Hwf. rewrite (proj2 (Z.eqb_neq _ _)) in Hp by lia.
  cbn [negb] in Hp. destruct Hp as (w2 & Hr & Hf & _). rewrite run_bind in Hr.
  change (zoom_world queue_lens w1) with (World (s_req_q (obj w)) (readings w) (draws w)).
  destruct (run (uds_queue_push _ _ _) _) as [[rc w3]| |]; [|done..].
  simpl in Hr. injection Hr as -> ->. change (0 !=? 0) with false.
  eexists _, _. split; [done|]. injection Hf as Hf _. simpl. by rewrite Hf.
Qed.

(** What the tester receives for a reply: nothing for a suppressed or
    dropped one. *)
Definition on_wire (sid : Z) (r : reply) : list bytes :=
  if reply_rc r =? 0 then [reply_bytes sid r] else [].

Lemma reply_bytes_len sid r : r ≠ Dropped → 1 <= len (reply_bytes sid r).
Proof.
  destruct r as [sup args|nrc|]; intros H; simpl; [|by compute|done].
  rewrite len_cons. pose proof (len_nonneg args). lia.
Qed.

(** Sending a built response. *)
Lemma send_response_run buf n bs (w : world sys) :
  0 <= sock (s_io (obj w)) → n = len bs → take (Z.to_nat n) buf = bs →
  ∃ rc w', run (on_io (isotp_kio_send PTR (Some buf) n)) w = Done (rc, w') ∧
    sent (s_io (obj w')) = sent (s_io (obj w)) ++ [bs] ∧
    s_state (obj w') = s_state (obj w) ∧ s_req_q (obj w') = s_req_q (obj w).
Proof.
  intros Hs -> Ht. rewrite run_on_io. unfold isotp_kio_send. rewrite run_crit. unfold on_obj.
  cbn [zoom_world view obj io_lens].
  destruct (send_message bs (drop (Z.to_nat (len bs)) buf) (s_io (obj w)) Hs) as (rc & Hr & _).
  rewrite <- Ht in Hr at 1. rewrite take_drop in Hr. rewrite Hr.
  eexists _, _. split; [done|]. done.
Qed.

Lemma handle_request_run l msg (w : world sys) :
  sys_wf (obj w) → dispatch_ok l → msg_wf (d_msg l) → payload (d_msg l) = msg → 1 <= len msg →
  0 <= sock (s_io (obj w)) →
  ∃ l' w' r, run (handle_request l) w = Done ((Continue, l'), w') ∧
    spec_request UDS_MAX_MSG_LEN (now_at w) (drawn_seed (draws w)) msg (abs (s_state (obj w)))
      = (r, abs (s_state (obj w'))) ∧
    sent (s_io (obj w')) = sent (s_io (obj w)) ++ on_wire (hd 0 msg) r ∧
    s_req_q (obj w') = s_req_q (obj w).
Proof.
  intros Hwf Hd Hm Hp Hlen Hs. unfold handle_request.
  pose proof (payload_len _ Hm) as Hpl. pose proof (payload_bytes _ Hm) as Hb. rewrite Hp in Hpl, Hb.
  rewrite <- (take_drop (Z.to_nat (msg_len (d_msg l))) (msg_data (d_msg l))).
  change (take (Z.to_nat (msg_len (d_msg l))) (msg_data (d_msg l))) with (payload (d_msg l)).
  rewrite Hp, <- Hpl. unfold dispatch_ok in Hd.
  destruct (process_refines msg (drop (Z.to_nat (len msg)) (msg_data (d_msg l))) (d_resp l) UDS_MAX_MSG_LEN
    (d_resp_len l) (zoom_world state_lens w) (sw_state _ Hwf) Hb)
    as (buf' & n' & w1 & r & Hrun & Hspec & Hwf1 & Hl1 & Hr);
    [by intros ->|rewrite Hd; by compute|rewrite Hd; by compute|].
  rewrite run_bind, run_on_ecu, Hrun. cbn [d_resp d_resp_len].
  change (now_at (zoom_world state_lens w)) with (now_at w) in Hspec.
  unfold on_wire. destruct r as [sup args|nrc|].
  - destruct (Hr ltac:(done)) as [Hn Ht]. pose proof (reply_bytes_len (hd 0 msg) (Positive sup args) ltac:(done)).
    destruct sup; cbn [reply_rc]; change (0 <? 0) with false; change (0 =? 1) with false; cbn iota.
    + eexists _, _, (Positive true args). split; [done|]. split; [exact Hspec|]. simpl. by rewrite app_nil_r.
    + rewrite (proj2 (Z.eqb_neq n' 0)) by lia. cbn iota.
      destruct (send_response_run buf' n' _ (unzoom_world state_lens w w1) Hs Hn Ht)
        as (rc & w2 & Hr2 & Hsent & Hst & Hq).
      rewrite run_bind, Hr2. eexists _, w2, (Positive false args). split; [done|].
      rewrite Hsent, Hst, Hq. split; [exact Hspec|]. done.
  - destruct (Hr ltac:(done)) as [Hn Ht]. pose proof (reply_bytes_len (hd 0 msg) (Negative nrc) ltac:(done)).
    cbn [reply_rc]. change (0 <? 0) with false. change (0 =? 1) with false. cbn iota. rewrite (proj2 (Z.eqb_neq n' 0)) by lia. cbn iota.
    destruct (send_response_run buf' n' _ (unzoom_world state_lens w w1) Hs Hn Ht)
      as (rc & w2 & Hr2 & Hsent & Hst & Hq).
    rewrite run_bind, Hr2. eexists _, w2, (Negative nrc). split; [done|].
    rewrite Hsent, Hst, Hq. split; [exact Hspec|]. done.
  - eexists _, _, Dropped. split; [done|]. split; [exact Hspec|]. simpl. by rewrite app_nil_r.
Qed.

(** The dispatcher serves the message at the front of the queue. *)
Lemma dispatch_body_run l msg ms (w : world sys) :
  sys_wf (obj w) → dispatch_ok l → s_stop (obj w) = false → 0 <= sock (s_io (obj w)) →
  contents (s_req_q (obj w)) = msg :: ms →
  ∃ l' w' r, run (dispatch_body l) w = Done ((Continue, l'), w') ∧
    spec_request UDS_MAX_MSG_LEN (now_at w) (drawn_seed (draws w)) msg (abs (s_state (obj w)))
      = (r, abs (s_state (obj w'))) ∧
    sent (s_io (obj w')) = sent (s_io (obj w)) ++ on_wire (hd 0 msg) r ∧
    contents (s_req_q (obj w')) = ms.
Proof.
  intros Hwf Hd Hst Hs Hc. unfold dispatch_body.
  rewrite (run_bind_Done _ _ _ _ _ (run_read_stop w)), Hst.
  pose proof (sw_queue _ Hwf) as Hq. pose proof (len_contents _ Hq) as Hl. rewrite Hc, len_cons in Hl.
  pose proof (len_nonneg ms).
  destruct (pop_slot_spec (s_req_q (obj w)) Hq) as (m & q' & Hpop & Hq' & Hm & Hc' & _); [lia|].
  rewrite Hc in Hc'. injection Hc' as Hmsg Hms.
  rewrite run_bind, run_on_queue. unfold uds_queue_pop_blocking. cbn [is_null orb].
  change (zoom_world queue_lens w) with (World (s_req_q (obj w)) (readings w) (draws w)).
  rewrite run_waiting. unfold pop_waits, pop_locked. rewrite (proj2 (Z.eqb_neq _ _)), andb_false_r by lia.
  rewrite Hpop. cbn [mbind outcome_bind]. change (0 !=? 0) with false. cbn iota beta.
  set (w1 := unzoom_world queue_lens w _).
  pose proof (qwf_queued _ Hq) as Hqd. rewrite Hc in Hqd. apply Forall_cons in Hqd as [Hlen _].
  assert (Hwf1 : sys_wf (obj w1)) by (destruct Hwf; by split).
  destruct (handle_request_run (DispatchLocals m (d_resp l) (d_resp_len l)) msg w1 Hwf1 Hd Hm)
    as (l' & w2 & r & Hr & Hspec & Hsent & Hq2); [done|lia|done|].
  exists l', w2, r. split; [exact Hr|]. split; [exact Hspec|]. split; [exact Hsent|].
  by rewrite Hq2, Hms.
Qed.
End facts.

(** * Properties *)

Section properties.
Context {E : Env} {D : Double} {K : Sock} `{!ClockBounded E}.

(** C16: the dispatcher serves the message at the front of the queue: the
    ECU moves as the abstract server says, the socket is handed exactly the
    specified response, or nothing when it is suppressed or dropped, and the
    rest of the queue stays. *)
Theorem dispatch_serves l msg ms (w : world sys) :
  sys_wf (obj w) → dispatch_ok l → s_stop (obj w) = false → 0 <= sock (s_io (obj w)) →
  contents (s_req_q (obj w)) = msg :: ms →
  ∃ l' w' r, run (dispatch_body l) w = Done ((Continue, l'), w') ∧
    spec_request UDS_MAX_MSG_LEN (now_at w) (drawn_seed (draws w)) msg (abs (s_state (obj w)))
      = (r, abs (s_state (obj w'))) ∧
    sent (s_io (obj w')) = sent (s_io (obj w)) ++ on_wire (hd 0 msg) r ∧
    contents (s_req_q (obj w')) = ms.
Proof. apply dispatch_body_run. Qed.

(** C26: run alone, the S3 check reverts a non-default session exactly when
    more than 5000 ms have passed since the last TesterPresent (for a clock
    that has not gone back since): default session, security locked again
    without clearing wrong-key counts; otherwise nothing changes. *)
Theorem s3_reverts (w : world ecu_t) :
  ecu_wf (obj w) → last_tester_present_ms (state (obj w)) <= now_at w →
  ∃ w' : world ecu_t, run s3_check w = Done ((), w') ∧ ecu_wf (obj w') ∧
    if negb (session (state (obj w)) =? UDS_SESSION_DEFAULT)
       && (now_at w - last_tester_present_ms (state (obj w)) >? S3_TIMEOUT_MS)
    then session (state (obj w')) = UDS_SESSION_DEFAULT ∧
         phase_of (security (state (obj w'))) = phase_relock (phase_of (security (state (obj w)))) ∧
         phase_of (security (state (obj w'))) ≠ Open
    else obj w' = obj w.
Proof.
  intros Hwf Hle. destruct (s3_check_run w Hwf) as (w' & Hr & Hwf' & Ha). exists w'. split; [done|]. split; [done|].
  unfold s3_expired in Ha. pose proof (ewf_last_tp _ Hwf). pose proof (now_bounded w) as Hn.
  unfold SECURITY_LOCK_DURATION_MS in Hn. rewrite u64_id in Ha by lia.
  destruct (negb _ && _); [|done].
  pose proof (f_equal a_session Ha) as Hs. pose proof (f_equal a_phase Ha) as Hp. simpl in Hs, Hp.
  split; [done|]. split; [done|]. rewrite Hp.
  unfold a_phase, abs. by destruct (phase_of (security (state (obj w)))).
Qed.
End properties.

(** * The properties at concrete inputs *)

(** A socket that delivers one TesterPresent and then times out. *)
Definition demo_sock : Sock := {|
  sock_read n := match n with O => Message [0x3E; 0x00] | _ => Error EAGAIN end;
  sock_write n m := len m
|}.

#[export] Instance demo_sock_laws : SockLaws demo_sock.
Proof. split. intros [|n] data H; [|done]. injection H as <-. repeat constructor; by compute. Qed.

Definition demo_sys (w : world ecu_t) (q : uds_queue_t) : world sys :=
  World (Sys (obj w) (Kio 3 0 0 []) q false 0) (readings w) (draws w).

Lemma demo_sys_wf w q : ecu_wf (obj w) → queue_wf q → sys_wf (obj (demo_sys w q)).
Proof. by split. Qed.

Definition zero_buf : bytes := replicate (Z.to_nat UDS_MAX_MSG_LEN) 0.
Lemma zero_buf_len : len zero_buf = UDS_MAX_MSG_LEN.
Proof. unfold zero_buf. rewrite len_replicate; done. Qed.
Definition demo_rx : rx_locals := RxLocals zero_buf 0 0.
Lemma demo_rx_ok : rx_ok demo_rx.
Proof. split; [apply zero_buf_len|]. by apply Forall_replicate. Qed.
Definition demo_dispatch (m : uds_msg_t) : dispatch_locals := DispatchLocals m zero_buf 0.
Lemma demo_dispatch_ok m : dispatch_ok (demo_dispatch m).
Proof. apply zero_buf_len. Qed.

Lemma dispatch_serves_witness :
  ∃ l' w' r,
    run (dispatch_body (E:=demo_env) (K:=demo_sock) (demo_dispatch uds_msg_zero))
        (demo_sys demo_extended (demo_queue [0x3E; 0x00])) = Done ((Continue, l'), w') ∧
    sent (s_io (obj w')) = on_wire 0x3E r ∧ contents (s_req_q (obj w')) = [].
Proof.
  destruct (demo_queue_spec [0x3E; 0x00]) as (Hq & Hc & _); [by compute|repeat constructor; by compute|].
  destruct (dispatch_serves (E:=demo_env) (K:=demo_sock) (demo_dispatch uds_msg_zero) [0x3E; 0x00] []
    (demo_sys demo_extended (demo_queue [0x3E; 0x00]))) as (l' & w' & r & H1 & _ & H3 & H4);
    [exact (demo_sys_wf _ _ demo_extended_wf Hq)|apply demo_dispatch_ok|reflexivity|by compute|exact Hc|].
  exists l', w', r. split; [exact H1|]. split; [exact H3|exact H4].
Defined.

(** Ten seconds after the last TesterPresent. *)
Lemma s3_reverts_witness :
  ∃ w' : world ecu_t, run (s3_check (E:=demo_env)) (World (obj demo_extended) 10 1) = Done ((), w') ∧
    session (state (obj w')) = UDS_SESSION_DEFAULT.
Proof.
  destruct (s3_reverts (E:=demo_env) (World (obj demo_extended) 10 1) demo_extended_wf)
    as (w' & Hr & _ & H); [by vm_compute|].
  exists w'. split; [exact Hr|].
  replace (negb _ && _) with true in H by (by vm_compute). apply H.
Defined.
