(* ===== verification/Main.v ===== *)
(** [src/main.c]: start-up, the signal handler, the main thread's wait and
    shutdown sequence, and the process as a pool of threads.

    The mutex and the condition variables of the queue are initialised and
    destroyed here ([init_queue], [uds_queue_destroy]), at the calls of [main].
    [pause] waits for a signal that is handled after it was entered.  The
    joins and what follows them are in [Process.v]. *)

From S2P Require Import Prelude Effects UdsTypes DtcMem DidTable AppEngine Security Vecu Uds.
From S2P Require Import UdsSpec UdsRefine UdsProps UdsSafe Queue IsotpKernel Threads.

Definition EXIT_FAILURE : Z := 1.
Definition EXIT_SUCCESS : Z := 0.

Section main.
Context {E : Env} {D : Double} {K : Sock}.

(** [g_stop = 1] *)
Definition on_signal : sprog () := crit StopFlag (modify signalled).

(** A call that initialises or destroys an object of the queue. *)
Definition sync_queue (op : sync_op) : sprog () := crit (StateLock (Lifecycle op)) (mret ()).

(** Before the threads there is nobody to exclude. *)
Definition init_queue (q : ptr) : sprog () :=
  if is_null q then mret () else
  crit (StateLock NoLock) (modify (set_req_q uds_queue_init));;
  sync_queue (SyncInit QueueMutex);;
  sync_queue (SyncInit QueueNotEmpty);;
  sync_queue (SyncInit QueueNotFull).

Definition uds_queue_destroy (q : ptr) : sprog () :=
  if is_null q then mret () else
  sync_queue (SyncDestroy QueueNotEmpty);;
  sync_queue (SyncDestroy QueueNotFull);;
  sync_queue (SyncDestroy QueueMutex).

(** Lines 60-80: the state, the socket, the queue.  [Some rc]: the process
    ends with this code. *)
Definition main_setup (c : open_calls) : sprog (option Z) :=
  on_ecu (vecu_init PTR);;
  let '(rc, s, _) := isotp_kio_open PTR PTR c 0 in
  if rc !=? 0 then
    on_ecu (vecu_destroy PTR);;
    mret (Some EXIT_FAILURE)
  else
    crit IoAccess (modify (set_io (Kio s 0 0 [])));;
    init_queue PTR;;
    mret None.

(** Asleep since [n] signals had been handled. *)
Definition paused (n : nat) : sprog () := crit SignalWait (wait_while (λ s, Nat.eqb (s_signals s) n)).
Definition pause : sprog () := n ← crit SignalWait (gets s_signals); paused n.

(** Lines 106-108. *)
Definition main_body (l : ()) : sprog (ctl * ()) :=
  stop ← read_stop;
  if stop : bool then mret (Break, l) else pause;; mret (Continue, l).

Definition main_exit (l : ()) : sprog () :=
  on_queue (uds_queue_shutdown PTR);;
  on_io (isotp_kio_close PTR).

Definition main_thread : loop sys_lock sys () := Loop main_body main_exit.

(** Lines 119-122, after the joins. *)
Definition main_teardown : sprog Z :=
  uds_queue_destroy PTR;;
  on_ecu (vecu_destroy PTR);;
  mret EXIT_SUCCESS.

(** The delivery of SIGINT or SIGTERM, at any time. *)
Definition signal_thread : loop sys_lock sys () := Loop (λ l, on_signal;; mret (Break, l)) (λ _, mret ()).

(** The process after line 100, with whatever is on the threads' stacks, and
    [sigs] signals to come. *)
Definition threads (sigs : nat) (rx : rx_locals) (d : dispatch_locals) : list (thread sys_lock sys) :=
  [ start main_thread (); start rx_thread_main rx; start dispatch_thread_main d;
    start app_thread_main (); start s3_thread_main () ] ++ replicate sigs (start signal_thread ()).

(** What each of them may wait for: the main thread for a signal. *)
Definition waits (sigs : nat) : list (sys → Prop) :=
  [ (λ _, True); rx_waits; queue_empty; never; never ] ++ replicate sigs never.
End main.

(** The main thread asleep since [n] signals had been handled. *)
Abbreviation main_pausing n := (Thread main_thread (InBody (paused n;; mret (Continue, ())))).

(** * Start-up *)

Section startup.
Context {E : Env} {D : Double} {K : Sock}.
Implicit Types w : world sys.

Lemma main_setup_run c w :
  let ok := calls_ok c in
  ∃ w', run (main_setup c) w = Done (if ok then None else Some EXIT_FAILURE, w') ∧
    s_stop (obj w') = s_stop (obj w) ∧
    (ok = true → sys_wf (obj w') ∧ powered_up (now_at w) (s_state (obj w')) ∧
                 s_req_q (obj w') = uds_queue_init ∧ s_io (obj w') = Kio (oc_socket c) 0 0 []).
Proof.
  intros ok. unfold main_setup.
  destruct (vecu_init_run (zoom_world state_lens w)) as (w1 & Hr & Hwf & Hp).
  rewrite (run_bind_Done _ _ _ () (unzoom_world state_lens w w1)) by (rewrite run_on_ecu, Hr; done).
  pose proof (isotp_kio_open_cases c 0) as Ho. fold ok in Ho.
  destruct (isotp_kio_open PTR PTR c 0) as [[rc s] cl]. clearbody ok.
  destruct ok.
  - injection Ho as -> -> _. change (0 !=? 0) with false. cbn iota.
    eexists. split; [reflexivity|].
    cbn [obj unzoom_world update set_io set_req_q s_stop s_state s_req_q s_io]. split; [reflexivity|].
    intros _. split; [|split; [exact Hp|split; reflexivity]].
    split; [exact Hwf|apply uds_queue_init_wf|constructor].
  - destruct Ho as (-> & _). change (-1 !=? 0) with true. cbn iota. eexists. split; [reflexivity|].
    split; [reflexivity|done].
Qed.
End startup.

(** * Safety and shutdown of the pool *)

Section pool.
Context {E : Env} {D : Double} {K : Sock} `{!ClockBounded E, !DoubleLaws D, !SockLaws K}.

Lemma main_thread_safe : loop_safe (λ _, True) sys_wf (λ _, True) main_thread.
Proof.
  split; intros [] _.
  - intros w Hw. simpl. split; [done|]. destruct (s_stop (obj w)); [done|].
    intros w1 Hw1. split; [done|]. intros w2 Hw2. simpl. unfold wait_while. by destruct (_ =? _)%nat.
  - cbn [loop_exit main_thread]. unfold main_exit.
    eapply safe_bind; [apply (on_queue_safe never); [done|exact (rq_shutdown_safe (Q:=uds_queue_t) _)]|]. intros _ _.
    apply (on_io_safe never); [done|]. by intros w Hw.
Qed.

Lemma signal_thread_safe : loop_safe never sys_wf (λ _, True) signal_thread.
Proof. split; intros [] _; [|done]. intros w [? ? ?]. split; [by split|done]. Qed.

Lemma threads_safe sigs rx d :
  rx_ok rx → dispatch_ok d → Forall2 (λ mb t, thread_safe mb sys_wf t) (waits sigs) (threads sigs rx d).
Proof.
  intros Hrx Hd. apply Forall2_app.
  - repeat (apply Forall2_cons; split); [..|apply Forall2_nil_2].
    + eapply start_safe; [apply main_thread_safe|done].
    + eapply start_safe; [apply rx_thread_safe|done].
    + eapply start_safe; [apply dispatch_thread_safe|done].
    + eapply start_safe; [apply app_thread_safe|done].
    + eapply start_safe; [apply s3_thread_safe|done].
  - apply Forall2_replicate_l; [by rewrite length_replicate|]. apply Forall_replicate.
    eapply start_safe; [apply signal_thread_safe|done].
Qed.

(** ** What the threads keep

    An iteration of a worker neither closes the queue nor the socket, and only
    the handler touches the flag and counts signals. *)

Record stable (P : sys → Prop) : Prop := {
  st_state : ∀ v s, P s → P (set_state v s);
  st_io : ∀ k s, P s → sock k = sock (s_io s) → P (set_io k s);
  st_queue : ∀ q s, P s → closed q = closed (s_req_q s) → P (set_req_q q s)
}.

(** What the ends of the threads do not undo either. *)
Record persistent (P : sys → Prop) : Prop := {
  ps_stable : stable P;
  ps_close : ∀ k s, P s → sock k = -1 → P (set_io k s);
  ps_shutdown : ∀ q s, P s → closed q = true → P (set_req_q q s)
}.

(** The handler does not undo it either. *)
Definition survives_signals (P : sys → Prop) : Prop := ∀ s, P s → P (signalled s).

Definition stopped (s : sys) : Prop := s_stop s = true.
Definition queue_closed (s : sys) : Prop := closed (s_req_q s) = true.
Definition all_closed (s : sys) : Prop := queue_closed s ∧ sock (s_io s) = -1.

Lemma stopped_persistent : persistent stopped.
Proof. by repeat split. Qed.
Lemma queue_closed_persistent : persistent queue_closed.
Proof. unfold queue_closed. repeat split; simpl; try done. intros q s Hc Hq. congruence. Qed.
Lemma all_closed_persistent : persistent all_closed.
Proof. unfold all_closed, queue_closed. split; [split|..]; simpl; try done; intros x s [Hc Hs] Hx; split; congruence. Qed.
Lemma signals_persistent (F : nat → Prop) : persistent (λ s, F (s_signals s)).
Proof. by repeat split. Qed.

(** *** How the components' sections move their state *)

Definition same_sock (k k' : isotp_kio_t) : Prop := sock k' = sock k.
Definition same_closed (q q' : uds_queue_t) : Prop := closed q' = closed q.

Lemma waiting_moves {A} cond (f : uds_queue_t → outcome (A * uds_queue_t)) :
  (∀ q a q', f q = Done (a, q') → closed q' = closed q) →
  guarded (moves same_closed) (crit Locked (wait_while cond;; on_obj f)).
Proof.
  intros Hf. split; [|done]. intros [q rd dr] b w' Hb.
  rewrite <- (run_crit Locked), run_waiting in Hb. destruct (cond q); [done|].
  destruct (f q) as [[a q']| |] eqn:Hfq; [|done..]. injection Hb as <- <-. by eapply Hf.
Qed.

Lemma push_moves buf n : guarded (moves same_closed) (uds_queue_push PTR (Some buf) n).
Proof.
  unfold uds_queue_push. destruct (negb _); [done|]. apply waiting_moves.
  intros q a q'. unfold push_locked, push_slot. destruct (closed q) eqn:Hc; [by intros [= <- <-]|].
  destruct (ld _ _); simpl; [|done..]. destruct (memcpy _ _ _ _ _); simpl; [|done..].
  destruct (st _ _ _); simpl; [|done..]. by intros [= <- <-].
Qed.

Lemma pop_moves : guarded (moves same_closed) (uds_queue_pop_blocking PTR PTR).
Proof.
  unfold uds_queue_pop_blocking. cbn [is_null orb]. apply waiting_moves.
  intros q a q'. unfold pop_locked, pop_slot. destruct (q_count q =? 0); [by intros [= <- <-]|].
  destruct (ld _ _); simpl; [|done..]. by intros [= <- <-].
Qed.

Lemma io_step_moves {A} (f : isotp_kio_t → outcome (A * isotp_kio_t)) :
  (∀ k a k', f k = Done (a, k') → sock k' = sock k) → guarded (moves same_sock) (crit Plain (on_obj f)).
Proof.
  intros Hf. split; [|done]. intros [k rd dr] b w' Hb. unfold on_obj in Hb. cbn [obj readings draws] in Hb.
  destruct (f k) as [[a k']| |] eqn:Hfk; [|done..]. injection Hb as <- <-. by eapply Hf.
Qed.

Lemma recv_moves buf cap errno : guarded (moves same_sock) (isotp_kio_recv PTR (Some buf) cap PTR errno).
Proof. apply io_step_moves. intros k a k'. apply recv_step_sock. Qed.

Lemma send_moves buf n : guarded (moves same_sock) (isotp_kio_send PTR (Some buf) n).
Proof.
  apply io_step_moves. intros k a k'. unfold isotp_kio_send_step. destruct (sock k <? 0); [by intros [= <- <-]|].
  destruct (memcpy _ _ _ _ _); simpl; [|done..]. destruct (negb _); by intros [= <- <-].
Qed.

(** *** The threads keep what is stable *)

Section keeps.
Context (P : sys → Prop) (HP : stable P).

Lemma on_ecu_keeps {A} (p : vprog A) : guarded (keeps P) (on_ecu p).
Proof.
  eapply guarded_lift; [|apply guarded_true]. intros B l body _ w b w' Hb Hw.
  unfold zoom in Hb. destruct (body _) as [[]| |]; [|done..]. injection Hb as <- <-. by apply (st_state _ HP).
Qed.

Lemma on_io_keeps {A} (p : prog access isotp_kio_t A) :
  guarded (moves same_sock) p → guarded (keeps P) (on_io p).
Proof.
  apply guarded_lift. intros B l body Hm w b w' Hb Hw.
  unfold zoom in Hb. destruct (body _) as [[b1 w1]| |] eqn:Hbw; [|done..]. injection Hb as <- <-.
  apply (st_io _ HP); [done|]. exact (Hm _ _ _ Hbw).
Qed.

Lemma on_queue_keeps {A} (p : prog access uds_queue_t A) :
  guarded (moves same_closed) p → guarded (keeps P) (on_queue p).
Proof.
  apply guarded_lift. intros B l body Hm w b w' Hb Hw.
  unfold zoom in Hb. destruct (body _) as [[b1 w1]| |] eqn:Hbw; [|done..]. injection Hb as <- <-.
  apply (st_queue _ HP); [done|]. exact (Hm _ _ _ Hbw).
Qed.

Lemma read_stop_keeps : guarded (keeps P) read_stop.
Proof. split; [|done]. intros w b w' Hb Hs. by injection Hb as <- <-. Qed.
Lemma pause_keeps : guarded (keeps P) pause.
Proof.
  split; [|intros n; split; [|done]]; intros w b w' Hb Hs; [by injection Hb as <- <-|].
  unfold wait_while in Hb. destruct (_ =? _)%nat; [done|]. by injection Hb as <- <-.
Qed.

Ltac keeps_step :=
  first
    [ done
    | match goal with |- guarded _ (_ ≫= _) => apply guarded_bind; [|intros ?] end
    | apply read_stop_keeps | apply pause_keeps | apply on_ecu_keeps
    | apply on_io_keeps; first [apply recv_moves | apply send_moves]
    | apply on_queue_keeps; first [apply push_moves | apply pop_moves]
    | match goal with |- guarded _ (if ?b then _ else _) => destruct b end
    | match goal with |- guarded _ (let '(_, _) := ?p in _) => destruct p end
    | progress cbv zeta ].

Lemma main_body_keeps l : guarded (keeps P) (main_body l).
Proof. unfold main_body. repeat keeps_step. Qed.
Lemma rx_body_keeps l : guarded (keeps P) (rx_body l).
Proof. unfold rx_body. repeat keeps_step. Qed.
Lemma dispatch_body_keeps l : guarded (keeps P) (dispatch_body l).
Proof. unfold dispatch_body, handle_request. repeat keeps_step. Qed.
Lemma app_body_keeps l : guarded (keeps P) (app_body l).
Proof. unfold app_body. repeat keeps_step. Qed.
Lemma s3_body_keeps l : guarded (keeps P) (s3_body l).
Proof. unfold s3_body. repeat keeps_step. Qed.
End keeps.

Section persists.
Context (P : sys → Prop) (HP : persistent P).

Lemma shutdown_keeps : guarded (keeps P) (on_queue (uds_queue_shutdown PTR)).
Proof. split; [|done]. intros w b w' Hb Hs. injection Hb as <- <-. by apply (ps_shutdown _ HP). Qed.
Lemma close_keeps : guarded (keeps P) (on_io (isotp_kio_close PTR)).
Proof. split; [|done]. intros w b w' Hb Hs. injection Hb as <- <-. by apply (ps_close _ HP). Qed.
Lemma main_exit_keeps l : guarded (keeps P) (main_exit l).
Proof. apply guarded_bind; [apply shutdown_keeps|]. intros _. apply close_keeps. Qed.

Lemma signal_keeps (l : ()) : survives_signals P → guarded (keeps P) (on_signal;; mret (Break, l)).
Proof. intros HS. split; [|done]. intros w b w' Hb Hs. injection Hb as <- <-. by apply HS. Qed.

(** All threads but the signals. *)
Lemma workers_keep rx d :
  Forall (thread_keeps P) [ start main_thread (); start rx_thread_main rx; start dispatch_thread_main d;
                            start app_thread_main (); start s3_thread_main () ].
Proof.
  pose proof (ps_stable _ HP) as HS.
  repeat (apply Forall_cons_2; [|]); [..|apply Forall_nil_2]; apply start_keeps; intros l;
    first [done | by apply main_body_keeps | apply main_exit_keeps | by apply rx_body_keeps
          | apply shutdown_keeps | by apply dispatch_body_keeps | by apply app_body_keeps | by apply s3_body_keeps].
Qed.

Lemma threads_keep sigs rx d : survives_signals P → Forall (thread_keeps P) (threads sigs rx d).
Proof.
  intros HS. apply Forall_app. split; [apply workers_keep|]. apply Forall_replicate, start_keeps; [|done].
  intros l. by apply signal_keeps.
Qed.
End persists.

(** *** Every thread tests the flag first *)

Lemma stop_first {Loc} (l : Loc) (k : sprog (ctl * Loc)) :
  safe never stopped (stop ← read_stop; if stop : bool then mret (Break, l) else k) (λ r, r.1 = Break).
Proof. intros w Hw. simpl. split; [done|]. by rewrite Hw. Qed.

Lemma threads_break sigs rx d : Forall (thread_breaks stopped) (threads sigs rx d).
Proof.
  apply Forall_app. split.
  - repeat (apply Forall_cons_2; [|]); [..|apply Forall_nil_2]; intros l; apply stop_first.
  - apply Forall_replicate. intros l. by intros w Hw.
Qed.

(** *** The main thread

    Either it will end once the flag is set, or it has missed the signals so
    far: it tested the flag before them and sleeps, or is about to. *)

Inductive main_ending (s : sys) : thread sys_lock sys → Prop :=
| ending_tests : main_ending s (start main_thread ())
| ending_paused n : (n < s_signals s)%nat → main_ending s (main_pausing n)
| ending_tested c : (c = Break → stopped s) → main_ending s (Thread main_thread (InBody (Ret (c, ()))))
| ending_closes : stopped s → main_ending s (Thread main_thread (InExit (main_exit ())))
| ending_queue_closed :
    stopped s → queue_closed s → main_ending s (Thread main_thread (InExit (on_io (isotp_kio_close PTR))))
| ending_done ts :
    stopped s → all_closed s → ts = InExit (Ret ()) ∨ ts = Exited → main_ending s (Thread main_thread ts).

Inductive main_missing (s : sys) : thread sys_lock sys → Prop :=
| missing_enters : main_missing s (Thread main_thread (InBody (pause;; mret (Continue, ()))))
| missing_asleep n : n = s_signals s → main_missing s (main_pausing n).

Definition main_at (s : sys) (t : thread sys_lock sys) : Prop := main_ending s t ∨ main_missing s t.

(** What the steps of any thread preserve. *)
Record moved (s s' : sys) : Prop := {
  mv_stopped : stopped s → stopped s';
  mv_queue : queue_closed s → queue_closed s';
  mv_all : all_closed s → all_closed s';
  mv_signals : (s_signals s <= s_signals s')%nat
}.

Definition keeps_all (t : thread sys_lock sys) : Prop :=
  ∀ P, persistent P → survives_signals P → thread_keeps P t.

Lemma step_moved w t w' t' : thread_step w t w' t' → keeps_all t → moved (obj w) (obj w').
Proof.
  intros Hs Hk.
  assert (H : ∀ P, persistent P → survives_signals P → P (obj w) → P (obj w')).
  { intros P HP HS. exact (proj2 (thread_step_kept P w t w' t' Hs (Hk P HP HS))). }
  split.
  - apply H; [apply stopped_persistent|done].
  - apply H; [apply queue_closed_persistent|by intros s Hc].
  - apply H; [apply all_closed_persistent|by intros s Hc].
  - apply (H (λ s, (s_signals (obj w) <= s_signals s)%nat)); [apply signals_persistent| |done].
    intros s Hle. simpl. lia.
Qed.

Lemma main_ending_moved s s' t : moved s s' → main_ending s t → main_ending s' t.
Proof. intros [Hst Hq Ha Hn] []; constructor; auto; lia. Qed.

Lemma main_at_moved s s' t : moved s s' → main_at s t → main_at s' t.
Proof.
  intros Hm [He|He]; [left; by eapply main_ending_moved|]. destruct He as [|n ->]; [right; constructor|].
  pose proof (mv_signals _ _ Hm). destruct (decide (s_signals s = s_signals s')) as [Heq|Hne].
  - right. by constructor.
  - left. constructor. lia.
Qed.

(** One step of the main thread itself. *)
Lemma main_at_step w t w' t' : thread_step w t w' t' → main_at (obj w) t → main_at (obj w') t'.
Proof.
  intros Hs [Hm|Hm].
  - destruct Hm as [|n Hn|c Hc|Hst|Hst Hq|ts Hst Ha [->| ->]]; apply thread_step_inv in Hs.
    + destruct Hs as (b & Hb & ->). injection Hb as <- <-. destruct (s_stop (obj w)) eqn:Hst.
      * left. by apply ending_tested.
      * right. constructor.
    + destruct Hs as (b & _ & ->). left. by apply ending_tested.
    + left. destruct c; destruct Hs as [-> ->]; [apply ending_tests|by apply ending_closes, Hc].
    + left. destruct Hs as (b & Hb & ->). injection Hb as <- <-. by apply ending_queue_closed.
    + left. destruct Hs as (b & Hb & ->). injection Hb as <- <-. by apply ending_done; [| |left].
    + left. destruct Hs as [-> ->]. by apply ending_done; [| |right].
    + done.
  - destruct Hm as [|n ->]; apply thread_step_inv in Hs.
    + destruct Hs as (b & Hb & ->). injection Hb as <- <-. right. by apply missing_asleep.
    + destruct Hs as (b & Hb & ->). left. by apply ending_tested.
Qed.

(** Under the flag a main thread that will end misses nothing. *)
Lemma main_ending_step w t w' t' :
  thread_step w t w' t' → stopped (obj w) → main_ending (obj w) t → main_ending (obj w') t'.
Proof.
  intros Hs Hst Hm. destruct (main_at_step w t w' t' Hs (or_introl Hm)) as [|Hmiss]; [done|exfalso].
  destruct Hm as [|n Hn|c Hc|_|_ Hq|ts _ Ha [->| ->]]; apply thread_step_inv in Hs.
  - destruct Hs as (b & Hb & ->). injection Hb as <- <-. rewrite Hst in Hmiss. inversion Hmiss.
  - destruct Hs as (b & _ & ->). inversion Hmiss.
  - destruct c; destruct Hs as [-> ->]; inversion Hmiss.
  - destruct Hs as (b & _ & ->). inversion Hmiss.
  - destruct Hs as (b & _ & ->). inversion Hmiss.
  - destruct Hs as [-> ->]. inversion Hmiss.
  - done.
Qed.

(** The main thread is the first of the pool, and [F] holds of it. *)
Definition main_first (F : sys → thread sys_lock sys → Prop) (c : pool sys_lock sys) : Prop :=
  ∃ t ts, c.2 = t :: ts ∧ F (obj c.1) t.

Lemma pool_steps_main (F : sys → thread sys_lock sys → Prop) c c' :
  (∀ s s' t, moved s s' → F s t → F s' t) →
  (∀ w t w' t', thread_step w t w' t' → moved (obj w) (obj w') → F (obj w) t → F (obj w') t') →
  rtc pool_step c c' → Forall keeps_all c.2 → main_first F c → main_first F c'.
Proof.
  intros Hmv Hst. induction 1 as [|c c1 c2 Hs _ IH]; [done|]. intros Hk Hm. apply IH.
  - eapply (pool_steps_forall _ c c1); [|by apply rtc_once|done].
    intros w t w' t' Hts Ht P HP HS. eapply thread_step_kept; [exact Hts|by apply Ht].
  - destruct Hs as [w ts1 u ts2 w' u' Hs]. destruct Hm as (t & ts & Ht & Hm). simpl in *.
    assert (Hmoved : moved (obj w) (obj w')).
    { apply Forall_app in Hk as [_ [Hk _]%Forall_cons_1]. by eapply step_moved. }
    destruct ts1 as [|t0 ts1]; simpl in Ht; injection Ht as -> Ht.
    + exists u', ts2. split; [done|]. by eapply Hst.
    + eexists _, _. split; [done|]. by eapply Hmv.
Qed.

Lemma threads_keep_all sigs rx d : Forall keeps_all (threads sigs rx d).
Proof.
  apply Forall_forall. intros t Ht P HP HS.
  pose proof (threads_keep P HP sigs rx d HS) as Hk. rewrite Forall_forall in Hk. by apply Hk.
Qed.

Lemma pool_keeps_all sigs rx d w c : rtc pool_step (w, threads sigs rx d) c → Forall keeps_all c.2.
Proof.
  intros Hr. eapply (pool_steps_forall _ (w, threads sigs rx d) c); [|exact Hr|apply threads_keep_all].
  intros w1 t w' t' Hts Ht P HP HS. eapply thread_step_kept; [exact Hts|by apply Ht].
Qed.

Lemma pool_main_at sigs rx d w c : rtc pool_step (w, threads sigs rx d) c → main_first main_at c.
Proof.
  intros Hr. eapply (pool_steps_main main_at); [exact main_at_moved| |exact Hr|apply threads_keep_all|].
  - intros w1 t w' t' Hs _. by apply main_at_step.
  - eexists _, _. split; [done|]. left. apply ending_tests.
Qed.

(** Under the flag a main thread that will end does not miss anything. *)
Lemma pool_main_ending c c' :
  rtc pool_step c c' → Forall keeps_all c.2 → stopped (obj c.1) → main_first main_ending c →
  main_first main_ending c'.
Proof.
  intros Hr Hk Hst (t & ts & Ht & Hm).
  destruct (pool_steps_main (λ s t, stopped s ∧ main_ending s t) c c') as (t' & ts' & Ht' & _ & Hm').
  - intros s s' u Hmv [Hs Hu]. split; [by apply (mv_stopped _ _ Hmv)|by eapply main_ending_moved].
  - intros w u w' u' Hs Hmv [Hw Hu]. split; [by apply (mv_stopped _ _ Hmv)|by eapply main_ending_step].
  - done.
  - done.
  - by exists t, ts.
  - by exists t', ts'.
Qed.

(** ** Pools that cannot move *)

Lemma threads_pool_safe sigs rx d w c :
  rx_ok rx → dispatch_ok d → sys_wf (obj w) → rtc pool_step (w, threads sigs rx d) c →
  pool_safe (waits sigs) sys_wf c.
Proof. intros Hrx Hd Hwf Hr. eapply pool_steps_safe; [exact Hr|]. split; [done|]. by apply threads_safe. Qed.

Lemma main_ending_runs w t : main_ending (obj w) t → thread_blocked w t → False.
Proof.
  intros [|n Hn| | | |ts _ _ [->| ->]] Hb; try done.
  simpl in Hb. unfold wait_while in Hb. destruct (Nat.eqb_spec (s_signals (obj w)) n); [lia|done].
Qed.

(** Reads return, the main thread will end: everything has. *)
Lemma stuck_exited sigs rx d w c :
  rx_ok rx → dispatch_ok d → sys_wf (obj w) → rtc pool_step (w, threads sigs rx d) c →
  main_first main_ending c → (∀ n, sock_read n ≠ Quiet) → (∀ c', ¬ pool_step c c') →
  Forall thread_exited c.2 ∧ all_closed (obj c.1).
Proof.
  intros Hrx Hd Hwf Hr (t & ts & Hts & Hm) Hnq Hstuck. destruct c as [w' ts'].
  pose proof (threads_pool_safe _ _ _ _ _ Hrx Hd Hwf Hr) as Hsafe. apply pool_safe_defined in Hsafe.
  apply pool_stuck in Hstuck. cbn [fst snd] in *. subst ts'.
  apply Forall_cons in Hstuck as [Ht Hstuck]. apply Forall2_cons in Hsafe as [[Hu _] Hsafe].
  assert (Hmain : all_closed (obj w') ∧ thread_exited t).
  { destruct Ht as [Ht|[Ht|Ht]]; [|by destruct (main_ending_runs _ _ Hm)|done].
    by destruct Hm as [| | | | |? ? ? [->| ->]]. }
  destruct Hmain as [Hc He]. split; [|exact Hc]. constructor; [exact He|].
  assert (Hq : ¬ rx_waits (obj w')).
  { intros [[Ho _]|Hn]; [|by eapply Hnq]. destruct Hc as [Hc _]. change (closed (s_req_q (obj w')) = false) in Ho. congruence. }
  assert (Hno : Forall (λ mb : sys → Prop, ¬ mb (obj w')) (tail (waits sigs))).
  { simpl. repeat (apply Forall_cons_2; [|]); [done|intros [Ho _]; destruct Hc as [Hc _]; change (closed (s_req_q (obj w')) = false) in Ho; congruence|by intros []..|].
    apply Forall_replicate. by intros []. }
  clear -Hno Hstuck Hsafe. change (tail (waits sigs)) with (tail (waits sigs)) in Hno.
  revert Hno Hstuck. simpl. induction Hsafe as [|mb u mbs us [Hu Hb] _ IH]; [constructor|].
  intros [Hmb Hno]%Forall_cons [Hsu Hst]%Forall_cons. constructor; [|by apply IH].
  destruct Hsu as [?|[Hbl|?]]; [done|by destruct (Hmb (Hb Hbl))|done].
Qed.
End pool.

(** * The S3 race

    The check reads the clock before it reads the time of the last
    TesterPresent, and subtracts the two as [uint64_t]. *)

Section race.
Context {E : Env} {D : Double} {K : Sock} `{!ClockBounded E}.
Implicit Types w : world sys.

(** The S3 thread once it has read the clock. *)
Definition s3_after_now (now : Z) : thread sys_lock sys :=
  Thread s3_thread_main (InBody (on_ecu (s3_decide now);; mret (Continue, ()))).

Lemma s3_reads_now w :
  s_stop (obj w) = false → session (state (s_state (obj w))) = UDS_SESSION_EXTENDED →
  rtc tstep (w, start s3_thread_main ())
            (World (obj w) (S (readings w)) (draws w), s3_after_now (now_at w)).
Proof.
  destruct w as [[[[se tp di ap dt sc ow ol] go ga] io q st] rd dr]. cbn [obj s_stop s_state state session].
  intros -> ->. unfold start, s3_after_now. cbn [loop_body s3_thread_main].
  eapply (tstep_body s3_thread_main); [reflexivity|].
  eapply (tstep_body s3_thread_main); [reflexivity|].
  eapply (tstep_body s3_thread_main); [reflexivity|].
  apply rtc_refl.
Qed.
(** A TesterPresent handled at [w1], whatever the time since the last one. *)
Lemma tester_present_served l w :
  sys_wf (obj w) → dispatch_ok l → msg_wf (d_msg l) → payload (d_msg l) = [0x3E; 0x00] →
  0 <= sock (s_io (obj w)) →
  ∃ l' w', run (handle_request l) w = Done ((Continue, l'), w') ∧ sys_wf (obj w') ∧
    abs (s_state (obj w')) = with_session (session (state (s_state (obj w)))) (now_at w) (abs (s_state (obj w))).
Proof.
  intros Hwf Hd Hm Hp Hs.
  destruct (handle_request_run l [0x3E; 0x00] w Hwf Hd Hm Hp) as (l' & w' & r & Hr & Hspec & Hsent & Hq);
    [by compute|done|].
  exists l', w'. split; [done|]. split; [|exact (eq_sym (f_equal snd Hspec))].
  assert (Hlen : 1 <= msg_len (d_msg l)) by (rewrite <- payload_len, Hp by done; by compute).
  pose proof (safe_run never sys_wf _ _ w (handle_request_safe l Hd Hm Hlen) Hwf) as Hrun.
  rewrite Hr in Hrun. apply Hrun.
Qed.

(** C35: the S3 check can fire although TesterPresent is on time: when the
    dispatcher handles a TesterPresent between the S3 thread's reading of
    the clock and its reading of [last_tester_present_ms], the unsigned
    difference wraps and the session is reverted at once, whatever the time
    that has passed. *)
Theorem s3_race l w :
  sys_wf (obj w) → s_stop (obj w) = false → session (state (s_state (obj w))) = UDS_SESSION_EXTENDED →
  dispatch_ok l → msg_wf (d_msg l) → payload (d_msg l) = [0x3E; 0x00] → 0 <= sock (s_io (obj w)) →
  now_at w < ms_of_timespec (clock_gettime (S (readings w))) →
  ∃ w1 l1 w2,
    rtc pool_step
      (w, [start s3_thread_main (); Thread dispatch_thread_main (InBody (handle_request l))])
      (w1, [s3_after_now (now_at w); Thread dispatch_thread_main (InBody (Ret (Continue, l1)))]) ∧
    session (state (s_state (obj w1))) = UDS_SESSION_EXTENDED ∧
    last_tester_present_ms (state (s_state (obj w1))) = ms_of_timespec (clock_gettime (S (readings w))) ∧
    rtc pool_step
      (w1, [s3_after_now (now_at w); Thread dispatch_thread_main (InBody (Ret (Continue, l1)))])
      (w2, [Thread s3_thread_main (InBody (Ret (Continue, ())));
            Thread dispatch_thread_main (InBody (Ret (Continue, l1)))]) ∧
    session (state (s_state (obj w2))) = UDS_SESSION_DEFAULT.
Proof.
  intros Hwf Hst Hse Hd Hm Hp Hs Hclock.
  set (wn := World (obj w) (S (readings w)) (draws w)).
  destruct (tester_present_served l wn Hwf Hd Hm Hp Hs) as (l1 & w1 & Hr1 & Hwf1 & Ha1).
  pose proof (f_equal a_session Ha1) as Hs1. pose proof (f_equal a_last_tp Ha1) as Htp1. simpl in Hs1, Htp1.
  destruct (s3_decide_run (now_at w) (zoom_world state_lens w1) (sw_state _ Hwf1)) as (w2 & Hr2 & _ & Ha2).
  assert (He : s3_expired (now_at w) (last_tester_present_ms (state (obj (zoom_world state_lens w1)))) = true).
  { simpl. rewrite Htp1. change (now_at wn) with (ms_of_timespec (clock_gettime (S (readings w)))).
    pose proof (now_bounded w). pose proof (now_bounded wn) as Hb.
    change (now_at wn) with (ms_of_timespec (clock_gettime (S (readings w)))) in Hb.
    unfold s3_expired, u64, S3_TIMEOUT_MS, SECURITY_LOCK_DURATION_MS in *.
    rewrite Z.gtb_ltb. apply Z.ltb_lt.
    rewrite <- (Z_mod_plus_full _ 1), Z.mod_small; lia. }
  rewrite He in Ha2. exists w1, l1, (unzoom_world state_lens w1 w2).
  split; [|split; [by rewrite Hs1|split; [exact Htp1|split]]].
  - etrans; [exact (tsteps_pool [] _ _ _ (s3_reads_now w Hst Hse))|].
    exact (tsteps_pool [s3_after_now (now_at w)] [] _ _ (run_body_steps dispatch_thread_main _ _ _ _ Hr1)).
  - apply (tsteps_pool [] [Thread dispatch_thread_main (InBody (Ret (Continue, l1)))]
      (w1, s3_after_now (now_at w)) (unzoom_world state_lens w1 w2, _)), run_body_steps.
    by rewrite run_bind, run_on_ecu, Hr2.
  - exact (f_equal a_session Ha2).
Qed.
End race.

(** * A read error *)

Section read_error.
Context {E : Env} {D : Double} {K : Sock}.
Implicit Types w : world sys.

Lemma rx_read_error_run rx e w :
  s_stop (obj w) = false → 0 <= sock (s_io (obj w)) → sock_read (n_reads (s_io (obj w))) = Error e →
  e ≠ EINTR → e ≠ EAGAIN →
  ∃ l io', run (rx_body rx) w = Done ((Break, l), World (set_io io' (obj w)) (readings w) (draws w)).
Proof.
  intros Hst Hs He He1 He2. unfold rx_body.
  rewrite (run_bind_Done _ _ _ _ _ (run_read_stop w)), Hst, run_bind, run_on_io.
  unfold isotp_kio_recv. rewrite run_crit. unfold on_obj, isotp_kio_recv_step. cbn [zoom_world view obj io_lens].
  dec. rewrite He. dec. cbn [rv_rc rv_errno rv_out rv_len rx_errno negb andb]. dec. cbn [negb andb]. dec.
  by eexists _, _.
Qed.

(** A closed and empty queue ends the dispatcher. *)
Lemma dispatch_closed_run d w :
  s_stop (obj w) = false → queue_wf (s_req_q (obj w)) → contents (s_req_q (obj w)) = [] →
  closed (s_req_q (obj w)) = true →
  ∃ l w', run (dispatch_body d) w = Done ((Break, l), w') ∧ obj w' = obj w.
Proof.
  intros Hst Hq Hc Hcl. pose proof (len_contents _ Hq) as Hl. rewrite Hc, len_nil in Hl. unfold dispatch_body.
  rewrite (run_bind_Done _ _ _ _ _ (run_read_stop w)), Hst, run_bind, run_on_queue.
  unfold uds_queue_pop_blocking. cbn [is_null orb].
  change (zoom_world queue_lens w) with (World (s_req_q (obj w)) (readings w) (draws w)).
  rewrite run_waiting. unfold pop_waits, pop_locked. rewrite Hcl, <- Hl. cbn [negb andb].
  eexists _, _. split; [reflexivity|]. by destruct w as [[] ? ?].
Qed.

(** C36: after a read error that is neither a signal nor a timeout the receive
    thread closes the queue and ends, and so does the dispatcher; the stop
    flag stays clear, so the main thread goes on waiting for a signal: the
    process lives on without serving requests. *)
Theorem read_error_ends_service sigs rx d e w :
  s_stop (obj w) = false → 0 <= sock (s_io (obj w)) → sock_read (n_reads (s_io (obj w))) = Error e →
  e ≠ EINTR → e ≠ EAGAIN → queue_wf (s_req_q (obj w)) → contents (s_req_q (obj w)) = [] →
  ∃ w', rtc pool_step (w, threads sigs rx d)
          (w', [ start main_thread (); Thread rx_thread_main Exited; Thread dispatch_thread_main Exited;
                 start app_thread_main (); start s3_thread_main () ] ++ replicate sigs (start signal_thread ())) ∧
    s_stop (obj w') = false ∧ closed (s_req_q (obj w')) = true ∧ s_state (obj w') = s_state (obj w).
Proof.
  intros Hst Hs He He1 He2 Hq Hc.
  destruct (rx_read_error_run rx e w Hst Hs He He1 He2) as (l & io' & Hr).
  set (w1 := World (set_io io' (obj w)) (readings w) (draws w)) in Hr.
  set (w2 := World (set_req_q (set_closed (s_req_q (obj w))) (obj w1)) (readings w) (draws w)).
  destruct (dispatch_closed_run d w2 Hst (set_closed_wf _ Hq) Hc eq_refl) as (l3 & w3 & Hr3 & Ho3).
  exists w3. rewrite Ho3. split; [|done].
  etrans; [apply (tsteps_pool [start main_thread ()] _ (w, start rx_thread_main rx)
                   (w2, Thread rx_thread_main Exited))|].
  - exact (thread_runs_out rx_thread_main _ _ _ _ w2 Hr eq_refl).
  - apply (tsteps_pool [start main_thread (); Thread rx_thread_main Exited] _
             (w2, start dispatch_thread_main d) (w3, Thread dispatch_thread_main Exited)).
    exact (thread_runs_out dispatch_thread_main _ _ _ _ w3 Hr3 eq_refl).
Qed.
End read_error.

(** * A missed signal *)

Section missed.
Context {E : Env} {D : Double} {K : Sock}.
Implicit Types w : world sys.

(** Asleep with no signal to come: nothing wakes the main thread. *)
Definition asleep_for_good (c : pool sys_lock sys) : Prop :=
  ∃ n ts, c.2 = main_pausing n :: ts ∧ s_signals (obj c.1) = n ∧
          Forall (thread_keeps (λ s, s_signals s = n)) ts.

Lemma asleep_step c c' : pool_step c c' → asleep_for_good c → asleep_for_good c'.
Proof.
  intros [w ts1 u ts2 w' u' Hs] (n & ts & Hc & Hn & Hk). simpl in *.
  destruct ts1 as [|t0 ts1]; simpl in Hc; injection Hc as -> Hc.
  - apply thread_step_inv in Hs. destruct Hs as (b & Hb & _). unfold wait_while in Hb.
    by rewrite Hn, Nat.eqb_refl in Hb.
  - subst ts. apply Forall_app in Hk as [Hk1 [Hu Hk2]%Forall_cons_1].
    destruct (thread_step_kept _ _ _ _ _ Hs Hu) as [Hu' Hn'].
    exists n, (ts1 ++ u' :: ts2). split; [done|]. split; [by apply Hn'|]. apply Forall_app. split; [done|]. by constructor.
Qed.

(** C34: the main thread can miss the signal: if the handler runs between the
    test of [g_stop] and the call of [pause], the flag is set but the main
    thread sleeps, and no step of the other threads ever wakes it. *)
Theorem signal_can_be_missed rx d w :
  s_stop (obj w) = false →
  ∃ p, rtc pool_step (w, threads 1 rx d) p ∧ s_stop (obj p.1) = true ∧
    ∀ p', rtc pool_step p p' → ∃ ts, p'.2 = main_pausing (s_signals (obj p'.1)) :: ts.
Proof.
  intros Hst.
  set (workers := [ start rx_thread_main rx; start dispatch_thread_main d; start app_thread_main ();
                    start s3_thread_main () ]).
  set (w1 := World (signalled (obj w)) (readings w) (draws w)).
  set (entering := Thread main_thread (InBody (pause;; mret (Continue, ())))).
  set (n := S (s_signals (obj w))).
  set (p := (w1, main_pausing n :: workers ++ [Thread signal_thread Exited]) : pool sys_lock sys).
  assert (Hasleep : asleep_for_good p).
  { exists n, (workers ++ [Thread signal_thread Exited]). split; [done|]. split; [done|].
    apply Forall_app. split; [|by constructor].
    pose proof (workers_keep _ (signals_persistent (λ k, k = n)) rx d) as Hk. by apply Forall_cons in Hk as [_ Hk]. }
  exists p. split; [|split; [done|]].
  - etrans.
    { apply (tsteps_pool [] (workers ++ [start signal_thread ()]) (w, start main_thread ()) (w, entering)).
      destruct w as [[st io q [] sg] rd dr]; [done|].
      apply rtc_once. exact (step_body _ main_thread _ StopFlag _ _ _ false _ eq_refl). }
    etrans.
    { apply (tsteps_pool (entering :: workers) [] (w, start signal_thread ()) (w1, Thread signal_thread Exited)).
      apply (rtc_l _ _ (w1, Thread signal_thread (InBody (Ret (Break, ())))));
        [exact (step_body _ signal_thread _ StopFlag _ _ _ () w1 eq_refl)|].
      apply (rtc_l _ _ (w1, Thread signal_thread (InExit (Ret ())))); [apply step_break|]. apply rtc_once, step_exited. }
    apply (tsteps_pool [] (workers ++ [Thread signal_thread Exited]) (w1, entering) (w1, main_pausing n)).
    apply rtc_once. exact (step_body _ main_thread _ SignalWait _ _ w1 n w1 eq_refl).
  - intros p' Hr. assert (Hp : asleep_for_good p').
    { clear -Hr Hasleep. induction Hr as [|c c1 c2 Hs _ IH]; [done|]. apply IH. by eapply asleep_step. }
    destruct Hp as (m & ts & Hp & <- & _). by exists ts.
Qed.
End missed.

(** * The process *)

Section process.
Context {E : Env} {D : Double} {K : Sock} `{!ClockBounded E, !DoubleLaws D, !SockLaws K}.

(** C3: whatever the scheduler does after start-up, and whenever signals
    come, the shared state keeps its invariant, no thread ever reaches an
    undefined access, the application, S3 and signal threads never wait, the
    dispatcher waits only for a message in an open and empty queue, and the
    receive thread only for room in an open and full queue or on a read that
    never returns. *)
Theorem process_safe c (w w1 : world sys) sigs rx d p :
  run (main_setup c) w = Done (None, w1) → rx_ok rx → dispatch_ok d →
  rtc pool_step (w1, threads sigs rx d) p →
  sys_wf (obj p.1) ∧
  Forall2 (λ mb t, ¬ thread_undefined p.1 t ∧ (thread_blocked p.1 t → mb (obj p.1))) (waits sigs) p.2.
Proof.
  intros Hsetup Hrx Hd Hr. destruct (main_setup_run c w) as (w' & Hr' & _ & Hok). rewrite Hsetup in Hr'.
  destruct (calls_ok c); [|done]. injection Hr' as <-. destruct (Hok eq_refl) as [Hwf _].
  pose proof (threads_pool_safe sigs rx d w1 p Hrx Hd Hwf Hr) as Hs. split; [apply Hs|].
  exact (pool_safe_defined _ _ _ Hs).
Qed.

(** Once a signal has been handled the pool shuts down under every scheduler,
    provided the reads return: no schedule is infinite, and when none can go
    on, either every thread has ended and the queue and the socket are closed,
    or the main thread has missed the signal and sleeps; it has not if it was
    asleep when the signal came, or about to test the flag. *)
Lemma pool_shuts_down c (w w1 : world sys) sigs rx d p :
  run (main_setup c) w = Done (None, w1) → rx_ok rx → dispatch_ok d →
  rtc pool_step (w1, threads sigs rx d) p →
  s_stop (obj p.1) = true → (∀ n, sock_read n ≠ Quiet) →
  sn pool_step p ∧
  ∀ p', rtc pool_step p p' → (∀ p'', ¬ pool_step p' p'') →
    let ended := Forall thread_exited p'.2 ∧ closed (s_req_q (obj p'.1)) = true ∧ sock (s_io (obj p'.1)) = -1 in
    (main_first main_ending p → ended) ∧
    (ended ∨ ∃ ts, p'.2 = main_pausing (s_signals (obj p'.1)) :: ts).
Proof.
  intros Hsetup Hrx Hd Hr Hst Hnq. destruct (main_setup_run c w) as (w' & Hr' & _ & Hok). rewrite Hsetup in Hr'.
  destruct (calls_ok c); [|done]. injection Hr' as <-. destruct (Hok eq_refl) as [Hwf _].
  pose proof (pool_keeps_all _ _ _ _ _ Hr) as Hk. split.
  - destruct p as [wp ts]. apply (pool_sn stopped); [| |done].
    + eapply Forall_impl; [exact Hk|]. intros t Ht.
      apply Ht; [apply stopped_persistent|intros s _; reflexivity].
    + eapply (pool_steps_forall _ (w1, threads sigs rx d) (wp, ts)); [|exact Hr|apply threads_break].
      apply thread_step_breaks.
  - intros p' Hp Hstuck ended. assert (Hr1 : rtc pool_step (w1, threads sigs rx d) p') by (etrans; [exact Hr|exact Hp]).
    assert (He : main_first main_ending p' → ended)
      by (intros Hm; exact (stuck_exited sigs rx d w1 p' Hrx Hd Hwf Hr1 Hm Hnq Hstuck)).
    split; [intros Hm; apply He; exact (pool_main_ending p p' Hp Hk Hst Hm)|].
    destruct (pool_main_at _ _ _ _ _ Hr1) as (t & ts & Ht & [Hm|Hm]); [left; apply He; exists t, ts; exact (conj Ht Hm)|].
    destruct Hm as [|n ->]; [|right; exists ts; exact Ht].
    destruct p' as [wp ts']. simpl in Ht. subst ts'. exfalso.
    eapply (Hstuck (wp, main_pausing (s_signals (obj wp)) :: ts)), (pool_thread wp [] _ ts).
    exact (step_body _ main_thread _ SignalWait _ _ wp (s_signals (obj wp)) wp eq_refl).
Qed.
End process.

(** * The properties at concrete inputs *)

Definition demo_calls : open_calls := OpenCalls 3 0 1 0.
Definition demo_setup : outcome (option Z * world sys) :=
  run (main_setup (E:=demo_env) demo_calls) (demo_sys demo_world uds_queue_init).

Abbreviation demo_rx_thread := (start (rx_thread_main (E:=demo_env) (K:=demo_sock)) demo_rx).
Abbreviation demo_dispatch_thread :=
  (start (dispatch_thread_main (E:=demo_env) (K:=demo_sock)) (demo_dispatch uds_msg_zero)).
Abbreviation demo_app_thread := (start (app_thread_main (D:=demo_double)) ()).
Abbreviation demo_s3_thread := (start (s3_thread_main (E:=demo_env)) ()).
Abbreviation demo_threads :=
  (threads (E:=demo_env) (D:=demo_double) (K:=demo_sock) 1 demo_rx (demo_dispatch uds_msg_zero)).

(** The pool once a signal has been handled. *)
Definition demo_signalled (w : world sys) : pool sys_lock sys :=
  (World (signalled (obj w)) (readings w) (draws w),
   [ start (main_thread (E:=demo_env)) (); demo_rx_thread; demo_dispatch_thread; demo_app_thread; demo_s3_thread;
     Thread signal_thread (InBody (Ret (Break, ()))) ]).

Lemma demo_signal w : rtc pool_step (w, demo_threads) (demo_signalled w).
Proof.
  apply rtc_once, (pool_thread w
    [start (main_thread (E:=demo_env)) (); demo_rx_thread; demo_dispatch_thread; demo_app_thread; demo_s3_thread]
    (start signal_thread ()) [] (World (signalled (obj w)) (readings w) (draws w))).
  exact (step_body _ signal_thread _ StopFlag _ _ w () _ eq_refl).
Qed.

Lemma process_safe_witness :
  ∃ w1, demo_setup = Done (None, w1) ∧ sys_wf (obj (demo_signalled w1).1).
Proof.
  destruct (main_setup_run (E:=demo_env) demo_calls (demo_sys demo_world uds_queue_init)) as (w1 & Hr & _).
  exists w1. split; [exact Hr|].
  exact (proj1 (process_safe (E:=demo_env) (D:=demo_double) (K:=demo_sock) demo_calls
    (demo_sys demo_world uds_queue_init) w1 1 demo_rx (demo_dispatch uds_msg_zero) (demo_signalled w1)
    Hr demo_rx_ok (demo_dispatch_ok _) (demo_signal w1))).
Defined.

(** An S3 check whose clock reading precedes a TesterPresent. *)
Lemma s3_race_witness :
  let w := demo_sys demo_extended uds_queue_init in
  ∃ w1 w2, session (state (s_state (obj w1))) = UDS_SESSION_EXTENDED ∧
           last_tester_present_ms (state (s_state (obj w1))) = 2000 ∧
           session (state (s_state (obj w2))) = UDS_SESSION_DEFAULT.
Proof.
  intros w.
  set (m := UdsMsg ([0x3E; 0x00] ++ replicate (Z.to_nat (UDS_MAX_MSG_LEN - 2)) 0) 2).
  assert (Hm : msg_wf m).
  { split; [by vm_compute|by compute|]. apply Forall_app. split; [repeat constructor; by compute|].
    by apply Forall_replicate. }
  destruct (s3_race (E:=demo_env) (K:=demo_sock) (demo_dispatch m) w) as (w1 & l1 & w2 & _ & H1 & H2 & _ & H3);
    [exact (demo_sys_wf _ _ demo_extended_wf uds_queue_init_wf)|reflexivity|reflexivity|apply demo_dispatch_ok
    |exact Hm|reflexivity|by compute|by vm_compute|].
  exists w1, w2. split; [exact H1|]. split; [|exact H3]. rewrite H2. by vm_compute.
Defined.

(** The interface goes down (ENETDOWN). *)
Lemma read_error_ends_service_witness :
  let K := {| sock_read := λ _, Error 100; sock_write := λ _ m, len m |} : Sock in
  ∃ w', s_stop (obj w') = false ∧ closed (s_req_q (obj w')) = true ∧
        s_state (obj w') = s_state (obj (demo_sys demo_extended uds_queue_init)).
Proof.
  intros K. destruct (read_error_ends_service (E:=demo_env) (D:=demo_double) (K:=K) 0 demo_rx
    (demo_dispatch uds_msg_zero) 100 (demo_sys demo_extended uds_queue_init)) as (w' & _ & H);
    [reflexivity|by compute|reflexivity|done|done|exact uds_queue_init_wf|exact contents_init|].
  exists w'. exact H.
Defined.

Lemma signal_can_be_missed_witness :
  ∃ p, rtc pool_step (demo_sys demo_extended uds_queue_init, demo_threads) p ∧ s_stop (obj p.1) = true ∧
    ∃ ts, p.2 = Thread (main_thread (E:=demo_env))
                         (InBody (paused (s_signals (obj p.1));; mret (Continue, ()))) :: ts.
Proof.
  destruct (signal_can_be_missed (E:=demo_env) (D:=demo_double) (K:=demo_sock) demo_rx (demo_dispatch uds_msg_zero)
    (demo_sys demo_extended uds_queue_init)) as (p & Hr & Hs & Ha); [reflexivity|].
  exists p. split; [exact Hr|]. split; [exact Hs|]. exact (Ha p (rtc_refl _ _)).
Defined.
