(* ===== verification/Process.v ===== *)
(** [src/main.c] as a whole: the command line, start-up, the running pool,
    the joins and the exit code.

    [pthread_create] is taken to succeed.  What a thread's stack holds when it
    starts is arbitrary, and so is the number of signals to come. *)

From Stdlib Require Import String.
From S2P Require Import Prelude Effects Ghost UdsTypes DtcMem DidTable AppEngine Security Vecu Uds.
From S2P Require Import UdsSpec UdsRefine UdsProps UdsSafe Queue IsotpKernel Threads Main.

(** Line 51. *)
Definition main_ifname (argv : list string) : string :=
  match argv with
  | _ :: name :: _ => name
  | _ => "vcan0"
  end%string.

(** Lines 52 and 53: tester to ECU, and ECU to tester. *)
Definition rx_id : Z := 0x7E0.
Definition tx_id : Z := 0x7E8.

(** What the kernel answers to the system calls of [isotp_kio_open] for an
    interface and a pair of identifiers. *)
Class Net := { open_answers : string → Z → Z → open_calls }.

(** The process: before [main], with its threads created and so many of them
    joined, and ended with an exit code. *)
Inductive proc :=
| Launched (argv : list string) (w : world sys)
| Alive (c : pool sys_lock sys) (joined : nat)
| Returned (rc : Z) (w : world sys).

Section process.
Context {E : Env} {D : Double} {K : Sock} {N : Net}.

(** Thread [i] has ended: 0 is the main thread, at line 114; 1 to 4 are
    [t_rx], [t_disp], [t_app] and [t_s3]. *)
Definition ended_at (c : pool sys_lock sys) (i : nat) : Prop :=
  ∃ t, c.2 !! i = Some t ∧ thread_exited t.

Inductive proc_step : proc → proc → Prop :=
| proc_open_fails argv w rc w' :
    run (main_setup (open_answers (main_ifname argv) rx_id tx_id)) w = Done (Some rc, w') →
    proc_step (Launched argv w) (Returned rc w')
| proc_spawns argv w w' sigs rx d :
    run (main_setup (open_answers (main_ifname argv) rx_id tx_id)) w = Done (None, w') →
    rx_ok rx → dispatch_ok d →
    proc_step (Launched argv w) (Alive (w', threads sigs rx d) 0)
| proc_runs c c' k : pool_step c c' → proc_step (Alive c k) (Alive c' k)
| proc_joins c k :
    ended_at c 0 → (k < 4)%nat → ended_at c (S k) → proc_step (Alive c k) (Alive c (S k))
| proc_returns c rc w' :
    run main_teardown c.1 = Done (rc, w') → proc_step (Alive c 4) (Returned rc w').
End process.

(** * What holds of a running process *)

Section facts.
Context {E : Env} {D : Double} {K : Sock} {N : Net} `{!ClockBounded E, !DoubleLaws D, !SockLaws K}.

Lemma main_teardown_run w :
  ∃ w', run main_teardown w = Done (EXIT_SUCCESS, w') ∧
    s_stop (obj w') = s_stop (obj w) ∧ s_req_q (obj w') = s_req_q (obj w) ∧ s_io (obj w') = s_io (obj w).
Proof.
  unfold main_teardown. destruct (vecu_destroy_unhooks (zoom_world state_lens w)) as (_ & _ & w1 & Hr & _).
  rewrite (run_bind_Done _ _ _ () w) by reflexivity. rewrite run_bind, run_on_ecu, Hr. by eexists.
Qed.

(** A thread that has ended stays so. *)
Lemma ended_step c c' i : pool_step c c' → ended_at c i → ended_at c' i.
Proof.
  intros (j & t & t' & Ht & Hs & Heq)%pool_step_at (u & Hu & Hex). unfold ended_at. rewrite Heq.
  destruct (decide (j = i)) as [->|Hne]; [|exists u; by rewrite list_lookup_insert_ne].
  exfalso. rewrite Ht in Hu. injection Hu as ->. destruct u as [Loc l [p|p|]]; [done..|]. by apply thread_step_inv in Hs.
Qed.

(** How the process came to run, and what it has joined. *)
Record running (argv : list string) (w : world sys) (c : pool sys_lock sys) (k : nat) : Prop := {
  rn_start : ∃ w1 sigs rx d,
    run (main_setup (open_answers (main_ifname argv) rx_id tx_id)) w = Done (None, w1) ∧ rx_ok rx ∧ dispatch_ok d ∧
    rtc pool_step (w1, threads sigs rx d) c;
  rn_joined : (k <= 4)%nat;
  rn_ended : ∀ i, (0 < k)%nat → (i <= k)%nat → ended_at c i
}.

Definition proc_inv (argv : list string) (w : world sys) (p : proc) : Prop :=
  match p with
  | Launched argv' w' => argv' = argv ∧ w' = w
  | Alive c k => running argv w c k
  | Returned rc w' =>
      if calls_ok (open_answers (main_ifname argv) rx_id tx_id) then
        ∃ c, rtc proc_step (Launched argv w) (Alive c 4) ∧ running argv w c 4 ∧ run main_teardown c.1 = Done (rc, w')
      else rc = EXIT_FAILURE
  end.

Lemma setup_calls cs w r w' : run (main_setup cs) w = Done (r, w') → r = if calls_ok cs then None else Some EXIT_FAILURE.
Proof. destruct (main_setup_run cs w) as (w2 & Hr & _). rewrite Hr. by intros [= <- _]. Qed.

Lemma running_calls argv w c k :
  running argv w c k → calls_ok (open_answers (main_ifname argv) rx_id tx_id) = true.
Proof.
  intros [(w1 & sigs & rx & d & Hsetup & _) _ _]. apply setup_calls in Hsetup.
  destruct (calls_ok _); [reflexivity|discriminate Hsetup].
Qed.

Lemma proc_reach argv w p : rtc proc_step (Launched argv w) p → proc_inv argv w p.
Proof.
  revert p. apply rtc_ind_r; [by split|]. intros p p' Hr Hs IH.
  destruct Hs as [argv' w' rc w1 Hsetup|argv' w' w1 sigs rx d Hsetup Hrx Hd|c c' k Hs|c k H0 Hk Hend|c rc w' Ht].
  - destruct IH as [-> ->]. simpl. apply setup_calls in Hsetup. destruct (calls_ok _); [discriminate Hsetup|].
    by injection Hsetup as ->.
  - destruct IH as [-> ->]. split; [|lia|intros i Hi; lia].
    exists w1, sigs, rx, d. split; [exact Hsetup|]. split; [exact Hrx|]. split; [exact Hd|apply rtc_refl].
  - destruct IH as [(w1 & sigs & rx & d & Hst & Hrx & Hd & Hp) Hj He]. split; [|exact Hj|].
    + exists w1, sigs, rx, d. split; [exact Hst|]. split; [exact Hrx|]. split; [exact Hd|]. eapply rtc_r; [exact Hp|exact Hs].
    + intros i H1 H2. eapply ended_step; [exact Hs|]. exact (He i H1 H2).
  - destruct IH as [Hst Hj He]. split; [exact Hst|lia|]. intros i _ Hi.
    destruct (decide (i = S k)) as [->|]; [exact Hend|]. destruct k as [|k]; [assert (i = O) as -> by lia; exact H0|].
    apply He; lia.
  - simpl. rewrite (running_calls _ _ _ _ IH). exists c. split; [exact Hr|]. exact (conj IH Ht).
Qed.

Lemma running_main argv w c k : running argv w c k → main_first main_at c.
Proof. intros [(w1 & sigs & rx & d & _ & _ & _ & Hr) _ _]. by eapply pool_main_at. Qed.

(** The main thread past its loop. *)
Lemma main_ended argv w c k :
  running argv w c k → ended_at c 0 → stopped (obj c.1) ∧ all_closed (obj c.1).
Proof.
  intros Hrun (t & Ht & He). destruct (running_main _ _ _ _ Hrun) as (u & us & Hu & Hm). rewrite Hu in Ht.
  injection Ht as ->. destruct Hm as [Hm|Hm]; [|by destruct Hm]. by destruct Hm as [| | | | |? ? ? [->| ->]].
Qed.

(** ** Termination *)

Lemma alive_sn (c : pool sys_lock sys) k : sn pool_step c → sn proc_step (Alive c k).
Proof.
  intros Hsn. revert k. induction Hsn as [c _ IH]. 
  assert (Hk : ∀ m k, (4 - k <= m)%nat → sn proc_step (Alive c k)).
  { induction m as [|m IHm]; intros k Hle; constructor; intros p Hs; change (proc_step (Alive c k) p) in Hs;
      inversion Hs as [| |c0 c' k0 Hp|c0 k0 H0 Hlt He|c0 rc w' Ht]; subst;
      try (by apply IH); try lia; try (apply IHm; lia); constructor; intros p Hs'; inversion Hs'. }
  intros k. by apply (Hk (4 - k)%nat).
Qed.

Lemma alive_steps c k c' k' : rtc proc_step (Alive c k) (Alive c' k') → rtc pool_step c c'.
Proof.
  intros Hr. remember (Alive c k) as p eqn:Hp. remember (Alive c' k') as p' eqn:Hp'. revert c k Hp.
  induction Hr as [p|p p1 p2 Hs Hr IH]; intros c k ->; [by injection Hp' as -> ->|]. 
  inversion Hs as [| |c0 c1 k0 Hs1|c0 k0 H0 Hk He|c0 rc w' Ht]; subst.
  - eapply rtc_l; [exact Hs1|]. by eapply IH.
  - by eapply IH.
  - inversion Hr as [|? ? ? Hs']; subst. inversion Hs'.
Qed.

Lemma running_length argv w c k : running argv w c k → (5 <= length c.2)%nat.
Proof.
  intros [(w1 & sigs & rx & d & _ & _ & _ & Hr) _ _].
  assert (Hl : length c.2 = length (threads sigs rx d)).
  { clear -Hr. remember (w1, threads sigs rx d) as c0 eqn:H0.
    change (threads sigs rx d) with (w1, threads sigs rx d).2. rewrite <- H0. clear H0.
    induction Hr as [|c c1 c2 (i & t & t' & _ & _ & Heq)%pool_step_at _ IH]; [done|]. by rewrite IH, Heq, length_insert. }
  rewrite Hl. unfold threads. rewrite length_app. simpl. lia.
Qed.

(** With every thread ended the joins return, and so does [main]. *)
Lemma ended_steps argv w c k : running argv w c k → Forall thread_exited c.2 → ∃ p, proc_step (Alive c k) p.
Proof.
  intros Hrun Hall. pose proof (running_length _ _ _ _ Hrun) as Hlen.
  assert (He : ∀ i, (i <= 4)%nat → ended_at c i).
  { intros i Hi. destruct (lookup_lt_is_Some_2 c.2 i) as [t Ht]; [lia|]. exists t. split; [exact Ht|].
    rewrite Forall_lookup in Hall. exact (Hall i t Ht). }
  destruct (decide (k = 4)%nat) as [->|Hne].
  - destruct (main_teardown_run c.1) as (w' & Hr & _). eexists. apply proc_returns. exact Hr.
  - pose proof (rn_joined _ _ _ _ Hrun). eexists. apply proc_joins; [apply He|lia|apply He]; lia.
Qed.

Lemma launched_steps argv w : ∃ p, proc_step (Launched argv w) p.
Proof.
  destruct (main_setup_run (open_answers (main_ifname argv) rx_id tx_id) w) as (w' & Hr & _).
  destruct (calls_ok _).
  - eexists. apply (proc_spawns argv w w' 0 demo_rx (demo_dispatch uds_msg_zero) Hr demo_rx_ok (demo_dispatch_ok _)).
  - eexists. exact (proc_open_fails argv w _ w' Hr).
Qed.

(** How [main] returns. *)
Definition returned_ok (p : proc) : Prop :=
  ∃ w', p = Returned EXIT_SUCCESS w' ∧ s_stop (obj w') = true ∧
    closed (s_req_q (obj w')) = true ∧ sock (s_io (obj w')) = -1.

Lemma teardown_ok argv w c rc w' :
  running argv w c 4 → run main_teardown c.1 = Done (rc, w') → returned_ok (Returned rc w').
Proof.
  intros Hrun Ht. destruct (main_teardown_run c.1) as (w2 & Hr & H1 & H2 & H3). rewrite Hr in Ht. injection Ht as <- <-.
  destruct (main_ended _ _ _ _ Hrun (rn_ended _ _ _ _ Hrun 0 ltac:(lia) ltac:(lia))) as [Hst [Hq Hs]].
  exists w2. split; [reflexivity|]. rewrite H1, H2, H3. exact (conj Hst (conj Hq Hs)).
Qed.
End facts.

(** * Properties *)

Section properties.
Context {E : Env} {D : Double} {K : Sock} {N : Net} `{!ClockBounded E, !DoubleLaws D, !SockLaws K}.

(** C10: once a signal has been handled the process ends under every
    scheduler, provided the reads return (they time out): no execution is
    infinite, and one that cannot go on either has returned EXIT_SUCCESS with
    the queue and the socket closed, or its main thread has missed the signal
    and sleeps; it has not if it was asleep when the signal came, or about to
    test the flag. *)
Theorem process_shuts_down argv w c k :
  rtc proc_step (Launched argv w) (Alive c k) → s_stop (obj c.1) = true → (∀ n, sock_read n ≠ Quiet) →
  sn proc_step (Alive c k) ∧
  ∀ p, rtc proc_step (Alive c k) p → (∀ p', ¬ proc_step p p') →
    (main_first main_ending c → returned_ok p) ∧
    (returned_ok p ∨ ∃ c' k' ts, p = Alive c' k' ∧ c'.2 = main_pausing (s_signals (obj c'.1)) :: ts).
Proof.
  intros Hreach Hst Hnq. pose proof (proc_reach _ _ _ Hreach) as Hrun. simpl in Hrun.
  destruct (rn_start _ _ _ _ Hrun) as (w1 & sigs & rx & d & Hsetup & Hrx & Hd & Hr).
  destruct (pool_shuts_down _ w w1 sigs rx d c Hsetup Hrx Hd Hr Hst Hnq) as [Hsn Hend].
  split; [by apply alive_sn|]. intros p Hp Hstuck.
  assert (Hinv : proc_inv argv w p) by (apply proc_reach; etrans; [exact Hreach|exact Hp]).
  destruct p as [argv' w'|c' k'|rc w'].
  - destruct (launched_steps argv' w') as [p' Hs]. destruct (Hstuck p' Hs).
  - destruct (Hend c' (alive_steps _ _ _ _ Hp)) as [He1 He2].
    { intros c2 Hs. exact (Hstuck _ (proc_runs c' c2 k' Hs)). }
    assert (Hno : ¬ Forall thread_exited c'.2).
    { intros Hall. destruct (ended_steps _ _ _ _ Hinv Hall) as [p' Hs]. exact (Hstuck p' Hs). }
    split; [intros Hm; destruct (Hno (proj1 (He1 Hm)))|]. right.
    destruct He2 as [[Hall _]|(ts & Hts)]; [destruct (Hno Hall)|]. exists c', k', ts. exact (conj eq_refl Hts).
  - assert (Hret : returned_ok (Returned rc w')); [|split; [intros _; exact Hret|left; exact Hret]].
    simpl in Hinv. rewrite (running_calls _ _ _ _ Hrun) in Hinv. destruct Hinv as (c' & _ & Hrun' & Ht).
    exact (teardown_ok _ _ _ _ _ Hrun' Ht).
Qed.

(** C13: the exit code tells what happened, under every scheduler: EXIT_FAILURE
    when the socket could not be opened; else EXIT_SUCCESS, after a signal,
    with the queue and the socket closed, and the ECU was torn down only when
    all five threads had ended. *)
Theorem process_exit_code argv w rc w' :
  rtc proc_step (Launched argv w) (Returned rc w') →
  if calls_ok (open_answers (main_ifname argv) rx_id tx_id) then
    returned_ok (Returned rc w') ∧
    ∃ c, rtc proc_step (Launched argv w) (Alive c 4) ∧ run main_teardown c.1 = Done (rc, w') ∧
         ∀ i, (i <= 4)%nat → ended_at c i
  else rc = EXIT_FAILURE.
Proof.
  intros Hr. pose proof (proc_reach _ _ _ Hr) as Hinv. simpl in Hinv. destruct (calls_ok _); [|exact Hinv].
  destruct Hinv as (c & Hc & Hrun & Ht). split; [exact (teardown_ok _ _ _ _ _ Hrun Ht)|].
  exists c. split; [exact Hc|]. split; [exact Ht|]. intros i Hi. apply (rn_ended _ _ _ _ Hrun); lia.
Qed.
End properties.

(** * A run from the command line to the exit code

    The signal comes at once and every thread ends at its first test of the
    flag. *)

Section quick.
Context {E : Env} {D : Double} {K : Sock} {N : Net}.

Lemma alive_runs c c' k : rtc pool_step c c' → rtc proc_step (Alive c k) (Alive c' k).
Proof. induction 1 as [c|c c1 c2 Hs _ IH]; [apply rtc_refl|]. eapply rtc_l; [apply proc_runs, Hs|exact IH]. Qed.

Lemma signalled_ends rx d w :
  ∃ w', rtc pool_step (w, threads 1 rx d)
    (w', [Thread main_thread Exited; Thread rx_thread_main Exited; Thread dispatch_thread_main Exited;
          Thread app_thread_main Exited; Thread s3_thread_main Exited; Thread signal_thread Exited]).
Proof.
  set (ws := World (signalled (obj w)) (readings w) (draws w)).
  assert (Hb : ∀ {Loc} (l : Loc) (p : sprog (ctl * Loc)) w, s_stop (obj w) = true →
    run (stop ← read_stop; if stop : bool then mret (Break, l) else p) w = Done ((Break, l), w)).
  { intros Loc l p w0 H0. by rewrite (run_bind_Done _ _ _ _ _ (run_read_stop w0)), H0. }
  set (w1 := World (set_req_q (set_closed (s_req_q (obj ws))) (obj ws)) (readings w) (draws w)).
  set (w2 := World (set_io (Kio (-1) (n_reads (s_io (obj w1))) (n_writes (s_io (obj w1))) (sent (s_io (obj w1)))) (obj w1))
               (readings w) (draws w)).
  set (w3 := World (set_req_q (set_closed (s_req_q (obj w2))) (obj w2)) (readings w) (draws w)).
  exists w3.
  etrans; [apply (tsteps_pool [start main_thread (); start rx_thread_main rx; start dispatch_thread_main d;
    start app_thread_main (); start s3_thread_main ()] [] (w, start signal_thread ()) (ws, Thread signal_thread Exited))|].
  { by apply (thread_runs_out _ _ () _ ws). }
  etrans; [apply (tsteps_pool [] _ (ws, start main_thread ()) (w2, Thread main_thread Exited)); eapply thread_runs_out|].
  { apply Hb. reflexivity. }
  { reflexivity. }
  etrans; [apply (tsteps_pool [_] _ (w2, start rx_thread_main rx) (w3, Thread rx_thread_main Exited)); eapply thread_runs_out|].
  { apply Hb. reflexivity. }
  { reflexivity. }
  etrans; [apply (tsteps_pool [_; _] _ (w3, start dispatch_thread_main d) (w3, Thread dispatch_thread_main Exited)); eapply thread_runs_out|].
  { apply Hb. reflexivity. }
  { reflexivity. }
  etrans; [apply (tsteps_pool [_; _; _] _ (w3, start app_thread_main ()) (w3, Thread app_thread_main Exited)); eapply thread_runs_out|].
  { apply Hb. reflexivity. }
  { reflexivity. }
  apply (tsteps_pool [_; _; _; _] _ (w3, start s3_thread_main ()) (w3, Thread s3_thread_main Exited)), (thread_runs_out _ _ () _ w3).
  { apply Hb. reflexivity. }
  reflexivity.
Qed.

(** So the process returns. *)
Lemma quick_return `{!ClockBounded E, !DoubleLaws D, !SockLaws K} argv w :
  calls_ok (open_answers (main_ifname argv) rx_id tx_id) = true →
  ∃ rc w', rtc proc_step (Launched argv w) (Returned rc w').
Proof.
  intros Hc. destruct (main_setup_run (open_answers (main_ifname argv) rx_id tx_id) w) as (w1 & Hr & _).
  rewrite Hc in Hr. destruct (signalled_ends demo_rx (demo_dispatch uds_msg_zero) w1) as (w2 & Hp).
  destruct (main_teardown_run w2) as (w3 & Ht & _). exists EXIT_SUCCESS, w3.
  eapply rtc_l; [exact (proc_spawns argv w w1 1 demo_rx (demo_dispatch uds_msg_zero) Hr demo_rx_ok (demo_dispatch_ok _))|].
  etrans; [exact (alive_runs _ _ 0 Hp)|].
  do 4 (eapply rtc_l; [apply proc_joins; [eexists; by split|lia|eexists; by split]|]).
  apply rtc_once, proc_returns. exact Ht.
Qed.
End quick.

(** * The properties at concrete inputs *)

Definition demo_net : Net := {| open_answers ifname rx tx := demo_calls |}.

Lemma process_shuts_down_witness :
  ∃ w1, rtc (proc_step (E:=demo_env) (D:=demo_double) (K:=demo_sock) (N:=demo_net))
          (Launched ["vecu"]%string (demo_sys demo_world uds_queue_init)) (Alive (demo_signalled w1) 0) ∧
        sn (proc_step (E:=demo_env) (D:=demo_double) (K:=demo_sock) (N:=demo_net)) (Alive (demo_signalled w1) 0).
Proof.
  destruct (main_setup_run (E:=demo_env) demo_calls (demo_sys demo_world uds_queue_init)) as (w1 & Hr & _).
  assert (Hreach : rtc (proc_step (E:=demo_env) (D:=demo_double) (K:=demo_sock) (N:=demo_net))
    (Launched ["vecu"]%string (demo_sys demo_world uds_queue_init)) (Alive (demo_signalled w1) 0)).
  { eapply rtc_l; [exact (proc_spawns (N:=demo_net) ["vecu"]%string _ w1 1 demo_rx (demo_dispatch uds_msg_zero) Hr demo_rx_ok (demo_dispatch_ok _))|].
    exact (alive_runs (N:=demo_net) _ _ 0 (demo_signal w1)). }
  exists w1. split; [exact Hreach|].
  refine (proj1 (process_shuts_down (E:=demo_env) (D:=demo_double) (K:=demo_sock) (N:=demo_net) _ _ _ _ Hreach eq_refl _)).
  by intros [|n].
Defined.

(** On the interface named on the command line. *)
Lemma process_exit_code_witness :
  ∃ rc w', rtc (proc_step (E:=demo_env) (D:=demo_double) (K:=demo_sock) (N:=demo_net))
             (Launched ["vecu"; "can0"]%string (demo_sys demo_world uds_queue_init)) (Returned rc w') ∧
           returned_ok (Returned rc w').
Proof.
  destruct (quick_return (E:=demo_env) (D:=demo_double) (K:=demo_sock) (N:=demo_net)
    ["vecu"; "can0"]%string (demo_sys demo_world uds_queue_init)) as (rc & w' & Hr); [reflexivity|].
  exists rc, w'. split; [exact Hr|].
  exact (proj1 (process_exit_code (E:=demo_env) (D:=demo_double) (K:=demo_sock) (N:=demo_net) _ _ _ _ Hr)).
Defined.
