(* ===== verification/Server.v ===== *)
(** The process as a concurrent specification.

    The abstract process has the threads of the code, but its state is the
    abstract ECU of [UdsSpec.v], a FIFO of messages in place of the ring
    buffer, and the socket; its dispatcher answers with the services of
    [Services.v]; it has no buffers, lengths or return codes.  The code and
    the specification have the same executions. *)

From Stdlib Require Import String.
From S2P Require Import Prelude Effects Simulate UdsTypes DtcMem DidTable AppEngine Security Vecu Uds.
From S2P Require Import UdsSpec Services UdsRefine UdsProps UdsSafe Queue IsotpKernel Threads Main.

(** * The abstract process *)

Record server := Server {
  v_ecu : aecu;
  v_io : isotp_kio_t;
  v_queue : fifo;
  v_stop : bool;
  v_signals : nat
}.

Definition set_v_ecu v s := Server v (v_io s) (v_queue s) (v_stop s) (v_signals s).
Definition set_v_io v s := Server (v_ecu s) v (v_queue s) (v_stop s) (v_signals s).
Definition set_v_queue v s := Server (v_ecu s) (v_io s) v (v_stop s) (v_signals s).

Definition v_ecu_lens : lens server aecu := Lens v_ecu set_v_ecu.
Definition v_io_lens : lens server isotp_kio_t := Lens v_io set_v_io.
Definition v_queue_lens : lens server fifo := Lens v_queue set_v_queue.

Abbreviation server_prog := (prog () server).

Definition on_v_ecu {A} (p : aprog A) : server_prog A := lift id v_ecu_lens p.
Definition on_v_io {A} (p : prog () isotp_kio_t A) : server_prog A := lift id v_io_lens p.
Definition on_v_queue {A} (p : prog () fifo A) : server_prog A := lift id v_queue_lens p.

(** An action that may have to wait. *)
Definition act_when {S A} (f : S → option (A * S)) : prog () S A :=
  crit () (λ w, match f (obj w) with
                | Some (a, s) => Done (a, World s (readings w) (draws w))
                | None => Blocked
                end).

(** ** The socket *)

Inductive reception := Arrived (m : bytes) | Interrupted | Failed (errno : Z).

Section server.
Context {E : Env} {D : Double} {K : Sock}.

(** [None]: the read does not return.  On a closed socket there is no system
    call, and [errno] is what it was. *)
Definition receive (errno : Z) (k : isotp_kio_t) : option (reception * isotp_kio_t) :=
  if sock k <? 0 then Some (Failed errno, k) else
  let k' := Kio (sock k) (S (n_reads k)) (n_writes k) (sent k) in
  match sock_read (n_reads k) with
  | Message data => Some (Arrived (take (Z.to_nat UDS_MAX_MSG_LEN) data), k')
  | Error e => Some (if e =? EINTR then Interrupted else Failed e, k')
  | Quiet => None
  end.

Definition transmit (m : bytes) (k : isotp_kio_t) : option (() * isotp_kio_t) :=
  Some ((), if sock k <? 0 then k else Kio (sock k) (n_reads k) (S (n_writes k)) (sent k ++ [m])).

Definition close_socket (k : isotp_kio_t) : option (() * isotp_kio_t) :=
  Some ((), Kio (-1) (n_reads k) (n_writes k) (sent k)).

Definition close_queue (f : fifo) : option (() * fifo) := Some ((), Fifo (f_msgs f) true).

(** ** The threads *)

Definition see_stop : server_prog bool := atomically (gets v_stop).

(** The receive thread keeps the last [errno]. *)
Definition server_rx_body (errno : Z) : server_prog (ctl * Z) :=
  stop ← see_stop;
  if stop : bool then mret (Break, errno) else
  r ← on_v_io (act_when (receive errno));
  match r with
  | Interrupted => mret (Continue, EINTR)
  | Failed e => mret (if e =? EAGAIN then Continue else Break, e)
  | Arrived m =>
      if len m =? 0 then mret (Continue, errno) else
      rc ← on_v_queue (act_when (fifo_push m));
      mret (if rc =? 0 then Continue else Break, errno)
  end.
Definition server_rx : loop () server Z := Loop server_rx_body (λ _, on_v_queue (act_when close_queue)).

Definition answer (m : bytes) : server_prog (ctl * ()) :=
  r ← on_v_ecu (service UDS_MAX_MSG_LEN m);
  (if reply_rc r =? 0 then on_v_io (act_when (transmit (reply_bytes (hd 0 m) r))) else mret ());;
  mret (Continue, ()).

Definition server_dispatch_body (l : ()) : server_prog (ctl * ()) :=
  stop ← see_stop;
  if stop : bool then mret (Break, l) else
  '(_, m) ← on_v_queue (act_when fifo_pop);
  match m with
  | None => mret (Break, l)
  | Some m => answer m
  end.
Definition server_dispatch : loop () server () := Loop server_dispatch_body (λ _, mret ()).

Definition act_tick : aprog () :=
  atomically (modify_out (λ a, e ← tick_step (a_engine a); Done (with_engine e a))).

Definition server_app_body (l : ()) : server_prog (ctl * ()) :=
  stop ← see_stop;
  if stop : bool then mret (Break, l) else on_v_ecu act_tick;; mret (Continue, l).
Definition server_app : loop () server () := Loop server_app_body (λ _, mret ()).

(** A session that is not the default one is left when nothing was heard for
    more than the timeout. *)
Definition watch : aprog () :=
  sess ← observe a_session;
  if sess !=? UDS_SESSION_DEFAULT then
    now ← atomically vecu_now_ms;
    last ← observe a_last_tp;
    if s3_expired now last then act_session UDS_SESSION_DEFAULT;; act_relock else mret ()
  else mret ().

Definition server_s3_body (l : ()) : server_prog (ctl * ()) :=
  stop ← see_stop;
  if stop : bool then mret (Break, l) else on_v_ecu watch;; mret (Continue, l).
Definition server_s3 : loop () server () := Loop server_s3_body (λ _, mret ()).

Definition server_pause : server_prog () :=
  n ← atomically (gets v_signals);
  atomically (wait_while (λ s, Nat.eqb (v_signals s) n)).
Definition server_main_body (l : ()) : server_prog (ctl * ()) :=
  stop ← see_stop;
  if stop : bool then mret (Break, l) else server_pause;; mret (Continue, l).
Definition server_main : loop () server () :=
  Loop server_main_body (λ _, on_v_queue (act_when close_queue);; on_v_io (act_when close_socket)).

Definition server_signal : loop () server () :=
  Loop (λ l, atomically (modify (λ s, Server (v_ecu s) (v_io s) (v_queue s) true (S (v_signals s))));; mret (Break, l))
       (λ _, mret ()).

Definition server_threads (sigs : nat) (errno : Z) : list (thread () server) :=
  [ start server_main (); start server_rx errno; start server_dispatch (); start server_app ();
    start server_s3 () ] ++ replicate sigs (start server_signal ()).
End server.

(** * The code and the specification *)

Definition abs_sys (s : sys) : server :=
  Server (abs (s_state s)) (s_io s) (fifo_of (s_req_q s)) (s_stop s) (s_signals s).

(** A section that does not consult the clock or the entropy source. *)
Definition untimed {L S B} (l : L) (body : cs S B) : Prop :=
  ∀ w b w', body w = Done (b, w') → readings w' = readings w ∧ draws w' = draws w.

Lemma act_sim {L S S' A B} (wf : S → Prop) (ab : S → S') (R : A → B → Prop) (p : prog L S A) Φ
    (f : S' → option (B * S')) :
  atomic p Φ → guarded (λ B, @untimed L S B) p →
  (∀ w o, wf (obj w) → Φ w o →
     match o with
     | Done (a, w') => wf (obj w') ∧ ∃ b, f (ab (obj w)) = Some (b, ab (obj w')) ∧ R a b
     | Blocked => f (ab (obj w)) = None
     | Undefined => False
     end) →
  sim wf ab R p (act_when f).
Proof.
  intros (l & body & -> & HΦ) [Hu _] Hf w Hw. specialize (HΦ w). rewrite run_crit in HΦ. specialize (Hf w _ Hw HΦ).
  destruct (body w) as [[a w']| |] eqn:Hb; cbn [abs_world obj]; [|by rewrite Hf|done].
  destruct Hf as (Hw' & b & -> & HR). split; [done|]. exists b. destruct (Hu _ _ _ Hb) as [Hr Hd].
  split; [unfold abs_world; simpl; by rewrite Hr, Hd|done].
Qed.

Lemma on_obj_untimed {L S A} (l : L) (f : S → outcome (A * S)) : untimed l (on_obj f).
Proof. intros w b w' Hb. unfold on_obj in Hb. destruct (f _) as [[]| |]; [|done..]. by injection Hb as <- <-. Qed.

Lemma waiting_untimed {L S A} (l : L) cond (f : S → outcome (A * S)) : untimed l (wait_while cond;; on_obj f).
Proof.
  intros w b w' Hb. cs_simpl. unfold wait_while in Hb. destruct (cond _); [done|]. by eapply (on_obj_untimed l).
Qed.

Section sims.
Context {E : Env} {D : Double} {K : Sock} `{!ClockBounded E, !DoubleLaws D, !SockLaws K}.

Abbreviation sys_sim := (sim (L:=sys_lock) (L':=()) sys_wf abs_sys).

Lemma on_ecu_sim {A B} (R : A → B → Prop) p q : ecu_sim R p q → sys_sim R (on_ecu p) (on_v_ecu q).
Proof. apply sim_lift; [apply sw_state| |done..]. by intros s t [] ?. Qed.
Lemma on_queue_sim {A B} (R : A → B → Prop) p q :
  sim (L':=()) queue_wf fifo_of R p q → sys_sim R (on_queue p) (on_v_queue q).
Proof. apply sim_lift; [apply sw_queue| |done..]. by intros s t [] ?. Qed.
Lemma on_io_sim {A B} (R : A → B → Prop) p q : sim (L':=()) io_ok id R p q → sys_sim R (on_io p) (on_v_io q).
Proof. apply sim_lift; [apply sw_sent| |done..]. by intros s t [] ?. Qed.

Lemma stop_sim : sys_sim eq read_stop see_stop.
Proof. intros w Hw. split; [done|]. eexists. by split; [reflexivity|]. Qed.

(** ** The receive thread *)

Definition received_as (errno : Z) (r : recv_result) (m : reception) : Prop :=
  (len (rv_out r) = UDS_MAX_MSG_LEN ∧ Forall is_byte (rv_out r)) ∧
  match m with
  | Arrived m => rv_rc r = 0 ∧ rv_len r = Some (len m) ∧ rv_errno r = errno ∧ len m <= UDS_MAX_MSG_LEN ∧
                 take (Z.to_nat (len m)) (rv_out r) = m
  | Interrupted => rv_rc r = 1 ∧ rv_errno r = EINTR
  | Failed e => rv_rc r = -1 ∧ rv_errno r = e
  end.

Lemma recv_sim buf errno :
  len buf = UDS_MAX_MSG_LEN → Forall is_byte buf →
  sim (L':=()) io_ok id (received_as errno) (isotp_kio_recv PTR (Some buf) UDS_MAX_MSG_LEN PTR errno)
    (act_when (receive errno)).
Proof.
  intros Hl Hb. eapply act_sim; [eapply atomic_run; reflexivity|split; [apply on_obj_untimed|done]|].
  intros w ? Hw ->. unfold isotp_kio_recv. rewrite run_crit. unfold on_obj, isotp_kio_recv_step, receive, id.
  destruct (sock (obj w) <? 0); [split; [done|]; by eexists|].
  destruct (sock_read (n_reads (obj w))) as [data|e|] eqn:Hm; [|destruct (Z.eqb_spec e EINTR) as [->|];
    (split; [done|]); by eexists|done].
  pose proof (len_nonneg data). pose proof (eq_refl : UDS_MAX_MSG_LEN = 4095) as HM.
  rewrite memcpy_defined by lia. cbn [mbind outcome_bind].
  rewrite drop_0. change (take (Z.to_nat 0) buf) with (@nil Z). rewrite app_nil_l, Z.add_0_l.
  split; [done|]. eexists. split; [reflexivity|].
  assert (Hn : take (Z.to_nat (Z.min (len data) UDS_MAX_MSG_LEN)) data = take (Z.to_nat UDS_MAX_MSG_LEN) data).
  { destruct (Z.min_spec (len data) UDS_MAX_MSG_LEN) as [[? ->]|[? ->]]; [|done].
    rewrite !take_ge; [done|unfold len in *; lia..]. }
  assert (Hlt : len (take (Z.to_nat UDS_MAX_MSG_LEN) data) = Z.min (len data) UDS_MAX_MSG_LEN) by (rewrite <- Hn, len_take; lia).
  rewrite Hn. unfold received_as. cbn [rv_out rv_rc rv_len rv_errno]. split; [split|].
  - rewrite len_app, len_drop, Hlt; lia.
  - apply Forall_app. split; [by apply Forall_take, (read_bytes (n_reads (obj w)))|by apply Forall_drop].
  - rewrite Hlt. split; [done|]. split; [done|]. split; [done|]. split; [lia|].
    by rewrite <- Hlt, to_nat_len, take_app_length.
Qed.

Lemma push_sim buf n m :
  len buf = UDS_MAX_MSG_LEN → Forall is_byte buf → 1 <= n <= UDS_MAX_MSG_LEN → take (Z.to_nat n) buf = m →
  sim (L':=()) queue_wf fifo_of eq (uds_queue_push PTR (Some buf) n) (act_when (fifo_push m)).
Proof.
  intros Hl Hb Hn <-. eapply act_sim; [by apply uds_push_law| |].
  - unfold uds_queue_push. rewrite push_accepts_true by done. split; [apply waiting_untimed|done].
  - intros w o Hw Ho. specialize (Ho Hw). destruct o as [[rc w']| |]; [|exact Ho|done].
    destruct Ho as [Hw' Ho]. split; [exact Hw'|]. exists rc. split; [exact Ho|done].
Qed.

Definition popped_as (r : Z * option uds_msg_t) (r' : Z * option bytes) : Prop :=
  match r'.2 with
  | Some m => r.1 = 0 ∧ ∃ msg, r.2 = Some msg ∧ msg_wf msg ∧ 1 <= msg_len msg ∧ payload msg = m
  | None => r.1 ≠ 0
  end.

Lemma pop_sim : sim (L':=()) queue_wf fifo_of popped_as (uds_queue_pop_blocking PTR PTR) (act_when fifo_pop).
Proof.
  eapply act_sim; [by apply uds_pop_law|split; [apply waiting_untimed|done]|].
  intros w o Hw Ho. specialize (Ho Hw). destruct o as [[[rc out] w']| |]; [|exact Ho|done].
  destruct Ho as (Hw' & Hm & Ho). split; [exact Hw'|]. eexists. split; [exact Ho|].
  unfold fifo_pop in Ho. destruct (f_msgs _); [destruct (f_closed _); [|done]|]; injection Ho as <- Hout _.
  - destruct out; [done|]. by unfold popped_as.
  - destruct out as [msg|]; [|done]. destruct (Hm msg eq_refl). split; [done|]. by exists msg.
Qed.

Lemma shutdown_sim : sim (L':=()) queue_wf fifo_of (λ _ _, True) (uds_queue_shutdown PTR) (act_when close_queue).
Proof. intros w Hw. split; [by apply set_closed_wf|]. eexists. by split; [reflexivity|]. Qed.

Lemma close_sim : sim (L':=()) io_ok id (λ _ _, True) (isotp_kio_close PTR) (act_when close_socket).
Proof. intros w Hw. split; [done|]. eexists. by split; [reflexivity|]. Qed.

Definition rx_matches (l : rx_locals) (errno : Z) : Prop := rx_ok l ∧ rx_errno l = errno.

Lemma rx_sim : loop_sim sys_wf abs_sys rx_matches rx_thread_main server_rx.
Proof.
  split; [|intros l errno _; apply on_queue_sim, shutdown_sim].
  intros l errno [[Hl Hb] <-]. cbn [loop_body rx_thread_main server_rx]. unfold rx_body, server_rx_body.
  eapply sim_bind; [apply stop_sim|]. intros stop ? <-. destruct stop; [by repeat split|].
  eapply sim_bind; [by apply on_io_sim, recv_sim|]. intros r m [[Hlr Hbr] Hm]. cbv zeta.
  assert (Hok : ∀ c n e e', e = e' → next_sim rx_matches (c, RxLocals (rv_out r) n e) (c, e')) by (by repeat split).
  destruct m as [m| |e].
  - destruct Hm as (-> & -> & He & Hlen & Ht). change (0 =? 1) with false. change (0 !=? 0) with false.
    cbn [andb default rx_len rx_buf id]. destruct (Z.eqb_spec (len m) 0) as [|Hne]; [by apply Hok|].
    pose proof (len_nonneg m).
    eapply sim_bind; [apply on_queue_sim, push_sim; [done..|lia|done]|]. intros rc ? <-.
    destruct (rc =? 0); by apply Hok.
  - destruct Hm as [-> He]. by apply Hok.
  - destruct Hm as [-> He]. change (-1 =? 1) with false. change (-1 !=? 0) with true. cbn [andb rx_errno]. rewrite He.
    destruct (e =? EAGAIN); by apply Hok.
Qed.

(** ** The dispatcher *)

Lemma send_sim m rest :
  1 <= len m <= UDS_MAX_MSG_LEN →
  sim (L':=()) io_ok id (λ _ _, True) (isotp_kio_send PTR (Some (m ++ rest)) (len m)) (act_when (transmit m)).
Proof.
  intros Hm. eapply act_sim; [eapply atomic_run; reflexivity|split; [apply on_obj_untimed|done]|].
  intros w ? Hw ->. unfold isotp_kio_send. rewrite run_crit. unfold on_obj, transmit, id.
  destruct (Z.ltb_spec (sock (obj w)) 0).
  - unfold isotp_kio_send_step. dec. split; [done|]. by eexists.
  - destruct (send_message m rest (obj w)) as (rc & -> & _); [lia|]. split; [|by eexists].
    apply Forall_app. split; [done|]. by constructor.
Qed.

Lemma process_sim m resp n :
  msg_wf m → 1 <= msg_len m → len resp = UDS_MAX_MSG_LEN →
  ecu_sim (λ r rp, ∃ h, r = (hr_rc h, Some (hr_resp h, hr_len h)) ∧
                        conforms (hd 0 (payload m)) resp h rp ∧ len (reply_bytes (hd 0 (payload m)) rp) <= UDS_MAX_MSG_LEN)
    (uds_process_request PTR (Some (msg_data m)) (msg_len m) (Some resp) UDS_MAX_MSG_LEN (Some n))
    (service UDS_MAX_MSG_LEN (payload m)).
Proof.
  intros Hm Hlen Hr. destruct (payload_request m Hm Hlen) as (Hb & Hne & <- & rest & ->).
  destruct (payload m) as [|sid args]; [done|]. unfold uds_process_request. pose proof (eq_refl : UDS_MAX_MSG_LEN = 4095) as HM.
  eapply sim_post.
  - eapply (sim_post_safe _ _ never (λ a, True)); [done|apply dispatch_sim; [done|lia|lia]|].
    apply (service_safe (λ _, True)); [lia|done].
  - intros h rp [Hc [_ _ Hl]]. eexists. split; [reflexivity|]. by exists h.
Qed.

Lemma handle_sim l :
  dispatch_ok l → msg_wf (d_msg l) → 1 <= msg_len (d_msg l) →
  sys_sim (next_sim (λ l _, dispatch_ok l)) (handle_request l) (answer (payload (d_msg l))).
Proof.
  intros Hd Hm Hlen. unfold handle_request, answer. unfold dispatch_ok in Hd.
  eapply sim_bind; [by apply on_ecu_sim, process_sim|].
  intros ? r (h & -> & (Hrc & Hl & Hr) & Hmax). cbv zeta. cbn [d_resp_len d_resp]. rewrite Hrc.
  assert (Hok : ∀ c, next_sim (λ l _, dispatch_ok l) (c, DispatchLocals (d_msg l) (hr_resp h) (hr_len h)) (c, ()))
    by (intros c; split; [done|]; change (len (hr_resp h) = UDS_MAX_MSG_LEN); congruence).
  assert (Hsend : r ≠ Dropped → sys_sim (next_sim (λ l _, dispatch_ok l))
    (if hr_len h =? 0 then mret (Continue, DispatchLocals (d_msg l) (hr_resp h) (hr_len h))
     else on_io (isotp_kio_send PTR (Some (hr_resp h)) (hr_len h));; mret (Continue, DispatchLocals (d_msg l) (hr_resp h) (hr_len h)))
    (on_v_io (act_when (transmit (reply_bytes (hd 0 (payload (d_msg l))) r)));; mret (Continue, ()))).
  { intros Hnd. destruct (Hr Hnd) as (Hn & rest & He). pose proof (reply_bytes_len (hd 0 (payload (d_msg l))) r Hnd).
    destruct (Z.eqb_spec (hr_len h) 0); [lia|].
    apply (sim_bind _ _ (λ _ _, True)); [|intros _ _ _; apply Hok]. rewrite He, Hn. by apply on_io_sim, send_sim. }
  destruct r as [[] args|nrc|]; [apply Hok|by apply Hsend|by apply Hsend|apply Hok].
Qed.

Lemma dispatch_thread_sim :
  loop_sim sys_wf abs_sys (λ l _, dispatch_ok l) dispatch_thread_main server_dispatch.
Proof.
  split; [|done]. intros l [] Hl. cbn [loop_body dispatch_thread_main server_dispatch].
  unfold dispatch_body, server_dispatch_body.
  eapply sim_bind; [apply stop_sim|]. intros stop ? <-. destruct stop; [done|].
  eapply sim_bind; [apply on_queue_sim, pop_sim|]. intros [rc out] [rc' m] Hp. unfold popped_as in Hp. simpl in Hp.
  destruct m as [m|].
  - destruct Hp as (-> & msg & -> & Hm & Hlen & <-). by apply (handle_sim (DispatchLocals msg _ _)).
  - destruct (Z.eqb_spec rc 0); [done|]. by split.
Qed.

(** ** The others *)

Lemma app_thread_sim : loop_sim sys_wf abs_sys (λ _ _, True) app_thread_main server_app.
Proof.
  split; [|done]. intros [] [] _. cbn [loop_body app_thread_main server_app]. unfold app_body, server_app_body.
  eapply sim_bind; [apply stop_sim|]. intros stop ? <-. destruct stop; [done|].
  eapply (sim_bind _ _ (λ _ _, True)); [|done]. apply on_ecu_sim. intros w Hw.
  unfold act_tick, atomically, modify_out, zoom, abs_world. simpl.
  destruct (tick_step_spec _ (ewf_app _ Hw)) as (a' & Ha & Hwf & _). simpl in Ha. rewrite Ha. cbn [mbind outcome_bind].
  split; [by apply ecu_wf_app|]. by eexists.
Qed.

Lemma relock_sim : ecu_sim (λ _ _, True) (on_security (crit Locked security_relock)) act_relock.
Proof.
  intros w Hw. unfold zoom.
  destruct (security_relock_refines (zoom_world sec_lens w) (ewf_security _ Hw)) as (w1 & -> & Hph & Hwf1 & Hrd & Hdr).
  split; [by apply ecu_wf_sec|]. exists (). split; [|done]. unfold abs_world, act_relock, atomically, modify.
  rewrite abs_security, Hph. simpl. by rewrite Hrd, Hdr.
Qed.

Lemma watch_sim : ecu_sim (λ _ _, True) s3_check watch.
Proof.
  unfold s3_check, s3_decide, watch.
  eapply sim_bind; [by apply observe_sim|]. intros sess ? <-. destruct (negb _); [|done].
  eapply (sim_bind _ _ eq); [intros w Hw; split; [done|]; by eexists|]. intros now ? <-.
  eapply sim_bind; [by apply (observe_sim _ _ a_last_tp)|]. intros last ? <-. fold (s3_expired now last).
  destruct (s3_expired now last); [|done].
  eapply sim_bind; [apply set_session_sim; by left|]. intros _ _ _. apply relock_sim.
Qed.

Lemma s3_thread_sim : loop_sim sys_wf abs_sys (λ _ _, True) s3_thread_main server_s3.
Proof.
  split; [|done]. intros [] [] _. cbn [loop_body s3_thread_main server_s3]. unfold s3_body, server_s3_body.
  eapply sim_bind; [apply stop_sim|]. intros stop ? <-. destruct stop; [done|].
  eapply sim_bind; [apply on_ecu_sim, watch_sim|]. done.
Qed.

Lemma pause_sim : sys_sim (λ _ _, True) pause server_pause.
Proof.
  intros w Hw. split; [done|]. eexists. split; [reflexivity|].
  intros w' Hw'. unfold wait_while. cbn [abs_world obj abs_sys v_signals].
  destruct (Nat.eqb _ _); [done|]. split; [done|]. by eexists.
Qed.

Lemma main_thread_sim : loop_sim sys_wf abs_sys (λ _ _, True) main_thread server_main.
Proof.
  split; intros [] [] _.
  - cbn [loop_body main_thread server_main]. unfold main_body, server_main_body.
    eapply sim_bind; [apply stop_sim|]. intros stop ? <-. destruct stop; [done|].
    eapply sim_bind; [apply pause_sim|]. done.
  - cbn [loop_exit main_thread server_main]. unfold main_exit.
    eapply sim_bind; [apply on_queue_sim, shutdown_sim|]. intros _ _ _. apply on_io_sim, close_sim.
Qed.

Lemma signal_sim : loop_sim sys_wf abs_sys (λ _ _, True) signal_thread server_signal.
Proof.
  split; [|done]. intros [] [] _ w [Hs Hq Hi]. split; [by split|]. eexists. by split; [reflexivity|].
Qed.

(** ** The process *)

Lemma threads_sim sigs rx d :
  rx_ok rx → dispatch_ok d →
  Forall2 (thread_sim sys_wf abs_sys) (threads sigs rx d) (server_threads sigs (rx_errno rx)).
Proof.
  intros Hrx Hd. apply Forall2_app.
  - repeat (apply Forall2_cons; split); [..|apply Forall2_nil_2].
    + by eapply start_sim; [apply main_thread_sim|].
    + by eapply start_sim; [apply rx_sim|].
    + eapply start_sim; [apply dispatch_thread_sim|done].
    + by eapply start_sim; [apply app_thread_sim|].
    + by eapply start_sim; [apply s3_thread_sim|].
  - apply Forall2_replicate. by eapply start_sim; [apply signal_sim|].
Qed.

(** The abstract process after start-up. *)
Definition aecu_init (now : Z) : aecu :=
  AEcu UDS_SESSION_DEFAULT now vecu_dids app_engine_init [DtcEntry 0x030100 0x29; DtcEntry 0x042000 0x29] 0x29
    (Idle 0) (take 9 (c_string "ANONYMOUS")) PTR PTR.

Definition server_started (now sock : Z) (s : server) : Prop :=
  v_ecu s = aecu_init now ∧ v_io s = Kio sock 0 0 [] ∧ v_queue s = Fifo [] false.

Lemma powered_up_abs now e : powered_up now e → abs e = aecu_init now.
Proof.
  intros (H1 & H2 & H3 & H4 & H5 & H6 & H7 & H8 & H9 & H10).
  unfold abs, aecu_init. by rewrite H1, H2, H3, H4, H5, H6, H7, H8, H9, H10.
Qed.

Lemma setup_sim c w w1 sigs rx d :
  run (main_setup c) w = Done (None, w1) → rx_ok rx → dispatch_ok d →
  server_started (now_at w) (oc_socket c) (abs_sys (obj w1)) ∧
  pool_sim sys_wf abs_sys (w1, threads sigs rx d) (abs_world abs_sys w1, server_threads sigs (rx_errno rx)).
Proof.
  intros Hsetup Hrx Hd. destruct (main_setup_run c w) as (w' & Hr' & _ & Hok). rewrite Hsetup in Hr'.
  destruct (calls_ok c); [|done]. injection Hr' as <-. destruct (Hok eq_refl) as (Hwf & Hp & Hq & Hio).
  split; [|split; [done|done|by apply threads_sim]].
  split; [by apply powered_up_abs|]. split; [done|]. simpl. rewrite Hq. unfold fifo_of. by rewrite contents_init.
Qed.
End sims.

(** * The property *)

Section properties.
Context {E : Env} {D : Double} {K : Sock} `{!ClockBounded E, !DoubleLaws D, !SockLaws K}.

(** C2: the running process is bisimilar to the abstract one: its threads,
    with their buffers, lengths and return codes, over the C state and the
    ring buffer, against threads that take requests from a FIFO and answer
    them with the services of the specification on the abstract ECU.  Each
    step of the one is matched by a step of the other, with the abstraction
    of the same state, the same clock readings and draws, and the same
    threads waiting and ended. *)
Theorem process_refines_server c (w w1 : world sys) sigs rx d :
  run (main_setup c) w = Done (None, w1) → rx_ok rx → dispatch_ok d →
  server_started (now_at w) (oc_socket c) (abs_sys (obj w1)) ∧
  bisimilar abs_sys (w1, threads sigs rx d) (abs_world abs_sys w1, server_threads sigs (rx_errno rx)).
Proof.
  intros Hsetup Hrx Hd. destruct (setup_sim c w w1 sigs rx d Hsetup Hrx Hd) as [Hs Hp].
  split; [done|by eapply pool_sim_bisimilar].
Qed.
End properties.

(** After start-up, a signal is handled in both. *)
Lemma process_refines_server_witness :
  ∃ w1 q, demo_setup = Done (None, w1) ∧ v_ecu (abs_sys (obj w1)) = aecu_init 1000 ∧
    rtc pool_step (abs_world abs_sys w1, server_threads (E:=demo_env) (D:=demo_double) (K:=demo_sock) 1 0) q ∧
    same_view abs_sys (demo_signalled w1) q.
Proof.
  destruct (main_setup_run (E:=demo_env) demo_calls (demo_sys demo_world uds_queue_init)) as (w1 & Hr & _).
  destruct (process_refines_server (E:=demo_env) (D:=demo_double) (K:=demo_sock) demo_calls
    (demo_sys demo_world uds_queue_init) w1 1 demo_rx (demo_dispatch uds_msg_zero) Hr demo_rx_ok (demo_dispatch_ok _))
    as [[He _] Hb].
  destruct (bisimilar_forth _ _ _ _ Hb (demo_signal w1)) as (q & Hq & Hb').
  exists w1, q. split; [exact Hr|]. split; [rewrite He; reflexivity|]. split; [exact Hq|exact (bisimilar_view _ _ _ Hb')].
Defined.
