(* ===== verification/Locks.v ===== *)
(** Which lock protects what: every section of every thread is confined to
    the data that its lock guards.

    A section is [confined] to a resource when it writes nothing else and
    its result depends on nothing else, the constants of the process apart.
    A section without a mutex is confined to those constants, so no thread
    touches shared ECU data or the queue without the mutex.  The stop flag
    and the socket record have no mutex: for them the rule is who may write. *)

From S2P Require Import Prelude Effects Ghost UdsTypes DtcMem DidTable AppEngine Security Vecu Uds.
From S2P Require Import UdsSpec UdsRefine UdsProps UdsSafe Queue IsotpKernel Threads Main.

Inductive resource :=
| RSession     (* the session and the time of the last TesterPresent *)
| ROwner       (* the owner name and its length *)
| RApp         (* the engine *)
| RDtcs        (* the stored trouble codes and their number *)
| RSecurity    (* the SecurityAccess state *)
| RConstants   (* DID table, back-references, DTC availability mask *)
| RQueue | RSocket
| RFlags.      (* the stop flag and the count of signals *)

#[export] Instance resource_eq_dec : EqDecision resource.
Proof. solve_decision. Defined.

(** * Confined sections *)

Section confined.
Context {T : Type} (same : resource → T → T → Prop).

Definition same_result (r : resource) {B} (o1 o2 : outcome (B * world T)) : Prop :=
  match o1, o2 with
  | Done (b1, w1), Done (b2, w2) =>
      b1 = b2 ∧ same r (obj w1) (obj w2) ∧ readings w1 = readings w2 ∧ draws w1 = draws w2
  | Blocked, Blocked | Undefined, Undefined => True
  | _, _ => False
  end.

Record confined (r : resource) {B} (body : cs T B) : Prop := {
  (* it leaves every other resource, and the constants *)
  cf_writes : ∀ w b w', body w = Done (b, w') →
    ∀ r', r' ≠ r ∨ r' = RConstants → same r' (obj w) (obj w');
  (* in worlds that agree on the resource and the constants it does the same *)
  cf_reads : ∀ w1 w2, same r (obj w1) (obj w2) → same RConstants (obj w1) (obj w2) →
    readings w1 = readings w2 → draws w1 = draws w2 → same_result r (body w1) (body w2)
}.
End confined.

(** A section of a component that is one resource as a whole. *)
Lemma whole_confined {T} r {B} (body : cs T B) :
  r ≠ RConstants → confined (λ r' t t', r' = r → t = t') r body.
Proof.
  intros Hr. split.
  - intros w b w' _ r' [Hne|Hc] Heq; congruence.
  - intros [t1 rd1 dr1] [t2 rd2 dr2] Ht _ Hrd Hdr. simpl in *. specialize (Ht eq_refl). subst.
    unfold same_result. by destruct (body _) as [[b w']| |].
Qed.

Lemma zoom_confined {T S} (ln : lens T S) (sameS : resource → S → S → Prop) (sameT : resource → T → T → Prop)
    r {B} (body : cs S B) :
  (∀ r' t s, r' ≠ r ∨ r' = RConstants → sameS r' (view ln t) s → sameT r' t (update ln s t)) →
  (∀ r' t1 t2, r' = r ∨ r' = RConstants → sameT r' t1 t2 → sameS r' (view ln t1) (view ln t2)) →
  (∀ t1 t2 s1 s2, sameT r t1 t2 → sameS r s1 s2 → sameT r (update ln s1 t1) (update ln s2 t2)) →
  confined sameS r body → confined sameT r (zoom ln body).
Proof.
  intros Hup Hview Hboth [Hw Hr]. split.
  - intros w b w' Hb r' Hr'. unfold zoom in Hb.
    destruct (body _) as [[b1 w1]| |] eqn:Hb1; [|done..]. injection Hb as <- <-. simpl.
    apply Hup; [done|]. exact (Hw _ _ _ Hb1 r' Hr').
  - intros w1 w2 H1 Hc Hrd Hdr.
    specialize (Hr (zoom_world ln w1) (zoom_world ln w2)
                   (Hview _ _ _ ltac:(by left) H1) (Hview _ _ _ ltac:(by right) Hc) Hrd Hdr).
    unfold zoom. destruct (body (zoom_world ln w1)) as [[b1 v1]| |], (body (zoom_world ln w2)) as [[b2 v2]| |];
      try done. destruct Hr as (-> & Hs & Hrd' & Hdr'). simpl. split; [done|]. split; [by apply Hboth|done].
Qed.

(** A section that only reads, and reads only the constants. *)
Lemma read_confined {T X} (same : resource → T → T → Prop) (c : T → X) {B} (body : cs T B) f :
  (∀ r t, same r t t) → (∀ t1 t2, same RConstants t1 t2 → c t1 = c t2) →
  (∀ w, body w = match f (c (obj w)) (readings w) (draws w) with
                 | Done (b, rd, dr) => Done (b, World (obj w) rd dr)
                 | Blocked => Blocked
                 | Undefined => Undefined
                 end) →
  confined same RConstants body.
Proof.
  intros Hrefl Hc Hbody. split.
  - intros w b w' Hb r' _. rewrite Hbody in Hb. destruct (f _ _ _) as [[[b1 rd] dr]| |]; [|done..].
    by injection Hb as <- <-.
  - intros w1 w2 H1 _ Hrd Hdr. rewrite !Hbody, <- (Hc _ _ H1), <- Hrd, <- Hdr.
    by destruct (f _ _ _) as [[[b1 rd] dr]| |].
Qed.

(** * The ECU *)

(** What each mutex of the ECU guards.  Initialising and destroying mutexes is
    not for threads. *)
Definition ecu_guards (l : lock) : option resource :=
  match l with
  | SessionLock => Some RSession | OwnerLock => Some ROwner | AppLock => Some RApp | DtcLock => Some RDtcs
  | SecLock => Some RSecurity | NoLock => Some RConstants | Lifecycle _ => None
  end.

Definition confined_to {T} (same : resource → T → T → Prop) (r : option resource) {B} (body : cs T B) : Prop :=
  match r with Some r => confined same r body | None => False end.

Definition dtc_same (r : resource) (m m' : dtc_mem_t) : Prop :=
  match r with
  | RDtcs => dtc_entries m = dtc_entries m' ∧ dtc_count m = dtc_count m'
  | RConstants => availability_mask m = availability_mask m'
  | _ => True
  end.

Definition ecu_same (r : resource) (e e' : ecu_t) : Prop :=
  let s := state e in
  let s' := state e' in
  match r with
  | RSession => session s = session s' ∧ last_tester_present_ms s = last_tester_present_ms s'
  | ROwner => owner_name s = owner_name s' ∧ owner_len s = owner_len s'
  | RApp => app s = app s'
  | RDtcs => dtc_same RDtcs (dtcs s) (dtcs s')
  | RSecurity => security s = security s'
  | RConstants => dids s = dids s' ∧ g_state_for_owner e = g_state_for_owner e' ∧ g_app e = g_app e' ∧
                  dtc_same RConstants (dtcs s) (dtcs s')
  | _ => True
  end.

Lemma ecu_same_refl r e : ecu_same r e e.
Proof. by destruct r. Qed.

(** The update of one part, resource by resource. *)
Ltac parts := intros [] ? ? Hne Hsame; simpl in *; (done || by destruct Hne).

Section ecu.
Context {E : Env}.

Definition ecu_disciplined : ∀ B, lock → cs ecu_t B → Prop := λ B l body, confined_to ecu_same (ecu_guards l) body.

(** ** Components *)

Definition uses (r : resource) {S} (same : resource → S → S → Prop) : ∀ B, access → cs S B → Prop :=
  λ B a body, match a with Locked => confined same r body | Plain => confined same RConstants body end.

(** No section of the component is outside its mutex. *)
Definition all_locked {S} : ∀ B, access → cs S B → Prop := λ B a _, a = Locked.

Lemma on_app_disciplined {A} (p : prog access app_engine_t A) :
  guarded all_locked p → guarded ecu_disciplined (on_app p).
Proof.
  apply guarded_lift. intros B l body ->.
  eapply zoom_confined; [..|by apply (whole_confined RApp)].
  - parts.
  - by intros r' t1 t2 [-> | ->] H.
  - intros t1 t2 s1 s2 _ H. exact (H eq_refl).
Qed.

Lemma on_security_disciplined {A} (p : prog access security_state_t A) :
  guarded all_locked p → guarded ecu_disciplined (on_security p).
Proof.
  apply guarded_lift. intros B l body ->.
  eapply zoom_confined; [..|by apply (whole_confined RSecurity)].
  - parts.
  - by intros r' t1 t2 [-> | ->] H.
  - intros t1 t2 s1 s2 _ H. exact (H eq_refl).
Qed.

Lemma on_dtcs_disciplined {A} (p : prog access dtc_mem_t A) :
  guarded (uses RDtcs dtc_same) p → guarded ecu_disciplined (on_dtcs p).
Proof.
  apply guarded_lift. intros B [] body Hb; (eapply zoom_confined; [..|exact Hb]); simpl.
  - parts.
  - intros r' t1 t2 [-> | ->] H; [done|]. apply H.
  - intros t1 t2 s1 s2 _ H. exact H.
  - parts.
  - intros r' t1 t2 [-> | ->] H; apply H.
  - intros t1 t2 s1 s2 (H1 & H2 & H3 & _) H. done.
Qed.
(** ** The trouble codes *)

Lemma snapshot_loop_same m1 m2 mask max fuel i written out :
  dtc_same RDtcs m1 m2 → snapshot_loop fuel m1 mask max i written out = snapshot_loop fuel m2 mask max i written out.
Proof.
  intros [He Hc]. revert i written out. induction fuel as [|fuel IH]; intros i written out; simpl; [done|].
  rewrite He, Hc. destruct (_ && _); [|done]. destruct (ld _ _) as [e| |]; simpl; [|done..].
  destruct (negb _); [|apply IH]. destruct (st _ _ _); simpl; [apply IH|done..].
Qed.

Lemma clear_all_uses : guarded (uses RDtcs dtc_same) (dtc_mem_clear_all PTR).
Proof.
  split; [|done]. split.
  - intros [m rd dr] b w' Hb [] Hr; cs_simpl; injection Hb as <- <-; try done. by destruct Hr.
  - intros [m1 rd1 dr1] [m2 rd2 dr2] [He Hc] _ Hrd Hdr. simpl in *. subst. cs_simpl. by rewrite Hc.
Qed.

Lemma snapshot_uses mask out max : guarded (uses RDtcs dtc_same) (dtc_mem_snapshot_by_mask PTR mask (Some out) max).
Proof.
  unfold dtc_mem_snapshot_by_mask. destruct (max =? 0); [done|]. split; [|by intros []]. split.
  - intros [m rd dr] b w' Hb r' _. cs_simpl. destruct (snapshot_loop _ _ _ _ _ _ _); [|done..].
    injection Hb as <- <-. by destruct r'.
  - intros [m1 rd1 dr1] [m2 rd2 dr2] Hs _ Hrd Hdr. simpl in *. subst. cs_simpl.
    rewrite (snapshot_loop_same m1 m2) by done. rewrite (proj2 Hs).
    by destruct (snapshot_loop _ _ _ _ _ _ _).
Qed.

Lemma availability_mask_uses : guarded (uses RDtcs dtc_same) (dtc_mem_availability_mask PTR).
Proof.
  split; [|done]. apply (read_confined _ availability_mask _ (λ m rd dr, Done (m, rd, dr))); [by intros []|done|].
  by intros [m rd dr].
Qed.

(** ** The other operations of the state *)

Lemma session_disciplined {B} (body : cs ecu_t B) (f : Z * Z → nat → outcome (B * (Z * Z) * nat)) :
  (∀ w, body w =
    match f (session (state (obj w)), last_tester_present_ms (state (obj w))) (readings w) with
    | Done (b, (s, tp), rd) => Done (b, World (on_state (λ v, set_last_tp tp (set_session s v)) (obj w)) rd (draws w))
    | Blocked => Blocked
    | Undefined => Undefined
    end) →
  confined ecu_same RSession body.
Proof.
  intros Hb. split.
  - intros w b w' Hw r' Hr'. rewrite Hb in Hw. destruct (f _ _) as [[[b1 [s tp]] rd]| |]; [|done..].
    injection Hw as <- <-. by destruct r'; [destruct Hr'|..].
  - intros w1 w2 [Hs Ht] _ Hrd Hdr. rewrite !Hb, Hs, Ht, Hrd, Hdr. by destruct (f _ _) as [[[b1 [s tp]] rd]| |].
Qed.

Lemma get_session_disciplined : guarded ecu_disciplined vecu_get_session.
Proof.
  split; [|done]. apply (session_disciplined _ (λ p rd, Done (p.1, p, rd))). by intros [[[]] ? ?].
Qed.
Lemma last_tp_disciplined : guarded ecu_disciplined vecu_last_tester_present_ms.
Proof.
  split; [|done]. apply (session_disciplined _ (λ p rd, Done (p.2, p, rd))). by intros [[[]] ? ?].
Qed.
Lemma set_session_disciplined v : guarded ecu_disciplined (vecu_set_session v).
Proof.
  split; [|done]. apply (session_disciplined _ (λ p rd, Done ((), (v, ms_of_timespec (clock_gettime rd)), S rd))).
  by intros [[[]] ? ?].
Qed.
Lemma mark_tp_disciplined : guarded ecu_disciplined vecu_mark_tester_present.
Proof.
  split; [|done]. apply (session_disciplined _ (λ p rd, Done ((), (p.1, ms_of_timespec (clock_gettime rd)), S rd))).
  by intros [[[]] ? ?].
Qed.

(** A read of the constants, or of the clock. *)
Lemma constants_disciplined {B} (body : cs ecu_t B) f :
  (∀ w, body w =
    match f (dids (state (obj w)), g_state_for_owner (obj w), g_app (obj w)) (readings w) (draws w) with
    | Done (b, rd, dr) => Done (b, World (obj w) rd dr)
    | Blocked => Blocked
    | Undefined => Undefined
    end) →
  ecu_disciplined B NoLock body.
Proof.
  intros Hb. eapply (read_confined ecu_same (λ e, (dids (state e), g_state_for_owner e, g_app e)) body f);
    [apply ecu_same_refl| |exact Hb].
  by intros t1 t2 (-> & -> & -> & _).
Qed.

Lemma get_owner_state_disciplined : ecu_disciplined _ NoLock (gets g_state_for_owner).
Proof. apply (constants_disciplined _ (λ c rd dr, Done (c.1.2, rd, dr))). by intros []. Qed.
Lemma get_app_disciplined : ecu_disciplined _ NoLock (gets g_app).
Proof. apply (constants_disciplined _ (λ c rd dr, Done (c.2, rd, dr))). by intros []. Qed.
Lemma now_disciplined : guarded ecu_disciplined (crit NoLock vecu_now_ms).
Proof.
  split; [|done]. apply (constants_disciplined _ (λ c rd dr, Done (ms_of_timespec (clock_gettime rd), S rd, dr))).
  by intros [].
Qed.
Lemma lookup_disciplined d : guarded ecu_disciplined (lookup_did d).
Proof.
  split; [|done]. apply (constants_disciplined _ (λ c rd dr, e ← did_table_lookup PTR d c.1.1; Done (e, rd, dr))).
  intros []. cs_simpl. by destruct (did_table_lookup _ _ _).
Qed.

Lemma owner_disciplined {B} (body : cs ecu_t B) (f : bytes * Z → outcome (B * (bytes * Z))) :
  (∀ w, body w =
    match f (owner_name (state (obj w)), owner_len (state (obj w))) with
    | Done (b, (name, n)) => Done (b, World (on_state (set_owner name n) (obj w)) (readings w) (draws w))
    | Blocked => Blocked
    | Undefined => Undefined
    end) →
  confined ecu_same ROwner body.
Proof.
  intros Hb. split.
  - intros w b w' Hw r' Hr'. rewrite Hb in Hw. destruct (f _) as [[b1 [s tp]]| |]; [|done..].
    injection Hw as <- <-. by destruct r'; [|destruct Hr'|..].
  - intros w1 w2 [Hs Ht] _ Hrd Hdr. rewrite !Hb, Hs, Ht, Hrd, Hdr. by destruct (f _) as [[b1 [s tp]]| |].
Qed.

Lemma owner_read_disciplined out cap : guarded ecu_disciplined (owner_read out cap PTR).
Proof.
  split; [apply get_owner_state_disciplined|]. intros [|]; [done|]. destruct out as [buf|]; [|done].
  split; [|by intros []].
  apply (owner_disciplined _ (λ o, let n := if o.2 >? cap then cap else o.2 in
                                   buf ← memcpy buf 0 o.1 0 n; Done ((buf, n), o))).
  intros [[[]] ? ?]. cs_simpl. by destruct (memcpy _ _ _ _ _).
Qed.

Lemma owner_write_disciplined inp n : guarded ecu_disciplined (owner_write inp n).
Proof.
  split; [apply get_owner_state_disciplined|]. intros [|]; [done|]. destruct inp as [src|]; [|done].
  simpl. destruct (_ || _); [done|]. split; [|done].
  apply (owner_disciplined _ (λ o, name ← memcpy o.1 0 src 0 n; Done ((), (name, n)))).
  intros [[[]] ? ?]. cs_simpl. by destruct (memcpy _ _ _ _ _).
Qed.
(** ** The services *)

Lemma reset_security_disciplined : guarded ecu_disciplined (on_security (crit Locked reset_security)).
Proof. apply on_security_disciplined. by split. Qed.

(** One step through a program of the ECU. *)
Ltac disciplined_step :=
  first
    [ done | apply guarded_local | apply get_session_disciplined | apply last_tp_disciplined
    | apply set_session_disciplined | apply mark_tp_disciplined | apply lookup_disciplined
    | apply now_disciplined | apply owner_read_disciplined | apply owner_write_disciplined
    | apply on_dtcs_disciplined; first [apply clear_all_uses | apply snapshot_uses | apply availability_mask_uses]
    | apply on_app_disciplined | apply on_security_disciplined
    | match goal with |- guarded _ (_ ≫= _) => apply guarded_bind; [|intros ?] end
    | match goal with |- guarded _ (if ?b then _ else _) => destruct b end
    | match goal with |- guarded _ (match ?x with _ => _ end) => destruct x end
    | progress cbv zeta ].
Ltac disciplined := repeat disciplined_step.

Lemma request_seed_locked_all level : guarded all_locked (security_request_seed PTR level PTR PTR).
Proof. unfold security_request_seed. simpl. by destruct (negb _). Qed.
Lemma send_key_locked_all level key : guarded all_locked (security_send_key PTR level key PTR).
Proof. unfold security_send_key. simpl. by destruct (negb _). Qed.

Lemma build_nrc_disciplined sid nrc resp : guarded ecu_disciplined (build_nrc sid nrc resp).
Proof. unfold build_nrc. disciplined. Qed.
Lemma reject_disciplined req nrc resp : guarded ecu_disciplined (reject req nrc resp).
Proof. unfold reject. repeat (apply guarded_bind; [first [apply guarded_local | apply build_nrc_disciplined]|intros ?]). by destruct a0. Qed.
Lemma store_pos_resp_disciplined req resp : guarded ecu_disciplined (store_pos_resp req resp).
Proof. unfold store_pos_resp. disciplined. Qed.
Lemma is_extended_disciplined : guarded ecu_disciplined is_extended_session.
Proof. unfold is_extended_session. disciplined. Qed.
Lemma write_dtcs_disciplined fuel snap i resp : guarded ecu_disciplined (write_dtcs fuel snap i resp).
Proof. revert i resp. induction fuel as [|fuel IH]; intros i resp; cbn [write_dtcs]; disciplined. Qed.

Lemma call_read_disciplined f out cap : guarded ecu_disciplined (call_read f out cap PTR).
Proof.
  destruct f; cbn [call_read]; [..|apply owner_read_disciplined].
  all: split; [apply get_app_disciplined|intros []; [done|]]; apply on_app_disciplined; destruct out; [|done].
  all: unfold app_read_rpm, app_read_speed, app_read_coolant; destruct (_ <? _); [done|].
  all: apply guarded_bind; [by split|intros ?]; repeat (apply guarded_bind; [apply guarded_local|intros ?]); done.
Qed.

Ltac service_step :=
  first
    [ apply reject_disciplined | apply store_pos_resp_disciplined | apply is_extended_disciplined
    | apply build_nrc_disciplined | apply write_dtcs_disciplined | apply call_read_disciplined
    | apply reset_security_disciplined
    | apply on_security_disciplined; first [apply request_seed_locked_all | apply send_key_locked_all]
    | disciplined_step ].
Ltac service := repeat service_step.

Section services.
Variables (req resp : bytes) (n cap n0 : Z).

Lemma session_control_disciplined : guarded ecu_disciplined (h_session_control req n resp cap n0).
Proof. unfold h_session_control. service. Qed.
Lemma ecu_reset_disciplined : guarded ecu_disciplined (h_ecu_reset req n resp cap n0).
Proof. unfold h_ecu_reset. service. Qed.
Lemma clear_dtc_disciplined : guarded ecu_disciplined (h_clear_dtc req n resp cap n0).
Proof. unfold h_clear_dtc. service. Qed.
Lemma read_dtc_disciplined : guarded ecu_disciplined (h_read_dtc req n resp cap n0).
Proof. unfold h_read_dtc. service. Qed.
Lemma read_did_disciplined : guarded ecu_disciplined (h_read_did req n resp cap n0).
Proof. unfold h_read_did, rd16_be, build_payload, answer_did. service. Qed.
Lemma security_access_disciplined : guarded ecu_disciplined (h_security_access req n resp cap n0).
Proof. unfold h_security_access, rd32_be, wr32_be. service. Qed.
Lemma write_did_disciplined : guarded ecu_disciplined (h_write_did req n resp cap n0).
Proof. unfold h_write_did, rd16_be, call_write. service. Qed.
Lemma tester_present_disciplined : guarded ecu_disciplined (h_tester_present req n resp cap n0).
Proof. unfold h_tester_present. service. Qed.

Lemma handlers_disciplined s h :
  find_handler DISPATCH s = Some h → guarded ecu_disciplined (h req n resp cap n0).
Proof.
  unfold DISPATCH, find_handler.
  repeat (destruct (_ =? s); [intros [= <-]; first
    [ apply session_control_disciplined | apply ecu_reset_disciplined | apply clear_dtc_disciplined
    | apply read_dtc_disciplined | apply read_did_disciplined | apply security_access_disciplined
    | apply write_did_disciplined | apply tester_present_disciplined ]|]).
  done.
Qed.

Lemma dispatch_disciplined : guarded ecu_disciplined (dispatch req n resp cap n0).
Proof.
  unfold dispatch. destruct (_ || _); [done|]. apply guarded_bind; [apply guarded_local|intros sid].
  destruct (find_handler DISPATCH sid) as [h|] eqn:Hh; [by eapply handlers_disciplined|]. service.
Qed.

Lemma process_request_disciplined :
  guarded ecu_disciplined (uds_process_request PTR (Some req) n (Some resp) cap (Some n0)).
Proof. unfold uds_process_request. apply guarded_bind; [apply dispatch_disciplined|done]. Qed.
End services.

Lemma s3_check_disciplined : guarded ecu_disciplined s3_check.
Proof. unfold s3_check, s3_decide. service. Qed.

Lemma tick_disciplined {D : Double} : guarded ecu_disciplined (on_app (app_engine_tick PTR)).
Proof. apply on_app_disciplined. by split. Qed.
(** No section writes the table. *)
Lemma disciplined_dids {A} (p : vprog A) :
  guarded ecu_disciplined p → guarded (moves (λ e e', dids (state e') = dids (state e))) p.
Proof.
  apply guarded_mono. intros B l body Hc w b w' Hb.
  unfold ecu_disciplined in Hc. destruct (ecu_guards l) as [r|]; [|done].
  destruct (cf_writes _ _ _ Hc w b w' Hb RConstants ltac:(by right)) as [H _]. exact (eq_sym H).
Qed.

End ecu.

(** * The process *)

(** What each section of a thread holds or uses. *)
Definition guards (l : sys_lock) : option resource :=
  match l with
  | StateLock l => ecu_guards l
  | QueueLock => Some RQueue
  | IoAccess => Some RSocket
  | StopFlag | SignalWait => Some RFlags
  end.

Definition sys_same (r : resource) (s s' : sys) : Prop :=
  match r with
  | RQueue => s_req_q s = s_req_q s'
  | RSocket => s_io s = s_io s'
  | RFlags => s_stop s = s_stop s' ∧ s_signals s = s_signals s'
  | _ => ecu_same r (s_state s) (s_state s')
  end.

Definition disciplined : ∀ B, sys_lock → cs sys B → Prop := λ B l body, confined_to sys_same (guards l) body.

Section pool.
Context {E : Env} {D : Double} {K : Sock}.

Lemma on_ecu_guarded {A} (p : vprog A) : guarded ecu_disciplined p → guarded disciplined (on_ecu p).
Proof.
  apply guarded_lift. intros B l body Hb. unfold disciplined, ecu_disciplined in *. simpl.
  destruct (ecu_guards l) as [r|] eqn:Hl; [|done]. simpl in *.
  apply (zoom_confined _ ecu_same); [..|exact Hb].
  - intros [] t s Hne Hs; try exact Hs; by split.
  - intros r' t1 t2 [-> | ->] H; [|exact H]. destruct l; simpl in Hl; congruence || by injection Hl as <-.
  - intros t1 t2 s1 s2 _ H. destruct l; simpl in Hl; congruence || by injection Hl as <-.
Qed.

Lemma on_queue_guarded {A} (p : prog access uds_queue_t A) :
  guarded all_locked p → guarded disciplined (on_queue p).
Proof.
  apply guarded_lift. intros B l body ->.
  eapply zoom_confined; [..|by apply (whole_confined RQueue)].
  - parts.
  - by intros r' t1 t2 [-> | ->] H.
  - intros t1 t2 s1 s2 _ H. exact (H eq_refl).
Qed.

Lemma push_all_locked buf n : guarded all_locked (uds_queue_push PTR (Some buf) n).
Proof. unfold uds_queue_push. destruct (negb _); [done|]. by split. Qed.
Lemma pop_all_locked : guarded all_locked (uds_queue_pop_blocking PTR PTR).
Proof. by split. Qed.
Lemma shutdown_all_locked : guarded all_locked (uds_queue_shutdown PTR).
Proof. by split. Qed.

Lemma on_io_guarded {A} (p : prog access isotp_kio_t A) : guarded disciplined (on_io p).
Proof.
  eapply guarded_lift; [|apply guarded_true]. intros B l body _.
  eapply zoom_confined; [..|by apply (whole_confined RSocket)].
  - parts.
  - by intros r' t1 t2 [-> | ->] H.
  - intros t1 t2 s1 s2 _ H. exact (H eq_refl).
Qed.

(** A section on the stop flag and the count of signals. *)
Lemma flags_disciplined {B} lk (body : cs sys B) (f : bool * nat → outcome (B * (bool * nat))) :
  guards lk = Some RFlags →
  (∀ w, body w =
    match f (s_stop (obj w), s_signals (obj w)) with
    | Done (b, (st, n)) =>
        Done (b, World (Sys (s_state (obj w)) (s_io (obj w)) (s_req_q (obj w)) st n) (readings w) (draws w))
    | Blocked => Blocked
    | Undefined => Undefined
    end) →
  disciplined B lk body.
Proof.
  unfold disciplined. intros -> Hb. split.
  - intros w b w' Hw r' Hr'. rewrite Hb in Hw. destruct (f _) as [[b1 [st n]]| |]; [|done..].
    injection Hw as <- <-. destruct r'; try (by destruct Hr'); simpl; try done.
  - intros w1 w2 [Hs Hn] _ Hrd Hdr. rewrite !Hb, Hs, Hn. by destruct (f _) as [[b1 [st n]]| |].
Qed.

Lemma read_stop_disciplined : guarded disciplined read_stop.
Proof. split; [|done]. apply (flags_disciplined _ _ (λ p, Done (p.1, p))); [done|]. by intros [[] ? ?]. Qed.
Lemma on_signal_disciplined : guarded disciplined on_signal.
Proof. split; [|done]. apply (flags_disciplined _ _ (λ p, Done ((), (true, S p.2)))); [done|]. by intros [[] ? ?]. Qed.
Lemma paused_disciplined n : guarded disciplined (paused n).
Proof.
  split; [|done]. apply (flags_disciplined _ _ (λ p, if Nat.eqb p.2 n then Blocked else Done ((), p))); [done|].
  intros [[] ? ?]. unfold wait_while. simpl. by destruct (_ =? _)%nat.
Qed.
Lemma pause_disciplined : guarded disciplined pause.
Proof.
  split; [|apply paused_disciplined]. apply (flags_disciplined _ _ (λ p, Done (p.2, p))); [done|]. by intros [[] ? ?].
Qed.

Ltac section_step :=
  first
    [ done | apply read_stop_disciplined | apply on_signal_disciplined | apply pause_disciplined
    | apply on_queue_guarded; first [apply push_all_locked | apply pop_all_locked | apply shutdown_all_locked]
    | apply on_io_guarded
    | apply on_ecu_guarded; first [apply process_request_disciplined | apply tick_disciplined | apply s3_check_disciplined]
    | match goal with |- guarded _ (_ ≫= _) => apply guarded_bind; [|intros ?] end
    | match goal with |- guarded _ (if ?b then _ else _) => destruct b end
    | match goal with |- guarded _ (match ?x with _ => _ end) => destruct x end
    | progress cbv zeta ].

(** What is left of a thread, and what its loop may run later. *)
Definition thread_guarded (G : ∀ B, sys_lock → cs sys B → Prop) (t : thread sys_lock sys) : Prop :=
  match t with
  | @Thread _ _ Loc l ts =>
      (∀ loc, guarded G (loop_body l loc)) ∧ (∀ loc, guarded G (loop_exit l loc)) ∧
      match ts with
      | InBody p => guarded G p
      | InExit p => guarded G p
      | Exited => True
      end
  end.

Lemma thread_step_guarded G w t w' t' : thread_step w t w' t' → thread_guarded G t → thread_guarded G t'.
Proof.
  destruct 1 as [Loc l B lk body k w b w' Hb|Loc l loc w|Loc l loc w|Loc l B lk body k w b w' Hb|Loc l w];
    intros (Hl & He & Hs); (split; [done|]); (split; [done|]); [apply Hs|apply Hl|apply He|apply Hs|done].
Qed.

Lemma start_guarded G {Loc} (l : loop sys_lock sys Loc) loc :
  (∀ loc, guarded G (loop_body l loc)) → (∀ loc, guarded G (loop_exit l loc)) → thread_guarded G (start l loc).
Proof. intros Hb He. split; [done|]. split; [done|]. apply Hb. Qed.

Lemma threads_guarded sigs rx d : Forall (thread_guarded disciplined) (threads sigs rx d).
Proof.
  apply Forall_app. split; [repeat (apply Forall_cons_2; [|]); [..|apply Forall_nil_2]|apply Forall_replicate];
    apply start_guarded; intros l; cbn [loop_body loop_exit main_thread rx_thread_main dispatch_thread_main
      app_thread_main s3_thread_main signal_thread];
    unfold main_body, main_exit, rx_body, dispatch_body, handle_request, app_body, s3_body; repeat section_step.
Qed.

(** The section a thread executes next. *)
Definition next_section (G : ∀ B, sys_lock → cs sys B → Prop) (t : thread sys_lock sys) : Prop :=
  match t with
  | Thread l (InBody (Crit lk body k)) => G _ lk body
  | Thread l (InExit (Crit lk body k)) => G _ lk body
  | _ => True
  end.

Lemma guarded_next G t : thread_guarded G t → next_section G t.
Proof. destruct t as [Loc l [[]|[]|]]; intros (_ & _ & H); simpl in *; tauto. Qed.
(** ** Who writes what has no mutex

    The flag and the count of signals: the handler, so the threads behind the
    five of the process.  The descriptor of the socket: the main thread. *)
Definition unlocked_writes (i : nat) (s s' : sys) : Prop :=
  ((i < 5)%nat → s_stop s' = s_stop s ∧ s_signals s' = s_signals s) ∧
  (i ≠ O → sock (s_io s') = sock (s_io s)).

Lemma keeps_values {X} (f : sys → X) {A} (p : sprog A) :
  (∀ x, guarded (keeps (λ s, f s = x)) p) → guarded (moves (λ s s', f s' = f s)) p.
Proof.
  intros H. apply guarded_forall in H. eapply guarded_mono; [|exact H]. intros B l body Hb w b w' Hw.
  exact (Hb (f (obj w)) w b w' Hw eq_refl).
Qed.

(** The flag, the signals and the descriptor. *)
Definition unlocked (s : sys) : bool * nat * Z := (s_stop s, s_signals s, sock (s_io s)).

Lemma unlocked_stable x : stable (λ s, unlocked s = x).
Proof. split; [done| |done]. intros k s Hs Hk. unfold unlocked in *. simpl. by rewrite Hk. Qed.

Lemma unlocked_moves i {A} (p : sprog A) :
  guarded (moves (λ s s', unlocked s' = unlocked s)) p → guarded (moves (unlocked_writes i)) p.
Proof.
  apply guarded_mono. intros B l body Hb w b w' Hw. specialize (Hb w b w' Hw). injection Hb as H1 H2 H3. by split.
Qed.

Lemma body_moves i {A} (p : sprog A) :
  (∀ P, stable P → guarded (keeps P) p) → guarded (moves (unlocked_writes i)) p.
Proof. intros Hp. apply unlocked_moves, keeps_values. intros x. apply Hp, unlocked_stable. Qed.

Lemma shutdown_moves i : guarded (moves (unlocked_writes i)) (on_queue (uds_queue_shutdown PTR)).
Proof. apply unlocked_moves. split; [|done]. intros w b w' Hb. by injection Hb as <- <-. Qed.

Lemma main_exit_moves l : guarded (moves (unlocked_writes 0)) (main_exit l).
Proof.
  apply guarded_bind; [apply shutdown_moves|]. intros _. split; [|done]. intros w b w' Hb.
  by injection Hb as <- <-.
Qed.

Lemma signal_moves i : (5 <= i)%nat → guarded (moves (unlocked_writes i)) on_signal.
Proof. intros Hi. split; [|done]. intros w b w' Hb. injection Hb as <- <-. split; [lia|done]. Qed.

Lemma threads_write sigs rx d i t : threads sigs rx d !! i = Some t → thread_guarded (moves (unlocked_writes i)) t.
Proof.
  unfold threads. intros Ht.
  destruct i as [|[|[|[|[|i]]]]]; [injection Ht as <-; apply start_guarded; intros l; try done..|].
  - apply body_moves. intros P HP. by apply main_body_keeps.
  - apply main_exit_moves.
  - apply body_moves. intros P HP. by apply rx_body_keeps.
  - apply shutdown_moves.
  - apply body_moves. intros P HP. by apply dispatch_body_keeps.
  - apply body_moves. intros P HP. by apply app_body_keeps.
  - apply body_moves. intros P HP. by apply s3_body_keeps.
  - apply lookup_replicate in Ht as [-> _]. apply start_guarded; intros l; [|done].
    apply guarded_bind; [apply signal_moves; lia|done].
Qed.

Lemma thread_guarded_and G1 G2 t :
  thread_guarded G1 t → thread_guarded G2 t → thread_guarded (λ B l body, G1 B l body ∧ G2 B l body) t.
Proof.
  destruct t as [Loc l ts]. intros (H1 & H2 & H3) (K1 & K2 & K3).
  split; [intros loc; by apply guarded_and|]. split; [intros loc; by apply guarded_and|].
  destruct ts; [by apply guarded_and..|done].
Qed.
End pool.

(** What the rules allow thread [i]. *)
Definition lawful (i : nat) : ∀ B, sys_lock → cs sys B → Prop :=
  λ B l body, disciplined B l body ∧ moves (unlocked_writes i) B l body.

Section reach.
Context {E : Env} {D : Double} {K : Sock}.

(** All of a thread obeys them. *)
Lemma threads_lawful sigs rx d (w : world sys) p i t :
  rtc pool_step (w, threads sigs rx d) p → p.2 !! i = Some t → thread_guarded (lawful i) t.
Proof.
  intros Hr. revert i t.
  apply (pool_steps_indexed (λ i t, thread_guarded (lawful i) t) (w, threads sigs rx d) p); [|exact Hr|].
  - intros i w1 t w2 t' Hs. exact (thread_step_guarded _ _ _ _ _ Hs).
  - intros i t Ht. apply thread_guarded_and; [|by eapply threads_write].
    pose proof (threads_guarded sigs rx d) as Hg. rewrite Forall_lookup in Hg. exact (Hg i t Ht).
Qed.
End reach.

(** * Properties *)

Section properties.
Context {E : Env} {D : Double} {K : Sock}.

(** C12: in every reachable pool the section a thread executes next is
    confined to what its lock guards: under the session, owner, engine, DTC,
    security or queue mutex it writes only that mutex's data and depends only
    on them and on the constants of the process; without a mutex it reads only
    those constants and the clock.  Two things have no mutex: the stop flag,
    which only the signal handler writes, and the socket, whose descriptor
    only the main thread writes, while the other threads may use it.  No
    thread initialises or destroys a mutex. *)
Theorem locks_protect sigs rx d (w : world sys) p i t :
  rtc pool_step (w, threads sigs rx d) p → p.2 !! i = Some t → next_section (lawful i) t.
Proof. intros Hr Ht. apply guarded_next. by eapply threads_lawful. Qed.
End properties.

(** The receive thread after a signal. *)
Lemma locks_protect_witness :
  ∃ w1, demo_setup = Done (None, w1) ∧ next_section (lawful 1) demo_rx_thread.
Proof.
  destruct (main_setup_run (E:=demo_env) demo_calls (demo_sys demo_world uds_queue_init)) as (w1 & Hr & _).
  exists w1. split; [exact Hr|].
  exact (locks_protect (E:=demo_env) (D:=demo_double) (K:=demo_sock) 1 demo_rx (demo_dispatch uds_msg_zero)
    w1 (demo_signalled w1) 1 demo_rx_thread (demo_signal w1) eq_refl).
Defined.
