(* ===== verification/Lifetime.v ===== *)
(** The mutexes and condition variables of the process: start-up and teardown
    run with the set of the objects in use, under which initialising one
    twice, and using or destroying one that is not in use, are undefined.

    The calls themselves are sections of [vecu_init], [vecu_destroy]
    ([Vecu.v]), [main_setup] and [main_teardown] ([Main.v]), at their places
    among the others. *)

From Stdlib Require Import String.
From S2P Require Import Prelude Effects Ghost UdsTypes DtcMem DidTable AppEngine Security Vecu Uds.
From S2P Require Import UdsSpec UdsRefine UdsProps UdsSafe Queue IsotpKernel Threads Main Process Locks.

(** The objects in use. *)
Abbreviation live_set := (list sync_object).

(** The objects a section works with: its mutex, and the condition variables
    that the queue waits for and signals under it. *)
Definition syncs_of (l : sys_lock) : list sync_object :=
  match l with
  | StateLock SessionLock => [SessionMutex]
  | StateLock OwnerLock => [OwnerMutex]
  | StateLock AppLock => [AppMutex]
  | StateLock DtcLock => [DtcMutex]
  | StateLock SecLock => [SecurityMutex]
  | QueueLock => [QueueMutex; QueueNotEmpty; QueueNotFull]
  | StateLock NoLock | StateLock (Lifecycle _) | IoAccess | StopFlag | SignalWait => []
  end.

(** What a section does to the objects in use, if it may. *)
Definition sync_effect (l : sys_lock) (live : live_set) : option live_set :=
  match l with
  | StateLock (Lifecycle (SyncInit x)) => if decide (x ∈ live) then None else Some (x :: live)
  | StateLock (Lifecycle (SyncDestroy x)) => if decide (x ∈ live) then Some (filter (.≠ x) live) else None
  | _ => if decide (syncs_of l ⊆ live) then Some live else None
  end.

(** A program that runs alone, with the objects in use. *)
Fixpoint run_live {A} (p : sprog A) (live : live_set) (w : world sys) : option live_set :=
  match p with
  | Ret _ => Some live
  | Ub => None
  | Crit l body k =>
      live ← sync_effect l live;
      match body w with Done (b, w') => run_live (k b) live w' | _ => None end
  end.

(** A thread's section: it works with objects in use, and neither initialises
    nor destroys one. *)
Definition takes_live (live : live_set) : ∀ B, sys_lock → cs sys B → Prop :=
  λ B l _, sync_effect l live = Some live.

(** No thread will use an object again. *)
Definition quiet (c : pool sys_lock sys) : Prop :=
  ∀ c', rtc pool_step c c' → Forall (next_section (takes_live [])) c'.2.

Section process.
Context {E : Env} {D : Double} {K : Sock} {N : Net}.

(** Start-up runs before the threads are created, and the teardown when they
    will not use an object any more. *)
Definition syncs_ok (p p' : proc) (live live' : live_set) : Prop :=
  match p, p' with
  | Launched argv w, _ => run_live (main_setup (open_answers (main_ifname argv) rx_id tx_id)) live w = Some live'
  | Alive c _, Returned _ _ => quiet c ∧ run_live main_teardown live c.1 = Some live'
  | _, _ => live' = live
  end.

Definition sync_step (a b : proc * live_set) : Prop := proc_step a.1 b.1 ∧ syncs_ok a.1 b.1 a.2 b.2.

(** Every thread's next section works with objects in use, and before and
    after the threads nothing is in use. *)
Definition uses_live (p : proc) (live : live_set) : Prop :=
  match p with
  | Alive c _ => Forall (next_section (takes_live live)) c.2
  | _ => live = []
  end.
End process.

Definition every_sync : live_set :=
  [QueueNotFull; QueueNotEmpty; QueueMutex; SecurityMutex; DtcMutex; AppMutex; OwnerMutex; SessionMutex].

Lemma elem_of_every x : x ∈ every_sync.
Proof. unfold every_sync. destruct x; set_solver. Qed.

(** What is in use in each phase. *)
Definition live_in (p : proc) : live_set := match p with Alive _ _ => every_sync | _ => [] end.

(** With every object in use a section may take any mutex. *)
Lemma disciplined_takes {B} l (body : cs sys B) : disciplined B l body → takes_live every_sync B l body.
Proof.
  intros Hd. unfold takes_live, sync_effect.
  destruct l as [[| | | | | |[]]| | | |]; first [done | by rewrite decide_True by (intros x _; apply elem_of_every)].
Qed.

Lemma lawful_takes i t : next_section (lawful i) t → next_section (takes_live every_sync) t.
Proof. destruct t as [Loc l [[]|[]|]]; simpl; try done; intros [Hd _]; by apply disciplined_takes. Qed.

Lemma run_live_bind {A B} (p : sprog A) (f : A → sprog B) live live' w a w' :
  run p w = Done (a, w') → run_live p live w = Some live' → run_live (p ≫= f) live w = run_live (f a) live' w'.
Proof.
  revert live w. induction p as [x| |C l body k IH]; intros live w Hr Hl; [|done|].
  - injection Hr as -> ->. by injection Hl as ->.
  - simpl in *. destruct (sync_effect l live) as [live1|]; [|done]. simpl in *.
    destruct (body w) as [[c w1]| |]; [|done..]. by apply IH.
Qed.

Section properties.
Context {E : Env} {D : Double} {K : Sock} {N : Net} `{!ClockBounded E, !DoubleLaws D, !SockLaws K}.

(** ** Start-up and teardown *)

Definition ecu_syncs : live_set := [SecurityMutex; DtcMutex; AppMutex; OwnerMutex; SessionMutex].

Lemma vecu_init_live w : run_live (on_ecu (vecu_init PTR)) [] w = Some ecu_syncs.
Proof. destruct w as [[e k q st n] rd dr]. lazy -[ms_of_timespec]. reflexivity. Qed.

Lemma vecu_destroy_live w : run_live (on_ecu (vecu_destroy PTR)) ecu_syncs w = Some [].
Proof. destruct w as [[e k q st n] rd dr]. reflexivity. Qed.

Lemma setup_syncs cs w :
  run_live (main_setup cs) [] w = Some (if calls_ok cs then every_sync else []).
Proof.
  unfold main_setup. destruct (vecu_init_run (zoom_world state_lens w)) as (w1 & Hr & _).
  rewrite (run_live_bind _ _ _ ecu_syncs _ () (unzoom_world state_lens w w1));
    [|by rewrite run_on_ecu, Hr|apply vecu_init_live].
  pose proof (isotp_kio_open_cases cs 0) as Ho. destruct (isotp_kio_open PTR PTR cs 0) as [[rc s] cl].
  destruct (calls_ok cs).
  - by injection Ho as -> -> _.
  - by destruct Ho as (-> & _).
Qed.

Lemma teardown_live w : run_live main_teardown every_sync w = Some [].
Proof. destruct w as [[e k q st n] rd dr]. reflexivity. Qed.

(** ** The threads *)

Lemma alive_takes argv w c k : running argv w c k → Forall (next_section (takes_live every_sync)) c.2.
Proof.
  intros [(w1 & sigs & rx & d & _ & _ & _ & Hr) _ _]. apply Forall_lookup. intros i t Ht.
  apply (lawful_takes i). apply guarded_next. by eapply threads_lawful.
Qed.

(** A thread that handles a signal uses no object. *)
Lemma signal_quiet : thread_guarded (takes_live []) (start signal_thread ()).
Proof. by apply start_guarded. Qed.

(** After the joins. *)
Lemma joined_quiet argv w c : running argv w c 4 → quiet c.
Proof.
  intros [(w1 & sigs & rx & d & _ & _ & _ & Hr) _ He] c' Hc. apply Forall_lookup. intros i t Ht.
  destruct (decide (i <= 4)%nat) as [Hi|Hi].
  - assert (Hend : ended_at c' i).
    { clear -He Hc Hi. specialize (He i ltac:(lia) Hi). induction Hc as [|c c1 c2 Hs _ IH]; [done|].
      apply IH. by eapply ended_step. }
    destruct Hend as (u & Hu & Hx). rewrite Hu in Ht. injection Ht as ->. by destruct t as [Loc l []].
  - apply guarded_next. revert Hi.
    refine (pool_steps_indexed (λ i t, ¬ (i <= 4)%nat → thread_guarded (takes_live []) t) (w1, threads sigs rx d) c'
      _ _ _ i t Ht).
    + intros j v u v' u' Hs Hu Hj. eapply thread_step_guarded; [exact Hs|by apply Hu].
    + etrans; [exact Hr|exact Hc].
    + intros j u Hu Hj. destruct j as [|[|[|[|[|j]]]]]; [lia..|].
      unfold threads in Hu. apply lookup_replicate in Hu as [-> _]. apply signal_quiet.
Qed.

(** ** Every step of the process is one with its objects *)

Lemma syncs_lift argv w p p' :
  rtc proc_step (Launched argv w) p → proc_step p p' → syncs_ok p p' (live_in p) (live_in p').
Proof.
  intros Hr Hs. pose proof (proc_reach _ _ _ Hr) as Hinv.
  destruct Hs as [argv' v rc v' Hsetup|argv' v v' sigs rx d Hsetup Hrx Hd|c c' k Hs|c k H0 Hk Hend|c rc v' Ht];
    cbn [syncs_ok live_in].
  - rewrite setup_syncs. apply setup_calls in Hsetup. by destruct (calls_ok _).
  - rewrite setup_syncs. apply setup_calls in Hsetup. by destruct (calls_ok _).
  - done.
  - done.
  - split; [by eapply joined_quiet|apply teardown_live].
Qed.

Lemma syncs_unique p p' live live1 live2 : syncs_ok p p' live live1 → syncs_ok p p' live live2 → live1 = live2.
Proof.
  destruct p, p'; cbn [syncs_ok]; try congruence. intros [_ H1] [_ H2]. congruence.
Qed.

Lemma sync_reach argv w p live :
  rtc sync_step (Launched argv w, []) (p, live) → rtc proc_step (Launched argv w) p ∧ live = live_in p.
Proof.
  intros Hr. change (rtc proc_step (Launched argv w) (p, live).1 ∧ (p, live).2 = live_in (p, live).1).
  refine (rtc_ind_r (λ c, rtc proc_step (Launched argv w) c.1 ∧ c.2 = live_in c.1) (Launched argv w, [])
            _ _ _ Hr); [split; [apply rtc_refl|reflexivity]|].
  intros [q l] [q' l'] _ [Hs Hl] [IH Hq]. cbn [fst snd] in *. subst l. split; [by eapply rtc_r|].
  eapply syncs_unique; [exact Hl|]. by eapply syncs_lift.
Qed.

Lemma sync_lifts argv w p : rtc proc_step (Launched argv w) p → rtc sync_step (Launched argv w, []) (p, live_in p).
Proof.
  revert p. apply rtc_ind_r; [apply rtc_refl|]. intros p p' Hr Hs IH. eapply rtc_r; [exact IH|].
  split; [exact Hs|]. by eapply syncs_lift.
Qed.

(** C14: under every scheduler the mutexes and condition variables live as
    they should.  Start-up initialises each before a section takes it, and no
    more than once; while the threads run, the section each executes next takes
    a mutex in use and, in the queue, conditions in use, and none initialises
    or destroys one; [main] destroys them, each once, only when no thread will
    use one again; and when [main] returns none is left, on the error path
    too. *)
Theorem sync_lifetime argv w p live :
  rtc sync_step (Launched argv w, []) (p, live) →
  uses_live p live ∧ ∀ p', proc_step p p' → ∃ live', sync_step (p, live) (p', live').
Proof.
  intros Hr. apply sync_reach in Hr as [Hr ->]. split.
  - pose proof (proc_reach _ _ _ Hr) as Hinv. destruct p as [|c k|]; [done| |done]. by eapply alive_takes.
  - intros p' Hs. exists (live_in p'). split; [exact Hs|]. by eapply syncs_lift.
Qed.
End properties.

(** A run to the exit code. *)
Lemma sync_lifetime_witness :
  ∃ rc w' live, rtc (sync_step (E:=demo_env) (D:=demo_double) (K:=demo_sock) (N:=demo_net))
    (Launched ["vecu"; "can0"]%string (demo_sys demo_world uds_queue_init), []) (Returned rc w', live) ∧ live = [].
Proof.
  destruct (quick_return (E:=demo_env) (D:=demo_double) (K:=demo_sock) (N:=demo_net)
    ["vecu"; "can0"]%string (demo_sys demo_world uds_queue_init)) as (rc & w' & Hr); [reflexivity|].
  apply sync_lifts in Hr. exists rc, w', []. split; [exact Hr|].
  exact (proj1 (sync_lifetime (E:=demo_env) (D:=demo_double) (K:=demo_sock) (N:=demo_net) _ _ _ _ Hr)).
Defined.
