(* ===== verification/Order.v ===== *)
(** Responses in order: what the process sends, against what it has read,
    under every schedule.

    The receive thread owns the message it has read and not queued yet, the
    dispatcher the request it has taken and not answered yet.  With the
    contents of the queue in between they are the messages that are pending:
    all others have been served, in the order of arrival, each with one
    response, or with none when its suppress bit is set, and no response
    answers anything else.  Once the main thread has closed the socket the
    requests that are still served are lost. *)

From S2P Require Import Prelude Effects Ghost UdsTypes DtcMem DidTable AppEngine Security Vecu Uds.
From S2P Require Import UdsSpec UdsRefine UdsProps UdsSafe Queue IsotpKernel Threads Main Locks.

Section specification.
Context {K : Sock}.

(** The request of the [n]-th read, as far as it fits the buffer of the
    receive thread; an empty message is none. *)
Definition arrival (n : nat) : option bytes :=
  match sock_read n with
  | Message data => if len data =? 0 then None else Some (take (Z.to_nat UDS_MAX_MSG_LEN) data)
  | _ => None
  end.

(** Those of the first [n] reads. *)
Definition arrivals (n : nat) : list bytes := omap arrival (seq 0 n).

Lemma arrivals_S n : arrivals (S n) = arrivals n ++ option_list (arrival n).
Proof.
  unfold arrivals. rewrite seq_S, omap_app. simpl. by destruct (arrival n).
Qed.

Lemma arrivals_prefix n m : (n <= m)%nat → arrivals n `prefix_of` arrivals m.
Proof.
  intros Hle. induction Hle as [|m _ IH]; [done|]. rewrite arrivals_S. by apply prefix_app_r.
Qed.

(** [m] answers a request to service [sid]. *)
Definition is_reply (sid : Z) (m : bytes) : Prop :=
  ld m 0 = Done (UDS_POS_RESP sid) ∨ ∃ nrc, m = [UDS_NEGATIVE_RESPONSE; sid; nrc].

(** The messages sent for the requests served, in the same order: one for
    each, or none for a request with the suppress bit. *)
Inductive answered : list bytes → list bytes → Prop :=
| answered_nil : answered [] []
| answered_reply served out req m :
    answered served out → is_reply (hd 0 req) m → answered (served ++ [req]) (out ++ [m])
| answered_suppressed served out req :
    answered served out → suppress_bit req → answered (served ++ [req]) out.

Lemma answered_all_suppressed served out d :
  answered served out → Forall suppress_bit d → answered (served ++ d) out.
Proof.
  intros Ha Hd. revert served Ha. induction Hd as [|req d Hr _ IH]; intros served Ha; [by rewrite app_nil_r|].
  change (req :: d) with ([req] ++ d). rewrite app_assoc. by apply IH, answered_suppressed.
Qed.

Lemma answers_reply sid resp n :
  answers sid resp n → 1 <= n <= len resp → is_reply sid (take (Z.to_nat n) resp).
Proof.
  intros Ha Hn. destruct resp as [|b0 resp]; [rewrite len_nil in Hn; lia|].
  destruct (Z.to_nat n) as [|k] eqn:Hk; [lia|]. destruct Ha as [H0|(H0 & H1 & ->)].
  - left. exact H0.
  - right. injection H0 as ->. change (Z.to_nat 3) with 3%nat in Hk. injection Hk as <-.
    destruct resp as [|b1 [|b2 resp]]; [destruct Hn as [_ Hn]; by vm_compute in Hn..|].
    injection H1 as ->. by exists b2.
Qed.
End specification.

(** * The invariant *)

Section ordered.
Context {E : Env} {D : Double} {K : Sock} `{!ClockBounded E, !DoubleLaws D, !SockLaws K}.
Implicit Types w : world sys.

(** What a thread has passed on, and what it has in hand: requests pushed and
    read for the receive thread, served or lost and taken for the dispatcher;
    and how often the receive thread has called for a message. *)
Record piece := Piece { finished : list bytes; held : list bytes; recvs : nat }.

(** All it has had. *)
Definition had (o : piece) : list bytes := finished o ++ held o.

(** The response of each request the dispatcher is done with has been sent,
    up to those lost on a closed socket. *)
Definition all_answered (s : sys) (d : piece) : Prop :=
  ∃ served lost, finished d = served ++ lost ∧ answered served (sent (s_io s)) ∧ (lost = [] ∨ sock (s_io s) < 0).

(** The requests read so far, with the receive thread at [rx] and the
    dispatcher at [d]. *)
Record in_order (s : sys) (rx d : piece) : Prop := {
  or_arrivals : arrivals (n_reads (s_io s)) = had rx;
  or_queued : finished rx = had d ++ contents (s_req_q s);
  or_answered : all_answered s d;
  or_recvs : recvs rx = n_reads (s_io s) ∨ sock (s_io s) < 0;
  or_rx : len (held rx) <= 1;
  or_dispatch : len (held d) <= 1
}.

(** Piece 1 is the receive thread's, piece 2 the dispatcher's. *)
Definition ordered (s : sys) (gs : list piece) : Prop :=
  sys_wf s ∧ statics_fit (s_state s) ∧ ∃ rx d, gs !! 1%nat = Some rx ∧ gs !! 2%nat = Some d ∧ in_order s rx d.

(** What no piece speaks of. *)
Record unrelated (s s' : sys) : Prop := {
  un_reads : n_reads (s_io s') = n_reads (s_io s);
  un_sent : sent (s_io s') = sent (s_io s);
  un_sock : sock (s_io s') = sock (s_io s) ∨ sock (s_io s') = -1;
  un_queue : contents (s_req_q s') = contents (s_req_q s);
  un_dids : dids (state (s_state s')) = dids (state (s_state s))
}.

(** The requests that have gone into the queue, and those that have left it. *)
Definition no_piece : piece := Piece [] [] 0.
Definition pushed (gs : list piece) : Z := len (finished (default no_piece (gs !! 1%nat))).
Definition popped (gs : list piece) : Z := len (had (default no_piece (gs !! 2%nat))).

(** What every step of every thread guarantees to the others. *)
Record progress (s : sys) (gs : list piece) (s' : sys) (gs' : list piece) : Prop := {
  pg_reads : (n_reads (s_io s) <= n_reads (s_io s'))%nat;
  pg_pushed : pushed gs <= pushed gs';
  pg_popped : popped gs <= popped gs'
}.

Lemma progress_refl s gs : ordered s gs → progress s gs s gs.
Proof. split; lia. Qed.
Lemma progress_trans s gs s1 gs1 s2 gs2 : progress s gs s1 gs1 → progress s1 gs1 s2 gs2 → progress s gs s2 gs2.
Proof. intros [] []. split; lia. Qed.

(** The dispatcher may wait with no request in hand; the receive thread for
    room, or with no request in hand for a message. *)
Definition rx_may_wait (s : sys) (o : piece) : Prop := queue_full s ∨ (bus_quiet s ∧ held o = []).
Definition dispatch_may_wait (s : sys) (o : piece) : Prop := queue_empty s ∧ held o = [].

Lemma ordered_wf s gs : ordered s gs → sys_wf s.
Proof. by intros [? _]. Qed.

Lemma in_order_unrelated s s' rx d : unrelated s s' → in_order s rx d → in_order s' rx d.
Proof.
  intros [Hn Hs Hk Hc _] [Ha Hq (sv & lo & Hd & Hans & Hl) Hcl Hr Ht]. split; rewrite ?Hn, ?Hc; try done.
  - exists sv, lo. rewrite Hs. split; [done|]. split; [done|]. destruct Hl as [Hl|Hl]; [by left|right; lia].
  - destruct Hcl as [Hcl|Hcl]; [by left|right; lia].
Qed.

Lemma ordered_unrelated s s' gs :
  ordered s gs → sys_wf s' → unrelated s s' → ordered s' gs ∧ progress s gs s' gs.
Proof.
  intros (_ & Hf & rx & d & H1 & H2 & Ho) Hwf Hu. split; [|split; rewrite ?(un_reads _ _ Hu); lia].
  split; [done|]. split; [unfold statics_fit; by rewrite (un_dids _ _ Hu)|].
  exists rx, d. split; [done|]. split; [done|]. by eapply in_order_unrelated.
Qed.

Lemma framed mb i {A} mb0 (p : sprog A) o (Q : A → Prop) :
  (∀ s, mb0 s → mb s o) →
  safe mb0 sys_wf p Q → guarded (moves unrelated) p → gsafe ordered progress mb i p o (λ a o', Q a ∧ o' = o).
Proof.
  apply (gsafe_frame ordered progress mb i mb0 sys_wf unrelated); [apply ordered_wf|apply ordered_unrelated].
Qed.

(** What a section of thread 1 may do with its piece: read, or hand over to
    the queue. *)
Lemma ordered_read s s' gs rx rx' d :
  gs !! 1%nat = Some rx → gs !! 2%nat = Some d → sys_wf s' → statics_fit (s_state s') → in_order s' rx' d →
  (n_reads (s_io s) <= n_reads (s_io s'))%nat → len (finished rx) <= len (finished rx') →
  ordered s' (<[1%nat := rx']> gs) ∧ progress s gs s' (<[1%nat := rx']> gs).
Proof.
  intros H1 H2 Hwf Hf Ho Hn Ha.
  assert (H1' : <[1%nat := rx']> gs !! 1%nat = Some rx')
    by (rewrite list_lookup_insert_eq by (by apply lookup_lt_Some in H1); done).
  assert (H2' : <[1%nat := rx']> gs !! 2%nat = Some d) by (by rewrite list_lookup_insert_ne).
  split; [|split; unfold pushed, popped; rewrite ?H1, ?H1', ?H2, ?H2'; simpl; lia].
  split; [done|]. split; [done|]. by exists rx', d.
Qed.

(** What a section of thread 2 may do: take from the queue, or be done with
    what it has. *)
Lemma ordered_taken s s' gs rx d d' :
  gs !! 1%nat = Some rx → gs !! 2%nat = Some d → sys_wf s' → statics_fit (s_state s') → in_order s' rx d' →
  n_reads (s_io s') = n_reads (s_io s) → len (had d) <= len (had d') →
  ordered s' (<[2%nat := d']> gs) ∧ progress s gs s' (<[2%nat := d']> gs).
Proof.
  intros H1 H2 Hwf Hf Ho Hn Hc.
  assert (H1' : <[2%nat := d']> gs !! 1%nat = Some rx) by (by rewrite list_lookup_insert_ne).
  assert (H2' : <[2%nat := d']> gs !! 2%nat = Some d')
    by (rewrite list_lookup_insert_eq by (by apply lookup_lt_Some in H2); done).
  split; [|split; unfold pushed, popped; rewrite ?H1, ?H1', ?H2, ?H2', ?Hn; simpl; lia].
  split; [done|]. split; [done|]. by exists rx, d'.
Qed.

(** ** Sections that concern no piece *)

Lemma on_ecu_unrelated {A} (p : vprog A) : guarded ecu_disciplined p → guarded (moves unrelated) (on_ecu p).
Proof.
  intros Hp%disciplined_dids. revert Hp. apply guarded_lift. intros B l body Hm w b w' Hb.
  unfold zoom in Hb. destruct (body _) as [[b1 w1]| |] eqn:Hb1; [|done..]. injection Hb as <- <-.
  split; [done|done|by left|done|]. exact (Hm _ _ _ Hb1).
Qed.
Lemma read_stop_unrelated : guarded (moves unrelated) read_stop.
Proof. split; [|done]. intros w b w' Hb. injection Hb as <- <-. split; auto. Qed.
Lemma pause_unrelated : guarded (moves unrelated) pause.
Proof.
  split; [|intros n; split; [|done]]; intros w b w' Hb; [injection Hb as <- <-; split; auto|].
  unfold wait_while in Hb. destruct (_ =? _)%nat; [done|]. injection Hb as <- <-. split; auto.
Qed.
Lemma on_signal_unrelated : guarded (moves unrelated) on_signal.
Proof. split; [|done]. intros w b w' Hb. injection Hb as <- <-. split; auto. Qed.
Lemma shutdown_unrelated : guarded (moves unrelated) (on_queue (uds_queue_shutdown PTR)).
Proof. split; [|done]. intros w b w' Hb. injection Hb as <- <-. split; auto. Qed.
Lemma close_unrelated : guarded (moves unrelated) (on_io (isotp_kio_close PTR)).
Proof. split; [|done]. intros w b w' Hb. injection Hb as <- <-. split; auto. Qed.

Ltac unrelated_step :=
  first
    [ done | apply read_stop_unrelated | apply pause_unrelated | apply on_signal_unrelated
    | apply on_ecu_unrelated; first [apply tick_disciplined | apply s3_check_disciplined]
    | apply shutdown_unrelated | apply close_unrelated
    | match goal with |- guarded _ (_ ≫= _) => apply guarded_bind; [|intros ?] end
    | match goal with |- guarded _ (if ?b then _ else _) => destruct b end ].

Lemma frame_contract_ok i {Loc} mb0 (P : Loc → Prop) (l : loop sys_lock sys Loc) :
  loop_safe mb0 sys_wf P l → (∀ loc, guarded (moves unrelated) (loop_body l loc)) →
  (∀ loc, guarded (moves unrelated) (loop_exit l loc)) →
  loop_gsafe ordered progress i (frame_contract mb0 P l).
Proof.
  intros Hl Hb He.
  by apply (frame_loop_gsafe ordered progress i mb0 sys_wf unrelated); [apply ordered_wf|apply ordered_unrelated|..].
Qed.

Definition frame_of (mb0 : sys → Prop) (l : loop sys_lock sys ()) : contract sys_lock sys piece :=
  frame_contract mb0 (λ _, True) l.

Lemma main_gsafe i : loop_gsafe ordered progress i (frame_of (λ _, True) main_thread).
Proof.
  apply frame_contract_ok; [apply main_thread_safe|..]; intros []; cbn [loop_body loop_exit main_thread].
  - unfold main_body. repeat unrelated_step.
  - unfold main_exit. repeat unrelated_step.
Qed.
Lemma app_gsafe i : loop_gsafe ordered progress i (frame_of never app_thread_main).
Proof.
  apply frame_contract_ok; [apply app_thread_safe|..]; intros []; cbn [loop_body loop_exit app_thread_main]; [|done].
  unfold app_body. repeat unrelated_step.
Qed.
Lemma s3_gsafe i : loop_gsafe ordered progress i (frame_of never s3_thread_main).
Proof.
  apply frame_contract_ok; [apply s3_thread_safe|..]; intros []; cbn [loop_body loop_exit s3_thread_main]; [|done].
  unfold s3_body. repeat unrelated_step.
Qed.
Lemma signal_gsafe i : loop_gsafe ordered progress i (frame_of never signal_thread).
Proof.
  apply frame_contract_ok; [apply signal_thread_safe|..]; intros []; cbn [loop_body loop_exit signal_thread];
    repeat unrelated_step.
Qed.

(** ** The receive thread *)

(** What a completed reception has read. *)
Definition received (r : recv_result) : list bytes :=
  if rv_rc r =? 0 then
    match rv_len r with
    | Some n => if n =? 0 then [] else [take (Z.to_nat n) (rv_out r)]
    | None => []
    end
  else [].

Lemma received_len r : len (received r) <= 1.
Proof. unfold received. destruct (_ =? 0); [destruct (rv_len r) as [n|]; [destruct (n =? 0)|]|]; by compute. Qed.

Lemma recv_arrives buf errno k r k' :
  len buf = UDS_MAX_MSG_LEN →
  isotp_kio_recv_step buf UDS_MAX_MSG_LEN errno k = Done (r, k') →
  arrivals (n_reads k') = arrivals (n_reads k) ++ received r ∧ sent k' = sent k ∧ sock k' = sock k ∧
  (n_reads k' = S (n_reads k) ∨ sock k < 0).
Proof.
  intros Hl Hr. split; [|split; [by eapply recv_step_sent|split; [by eapply recv_step_sock|by eapply recv_step_counts]]]. revert Hr. unfold isotp_kio_recv_step.
  destruct (sock k <? 0); [intros [= <- <-]; by rewrite app_nil_r|].
  destruct (sock_read (n_reads k)) as [data|e|] eqn:Hm; [|destruct (e =? EINTR); intros [= <- <-]|done].
  2-3: simpl; rewrite arrivals_S; unfold arrival; by rewrite Hm.
  pose proof (len_nonneg data). unfold UDS_MAX_MSG_LEN in *.
  rewrite memcpy_defined by lia. cbn [mbind outcome_bind].
  rewrite Z.add_0_l, drop_0. change (take (Z.to_nat 0) buf) with (@nil Z). rewrite app_nil_l.
  intros [= <- <-]. cbn [n_reads]. rewrite arrivals_S. f_equal. unfold arrival, received. rewrite Hm.
  cbn [rv_rc rv_len rv_out]. change (0 =? 0) with true. cbn iota.
  destruct (Z.eqb_spec (len data) 0) as [->|Hne]; [done|]. rewrite (proj2 (Z.eqb_neq _ _)) by lia. simpl. f_equal.
  assert (Ht : len (take (Z.to_nat (Z.min (len data) 4095)) data) = Z.min (len data) 4095) by (apply len_take; lia).
  rewrite take_app_le by (unfold len in *; lia). rewrite take_take, Nat.min_id.
  destruct (Z.min_spec (len data) 4095) as [[Hlt ->]|[_ ->]]; [|done].
  unfold len. rewrite Nat2Z.id. rewrite !take_ge; [done|unfold len, UDS_MAX_MSG_LEN in *; lia..].
Qed.

Lemma recv_gsafe buf errno f c :
  len buf = UDS_MAX_MSG_LEN → Forall is_byte buf →
  gsafe ordered progress rx_may_wait 1
    (on_io (isotp_kio_recv PTR (Some buf) UDS_MAX_MSG_LEN PTR errno)) (Piece f [] c)
    (λ r o', o' = Piece f (received r) (S c) ∧ len (rv_out r) = UDS_MAX_MSG_LEN ∧ Forall is_byte (rv_out r) ∧
             (rv_rc r = 0 → ∃ n, rv_len r = Some n ∧ 0 <= n <= UDS_MAX_MSG_LEN)).
Proof.
  intros Hl Hb. eapply gsafe_atomic; [eapply atomic_run; reflexivity|].
  intros w gs ? (Hwf & Hf & rx & d & H1 & H2 & [Ha Hq Hans Hcl _ Hd]) Hgs ->.
  rewrite run_on_io. unfold isotp_kio_recv. rewrite run_crit. unfold on_obj.
  change (obj (zoom_world io_lens w)) with (s_io (obj w)).
  pose proof (recv_step_safe buf UDS_MAX_MSG_LEN errno (s_io (obj w)) ltac:(rewrite Hl; by compute) Hb) as Hs.
  destruct (isotp_kio_recv_step _ _ _ _) as [[r k']| |] eqn:Hstep; [|right; by split|done].
  destruct (recv_arrives _ _ _ _ _ Hl Hstep) as (Harr & Hsent & Hsock & Hcount).
  assert (Hwf' : sys_wf (set_io k' (obj w))) by (destruct Hwf; split; [done|done|by simpl; rewrite Hsent]).
  rewrite Hl in Hs. rewrite H1 in Hgs. injection Hgs as ->. exists (Piece f (received r) (S c)).
  cbn [obj unzoom_world update io_lens]. split; [|by split].
  apply (ordered_read _ _ _ _ _ d H1 H2 Hwf' Hf); [|by eapply recv_step_reads|done].
  unfold had in *. cbn [finished held] in *. rewrite app_nil_r in Ha. split; simpl; try done.
  - by rewrite Harr, Ha.
  - unfold all_answered. simpl. by rewrite Hsent, Hsock.
  - rewrite Hsock. destruct Hcount as [->|]; [|by right]. destruct Hcl as [<-|]; [by left|by right].
  - apply received_len.
Qed.

Lemma push_gsafe buf n f c :
  len buf = UDS_MAX_MSG_LEN → Forall is_byte buf → 1 <= n <= UDS_MAX_MSG_LEN →
  gsafe ordered progress rx_may_wait 1
    (on_queue (uds_queue_push PTR (Some buf) n)) (Piece f [take (Z.to_nat n) buf] c)
    (λ rc o', rc = 0 → held o' = [] ∧ recvs o' = c).
Proof.
  intros Hl Hb Hn.
  eapply gsafe_atomic; [exact (atomic_lift _ queue_lens _ _ (rq_push_law (Q:=uds_queue_t) buf n Hl Hb Hn))|].
  intros w gs ? (Hwf & Hf & rx & d & H1 & H2 & Ho) Hgs (o' & Hp & ->). specialize (Hp (sw_queue _ Hwf)).
  rewrite H1 in Hgs. injection Hgs as ->.
  destruct o' as [[rc w']| |]; [|left; exact (fifo_push_waits _ _ Hp)|done]. destruct Hp as [Hwf' Hp].
  unfold fifo_push in Hp. cbn [rq_fifo uds_request_queue fifo_of f_msgs f_closed] in Hp.
  destruct (closed _); [|destruct (_ =? _); [done|]]; injection Hp as <- Hc _;
    change (contents (s_req_q (obj w))) with (contents (obj (zoom_world queue_lens w))) in *.
  - exists (Piece f [take (Z.to_nat n) buf] c). split; [|done].
    apply (ordered_read _ _ gs _ _ d H1 H2); [by destruct Hwf|done| |done|done].
    destruct Ho as [Ha Hq Hans Hcl _ Hd]. split; simpl; try done. by rewrite <- Hc.
  - exists (Piece (f ++ [take (Z.to_nat n) buf]) [] c). split; [|done].
    apply (ordered_read _ _ gs _ _ d H1 H2); [by destruct Hwf|done| |done|].
    + destruct Ho as [Ha Hq Hans Hcl _ Hd]. unfold had in *. cbn [finished held] in *. split; simpl; try done.
      * unfold had. cbn [finished held]. by rewrite app_nil_r.
      * unfold had. by rewrite <- Hc, Hq, !app_assoc.
    + simpl. rewrite len_app. pose proof (len_nonneg [take (Z.to_nat n) buf]). lia.
Qed.

(** Between two iterations the receive thread holds nothing. *)
Definition rx_contract : contract sys_lock sys piece :=
  Contract rx_locals rx_thread_main rx_may_wait (λ l o, rx_ok l ∧ held o = []) (λ _ _, True).

(** An iteration calls for one more message. *)
Lemma rx_body_gsafe l o :
  rx_ok l → held o = [] →
  gsafe ordered progress rx_may_wait 1 (rx_body l) o
    (λ r o', r.1 = Continue → rx_ok r.2 ∧ held o' = [] ∧ recvs o' = S (recvs o)).
Proof.
  intros [Hl Hb] Hh. destruct o as [f h c]. cbn [held recvs] in *. subst h. unfold rx_body.
  eapply gsafe_bind; [exact (framed _ 1 never read_stop (Piece f [] c) (λ _, True) (λ s, False_ind _)
    (read_stop_safe never) read_stop_unrelated)|].
  intros stop o [_ ->]. destruct stop; [done|].
  eapply gsafe_bind; [by apply recv_gsafe|]. intros r o (-> & Hlr & Hbr & Hn).
  assert (Hok : ∀ n e, rx_ok (RxLocals (rv_out r) n e)) by (by split). unfold received.
  destruct (Z.eqb_spec (rv_rc r) 1) as [H1|_]; [by rewrite H1|].
  destruct (Z.eqb_spec (rv_rc r) 0) as [H0|_]; cbn [negb andb]; [|by destruct (_ =? EAGAIN)].
  destruct (Hn H0) as (n & -> & Hr). cbn [rx_len rx_buf default id].
  destruct (Z.eqb_spec n 0) as [_|Hne]; [done|].
  eapply gsafe_bind; [apply push_gsafe; [done|done|lia]|]. intros rc o Ho.
  by destruct (Z.eqb_spec rc 0) as [Hrc|_]; cbn [negb]; [destruct (Ho Hrc)|].
Qed.

Lemma rx_gsafe : loop_gsafe ordered progress 1 rx_contract.
Proof.
  split; cbn [rx_contract ct_loc ct_loop ct_head ct_left ct_waits]; [intros l o [Hl Hh]|intros l o _].
  - eapply gsafe_mono; [by apply rx_body_gsafe|].
    intros [[] l'] o' Hr; [|done]. by destruct (Hr eq_refl) as (? & ? & _).
  - cbn [loop_exit rx_thread_main]. eapply gsafe_mono; [|done].
    apply (framed _ 1 never _ o (λ _, True)); [by intros s []| |apply shutdown_unrelated].
    apply (on_queue_safe never); [done|exact (rq_shutdown_safe (Q:=uds_queue_t) _)].
Qed.

(** ** The dispatcher *)

(** A test of the flag begins an iteration: the request taken before it, if
    its response was held back, is served without one. *)
Lemma dispatch_stop_gsafe mb o :
  Forall suppress_bit (held o) →
  gsafe ordered progress mb 2 read_stop o (λ _ o', o' = Piece (had o) [] (recvs o)).
Proof.
  intros Hsup. eapply gsafe_atomic; [eapply atomic_run; reflexivity|].
  intros w gs ? (Hwf & Hf & rx & d & H1 & H2 & [Ha Hq (sv & lo & Hd & Hans & Hlo) Hcl Hr Hdl]) Hgs ->.
  rewrite run_read_stop. exists (Piece (had o) [] (recvs o)). split; [|done]. rewrite H2 in Hgs. injection Hgs as ->.
  apply (ordered_taken _ _ _ _ _ _ H1 H2 Hwf Hf); [|done|unfold had; simpl; by rewrite app_nil_r].
  split; [done|unfold had at 1; simpl; by rewrite app_nil_r| |done|done|by compute].
  unfold all_answered, had. simpl. rewrite Hd. destruct lo as [|m lo].
  - exists (sv ++ held o), []. rewrite !app_nil_r. split; [done|]. split; [|by left]. by apply answered_all_suppressed.
  - exists sv, ((m :: lo) ++ held o). split; [by rewrite <- app_assoc|]. split; [done|]. right. by destruct Hlo.
Qed.

Lemma pop_gsafe f c :
  gsafe ordered progress dispatch_may_wait 2 (on_queue (uds_queue_pop_blocking PTR PTR)) (Piece f [] c)
    (λ r o', if r.1 =? 0 then ∃ m, r.2 = Some m ∧ msg_wf m ∧ 1 <= msg_len m ∧ o' = Piece f [payload m] c else o' = Piece f [] c).
Proof.
  eapply gsafe_atomic; [exact (atomic_lift _ queue_lens _ _ (rq_pop_law (Q:=uds_queue_t)))|].
  intros w gs ? (Hwf & Hf & rx & d & H1 & H2 & Ho) Hgs (o' & Hp & ->). specialize (Hp (sw_queue _ Hwf)).
  rewrite H2 in Hgs. injection Hgs as ->.
  destruct o' as [[[rc out] w']| |]; [|split; [exact (fifo_pop_waits _ Hp)|done]|done].
  destruct Hp as (Hwf' & Hm & Hp). unfold fifo_pop in Hp. cbn [rq_fifo uds_request_queue fifo_of f_msgs f_closed] in Hp.
  destruct (contents _) as [|m ms] eqn:Hc.
  - destruct (closed _); [|done]. injection Hp as <- _ Hc' _. exists (Piece f [] c). split; [|done].
    apply (ordered_taken _ _ _ _ _ _ H1 H2); [by destruct Hwf|done| |done|done].
    destruct Ho as [Ha Hqd Hans Hcl Hr Hd]. split; try done. simpl. rewrite <- Hc'. exact Hqd.
  - injection Hp as <- Ho' Hc' _. destruct out as [out|]; [|done]. injection Ho' as ->.
    destruct (Hm out eq_refl) as [Hout Hlen]. exists (Piece f [payload out] c).
    split; [|by exists out].
    apply (ordered_taken _ _ _ _ _ _ H1 H2); [by destruct Hwf|done| |done|].
    + destruct Ho as [Ha Hqd Hans Hcl Hr _]. unfold had in Hqd. cbn [finished held] in Hqd.
      change (contents (s_req_q (obj w))) with (contents (obj (zoom_world queue_lens w))) in Hqd.
      rewrite app_nil_r, Hc in Hqd. split; try done. unfold had. simpl. rewrite <- Hc', <- app_assoc. exact Hqd.
    + unfold had. cbn [finished held]. rewrite !len_app, len_nil. pose proof (len_nonneg [payload out]). lia.
Qed.

(** A response to the request taken; on a closed socket it is lost. *)
Lemma send_gsafe mb req resp n f c :
  1 <= n <= UDS_MAX_MSG_LEN → n <= len resp → is_reply (hd 0 req) (take (Z.to_nat n) resp) →
  gsafe ordered progress mb 2 (on_io (isotp_kio_send PTR (Some resp) n)) (Piece f [req] c)
    (λ _ o', o' = Piece (f ++ [req]) [] c).
Proof.
  intros Hn Hl Hreply. eapply gsafe_atomic; [eapply atomic_run; reflexivity|].
  intros w gs ? (Hwf & Hf & rx & d & H1 & H2 & [Ha Hq (sv & lo & Hd & Hans & Hlo) Hcl Hr _]) Hgs ->.
  rewrite H2 in Hgs. injection Hgs as ->. cbn [finished] in Hd.
  assert (Ht : len (take (Z.to_nat n) resp) = n) by (apply len_take; lia).
  pose proof (safe_run never sys_wf _ _ w (on_io_safe never never _ _ ltac:(done) (send_safe resp n Hn Hl)) Hwf) as Hs.
  revert Hs. rewrite run_on_io. unfold isotp_kio_send. rewrite run_crit. unfold on_obj.
  change (obj (zoom_world io_lens w)) with (s_io (obj w)).
  assert (Hown : ∀ s', sys_wf s' → statics_fit (s_state s') → n_reads (s_io s') = n_reads (s_io (obj w)) →
    s_req_q s' = s_req_q (obj w) → sock (s_io s') = sock (s_io (obj w)) → all_answered s' (Piece (f ++ [req]) [] c) →
    ordered s' (<[2%nat := Piece (f ++ [req]) [] c]> gs) ∧ progress (obj w) gs s' (<[2%nat := Piece (f ++ [req]) [] c]> gs)).
  { intros s' Hwf' Hf' Hn' Hq' Hk' Hans'. apply (ordered_taken _ _ _ _ _ _ H1 H2 Hwf' Hf'); [|done|].
    - split; [by rewrite Hn'| |done|by rewrite Hn', Hk'|done|by compute]. unfold had in *. simpl in *. by rewrite app_nil_r, Hq'.
    - unfold had. simpl. by rewrite app_nil_r. }
  destruct (decide (0 <= sock (s_io (obj w)))) as [Hs|Hs].
  - destruct (send_message (take (Z.to_nat n) resp) (drop (Z.to_nat n) resp) (s_io (obj w)) Hs) as (rc1 & Hr1 & _).
    rewrite Ht, take_drop in Hr1. rewrite Hr1. intros [_ Hwf']. exists (Piece (f ++ [req]) [] c). split; [|done].
    apply Hown; [exact Hwf'|exact Hf|done|done|done|]. destruct Hlo as [->|Hlo]; [|lia]. rewrite app_nil_r in Hd. subst f.
    exists (sv ++ [req]), []. split; [by rewrite app_nil_r|]. split; [by apply answered_reply|by left].
  - unfold isotp_kio_send_step. rewrite (proj2 (Z.ltb_lt _ _)) by lia. intros [_ Hwf'].
    exists (Piece (f ++ [req]) [] c). split; [|done]. apply Hown; [exact Hwf'|exact Hf|done|done|done|]. subst f.
    exists sv, (lo ++ [req]). split; [simpl; by rewrite app_assoc|]. split; [done|]. right. simpl. lia.
Qed.

(** The services under the stronger invariant. *)
Lemma request_gsafe mb m resp n o :
  msg_wf m → 1 <= msg_len m → len resp = UDS_MAX_MSG_LEN →
  gsafe ordered progress mb 2
    (on_ecu (uds_process_request PTR (Some (msg_data m)) (msg_len m) (Some resp) UDS_MAX_MSG_LEN (Some n))) o
    (λ r o', (∃ h, r = (hr_rc h, Some (hr_resp h, hr_len h)) ∧ handled (payload m) resp UDS_MAX_MSG_LEN h ∧
                   not_dropped h) ∧ o' = o).
Proof.
  intros Hm Hlen Hr.
  apply (gsafe_frame ordered progress mb 2 never (λ s, sys_wf s ∧ statics_fit (s_state s)) unrelated).
  - by intros s gs (Hwf & Hf & _).
  - intros s s' gs Ho [Hwf _]. by eapply ordered_unrelated.
  - by intros s [].
  - eapply safe_lift; [..|by apply process_payload_answers].
    + intros s [Hwf Hf]. split; [apply Hwf|done].
    + intros e s [Hwf _] [He Hf]. split; [by destruct Hwf|done].
    + done.
  - apply on_ecu_unrelated, process_request_disciplined.
Qed.

Lemma handle_request_gsafe mb l f c :
  dispatch_ok l → msg_wf (d_msg l) → 1 <= msg_len (d_msg l) →
  gsafe ordered progress mb 2 (handle_request l) (Piece f [payload (d_msg l)] c)
    (λ r o', r.1 = Continue ∧ dispatch_ok r.2 ∧ Forall suppress_bit (held o') ∧ had o' = f ++ [payload (d_msg l)]).
Proof.
  intros Hd Hm Hlen. unfold handle_request.
  eapply gsafe_bind; [by apply request_gsafe|].
  intros res o [(h & -> & [Hl Hh] & Hnd) ->]. unfold dispatch_ok in Hd.
  assert (Hok : dispatch_ok (DispatchLocals (d_msg l) (hr_resp h) (hr_len h)))
    by (unfold dispatch_ok; simpl; congruence).
  destruct Hh as [[Hh _]|(Hrc & Hr & Hans)]; [done|].
  rewrite (proj2 (Z.ltb_ge _ _)) by lia.
  destruct (Z.eqb_spec (hr_rc h) 1) as [H1|].
  - split; [done|]. split; [exact Hok|]. split; [|done]. constructor; [|constructor].
    by destruct Hrc as [?|[_ ?]]; [lia|].
  - cbn [d_resp_len d_resp d_msg]. rewrite (proj2 (Z.eqb_neq _ _)) by lia.
    eapply gsafe_bind; [apply send_gsafe; [done|rewrite Hl, Hd; lia|]|].
    + apply answers_reply; [exact Hans|]. rewrite Hl, Hd. exact Hr.
    + intros rc o ->. split; [done|]. split; [exact Hok|]. split; [constructor|]. unfold had. simpl. by rewrite app_nil_r.
Qed.

(** Between two iterations the dispatcher may have in hand a request whose
    response was held back. *)
Definition dispatch_contract : contract sys_lock sys piece :=
  Contract dispatch_locals dispatch_thread_main dispatch_may_wait
    (λ l o, dispatch_ok l ∧ Forall suppress_bit (held o)) (λ _ _, True).

(** An iteration takes one more request. *)
Lemma dispatch_body_gsafe l o :
  dispatch_ok l → Forall suppress_bit (held o) →
  gsafe ordered progress dispatch_may_wait 2 (dispatch_body l) o
    (λ r o', r.1 = Continue → dispatch_ok r.2 ∧ Forall suppress_bit (held o') ∧ len (had o') = len (had o) + 1).
Proof.
  intros Hl Hsup. unfold dispatch_body.
  eapply gsafe_bind; [by apply dispatch_stop_gsafe|]. intros stop ? ->. destruct stop; [done|].
  eapply gsafe_bind; [apply pop_gsafe|]. intros [rc m] o1 Ho. cbn [fst snd] in Ho.
  destruct (rc =? 0); cbn [negb]; [|done]. destruct Ho as (m' & -> & Hm & Hlen & ->).
  eapply gsafe_mono; [by apply (handle_request_gsafe _ (DispatchLocals m' (d_resp l) (d_resp_len l)))|].
  intros [c l'] o' (_ & Hok & Hs & Hh) _. split; [done|]. split; [done|]. by rewrite Hh, len_app.
Qed.

Lemma dispatch_gsafe : loop_gsafe ordered progress 2 dispatch_contract.
Proof.
  split; [|done]. intros l o [Hl Hsup]. eapply gsafe_mono; [by apply dispatch_body_gsafe|].
  intros [[] l'] o' Hr; [|done]. by destruct (Hr eq_refl) as (? & ? & _).
Qed.

(** ** The pool *)

Definition ordered_contracts (sigs : nat) : list (contract sys_lock sys piece) :=
  [ frame_of (λ _, True) main_thread; rx_contract; dispatch_contract;
    frame_of never app_thread_main; frame_of never s3_thread_main ] ++ replicate sigs (frame_of never signal_thread).

Lemma ordered_contracts_ok sigs : contracts_ok ordered progress (ordered_contracts sigs).
Proof.
  split; [|apply progress_refl|apply progress_trans]. intros i ct Hct. unfold ordered_contracts in Hct.
  do 5 (destruct i as [|i]; [injection Hct as <-;
    first [apply main_gsafe | apply rx_gsafe | apply dispatch_gsafe | apply app_gsafe | apply s3_gsafe]|]).
  change (replicate sigs (frame_of never signal_thread) !! i = Some ct) in Hct.
  apply lookup_replicate in Hct as [-> _]. apply signal_gsafe.
Qed.

(** The pieces after start-up. *)
Definition no_pieces (sigs : nat) : list piece := replicate (5 + sigs) no_piece.

Lemma threads_starting sigs rx d :
  rx_ok rx → dispatch_ok d → starting (ordered_contracts sigs) (threads sigs rx d) (no_pieces sigs).
Proof.
  intros Hrx Hd. unfold threads, ordered_contracts, no_pieces.
  split; [by rewrite !length_app, !length_replicate|]. split; [by rewrite length_app, !length_replicate|].
  intros i ct t o Hct Ht [-> Hi]%lookup_replicate.
  do 5 (destruct i as [|i]; [injection Ht as <-; injection Hct as <-; by eexists|]).
  change (replicate sigs (start signal_thread ()) !! i = Some t) in Ht.
  change (replicate sigs (frame_of never signal_thread) !! i = Some ct) in Hct.
  apply lookup_replicate in Ht as [-> _]. apply lookup_replicate in Hct as [-> _]. by eexists.
Qed.

Lemma start_ordered s :
  sys_wf s → statics_fit (s_state s) → s_req_q s = uds_queue_init → n_reads (s_io s) = O → sent (s_io s) = [] →
  ∀ sigs, ordered s (no_pieces sigs).
Proof.
  intros Hwf Hf Hq Hn Hs sigs. split; [done|]. split; [done|]. exists no_piece, no_piece. split; [done|].
  split; [done|]. split; [rewrite Hn; reflexivity|rewrite Hq, contents_init; reflexivity| |left; by rewrite Hn|by compute..].
  exists [], []. split; [done|]. split; [rewrite Hs; constructor|by left].
Qed.

(** After start-up. *)
Lemma setup_ordered c (w w1 : world sys) sigs rx d :
  run (main_setup c) w = Done (None, w1) → rx_ok rx → dispatch_ok d →
  pool_gsafe ordered progress (ordered_contracts sigs) (w1, threads sigs rx d) (no_pieces sigs).
Proof.
  intros Hsetup Hrx Hd. destruct (main_setup_run c w) as (w' & Hr' & _ & Hok). rewrite Hsetup in Hr'.
  destruct (calls_ok c); [|done]. injection Hr' as <-. destruct (Hok eq_refl) as (Hwf & Hp & Hq & Hio).
  destruct Hp as (_ & _ & Hp & _).
  split; [|apply starting_gsafe; [apply ordered_contracts_ok|by apply threads_starting]].
  change (ordered (obj w1) (no_pieces sigs)). apply start_ordered; [exact Hwf|exact (vecu_dids_fit _ Hp)|exact Hq|by rewrite Hio..].
Qed.
End ordered.

(** * Properties *)

Section properties.
Context {E : Env} {D : Double} {K : Sock} `{!ClockBounded E, !DoubleLaws D, !SockLaws K}.

(** C11: under every schedule after start-up, the requests read from the
    socket are served in the order of their arrival: each one served has been
    answered by exactly one response of its own service, or by none if its
    suppress bit is set; the responses were sent in the same order and nothing
    else was sent; a request taken from the queue is lost only once the socket
    has been closed; and at most ten are pending: one read, eight queued, one
    taken.  The one read may have been refused by a closed queue: it stays
    pending. *)
Theorem answered_in_order c (w w1 : world sys) sigs rx d p :
  run (main_setup c) w = Done (None, w1) → rx_ok rx → dispatch_ok d →
  rtc pool_step (w1, threads sigs rx d) p →
  let io := s_io (obj p.1) in
  ∃ served lost pending,
    arrivals (n_reads io) = served ++ lost ++ pending ∧
    answered served (sent io) ∧ (lost = [] ∨ sock io < 0) ∧ len pending <= UDS_QUEUE_CAP + 2.
Proof.
  intros Hsetup Hrx Hd Hr.
  destruct (pool_steps_gsafe _ _ _ _ _ _ (ordered_contracts_ok sigs) Hr (setup_ordered c w w1 sigs rx d Hsetup Hrx Hd))
    as (gs & (Hwfp & _ & rxo & dp & _ & _ & [Ha Hq (sv & lo & Hdp & Hans & Hlo) _ Hrl Hdl]) & _).
  exists sv, lo, (held dp ++ contents (s_req_q (obj p.1)) ++ held rxo).
  split; [unfold had in *; by rewrite Ha, Hq, Hdp, <- !app_assoc|]. split; [done|]. split; [done|].
  rewrite !len_app, len_contents by apply Hwfp. pose proof (qwf_count _ (sw_queue _ Hwfp)). lia.
Qed.
End properties.

(** After start-up and one signal. *)
Lemma answered_in_order_witness :
  ∃ w1 served lost pending, demo_setup = Done (None, w1) ∧
    arrivals (K:=demo_sock) (n_reads (s_io (obj (demo_signalled w1).1))) = served ++ lost ++ pending.
Proof.
  destruct (main_setup_run (E:=demo_env) demo_calls (demo_sys demo_world uds_queue_init)) as (w1 & Hr & _).
  destruct (answered_in_order (E:=demo_env) (D:=demo_double) (K:=demo_sock) demo_calls
    (demo_sys demo_world uds_queue_init) w1 1 demo_rx (demo_dispatch uds_msg_zero) (demo_signalled w1)
    Hr demo_rx_ok (demo_dispatch_ok _) (demo_signal w1)) as (sv & lo & pd & H & _).
  exists w1, sv, lo, pd. split; [exact Hr|exact H].
Defined.
