(* ===== verification/Gates.v ===== *)
(** The gates of the ECU, for the process as a whole: under every schedule,
    the tester has got where it is only by the requests it has sent.

    This is shown of the abstract process of [Server.v], whose dispatcher
    owns the requests it has taken, and holds of the code because the two
    are bisimilar. *)

From Stdlib Require Import String.
From S2P Require Import Prelude Effects Ghost Simulate UdsTypes DtcMem DidTable AppEngine Security Vecu Uds.
From S2P Require Import UdsSpec Services UdsRefine UdsProps UdsSafe Queue IsotpKernel Threads Main Server Locks Order.

(** * Requests in turn *)

(** Messages of [h], one for each predicate, in this order. *)
Fixpoint in_turn (Ps : list (bytes → Prop)) (h : list bytes) : Prop :=
  match Ps with
  | [] => True
  | P :: Ps => ∃ h1 m h2, h = h1 ++ m :: h2 ∧ P m ∧ in_turn Ps h2
  end.

Lemma in_turn_app Ps h t : in_turn Ps h → in_turn Ps (h ++ t).
Proof.
  revert h. induction Ps as [|P Ps IH]; intros h; [done|]. intros (h1 & m & h2 & -> & Hm & Hh).
  exists h1, m, (h2 ++ t). split; [by rewrite <- app_assoc|]. split; [done|by apply IH].
Qed.

Lemma in_turn_snoc Ps (P : bytes → Prop) h m : in_turn Ps h → P m → in_turn (Ps ++ [P]) (h ++ [m]).
Proof.
  revert h. induction Ps as [|P' Ps IH]; intros h Hh Hm; [by exists h, m, []|].
  destruct Hh as (h1 & m' & h2 & -> & Hm' & Hh). exists h1, m', (h2 ++ [m]).
  split; [by rewrite <- app_assoc|]. split; [done|by apply IH].
Qed.

(** A request for another than the default session. *)
Definition session_request (v : Z) (m : bytes) : Prop :=
  ∃ raw, m = [0x10; raw] ∧ raw mod 128 = v ∧ v ≠ UDS_SESSION_DEFAULT.
Definition seed_request (m : bytes) : Prop := ∃ raw, m = [0x27; raw] ∧ raw mod 128 = 1.
(** The right key for the seed. *)
Definition key_request (seed : Z) (m : bytes) : Prop :=
  ∃ raw key, m = 0x27 :: raw :: key ∧ raw mod 128 = 2 ∧ len key = 4 ∧ of_be key = Z.lxor seed SECURITY_KEY_CONSTANT.
Definition owner_request (name : bytes) (m : bytes) : Prop :=
  ∃ hi lo, m = 0x2E :: hi :: lo :: name ∧ of_be [hi; lo] = 0xF200.
(** An ECUReset that is carried out. *)
Definition resets (m : bytes) : bool :=
  match m with
  | [sid; raw] => (sid =? 0x11) && (1 <=? raw mod 128) && (raw mod 128 <=? 3)
  | _ => false
  end.

(** * What has been earned *)

Section earned.
Context {E : Env}.

(** A seed was asked for in a session entered before; the door is open to
    who then sent the key of the seed drawn. *)
Definition phase_earned (p : phase) (h : list bytes) : Prop :=
  match p with
  | Challenge seed _ => ∃ v n, seed = drawn_seed n ∧ in_turn [session_request v; seed_request] h
  | Open => ∃ v n, in_turn [session_request v; seed_request; key_request (drawn_seed n)] h
  | _ => True
  end.

(** The name was written through an open door, with no reset meanwhile. *)
Definition owner_earned (name : bytes) (h : list bytes) : Prop :=
  ∃ v n h1 h2 h3, h = h1 ++ h2 ++ h3 ∧ Forall (λ m, resets m = false) h2 ∧
    in_turn [session_request v; seed_request; key_request (drawn_seed n); owner_request name] h2.

Lemma phase_earned_app p h t : phase_earned p h → phase_earned p (h ++ t).
Proof.
  destruct p; [done| |done|].
  - intros (v & n & -> & Hh). exists v, n. split; [done|by apply in_turn_app].
  - intros (v & n & Hh). exists v, n. by apply in_turn_app.
Qed.

Lemma owner_earned_app name h t : owner_earned name h → owner_earned name (h ++ t).
Proof.
  intros (v & n & h1 & h2 & h3 & -> & Hr & Hh). exists v, n, h1, h2, (h3 ++ t).
  split; [by rewrite <- !app_assoc|done].
Qed.
End earned.

(** * The invariant *)

(** The requests of the dispatcher: up to the last reset, since then, and in
    hand; [quiet]: a reset has left the session.  For the receive thread,
    [current] is what it has in hand. *)
Record log := Log { past : list bytes; since : list bytes; current : list bytes; quiet : bool }.

Definition taken (o : log) : list bytes := past o ++ since o ++ current o.

(** The request in hand has taken effect. *)
Definition noted (o : log) : log := Log (past o) (since o ++ current o) [] (quiet o).
(** A reset is done. *)
Definition restarted (o : log) : log := Log (taken o) [] [] false.

Lemma taken_noted o : taken (noted o) = taken o.
Proof. unfold taken. simpl. by rewrite app_nil_r. Qed.
Lemma taken_restarted o : taken (restarted o) = taken o.
Proof. unfold taken. simpl. by rewrite app_nil_r. Qed.

(** What is in hand is no reset that was carried out. *)
Definition settled (o : log) : Prop := Forall (λ m, resets m = false) (current o) ∧ quiet o = false.

Section gates.
Context {E : Env} {D : Double} {K : Sock} `{!DoubleLaws D}.
Implicit Types (o : log) (a : aecu) (s : server).

(** The ECU has earned what it is by the requests that took effect. *)
Record history (o : log) (a : aecu) : Prop := {
  hs_dids : a_dids a = vecu_dids;
  hs_engine : app_engine_wf (a_engine a);
  hs_past : past o = [] ∨ ∃ h m, past o = h ++ [m] ∧ resets m = true;
  hs_since : Forall (λ m, resets m = false) (since o);
  hs_quiet : quiet o = true → a_session a = UDS_SESSION_DEFAULT;
  hs_session : a_session a ≠ UDS_SESSION_DEFAULT → in_turn [session_request (a_session a)] (since o);
  hs_phase : phase_earned (a_phase a) (since o);
  hs_owner : a_owner a = a_owner (aecu_init 0) ∨ owner_earned (a_owner a) (past o ++ since o)
}.

(** The receive thread is thread 1, the dispatcher thread 2. *)
Record gated (s : server) (gs : list log) : Prop := {
  gt_rx : ∃ rx d, gs !! 1%nat = Some rx ∧ gs !! 2%nat = Some d ∧ history d (v_ecu s) ∧
    arrivals (n_reads (v_io s)) = taken d ++ f_msgs (v_queue s) ++ current rx ∧
    len (current rx) <= 1 ∧ len (current d) <= 1;
  gt_queue : len (f_msgs (v_queue s)) <= UDS_QUEUE_CAP
}.

Definition anyhow (s : server) (gs : list log) (s' : server) (gs' : list log) : Prop := True.
Definition anywhere (s : server) (o : log) : Prop := True.

Abbreviation gates_safe i := (gsafe gated anyhow anywhere i).

(** *** Sections that concern neither the ECU nor the requests *)

Definition aside (s s' : server) : Prop :=
  n_reads (v_io s') = n_reads (v_io s) ∧ f_msgs (v_queue s') = f_msgs (v_queue s) ∧ v_ecu s' = v_ecu s.

Lemma aside_gsafe i {A} (body : cs server A) o :
  (∀ w, match body w with Done (_, w') => aside (obj w) (obj w') | Blocked => True | Undefined => False end) →
  gates_safe i (crit () body) o (λ _ o', o' = o).
Proof.
  intros Hb w gs [(rx & d & H1 & H2 & Hh & Ha & Hl) Hq] Hi. specialize (Hb w).
  destruct (body w) as [[b w']| |]; [|done..]. destruct Hb as (Hr & Hm & He).
  exists o. rewrite list_insert_id by done. split; [|done]. split; rewrite ?Hm; [|done].
  exists rx, d. by rewrite Hr, He.
Qed.

Lemma see_stop_gsafe i o : gates_safe i see_stop o (λ _ o', o' = o).
Proof. by apply aside_gsafe. Qed.
Lemma close_queue_gsafe i o : gates_safe i (on_v_queue (act_when close_queue)) o (λ _ o', o' = o).
Proof. by apply aside_gsafe. Qed.
Lemma close_socket_gsafe i o : gates_safe i (on_v_io (act_when close_socket)) o (λ _ o', o' = o).
Proof. by apply aside_gsafe. Qed.
Lemma transmit_gsafe i m o : gates_safe i (on_v_io (act_when (transmit m))) o (λ _ o', o' = o).
Proof. apply aside_gsafe. intros w. simpl. unfold aside. simpl. by destruct (_ <? 0). Qed.
Lemma server_signal_gsafe i o :
  gates_safe i (atomically (modify (λ s, Server (v_ecu s) (v_io s) (v_queue s) true (S (v_signals s))))) o (λ _ o', o' = o).
Proof. by apply aside_gsafe. Qed.
Lemma server_pause_gsafe i o : gates_safe i server_pause o (λ _ o', o' = o).
Proof.
  eapply gsafe_bind; [by apply aside_gsafe|]. intros n ? ->. apply aside_gsafe. intros w. unfold wait_while.
  by destruct (_ =? _)%nat.
Qed.

(** *** The ECU *)

(** The ECU against the requests taken, which stay. *)
Definition earned (a : aecu) (gs : list log) : Prop := ∃ d, gs !! 2%nat = Some d ∧ history d a.
Record same_taken (a : aecu) (gs : list log) (a' : aecu) (gs' : list log) : Prop := {
  st_rx : gs' !! 1%nat = gs !! 1%nat;
  st_dispatch : ∀ d, gs !! 2%nat = Some d →
    ∃ d', gs' !! 2%nat = Some d' ∧ taken d' = taken d ∧ len (current d') <= len (current d)
}.

Abbreviation ecu_gsafe i := (gsafe earned same_taken (λ _ _, True) i).

Lemma on_ecu_gsafe i {A} (p : aprog A) o Q : ecu_gsafe i p o Q → gates_safe i (on_v_ecu p) o Q.
Proof.
  apply gsafe_lift; [| |done].
  - intros s gs [(rx & d & _ & H2 & Hh & _) _]. by exists d.
  - intros s gs a gs' [(rx & d & H1 & H2 & _ & Ha & Hl1 & Hl2) Hq] (d' & H2' & Hh) [Hrx Hd]. split; [|done].
    destruct (Hd d H2) as (d1 & Hd1 & Ht & Hl). rewrite H2' in Hd1. injection Hd1 as <-. split; [|done].
    exists rx, d'. rewrite Hrx, Ht. split; [done|]. split; [done|]. split; [done|]. split; [done|]. split; [done|lia].
Qed.

(** The other threads may leave the session and lock the door. *)
Record calm (a a' : aecu) : Prop := {
  cm_dids : a_dids a' = a_dids a;
  cm_engine : app_engine_wf (a_engine a');
  cm_owner : a_owner a' = a_owner a;
  cm_session : a_session a' = a_session a ∨ a_session a' = UDS_SESSION_DEFAULT;
  cm_phase : a_phase a' = a_phase a ∨ ∃ n, a_phase a' = Idle n
}.

Lemma history_calm o a a' : history o a → calm a a' → history o a'.
Proof.
  intros [Hd He Hp Hs Hq Hse Hph Ho] [Hd' He' Ho' Hs' Hph']. split; [by rewrite Hd'|done..| | | |by rewrite Ho'].
  - destruct Hs' as [->| ->]; [exact Hq|done].
  - destruct Hs' as [->| ->]; [exact Hse|done].
  - destruct Hph' as [->|(n & ->)]; [exact Hph|done].
Qed.

Lemma calm_gsafe i {A} (body : cs aecu A) o :
  (∀ w, app_engine_wf (a_engine (obj w)) →
     match body w with Done (_, w') => calm (obj w) (obj w') | Blocked => True | Undefined => False end) →
  ecu_gsafe i (atomically body) o (λ _ o', o' = o).
Proof.
  intros Hb w gs (d & H2 & Hh) Hi. specialize (Hb w (hs_engine _ _ Hh)).
  destruct (body w) as [[b w']| |]; [|done..]. exists o. rewrite list_insert_id by done.
  split; [exists d; split; [done|by eapply history_calm]|]. split; [|done]. split; [done|]. intros d0 Hd0. by exists d0.
Qed.

Lemma tick_gsafe i o : ecu_gsafe i act_tick o (λ _ o', o' = o).
Proof.
  apply calm_gsafe. intros w Hw. unfold modify_out.
  destruct (tick_step_spec _ Hw) as (e & -> & He & _). simpl. by split; [..|left|left].
Qed.

Lemma observe_gsafe i {A} (f : aecu → A) o : ecu_gsafe i (observe f) o (λ _ o', o' = o).
Proof. apply calm_gsafe. intros w Hw. by split; [..|left|left]. Qed.

Lemma watch_gsafe i o : ecu_gsafe i watch o (λ _ o', o' = o).
Proof.
  eapply gsafe_bind; [apply observe_gsafe|]. intros sess ? ->. destruct (negb _); [|done].
  eapply gsafe_bind; [apply calm_gsafe; intros w Hw; by split; [..|left|left]|]. intros now ? ->.
  eapply gsafe_bind; [apply observe_gsafe|]. intros last ? ->. destruct (s3_expired _ _); [|done].
  eapply gsafe_bind; [apply calm_gsafe; intros w Hw; by split; [..|right|left]|]. intros [] ? ->.
  apply calm_gsafe. intros w Hw. split; [done..|by left|]. simpl. destruct (a_phase (obj w)); simpl; eauto.
Qed.

(** ** What the dispatcher does *)

Lemma action_gsafe {A} (body : cs aecu A) o (Q : A → log → Prop) :
  (∀ w, history o (obj w) →
     match body w with
     | Done (b, w') => ∃ o', history o' (obj w') ∧ taken o' = taken o ∧ len (current o') <= len (current o) ∧ Q b o'
     | Blocked => True
     | Undefined => False
     end) →
  ecu_gsafe 2%nat (atomically body) o Q.
Proof.
  intros Hb w gs (d & H2 & Hh) Hi. rewrite H2 in Hi. injection Hi as ->. specialize (Hb w Hh).
  destruct (body w) as [[b w']| |]; [|done..]. destruct Hb as (o' & Hh' & Ht & Hl & HQ). exists o'.
  assert (H2' : <[2%nat := o']> gs !! 2%nat = Some o')
    by (rewrite list_lookup_insert_eq by (by apply lookup_lt_Some in H2); done).
  split; [by exists o'|]. split; [|exact HQ]. split; [by rewrite list_lookup_insert_ne|].
  intros d Hd. rewrite H2 in Hd. injection Hd as <-. by exists o'.
Qed.

(** What is seen has been earned. *)
Lemma seen_gsafe {A} (f : aecu → A) o :
  ecu_gsafe 2%nat (observe f) o (λ x o', o' = o ∧ ∃ a, history o a ∧ x = f a).
Proof. apply action_gsafe. intros w Hh. exists o. split; [exact Hh|]. split; [done|]. split; [lia|]. split; [done|]. by exists (obj w). Qed.

(** The session and the door once the request in hand is noted. *)
Lemma noted_history o a a' :
  history o a → Forall (λ m, resets m = false) (current o) →
  a_dids a' = a_dids a → a_engine a' = a_engine a → (quiet o = true → a_session a' = UDS_SESSION_DEFAULT) →
  (a_session a' = a_session a ∨ (a_session a' ≠ UDS_SESSION_DEFAULT → in_turn [session_request (a_session a')] (since o ++ current o))) →
  (a_phase a' = a_phase a ∨ phase_earned (a_phase a') (since o ++ current o)) →
  (a_owner a' = a_owner a ∨ owner_earned (a_owner a') (past o ++ since o ++ current o)) →
  history (noted o) a'.
Proof.
  intros [Hd He Hp Hs Hq Hse Hph Ho] Hc Hd' He' Hq' Hse' Hph' Ho'.
  split; cbn [past since quiet noted]; [by rewrite Hd'|by rewrite He'|done|by apply Forall_app|done|..].
  - destruct Hse' as [->|Hse']; [|exact Hse']. intros Hne. by apply in_turn_app, Hse.
  - destruct Hph' as [->|Hph']; [|exact Hph']. by apply phase_earned_app.
  - destruct Ho' as [->|Ho']; [|by right]. rewrite app_assoc. destruct Ho as [Ho|Ho]; [by left|right; by apply owner_earned_app].
Qed.

Lemma noted_len o : len (current (noted o)) <= len (current o).
Proof. simpl. rewrite len_nil. apply len_nonneg. Qed.

Lemma noted_settled o : quiet o = false → settled (noted o).
Proof. by split. Qed.

Section served.
Variables (o : log) (m : bytes) (cap : Z).
Hypotheses (Hcur : current o = [m]) (Hquiet : quiet o = false).

Lemma kept_settled : resets m = false → settled o.
Proof using Hcur Hquiet. split; [|done]. rewrite Hcur. by constructor. Qed.

Lemma hand_ok : resets m = false → Forall (λ m, resets m = false) (current o).
Proof using Hcur. rewrite Hcur. by constructor. Qed.

(** An action the request in hand stands for. *)
Lemma noted_gsafe {A} (body : cs aecu A) :
  resets m = false →
  (∀ w, history o (obj w) → ∃ b w', body w = Done (b, w') ∧ history (noted o) (obj w')) →
  ecu_gsafe 2%nat (atomically body) o (λ _ o', settled o').
Proof using Hcur Hquiet.
  intros Hm Hb. apply action_gsafe. intros w Hh. destruct (Hb w Hh) as (b & w' & -> & Hh'). exists (noted o).
  split; [done|]. split; [apply taken_noted|]. split; [apply noted_len|by apply noted_settled].
Qed.

Lemma session_gsafe raw :
  m = [0x10; raw] → ecu_gsafe 2%nat (svc_session cap [raw]) o (λ _ o', settled o').
Proof using Hcur Hquiet.
  intros Hm. assert (Hr : resets m = false) by (by rewrite Hm).
  unfold svc_session. cbv zeta. destruct (bool_decide _); [|by apply kept_settled].
  eapply (gsafe_bind _ _ _ _ _ _ _ (λ _ o', settled o')); [|by intros [] o' Ho'].
  apply noted_gsafe; [done|]. intros w Hh. do 2 eexists. split; [reflexivity|].
  apply (noted_history o (obj w)); [done|by apply hand_ok|done|done|by rewrite Hquiet| |by left|by left].
  right. intros Hne. exists (since o), m, []. rewrite Hcur. split; [done|]. split; [|done]. by exists raw.
Qed.

Lemma reset_gsafe raw :
  m = [0x11; raw] → ecu_gsafe 2%nat (svc_reset [raw]) o (λ _ o', settled o').
Proof using Hcur Hquiet.
  intros Hm. unfold svc_reset. cbv zeta. destruct ((1 <=? raw mod 128) && (raw mod 128 <=? 3)) eqn:Hsub;
    [|by apply kept_settled; rewrite Hm].
  set (o1 := Log (past o) (since o) (current o) true).
  eapply (gsafe_bind _ _ _ _ _ _ _ (λ _ o', o' = o1)).
  { apply action_gsafe. intros w [Hd He Hp Hs Hq Hse Hph Ho]. exists o1. split; [by split|]. split; [done|]. split; [simpl; lia|done]. }
  intros [] ? ->. eapply (gsafe_bind _ _ _ _ _ _ _ (λ _ o', settled o')); [|by intros [] o' Ho'].
  apply action_gsafe. intros w [Hd He Hp Hs Hq Hse Hph Ho]. exists (restarted o1).
  split; [|split; [apply taken_restarted|split; [simpl; rewrite len_nil; apply len_nonneg|by split]]].
  split; [done|done|right|constructor|done| |done|].
  - exists (past o ++ since o), m. split; [unfold restarted, taken; simpl; by rewrite Hcur, app_assoc|by rewrite Hm].
  - simpl. by rewrite (Hq eq_refl).
  - simpl in *. destruct Ho as [Ho|Ho]; [by left|right]. rewrite app_nil_r. unfold taken. simpl. rewrite app_assoc. by apply owner_earned_app.
Qed.

(** A session other than the default one has been entered. *)
Lemma extended_earned a : history o a → extended a = true → ∃ v, in_turn [session_request v] (since o).
Proof using.
  intros Hh Hx%bool_decide_eq_true. exists (a_session a). apply (hs_session _ _ Hh). by destruct Hx as [-> | ->].
Qed.

Lemma seed_gsafe raw :
  m = [0x27; raw] → raw mod 128 = 1 → (∃ v, in_turn [session_request v] (since o)) →
  ecu_gsafe 2%nat act_request o (λ _ o', settled o').
Proof using Hcur Hquiet.
  intros Hm Hraw (v & Hv). assert (Hr : resets m = false) by (by rewrite Hm).
  apply noted_gsafe; [done|]. intros w Hh. destruct (phase_request _ _ _) as [r p] eqn:Hp.
  do 2 eexists. split; [reflexivity|].
  apply (noted_history o (obj w)); [done|by apply hand_ok|done|done|by rewrite Hquiet|by left| |by left].
  assert (Hseed : phase_earned (Challenge (drawn_seed (draws w)) 0) (since o ++ current o)).
  { exists v, (draws w). split; [done|]. rewrite Hcur. apply (in_turn_snoc [_]); [done|by exists raw]. }
  simpl. unfold phase_request in Hp.
  destruct (a_phase (obj w)); [| |destruct (_ <? _)|]; injection Hp as <- <-; first [by left | by right].
Qed.

Lemma key_gsafe raw key :
  m = 0x27 :: raw :: key → raw mod 128 = 2 → len key = 4 →
  ecu_gsafe 2%nat (act_key (of_be key)) o (λ _ o', settled o').
Proof using Hcur Hquiet.
  intros Hm Hraw Hl. assert (Hr : resets m = false).
  { rewrite Hm. destruct key as [|k0 key]; [done|]. done. }
  apply noted_gsafe; [done|]. intros w Hh. destruct (phase_key _ _ _) as [r p] eqn:Hp.
  do 2 eexists. split; [reflexivity|].
  apply (noted_history o (obj w)); [done|by apply hand_ok|done|done|by rewrite Hquiet|by left| |by left].
  pose proof (hs_phase _ _ Hh) as Hph. simpl. unfold phase_key in Hp.
  destruct (a_phase (obj w)) as [n|seed n|u|]; try (injection Hp as <- <-; by left).
  destruct (Z.eqb_spec (of_be key) (Z.lxor seed SECURITY_KEY_CONSTANT)) as [Hk|_];
    [|destruct (_ >=? _); injection Hp as <- <-; by right].
  injection Hp as <- <-. right. destruct Hph as (v & k & -> & Hph). exists v, k. rewrite Hcur.
  apply (in_turn_snoc [_; _]); [done|]. by exists raw, key.
Qed.

Lemma security_gsafe args :
  m = 0x27 :: args → ecu_gsafe 2%nat (svc_security args) o (λ _ o', settled o').
Proof using Hcur Hquiet.
  intros Hm. destruct args as [|raw rest]; [apply kept_settled; by rewrite Hm|].
  assert (Hr : resets m = false) by (rewrite Hm; by destruct rest). pose proof (kept_settled Hr) as Hset.
  unfold svc_security. cbv zeta. eapply gsafe_bind; [apply seen_gsafe|]. intros ext ? [-> (a & Hh & Hx)].
  destruct ext; cbn [negb]; [|done]. destruct (_ =? 1).
  - destruct rest; [|done]. destruct (Z.eqb_spec (raw mod 128) 1); [|done].
    eapply (gsafe_bind _ _ _ _ _ _ _ (λ _ o', settled o')); [|done].
    apply (seed_gsafe raw); [done|done|by eapply extended_earned].
  - destruct rest as [|k0 [|k1 [|k2 [|k3 [|x rest]]]]]; try done. destruct (Z.eqb_spec (raw mod 128) 2); [|done].
    eapply (gsafe_bind _ _ _ _ _ _ _ (λ _ o', settled o')); [|done]. by apply (key_gsafe raw).
Qed.

(** The one identifier that can be written is behind the door. *)
Lemma writable_did id e f : find_did id vecu_dids = Some e → write e = Some f → id = 0xF200 ∧ requires_security e = true.
Proof using.
  intros [He <-]%find_did_Some Hw.
  assert (Hall : Forall (λ e, write e = None ∨ did e = 0xF200 ∧ requires_security e = true) vecu_dids)
    by (repeat constructor; first [by left | by right]).
  rewrite Forall_forall in Hall. destruct (Hall e He) as [Hn|]; [congruence|done].
Qed.

Lemma write_gsafe hi lo name :
  m = 0x2E :: hi :: lo :: name → of_be [hi; lo] = 0xF200 → phase_earned Open (since o) →
  ecu_gsafe 2%nat (act_write name) o (λ _ o', settled o').
Proof using Hcur Hquiet.
  intros Hm Hid (v & n & Hopen). assert (Hr : resets m = false) by (by rewrite Hm; destruct name).
  eapply gsafe_bind; [apply seen_gsafe|]. intros g ? [-> _]. destruct (_ || _); [by apply kept_settled|].
  eapply (gsafe_bind _ _ _ _ _ _ _ (λ _ o', settled o')); [|by intros [] o' Ho'].
  apply noted_gsafe; [done|]. intros w Hh. do 2 eexists. split; [reflexivity|].
  apply (noted_history o (obj w)); [done|by apply hand_ok|done|done|by rewrite Hquiet|by left|by left|].
  right. exists v, n, (past o), (since o ++ current o), []. split; [by rewrite app_nil_r|].
  split; [apply Forall_app; split; [apply (hs_since _ _ Hh)|by apply hand_ok]|]. rewrite Hcur.
  apply (in_turn_snoc [_; _; _]); [done|]. by exists hi, lo.
Qed.

Lemma write_did_gsafe args :
  m = 0x2E :: args → ecu_gsafe 2%nat (svc_write_did args) o (λ _ o', settled o').
Proof using Hcur Hquiet.
  intros Hm. destruct args as [|hi [|lo [|x name]]]; [apply kept_settled; by rewrite Hm..|].
  assert (Hset : settled o) by (apply kept_settled; by rewrite Hm).
  unfold svc_write_did. eapply gsafe_bind; [apply seen_gsafe|]. intros e ? [-> (a & Hh & He)].
  rewrite (hs_dids _ _ Hh) in He. destruct e as [e|]; [|done].
  cbn [mbind option_bind]. destruct (write e) as [[]|] eqn:Hw; [|done]. cbn [fmap option_fmap option_map].
  destruct (writable_did _ _ _ (eq_sym He) Hw) as [Hid Hsec].
  eapply (gsafe_bind _ _ _ _ _ _ _ (λ _ o', o' = o)).
  { destruct (requires_extended_session e); [apply observe_gsafe|done]. }
  intros ext ? ->. destruct ext; cbn [negb]; [|done]. rewrite Hsec. cbn [required].
  eapply gsafe_bind; [apply seen_gsafe|]. intros op ? [-> (a' & Hh' & Hop)].
  destruct op; cbn [negb]; [|done]. symmetry in Hop. apply bool_decide_eq_true in Hop.
  eapply (gsafe_bind _ _ _ _ _ _ _ (λ _ o', settled o')); [|by intros [] o' Ho'].
  eapply (write_gsafe hi lo); [done|done|]. rewrite <- Hop. apply (hs_phase _ _ Hh').
Qed.
End served.

Lemma read_gsafe f o : ecu_gsafe 2%nat (act_read f) o (λ _ o', o' = o).
Proof.
  destruct f; (eapply gsafe_bind; [apply observe_gsafe|]); intros g ? ->; (destruct (is_null g); [done|]);
    (eapply gsafe_bind; [apply observe_gsafe|]); by intros v ? ->.
Qed.

(** The services that pass no gate. *)
Ltac passing :=
  repeat first
    [ done
    | match goal with
      | |- gsafe _ _ _ _ (observe _ ≫= _) _ _ => eapply gsafe_bind; [apply observe_gsafe|intros ? ? ->]
      | |- gsafe _ _ _ _ (act_read _ ≫= _) _ _ => eapply gsafe_bind; [apply read_gsafe|intros ? ? ->]
      | |- gsafe _ _ _ _ (_ ≫= _) _ _ => eapply gsafe_bind; [apply calm_gsafe; intros ? ?; by split; [..|left|left]|intros [] ? ->]
      | |- gsafe _ _ _ _ (if ?b then _ else _) _ _ => destruct b
      | |- gsafe _ _ _ _ (match ?x with _ => _ end) _ _ => destruct x
      end ].

Lemma service_gsafe o m :
  current o = [m] → quiet o = false → ecu_gsafe 2%nat (service UDS_MAX_MSG_LEN m) o (λ _ o', settled o').
Proof.
  intros Hcur Hquiet. pose proof (kept_settled o m Hcur Hquiet) as Hset.
  destruct m as [|sid args]; [by apply Hset|]. unfold service.
  destruct (Z.eqb_spec sid 0x10) as [->|H10].
  { destruct args as [|raw [|x args]]; [by apply Hset|by eapply session_gsafe|by apply Hset]. }
  destruct (Z.eqb_spec sid 0x11) as [->|H11].
  { destruct args as [|raw [|x args]]; [by apply Hset|by eapply reset_gsafe|by apply Hset]. }
  assert (Hs : settled o).
  { apply Hset. simpl. destruct args as [|raw [|x args]]; [done| |done]. by rewrite (proj2 (Z.eqb_neq sid 0x11) H11). }
  destruct (sid =? 0x14); [unfold svc_clear_dtc; passing|].
  destruct (sid =? 0x19); [unfold svc_read_dtc; cbv zeta; passing|].
  destruct (sid =? 0x22); [unfold svc_read_did; passing|].
  destruct (Z.eqb_spec sid 0x27) as [->|_]; [by eapply security_gsafe|].
  destruct (Z.eqb_spec sid 0x2E) as [->|_]; [by eapply write_did_gsafe|].
  destruct (sid =? 0x3E); [unfold svc_tester_present; cbv zeta; passing|done].
Qed.

(** The front of the queue is taken; the request before it is noted. *)
Lemma pop_gates_safe o :
  settled o →
  gates_safe 2%nat (on_v_queue (act_when fifo_pop)) o
    (λ r o', match r.2 with Some m => current o' = [m] ∧ quiet o' = false | None => True end).
Proof.
  intros [Hset Hquiet] w gs [(rx & d & H1 & H2 & Hh & Ha & Hl1 & Hl2) Hq] Hi. rewrite H2 in Hi. injection Hi as ->.
  unfold zoom, fifo_pop. cbn [zoom_world view v_queue_lens obj readings draws].
  destruct (f_msgs (v_queue (obj w))) as [|m ms] eqn:Hf; [destruct (f_closed _); [|done]|].
  - exists o. rewrite list_insert_id by done. split; [|done]. split; [|simpl; by rewrite Hf].
    exists rx, o. simpl. by rewrite Hf.
  - set (o' := Log (past o) (since o ++ current o) [m] false). exists o'.
    split; [|by split]. rewrite len_cons in Hq. split; [|simpl; lia].
    exists rx, o'. rewrite list_lookup_insert_ne by done. rewrite list_lookup_insert_eq by (by apply lookup_lt_Some in H2).
    split; [done|]. split; [done|]. split.
    + change o' with (Log (past (noted o)) (since (noted o)) [m] false).
      assert (Hn : history (noted o) (v_ecu (obj w))) by (apply (noted_history o (v_ecu (obj w))); auto; by rewrite Hquiet).
      destruct Hn. by split.
    + split; [|by split]. simpl. rewrite Ha. unfold taken. simpl. by rewrite <- !app_assoc.
Qed.

Definition dispatch_gates : contract () server log :=
  Contract () server_dispatch anywhere (λ _ o, settled o) (λ _ _, True).

Lemma dispatch_gates_ok : loop_gsafe gated anyhow 2%nat dispatch_gates.
Proof.
  split; [|done]. intros [] o Hset. unfold body_gsafe. cbn [dispatch_gates ct_loop ct_waits server_dispatch loop_body].
  unfold server_dispatch_body. eapply gsafe_bind; [apply see_stop_gsafe|]. intros stop ? ->. destruct stop; [done|].
  eapply gsafe_bind; [by apply pop_gates_safe|]. intros [rc [m|]] o1 Ho; [|done]. destruct Ho as [Hcur Hquiet].
  eapply gsafe_bind; [by apply on_ecu_gsafe, service_gsafe|]. intros r o2 Hset2.
  destruct (reply_rc r =? 0); [|done].
  eapply gsafe_bind; [apply transmit_gsafe|]. by intros [] ? ->.
Qed.

(** ** The receive thread *)

Definition rx_gates : contract () server log :=
  Contract Z server_rx anywhere (λ _ o, current o = []) (λ _ _, True).

Lemma receive_gsafe errno o :
  current o = [] →
  gates_safe 1%nat (on_v_io (act_when (receive errno))) o
    (λ r o', current o' = match r with Arrived m => if len m =? 0 then [] else [m] | _ => [] end).
Proof.
  intros Hc w gs [(rx & d & H1 & H2 & Hh & Ha & Hl1 & Hl2) Hq] Hi. rewrite H1 in Hi. injection Hi as ->.
  unfold zoom, receive. cbn [zoom_world view v_io_lens obj readings draws].
  assert (Hins : ∀ rx', <[1%nat := rx']> gs !! 1%nat = Some rx' ∧ <[1%nat := rx']> gs !! 2%nat = Some d).
  { intros rx'. rewrite list_lookup_insert_eq by (by apply lookup_lt_Some in H1). by rewrite list_lookup_insert_ne. }
  rewrite Hc, app_nil_r in Ha.
  destruct (sock (v_io (obj w)) <? 0).
  { exists o. rewrite list_insert_id by done. split; [|done]. split; [|done]. exists o, d. by rewrite Hc, app_nil_r. }
  pose proof (arrivals_S (n_reads (v_io (obj w)))) as HS. unfold arrival in HS.
  destruct (sock_read (n_reads (v_io (obj w)))) as [data|e|]; [| |done].
  - assert (Hlen : (len (take (Z.to_nat UDS_MAX_MSG_LEN) data) =? 0) = (len data =? 0)).
    { destruct data as [|b data]; [done|]. change (Z.to_nat UDS_MAX_MSG_LEN) with 4095%nat.
      cbn [take]. rewrite !len_cons. pose proof (len_nonneg (take 4094 data)). pose proof (len_nonneg data).
      by rewrite !(proj2 (Z.eqb_neq _ _)) by lia. }
    set (held := if len data =? 0 then [] else [take (Z.to_nat UDS_MAX_MSG_LEN) data]).
    exists (Log [] [] held false). split; [|split; [done|by cbn [lift gsafe current]; rewrite Hlen]]. split; [|done].
    destruct (Hins (Log [] [] held false)) as [E1 E2]. exists (Log [] [] held false), d. split; [done|]. split; [done|].
    split; [done|]. cbn [unzoom_world update v_io_lens set_v_io obj v_io n_reads v_queue current].
    rewrite HS, Ha, <- app_assoc. unfold held. destruct (len data =? 0); (split; [done|]; split; [by compute|done]).
  - exists o. rewrite list_insert_id by done. split; [|split; [done|by destruct (e =? EINTR)]]. split; [|done].
    exists o, d. split; [done|]. split; [done|]. split; [done|].
    cbn [unzoom_world update v_io_lens set_v_io obj v_io n_reads v_queue]. by rewrite HS, Ha, Hc, !app_nil_r.
Qed.

Lemma push_gates_safe m o :
  current o = [m] →
  gates_safe 1%nat (on_v_queue (act_when (fifo_push m))) o (λ rc o', rc = 0 → current o' = []).
Proof.
  intros Hc w gs [(rx & d & H1 & H2 & Hh & Ha & Hl1 & Hl2) Hq] Hi. rewrite H1 in Hi. injection Hi as ->.
  unfold zoom, fifo_push. cbn [zoom_world view v_queue_lens obj readings draws].
  destruct (f_closed _); [|destruct (Z.eqb_spec (len (f_msgs (v_queue (obj w)))) UDS_QUEUE_CAP); [done|]].
  - exists o. rewrite list_insert_id by done. split; [|done]. split; [|done]. by exists o, d.
  - exists (Log [] [] [] false). split; [|done]. split; [|simpl; rewrite len_app, len_cons, len_nil; lia].
    exists (Log [] [] [] false), d. rewrite list_lookup_insert_eq by (by apply lookup_lt_Some in H1).
    rewrite list_lookup_insert_ne by done. split; [done|]. split; [done|]. split; [done|].
    simpl. rewrite app_nil_r, Ha, Hc. split; [done|]. split; [by compute|done].
Qed.

Lemma rx_gates_ok : loop_gsafe gated anyhow 1%nat rx_gates.
Proof.
  split; [|intros errno o _; eapply gsafe_mono; [apply close_queue_gsafe|done]].
  intros errno o Hc. unfold body_gsafe. cbn [rx_gates ct_loop ct_waits server_rx loop_body]. unfold server_rx_body.
  eapply gsafe_bind; [apply see_stop_gsafe|]. intros stop ? ->. destruct stop; [done|].
  eapply gsafe_bind; [by apply receive_gsafe|]. intros [m| |e] o1 Ho; [|done|by destruct (e =? EAGAIN)].
  destruct (len m =? 0); [done|].
  eapply gsafe_bind; [by apply push_gates_safe|]. intros rc o2 Ho2. by destruct (Z.eqb_spec rc 0); [apply Ho2|].
Qed.

(** ** The pool *)

Definition bystander (l : loop () server ()) : contract () server log :=
  Contract () l anywhere (λ _ _, True) (λ _ _, True).

Lemma server_main_ok i : loop_gsafe gated anyhow i (bystander server_main).
Proof.
  split; intros [] o _; unfold body_gsafe; cbn [bystander ct_loop ct_waits server_main loop_body loop_exit].
  - unfold server_main_body. eapply gsafe_bind; [apply see_stop_gsafe|]. intros stop ? ->. destruct stop; [done|].
    eapply gsafe_bind; [apply server_pause_gsafe|done].
  - eapply gsafe_bind; [apply close_queue_gsafe|]. intros ? ? _. eapply gsafe_mono; [apply close_socket_gsafe|done].
Qed.

Lemma server_app_ok i : loop_gsafe gated anyhow i (bystander server_app).
Proof.
  split; intros [] o _; [|done]. unfold body_gsafe. cbn [bystander ct_loop ct_waits server_app loop_body].
  unfold server_app_body. eapply gsafe_bind; [apply see_stop_gsafe|]. intros stop ? ->. destruct stop; [done|].
  eapply gsafe_bind; [apply on_ecu_gsafe, tick_gsafe|done].
Qed.

Lemma server_s3_ok i : loop_gsafe gated anyhow i (bystander server_s3).
Proof.
  split; intros [] o _; [|done]. unfold body_gsafe. cbn [bystander ct_loop ct_waits server_s3 loop_body].
  unfold server_s3_body. eapply gsafe_bind; [apply see_stop_gsafe|]. intros stop ? ->. destruct stop; [done|].
  eapply gsafe_bind; [apply on_ecu_gsafe, watch_gsafe|done].
Qed.

Lemma server_signal_ok i : loop_gsafe gated anyhow i (bystander server_signal).
Proof.
  split; intros [] o _; [|done]. unfold body_gsafe. cbn [bystander ct_loop ct_waits server_signal loop_body].
  eapply gsafe_bind; [apply server_signal_gsafe|done].
Qed.

Definition gates_contracts (sigs : nat) : list (contract () server log) :=
  [ bystander server_main; rx_gates; dispatch_gates; bystander server_app; bystander server_s3 ]
  ++ replicate sigs (bystander server_signal).

Lemma gates_contracts_ok sigs : contracts_ok gated anyhow (gates_contracts sigs).
Proof.
  split; [|done..]. intros i ct Hct. unfold gates_contracts in Hct.
  do 5 (destruct i as [|i]; [injection Hct as <-;
    first [apply server_main_ok | apply rx_gates_ok | apply dispatch_gates_ok | apply server_app_ok | apply server_s3_ok]|]).
  change (replicate sigs (bystander server_signal) !! i = Some ct) in Hct.
  apply lookup_replicate in Hct as [-> _]. apply server_signal_ok.
Qed.

Definition no_log : log := Log [] [] [] false.

Lemma server_starting sigs errno :
  starting (gates_contracts sigs) (server_threads sigs errno) (replicate (5 + sigs) no_log).
Proof.
  unfold server_threads, gates_contracts.
  split; [by rewrite !length_app, !length_replicate|]. split; [by rewrite length_app, !length_replicate|].
  intros i ct t o Hct Ht [-> Hi]%lookup_replicate.
  do 5 (destruct i as [|i]; [injection Ht as <-; injection Hct as <-; by eexists|]).
  change (replicate sigs (start server_signal ()) !! i = Some t) in Ht.
  change (replicate sigs (bystander server_signal) !! i = Some ct) in Hct.
  apply lookup_replicate in Ht as [-> _]. apply lookup_replicate in Hct as [-> _]. by eexists.
Qed.

(** Nothing has been earned at the start. *)
Lemma started_gated now k s sigs : server_started now k s → gated s (replicate (5 + sigs) no_log).
Proof.
  intros (He & Hio & Hq). split; [|rewrite Hq; by compute]. exists no_log, no_log.
  split; [done|]. split; [done|]. rewrite He, Hio, Hq. split; [|done].
  split; [done|apply app_engine_init_wf|by left|constructor|done|done|done|by left].
Qed.

Lemma server_reaches now k w sigs errno q :
  server_started now k (obj w) → rtc pool_step (w, server_threads sigs errno) q →
  ∃ gs, gated (obj q.1) gs.
Proof.
  intros Hs Hr.
  destruct (pool_steps_gsafe _ _ _ _ _ (replicate (5 + sigs) no_log) (gates_contracts_ok sigs) Hr) as (gs & Hg & _); [|by exists gs].
  split; [by eapply started_gated|]. apply starting_gsafe; [apply gates_contracts_ok|apply server_starting].
Qed.
End gates.

(** * The property *)

Section properties.
Context {E : Env} {D : Double} {K : Sock} `{!ClockBounded E, !DoubleLaws D, !SockLaws K}.

(** C4: under every schedule the state of the ECU has been earned by
    requests that have arrived and been served, in this order and since the
    last ECUReset: a session other than the default one by a request for it;
    an outstanding seed by a request for a seed after that; an open door by
    the key of a seed drawn for such a request; and an owner name other than
    the one at power-up was written by a request that came after such a key,
    with no reset between.  All but the last ten requests that have arrived
    have been served. *)
Theorem process_gates c (w w1 : world sys) sigs rx d p :
  run (main_setup c) w = Done (None, w1) → rx_ok rx → dispatch_ok d →
  rtc pool_step (w1, threads sigs rx d) p →
  let e := s_state (obj p.1) in
  ∃ past since pending,
    arrivals (n_reads (s_io (obj p.1))) = past ++ since ++ pending ∧ len pending <= UDS_QUEUE_CAP + 2 ∧
    (past = [] ∨ ∃ h m, past = h ++ [m] ∧ resets m = true) ∧ Forall (λ m, resets m = false) since ∧
    (session (state e) ≠ UDS_SESSION_DEFAULT → in_turn [session_request (session (state e))] since) ∧
    phase_earned (phase_of (security (state e))) since ∧
    (owner e = take 9 (c_string "ANONYMOUS") ∨ owner_earned (owner e) (past ++ since)).
Proof.
  intros Hsetup Hrx Hd Hr e. destruct (setup_sim c w w1 sigs rx d Hsetup Hrx Hd) as [Hs Hp].
  destruct (bisimilar_forth _ _ _ p (pool_sim_bisimilar _ _ _ _ Hp) Hr) as (q & Hq & Hb).
  apply bisimilar_view in Hb as [Hw _].
  destruct (server_reaches (now_at w) (oc_socket c) (abs_world abs_sys w1) sigs (rx_errno rx) q Hs Hq) as (gs & [(o & l & _ & _ & Hh & Ha & Hl1 & Hl2) Hlen]).
  rewrite Hw in Hh, Ha, Hlen. destruct Hh as [_ _ Hpast Hsince _ Hse Hph Ho].
  exists (past l), (since l), (current l ++ f_msgs (v_queue (obj (abs_world abs_sys p.1))) ++ current o).
  split; [unfold taken in Ha; rewrite <- !app_assoc in Ha; exact Ha|].
  split; [rewrite !len_app; lia|]. exact (conj Hpast (conj Hsince (conj Hse (conj Hph Ho)))).
Qed.
End properties.

Lemma process_gates_witness :
  ∃ w1 past since, demo_setup = Done (None, w1) ∧
    phase_earned (E:=demo_env) (phase_of (security (state (s_state (obj (demo_signalled w1).1))))) since ∧
    past ++ since `prefix_of` arrivals (K:=demo_sock) (n_reads (s_io (obj (demo_signalled w1).1))).
Proof.
  destruct (main_setup_run (E:=demo_env) demo_calls (demo_sys demo_world uds_queue_init)) as (w1 & Hr & _).
  destruct (process_gates (E:=demo_env) (D:=demo_double) (K:=demo_sock) demo_calls
    (demo_sys demo_world uds_queue_init) w1 1 demo_rx (demo_dispatch uds_msg_zero) (demo_signalled w1)
    Hr demo_rx_ok (demo_dispatch_ok _) (demo_signal w1)) as (h & t & pd & Ha & _ & _ & _ & _ & Hp & _).
  exists w1, h, t. split; [exact Hr|]. split; [exact Hp|]. exists pd. rewrite <- app_assoc. exact Ha.
Defined.
