(* ===== verification/Live.v ===== *)
(** Liveness: under a fair scheduler every request that is read is served,
    as long as the process runs and its reads fail only for a signal or a
    timeout.

    The receive thread completes its iteration unless the queue is full, and
    the dispatcher takes a request in each of its own unless the queue is
    empty; so what has been pushed, and what has been served, catches up with
    any number of requests read. *)

From S2P Require Import Prelude Effects Ghost Fair UdsTypes DtcMem DidTable AppEngine Security Vecu Uds.
From S2P Require Import UdsSpec UdsRefine UdsProps UdsSafe Queue IsotpKernel Threads Main Locks Order.

(** A read fails only for a signal or a timeout. *)
Definition transient_errors {K : Sock} : Prop := ∀ n e, sock_read n = Error e → e = EINTR ∨ e = EAGAIN.

Section live.
Context {E : Env} {D : Double} {K : Sock} `{!ClockBounded E, !DoubleLaws D, !SockLaws K}.
Context (Htransient : transient_errors).

(** Neither stopped nor closed. *)
Record serving (s : sys) : Prop := {
  sv_stop : s_stop s = false;
  sv_queue : closed (s_req_q s) = false;
  sv_sock : 0 <= sock (s_io s)
}.

Lemma serving_stable : stable serving.
Proof.
  split.
  - by intros v s [].
  - intros k s [H1 H2 H3] Hk. split; [done|done|]. simpl. by rewrite Hk.
  - intros q s [H1 H2 H3] Hq. split; [done| |done]. simpl. by rewrite Hq.
Qed.

(** ** No thread leaves its loop *)

Lemma ends_read_stop : ends serving read_stop (λ stop, stop = false).
Proof. intros w b w' Hs Hb. injection Hb as <- _. apply (sv_stop _ Hs). Qed.

Lemma stop_continues {Loc} (p : sprog (ctl * Loc)) l :
  ends serving p (λ r, r.1 = Continue) →
  ends serving (stop ← read_stop; if stop : bool then mret (Break, l) else p) (λ r, r.1 = Continue).
Proof. intros Hp. eapply ends_bind; [apply ends_read_stop|]. by intros ? ->. Qed.

Lemma then_continues {A Loc} (p : sprog A) (l : Loc) :
  ends serving (p;; mret (Continue, l)) (λ r, r.1 = Continue).
Proof. eapply ends_bind; [apply ends_any|]. done. Qed.

(** What a read returns on an open socket. *)
Definition read_result (r : recv_result) : Prop :=
  rv_rc r = 1 ∨ (rv_rc r ≠ 0 ∧ rv_errno r = EAGAIN) ∨
  (rv_rc r = 0 ∧ ∃ n, rv_len r = Some n ∧ 0 <= n <= UDS_MAX_MSG_LEN).

Lemma ends_recv buf errno :
  ends serving (on_io (isotp_kio_recv PTR (Some buf) UDS_MAX_MSG_LEN PTR errno)) read_result.
Proof.
  eapply ends_atomic; [eapply atomic_run; reflexivity|]. intros w r w' [_ _ Hs] Hr0. revert Hr0. rewrite run_on_io.
  unfold isotp_kio_recv. rewrite run_crit. unfold on_obj, isotp_kio_recv_step.
  change (obj (zoom_world io_lens w)) with (s_io (obj w)). rewrite (proj2 (Z.ltb_ge _ _)) by lia.
  destruct (sock_read (n_reads (s_io (obj w)))) as [data|e|] eqn:Hr; [| |done].
  - destruct (memcpy _ _ _ _ _); simpl; [|done..]. intros [= -> _]. right; right. split; [done|].
    eexists. split; [done|]. pose proof (len_nonneg data). unfold UDS_MAX_MSG_LEN. lia.
  - destruct (Z.eqb_spec e EINTR) as [->|Hne]; intros [= -> _]; [by left|]. right; left. split; [done|].
    by destruct (Htransient _ _ Hr).
Qed.

Lemma ends_push buf n :
  1 <= n <= UDS_MAX_MSG_LEN → ends serving (on_queue (uds_queue_push PTR (Some buf) n)) (λ rc, rc = 0).
Proof.
  intros Hn. unfold uds_queue_push. rewrite push_accepts_true by done. cbn [negb].
  eapply ends_atomic; [eapply atomic_run; reflexivity|].
  intros w rc w' [_ Hc _] Hr. rewrite run_on_queue in Hr.
  change (zoom_world queue_lens w) with (World (s_req_q (obj w)) (readings w) (draws w)) in Hr.
  rewrite run_waiting in Hr. destruct (push_waits _); [done|]. unfold push_locked in Hr. rewrite Hc in Hr.
  destruct (push_slot _ _ _); simpl in Hr; [|done..]. by injection Hr.
Qed.

Lemma ends_pop : ends serving (on_queue (uds_queue_pop_blocking PTR PTR)) (λ r, r.1 = 0).
Proof.
  unfold uds_queue_pop_blocking. cbn [is_null orb]. eapply ends_atomic; [eapply atomic_run; reflexivity|].
  intros w r w' [_ Hc _] Hr. rewrite run_on_queue in Hr.
  change (zoom_world queue_lens w) with (World (s_req_q (obj w)) (readings w) (draws w)) in Hr.
  rewrite run_waiting in Hr. unfold pop_waits in Hr. rewrite Hc in Hr. cbn [negb andb] in Hr. unfold pop_locked in Hr.
  destruct (q_count (s_req_q (obj w)) =? 0); [done|]. destruct (pop_slot _) as [[]| |]; simpl in Hr; [|done..].
  by injection Hr as ->.
Qed.

Lemma handle_continues l : ends serving (handle_request l) (λ r, r.1 = Continue).
Proof.
  unfold handle_request. eapply ends_bind; [apply ends_any|]. intros [rc out] _. cbv zeta.
  destruct (rc <? 0); [done|]. destruct (rc =? 1); [done|]. destruct (_ =? 0); [done|]. apply then_continues.
Qed.

Lemma main_stays : loop_stays serving main_thread.
Proof. split; intros l; [apply main_body_keeps|]. apply stop_continues, then_continues. Qed.
Lemma app_stays : loop_stays serving app_thread_main.
Proof. split; intros l; [apply app_body_keeps, serving_stable|]. apply stop_continues, then_continues. Qed.
Lemma s3_stays : loop_stays serving s3_thread_main.
Proof. split; intros l; [apply s3_body_keeps, serving_stable|]. apply stop_continues, then_continues. Qed.

Lemma rx_stays : loop_stays serving rx_thread_main.
Proof.
  split; intros l; [apply rx_body_keeps, serving_stable|]. apply stop_continues.
  eapply ends_bind; [apply ends_recv|]. intros r Hr. cbv zeta. cbn [rx_buf rx_len rx_errno].
  destruct Hr as [->|[[H0 ->]|(-> & n & -> & Hn)]].
  - done.
  - destruct (rv_rc r =? 1); [done|]. rewrite (proj2 (Z.eqb_neq _ _) H0). done.
  - change (0 =? 1) with false. change (0 =? 0) with true. cbn [negb andb default id].
    destruct (Z.eqb_spec n 0) as [|Hne]; [done|]. eapply ends_bind; [apply ends_push; lia|]. by intros ? ->.
Qed.

Lemma dispatch_stays : loop_stays serving dispatch_thread_main.
Proof.
  split; intros l; [apply dispatch_body_keeps, serving_stable|]. apply stop_continues.
  eapply ends_bind; [apply ends_pop|]. intros [rc m] Hrc. simpl in Hrc. subst rc. apply handle_continues.
Qed.

(** ** What the threads eventually do *)

Definition live_contracts : list (contract sys_lock sys piece) := staying <$> ordered_contracts 0.
Definition live (s : sys) (gs : list piece) : Prop := ordered s gs ∧ serving s.

Lemma live_contracts_ok : contracts_ok live progress live_contracts.
Proof.
  destruct (ordered_contracts_ok 0) as [Hl Hr Ht]. split; [|by intros s gs [Ho _]; apply Hr|exact Ht].
  intros i ct Hct. unfold live_contracts in Hct. rewrite list_lookup_fmap in Hct.
  destruct (ordered_contracts 0 !! i) as [ct0|] eqn:H0; [|done]. injection Hct as <-.
  apply loop_gsafe_stays; [by apply Hl|]. unfold ordered_contracts in H0.
  do 5 (destruct i as [|i]; [injection H0 as <-;
    first [apply main_stays | apply rx_stays | apply dispatch_stays | apply app_stays | apply s3_stays]|]).
  done.
Qed.

Lemma rx_contract_at : live_contracts !! 1%nat = Some (staying rx_contract).
Proof. done. Qed.
Lemma dispatch_contract_at : live_contracts !! 2%nat = Some (staying dispatch_contract).
Proof. done. Qed.

Context (pick : nat → nat) (e : nat → pool sys_lock sys) (Hrun : fair_run pick e).
Abbreviation system n gs := (pool_gsafe live progress live_contracts (e n) gs).
Abbreviation leads := (along live progress live_contracts e).

Lemma lead_trans n gs m gs' k gs'' : leads n gs m gs' → leads m gs' k gs'' → leads n gs k gs''.
Proof. apply along_trans, live_contracts_ok. Qed.

(** All requests pushed have been served. *)
Definition caught_up (gs : list piece) : Prop :=
  ∃ d, gs !! 2%nat = Some d ∧ held d = [] ∧ pushed gs = len (finished d).

(** A dispatcher that waits has. *)
Lemma dispatch_waits_caught_up n gs :
  system n gs → waits_at e 2 (staying dispatch_contract) n gs → caught_up gs.
Proof.
  intros [[(Hwf & _ & rx & d & H1 & H2 & [_ Hq _ _ _]) _] _] (o & Ho & He & Hh). rewrite H2 in Ho. injection Ho as ->.
  exists o. split; [done|]. split; [done|]. unfold pushed. rewrite H1. simpl. rewrite Hq. unfold had.
  destruct He as [_ He]. change (contents (s_req_q (obj (e n).1)) = []) in He. by rewrite Hh, He, !app_nil_r.
Qed.

Lemma popped_at gs d : gs !! 2%nat = Some d → popped gs = len (had d).
Proof. intros H. unfold popped. by rewrite H. Qed.

(** The dispatcher takes one more request, or has caught up. *)
Lemma dispatcher_turn n gs :
  system n gs → ∃ m gs', leads n gs m gs' ∧ (popped gs + 1 <= popped gs' ∨ caught_up gs').
Proof.
  intros Hs. destruct (comes_to_head live progress live_contracts live_contracts_ok pick e Hrun 2 _ dispatch_contract_at n gs)
    as (m & gs1 & Hl1 & [Hw|(l & o & Hat & Hl & Hsup)]); [by intros ? ? []|done|..].
  { exists m, gs1. split; [done|]. right. eapply dispatch_waits_caught_up; [apply Hl1|done]. }
  destruct (body_turns live progress live_contracts live_contracts_ok pick e Hrun 2 _ dispatch_contract_at
    (dispatch_body l) m gs1 o
    (λ r o', r.1 = Continue ∧ (dispatch_ok r.2 ∧ Forall suppress_bit (held o')) ∧ len (had o') = len (had o) + 1))
    as (k & gs2 & Hl2 & [Hw|(r & o' & [_ Ho'] & _ & _ & Hh)]).
  - apply Hl1.
  - exact Hat.
  - eapply gsafe_mono; [apply gsafe_keeping; [by apply dispatch_body_gsafe|apply dispatch_stays..]|].
    intros r o' [Hr Hc]. destruct (Hr Hc) as (H1 & H2 & H3). done.
  - intros [[] l'] o' (Hc & Hj & _); [exact Hj|discriminate Hc].
  - exists k, gs2. split; [by eapply lead_trans|]. right. eapply dispatch_waits_caught_up; [apply Hl2|done].
  - exists k, gs2. split; [by eapply lead_trans|]. left. rewrite (popped_at gs2 o') by done.
    pose proof (pg_popped _ _ _ _ (al_rel _ _ _ _ _ _ _ _ Hl1)) as Hp. destruct Hat as [_ Ho].
    rewrite (popped_at gs1 o Ho) in Hp. lia.
Qed.

(** So the first [A] requests pushed are served, *)
Lemma pushed_served A (k : nat) n gs :
  system n gs → A <= pushed gs → A + 1 - Z.of_nat k <= popped gs →
  ∃ m gs' d, leads n gs m gs' ∧ gs' !! 2%nat = Some d ∧ A <= len (finished d).
Proof.
  revert n gs. induction k as [|k IH]; intros n gs Hs Ha Hk.
  - pose proof Hs as [[(_ & _ & rx & d & _ & H2 & [_ _ _ _ Hd]) _] _]. exists n, gs, d.
    split; [by apply along_refl, Hs; apply live_contracts_ok|]. split; [done|].
    rewrite (popped_at gs d H2) in Hk. unfold had in Hk. rewrite len_app in Hk. lia.
  - destruct (dispatcher_turn n gs Hs) as (m & gs1 & Hl & [Hp|(d & Hd & _ & Hc)]).
    + pose proof (pg_pushed _ _ _ _ (al_rel _ _ _ _ _ _ _ _ Hl)).
      destruct (IH m gs1 (al_safe _ _ _ _ _ _ _ _ Hl)) as (m' & gs' & d & Hl' & Hd); [lia..|].
      exists m', gs', d. split; [by eapply lead_trans|done].
    + exists m, gs1, d. split; [done|]. split; [done|].
      pose proof (pg_pushed _ _ _ _ (al_rel _ _ _ _ _ _ _ _ Hl)). lia.
Qed.

(** The receive thread makes one more read, or finds none to make; then it
    has pushed all it has read. *)
Definition all_pushed n gs : Prop :=
  pushed gs = len (arrivals (n_reads (s_io (obj (e n).1)))).

Lemma none_held_pushed n gs rx : system n gs → gs !! 1%nat = Some rx → held rx = [] → all_pushed n gs.
Proof.
  intros [[(_ & _ & rx' & d & H1 & _ & [Ha _ _ _ _ _]) _] _] Hrx Hh. rewrite Hrx in H1. injection H1 as <-.
  unfold all_pushed, pushed. rewrite Hrx. simpl. rewrite Ha. unfold had. by rewrite Hh, app_nil_r.
Qed.

Lemma recvs_at n gs rx : system n gs → gs !! 1%nat = Some rx → recvs rx = n_reads (s_io (obj (e n).1)).
Proof.
  intros [[(_ & _ & rx' & d & H1 & _ & [_ _ _ Hc _ _]) Hsv] _] Hrx. rewrite Hrx in H1. injection H1 as <-.
  destruct Hc as [|Hc]; [done|]. pose proof (sv_sock _ Hsv). lia.
Qed.

(** A full queue holds requests that the dispatcher has yet to take. *)
Lemma full_behind n gs :
  system n gs → queue_full (obj (e n).1) →
  popped gs + UDS_QUEUE_CAP <= pushed gs <= len (arrivals (n_reads (s_io (obj (e n).1)))).
Proof.
  intros [[(_ & _ & rx & d & H1 & H2 & [Ha Hq _ _ _ _]) _] _] [_ Hf].
  change (len (contents (s_req_q (obj (e n).1))) = UDS_QUEUE_CAP) in Hf.
  rewrite (popped_at gs d H2). unfold pushed. rewrite H1. simpl. unfold had in Ha. rewrite Ha, Hq, !len_app.
  pose proof (len_nonneg (held rx)). lia.
Qed.

Lemma turn_makes_room n gs :
  system n gs → queue_full (obj (e n).1) → ∃ m gs', leads n gs m gs' ∧ popped gs + 1 <= popped gs'.
Proof.
  intros Hs Hfull. pose proof (full_behind n gs Hs Hfull) as Hb. unfold UDS_QUEUE_CAP in Hb.
  destruct (dispatcher_turn n gs Hs) as (m & gs' & Hl & Hturn). exists m, gs'. split; [done|].
  destruct Hturn as [|(d & Hd & Hh & Hc)]; [done|]. rewrite (popped_at gs' d Hd). unfold had.
  rewrite Hh, app_nil_r, <- Hc. pose proof (pg_pushed _ _ _ _ (al_rel _ _ _ _ _ _ _ _ Hl)). lia.
Qed.

(** One read, no room for one, or none to make. *)
Lemma rx_iteration n gs :
  system n gs →
  ∃ m gs', leads n gs m gs' ∧
    (queue_full (obj (e m).1) ∨
     all_pushed m gs' ∧ ((n_reads (s_io (obj (e n).1)) < n_reads (s_io (obj (e m).1)))%nat ∨ bus_quiet (obj (e m).1))).
Proof.
  intros Hs.
  assert (Hwaits : ∀ m gs', system m gs' → waits_at e 1 (staying rx_contract) m gs' →
    queue_full (obj (e m).1) ∨ (all_pushed m gs' ∧ bus_quiet (obj (e m).1))).
  { intros m gs' Hs' (o & Ho & [Hf|[Hq Hh]]); [by left|right]. split; [by eapply none_held_pushed|done]. }
  destruct (comes_to_head live progress live_contracts live_contracts_ok pick e Hrun 1 _ rx_contract_at n gs)
    as (m & gs1 & Hl1 & [Hw|(l & o & Hat & Hl & Hh)]); [by intros ? ? []|done|..].
  { exists m, gs1. split; [done|]. destruct (Hwaits _ _ (al_safe _ _ _ _ _ _ _ _ Hl1) Hw) as [|[]]; tauto. }
  destruct (body_turns live progress live_contracts live_contracts_ok pick e Hrun 1 _ rx_contract_at
    (rx_body l) m gs1 o (λ r o', r.1 = Continue ∧ (rx_ok r.2 ∧ held o' = []) ∧ recvs o' = S (recvs o)))
    as (k & gs2 & Hl2 & Hend).
  - apply Hl1.
  - exact Hat.
  - eapply gsafe_mono; [apply gsafe_keeping; [by apply rx_body_gsafe|apply (rx_stays)..]|].
    intros r o' [Hr Hc]. destruct (Hr Hc) as (H1 & H2 & H3). done.
  - intros [[] l'] o' (Hc & Hj & _); [exact Hj|discriminate Hc].
  - exists k, gs2. split; [by eapply lead_trans|]. pose proof (al_safe _ _ _ _ _ _ _ _ Hl2) as Hs2.
    destruct Hend as [Hw|(r & o' & [_ Ho'] & _ & [_ Hh'] & Hc)];
      [destruct (Hwaits _ _ Hs2 Hw) as [|[]]; tauto|right].
    split; [by eapply none_held_pushed|]. left. rewrite <- (recvs_at k gs2 o' Hs2 Ho'), Hc.
    destruct Hat as [_ Ho]. rewrite (recvs_at m gs1 o (al_safe _ _ _ _ _ _ _ _ Hl1) Ho).
    pose proof (pg_reads _ _ _ _ (al_rel _ _ _ _ _ _ _ _ Hl1)). lia.
Qed.

(** Room is made until it has made its read. *)
Lemma rx_reads (k : nat) n gs :
  system n gs → len (arrivals (n_reads (s_io (obj (e n).1)))) - Z.of_nat k <= popped gs →
  ∃ m gs', leads n gs m gs' ∧ 
    ((n_reads (s_io (obj (e n).1)) < n_reads (s_io (obj (e m).1)))%nat ∨ all_pushed m gs' ∧ bus_quiet (obj (e m).1)).
Proof.
  revert n gs. induction k as [|k IH]; intros n gs Hs Hk;
    destruct (rx_iteration n gs Hs) as (m & gs1 & Hl1 & [Hfull|[Hp Hend]]);
    try (exists m, gs1; split; [done|tauto]);
    pose proof (al_safe _ _ _ _ _ _ _ _ Hl1) as Hs1; pose proof (al_rel _ _ _ _ _ _ _ _ Hl1) as [Hr1 _ Hp1];
    (destruct (decide (n_reads (s_io (obj (e n).1)) = n_reads (s_io (obj (e m).1)))) as [Hsame|Hmore];
     [|exists m, gs1; split; [done|left; lia]]).
  - pose proof (full_behind m gs1 Hs1 Hfull) as Hb. rewrite <- Hsame in Hb. unfold UDS_QUEUE_CAP in Hb. lia.
  - destruct (turn_makes_room m gs1 Hs1 Hfull) as (j & gs2 & Hl2 & Hp2).
    pose proof (al_rel _ _ _ _ _ _ _ _ Hl2) as [Hr2 _ _].
    assert (Hl : leads n gs j gs2) by (by eapply lead_trans).
    destruct (decide (n_reads (s_io (obj (e n).1)) = n_reads (s_io (obj (e j).1)))) as [Hsame2|];
      [|exists j, gs2; split; [done|left; lia]].
    destruct (IH j gs2 (al_safe _ _ _ _ _ _ _ _ Hl2)) as (i & gs3 & Hl3 & Hend); [rewrite <- Hsame2; lia|].
    exists i, gs3. split; [by eapply lead_trans|]. by rewrite Hsame2.
Qed.
(** So the first [N] reads are made, if they return, *)
Lemma reads_made (k : nat) N n gs :
  (∀ j, (j < N)%nat → sock_read j ≠ Quiet) → system n gs → (N <= n_reads (s_io (obj (e n).1)) + k)%nat →
  ∃ m gs', leads n gs m gs' ∧ (N <= n_reads (s_io (obj (e m).1)))%nat.
Proof.
  intros Hreturn. revert n gs. induction k as [|k IH]; intros n gs Hs Hk.
  - exists n, gs. split; [by apply along_refl, Hs; apply live_contracts_ok|lia].
  - set (A := len (arrivals (n_reads (s_io (obj (e n).1))))).
    destruct (rx_reads (Z.to_nat A) n gs Hs) as (m & gs1 & Hl & Hend).
    { pose proof (len_nonneg (had (default no_piece (gs !! 2%nat)))). fold (popped gs) in *. unfold A, len in *. lia. }
    destruct Hend as [Hmore|[_ Hq]].
    + destruct (IH m gs1 (al_safe _ _ _ _ _ _ _ _ Hl)) as (j & gs2 & Hl2 & Hj); [lia|].
      exists j, gs2. split; [by eapply lead_trans|done].
    + exists m, gs1. split; [done|].
      destruct (decide (N <= n_reads (s_io (obj (e m).1)))%nat) as [|Hlt]; [done|]. destruct (Hreturn (n_reads (s_io (obj (e m).1)))); [lia|exact Hq].
Qed.

(** and what has been read is pushed. *)
Lemma read_pushed A (k : nat) n gs :
  system n gs → A <= len (arrivals (n_reads (s_io (obj (e n).1)))) → A - Z.of_nat k <= popped gs →
  ∃ m gs', leads n gs m gs' ∧ A <= pushed gs'.
Proof.
  revert n gs. induction k as [|k IH]; intros n gs Hs Ha Hk.
  - exists n, gs. split; [by apply along_refl, Hs; apply live_contracts_ok|].
    pose proof Hs as [[(_ & _ & rx & d & H1 & H2 & [_ Hq _ _ _ _]) _] _].
    rewrite (popped_at gs d H2) in Hk. unfold pushed. rewrite H1. simpl. rewrite Hq, len_app.
    pose proof (len_nonneg (contents (s_req_q (obj (e n).1)))). lia.
  - destruct (rx_iteration n gs Hs) as (m & gs1 & Hl1 & [Hfull|[Hp _]]);
      pose proof (al_safe _ _ _ _ _ _ _ _ Hl1) as Hs1; pose proof (al_rel _ _ _ _ _ _ _ _ Hl1) as [Hr1 _ Hp1];
      pose proof (len_prefix _ _ (arrivals_prefix _ _ Hr1)) as Hmono.
    + destruct (turn_makes_room m gs1 Hs1 Hfull) as (j & gs2 & Hl2 & Hp2).
      pose proof (al_rel _ _ _ _ _ _ _ _ Hl2) as [Hr2 _ _]. pose proof (len_prefix _ _ (arrivals_prefix _ _ Hr2)).
      destruct (IH j gs2 (al_safe _ _ _ _ _ _ _ _ Hl2)) as (i & gs3 & Hl3 & Hend); [lia..|].
      exists i, gs3. split; [|done]. by do 2 (eapply lead_trans; [done|]).
    + exists m, gs1. split; [done|]. rewrite Hp. lia.
Qed.

Lemma system_at n gs : system 0 gs → ∃ gs', system n gs'.
Proof.
  intros Hs. induction n as [|n [gs' IH]]; [by exists gs|].
  destruct (along_step live progress live_contracts live_contracts_ok pick e Hrun n gs' IH) as (gs2 & Hl & _).
  exists gs2. apply Hl.
Qed.

Lemma reads_served N n gs :
  (∀ j, (j < N)%nat → sock_read j ≠ Quiet) → system n gs →
  ∃ m gs' d, leads n gs m gs' ∧ gs' !! 2%nat = Some d ∧
    (N <= n_reads (s_io (obj (e m).1)))%nat ∧ len (arrivals N) <= len (finished d).
Proof.
  intros Hreturn Hs. assert (Hp : ∀ gs, 0 <= popped gs) by (intros; apply len_nonneg).
  destruct (reads_made N N n gs Hreturn Hs) as (m & gs1 & Hl1 & Hm); [lia|].
  pose proof (len_prefix _ _ (arrivals_prefix _ _ Hm)) as Ha.
  remember (len (arrivals N)) as A eqn:HA. assert (0 <= A) by (subst A; apply len_nonneg).
  destruct (read_pushed A (Z.to_nat A) m gs1) as (i & gs2 & Hl2 & Ha2); [apply Hl1|done|specialize (Hp gs1); lia|].
  destruct (pushed_served A (Z.to_nat (A + 1)) i gs2) as (k & gs3 & d & Hl3 & Hg & Hd); [apply Hl2|done|specialize (Hp gs2); lia|].
  exists k, gs3, d. assert (Hl : leads m gs1 k gs3) by (by eapply lead_trans).
  split; [by eapply lead_trans|]. split; [done|]. split; [|done].
  pose proof (al_rel _ _ _ _ _ _ _ _ Hl) as [Hr _ _]. lia.
Qed.

(** The ghost state after start-up. *)
Lemma setup_live c (w w1 : world sys) rx d :
  run (main_setup c) w = Done (None, w1) → s_stop (obj w) = false → rx_ok rx → dispatch_ok d →
  pool_gsafe live progress live_contracts (w1, threads 0 rx d) (no_pieces 0).
Proof.
  intros Hsetup Hst Hrx Hd. pose proof (setup_ordered c w w1 0 rx d Hsetup Hrx Hd) as (Ho & _).
  destruct (main_setup_run c w) as (w' & Hr' & Hst' & Hok). rewrite Hsetup in Hr'.
  destruct (calls_ok c) eqn:Hc; [|done]. injection Hr' as <-. destruct (Hok eq_refl) as (_ & _ & Hq & Hio).
  split; [split; [exact Ho|]|].
  - split; cbn [fst]; [by rewrite Hst'|by rewrite Hq|]. rewrite Hio. simpl. unfold calls_ok in Hc. lia.
  - apply starting_gsafe; [apply live_contracts_ok|]. apply starting_staying. exact (threads_starting 0 rx d Hrx Hd).
Qed.
End live.

Lemma demo_sock_transient : transient_errors (K:=demo_sock).
Proof. intros [|n] e H; [done|]. injection H as <-. by right. Qed.

Lemma demo_sock_returns N j : (j < N)%nat → sock_read (Sock:=demo_sock) j ≠ Quiet.
Proof. by destruct j. Qed.

(** * Properties *)

Section properties.
Context {E : Env} {D : Double} {K : Sock} `{!ClockBounded E, !DoubleLaws D, !SockLaws K}.

(** C5: every request is eventually served: under a fair scheduler, as long
    as no signal comes and reads fail only for a signal or a timeout, for
    every [N] there is an instant, as late as one likes, at which the
    requests delivered by the first [N] reads of the socket (if these return)
    have all been served in order, each answered by one response of its own
    service, or by none if its suppress bit is set. *)
Theorem every_request_served c (w w1 : world sys) rx d pick (e : nat → pool sys_lock sys) N n :
  run (main_setup c) w = Done (None, w1) → s_stop (obj w) = false → rx_ok rx → dispatch_ok d →
  transient_errors → (∀ j, (j < N)%nat → sock_read j ≠ Quiet) →
  fair_run pick e → e O = (w1, threads 0 rx d) →
  ∃ m served pending, (n <= m)%nat ∧
    arrivals (n_reads (s_io (obj (e m).1))) = served ++ pending ∧
    answered served (sent (s_io (obj (e m).1))) ∧ arrivals N `prefix_of` served.
Proof.
  intros Hsetup Hst Hrx Hd Htr Hreturn Hrun He.
  destruct (system_at Htr pick e Hrun n (no_pieces 0)) as (gs & Hs); [rewrite He; by eapply setup_live|].
  destruct (reads_served Htr pick e Hrun N n gs Hreturn Hs) as (m & gs' & dp & Hl & Hdp & HN & Hlen).
  pose proof (al_safe _ _ _ _ _ _ _ _ Hl) as [[(_ & _ & rxo & dp' & _ & Hdp' & [Ha Hq Hans _ _ _]) Hsv] _].
  rewrite Hdp in Hdp'. injection Hdp' as <-. destruct Hans as (sv & lo & Hf & Hans & Hlo).
  destruct Hlo as [->|Hlo]; [|pose proof (sv_sock _ Hsv); lia]. rewrite app_nil_r in Hf. subst sv.
  pose proof (arrivals_prefix _ _ HN) as Hn.
  assert (Harr : arrivals (n_reads (s_io (obj (e m).1))) =
                 finished dp ++ (held dp ++ contents (s_req_q (obj (e m).1)) ++ held rxo)).
  { rewrite Ha. unfold had in *. by rewrite Hq, <- !app_assoc. }
  exists m, (finished dp), (held dp ++ contents (s_req_q (obj (e m).1)) ++ held rxo).
  split; [apply Hl|]. split; [done|]. split; [done|]. rewrite Harr in Hn. exact (prefix_shorter _ _ _ Hn Hlen).
Qed.
End properties.

(** Every thread in turn: the TesterPresent that arrives is answered. *)
Lemma every_request_served_witness :
  ∃ w1, demo_setup = Done (None, w1) ∧
    let e := round_robin 5 (w1, threads (E:=demo_env) (D:=demo_double) (K:=demo_sock) 0 demo_rx (demo_dispatch uds_msg_zero)) in
    ∃ m served, answered served (sent (s_io (obj (e m).1))) ∧ [[0x3E; 0x00]] `prefix_of` served.
Proof.
  destruct (main_setup_run (E:=demo_env) demo_calls (demo_sys demo_world uds_queue_init)) as (w1 & Hr & _).
  exists w1. split; [exact Hr|].
  destruct (every_request_served (E:=demo_env) (D:=demo_double) (K:=demo_sock) demo_calls
    (demo_sys demo_world uds_queue_init) w1 demo_rx (demo_dispatch uds_msg_zero) _ _ 1%nat O
    Hr eq_refl demo_rx_ok (demo_dispatch_ok _) demo_sock_transient (demo_sock_returns 1)
    (round_robin_fair (w1, threads (E:=demo_env) (D:=demo_double) (K:=demo_sock) 0 demo_rx (demo_dispatch uds_msg_zero)))
    eq_refl) as (m & sv & pd & _ & _ & H2 & H3).
  exists m, sv. split; [exact H2|exact H3].
Defined.
