(* ===== verification/Timeout.v ===== *)
(** The S3 timer under a fair scheduler: a tester that falls silent loses its
    session, unless the process is told to stop first.

    Nothing is assumed of the bus or of the other threads: reads may fail or
    never return, the queue may be full or closed, and any number of signals
    may come at any time.  The first one handled ends the S3 thread. *)

From S2P Require Import Prelude Effects Ghost Fair UdsTypes DtcMem DidTable AppEngine Security Vecu Uds.
From S2P Require Import UdsSpec UdsRefine UdsProps UdsSafe Queue IsotpKernel Threads Main.

Section timeout.
Context {E : Env} {D : Double} {K : Sock} `{!ClockBounded E, !DoubleLaws D, !SockLaws K}.

Definition cur_session (s : sys) : Z := session (state (s_state s)).
(** The last sign of life of the tester. *)
Definition last_seen (s : sys) : Z := last_tester_present_ms (state (s_state s)).

(** ** The threads by their safety alone *)

Definition plain_contracts (sigs : nat) : list (contract sys_lock sys ()) :=
  [ frame_contract (λ _, True) (λ _, True) main_thread; frame_contract rx_waits rx_ok rx_thread_main;
    frame_contract queue_empty dispatch_ok dispatch_thread_main; frame_contract never (λ _, True) app_thread_main;
    frame_contract never (λ _, True) s3_thread_main ] ++
  replicate sigs (frame_contract never (λ _, True) signal_thread).

Definition well_formed (s : sys) (gs : list ()) : Prop := sys_wf s.
Definition any_move (s : sys) (gs : list ()) (s' : sys) (gs' : list ()) : Prop := True.

Lemma plain_ok i mb {Loc} (P : Loc → Prop) (l : loop sys_lock sys Loc) :
  loop_safe mb sys_wf P l → loop_gsafe well_formed any_move i (frame_contract mb P l).
Proof.
  intros Hsafe. apply (frame_loop_gsafe _ _ i mb sys_wf (λ _ _, True)); [done..|intros loc|intros loc];
    (eapply guarded_mono; [|apply guarded_true]; done).
Qed.

Lemma plain_contracts_ok sigs : contracts_ok well_formed any_move (plain_contracts sigs).
Proof.
  split; [|done|done]. intros i ct Hct. unfold plain_contracts in Hct.
  destruct i as [|[|[|[|[|i]]]]]; [injection Hct as <-; apply plain_ok..|];
    [apply main_thread_safe|apply rx_thread_safe|apply dispatch_thread_safe|apply app_thread_safe|apply s3_thread_safe|].
  apply lookup_replicate in Hct as [-> _]. apply plain_ok, signal_thread_safe.
Qed.

Lemma plain_start sigs rx d w :
  rx_ok rx → dispatch_ok d → sys_wf (obj w) →
  pool_gsafe well_formed any_move (plain_contracts sigs) (w, threads sigs rx d) (replicate (5 + sigs) ()).
Proof.
  intros Hrx Hd Hwf. split; [done|]. apply starting_gsafe; [apply plain_contracts_ok|].
  split; [simpl; by rewrite !length_replicate|]. split; [simpl; by rewrite !length_replicate|].
  intros i ct t o Hct Ht _. unfold plain_contracts in Hct. unfold threads in Ht.
  destruct i as [|[|[|[|[|i]]]]]; [injection Ht as <-; injection Hct as <-; eexists; by split..|].
  apply lookup_replicate in Hct as [-> _], Ht as [-> _]. by exists ().
Qed.

(** ** The S3 thread stays until the flag is set *)

Definition not_stopped (s : sys) : Prop := s_stop s = false.

Lemma s3_stays_until_stop : thread_stays not_stopped (start s3_thread_main ()).
Proof.
  assert (Hb : ∀ loc, goes_on not_stopped (s3_body loc)); [|exact (conj Hb (Hb ()))].
  intros loc. unfold goes_on, s3_body.
  apply (ends_bind _ _ _ (λ stop, stop = false)); [by intros w b w' Hw [= <- _]|].
  intros ? ->. apply (ends_bind _ _ _ (λ _, True)); [apply ends_any|done].
Qed.

(** In an execution the flag is set, or the S3 thread is in its loop. *)
Lemma s3_stays_along sigs rx d w pick e :
  fair_run pick e → e O = (w, threads sigs rx d) →
  ∀ m, stopped (obj (e m).1) ∨ ∃ t, (e m).2 !! 4%nat = Some t ∧ thread_stays not_stopped t.
Proof.
  intros Hrun He m. destruct (s_stop (obj (e m).1)) eqn:Hst; [by left|right].
  induction m as [|m IH].
  - rewrite He. eexists. split; [reflexivity|apply s3_stays_until_stop].
  - destruct (s_stop (obj (e m).1)) eqn:Hm.
    + assert (Hr : stopped (obj (e (S m)).1)); [|unfold stopped in Hr; congruence].
      eapply (pool_steps_kept stopped (e m)); [eapply fair_run_steps; [exact Hrun|lia]| |exact Hm].
      pose proof (fair_run_steps _ _ O m Hrun ltac:(lia)) as H0. rewrite He in H0.
      eapply Forall_impl; [exact (pool_keeps_all _ _ _ _ _ H0)|].
      intros t Ht. apply Ht; [apply stopped_persistent|intros s _; reflexivity].
    + destruct (IH eq_refl) as (t & Ht & Hs). eapply sched_step_stays; [apply (fr_step _ _ Hrun m)|exact Hm|exact Ht|exact Hs].
Qed.

(** ** The check *)

(** The session has been reverted, the tester has shown up, or the process
    has been told to stop. *)
Definition reverted (t0 : Z) (s : sys) : Prop :=
  cur_session s = UDS_SESSION_DEFAULT ∨ last_seen s ≠ t0 ∨ stopped s.

Record idle (t0 : Z) (w : world sys) : Prop := {
  id_wf : sys_wf (obj w);
  id_running : not_stopped (obj w);
  id_session : cur_session (obj w) ≠ UDS_SESSION_DEFAULT;
  id_seen : last_seen (obj w) = t0;
  id_late : t0 + S3_TIMEOUT_MS < now_at w
}.

Lemma idle_expired t0 w : idle t0 w → s3_expired (now_at w) t0 = true.
Proof.
  intros [Hwf _ _ Hseen Hlate]. pose proof (ewf_last_tp _ (sw_state _ Hwf)) as Ht. unfold last_seen in Hseen.
  pose proof (now_bounded w). unfold s3_expired. unfold S3_TIMEOUT_MS, SECURITY_LOCK_DURATION_MS in *.
  rewrite u64_id by lia. apply Z.gtb_lt. lia.
Qed.

Lemma s3_body_drives t0 : drives (idle t0) (reverted t0) (s3_body ()).
Proof.
  intros w [_ Hsv _ _ _]. simpl. unfold not_stopped in Hsv. rewrite Hsv. right.
  intros w1 [_ _ Hs1 _ _]. right. simpl. fold (cur_session (obj w1)). rewrite (proj2 (Z.eqb_neq _ _) Hs1). simpl.
  intros w2 Hw2. right. intros w3 [_ _ _ Hseen _]. right. simpl. fold (last_seen (obj w3)). rewrite Hseen.
  change (u64 (ms_of_timespec (clock_gettime (readings w2)) - t0) >? S3_TIMEOUT_MS) with (s3_expired (now_at w2) t0).
  rewrite (idle_expired t0 w2 Hw2). intros w4 _. left. by left.
Qed.
End timeout.

(** * Properties *)

Section properties.
Context {E : Env} {D : Double} {K : Sock} `{!ClockBounded E, !DoubleLaws D, !SockLaws K}.

(** C15: a tester that falls silent loses its session, under every fair
    scheduler, whatever the bus does and whenever signals come: once every
    clock reading shows more than 5000 ms since the last sign of life, there is
    an instant at which the session is the default one, unless the tester shows
    a new sign of life or a signal sets the stop flag, upon which the S3 thread
    ends. *)
Theorem s3_eventually_reverts sigs rx d w pick (e : nat → pool sys_lock sys) n :
  rx_ok rx → dispatch_ok d → sys_wf (obj w) →
  fair_run pick e → e O = (w, threads sigs rx d) →
  (∀ m, (n <= m)%nat → last_seen (obj (e n).1) + S3_TIMEOUT_MS < now_at (e m).1) →
  ∃ m, (n <= m)%nat ∧
    (cur_session (obj (e m).1) = UDS_SESSION_DEFAULT ∨ last_seen (obj (e m).1) ≠ last_seen (obj (e n).1) ∨
     s_stop (obj (e m).1) = true).
Proof.
  intros Hrx Hd Hwf Hrun He Hlate. pose proof (plain_contracts_ok sigs) as Hok. set (t0 := last_seen (obj (e n).1)).
  assert (Hsys : ∀ m, ∃ gs, pool_gsafe well_formed any_move (plain_contracts sigs) (e m) gs).
  { intros m. eapply pool_steps_gsafe; [exact Hok|exact (fair_run_steps _ _ O m Hrun ltac:(lia))|].
    rewrite He. by apply plain_start. }
  assert (Hct : plain_contracts sigs !! 4%nat = Some (frame_contract never (λ _, True) s3_thread_main)) by done.
  destruct (Hsys n) as [gs Hp].
  destruct (comes_to_head_unless _ _ _ Hok pick e Hrun 4 _ Hct (reverted t0) n gs)
    as [Hx|(m & gs' & Hal & Hend)]; [|exact Hp|exact Hx|].
  { intros m _. destruct (s3_stays_along _ _ _ _ _ _ Hrun He m) as [Hst|(t & Ht & Hs)]; [by left; right; right|].
    right. exists t. split; [exact Ht|by eapply thread_stays_in]. }
  pose proof (al_later _ _ _ _ _ _ _ _ Hal) as Hle. destruct Hend as [(o & _ & [])|([] & o & Hat & _)].
  destruct (drives_turns _ _ _ Hok pick e Hrun 4 _ Hct (idle t0) (reverted t0) (s3_body ()) m gs' o) as (k & Hk & Hx).
  - intros j Hj. destruct (s_stop (obj (e j).1)) eqn:Hst; [by left; right; right|].
    destruct (decide (cur_session (obj (e j).1) = UDS_SESSION_DEFAULT)) as [|Hs]; [by left; left|].
    destruct (decide (last_seen (obj (e j).1) = t0)) as [Hl|]; [right|by left; right; left].
    destruct (Hsys j) as [gsj [Hwfj _]]. split; [done|done|done|done|]. apply Hlate. lia.
  - apply Hal.
  - exact Hat.
  - apply s3_body_drives.
  - exists k. split; [lia|exact Hx].
Qed.
End properties.

(** * The property at a concrete input

    An extended session, a clock that is far beyond its last sign of life, a
    bus that is down, and no signal. *)

Definition late_env : Env := {| clock_gettime n := Timespec 3600 0; getrandom n := (4, 0) |}.

#[export] Instance late_clock_bounded : ClockBounded late_env.
Proof. intros n. by vm_compute. Qed.

Definition down_sock : Sock := {| sock_read n := Error 100; sock_write n m := -1 |}.

#[export] Instance down_sock_laws : SockLaws down_sock.
Proof. by split. Qed.

Definition demo_idle : world sys := demo_sys demo_extended uds_queue_init.
Abbreviation idle_pool :=
  (demo_idle, threads (E:=late_env) (D:=demo_double) (K:=down_sock) 0 demo_rx (demo_dispatch uds_msg_zero)).
Abbreviation idle_run := (round_robin 5 idle_pool).

Lemma s3_eventually_reverts_witness :
  cur_session (obj demo_idle) = UDS_SESSION_EXTENDED ∧
  ∃ m, cur_session (obj (idle_run m).1) = UDS_SESSION_DEFAULT ∨ last_seen (obj (idle_run m).1) ≠ 0.
Proof.
  split; [by vm_compute|].
  destruct (s3_eventually_reverts (E:=late_env) (D:=demo_double) (K:=down_sock) 0 demo_rx (demo_dispatch uds_msg_zero)
    demo_idle _ idle_run O demo_rx_ok (demo_dispatch_ok _)
    (demo_sys_wf _ _ demo_extended_wf uds_queue_init_wf) (round_robin_fair idle_pool) eq_refl) as (m & _ & Hm).
  - intros m _. by vm_compute.
  - exists m. destruct Hm as [Hm|[Hm|Hst]]; [by left|by right|exfalso].
    assert (Hno : not_stopped (obj (idle_run m).1)); [|unfold not_stopped in Hno; congruence].
    eapply (pool_steps_kept not_stopped idle_pool);
      [exact (fair_run_steps _ _ O m (round_robin_fair idle_pool) ltac:(lia))| |reflexivity].
    apply Forall_app. split; [apply workers_keep; by repeat split|constructor].
Defined.
