(* ===== verification/CanIo.v ===== *)
(** [src/can_io.c] and [include/can_io.h]: raw CAN frames over SocketCAN.

    The kernel's side is explicit: the answers it will give to the [read]s of
    the socket, in order (a [read] beyond them never returns), and, as a
    parameter [CanBus], the result of each [write].  The frames handed to
    [write] are recorded. *)

From S2P Require Import Prelude Effects.

Definition CAN_IO_IFNAME_MAX : Z := 16.
Definition CAN_SFF_MASK : Z := 0x7FF.

(** [struct can_frame]; its size is 16. *)
Record can_frame := CanFrame { can_id : Z; can_dlc : Z; f_data : bytes }.
Definition sizeof_can_frame : Z := 16.

#[export] Instance can_frame_eq_dec : EqDecision can_frame.
Proof. solve_decision. Defined.

(** [memset(&f, 0, sizeof(f))] *)
Definition can_frame_zero : can_frame := CanFrame 0 0 (replicate 8 0).

(** One [read]: a frame, fewer bytes than a frame, or an error. *)
Inductive can_read : Type :=
| FrameRead (f : can_frame)
| ShortRead (n : Z)
| ReadError (errno : Z).

Class CanBus := {
  (* the result of the [n]-th [write] of a frame *)
  can_write : nat → can_frame → Z
}.

Record can_io_t := CanIo {
  io_sock : Z;
  io_ifname : bytes;
  io_rx : list can_read;       (* the reads the kernel will answer *)
  io_writes : nat;
  io_tx : list can_frame       (* the frames handed to [write] *)
}.

(** [strncpy(dst, name, n)] for a string without its terminator. *)
Definition strncpy (name : bytes) (n : Z) : bytes :=
  let s := take (Z.to_nat n) name in s ++ replicate (Z.to_nat (n - len s)) 0.

(** The system calls of [can_io_open] by their results. *)
Record can_open_calls := CanOpenCalls { co_socket : Z; co_ifindex : Z; co_bind : Z }.

(** The return code, the descriptor and the name left in [*io], and the
    descriptors closed. *)
Definition can_io_open (io : ptr) (ifname : option bytes) (c : can_open_calls) (sock0 : Z) (name0 : bytes)
  : Z * Z * bytes * list Z :=
  match io, ifname with
  | PTR, Some ifname =>
      let name := strncpy ifname (CAN_IO_IFNAME_MAX - 1) ++ [0] in
      let s := co_socket c in
      if s <? 0 then (-1, -1, name, [])
      else if co_ifindex c =? 0 then (-1, -1, name, [s])
      else if co_bind c <? 0 then (-1, -1, name, [s])
      else (0, s, name, [])
  | _, _ => (-1, sock0, name0, [])
  end.

Section operations.
Context {E : Env} {B : CanBus}.

(** The return code, and the frame if a whole one was read. *)
Definition can_io_recv (io frame : ptr) : cs can_io_t (Z * option can_frame) := λ w,
  let io_s := obj w in
  if is_null io || is_null frame || (io_sock io_s <? 0) then Done ((-1, None), w) else
  match io_rx io_s with
  | [] => Blocked
  | r :: rx =>
      let w' := World (CanIo (io_sock io_s) (io_ifname io_s) rx (io_writes io_s) (io_tx io_s))
                      (readings w) (draws w) in
      match r with
      | ReadError e => if e =? EINTR then Done ((1, None), w') else Done ((-1, None), w')
      | ShortRead n => Done ((-1, None), w')
      | FrameRead f => Done ((0, Some f), w')
      end
  end.

Definition can_io_send (io : ptr) (frame : option can_frame) : cs can_io_t Z := λ w,
  let io_s := obj w in
  match io, frame with
  | PTR, Some f =>
      if io_sock io_s <? 0 then Done (-1, w) else
      let w' := World (CanIo (io_sock io_s) (io_ifname io_s) (io_rx io_s) (S (io_writes io_s)) (io_tx io_s ++ [f]))
                      (readings w) (draws w) in
      if can_write (io_writes io_s) f !=? sizeof_can_frame then Done (-1, w') else Done (0, w')
  | _, _ => Done (-1, w)
  end.

Definition can_io_close (io : ptr) : cs can_io_t () :=
  if is_null io then mret () else
  modify (λ s, CanIo (-1) (io_ifname s) (io_rx s) (io_writes s) (io_tx s)).
End operations.

(** Reading a stored name stops inside the object, whatever its length. *)
Lemma strncpy_len name n : 0 <= n → len (strncpy name n) = n.
Proof.
  intros Hn. unfold strncpy. autorewrite with vlen. unfold len. rewrite length_take. lia.
Qed.

Lemma can_io_open_cases ifname c sock0 name0 :
  let '(rc, s, name, cl) := can_io_open PTR (Some ifname) c sock0 name0 in
  len name = CAN_IO_IFNAME_MAX ∧ ld name (CAN_IO_IFNAME_MAX - 1) = Done 0 ∧
  if (0 <=? co_socket c) && negb (co_ifindex c =? 0) && (0 <=? co_bind c) then rc = 0 ∧ s = co_socket c ∧ cl = []
  else rc = -1 ∧ s = -1 ∧ cl = (if 0 <=? co_socket c then [co_socket c] else []).
Proof.
  unfold can_io_open. rewrite !Z.ltb_antisym.
  assert (Hl : len (strncpy ifname (CAN_IO_IFNAME_MAX - 1)) = CAN_IO_IFNAME_MAX - 1) by (by apply strncpy_len).
  assert (H1 : len (strncpy ifname (CAN_IO_IFNAME_MAX - 1) ++ [0]) = CAN_IO_IFNAME_MAX)
    by (rewrite len_app, Hl; done).
  assert (H2 : ld (strncpy ifname (CAN_IO_IFNAME_MAX - 1) ++ [0]) (CAN_IO_IFNAME_MAX - 1) = Done 0)
    by (by apply ld_app_mid).
  by destruct (0 <=? co_socket c), (co_ifindex c =? 0), (0 <=? co_bind c).
Qed.
