(* ===== verification/Isotp.v ===== *)
(** [src/isotp.c] and [include/isotp.h]: the ISO 15765-2 transport layer over
    raw CAN frames: segmentation, flow control, reassembly.

    The two [for (;;)] loops take one frame of the bus per iteration; the
    model bounds them by the number of frames the bus has in store plus one,
    which is exact: when it runs out, so has the bus, and the code is still
    waiting ([Blocked]). *)

From S2P Require Import Prelude Effects Security CanIo.

Definition ISOTP_MAX_PAYLOAD : Z := 4095.
Definition ISOTP_PADDING : Z := 0x00.
Definition ISOTP_N_CR_MS : Z := 1000.

Record isotp_addr_t := IsotpAddr { rx_id : Z; tx_id : Z }.

Definition PCI_TYPE (b : Z) : Z := u8 (Z.shiftr b 4).
Definition PCI_SF : Z := 0x0.
Definition PCI_FF : Z := 0x1.
Definition PCI_CF : Z := 0x2.
Definition PCI_FC : Z := 0x3.

Definition FC_FS_CTS : Z := 0x0.
Definition FC_FS_WAIT : Z := 0x1.
Definition FC_FS_OVERFLOW : Z := 0x2.

(** The loop of [frame_pad]: [n] stores from [i] on. *)
Fixpoint pad_loop (n : nat) (i : Z) (d : bytes) : outcome bytes :=
  match n with
  | O => Done d
  | S n => d ← st d i ISOTP_PADDING; pad_loop n (i + 1) d
  end.

Definition frame_pad (f : can_frame) (used : Z) : outcome can_frame :=
  d ← pad_loop (Z.to_nat (8 - used)) used (f_data f);
  Done (CanFrame (can_id f) 8 d).

Section operations.
Context {E : Env} {B : CanBus}.

Abbreviation io_prog := (cs can_io_t).

Definition now_ms : io_prog Z := vecu_now_ms.

(** ** Sending *)

(** A frame of zeros with its identifier and first byte. *)
Definition new_frame (id b0 : Z) : outcome can_frame :=
  d ← st (f_data can_frame_zero) 0 b0;
  Done (CanFrame (Z.land id CAN_SFF_MASK) (can_dlc can_frame_zero) d).

(** A frame with [n] bytes of [data], from [off] on, after its first byte. *)
Definition build_frame (id b0 : Z) (data : bytes) (off n : Z) : outcome can_frame :=
  f ← new_frame id b0;
  d ← memcpy (f_data f) 1 data off n;
  frame_pad (CanFrame (can_id f) (can_dlc f) d) (1 + n).

Definition send_sf (id : Z) (data : bytes) (n : Z) : io_prog Z :=
  f ← of_outcome (build_frame id (u8 (Z.land n 0x0F)) data 0 n);
  can_io_send PTR (Some f).

(** ** The receive loops

    What an iteration decides: another one, or to return. *)
Inductive next (S : Type) := Again (s : S) | Stop (rc : Z) (s : S).
#[global] Arguments Again {S} s.
#[global] Arguments Stop {S} rc s.

(** [for (;;) { step }] *)
Fixpoint for_ever {S} (step : S → io_prog (next S)) (fuel : nat) (s : S) : io_prog (Z * S) :=
  match fuel with
  | O => λ _, Blocked
  | S fuel =>
      r ← step s;
      match r with
      | Again s => for_ever step fuel s
      | Stop rc s => mret (rc, s)
      end
  end.

(** One iteration more than the bus has frames. *)
Definition bus_fuel (w : world can_io_t) : nat := S (length (io_rx (obj w))).
Definition with_bus_fuel {A} (p : nat → io_prog A) : io_prog A := λ w, p (bus_fuel w) w.

(** The frame variable after a read that returned 0. *)
Definition frame_of (f : option can_frame) : outcome can_frame :=
  match f with Some f => Done f | None => Undefined end.

(** Lines 60-84. *)
Definition fc_iter (expected_id deadline : Z) (_ : ()) : io_prog (next ()) :=
  '(rc, f) ← can_io_recv PTR PTR;
  if rc =? 1 then mret (Again ()) else
  if rc !=? 0 then mret (Stop (-1) ()) else
  f ← of_outcome (frame_of f);
  if Z.land (can_id f) CAN_SFF_MASK !=? expected_id then
    now ← now_ms;
    if now >? deadline then mret (Stop (-1) ()) else mret (Again ())
  else
    b0 ← of_outcome (ld (f_data f) 0);
    if PCI_TYPE b0 !=? PCI_FC then mret (Stop (-1) ()) else
    let fs := Z.land b0 0x0F in
    if fs =? FC_FS_CTS then mret (Stop 0 ())
    else if fs =? FC_FS_WAIT then mret (Again ())
    else if fs =? FC_FS_OVERFLOW then mret (Stop (-1) ())
    else mret (Stop (-1) ()).

Definition wait_for_fc (expected_id : Z) : io_prog Z :=
  now ← now_ms;
  '(rc, _) ← with_bus_fuel (λ fuel, for_ever (fc_iter expected_id (u64 (now + ISOTP_N_CR_MS))) fuel ());
  mret rc.

(** Lines 107-117: the consecutive frames from [offset] on. *)
Fixpoint cf_loop (fuel : nat) (id : Z) (data : bytes) (n offset sn : Z) : io_prog Z :=
  if offset <? n then
    match fuel with
    | O => λ _, Blocked
    | S fuel =>
        let chunk := if n - offset >? 7 then 7 else n - offset in
        f ← of_outcome (build_frame id (u8 (Z.lor 0x20 (Z.land sn 0x0F))) data offset chunk);
        rc ← can_io_send PTR (Some f);
        if rc !=? 0 then mret (-1) else
        cf_loop fuel id data n (offset + chunk) (u8 (Z.land (sn + 1) 0x0F))
    end
  else mret 0.

(** Lines 92-98. *)
Definition first_frame (id : Z) (data : bytes) (n : Z) : outcome can_frame :=
  f ← new_frame id (u8 (Z.lor 0x10 (Z.land (Z.shiftr n 8) 0x0F)));
  d ← st (f_data f) 1 (u8 (Z.land n 0xFF));
  d ← memcpy d 2 data 0 6;
  Done (CanFrame (can_id f) 8 d).

Definition send_multiframe (addr : isotp_addr_t) (data : bytes) (n : Z) : io_prog Z :=
  f ← of_outcome (first_frame (tx_id addr) data n);
  rc ← can_io_send PTR (Some f);
  if rc !=? 0 then mret (-1) else
  rc ← wait_for_fc (rx_id addr);
  if rc !=? 0 then mret (-1) else
  cf_loop (Z.to_nat n) (tx_id addr) data n 6 1.

Definition isotp_send (io : ptr) (addr : option isotp_addr_t) (data : option bytes) (n : Z) : io_prog Z :=
  match io, addr, data with
  | PTR, Some addr, Some data =>
      if (n =? 0) || (n >? ISOTP_MAX_PAYLOAD) then mret (-1)
      else if n <=? 7 then send_sf (tx_id addr) data n
      else send_multiframe addr data n
  | _, _, _ => mret (-1)
  end.

(** ** Receiving *)

Definition fc_frame (id : Z) : outcome can_frame :=
  f ← new_frame id (u8 (Z.lor 0x30 FC_FS_CTS));
  d ← st (f_data f) 1 0x00;
  d ← st d 2 0x00;
  frame_pad (CanFrame (can_id f) (can_dlc f) d) 3.

Definition send_fc_cts (id : Z) : io_prog Z :=
  f ← of_outcome (fc_frame id);
  can_io_send PTR (Some f).

(** The locals of [isotp_recv], the caller's buffer and [*out_len]. *)
Record rx_state := RxState {
  receiving : bool;
  total_len : Z;
  got : Z;
  next_sn : Z;
  deadline : Z;
  rx_out : bytes;
  rx_out_len : Z
}.

Definition rx_set_out (out : bytes) (s : rx_state) : rx_state :=
  RxState (receiving s) (total_len s) (got s) (next_sn s) (deadline s) out (rx_out_len s).
Definition rx_set_out_len (n : Z) (s : rx_state) : rx_state :=
  RxState (receiving s) (total_len s) (got s) (next_sn s) (deadline s) (rx_out s) n.
Definition rx_set_total (n : Z) (s : rx_state) : rx_state :=
  RxState (receiving s) n (got s) (next_sn s) (deadline s) (rx_out s) (rx_out_len s).
Definition rx_set_deadline (t : Z) (s : rx_state) : rx_state :=
  RxState (receiving s) (total_len s) (got s) (next_sn s) t (rx_out s) (rx_out_len s).
Definition rx_drop (s : rx_state) : rx_state :=
  RxState false (total_len s) (got s) (next_sn s) (deadline s) (rx_out s) (rx_out_len s).

(** Lines 169-178. *)
Definition recv_sf (cap b0 : Z) (f : can_frame) (s : rx_state) : io_prog (next rx_state) :=
  let n := Z.land b0 0x0F in
  if (n =? 0) || (n >? 7) || (n >? cap) then mret (Again s) else
  out ← of_outcome (memcpy (rx_out s) 0 (f_data f) 1 n);
  mret (Stop 0 (rx_set_out_len n (rx_set_out out s))).

(** Lines 179-192. *)
Definition recv_ff (addr : isotp_addr_t) (cap b0 : Z) (f : can_frame) (s : rx_state) : io_prog (next rx_state) :=
  b1 ← of_outcome (ld (f_data f) 1);
  let total := Z.lor (Z.shiftl (Z.land b0 0x0F) 8) b1 in
  let s := rx_set_total total s in
  if (total <? 8) || (total >? ISOTP_MAX_PAYLOAD) || (total >? cap) then mret (Again s) else
  out ← of_outcome (memcpy (rx_out s) 0 (f_data f) 2 6);
  let s := RxState true total 6 1 (deadline s) out (rx_out_len s) in
  rc ← send_fc_cts (tx_id addr);
  if rc !=? 0 then mret (Stop (-1) s) else
  now ← now_ms;
  mret (Again (rx_set_deadline (u64 (now + ISOTP_N_CR_MS)) s)).

(** Lines 197-226. *)
Definition recv_cf (pci b0 : Z) (f : can_frame) (s : rx_state) : io_prog (next rx_state) :=
  now ← now_ms;
  if now >? deadline s then mret (Stop (-1) s)
  else if pci !=? PCI_CF then mret (Again (rx_drop s))
  else if Z.land b0 0x0F !=? next_sn s then mret (Stop (-1) s)
  else
    let remaining := u64 (total_len s - got s) in
    let chunk := if remaining >? 7 then 7 else remaining in
    out ← of_outcome (memcpy (rx_out s) (got s) (f_data f) 1 chunk);
    let got := got s + chunk in
    now ← now_ms;
    let s := RxState (receiving s) (total_len s) got (u8 (Z.land (next_sn s + 1) 0x0F))
               (u64 (now + ISOTP_N_CR_MS)) out (rx_out_len s) in
    if got >=? total_len s then mret (Stop 0 (rx_set_out_len (total_len s) s)) else mret (Again s).

(** Lines 155-227. *)
Definition recv_iter (addr : isotp_addr_t) (cap : Z) (s : rx_state) : io_prog (next rx_state) :=
  '(rc, f) ← can_io_recv PTR PTR;
  if rc =? 1 then mret (Stop 1 s) else
  if rc !=? 0 then mret (Stop (-1) s) else
  f ← of_outcome (frame_of f);
  if Z.land (can_id f) CAN_SFF_MASK !=? rx_id addr then mret (Again s) else
  b0 ← of_outcome (ld (f_data f) 0);
  let pci := PCI_TYPE b0 in
  if negb (receiving s) then
    if pci =? PCI_SF then recv_sf cap b0 f s
    else if pci =? PCI_FF then recv_ff addr cap b0 f s
    else mret (Again s)
  else recv_cf pci b0 f s.

(** The return code, the buffer and [*out_len]. *)
Definition isotp_recv (io : ptr) (addr : option isotp_addr_t) (out : option bytes) (cap : Z) (out_len : option Z)
  : io_prog (Z * option (bytes * Z)) :=
  match io, addr, out, out_len with
  | PTR, Some addr, Some out, Some out_len =>
      '(rc, s) ← with_bus_fuel (λ fuel, for_ever (recv_iter addr cap) fuel (RxState false 0 0 1 0 out out_len));
      mret (rc, Some (rx_out s, rx_out_len s))
  | _, _, _, _ => mret (-1, None)
  end.
End operations.

(** * Segmentation *)

(** The data of a frame, padded to eight bytes. *)
Definition pad7 (d : bytes) : bytes := d ++ replicate (7 - length d) ISOTP_PADDING.
Definition frame (id : Z) (d : bytes) : can_frame := CanFrame (Z.land id CAN_SFF_MASK) 8 d.

(** Consecutive frames: seven bytes each, numbered modulo 16. *)
Fixpoint consecutive_fuel (fuel : nat) (sn : Z) (msg : bytes) : list bytes :=
  match fuel, msg with
  | S fuel, _ :: _ => ((0x20 + sn) :: pad7 (take 7 msg)) :: consecutive_fuel fuel ((sn + 1) mod 16) (drop 7 msg)
  | _, _ => []
  end.
Definition consecutive (sn : Z) (msg : bytes) : list bytes := consecutive_fuel (length msg) sn msg.

(** The frames of a message. *)
Definition segment (msg : bytes) : list bytes :=
  if len msg <=? 7 then [len msg :: pad7 msg]
  else ((0x10 + len msg / 256) :: len msg mod 256 :: take 6 msg) :: consecutive 1 (drop 6 msg).

Lemma consecutive_fuel_enough n : ∀ m sn msg,
  (length msg ≤ n)%nat → (length msg ≤ m)%nat → consecutive_fuel n sn msg = consecutive_fuel m sn msg.
Proof.
  induction n as [|n IH]; intros [|m] sn [|x msg]; simpl; try done; try lia. intros Hn Hm. f_equal.
  apply IH; rewrite length_drop; lia.
Qed.

Lemma consecutive_step sn msg :
  msg ≠ [] →
  consecutive sn msg = ((0x20 + sn) :: pad7 (take 7 msg)) :: consecutive ((sn + 1) mod 16) (drop 7 msg).
Proof.
  intros Hne. unfold consecutive. destruct msg as [|x msg]; [done|]. cbn [length consecutive_fuel]. f_equal.
  apply consecutive_fuel_enough; [|done]. cbn [drop]. rewrite length_drop. lia.
Qed.

Lemma len_pad7 d : (length d ≤ 7)%nat → len (pad7 d) = 7.
Proof. intros H. unfold pad7. rewrite len_app, len_replicate. unfold len. lia. Qed.

(** ** Building a frame *)

Lemma pad_loop_spec n pre post :
  length post = n → pad_loop n (len pre) (pre ++ post) = Done (pre ++ replicate n ISOTP_PADDING).
Proof.
  revert pre post. induction n as [|n IH]; intros pre post Hn.
  - apply nil_length_inv in Hn as ->. done.
  - destruct post as [|x post]; [done|]. cbn [pad_loop]. rewrite st_app_mid by done. cbn [mbind outcome_bind].
    injection Hn as Hn. specialize (IH (pre ++ [ISOTP_PADDING]) post Hn).
    rewrite len_app, <- !app_assoc in IH. exact IH.
Qed.

Lemma build_frame_spec id b0 data off n :
  0 <= off → 1 <= n <= 7 → off + n <= len data →
  build_frame id b0 data off n = Done (frame id (b0 :: pad7 (take (Z.to_nat n) (drop (Z.to_nat off) data)))).
Proof.
  intros Ho Hn Hl. unfold build_frame, new_frame. cbn [can_frame_zero f_data replicate st Z.eqb mbind outcome_bind can_id can_dlc].
  set (d := take (Z.to_nat n) (drop (Z.to_nat off) data)).
  assert (Hd : len d = n) by (unfold d; apply len_take; rewrite len_drop; lia).
  rewrite memcpy_defined; [|lia..|unfold len; simpl; lia|lia]. fold d.
  cbn [mbind outcome_bind]. unfold frame_pad. cbn [f_data can_id].
  change (take (Z.to_nat 1) (b0 :: replicate 7 0)) with [b0].
  rewrite app_assoc. replace (1 + n) with (len ([b0] ++ d)) at 2 by (rewrite len_app, Hd; done).
  rewrite pad_loop_spec; [|unfold len in Hd; rewrite length_drop; simpl; lia].
  cbn [mbind outcome_bind]. unfold frame, pad7.
  replace (Z.to_nat (8 - (1 + n))) with (7 - length d)%nat by (unfold len in Hd; lia). done.
Qed.

(** ** The first byte of a frame *)

Lemma land_15 x : Z.land x 0x0F = x mod 16.
Proof. change 0x0F with (Z.ones 4). by rewrite Z.land_ones. Qed.

Lemma pci_byte t x : 0 <= t < 16 → 0 <= x < 16 → u8 (Z.lor (Z.shiftl t 4) x) = t * 16 + x.
Proof. intros Ht Hx. rewrite lor_shiftl_add by lia. apply u8_id. unfold is_byte. lia. Qed.

Lemma next_sn_mod sn : 0 <= sn < 16 → u8 (Z.land (sn + 1) 0x0F) = (sn + 1) mod 16.
Proof. intros H. rewrite land_15. apply u8_id. pose proof (Z.mod_pos_bound (sn + 1) 16). unfold is_byte. lia. Qed.

Lemma cf_byte sn : 0 <= sn < 16 → u8 (Z.lor 0x20 (Z.land sn 0x0F)) = 0x20 + sn.
Proof. intros H. rewrite land_15, Z.mod_small by done. by apply (pci_byte 2). Qed.

Lemma ff_byte n : 0 <= n <= ISOTP_MAX_PAYLOAD → u8 (Z.lor 0x10 (Z.land (Z.shiftr n 8) 0x0F)) = 0x10 + n / 256.
Proof.
  unfold ISOTP_MAX_PAYLOAD. intros H. rewrite land_15, Z.shiftr_div_pow2 by done. change (2 ^ 8) with 256.
  rewrite Z.mod_small by (Z.div_mod_to_equations; lia). apply (pci_byte 1); Z.div_mod_to_equations; lia.
Qed.

Lemma low_byte n : u8 (Z.land n 0xFF) = n mod 256.
Proof.
  change 0xFF with (Z.ones 8). rewrite Z.land_ones by done. apply u8_id.
  pose proof (Z.mod_pos_bound n 256). unfold is_byte. lia.
Qed.

(** * Running the loops *)

Definition rx_left (w : world can_io_t) : nat := length (io_rx (obj w)).

Section loops.
Context {E : Env} {B : CanBus} {S : Type}.
Implicit Types (step : S → cs can_io_t (next S)).

(** An invariant of the iterations, each of which takes a frame of the bus
    before it goes round again.  [Q] says where the loop may wait. *)
Lemma for_ever_inv step (I : S → world can_io_t → Prop) (R : Z → S → world can_io_t → Prop) (Q : Prop) :
  (∀ s w, I s w →
   match step s w with
   | Done (Again s', w') => I s' w' ∧ (rx_left w' < rx_left w)%nat
   | Done (Stop rc s', w') => R rc s' w'
   | Blocked => Q
   | Undefined => False
   end) →
  ∀ fuel s w, I s w → (rx_left w < fuel)%nat →
  match for_ever step fuel s w with
  | Done ((rc, s'), w') => R rc s' w'
  | Blocked => Q
  | Undefined => False
  end.
Proof.
  intros Hstep. induction fuel as [|fuel IH]; intros s w HI Hf; [lia|]. cbn [for_ever].
  unfold mbind, cs_bind. specialize (Hstep s w HI).
  destruct (step s w) as [[[s'|rc s'] w']| |]; [|done..]. destruct Hstep as [HI' Hl]. apply IH; [done|lia].
Qed.

(** More fuel than the bus has frames changes nothing. *)
Lemma for_ever_fuel step (I : S → world can_io_t → Prop) :
  (∀ s w s' w', I s w → step s w = Done (Again s', w') → I s' w' ∧ (rx_left w' < rx_left w)%nat) →
  ∀ fuel1 fuel2 s w, I s w → (rx_left w < fuel1)%nat → (rx_left w < fuel2)%nat →
  for_ever step fuel1 s w = for_ever step fuel2 s w.
Proof.
  intros Hstep. induction fuel1 as [|n IH]; intros [|m] s w HI H1 H2; [lia..|]. cbn [for_ever].
  unfold mbind, cs_bind. destruct (step s w) as [[[s'|rc s'] w']| |] eqn:Hs; [|done..].
  apply Hstep in Hs as [HI' Hl]; [|done]. apply IH; [done|lia..].
Qed.
End loops.

(** * Sending on any bus *)

Definition frame_wf (f : can_frame) : Prop := len (f_data f) = 8 ∧ Forall is_byte (f_data f).
Definition read_wf (r : can_read) : Prop := match r with FrameRead f => frame_wf f | _ => True end.
Definition bus_wf (w : world can_io_t) : Prop := Forall read_wf (io_rx (obj w)).

Section send.
Context {E : Env} {B : CanBus}.
Implicit Types w : world can_io_t.

(** [p] hands over a prefix of [fs], all of it if it returns 0, and may wait
    only if [Q]. *)
Definition hands_over (p : cs can_io_t Z) (fs : list can_frame) (Q : Prop) : Prop :=
  ∀ w, bus_wf w →
  match p w with
  | Done (rc, w') =>
      bus_wf w' ∧ (rc = 0 ∨ rc = -1) ∧
      ∃ k, io_tx (obj w') = io_tx (obj w) ++ take k fs ∧ (rc = 0 → (length fs ≤ k)%nat)
  | Blocked => Q
  | Undefined => False
  end.

Lemma send_hands_over f Q : hands_over (can_io_send PTR (Some f)) [f] Q.
Proof.
  intros w Hw. unfold can_io_send. destruct (io_sock (obj w) <? 0).
  - split; [done|]. split; [by right|]. exists 0%nat. split; [by rewrite app_nil_r|done].
  - destruct (can_write _ _ =? _); (split; [exact Hw|]); (split; [auto|]); exists 1%nat; (split; [done|simpl; lia]).
Qed.

Lemma send_returns f w :
  ∃ rc w', can_io_send PTR (Some f) w = Done (rc, w') ∧ io_rx (obj w') = io_rx (obj w).
Proof.
  unfold can_io_send. destruct (io_sock (obj w) <? 0); [by eexists _, _|].
  destruct (negb (can_write _ _ =? _)); by eexists _, _.
Qed.

(** One part after another, as long as they succeed. *)
Lemma hands_over_seq (p q : cs can_io_t Z) fs1 fs2 (Q : Prop) :
  hands_over p fs1 Q → hands_over q fs2 Q →
  hands_over (rc ← p; if rc !=? 0 then mret (-1) else q) (fs1 ++ fs2) Q.
Proof.
  intros Hp Hq w Hw. specialize (Hp w Hw). unfold mbind, cs_bind.
  destruct (p w) as [[rc w1]| |]; [|done..]. destruct Hp as (Hw1 & Hrc & k & Htx & Hk).
  destruct (Z.eqb_spec rc 0) as [->|Hne]; cbn [negb].
  - specialize (Hq w1 Hw1). destruct (q w1) as [[rc2 w2]| |]; [|done..].
    destruct Hq as (Hw2 & Hrc2 & k2 & Htx2 & Hk2). split; [done|]. split; [done|].
    exists (length fs1 + k2)%nat. rewrite Htx2, Htx, take_ge, <- app_assoc by (by apply Hk).
    rewrite take_app_add. split; [done|]. intros H. rewrite length_app. specialize (Hk2 H). lia.
  - split; [done|]. split; [by right|]. exists (k `min` length fs1)%nat. split; [|done].
    rewrite Htx. f_equal. rewrite take_app_le by lia. destruct (decide (k ≤ length fs1)%nat).
    + by rewrite Nat.min_l by lia.
    + by rewrite Nat.min_r, !take_ge by lia.
Qed.

Lemma hands_over_nil rc Q : rc = 0 ∨ rc = -1 → hands_over (mret rc) [] Q.
Proof. intros Hrc w Hw. split; [done|]. split; [done|]. exists 0%nat. by rewrite app_nil_r. Qed.

(** The flow-control wait sends nothing. *)
Lemma fc_iter_any id dl s w :
  bus_wf w →
  match fc_iter id dl s w with
  | Done (Again _, w') => bus_wf w' ∧ io_tx (obj w') = io_tx (obj w) ∧ (rx_left w' < rx_left w)%nat
  | Done (Stop rc _, w') => bus_wf w' ∧ io_tx (obj w') = io_tx (obj w) ∧ (rc = 0 ∨ rc = -1)
  | Blocked => True
  | Undefined => False
  end.
Proof.
  intros Hw. unfold fc_iter, mbind, cs_bind, can_io_recv. cbn [is_null orb].
  destruct (io_sock (obj w) <? 0); [simpl; auto|].
  unfold bus_wf in Hw. destruct (io_rx (obj w)) as [|r rx] eqn:Hrx; [done|].
  apply Forall_cons in Hw as [Hr Hw]. unfold rx_left, bus_wf. rewrite Hrx.
  destruct r as [f|n|e]; [|simpl; auto|destruct (e =? EINTR); simpl; auto with lia].
  destruct Hr as [Hl _]. cbn [Z.eqb negb frame_of of_outcome].
  destruct (negb (_ =? id)).
  - unfold now_ms, vecu_now_ms. cbn [obj readings draws]. destruct (_ >? dl); simpl; auto with lia.
  - destruct (f_data f) as [|b0 d]; [done|]. cbn [ld Z.eqb of_outcome].
    repeat (match goal with |- context [if ?b then _ else _] => destruct b end; try solve [simpl; auto with lia]).
Qed.

Lemma fc_wait_hands_over id (Q : Prop) : Q → hands_over (wait_for_fc id) [] Q.
Proof.
  intros HQ w Hw. unfold wait_for_fc, now_ms, vecu_now_ms, with_bus_fuel, mbind, cs_bind.
  set (dl := u64 _). set (w1 := World (obj w) _ _).
  opose proof (for_ever_inv (fc_iter id dl) (λ _ w', bus_wf w' ∧ io_tx (obj w') = io_tx (obj w))
    (λ rc _ w', bus_wf w' ∧ io_tx (obj w') = io_tx (obj w) ∧ (rc = 0 ∨ rc = -1)) Q _ (bus_fuel w1) () w1 _ _) as Hinv.
  { intros s w2 [Hw2 Ht]. pose proof (fc_iter_any id dl s w2 Hw2) as Hi.
    destruct (fc_iter id dl s w2) as [[[?|? ?] w3]| |]; [..|done|done]; rewrite <- Ht; tauto. }
  { done. }
  { unfold bus_fuel, rx_left. lia. }
  destruct (for_ever _ _ _ w1) as [[[rc s] w2]| |]; [|done..]. destruct Hinv as (Hw2 & Htx & Hrc).
  split; [done|]. split; [done|]. exists 0%nat. by rewrite app_nil_r.
Qed.
Lemma of_outcome_Done {A C} (o : outcome A) (f : A → cs can_io_t C) w a :
  o = Done a → (of_outcome o ≫= f) w = f a w.
Proof. by intros ->. Qed.

(** [n] bytes of [pre ++ r ++ post] from the start of [r] on. *)
Lemma take_in_middle (pre r post : bytes) n :
  0 <= n <= len r → take (Z.to_nat n) (drop (Z.to_nat (len pre)) (pre ++ r ++ post)) = take (Z.to_nat n) r.
Proof.
  intros Hn. rewrite to_nat_len, drop_app_length, take_app_le; [done|]. unfold len in Hn. lia.
Qed.

(** One turn of the loop, with [r] left to send after [pre]. *)
Lemma cf_loop_step id post fuel pre r sn w :
  r ≠ [] → 0 <= sn < 16 →
  cf_loop (S fuel) id (pre ++ r ++ post) (len pre + len r) (len pre) sn w =
  (rc ← can_io_send PTR (Some (frame id ((0x20 + sn) :: pad7 (take 7 r))));
   if rc !=? 0 then mret (-1) else
   cf_loop fuel id ((pre ++ take 7 r) ++ drop 7 r ++ post) (len (pre ++ take 7 r) + len (drop 7 r))
           (len (pre ++ take 7 r)) ((sn + 1) mod 16)) w.
Proof.
  intros Hne Hsn. assert (Hr : 1 <= len r) by (destruct r; [done|unfold len; simpl; lia]). cbn [cf_loop].
  replace (len pre + len r - len pre) with (len r) by lia. rewrite (proj2 (Z.ltb_lt _ _)) by lia.
  set (chunk := if len r >? 7 then 7 else len r).
  assert (Hc : 1 <= chunk <= 7 ∧ chunk <= len r ∧ take (Z.to_nat chunk) r = take 7 r).
  { unfold chunk. rewrite Z.gtb_ltb. destruct (Z.ltb_spec 7 (len r)); [split_and!; done || lia|].
    split_and!; [lia..|]. rewrite !take_ge; [done|unfold len in *; lia..]. }
  destruct Hc as (Hc & Hcr & Ht).
  assert (Hlc : len (take 7 r) = chunk) by (rewrite <- Ht; apply len_take; lia).
  rewrite (of_outcome_Done _ _ _ (frame id ((0x20 + sn) :: pad7 (take 7 r)))).
  2: { rewrite build_frame_spec, take_in_middle, cf_byte, Ht; [done|done|lia|apply len_nonneg|lia|].
       rewrite !len_app. pose proof (len_nonneg post). lia. }
  rewrite next_sn_mod by done. rewrite <- app_assoc, (app_assoc (take 7 r)), take_drop, !len_app, Hlc.
  replace (len pre + chunk + len (drop 7 r)) with (len pre + len r); [done|].
  rewrite <- (take_drop 7 r) at 1. rewrite len_app, Hlc. lia.
Qed.

Lemma cf_loop_done id data n sn fuel : cf_loop fuel id data n n sn = mret 0.
Proof. destruct fuel; cbn [cf_loop]; by rewrite Z.ltb_irrefl. Qed.

Lemma cf_loop_hands_over id post Q : ∀ fuel pre r sn,
  (length r ≤ fuel)%nat → 0 <= sn < 16 →
  hands_over (cf_loop fuel id (pre ++ r ++ post) (len pre + len r) (len pre) sn)
             (map (frame id) (consecutive sn r)) Q.
Proof.
  induction fuel as [|fuel IH]; intros pre r sn Hf Hsn; (destruct (decide (r = [])) as [->|Hne];
    [rewrite len_nil, Z.add_0_r, cf_loop_done; by apply hands_over_nil; left|]).
  - destruct r; [done|simpl in Hf; lia].
  - rewrite consecutive_step by done. intros w Hw. rewrite cf_loop_step by done. cbn [map].
    apply (hands_over_seq _ _ [_]); [apply send_hands_over| |done]. apply IH.
    + rewrite length_drop. lia.
    + apply Z.mod_pos_bound. lia.
Qed.

(** The first frame. *)
Lemma first_frame_spec id msg post :
  8 <= len msg <= ISOTP_MAX_PAYLOAD →
  first_frame id (msg ++ post) (len msg)
  = Done (frame id ((0x10 + len msg / 256) :: len msg mod 256 :: take 6 msg)).
Proof.
  intros Hl. unfold first_frame. rewrite ff_byte, low_byte by lia. unfold new_frame.
  cbn [can_frame_zero f_data replicate st Z.eqb mbind outcome_bind can_id can_dlc].
  change (1 - 1 =? 0) with true. cbn iota. cbn [mbind outcome_bind].
  rewrite memcpy_defined; [|lia..|unfold len; simpl; lia|rewrite len_app; pose proof (len_nonneg post); lia].
  cbn [mbind outcome_bind]. unfold frame. change (Z.to_nat 0) with 0%nat.
  rewrite drop_0, take_app_le by (unfold len in Hl; lia).
  change (drop (Z.to_nat (2 + 6)) _) with (@nil Z). by rewrite app_nil_r.
Qed.

Lemma isotp_send_hands_over addr msg post :
  1 <= len msg <= ISOTP_MAX_PAYLOAD →
  hands_over (isotp_send PTR (Some addr) (Some (msg ++ post)) (len msg))
             (map (frame (tx_id addr)) (segment msg)) (7 < len msg).
Proof.
  intros Hl. unfold isotp_send, segment. rewrite Z.gtb_ltb. dec. cbn [orb].
  destruct (Z.leb_spec (len msg) 7) as [Hs|Hs].
  - intros w Hw. unfold send_sf.
    rewrite (of_outcome_Done _ _ _ (frame (tx_id addr) (len msg :: pad7 msg))).
    + by apply send_hands_over.
    + rewrite build_frame_spec; [|lia|lia|rewrite len_app; pose proof (len_nonneg post); lia].
      rewrite (take_in_middle [] msg post) by lia. rewrite to_nat_len, take_ge by done.
      rewrite land_15, Z.mod_small, u8_id by (unfold is_byte; lia). done.
  - intros w Hw. unfold send_multiframe. rewrite (of_outcome_Done _ _ _ _ (first_frame_spec (tx_id addr) msg post ltac:(lia))).
    cbn [map]. apply (hands_over_seq _ _ [_]); [apply send_hands_over| |done].
    apply (hands_over_seq _ _ []); [by apply fc_wait_hands_over|].
    assert (H6 : len (take 6 msg) = 6) by (apply (len_take msg 6); lia).
    pose proof (cf_loop_hands_over (tx_id addr) post (7 < len msg) (Z.to_nat (len msg)) (take 6 msg) (drop 6 msg) 1) as Hcf.
    rewrite H6, app_assoc, take_drop in Hcf.
    replace (6 + len (drop 6 msg)) with (len msg) in Hcf by (pose proof (len_drop msg 6 ltac:(lia)) as Hd; change (Z.to_nat 6) with 6%nat in Hd; lia).
    apply Hcf; [|lia]. rewrite length_drop. unfold len. lia.
Qed.

(** ** A bus that cooperates *)

Definition writes_ok : Prop := ∀ n f, can_write n f = sizeof_can_frame.

Lemma send_ok f w :
  writes_ok → 0 <= io_sock (obj w) →
  ∃ w', can_io_send PTR (Some f) w = Done (0, w') ∧ io_sock (obj w') = io_sock (obj w) ∧
    io_rx (obj w') = io_rx (obj w) ∧ readings w' = readings w.
Proof. intros Hok Hs. unfold can_io_send. rewrite Hok. dec. by eexists. Qed.

Lemma cf_loop_ok id post : writes_ok → ∀ fuel pre r sn w,
  (length r ≤ fuel)%nat → 0 <= sn < 16 → 0 <= io_sock (obj w) →
  ∃ w', cf_loop fuel id (pre ++ r ++ post) (len pre + len r) (len pre) sn w = Done (0, w').
Proof.
  intros Hok. induction fuel as [|fuel IH]; intros pre r sn w Hf Hsn Hs; (destruct (decide (r = [])) as [->|Hne];
    [rewrite len_nil, Z.add_0_r, cf_loop_done; by exists w|]).
  - destruct r; [done|simpl in Hf; lia].
  - rewrite cf_loop_step by done. unfold mbind, cs_bind.
    destruct (send_ok (frame id ((0x20 + sn) :: pad7 (take 7 r))) w Hok Hs) as (w1 & -> & Hs1 & _).
    cbn [Z.eqb negb]. apply IH; [rewrite length_drop; lia|apply Z.mod_pos_bound; lia|lia].
Qed.

(** What the wait for flow control passes over. *)
Definition skipped (id : Z) (r : can_read) : Prop :=
  r = ReadError EINTR ∨ ∃ f, r = FrameRead f ∧ Z.land (can_id f) CAN_SFF_MASK ≠ id.

(** A flow-control frame with status [fs]. *)
Definition is_fc (id fs : Z) (f : can_frame) : Prop :=
  Z.land (can_id f) CAN_SFF_MASK = id ∧ ∃ d, f_data f = (0x30 + fs) :: d.

Lemma pci_type t x : 0 <= t < 16 → 0 <= x < 16 → PCI_TYPE (t * 16 + x) = t.
Proof.
  intros Ht Hx. unfold PCI_TYPE. rewrite Z.shiftr_div_pow2 by done. change (2 ^ 4) with 16.
  replace ((t * 16 + x) / 16) with t by (Z.div_mod_to_equations; lia). apply u8_id. unfold is_byte. lia.
Qed.
Lemma pci_low t x : 0 <= x < 16 → Z.land (t * 16 + x) 0x0F = x.
Proof. intros Hx. rewrite land_15. Z.div_mod_to_equations. lia. Qed.

(** One frame off the bus. *)
Definition next_read (w : world can_io_t) (rx : list can_read) : world can_io_t :=
  World (CanIo (io_sock (obj w)) (io_ifname (obj w)) rx (io_writes (obj w)) (io_tx (obj w))) (readings w) (draws w).

Lemma recv_frame_run f rx w :
  0 <= io_sock (obj w) → io_rx (obj w) = FrameRead f :: rx →
  can_io_recv PTR PTR w = Done ((0, Some f), next_read w rx).
Proof. intros Hs Hrx. unfold can_io_recv. cbn [is_null orb]. dec. by rewrite Hrx. Qed.

Lemma recv_eintr_run rx w :
  0 <= io_sock (obj w) → io_rx (obj w) = ReadError EINTR :: rx →
  can_io_recv PTR PTR w = Done ((1, None), next_read w rx).
Proof. intros Hs Hrx. unfold can_io_recv. cbn [is_null orb]. dec. by rewrite Hrx. Qed.

Lemma fc_iter_fc id fs dl f rx w :
  0 <= io_sock (obj w) → io_rx (obj w) = FrameRead f :: rx → 0 <= fs < 16 → is_fc id fs f →
  fc_iter id dl () w =
    Done (if fs =? FC_FS_CTS then Stop 0 () else if fs =? FC_FS_WAIT then Again () else Stop (-1) (), next_read w rx).
Proof.
  intros Hs Hrx Hfs (Hid & d & Hd). unfold fc_iter, mbind, cs_bind. rewrite (recv_frame_run f rx) by done.
  cbn [Z.eqb negb frame_of of_outcome]. rewrite Hid, Z.eqb_refl, Hd. cbn [negb ld Z.eqb of_outcome].
  change (0x30 + fs) with (3 * 16 + fs). rewrite pci_type, pci_low by lia. change (3 !=? PCI_FC) with false. cbn iota.
  destruct (fs =? FC_FS_CTS); [done|]. destruct (fs =? FC_FS_WAIT); [done|]. by destruct (fs =? FC_FS_OVERFLOW).
Qed.

Lemma fc_wait_ok id dl f tail rs : ∀ fuel w,
  0 <= io_sock (obj w) → io_rx (obj w) = rs ++ FrameRead f :: tail → Forall (skipped id) rs → is_fc id FC_FS_CTS f →
  (∀ n, (readings w ≤ n < readings w + length rs)%nat → ms_of_timespec (clock_gettime n) <= dl) →
  (length rs < fuel)%nat →
  ∃ w', for_ever (fc_iter id dl) fuel () w = Done ((0, ()), w') ∧ io_sock (obj w') = io_sock (obj w).
Proof.
  induction rs as [|r rs IH]; intros [|fuel] w Hs Hrx Hsk Hf Hdl Hfuel; try (simpl in Hfuel; lia); cbn [for_ever].
  - unfold mbind, cs_bind. rewrite (fc_iter_fc id FC_FS_CTS dl f tail) by done. by eexists.
  - apply Forall_cons in Hsk as [Hr Hsk]. cbn [app] in Hrx. unfold mbind, cs_bind.
    assert (Hi : ∃ k, fc_iter id dl () w = Done (Again (), World (obj (next_read w (rs ++ FrameRead f :: tail)))
                                                   (k + readings w) (draws w)) ∧ (k <= 1)%nat).
    { unfold fc_iter, mbind, cs_bind. destruct Hr as [->|(g & -> & Hg)].
      - exists 0%nat. rewrite (recv_eintr_run (rs ++ FrameRead f :: tail)) by done. split; [done|lia].
      - exists 1%nat. rewrite (recv_frame_run g (rs ++ FrameRead f :: tail)) by done.
        cbn [Z.eqb negb frame_of of_outcome]. rewrite (proj2 (Z.eqb_neq _ _) Hg). cbn [negb].
        unfold now_ms, vecu_now_ms. cbn [next_read readings obj draws].
        specialize (Hdl (readings w) ltac:(simpl; lia)). 
        rewrite Z.gtb_ltb, (proj2 (Z.ltb_ge _ _)) by lia. split; [done|lia]. }
    destruct Hi as (k & -> & Hk).
    destruct (IH fuel (World (obj (next_read w (rs ++ FrameRead f :: tail))) (k + readings w) (draws w)))
      as (w' & Hw' & Hs'); [done..| |simpl in Hfuel; lia|by exists w'].
    intros n Hn. apply Hdl. simpl in *. lia.
Qed.

(** The bus has a clear-to-send in store for the sender, after at most
    unrelated frames and interruptions that arrive within a second. *)
Definition fc_granted (addr : isotp_addr_t) (w : world can_io_t) : Prop :=
  ∃ rs f tail, io_rx (obj w) = rs ++ FrameRead f :: tail ∧ Forall (skipped (rx_id addr)) rs ∧
    is_fc (rx_id addr) FC_FS_CTS f ∧
    ∀ n, (n <= length rs)%nat → ms_of_timespec (clock_gettime (n + readings w)) <= now_at w + ISOTP_N_CR_MS.

Lemma isotp_send_ok `{!ClockBounded E} addr msg post w :
  1 <= len msg <= ISOTP_MAX_PAYLOAD → writes_ok → 0 <= io_sock (obj w) →
  (7 < len msg → fc_granted addr w) →
  ∃ w', isotp_send PTR (Some addr) (Some (msg ++ post)) (len msg) w = Done (0, w').
Proof.
  intros Hl Hok Hs Hfc. unfold isotp_send. rewrite Z.gtb_ltb. dec. cbn [orb].
  destruct (Z.leb_spec (len msg) 7) as [H7|H7].
  - unfold send_sf. rewrite (of_outcome_Done _ _ _ (frame (tx_id addr) (len msg :: pad7 msg))).
    + destruct (send_ok (frame (tx_id addr) (len msg :: pad7 msg)) w Hok Hs) as (w' & -> & _). by exists w'.
    + rewrite build_frame_spec; [|lia|lia|rewrite len_app; pose proof (len_nonneg post); lia].
      rewrite (take_in_middle [] msg post) by lia. rewrite to_nat_len, take_ge by done.
      rewrite land_15, Z.mod_small, u8_id by (unfold is_byte; lia). done.
  - destruct (Hfc H7) as (rs & f & tail & Hrx & Hsk & Hf & Hclk). unfold send_multiframe.
    rewrite (of_outcome_Done _ _ _ _ (first_frame_spec (tx_id addr) msg post ltac:(lia))).
    unfold mbind, cs_bind. set (ff := frame _ _).
    destruct (send_ok ff w Hok Hs) as (w1 & -> & Hs1 & Hrx1 & Hrd1). cbn [Z.eqb negb].
    unfold wait_for_fc, now_ms, vecu_now_ms, with_bus_fuel, mbind, cs_bind. cbn [obj]. rewrite Hrd1.
    set (dl := u64 _).
    assert (Hdl : dl = now_at w + ISOTP_N_CR_MS).
    { apply u64_id. pose proof (now_bounded w). unfold now_at, SECURITY_LOCK_DURATION_MS, ISOTP_N_CR_MS in *. lia. }
    set (w2 := World (obj w1) _ _).
    destruct (fc_wait_ok (rx_id addr) dl f tail rs (bus_fuel w2) w2) as (w3 & -> & Hs3); [simpl; lia|simpl; congruence|done|done| | |].
    { intros n Hn. rewrite Hdl. replace n with (n - readings w + readings w)%nat by (simpl in Hn; lia).
      apply Hclk. simpl in Hn. lia. }
    { unfold bus_fuel. simpl. rewrite Hrx1, Hrx, length_app. simpl. lia. }
    cbn [mret cs_ret Z.eqb negb].
    assert (H6 : len (take 6 msg) = 6) by (apply (len_take msg 6); lia).
    pose proof (cf_loop_ok (tx_id addr) post Hok (Z.to_nat (len msg)) (take 6 msg) (drop 6 msg) 1 w3) as Hcf.
    rewrite H6, app_assoc, take_drop in Hcf.
    replace (6 + len (drop 6 msg)) with (len msg) in Hcf
      by (pose proof (len_drop msg 6 ltac:(lia)) as Hd; change (Z.to_nat 6) with 6%nat in Hd; lia).
    apply Hcf; [|lia|simpl in *; lia]. rewrite length_drop. unfold len. lia.
Qed.
End send.

(** * Receiving the frames of a message *)

(** The frames on a bus that a receiver listens to. *)
Definition for_id (id : Z) (r : can_read) : option can_frame :=
  match r with
  | FrameRead f => if Z.land (can_id f) CAN_SFF_MASK =? id then Some f else None
  | _ => None
  end.
Definition is_frame (r : can_read) : Prop := ∃ f, r = FrameRead f.

Section receive.
Context {E : Env} {B : CanBus}.
Implicit Types w : world can_io_t.

Lemma mbind_Done {A C} (m : cs can_io_t A) (f : A → cs can_io_t C) w a w' :
  m w = Done (a, w') → (m ≫= f) w = f a w'.
Proof. unfold mbind, cs_bind. by intros ->. Qed.

Lemma for_ever_again {S} (step : S → cs can_io_t (next S)) fuel s s' w w' :
  step s w = Done (Again s', w') → for_ever step (Datatypes.S fuel) s w = for_ever step fuel s' w'.
Proof. intros H. cbn [for_ever]. by rewrite (mbind_Done _ _ _ _ _ H). Qed.

Lemma for_ever_stop {S} (step : S → cs can_io_t (next S)) fuel s rc s' w w' :
  step s w = Done (Stop rc s', w') → for_ever step (Datatypes.S fuel) s w = Done ((rc, s'), w').
Proof. intros H. cbn [for_ever]. by rewrite (mbind_Done _ _ _ _ _ H). Qed.

(** A frame for somebody else. *)
Lemma recv_iter_foreign addr cap s f rx w :
  0 <= io_sock (obj w) → io_rx (obj w) = FrameRead f :: rx →
  Z.land (can_id f) CAN_SFF_MASK ≠ rx_id addr →
  recv_iter addr cap s w = Done (Again s, next_read w rx).
Proof.
  intros Hs Hrx Hid. unfold recv_iter. rewrite (mbind_Done _ _ _ _ _ (recv_frame_run f rx w Hs Hrx)).
  cbn [Z.eqb negb frame_of of_outcome]. rewrite (mbind_Done _ _ _ f (next_read w rx)) by done.
  by rewrite (proj2 (Z.eqb_neq _ _) Hid).
Qed.

(** A frame for us, by the state of the receiver. *)
Lemma recv_iter_ours addr cap s f b0 d rx w :
  0 <= io_sock (obj w) → io_rx (obj w) = FrameRead f :: rx →
  Z.land (can_id f) CAN_SFF_MASK = rx_id addr → f_data f = b0 :: d →
  recv_iter addr cap s w =
    (if negb (receiving s) then
       if PCI_TYPE b0 =? PCI_SF then recv_sf cap b0 f s
       else if PCI_TYPE b0 =? PCI_FF then recv_ff addr cap b0 f s
       else mret (Again s)
     else recv_cf (PCI_TYPE b0) b0 f s) (next_read w rx).
Proof.
  intros Hs Hrx Hid Hd. unfold recv_iter. rewrite (mbind_Done _ _ _ _ _ (recv_frame_run f rx w Hs Hrx)).
  cbn [Z.eqb negb frame_of of_outcome]. rewrite (mbind_Done _ _ _ f (next_read w rx)) by done.
  rewrite Hid, Z.eqb_refl. cbn [negb]. rewrite (mbind_Done _ _ _ b0 (next_read w rx)) by (by rewrite Hd). done.
Qed.

(** Copying the payload of a frame to the end of the message so far. *)
Lemma copy_chunk (p c pad o : bytes) b0 :
  len c <= len o →
  memcpy (p ++ o) (len p) (b0 :: c ++ pad) 1 (len c) = Done (p ++ c ++ drop (length c) o).
Proof.
  intros Hc. pose proof (len_nonneg c). pose proof (len_nonneg p). pose proof (len_nonneg pad).
  rewrite memcpy_defined; rewrite ?len_cons, ?len_app; [|lia..].
  change (Z.to_nat 1) with 1%nat. cbn [drop]. rewrite drop_0.
  rewrite !to_nat_len, !take_app_length. do 3 f_equal.
  replace (Z.to_nat (len p + len c)) with (length p + length c)%nat by (unfold len; lia).
  by rewrite drop_app_add.
Qed.

(** The next consecutive frame of the message [p ++ r]. *)
Lemma recv_cf_run f p r o sn dl n0 w `{!ClockBounded E} :
  r ≠ [] → 0 <= sn < 16 → len r <= len o → len (p ++ r) <= ISOTP_MAX_PAYLOAD →
  f_data f = (0x20 + sn) :: pad7 (take 7 r) → now_at w <= dl →
  let dl' := ms_of_timespec (clock_gettime (S (readings w))) + ISOTP_N_CR_MS in
  let s := RxState true (len (p ++ r)) (len p) sn dl (p ++ o) n0 in
  let s' n := RxState true (len (p ++ r)) (len (p ++ take 7 r)) ((sn + 1) mod 16) dl'
                      ((p ++ take 7 r) ++ drop (length (take 7 r)) o) n in
  recv_cf PCI_CF (0x20 + sn) f s w =
    Done (if decide (drop 7 r = []) then Stop 0 (s' (len (p ++ r))) else Again (s' n0),
          World (obj w) (2 + readings w) (draws w)).
Proof.
  intros Hne Hsn Ho Hmax Hd Hdl dl' s s'. unfold recv_cf, now_ms, vecu_now_ms.
  assert (Hr : 1 <= len r) by (destruct r; [done|unfold len; simpl; lia]).
  rewrite (mbind_Done _ _ w (now_at w) (World (obj w) (S (readings w)) (draws w))) by done.
  rewrite Z.gtb_ltb, (proj2 (Z.ltb_ge _ _)) by done. change (0x20 + sn) with (2 * 16 + sn) at 1.
  rewrite pci_low by done. change (PCI_CF !=? PCI_CF) with false. cbn iota.
  unfold s. cbn [next_sn total_len got rx_out receiving rx_out_len]. rewrite Z.eqb_refl. cbn [negb].
  rewrite len_app in *. pose proof (len_nonneg p). unfold ISOTP_MAX_PAYLOAD in Hmax.
  replace (u64 (len p + len r - len p)) with (len r) by (rewrite u64_id; lia).
  assert (Hc : (if len r >? 7 then 7 else len r) = len (take 7 r)).
  { rewrite Z.gtb_ltb. unfold len. rewrite length_take. destruct (Z.ltb_spec 7 (Z.of_nat (length r))); lia. }
  rewrite Hc, Hd. unfold pad7.
  assert (Hlt : len (take 7 r) <= len r) by (unfold len; rewrite length_take; lia).
  rewrite copy_chunk by lia. cbn [of_outcome].
  rewrite (mbind_Done _ _ _ (p ++ take 7 r ++ drop (length (take 7 r)) o) (World (obj w) (S (readings w)) (draws w))) by done.
  rewrite (mbind_Done _ _ _ (ms_of_timespec (clock_gettime (S (readings w)))) (World (obj w) (2 + readings w) (draws w))) by done.
  rewrite next_sn_mod by done.
  assert (Hu : u64 (ms_of_timespec (clock_gettime (S (readings w))) + ISOTP_N_CR_MS) = dl').
  { apply u64_id. pose proof (now_bounded (World () (S (readings w)) 0)) as Hb.
    unfold now_at, SECURITY_LOCK_DURATION_MS, ISOTP_N_CR_MS in *. cbn [readings] in Hb. lia. }
  rewrite Hu, Z.geb_leb. unfold s'. rewrite <- app_assoc, !len_app.
  pose proof (take_drop 7 r) as Htd. apply (f_equal len) in Htd. rewrite len_app in Htd.
  destruct (decide (drop 7 r = [])) as [H7|H7].
  - rewrite H7, len_nil in Htd. by rewrite (proj2 (Z.leb_le _ _)) by lia.
  - assert (1 <= len (drop 7 r)) by (destruct (drop 7 r); [done|unfold len; simpl; lia]).
    by rewrite (proj2 (Z.leb_gt _ _)) by lia.
Qed.

(** Consecutive readings of the clock are at most a second apart. *)
Definition clock_steady : Prop :=
  ∀ n, ms_of_timespec (clock_gettime (S n)) <= ms_of_timespec (clock_gettime n) + ISOTP_N_CR_MS.

Lemma omap_for_id_cons id r rs :
  omap (for_id id) (r :: rs) = option_list (for_id id r) ++ omap (for_id id) rs.
Proof. apply omap_cons_app. Qed.

Lemma recv_busy addr cap tail `{!ClockBounded E} : clock_steady →
  ∀ reads fuel p r o sn dl n0 w,
  r ≠ [] → 0 <= sn < 16 → len r <= len o → len (p ++ r) <= ISOTP_MAX_PAYLOAD →
  0 <= io_sock (obj w) → io_rx (obj w) = reads ++ tail → Forall is_frame reads →
  omap (for_id (rx_id addr)) reads = map (frame (rx_id addr)) (consecutive sn r) →
  now_at w <= dl → (length reads < fuel)%nat →
  ∃ s' w', for_ever (recv_iter addr cap) fuel (RxState true (len (p ++ r)) (len p) sn dl (p ++ o) n0) w
             = Done ((0, s'), w') ∧
    rx_out s' = (p ++ r) ++ drop (length r) o ∧ rx_out_len s' = len (p ++ r).
Proof.
  intros Hst. induction reads as [|x reads IH]; intros [|fuel] p r o sn dl n0 w Hne Hsn Ho Hmax Hs Hrx Hfr Hus Hdl Hf;
    try (simpl in Hf; lia).
  - by rewrite consecutive_step in Hus.
  - apply Forall_cons in Hfr as [[f ->] Hfr]. cbn [app] in Hrx.
    rewrite omap_for_id_cons in Hus. simpl in Hf.
    destruct (Z.eqb_spec (Z.land (can_id f) CAN_SFF_MASK) (rx_id addr)) as [Hid|Hid]; cbn [for_id] in Hus.
    + rewrite Hid, Z.eqb_refl, consecutive_step in Hus by done. cbn [option_list app map] in Hus. injection Hus as Hff Hus.
      assert (Hd : f_data f = (0x20 + sn) :: pad7 (take 7 r)) by (by rewrite Hff).
      pose proof (recv_cf_run f p r o sn dl n0 (next_read w (reads ++ tail)) Hne Hsn Ho Hmax Hd Hdl) as Hcf.
      cbv zeta in Hcf. set (s := RxState true _ _ _ _ _ n0) in *.
      pose proof (recv_iter_ours addr cap s f (0x20 + sn) _ (reads ++ tail) w Hs Hrx Hid Hd) as Hi.
      change (0x20 + sn) with (2 * 16 + sn) in Hi at 2 3 4 5.
      rewrite pci_type in Hi by lia. cbn [receiving s negb] in Hi. change 2 with PCI_CF in Hi at 1.
      change (2 * 16 + sn) with (0x20 + sn) in Hi. rewrite Hcf in Hi. destruct (decide (drop 7 r = [])) as [H7|H7].
      * rewrite (for_ever_stop _ _ _ _ _ _ _ Hi). eexists _, _. split; [done|].
        assert (Ht : take 7 r = r) by (rewrite <- (take_drop 7 r) at 2; by rewrite H7, app_nil_r).
        cbn [rx_out rx_out_len]. by rewrite Ht.
      * rewrite (for_ever_again _ _ _ _ _ _ Hi).
        destruct (IH fuel (p ++ take 7 r) (drop 7 r) (drop (length (take 7 r)) o) ((sn + 1) mod 16)
          (ms_of_timespec (clock_gettime (S (readings w))) + ISOTP_N_CR_MS) n0
          (World (obj (next_read w (reads ++ tail))) (2 + readings w) (draws w)))
          as (s2 & w2 & Hr2 & Ho2 & Hn2);
          [done|apply Z.mod_pos_bound; lia| |by rewrite <- app_assoc, take_drop|done|done|done|done|apply Hst|lia|].
        { rewrite length_take. unfold len in *. rewrite !length_drop. lia. }
        rewrite <- (app_assoc p), take_drop in Hr2, Ho2, Hn2.
        exists s2, w2. split; [exact Hr2|]. split; [|exact Hn2].
        rewrite Ho2, drop_drop. do 2 f_equal. rewrite <- length_app, take_drop. done.
    + rewrite (proj2 (Z.eqb_neq _ _) Hid) in Hus. cbn [option_list app] in Hus.
      rewrite (for_ever_again _ _ _ _ _ _ (recv_iter_foreign addr cap _ f (reads ++ tail) w Hs Hrx Hid)).
      apply IH; [done..|lia].
Qed.

(** A single frame. *)
Lemma recv_sf_run cap f msg s w :
  1 <= len msg <= 7 → len msg <= cap → cap <= len (rx_out s) → f_data f = len msg :: pad7 msg →
  ∃ s', recv_sf cap (len msg) f s w = Done (Stop 0 s', w) ∧
    rx_out s' = msg ++ drop (length msg) (rx_out s) ∧ rx_out_len s' = len msg.
Proof.
  intros Hl Hc Ho Hd. unfold recv_sf. rewrite land_15, Z.mod_small, !Z.gtb_ltb by lia. dec. cbn [orb].
  pose proof (copy_chunk [] msg (replicate (7 - length msg) ISOTP_PADDING) (rx_out s) (len msg) ltac:(lia)) as Hcp.
  rewrite Hd. unfold pad7. change (len []) with 0 in Hcp. rewrite !app_nil_l in Hcp. rewrite Hcp. by eexists.
Qed.

Lemma fc_frame_spec id : fc_frame id = Done (frame id [0x30; 0; 0; 0; 0; 0; 0; 0]).
Proof. done. Qed.

(** A first frame: the length, six bytes, and a clear-to-send. *)
Lemma recv_ff_run addr cap f msg s w `{!ClockBounded E} :
  writes_ok → 0 <= io_sock (obj w) →
  8 <= len msg <= ISOTP_MAX_PAYLOAD → len msg <= cap → cap <= len (rx_out s) →
  f_data f = (0x10 + len msg / 256) :: len msg mod 256 :: take 6 msg →
  ∃ w', recv_ff addr cap (0x10 + len msg / 256) f s w =
      Done (Again (RxState true (len msg) 6 1 (now_at w + ISOTP_N_CR_MS) (take 6 msg ++ drop 6 (rx_out s))
                     (rx_out_len s)), w') ∧
    io_sock (obj w') = io_sock (obj w) ∧ io_rx (obj w') = io_rx (obj w) ∧ readings w' = S (readings w).
Proof.
  intros Hok Hs Hl Hc Ho Hd. unfold recv_ff. unfold ISOTP_MAX_PAYLOAD in Hl.
  rewrite (mbind_Done _ _ _ (len msg mod 256) w) by (by rewrite Hd). cbv zeta.
  assert (Hq : 0 <= len msg / 256 < 16) by (Z.div_mod_to_equations; lia).
  change (0x10 + len msg / 256) with (1 * 16 + len msg / 256). rewrite pci_low by done.
  rewrite lor_shiftl_add by (change (2 ^ 8) with 256; Z.div_mod_to_equations; lia).
  replace (len msg / 256 * 2 ^ 8 + len msg mod 256) with (len msg)
    by (change (2 ^ 8) with 256; Z.div_mod_to_equations; lia).
  unfold ISOTP_MAX_PAYLOAD. rewrite !Z.gtb_ltb. dec. cbn [orb rx_set_total rx_out deadline rx_out_len].
  assert (H6 : len (take 6 msg) = 6) by (apply (len_take msg 6); lia).
  rewrite (mbind_Done _ _ _ (take 6 msg ++ drop 6 (rx_out s)) w).
  2: { rewrite Hd, memcpy_defined; rewrite ?len_cons; [|lia..].
       change (Z.to_nat 2) with 2%nat. cbn [drop]. rewrite drop_0.
       change (Z.to_nat 0) with 0%nat. change (Z.to_nat 6) with 6%nat. change (Z.to_nat (0 + 6)) with 6%nat.
       rewrite take_take. done. }
  unfold send_fc_cts. rewrite fc_frame_spec.
  destruct (send_ok (frame (tx_id addr) [0x30; 0; 0; 0; 0; 0; 0; 0]) w Hok Hs) as (w1 & Hw1 & Hs1 & Hrx1 & Hrd1).
  rewrite (mbind_Done _ _ _ 0 w1) by exact Hw1. cbn [Z.eqb negb]. unfold now_ms, vecu_now_ms.
  rewrite (mbind_Done _ _ w1 (now_at w) (World (obj w1) (S (readings w)) (draws w1)))
    by (unfold now_at; by rewrite Hrd1).
  unfold rx_set_deadline. cbn [receiving total_len got next_sn rx_out rx_out_len].
  rewrite u64_id by (pose proof (now_bounded w); unfold SECURITY_LOCK_DURATION_MS, ISOTP_N_CR_MS in *; lia).
  eexists. split; [done|]. done.
Qed.

(** The iteration that reads the whole of a short message, and the one that
    reads the start of a long one. *)
Lemma recv_iter_single addr cap f msg s rx w :
  0 <= io_sock (obj w) → io_rx (obj w) = FrameRead f :: rx → Z.land (can_id f) CAN_SFF_MASK = rx_id addr →
  receiving s = false → 1 <= len msg <= 7 → len msg <= cap → cap <= len (rx_out s) → f_data f = len msg :: pad7 msg →
  ∃ s', recv_iter addr cap s w = Done (Stop 0 s', next_read w rx) ∧
    rx_out s' = msg ++ drop (length msg) (rx_out s) ∧ rx_out_len s' = len msg.
Proof.
  intros Hs Hrx Hid Hidle Hl Hc Ho Hd.
  destruct (recv_sf_run cap f msg s (next_read w rx) Hl Hc Ho Hd) as (s' & Hr & Hs').
  exists s'. split; [|exact Hs']. rewrite (recv_iter_ours addr cap s f _ _ rx w Hs Hrx Hid Hd).
  assert (Hpci : PCI_TYPE (len msg) = 0) by (exact (pci_type 0 (len msg) ltac:(lia) ltac:(lia))).
  rewrite Hidle, Hpci. exact Hr.
Qed.

Lemma recv_iter_first addr cap f msg s rx w `{!ClockBounded E} :
  writes_ok → 0 <= io_sock (obj w) → io_rx (obj w) = FrameRead f :: rx → Z.land (can_id f) CAN_SFF_MASK = rx_id addr →
  receiving s = false → 8 <= len msg <= ISOTP_MAX_PAYLOAD → len msg <= cap → cap <= len (rx_out s) →
  f_data f = (0x10 + len msg / 256) :: len msg mod 256 :: take 6 msg →
  ∃ w', recv_iter addr cap s w =
      Done (Again (RxState true (len msg) 6 1 (now_at w + ISOTP_N_CR_MS) (take 6 msg ++ drop 6 (rx_out s))
                     (rx_out_len s)), w') ∧
    io_sock (obj w') = io_sock (obj w) ∧ io_rx (obj w') = rx ∧ readings w' = S (readings w).
Proof.
  intros Hok Hs Hrx Hid Hidle Hl Hc Ho Hd.
  destruct (recv_ff_run addr cap f msg s (next_read w rx) Hok Hs Hl Hc Ho Hd) as (w' & Hr & Hw').
  exists w'. split; [|exact Hw']. rewrite (recv_iter_ours addr cap s f _ _ rx w Hs Hrx Hid Hd).
  assert (Hq : 0 <= len msg / 256 < 16) by (unfold ISOTP_MAX_PAYLOAD in Hl; Z.div_mod_to_equations; lia).
  assert (Hpci : PCI_TYPE (0x10 + len msg / 256) = 1) by (by apply (pci_type 1)).
  rewrite Hidle, Hpci. exact Hr.
Qed.

(** Idle until the message starts. *)
Lemma recv_idle addr cap tail msg `{!ClockBounded E} :
  clock_steady → writes_ok → 1 <= len msg <= ISOTP_MAX_PAYLOAD → len msg <= cap →
  ∀ reads fuel s w,
  receiving s = false → cap <= len (rx_out s) →
  0 <= io_sock (obj w) → io_rx (obj w) = reads ++ tail → Forall is_frame reads →
  omap (for_id (rx_id addr)) reads = map (frame (rx_id addr)) (segment msg) →
  (length reads < fuel)%nat →
  ∃ s' w', for_ever (recv_iter addr cap) fuel s w = Done ((0, s'), w') ∧
    rx_out s' = msg ++ drop (length msg) (rx_out s) ∧ rx_out_len s' = len msg.
Proof.
  intros Hst Hok Hl Hc. induction reads as [|x reads IH]; intros [|fuel] s w Hidle Ho Hs Hrx Hfr Hus Hf;
    try (simpl in Hf; lia).
  - exfalso. unfold segment in Hus. by destruct (len msg <=? 7).
  - apply Forall_cons in Hfr as [[f ->] Hfr]. cbn [app] in Hrx.
    rewrite omap_for_id_cons in Hus. simpl in Hf.
    destruct (Z.eqb_spec (Z.land (can_id f) CAN_SFF_MASK) (rx_id addr)) as [Hid|Hid]; cbn [for_id] in Hus.
    2: { rewrite (proj2 (Z.eqb_neq _ _) Hid) in Hus. cbn [option_list app] in Hus.
         rewrite (for_ever_again _ _ _ _ _ _ (recv_iter_foreign addr cap _ f (reads ++ tail) w Hs Hrx Hid)).
         apply IH; [done..|lia]. }
    rewrite Hid, Z.eqb_refl in Hus. unfold segment in Hus. destruct (Z.leb_spec (len msg) 7) as [H7|H7].
    + injection Hus as Hff _.
      destruct (recv_iter_single addr cap f msg s (reads ++ tail) w Hs Hrx Hid Hidle) as (s' & Hi & Hs');
        [lia|lia|lia|by rewrite Hff|].
      rewrite (for_ever_stop _ _ _ _ _ _ _ Hi). by exists s', (next_read w (reads ++ tail)).
    + injection Hus as Hff Hus.
      destruct (recv_iter_first addr cap f msg s (reads ++ tail) w Hok Hs Hrx Hid Hidle) as (w1 & Hi & Hs1 & Hrx1 & Hrd1);
        [lia|lia|lia|by rewrite Hff|].
      rewrite (for_ever_again _ _ _ _ _ _ Hi).
      assert (H6 : len (take 6 msg) = 6) by (apply (len_take msg 6); lia).
      assert (H6' : len (drop 6 msg) = len msg - 6) by (apply (len_drop msg 6); lia).
      destruct (recv_busy addr cap tail Hst reads fuel (take 6 msg) (drop 6 msg) (drop 6 (rx_out s)) 1
        (now_at w + ISOTP_N_CR_MS) (rx_out_len s) w1) as (s2 & w2 & Hr2 & Ho2 & Hn2).
      * intros Hn. rewrite Hn in H6'. change (len []) with 0 in H6'. lia.
      * lia.
      * pose proof (len_drop (rx_out s) 6 ltac:(lia)) as Hdo. change (Z.to_nat 6) with 6%nat in Hdo. lia.
      * rewrite take_drop. lia.
      * by rewrite Hs1.
      * by rewrite Hrx1.
      * done.
      * done.
      * unfold now_at at 1. rewrite Hrd1. apply Hst.
      * lia.
      * rewrite take_drop, H6 in Hr2. rewrite take_drop in Ho2, Hn2.
        eexists _, _. split; [exact Hr2|]. split; [|exact Hn2]. rewrite Ho2, drop_drop. do 2 f_equal.
        rewrite length_drop. unfold len in H7. lia.
Qed.

Lemma recv_segment addr msg out cap n0 reads tail w `{!ClockBounded E} :
  clock_steady → writes_ok → 1 <= len msg <= ISOTP_MAX_PAYLOAD → len msg <= cap <= len out →
  0 <= io_sock (obj w) → io_rx (obj w) = reads ++ tail → Forall is_frame reads →
  omap (for_id (rx_id addr)) reads = map (frame (rx_id addr)) (segment msg) →
  ∃ w', isotp_recv PTR (Some addr) (Some out) cap (Some n0) w
          = Done ((0, Some (msg ++ drop (length msg) out, len msg)), w').
Proof.
  intros Hst Hok Hl Hc Hs Hrx Hfr Hus. unfold isotp_recv.
  destruct (recv_idle addr cap tail msg Hst Hok Hl ltac:(lia) reads (bus_fuel w) (RxState false 0 0 1 0 out n0) w)
    as (s' & w' & Hr & Ho & Hn); [done|simpl; lia|done|done|done|done| |].
  - unfold bus_fuel. rewrite Hrx, length_app. lia.
  - unfold with_bus_fuel, mbind, cs_bind. rewrite Hr. exists w'. simpl in Ho, Hn. by rewrite Ho, Hn.
Qed.
End receive.

(** * Receiving on any bus *)

Section receive_any.
Context {E : Env} {B : CanBus} (addr : isotp_addr_t) (cap L n0 : Z) (tx0 : list can_frame).
Implicit Types (w : world can_io_t) (s : rx_state).

(** Only clear-to-send frames have been sent. *)
Definition only_fc w : Prop :=
  ∃ k, io_tx (obj w) = tx0 ++ replicate k (frame (tx_id addr) [0x30; 0; 0; 0; 0; 0; 0; 0]).

Record rx_inv s w : Prop := {
  ri_bus : bus_wf w;
  ri_out : len (rx_out s) = L ∧ Forall is_byte (rx_out s);
  ri_out_len : rx_out_len s = n0;
  ri_busy : receiving s = true →
    8 <= total_len s <= ISOTP_MAX_PAYLOAD ∧ total_len s <= cap ∧ 6 <= got s < total_len s;
  ri_sent : only_fc w
}.

Definition rx_result (rc : Z) s w : Prop :=
  (rc = 0 ∨ rc = 1 ∨ rc = -1) ∧ len (rx_out s) = L ∧ Forall is_byte (rx_out s) ∧
  (if decide (rc = 0) then 1 <= rx_out_len s <= Z.min cap ISOTP_MAX_PAYLOAD else rx_out_len s = n0) ∧ only_fc w.

(** What an iteration may do. *)
Definition iter_ok (left : nat) (o : outcome (next rx_state * world can_io_t)) : Prop :=
  match o with
  | Done (Again s', w') => rx_inv s' w' ∧ (rx_left w' < left)%nat
  | Done (Stop rc s', w') => rx_result rc s' w'
  | Blocked => True
  | Undefined => False
  end.

Lemma rx_inv_stop rc s w : rx_inv s w → rc = 1 ∨ rc = -1 → rx_result rc s w.
Proof.
  intros [_ [Ho Hb] Hn _ Ht] Hrc. split; [by right|]. split; [done|]. split; [done|].
  rewrite decide_False by (by destruct Hrc as [->| ->]). done.
Qed.

(** A copy of [n] payload bytes at [off]. *)
Lemma copy_any (out d : bytes) off src n :
  0 <= off → 0 <= src → 0 <= n → off + n <= len out → src + n <= len d →
  Forall is_byte out → Forall is_byte d →
  ∃ out', memcpy out off d src n = Done out' ∧ len out' = len out ∧ Forall is_byte out'.
Proof.
  intros. eexists. split; [by apply memcpy_defined|]. split.
  - by eapply memcpy_len, memcpy_defined.
  - repeat (apply Forall_app; split); auto using Forall_take, Forall_drop.
Qed.

Section iteration.
Context (HL : 0 <= cap <= L) (f : can_frame) (Hf : frame_wf f).

Lemma recv_sf_any b0 s w left : rx_inv s w → (rx_left w < left)%nat → iter_ok left (recv_sf cap b0 f s w).
Proof.
  intros Hi Hw. pose proof Hi as [Hbus [Ho Hb] Hn Hbusy Ht]. destruct Hf as [H8 Hfb].
  unfold recv_sf. rewrite land_15, !Z.gtb_ltb. pose proof (Z.mod_pos_bound b0 16 ltac:(lia)) as Hm.
  destruct ((_ =? 0) || _ || _) eqn:Hg; [by split|]. rewrite !orb_false_iff in Hg. destruct Hg as [[H0 H7] Hc].
  apply Z.eqb_neq in H0. apply Z.ltb_ge in H7, Hc.
  destruct (copy_any (rx_out s) (f_data f) 0 1 (b0 mod 16)) as (out & -> & Hl & Hbo); [lia..|done|done|].
  split; [by left|]. simpl. split; [lia|]. split; [done|]. split; [unfold ISOTP_MAX_PAYLOAD; lia|done].
Qed.

Lemma recv_ff_any b0 s w left :
  receiving s = false → rx_inv s w → (rx_left w < left)%nat → iter_ok left (recv_ff addr cap b0 f s w).
Proof.
  intros Hidle Hi Hw. pose proof Hi as [Hbus [Ho Hb] Hn Hbusy [k Ht]]. destruct Hf as [H8 Hfb].
  unfold recv_ff. destruct (ld_in_range (f_data f) 1) as (b1 & Hb1 & _); [lia|].
  rewrite (mbind_Done _ _ _ b1 w) by (by rewrite Hb1). cbv zeta. set (total := Z.lor _ b1).
  destruct ((_ <? 8) || _ || _) eqn:Hg.
  { split; [|done]. unfold rx_set_total. split; simpl; [done|done|done| |by exists k].
    rewrite Hidle. done. }
  rewrite !Z.gtb_ltb, !orb_false_iff in Hg. destruct Hg as [[H8t Hmax] Hc].
  apply Z.ltb_ge in H8t, Hmax, Hc.
  destruct (copy_any (rx_out s) (f_data f) 0 2 6) as (out & Hcp & Hl & Hbo); [lia..|done|done|].
  cbn [rx_set_total rx_out deadline rx_out_len]. rewrite (mbind_Done _ _ _ out w) by (by rewrite Hcp).
  unfold send_fc_cts. rewrite fc_frame_spec. set (fc := frame _ _).
  pose proof (send_hands_over fc True w Hbus) as Hsend.
  destruct (send_returns fc w) as (rc & w1 & Hrun & Hrx). rewrite Hrun in Hsend.
  assert (Hleft : rx_left w1 = rx_left w) by (unfold rx_left; by rewrite Hrx).
  destruct Hsend as (Hbus1 & Hrc & j & Htx & _).
  assert (Hfc : only_fc w1).
  { rewrite Ht in Htx. destruct j as [|j].
    - exists k. by rewrite Htx, app_nil_r.
    - exists (k + 1)%nat. rewrite Htx, replicate_add, app_assoc. simpl. by rewrite take_nil. }
  assert (Hinv : ∀ dl w2, obj w2 = obj w1 → rx_inv (RxState true total 6 1 dl out (rx_out_len s)) w2).
  { intros dl w2 Hw2. split; simpl; unfold bus_wf, only_fc; rewrite ?Hw2; [done|split; [lia|done]|done| |done].
    intros _. split; [lia|]. split; [lia|]. lia. }
  rewrite (mbind_Done _ _ _ rc w1) by exact Hrun.
  destruct (Z.eqb_spec rc 0) as [->|Hne]; cbn [negb].
  - split; [by apply Hinv|]. unfold rx_left in *. simpl. lia.
  - apply rx_inv_stop; [by apply Hinv|by right].
Qed.

Lemma recv_cf_any pci b0 s w left :
  receiving s = true → rx_inv s w → (rx_left w < left)%nat → iter_ok left (recv_cf pci b0 f s w).
Proof.
  intros Hr Hi Hw. pose proof Hi as [Hbus [Ho Hb] Hn Hbusy Ht]. destruct Hf as [H8 Hfb].
  destruct (Hbusy Hr) as (Htot & Hcap & Hgot). unfold recv_cf, now_ms, vecu_now_ms.
  set (w1 := World (obj w) (S (readings w)) (draws w)).
  rewrite (mbind_Done _ _ w (now_at w) w1) by done.
  assert (Hi1 : rx_inv s w1) by (by split).
  destruct (now_at w >? deadline s); [apply rx_inv_stop; [done|by right]|].
  destruct (negb (pci =? PCI_CF)).
  { split; [|done]. by split. }
  destruct (negb (_ =? next_sn s)); [apply rx_inv_stop; [done|by right]|]. cbv zeta.
  unfold ISOTP_MAX_PAYLOAD in Htot. rewrite (u64_id (total_len s - got s)) by lia. rewrite Z.gtb_ltb.
  set (chunk := if 7 <? total_len s - got s then 7 else total_len s - got s).
  assert (Hc : 1 <= chunk <= 7 ∧ chunk <= total_len s - got s)
    by (unfold chunk; destruct (Z.ltb_spec 7 (total_len s - got s)); lia).
  destruct (copy_any (rx_out s) (f_data f) (got s) 1 chunk) as (out & Hcp & Hl & Hbo); [lia..|done|done|].
  rewrite (mbind_Done _ _ w1 out w1) by (by rewrite Hcp).
  rewrite (mbind_Done _ _ w1 (now_at w1) (World (obj w) (S (S (readings w))) (draws w))) by done.
  rewrite Z.geb_leb. cbn [total_len]. destruct (Z.leb_spec (total_len s) (got s + chunk)) as [Hd|Hd].
  - split; [by left|]. simpl. split; [lia|]. split; [done|]. split; [unfold ISOTP_MAX_PAYLOAD; lia|done].
  - split; [|done]. split; simpl; [done|split; [lia|done]|done| |done]. intros _.
    unfold ISOTP_MAX_PAYLOAD. lia.
Qed.
End iteration.

Lemma recv_iter_any s w : 0 <= cap <= L → rx_inv s w → iter_ok (rx_left w) (recv_iter addr cap s w).
Proof.
  intros HL Hi. pose proof Hi as [Hbus Ho Hn Hbusy Ht]. unfold recv_iter, can_io_recv. cbn [is_null orb].
  unfold mbind at 1, cs_bind at 1.
  destruct (io_sock (obj w) <? 0); [apply rx_inv_stop; [done|by right]|].
  unfold bus_wf in Hbus. destruct (io_rx (obj w)) as [|r rx] eqn:Hrx; [done|].
  apply Forall_cons in Hbus as [Hr Hbus]. unfold rx_left. rewrite Hrx.
  set (w1 := World (CanIo _ _ rx _ _) _ _).
  assert (Hi1 : rx_inv s w1) by (by split). assert (Hl1 : (rx_left w1 < length (r :: rx))%nat) by (unfold rx_left; simpl; lia).
  destruct r as [f|n|e]; cbn [Z.eqb negb].
  - cbn [frame_of]. rewrite (mbind_Done _ _ _ f w1) by done. destruct (negb (_ =? rx_id addr)); [by split|].
    destruct (ld_in_range (f_data f) 0) as (b0 & Hb0 & _); [rewrite (proj1 Hr); lia|].
    rewrite (mbind_Done _ _ _ b0 w1) by (by rewrite Hb0). cbv zeta. destruct (receiving s) eqn:Hrc; cbn [negb].
    + by apply recv_cf_any.
    + destruct (_ =? PCI_SF); [by apply recv_sf_any|]. destruct (_ =? PCI_FF); [by apply recv_ff_any|by split].
  - apply rx_inv_stop; [done|by right].
  - destruct (e =? EINTR); apply rx_inv_stop; first [done | by left | by right].
Qed.

End receive_any.

(** * Properties *)

Section properties.
Context {E : Env} {B : CanBus}.
Implicit Types w : world can_io_t.

(** C20: sending never leaves the frame format, on any bus: the frames handed
    to the socket are a prefix of the segmentation of the message, all of it
    when 0 is returned; only a message of more than seven bytes may wait (for
    flow control); no access is out of bounds. *)
Theorem isotp_send_segments addr msg post w :
  1 <= len msg <= ISOTP_MAX_PAYLOAD → bus_wf w →
  match isotp_send PTR (Some addr) (Some (msg ++ post)) (len msg) w with
  | Done (rc, w') =>
      (rc = 0 ∨ rc = -1) ∧
      ∃ k, io_tx (obj w') = io_tx (obj w) ++ take k (map (frame (tx_id addr)) (segment msg)) ∧
           (rc = 0 → (length (segment msg) ≤ k)%nat)
  | Blocked => 7 < len msg
  | Undefined => False
  end.
Proof.
  intros Hl Hw. pose proof (isotp_send_hands_over addr msg post Hl w Hw) as H.
  destruct (isotp_send _ _ _ _ w) as [[rc w']| |]; [|done..]. rewrite length_map in H. tauto.
Qed.

(** C19: receiving is safe on any bus: whatever frames arrive, no access is
    out of bounds, a returned message fits the buffer and the 4095 bytes of
    the protocol, nothing but clear-to-send frames is sent, and the bound on
    the iterations is never what stops the loop. *)
Theorem isotp_recv_safe addr out cap n0 w :
  bus_wf w → 0 <= cap <= len out → Forall is_byte out →
  match isotp_recv PTR (Some addr) (Some out) cap (Some n0) w with
  | Done ((rc, Some (out', n)), w') =>
      (rc = 0 ∨ rc = 1 ∨ rc = -1) ∧ len out' = len out ∧ Forall is_byte out' ∧
      (if decide (rc = 0) then 1 <= n <= Z.min cap ISOTP_MAX_PAYLOAD else n = n0) ∧
      ∃ k, io_tx (obj w') = io_tx (obj w) ++ replicate k (frame (tx_id addr) [0x30; 0; 0; 0; 0; 0; 0; 0])
  | Blocked => True
  | _ => False
  end ∧
  ∀ fuel, (bus_fuel w ≤ fuel)%nat →
    for_ever (recv_iter addr cap) fuel (RxState false 0 0 1 0 out n0) w =
    for_ever (recv_iter addr cap) (bus_fuel w) (RxState false 0 0 1 0 out n0) w.
Proof.
  intros Hw Hc Hb. set (s0 := RxState false 0 0 1 0 out n0).
  assert (H0 : rx_inv addr cap (len out) n0 (io_tx (obj w)) s0 w).
  { split; [done|done|done|done|]. exists 0%nat. by rewrite app_nil_r. }
  assert (Hstep : ∀ s w', rx_inv addr cap (len out) n0 (io_tx (obj w)) s w' →
    iter_ok addr cap (len out) n0 (io_tx (obj w)) (rx_left w') (recv_iter addr cap s w')) by (intros; by apply recv_iter_any).
  split.
  - opose proof (for_ever_inv (recv_iter addr cap) (rx_inv addr cap (len out) n0 (io_tx (obj w)))
      (rx_result addr cap (len out) n0 (io_tx (obj w))) True Hstep (bus_fuel w) s0 w H0 _) as H.
    { unfold bus_fuel, rx_left. lia. }
    unfold isotp_recv, with_bus_fuel, mbind, cs_bind. fold s0.
    destruct (for_ever _ _ s0 w) as [[[rc s] w']| |]; [|done..]. exact H.
  - intros fuel Hf. apply (for_ever_fuel _ (rx_inv addr cap (len out) n0 (io_tx (obj w)))); [|done|unfold bus_fuel, rx_left in *; lia..].
    intros s w1 s' w1' Hi Hr. pose proof (Hstep s w1 Hi) as H. by rewrite Hr in H.
Qed.

(** C37: the wait for flow control is not bounded by its one-second deadline:
    for every clock it goes on for ever on a silent bus, and a clear-to-send
    that comes after any number of WAIT frames is accepted, however late. *)
Theorem fc_wait_unbounded id w :
  0 <= io_sock (obj w) →
  (io_rx (obj w) = [] → wait_for_fc id w = Blocked) ∧
  (∀ waits f tail, io_rx (obj w) = waits ++ FrameRead f :: tail →
     Forall (λ r, ∃ g, r = FrameRead g ∧ is_fc id FC_FS_WAIT g) waits → is_fc id FC_FS_CTS f →
     ∃ w', wait_for_fc id w = Done (0, w')).
Proof.
  intros Hs. unfold wait_for_fc, now_ms, vecu_now_ms, with_bus_fuel, mbind, cs_bind. set (dl := u64 _).
  set (w1 := World (obj w) _ _). split.
  - intros Hrx. unfold bus_fuel. simpl. unfold mbind, cs_bind, fc_iter, mbind, cs_bind, can_io_recv. cbn [is_null orb].
    cbn [obj w1]. rewrite Hrx. by rewrite (proj2 (Z.ltb_ge _ _)).
  - intros waits f tail Hrx Hwt Hf.
    assert (Hr : ∀ fuel w, 0 <= io_sock (obj w) → io_rx (obj w) = waits ++ FrameRead f :: tail →
      (length waits < fuel)%nat → ∃ w', for_ever (fc_iter id dl) fuel () w = Done ((0, ()), w')).
    { clear -Hwt Hf. induction waits as [|r waits IH]; intros [|fuel] v Hs Hrx Hfuel; try (simpl in Hfuel; lia).
      - eexists. apply for_ever_stop. by apply (fc_iter_fc id FC_FS_CTS dl f tail).
      - apply Forall_cons in Hwt as [(g & -> & Hg) Hwt].
        rewrite (for_ever_again _ _ _ () _ (next_read v (waits ++ FrameRead f :: tail)))
          by (by apply (fc_iter_fc id FC_FS_WAIT dl g)).
        apply IH; [done..|simpl in Hfuel; lia]. }
    destruct (Hr (bus_fuel w1) w1) as (w' & ->); [done|done|unfold bus_fuel; simpl; rewrite Hrx, length_app; simpl; lia|].
    by exists w'.
Qed.
End properties.

(** C8: round trip: with a cooperating bus a message of 1 to 4095 bytes is
    sent, and a receiver that sees the frames sent, in order, among any
    frames for others, returns the same message. *)
Theorem isotp_roundtrip (E1 E2 : Env) (B1 B2 : CanBus) `{!ClockBounded E1, !ClockBounded E2}
    addr raddr msg post out cap n0 reads tail (w v : world can_io_t) :
  1 <= len msg <= ISOTP_MAX_PAYLOAD → bus_wf w →
  writes_ok (B:=B1) → 0 <= io_sock (obj w) → (7 < len msg → fc_granted (E:=E1) addr w) →
  ∃ w' fs, isotp_send (E:=E1) (B:=B1) PTR (Some addr) (Some (msg ++ post)) (len msg) w = Done (0, w') ∧
    io_tx (obj w') = io_tx (obj w) ++ fs ∧
    (rx_id raddr = Z.land (tx_id addr) CAN_SFF_MASK → clock_steady (E:=E2) → writes_ok (B:=B2) →
     0 <= io_sock (obj v) → len msg <= cap <= len out →
     io_rx (obj v) = reads ++ tail → Forall is_frame reads → omap (for_id (rx_id raddr)) reads = fs →
     ∃ v', isotp_recv (E:=E2) (B:=B2) PTR (Some raddr) (Some out) cap (Some n0) v
             = Done ((0, Some (msg ++ drop (length msg) out, len msg)), v')).
Proof.
  intros Hl Hw Hok Hs Hfc. destruct (isotp_send_ok (E:=E1) (B:=B1) addr msg post w Hl Hok Hs Hfc) as (w' & Hr).
  pose proof (isotp_send_hands_over (E:=E1) (B:=B1) addr msg post Hl w Hw) as H. rewrite Hr in H.
  destruct H as (_ & _ & k & Htx & Hk). rewrite take_ge in Htx by (by apply Hk).
  exists w', (map (frame (tx_id addr)) (segment msg)). split; [done|]. split; [done|].
  intros Hid Hst Hok2 Hs2 Hc Hrx Hfr Hus.
  apply (recv_segment (E:=E2) (B:=B2) raddr msg out cap n0 reads tail v Hst Hok2 Hl Hc Hs2 Hrx Hfr).
  rewrite Hus. apply map_ext. intros d. unfold frame. rewrite Hid, <- Z.land_assoc. done.
Qed.

(** * The properties at concrete inputs *)

Definition demo_bus : CanBus := {| can_write n f := sizeof_can_frame |}.
Lemma demo_writes_ok : writes_ok (B:=demo_bus).
Proof. done. Qed.
Lemma demo_clock_steady : clock_steady (E:=demo_env).
Proof. intros n. rewrite !demo_ms. unfold ISOTP_N_CR_MS. lia. Qed.

Definition demo_ecu_addr : isotp_addr_t := IsotpAddr 0x7E0 0x7E8.
Definition demo_tester_addr : isotp_addr_t := IsotpAddr 0x7E8 0x7E0.
(** Twenty bytes: a first frame and two consecutive frames. *)
Definition demo_msg : bytes := seqZ 1 20.
Definition demo_foreign : can_read := FrameRead (frame 0x123 [1; 2; 3; 4; 5; 6; 7; 8]).
Definition demo_cts : can_frame := frame 0x7E0 [0x30; 0; 0; 0; 0; 0; 0; 0].

Definition demo_io (rx : list can_read) : world can_io_t := World (CanIo 3 [] rx 0 []) 0 0.
Definition demo_sender : world can_io_t := demo_io [demo_foreign; FrameRead demo_cts].
Definition demo_reads : list can_read := demo_foreign :: map (λ d, FrameRead (frame 0x7E8 d)) (segment demo_msg).

Lemma demo_bus_wf : bus_wf demo_sender.
Proof. repeat constructor; by compute. Qed.
Lemma demo_reads_wf : bus_wf (demo_io demo_reads).
Proof. repeat constructor; by compute. Qed.

Lemma isotp_send_segments_witness :
  match isotp_send (E:=demo_env) (B:=demo_bus) PTR (Some demo_ecu_addr) (Some (demo_msg ++ [])) (len demo_msg)
          demo_sender with
  | Done (rc, _) => rc = 0
  | _ => False
  end.
Proof.
  pose proof (isotp_send_segments (E:=demo_env) (B:=demo_bus) demo_ecu_addr demo_msg [] demo_sender
    ltac:(by compute) demo_bus_wf) as H.
  destruct (isotp_send _ _ _ _ demo_sender) as [[rc w']| |] eqn:Hr; [|by vm_compute in Hr|exact H].
  destruct H as ([->| ->] & _); [reflexivity|by vm_compute in Hr].
Defined.

Lemma isotp_recv_safe_witness :
  match isotp_recv (E:=demo_env) (B:=demo_bus) PTR (Some demo_tester_addr) (Some (replicate 32 0)) 32 (Some 0)
          (demo_io demo_reads) with
  | Done ((rc, Some (_, n)), _) => rc = 0 ∧ 1 <= n <= 32
  | _ => False
  end.
Proof.
  pose proof (isotp_recv_safe (E:=demo_env) (B:=demo_bus) demo_tester_addr (replicate 32 0) 32 0
    (demo_io demo_reads) demo_reads_wf ltac:(by compute) ltac:(by apply Forall_replicate)) as [H _].
  destruct (isotp_recv _ _ _ _ _ (demo_io demo_reads)) as [[[rc [[o n]|]] w']| |] eqn:Hr;
    [|exact H|by vm_compute in Hr|exact H].
  assert (rc = 0) as -> by (vm_compute in Hr; by injection Hr).
  destruct H as (_ & _ & _ & H & _). split; [reflexivity|]. change (Z.min 32 ISOTP_MAX_PAYLOAD) with 32 in H. exact H.
Defined.

(** Two WAIT frames, then clear to send. *)
Lemma fc_wait_unbounded_witness :
  let wait := FrameRead (frame 0x7E0 [0x31; 0; 0; 0; 0; 0; 0; 0]) in
  ∃ w', wait_for_fc (E:=demo_env) 0x7E0 (demo_io [wait; wait; FrameRead demo_cts]) = Done (0, w').
Proof.
  intros wt. destruct (fc_wait_unbounded (E:=demo_env) 0x7E0 (demo_io [wt; wt; FrameRead demo_cts]))
    as [_ H]; [by compute|].
  apply (H [wt; wt] demo_cts []); [reflexivity| |by split; [|eexists]].
  repeat constructor; (eexists; split; [reflexivity|]; split; [reflexivity|by eexists]).
Defined.

Lemma isotp_roundtrip_witness :
  ∃ w' v',
    isotp_send (E:=demo_env) (B:=demo_bus) PTR (Some demo_ecu_addr) (Some (demo_msg ++ [])) (len demo_msg) demo_sender
      = Done (0, w') ∧
    isotp_recv (E:=demo_env) (B:=demo_bus) PTR (Some demo_tester_addr) (Some (replicate 32 0)) 32 (Some 0)
      (demo_io (demo_reads ++ [])) = Done ((0, Some (demo_msg ++ replicate 12 0, 20)), v').
Proof.
  destruct (isotp_roundtrip demo_env demo_env demo_bus demo_bus demo_ecu_addr demo_tester_addr demo_msg []
    (replicate 32 0) 32 0 demo_reads [] demo_sender (demo_io (demo_reads ++ []))) as (w' & fs & Hs & Htx & H).
  - by compute.
  - exact demo_bus_wf.
  - exact demo_writes_ok.
  - by compute.
  - intros _. exists [demo_foreign], demo_cts, []. split; [reflexivity|]. split.
    { constructor; [right; eexists; split; [reflexivity|by compute]|constructor]. }
    split; [by split; [|eexists]|]. intros [|[|n]] Hn; [by compute..|simpl in Hn; lia].
  - exists w'. destruct H as (v' & H);
      [reflexivity|exact demo_clock_steady|exact demo_writes_ok|by compute|by compute|reflexivity| | |].
    + repeat constructor; by eexists.
    + vm_compute in Hs. injection Hs as <-. vm_compute in Htx. subst fs. reflexivity.
    + exists v'. split; [exact Hs|exact H].
Defined.
